(* ===== verification/_CoqProject ===== *)
-Q . S2P
Prelude.v
Hash.v
Crypto.v
Vm.v
Transaction.v
Token.v
Governance.v
Block.v
Account.v
Validators.v
Slashing.v
Finality.v
Settlement.v
BlockStore.v
BlockTree.v
Trie.v
StateRoot.v
Chain.v
Storage.v
Apply.v
Ledger.v
AddBlock.v
ChainSafety.v
Mempool.v
MempoolSafety.v
ForkChoice.v
Persistence.v
ForkChoiceSafety.v
PersistenceSafety.v
WorkerSafety.v
StateSync.v
StateSyncSafety.v
Light.v
Peers.v
Network.v
NetworkSafety.v
BlockSync.v
SnapshotSession.v
Queries.v
Text.v
EthRpc.v
EthRpcSafety.v
Rest.v
Http.v
HttpSafety.v
RpcServer.v
Wallet.v
Browser.v
Evm.v
Wasm.v
WasmSafety.v
Sdk.v
Contracts.v
Custody.v
