(* ===== verification/Prelude.v ===== *)
(** * Verification of the CURS3D node

    CURS3D is a proof-of-stake blockchain node in Rust. This library models the
    deterministic core of the node: the code that decides what a valid chain is
    and what state it leads to, what it stores of it, and what it says to its
    peers. It proves properties of that code. It is a shallow
    embedding: a struct is a [Record], an enum an [Inductive], a [HashMap] a
    [gmap], a [HashSet] a [gset], a [u64] an integer of [Z] whose wrapping
    ([add64], [mul64], [sum64]) or saturation ([saturating_add], ...) is written
    as the code writes it. A fallible function returns [result E A]; a function
    that mutates and may fail is a [stM S E A], which keeps the state it reached
    when it fails, as early returns do after mutations in place. The clock is an
    argument. Definitions carry the names of the code.

    ** The parts, and how they interact

    Leaves. [Hash] (src/crypto/hash.rs): SHA3-derived hashes, addresses, Merkle
    trees and proofs. [Crypto] (src/crypto/dilithium.rs): signatures. [Vm]
    (src/vm): gas schedule, contract state, receipts, [Vm::deploy], the interfaces
    of the two engines that the chain is modelled against. [Transaction], [Block] (src/core): the data that is signed and
    hashed. [Token], [Governance] (src/token, src/governance): two registries
    that transactions drive.

    Consensus (src/consensus/mod.rs). [Validators]: active set, stake-weighted
    selection, the slot-leader schedule. [Slashing]: equivocation evidence.
    [Finality]: votes and the two-thirds tracker. [Settlement]: rewards and
    penalties of an epoch.

    Storage of blocks. [BlockTree] (src/core/blocktree.rs): all known blocks, the
    heaviest tip, finalization and pruning. [BlockStore]
    (src/core/block_store.rs, src/storage/backend.rs): the cursor over the
    canonical chain, shown to refine a list of blocks; the chain is modelled with
    that list. [Trie], [StateRoot] (src/trie, src/core/state_root.rs,
    src/core/state_proof.rs): the commitment to the state and its proofs.

    The chain (src/core/chain). [Account], [Chain]: accounts, configuration, the
    [Blockchain] record, base fee, epochs, authorization of proposers (mod.rs,
    genesis.rs, consensus.rs). [Apply]: the effect of one transaction, kind by
    kind (apply.rs). [Ledger]: what that does to money and nonces. [AddBlock]:
    [validate_block_against_state], [add_block] (apply.rs), [create_block]
    (produce.rs), checkpoints (src/core/checkpoints.rs). [Mempool]: admission,
    replacement, eviction, ordering and estimation (mempool.rs, estimate.rs).
    [ForkChoice]: replay and rebuild of the state (replay.rs),
    [add_block_with_fork_choice] and reorganisation (reorg.rs), finality votes and
    evidence on the chain (finality.rs). [ChainSafety], [MempoolSafety] and
    [ForkChoiceSafety] hold the theorems about the last three and the concrete
    chains they are run on.

    The engines. [Evm] (src/vm/evm.rs): the adapter that shows the chain to revm
    and takes its results over, the decoding of raw transactions. [Wasm]
    (src/vm/mod.rs): metering of contract code, the host functions, the run of an
    entry point. Each implements its interface of [Vm] on top of a third-party
    crate. [WasmSafety] holds the theorems about the second.

    Queries. [Queries] (src/core/receipt.rs, src/core/chain/mod.rs): the indexes of
    receipts and logs and the functions that search them. [Text]: the strings,
    hexadecimal digits and JSON values the interface is written with. [EthRpc]
    (src/api/eth_rpc.rs): the Ethereum JSON-RPC interface, every method; its
    theorems are in [EthRpcSafety]. [Rest] and [Http] (src/api/mod.rs): the REST
    interface, one definition per end point, the rate limiter, the faucet, the
    routing; [HttpSafety] holds the theorems. [RpcServer] (src/rpc/mod.rs): the
    line protocol of the command line. [Wallet] (src/wallet/mod.rs,
    src/crypto/hash.rs): encrypted wallet files and the checksummed text of addresses.

    The database (src/storage). [Storage]: the tables of the database, what is
    written per block and per state, the decoding of records of older versions.
    [Persistence] (src/core/chain/persistence.rs): a node with a database and a
    persistence worker, its start on an existing database, the pruning of the
    history. [PersistenceSafety], [WorkerSafety]: the theorems about them.

    Synchronisation. [StateSync] (src/core/chain/snapshot.rs,
    src/core/checkpoints.rs): snapshots, their chunks and their acceptance.
    [Light] (src/light/mod.rs): the light client. [Peers], [Network]
    (src/network/mod.rs): the rate limiter and scores, and the event loop with a
    handler per message and timer; [net_step] is one turn of the loop.
    [StateSyncSafety], [NetworkSafety], [BlockSync] and [SnapshotSession] hold
    theorems about them and runs of two nodes.

    A block goes through [add_block] when it extends the tip: the epoch is opened
    and settled, the block validated against the state ([Apply] for each
    transaction, [Governance.process_block], [StateRoot]), then committed to the
    state, the block list, the indexes and the [BlockTree]. Otherwise
    [add_block_with_fork_choice] replays the parent's state, validates, inserts
    into the tree and, when the tip moved, switches and rebuilds. A vote moves the
    tracker and the tree together. The network loop calls these operations with
    what peers send, and [create_block] when the slot is the node's; after each of
    them [Persistence] hands jobs to the worker, which writes them to [Storage].

    ** What the theorems show

    - Acceptance ([ChainSafety]): an accepted block is a valid successor of the
      tip and its state root commits to the resulting state; money changes by the
      reward, the burnt fees and the destroyed amounts only; nonces are consumed
      in order; the chain stays linked.
    - Agreement ([ForkChoiceSafety]): the state rebuilt from genesis and the
      self-check [is_valid] agree with a chain grown block by block.
    - Finality ([Finality], [BlockTree], [ForkChoiceSafety]): a finalized block
      has two thirds of the stake; two conflicting ones expose a third of it as
      double voters; over every sequence of blocks, forks, votes and evidence what
      was final stays on the canonical chain; reorganisations respect it.
    - Fork choice: the tree is well formed with the heaviest tip, insertion and
      ancestor walks meet their specifications, a switch leads to the strictly
      heavier branch.
    - Refinement ([BlockStore]): the cursor with its evicting cache answers as a
      list of blocks with a pruning floor.
    - Restart ([PersistenceSafety]): a node started again on its own database has
      the chain and the state it had. However the worker interleaves with the
      node, the last full state reaches the database ([WorkerSafety]).
    - State sync ([StateSyncSafety], [SnapshotSession]): a snapshot survives the
      round trip, its chunks cannot be exchanged and may arrive in any order, and
      blocks below both finalized heights stay.
    - Networking ([BlockSync], [Peers], [Light]): a node that is behind ends with
      the blocks and the ledger of the node it asks; a peer's messages per window
      are bounded; a light client's headers are linked and follow a node's.
    - Contracts ([WasmSafety], [Evm]): a contract pays for the state and the logs it
      leaves and stays within its gas limit, no loop of it runs unmetered, it reads
      back what it stored; a run of the EVM sees the state the previous one left.
    - Queries ([Queries], [EthRpcSafety]): the hash indexes follow the chain, what
      they find is right, receipts of accepted blocks are found, a log query gives
      exactly the matching logs in order up to its limit, the history of an address
      likewise; a request changes nothing but the mempool, a batch is answered in
      order, what is printed is read back.
    - REST ([HttpSafety]): a failed request leaves no trace but in the pool; the
      limiter lets a request through exactly when fewer than its limit came before
      it; grants of the faucet are apart however requests interleave; a light client
      that polls the header end point gets the whole chain.
    - Wallets ([Wallet]): a wallet that was saved is loaded with its password, a legacy
      one is migrated, an address text is the checksummed one or has no capitals.
    - Mempool: no two pending transactions share a sender and nonce, the limits
      hold after admission, eviction terminates, a replacement pays more, what is
      admitted passed the checks.
    - Registries, schedule, settlement, base fee, proofs: supply conservation,
      sound tallies, a complete leader schedule, the effect of an epoch, the
      bounds of the fee, soundness and completeness of state proofs.
    - What goes wrong, as theorems about the code as it is: one announcement that
      stops all block production, a forged snapshot accepted, a stray chunk that
      stops a session, stale jobs over a newer state, a producer's own block
      rejected, a history unreplayable after slashing, fork blocks rejected
      at epoch boundaries, a pruned store that cannot reopen, a first epoch
      without finality, an EVM payload that is not signed, contracts of contracts that are lost,
      a submitted transaction that is not broadcast, traces of rejected
      blocks, a cyclic mempool order, and others next to the code they concern.

    ** Fuel

    The walks of [BlockTree] get one step per height of the starting block, which
    [walk_fuel_enough] shows to be enough on a well-formed tree, as does
    [lineage_loop_walk] for the lineage of a replay. The eviction loop gets one
    step per pending transaction, enough by [eviction_terminates]. The search for
    the node's rank in the proposer schedule and the cutting of a snapshot into
    chunks get one step per rank and per byte, trimming one per byte, printing a
    64-bit number sixteen. The worker and the network are step
    functions: a run is a list of events. All other recursion is structural.

    ** Parameters

    SHA3 ([Sha3]), ML-DSA ([MlDsa]), the encoders bincode and JSON ([Bincode],
    [Json], and the decoders [StorageCodec], [LegacyCodec], [SnapshotCodec],
    [NetworkCodec]), the WASM and EVM engines ([WasmEngine], [EvmEngine], which
    [Wasm] and [Evm] implement over the crates wasmer, [Wasmer], revm, [Revm], and
    alloy, [Alloy]), the database redb ([Redb]), hexadecimal ([HexDecode], [Hex]),
    the parsing of JSON ([JsonText], [TransactionJson], [RpcText], [WalletText]),
    Argon2 and AES-GCM ([WalletCrypto]), the file system ([FileSystem]), the texts of errors, debug
    output and addresses ([ErrorText], [DebugText], [IpText]), the iteration order of hash maps
    and sets ([HashOrder], [SetOrder], [TipOrder]), the sort of slices with an
    inconsistent comparator ([RustSort]), the LRU cache ([LruCache]). The
    assumptions on them (collision freedom, unforgeability, a decoder that reads
    back what was encoded, ...) are hypotheses of the theorems that need them, and
    each has a concrete instance, on which the examples run. The network loop
    reads clocks, keys and the outcome of a publication from a record [Env].

    ** Not modelled

    Sockets and websocket subscriptions, the headers of HTTP responses, the command
    line (src/main.rs) and the address book of the network: asynchronous I/O, files
    and formatting around the operations above. In the network also dialling,
    gossipsub topics and websocket events. The wiping of memory.

    This file: scopes, the hint database [curs3d], the two monads with the tactics
    that open their successful runs ([st_step]), 64-bit arithmetic, byte strings,
    and lemmas on lists, sums over maps and options that the components share. *)
From Stdlib Require Export ZArith Lia.
From Stdlib Require Export Strings.Byte.
From stdpp Require Export base decidable list gmap sets strings sorting.

(** ** Scopes, hint databases and tactics *)

Declare Scope curs3d_scope.
Delimit Scope curs3d_scope with curs3d.
Global Open Scope curs3d_scope.
Global Open Scope Z_scope.

Create HintDb curs3d discriminated.
Create HintDb u64.

(** ** Bytes

    [Vec<u8>] and [&[u8]] are lists of [Byte.byte], the 256-valued type of the
    standard library, so a byte can never be out of range. *)

Abbreviation byte := Init.Byte.byte.
Abbreviation bytes := (list Init.Byte.byte).

#[global] Instance byte_eq_dec : EqDecision byte := Byte.byte_eq_dec.

#[global] Program Instance byte_countable : Countable byte :=
  inj_countable Byte.to_N Byte.of_N _.
Next Obligation. intros b. apply Byte.of_to_N. Qed.

#[global] Instance byte_inhabited : Inhabited byte := populate x00.

(** A byte read as an unsigned integer, and [x as u8]. *)
Definition byte_Z (b : byte) : Z := Z.of_N (Byte.to_N b).
Definition byte_of_Z (z : Z) : byte :=
  default x00 (Byte.of_N (Z.to_N (z mod 256))).

(** ASCII literals such as [b"curs3d-tx-v1:"]. *)
Definition bstr (s : string) : bytes := String.list_byte_of_string s.

(** [x.to_le_bytes()] and [uN::from_le_bytes(..)] for an [n]-byte integer;
    [to_be_bytes] is the reverse. *)
Fixpoint to_le_bytes (n : nat) (z : Z) : bytes :=
  match n with
  | O => []
  | S n => byte_of_Z z :: to_le_bytes n (z / 256)
  end.

Fixpoint from_le_bytes (l : bytes) : Z :=
  match l with
  | [] => 0
  | b :: l => byte_Z b + 256 * from_le_bytes l
  end.

Definition to_be_bytes (n : nat) (z : Z) : bytes := reverse (to_le_bytes n z).

(** [Ord for Vec<u8>]: lexicographic comparison of the unsigned bytes. *)
Fixpoint bytes_cmp (a b : bytes) : comparison :=
  match a, b with
  | [], [] => Eq
  | [], _ :: _ => Lt
  | _ :: _, [] => Gt
  | x :: a, y :: b =>
      match N.compare (Byte.to_N x) (Byte.to_N y) with
      | Eq => bytes_cmp a b
      | c => c
      end
  end.

Definition bytes_le (a b : bytes) : Prop := bytes_cmp a b ≠ Gt.

#[global] Instance bytes_le_dec : RelDecision bytes_le.
Proof.
  intros a b. unfold bytes_le.
  destruct (bytes_cmp a b); [left|left|right]; abstract congruence.
Defined.

(** ** Machine integers

    An unsigned machine integer is a [Z]; its range is stated where a theorem
    needs it. [a + b], [a - b] and [a * b] wrap (the crate declares no
    overflow-checked profile, so release builds wrap), the [saturating_*] methods
    clamp. *)

Definition u64_max : Z := 18446744073709551615.
Definition u64_mod : Z := 18446744073709551616.
Definition u128_max : Z := 340282366920938463463374607431768211455.

Definition is_u64 (x : Z) : Prop := 0 ≤ x ≤ u64_max.

Definition wrap64 (x : Z) : Z := x mod u64_mod.
Definition add64 (a b : Z) : Z := wrap64 (a + b).
Definition sub64 (a b : Z) : Z := wrap64 (a - b).
Definition mul64 (a b : Z) : Z := wrap64 (a * b).

Definition saturating_add (a b : Z) : Z := Z.min (a + b) u64_max.
Definition saturating_sub (a b : Z) : Z := Z.max (a - b) 0.
Definition saturating_mul (a b : Z) : Z := Z.min (a * b) u64_max.
Definition saturating_mul128 (a b : Z) : Z := Z.min (a * b) u128_max.

(** [iter().sum::<u64>()]. *)
Definition sum64 (l : list Z) : Z := foldl add64 0 l.

(** ** Results

    [Result<A, E>]; [?] is the monadic bind. *)

Inductive result (E A : Type) : Type :=
  | Ok (a : A)
  | Err (e : E).
Arguments Ok {E A} a.
Arguments Err {E A} e.

#[global] Instance result_ret {E} : MRet (result E) := λ A a, Ok a.
#[global] Instance result_bind {E} : MBind (result E) := λ A B f r,
  match r with Ok a => f a | Err e => Err e end.

#[global] Instance result_eq_dec {E A} `{EqDecision E, EqDecision A} :
  EqDecision (result E A).
Proof. solve_decision. Defined.

Definition is_ok {E A} (r : result E A) : bool :=
  match r with Ok _ => true | Err _ => false end.

Definition unwrap_or {E A} (d : A) (r : result E A) : A :=
  match r with Ok a => a | Err _ => d end.

Lemma is_ok_unwrap {E A} (r : result E A) (d : A) : is_ok r = true → r = Ok (unwrap_or d r).
Proof. by destruct r. Qed.

Definition unwrap_err {E A} (d : E) (r : result E A) : E :=
  match r with Ok _ => d | Err e => e end.

(** The outcome of a run, by whether it succeeded. *)
Lemma run_ok {S E} (m : result E () * S) : is_ok m.1 = true → m = (Ok (), m.2).
Proof. by destruct m as [[[]|e] s]. Qed.

Lemma run_value {S E A} (m : result E A * S) a : m.1 = Ok a → m = (Ok a, m.2).
Proof. destruct m. simpl. by intros ->. Qed.

Lemma run_err {S E A} (d : E) (m : result E A * S) :
  is_ok m.1 = false → m = (Err (unwrap_err d m.1), m.2).
Proof. by destruct m as [[a|e] s]. Qed.

Definition is_some {A} (o : option A) : bool := match o with Some _ => true | None => false end.

Definition ok_or {E A} (e : E) (o : option A) : result E A :=
  match o with Some a => Ok a | None => Err e end.

Definition map_err {E E' A} (f : E → E') (r : result E A) : result E' A :=
  match r with Ok a => Ok a | Err e => Err (f e) end.

(** A guard that returns early with an error: [if c { return Err(e); }]. *)
Notation "'bail_if' c 'with' e ; k" :=
  (if c then Err e else k)
  (at level 10, c at level 100, e at level 100, k at level 200,
   format "'bail_if'  c  'with'  e ;  '//' k") : curs3d_scope.

(** ** State with errors

    [fn f(s: &mut S) -> Result<A, E>]: the mutations made before an [Err] is
    returned stay in [s], which callers may or may not observe. *)

Definition stM (S E A : Type) : Type := S → result E A * S.

#[global] Instance stM_ret {S E} : MRet (stM S E) := λ A a s, (Ok a, s).
#[global] Instance stM_bind {S E} : MBind (stM S E) := λ A B f m s,
  match m s with
  | (Ok a, s') => f a s'
  | (Err e, s') => (Err e, s')
  end.

Definition st_get {S E} : stM S E S := λ s, (Ok s, s).
Definition st_modify {S E} (f : S → S) : stM S E () := λ s, (Ok (), f s).
Definition st_throw {S E A} (e : E) : stM S E A := λ s, (Err e, s).
Definition st_lift {S E A} (r : result E A) : stM S E A := λ s, (r, s).
Definition st_guard {S E} (b : bool) (e : E) : stM S E () :=
  λ s, (if b then Ok () else Err e, s).

(** A computation that ends in [Ok] ran each of its steps to [Ok]. *)
Lemma st_bind_Ok {S E A B} (m : stM S E A) (f : A → stM S E B) s b s'' :
  (m ≫= f) s = (Ok b, s'') → ∃ a s', m s = (Ok a, s') ∧ f a s' = (Ok b, s'').
Proof.
  unfold mbind, stM_bind. destruct (m s) as [[a|e] s'] eqn:E1; intros ?; [|done].
  by exists a, s'.
Qed.

Lemma result_bind_Ok {E A B} (m : result E A) (f : A → result E B) b :
  (m ≫= f) = Ok b → ∃ a, m = Ok a ∧ f a = Ok b.
Proof. destruct m as [a|e]; intros ?; [|done]. by exists a. Qed.

Lemma map_err_Ok {E E' A} (g : E → E') (r : result E A) a : map_err g r = Ok a → r = Ok a.
Proof. by destruct r; intros [= <-]. Qed.

Lemma ok_or_Ok {E A} (e : E) (o : option A) a : ok_or e o = Ok a → o = Some a.
Proof. by destruct o; intros [= <-]. Qed.

Lemma st_guard_Ok {S E} b (e : E) (s s' : S) u :
  st_guard b e s = (Ok u, s') → b = true ∧ s' = s.
Proof. unfold st_guard. by destruct b; intros [= _ <-]. Qed.

(** ** Sums *)

Definition sumZ (l : list Z) : Z := foldr Z.add 0 l.

(** Sum of a quantity over a hash map: the order of iteration is irrelevant. *)
Definition map_sum {K V} `{Countable K} (f : K → V → Z) (m : gmap K V) : Z :=
  map_fold (λ k v acc, f k v + acc) 0 m.

(** ** Entry API

    [*m.entry(k).or_default() = f(..)] reads the default for a missing key. *)
Definition entry_or_default {K V} `{Countable K} (d : V) (k : K) (f : V → V)
    (m : gmap K V) : gmap K V :=
  <[k := f (default d (m !! k))]> m.

(** Iteration over a map in key order, as obtained by collecting the entries
    of a [HashMap<Vec<u8>, V>] and [sort_by_key(|(a, _)| *a)]. *)
Definition key_le {V} (p q : bytes * V) : Prop := bytes_le p.1 q.1.

#[global] Instance key_le_dec {V} : RelDecision (@key_le V).
Proof. intros p q. unfold key_le. apply _. Defined.

Definition sorted_entries {V} (m : gmap bytes V) : list (bytes * V) :=
  merge_sort key_le (map_to_list m).

(** ** Automation *)

Ltac unfold_u64 :=
  unfold add64, sub64, mul64, wrap64, saturating_add, saturating_sub,
    saturating_mul, saturating_mul128, is_u64, u64_max, u64_mod, u128_max in *.

(** Linear goals about machine integers. *)
Ltac u64_lia := unfold_u64; lia.

(** Case analysis on the first test of a computation that is known to end in
    [Ok] (or that the goal runs); the surviving branches keep their tests. *)
Ltac case_test :=
  match goal with
  | H : context [if ?b then _ else _] |- _ =>
      lazymatch type of b with bool => destruct b eqn:? end
  | |- context [if ?b then _ else _] =>
      lazymatch type of b with bool => destruct b eqn:? end
  | H : context [match ?o with Some _ => _ | None => _ end] |- _ => destruct o eqn:?
  | |- context [match ?o with Some _ => _ | None => _ end] => destruct o eqn:?
  end; simplify_eq/=.

Ltac bool_to_prop :=
  repeat match goal with
  | H : _ && _ = true |- _ => apply andb_true_iff in H as [? ?]
  | H : _ || _ = false |- _ => apply orb_false_iff in H as [? ?]
  | H : negb _ = true |- _ => apply negb_true_iff in H
  | H : negb _ = false |- _ => apply negb_false_iff in H
  | H : bool_decide _ = true |- _ => apply bool_decide_eq_true in H
  | H : bool_decide _ = false |- _ => apply bool_decide_eq_false in H
  | H : (_ <? _) = true |- _ => apply Z.ltb_lt in H
  | H : (_ <? _) = false |- _ => apply Z.ltb_ge in H
  | H : (_ <=? _) = true |- _ => apply Z.leb_le in H
  | H : (_ <=? _) = false |- _ => apply Z.leb_gt in H
  | H : (_ =? _) = true |- _ => apply Z.eqb_eq in H
  | H : (_ =? _) = false |- _ => apply Z.eqb_neq in H
  end.

Ltac injection_pair H :=
  let E := fresh in
  apply pair_equal_spec in H as [H E]; try rewrite <- E in *; clear E;
  first [injection H as <- <- | injection H as <- | clear H].

(** The steps of a successful computation, as equations on their results. *)
Ltac st_step :=
  match goal with
  | H : (_ ≫= _) _ = (Ok _, _) |- _ => apply st_bind_Ok in H as (?&?&?&?)
  | H : (_ ≫= _) = Ok _ |- _ => apply result_bind_Ok in H as (?&?&?)
  | H : st_get _ = _ |- _ => unfold st_get in H; injection_pair H
  | H : st_modify _ _ = _ |- _ => unfold st_modify in H; injection_pair H
  | H : st_lift _ _ = _ |- _ =>
      unfold st_lift in H; apply pair_equal_spec in H as [H <-]
  | H : st_throw _ _ = (Ok _, _) |- _ => discriminate H
  | H : st_guard _ _ _ = (Ok _, _) |- _ => apply st_guard_Ok in H as [H ->]
  | H : mret _ _ = (Ok _, _) |- _ => unfold mret, stM_ret in H; injection_pair H
  | H : map_err _ _ = Ok _ |- _ => apply map_err_Ok in H
  | H : ok_or _ _ = Ok _ |- _ => apply ok_or_Ok in H
  | H : Ok _ = Ok _ |- _ => injection H as <-
  | x : () |- _ => destruct x
  | x : (_ * _)%type |- _ => destruct x
  end.

(** Closed decidable goals, by running their decision procedure. *)
Ltac vm_decide := apply (bool_decide_unpack _); vm_compute; exact I.

(** ** Machine-integer lemmas *)

Lemma wrap64_id x : is_u64 x → wrap64 x = x.
Proof. intros. apply Z.mod_small. u64_lia. Qed.

Lemma wrap64_range x : is_u64 (wrap64 x).
Proof. pose proof (Z.mod_pos_bound x u64_mod ltac:(done)). u64_lia. Qed.

Lemma add64_range a b : is_u64 (add64 a b).
Proof. apply wrap64_range. Qed.

Lemma sub64_range a b : is_u64 (sub64 a b).
Proof. apply wrap64_range. Qed.

Lemma add64_exact a b : 0 ≤ a → 0 ≤ b → a + b ≤ u64_max → add64 a b = a + b.
Proof. intros. apply wrap64_id. u64_lia. Qed.

Lemma sub64_exact a b : is_u64 a → 0 ≤ b ≤ a → sub64 a b = a - b.
Proof. intros. apply wrap64_id. u64_lia. Qed.

Lemma saturating_add_range a b : is_u64 a → is_u64 b → is_u64 (saturating_add a b).
Proof. intros. u64_lia. Qed.

Lemma saturating_sub_range a b : is_u64 a → is_u64 b → is_u64 (saturating_sub a b).
Proof. intros. u64_lia. Qed.

Lemma saturating_mul_range a b : is_u64 a → is_u64 b → is_u64 (saturating_mul a b).
Proof. intros. unfold_u64. pose proof (Z.mul_nonneg_nonneg a b). lia. Qed.

#[export] Hint Resolve wrap64_range add64_range sub64_range saturating_add_range
  saturating_sub_range saturating_mul_range : u64.

Lemma sum64_range l : is_u64 (sum64 l).
Proof.
  unfold sum64. assert (is_u64 0) as H by u64_lia. revert H. generalize 0.
  induction l as [|x l IH]; intros a Ha; simpl; auto using add64_range.
Qed.

Lemma foldl_add64_mod l a :
  foldl add64 (a mod u64_mod) l = (a + sumZ l) mod u64_mod.
Proof.
  revert a. induction l as [|x l IH]; intros a; simpl.
  { by rewrite Z.add_0_r. }
  unfold add64, wrap64 in *. rewrite Zplus_mod_idemp_l, IH. f_equal. lia.
Qed.

(** The wrapping sum is the true sum modulo [2^64]; it is exact when the true
    sum fits. *)
Lemma sum64_mod l : sum64 l = sumZ l mod u64_mod.
Proof. unfold sum64. rewrite <- (Z.mod_0_l u64_mod), foldl_add64_mod by done. done. Qed.

Lemma sum64_exact l : 0 ≤ sumZ l ≤ u64_max → sum64 l = sumZ l.
Proof. intros. rewrite sum64_mod. apply Z.mod_small. u64_lia. Qed.

Lemma sumZ_app l k : sumZ (l ++ k) = sumZ l + sumZ k.
Proof. induction l; simpl; lia. Qed.

Lemma sumZ_nonneg l : Forall (λ x, 0 ≤ x) l → 0 ≤ sumZ l.
Proof. induction 1; simpl; lia. Qed.

#[global] Instance sumZ_perm : Proper ((≡ₚ) ==> (=)) sumZ.
Proof. intros l k H. induction H; simpl; lia. Qed.

#[global] Instance sum64_perm : Proper ((≡ₚ) ==> (=)) sum64.
Proof. intros l k H. by rewrite !sum64_mod, H. Qed.

(** ** Byte lemmas *)

Lemma byte_Z_range b : 0 ≤ byte_Z b < 256.
Proof. unfold byte_Z. pose proof (Byte.to_N_bounded b). lia. Qed.

Lemma byte_Z_of_Z z : byte_Z (byte_of_Z z) = z mod 256.
Proof.
  unfold byte_Z, byte_of_Z. pose proof (Z.mod_pos_bound z 256 ltac:(lia)).
  destruct (Byte.of_N (Z.to_N (z mod 256))) as [b|] eqn:E; simpl.
  - apply Byte.to_of_N in E. rewrite E. lia.
  - apply Byte.of_N_None_iff in E. lia.
Qed.

Lemma byte_of_byte_Z b : byte_of_Z (byte_Z b) = b.
Proof.
  unfold byte_of_Z. rewrite Z.mod_small by apply byte_Z_range.
  unfold byte_Z. by rewrite N2Z.id, Byte.of_to_N.
Qed.

Lemma length_to_le_bytes n z : length (to_le_bytes n z) = n.
Proof. revert z. induction n; intros; simpl; auto. Qed.

Lemma from_le_bytes_range l : 0 ≤ from_le_bytes l < 256 ^ Z.of_nat (length l).
Proof.
  induction l as [|b l IH]; [simpl; lia|]. cbn [from_le_bytes length].
  pose proof (byte_Z_range b). rewrite Nat2Z.inj_succ, Z.pow_succ_r by lia. lia.
Qed.

(** [from_le_bytes(x.to_le_bytes())] is [x] truncated to the width. *)
Lemma from_to_le_bytes n z : from_le_bytes (to_le_bytes n z) = z mod 256 ^ Z.of_nat n.
Proof.
  revert z. induction n as [|n IH]; intros z; cbn [to_le_bytes from_le_bytes].
  { by rewrite Z.mod_1_r. }
  rewrite byte_Z_of_Z, IH, Nat2Z.inj_succ, Z.pow_succ_r by lia.
  rewrite Z.rem_mul_r; lia.
Qed.

Lemma to_from_le_bytes l : to_le_bytes (length l) (from_le_bytes l) = l.
Proof.
  induction l as [|b l IH]; [done|]. cbn [to_le_bytes from_le_bytes length].
  pose proof (byte_Z_range b). f_equal.
  - unfold byte_of_Z. rewrite (Z.mul_comm 256), Z.mod_add by lia.
    apply byte_of_byte_Z.
  - rewrite (Z.mul_comm 256), Z.div_add, Z.div_small by lia. apply IH.
Qed.

Lemma to_le_bytes_inj n x y :
  0 ≤ x < 256 ^ Z.of_nat n → 0 ≤ y < 256 ^ Z.of_nat n →
  to_le_bytes n x = to_le_bytes n y → x = y.
Proof.
  intros Hx Hy E. apply (f_equal from_le_bytes) in E.
  rewrite !from_to_le_bytes, !Z.mod_small in E; done.
Qed.

(** [Vec<u8>]'s order is a total order. *)
Lemma bytes_cmp_refl a : bytes_cmp a a = Eq.
Proof. induction a as [|x a IH]; simpl; [done|]. by rewrite N.compare_refl. Qed.

Lemma bytes_cmp_eq a b : bytes_cmp a b = Eq → a = b.
Proof.
  revert b. induction a as [|x a IH]; intros [|y b]; simpl; try done.
  destruct (N.compare _ _) eqn:E; try done. intros H. f_equal; [|by apply IH].
  apply N.compare_eq in E. apply (f_equal Byte.of_N) in E.
  rewrite !Byte.of_to_N in E. congruence.
Qed.

Lemma bytes_cmp_antisym a b : bytes_cmp b a = CompOpp (bytes_cmp a b).
Proof.
  revert b. induction a as [|x a IH]; intros [|y b]; simpl; try done.
  rewrite (N.compare_antisym (Byte.to_N x)).
  by destruct (N.compare (Byte.to_N x) _); simpl.
Qed.

Lemma bytes_cmp_trans a b c :
  bytes_cmp a b ≠ Gt → bytes_cmp b c ≠ Gt → bytes_cmp a c ≠ Gt.
Proof.
  revert b c. induction a as [|x a IH]; intros [|y b] [|z c]; simpl; try done.
  intros H1 H2.
  destruct (N.compare_spec (Byte.to_N x) (Byte.to_N y)); try done;
  destruct (N.compare_spec (Byte.to_N y) (Byte.to_N z)); try done;
  destruct (N.compare_spec (Byte.to_N x) (Byte.to_N z)); try done; try lia.
  by eapply IH.
Qed.

#[global] Instance bytes_le_refl : Reflexive bytes_le.
Proof. intros a. unfold bytes_le. by rewrite bytes_cmp_refl. Qed.

#[global] Instance bytes_le_trans : Transitive bytes_le.
Proof. intros a b c. apply bytes_cmp_trans. Qed.

#[global] Instance bytes_le_antisymm : AntiSymm (=) bytes_le.
Proof.
  intros a b H1 H2. apply bytes_cmp_eq. unfold bytes_le in *.
  rewrite bytes_cmp_antisym in H2. by destruct (bytes_cmp a b).
Qed.

#[global] Instance bytes_le_total : Total bytes_le.
Proof.
  intros a b. unfold bytes_le. rewrite (bytes_cmp_antisym a b).
  destruct (bytes_cmp a b); simpl; auto.
Qed.

#[global] Instance key_le_trans {V} : Transitive (@key_le V).
Proof. intros p q r. unfold key_le. apply transitivity. Qed.

#[global] Instance key_le_total {V} : Total (@key_le V).
Proof. intros p q. unfold key_le. apply total, _. Qed.

Lemma elem_of_imap_pair {A} (l : list A) i x : (i, x) ∈ imap pair l ↔ l !! i = Some x.
Proof.
  rewrite list_elem_of_lookup. split.
  - intros [j Hj]. rewrite list_lookup_imap in Hj. destruct (l !! j) eqn:E; naive_solver.
  - intros Hi. exists i. by rewrite list_lookup_imap, Hi.
Qed.


Lemma is_some_default {A} (o : option A) (d : A) : is_some o = true → o = Some (default d o).
Proof. by destruct o. Qed.

(** The conjuncts of a test that was run at once. *)
Lemma andb8 (b1 b2 b3 b4 b5 b6 b7 b8 : bool) :
  b1 && b2 && b3 && b4 && b5 && b6 && b7 && b8 = true →
  b1 = true ∧ b2 = true ∧ b3 = true ∧ b4 = true ∧ b5 = true ∧ b6 = true ∧ b7 = true ∧ b8 = true.
Proof. by destruct b1, b2, b3, b4, b5, b6, b7, b8. Qed.

Lemma StronglySorted_unique_strong {A} (R : relation A) l k :
  (∀ x y, x ∈ l → y ∈ l → R x y → R y x → x = y) →
  StronglySorted R l → StronglySorted R k → l ≡ₚ k → l = k.
Proof.
  intros HR Hl. revert k HR. induction Hl as [|x l Hl IH Hx]; intros k HR Hk Hp.
  { by apply Permutation_nil_l in Hp. }
  destruct Hk as [|y k Hk Hy]; [by apply Permutation_nil_r in Hp|].
  rewrite Forall_forall in Hx, Hy.
  assert (x = y) as ->.
  { assert (x ∈ y :: k) as Hxk by (rewrite <- Hp; left).
    assert (y ∈ x :: l) as Hyl by (rewrite Hp; left).
    apply elem_of_cons in Hxk as [->|Hxk]; [done|].
    apply elem_of_cons in Hyl as [->|Hyl]; [done|].
    apply HR; [left|right| |]; auto. }
  f_equal. apply IH; [|done|by eapply Permutation_cons_inv].
  intros a b Ha Hb. apply HR; by right.
Qed.

(** Sorting by distinct keys does not depend on the order of the input. *)
Lemma merge_sort_key_perm {V} (l k : list (bytes * V)) :
  NoDup l.*1 → l ≡ₚ k → merge_sort key_le l = merge_sort key_le k.
Proof.
  intros Hnd Hp. apply (StronglySorted_unique_strong key_le);
    [|by apply (StronglySorted_merge_sort key_le)..|by rewrite !merge_sort_Permutation].
  intros [a v] [b w] Hv Hw H1 H2.
  assert (a = b) as -> by (by apply (anti_symm bytes_le)). f_equal.
  rewrite merge_sort_Permutation in Hv, Hw.
  rewrite <- (map_to_list_to_map l) in Hv, Hw by done.
  apply elem_of_map_to_list in Hv, Hw. congruence.
Qed.

Lemma sorted_entries_perm {V} (m : gmap bytes V) : sorted_entries m ≡ₚ map_to_list m.
Proof. apply merge_sort_Permutation. Qed.

Lemma elem_of_sorted_entries {V} (m : gmap bytes V) k v :
  (k, v) ∈ sorted_entries m ↔ m !! k = Some v.
Proof. rewrite sorted_entries_perm. apply elem_of_map_to_list. Qed.

Lemma NoDup_sorted_entries {V} (m : gmap bytes V) : NoDup (sorted_entries m).*1.
Proof. rewrite sorted_entries_perm. apply NoDup_fst_map_to_list. Qed.

(** Mapping the values does not change the order of the keys. *)
Lemma StronglySorted_fmap {A B} (R : relation A) (S : relation B) (f : A → B) l :
  (∀ x y, R x y → S (f x) (f y)) → StronglySorted R l → StronglySorted S (f <$> l).
Proof.
  intros Hf. induction 1 as [|x l Hl IH Hx]; constructor; [done|].
  apply Forall_fmap. eapply Forall_impl; [exact Hx|]. intros y. apply Hf.
Qed.

Lemma sorted_entries_fmap {V W} (f : V → W) (m : gmap bytes V) :
  sorted_entries (f <$> m) = prod_map id f <$> sorted_entries m.
Proof.
  apply (StronglySorted_unique_strong key_le).
  - intros [a v] [b w] Hv Hw H1 H2. assert (a = b) as -> by (by apply (anti_symm bytes_le)).
    apply elem_of_sorted_entries in Hv, Hw. congruence.
  - apply (StronglySorted_merge_sort key_le).
  - apply (StronglySorted_fmap key_le); [by intros [] []|].
    apply (StronglySorted_merge_sort key_le).
  - rewrite sorted_entries_perm, map_to_list_fmap. by rewrite (sorted_entries_perm m).
Qed.

Lemma list_to_map_sorted_entries {V} (m : gmap bytes V) : list_to_map (sorted_entries m) = m.
Proof.
  rewrite (list_to_map_proper _ (map_to_list m)); [apply list_to_map_to_list|
    apply NoDup_sorted_entries|apply sorted_entries_perm].
Qed.

(** The big-endian bytes of integers of one width are ordered as the integers. *)
Lemma bytes_cmp_app a b c d :
  length a = length b → bytes_cmp (a ++ c) (b ++ d) =
    match bytes_cmp a b with Eq => bytes_cmp c d | o => o end.
Proof.
  revert b. induction a as [|x a IH]; intros [|y b]; simpl; try done.
  intros [= Hl]. destruct (N.compare _ _); auto.
Qed.

Lemma length_to_be_bytes n z : length (to_be_bytes n z) = n.
Proof. unfold to_be_bytes. by rewrite length_reverse, length_to_le_bytes. Qed.

Lemma bytes_cmp_be n x y :
  0 ≤ x < 256 ^ Z.of_nat n → 0 ≤ y < 256 ^ Z.of_nat n →
  bytes_cmp (to_be_bytes n x) (to_be_bytes n y) = Z.compare x y.
Proof.
  revert x y. induction n as [|n IH]; intros x y Hx Hy.
  { simpl in *. by replace x with 0 by lia; replace y with 0 by lia. }
  rewrite Nat2Z.inj_succ, Z.pow_succ_r in Hx, Hy by lia.
  unfold to_be_bytes in *. cbn [to_le_bytes]. rewrite !reverse_cons, bytes_cmp_app
    by (by rewrite !length_reverse, !length_to_le_bytes).
  rewrite IH by (split; [apply Z.div_pos; lia|apply Z.div_lt_upper_bound; lia]).
  assert (bytes_cmp [byte_of_Z x] [byte_of_Z y] = Z.compare (x mod 256) (y mod 256)) as ->.
  { simpl. rewrite <- !byte_Z_of_Z. unfold byte_Z. rewrite N2Z.inj_compare. by case_match. }
  pose proof (Z.div_mod x 256). pose proof (Z.div_mod y 256).
  pose proof (Z.mod_pos_bound x 256). pose proof (Z.mod_pos_bound y 256).
  destruct (Z.compare_spec (x / 256) (y / 256)); destruct (Z.compare_spec x y); try lia;
    destruct (Z.compare_spec (x mod 256) (y mod 256)); try lia; done.
Qed.

Lemma to_be_bytes_inj n x y :
  0 ≤ x < 256 ^ Z.of_nat n → 0 ≤ y < 256 ^ Z.of_nat n → to_be_bytes n x = to_be_bytes n y → x = y.
Proof.
  intros Hx Hy E. pose proof (bytes_cmp_be n x y Hx Hy) as Hc.
  rewrite E, bytes_cmp_refl in Hc. symmetry in Hc. by apply Z.compare_eq in Hc.
Qed.

(** ** Sums over maps *)

Section map_sum.
Context {K V : Type} `{Countable K}.
Implicit Types (f : K → V → Z) (m : gmap K V).

Lemma map_sum_empty f : map_sum f ∅ = 0.
Proof. unfold map_sum. by rewrite map_fold_empty. Qed.

Lemma map_sum_insert_None f m k v :
  m !! k = None → map_sum f (<[k:=v]> m) = f k v + map_sum f m.
Proof.
  intros. unfold map_sum. rewrite map_fold_insert_L; [done| |done]. intros; lia.
Qed.

Lemma map_sum_delete f m k v :
  m !! k = Some v → map_sum f m = f k v + map_sum f (delete k m).
Proof.
  intros Hk. rewrite <- (insert_id m k v Hk) at 1. rewrite <- insert_delete_eq.
  apply map_sum_insert_None, lookup_delete_eq.
Qed.

(** Overwriting an entry replaces its contribution. *)
Lemma map_sum_insert f m k v :
  map_sum f (<[k:=v]> m) = map_sum f m - from_option (f k) 0 (m !! k) + f k v.
Proof.
  destruct (m !! k) as [w|] eqn:E; simpl.
  - rewrite (map_sum_delete f m k w E), <- insert_delete_eq.
    rewrite map_sum_insert_None by apply lookup_delete_eq. lia.
  - rewrite map_sum_insert_None by done. lia.
Qed.

Lemma map_sum_nonneg f m : (∀ k v, m !! k = Some v → 0 ≤ f k v) → 0 ≤ map_sum f m.
Proof.
  induction m as [|k v m Hk IH] using map_ind; intros Hf.
  { by rewrite map_sum_empty. }
  rewrite map_sum_insert_None by done.
  assert (0 ≤ f k v) by (apply Hf, lookup_insert_eq).
  assert (0 ≤ map_sum f m); [|lia].
  apply IH. intros k' v' Hk'. apply Hf. rewrite lookup_insert_ne; congruence.
Qed.

(** No entry exceeds the sum of non-negative entries. *)
Lemma map_sum_lookup_le f m k v :
  (∀ k v, m !! k = Some v → 0 ≤ f k v) → m !! k = Some v → f k v ≤ map_sum f m.
Proof.
  intros Hf Hk. rewrite (map_sum_delete f m k v Hk).
  assert (0 ≤ map_sum f (delete k m)); [|lia].
  apply map_sum_nonneg. intros k' v' [_ H']%lookup_delete_Some. by eapply Hf.
Qed.

Lemma map_sum_ext f g m :
  (∀ k v, m !! k = Some v → f k v = g k v) → map_sum f m = map_sum g m.
Proof.
  induction m as [|k v m Hk IH] using map_ind; intros Hfg.
  { by rewrite !map_sum_empty. }
  rewrite !map_sum_insert_None by done. rewrite Hfg by apply lookup_insert_eq.
  f_equal. apply IH. intros k' v' Hk'. apply Hfg. rewrite lookup_insert_ne; congruence.
Qed.

Lemma map_sum_zero f m : (∀ k v, m !! k = Some v → f k v = 0) → map_sum f m = 0.
Proof.
  induction m as [|k v m Hk IH] using map_ind; intros Hf; [apply map_sum_empty|].
  rewrite map_sum_insert_None, (Hf k v (lookup_insert_eq _ _ _)) by done.
  rewrite IH; [done|]. intros k' v' Hk'. apply Hf. rewrite lookup_insert_ne; congruence.
Qed.

Lemma map_sum_to_list f m : map_sum f m = sumZ ((λ kv, f kv.1 kv.2) <$> map_to_list m).
Proof.
  induction m as [|k v m Hk IH] using map_ind.
  { by rewrite map_sum_empty, map_to_list_empty. }
  rewrite map_sum_insert_None, map_to_list_insert by done. simpl. by rewrite IH.
Qed.

(** Mapping over the values maps the summands. *)
Lemma map_sum_fmap {W} (f : K → V → Z) (g : W → V) (m : gmap K W) :
  map_sum f (g <$> m) = map_sum (λ k w, f k (g w)) m.
Proof.
  induction m as [|k v m Hk IH] using map_ind.
  { by rewrite fmap_empty, !map_sum_empty. }
  rewrite fmap_insert. rewrite map_sum_insert_None by (by rewrite lookup_fmap, Hk).
  unfold map_sum in *. rewrite map_fold_insert_L; [by rewrite IH|intros; lia|done].
Qed.
End map_sum.

(** ** Weights of sets of keys *)

(** Stake, read from a snapshot, of a set of accounts. *)
Definition stake_of (snapshot : gmap bytes Z) (accounts : gset bytes) : Z :=
  map_sum (λ k v, if bool_decide (k ∈ accounts) then v else 0) snapshot.

Lemma stake_of_le m S :
  (∀ k v, m !! k = Some v → 0 ≤ v) → stake_of m S ≤ map_sum (λ _ v, v) m.
Proof.
  unfold stake_of. induction m as [|k v m Hk IH] using map_ind; intros Hs.
  { by rewrite !map_sum_empty. }
  rewrite !map_sum_insert_None by done.
  assert (0 ≤ v) by (apply (Hs k), lookup_insert_eq).
  assert (∀ k v, m !! k = Some v → 0 ≤ v) as Hm.
  { intros k' v' Hk'. apply (Hs k'). rewrite lookup_insert_ne; congruence. }
  specialize (IH Hm). case_bool_decide; lia.
Qed.

(** A new voter adds exactly its snapshotted stake. *)
Lemma stake_of_add m S voter :
  voter ∉ S → stake_of m ({[voter]} ∪ S) = stake_of m S + default 0 (m !! voter).
Proof.
  intros Hn. unfold stake_of. induction m as [|k v m Hk IH] using map_ind.
  { by rewrite !map_sum_empty, lookup_empty. }
  rewrite !map_sum_insert_None, IH by done. rewrite lookup_insert. case_decide as Hkv.
  - subst k. rewrite Hk, bool_decide_eq_true_2, bool_decide_eq_false_2 by set_solver.
    simpl. lia.
  - case_bool_decide as H1; case_bool_decide as H2; try lia; set_solver.
Qed.

Lemma stake_of_union_inter m A B :
  stake_of m A + stake_of m B = stake_of m (A ∪ B) + stake_of m (A ∩ B).
Proof.
  unfold stake_of. induction m as [|k v m Hk IH] using map_ind; [by rewrite !map_sum_empty|].
  rewrite !map_sum_insert_None by done.
  rewrite (bool_decide_ext (k ∈ A ∪ B) (k ∈ A ∨ k ∈ B)) by apply elem_of_union.
  rewrite (bool_decide_ext (k ∈ A ∩ B) (k ∈ A ∧ k ∈ B)) by apply elem_of_intersection.
  rewrite bool_decide_or, bool_decide_and.
  destruct (bool_decide (k ∈ A)), (bool_decide (k ∈ B)); simpl; lia.
Qed.

(** Summing the weights of distinct keys one by one. *)
Lemma sumZ_omap_stake_of (m : gmap bytes Z) (ks : list bytes) :
  NoDup ks → sumZ (omap (λ k, m !! k) ks) = stake_of m (list_to_set ks).
Proof.
  induction 1 as [|k ks Hk Hnd IH].
  { unfold stake_of. rewrite map_sum_zero; [done|]. intros. by rewrite bool_decide_eq_false_2. }
  rewrite list_to_set_cons, stake_of_add, <- IH by (by rewrite elem_of_list_to_set).
  cbn [omap list_omap]. destruct (m !! k) as [v|]; cbn [default sumZ foldr from_option id]; [|lia].
  rewrite Z.add_comm. reflexivity.
Qed.

Lemma stake_of_nonneg m A : (∀ k v, m !! k = Some v → 0 ≤ v) → 0 ≤ stake_of m A.
Proof. intros Hm. apply map_sum_nonneg. intros k v Hk. case_bool_decide; [by eapply Hm|done]. Qed.

(** ** Lists *)

Lemma Forall_list_filter {A} (P Q : A → Prop) `{∀ x, Decision (Q x)} l :
  Forall P l → Forall P (filter Q l).
Proof. rewrite !Forall_forall. intros HP x [_ Hx]%list_elem_of_filter. by apply HP. Qed.

(** Counting with [filter]. *)
Lemma length_filter_ext {A B} (P : A → Prop) (Q : B → Prop) `{∀ x, Decision (P x)}
    `{∀ y, Decision (Q y)} (f : B → A) (l : list B) :
  (∀ y, y ∈ l → P (f y) ↔ Q y) → length (filter P (f <$> l)) = length (filter Q l).
Proof.
  induction l as [|y l IH]; intros HPQ; [done|]. rewrite fmap_cons, !filter_cons.
  assert (P (f y) ↔ Q y) as Hy by (apply HPQ; left).
  assert (length (filter P (f <$> l)) = length (filter Q l)) as Hl
    by (apply IH; intros z Hz; apply HPQ; by right).
  destruct (decide (P (f y))), (decide (Q y)); simpl; [by rewrite Hl|tauto..|done].
Qed.

Lemma length_filter_all {A} (P : A → Prop) `{∀ x, Decision (P x)} (l : list A) :
  (∀ x, x ∈ l → P x) → length (filter P l) = length l.
Proof.
  induction l as [|y l IH]; intros HP; [done|].
  rewrite filter_cons_True by (apply HP; left). simpl. f_equal. apply IH.
  intros z Hz. apply HP. by right.
Qed.

Lemma length_filter_none {A} (P : A → Prop) `{∀ x, Decision (P x)} (l : list A) :
  (∀ x, x ∈ l → ¬ P x) → length (filter P l) = 0%nat.
Proof.
  induction l as [|y l IH]; intros HP; [done|].
  rewrite filter_cons_False by (apply HP; left). apply IH. intros z Hz. apply HP. by right.
Qed.

(** Induction two elements at a time, for code that walks [chunks(2)]. *)
Lemma list_ind_two {A} (P : list A → Prop) :
  P [] → (∀ a, P [a]) → (∀ a b l, P l → P (a :: b :: l)) → ∀ l, P l.
Proof.
  intros H0 H1 H2. fix IH 1. intros [|a [|b l]]; [apply H0|apply H1|apply H2, IH].
Qed.

Lemma div2_le_pred n : (1 < n)%nat → (Nat.div2 (S n) < n)%nat.
Proof. intros. rewrite Nat.div2_div. apply Nat.Div0.div_lt_upper_bound. lia. Qed.

Lemma size_list_to_set_le {A} `{Countable A} (l : list A) :
  (size (list_to_set l : gset A) ≤ length l)%nat.
Proof.
  induction l as [|x l IH]; [done|]. cbn [list_to_set length].
  rewrite size_union_alt, size_singleton.
  pose proof (subseteq_size (list_to_set l ∖ {[x]} : gset A) (list_to_set l) ltac:(set_solver)). lia.
Qed.
