(* ===== verification/Hash.v ===== *)
(** * Hashing and Merkle trees ([src/crypto/hash.rs])

    SHA3-256 comes from the [sha3] crate: it is the parameter [sha3_256] of
    the class [Sha3], of which only the output length is assumed. On top of it
    this file models the derived hashes, address derivation, and the binary
    Merkle tree with its inclusion proofs. *)
From S2P Require Import Prelude.

Class Sha3 := {
  sha3_256 : bytes → bytes;
  sha3_256_length x : length (sha3_256 x) = 32%nat;
}.

Definition ADDRESS_LEN : nat := 20.

Section hash.
Context `{Sha3}.

Definition sha3_hash (data : bytes) : bytes := sha3_256 data.

Definition sha3_hash_domain (domain : bytes) (parts : list bytes) : bytes :=
  sha3_256 (to_le_bytes 4 (Z.of_nat (length domain)) ++ domain ++ concat parts).

Definition double_hash (data : bytes) : bytes := sha3_hash (sha3_hash data).

Definition address_bytes_from_public_key (public_key : bytes) : bytes :=
  take ADDRESS_LEN (sha3_hash_domain (bstr "curs3d-address") [public_key]).

Definition address_bytes_from_data (data : bytes) : bytes :=
  take ADDRESS_LEN (sha3_hash_domain (bstr "curs3d-derived-address") [data]).

(** ** Merkle tree *)

Definition MERKLE_LEAF_PREFIX : byte := x00.
Definition MERKLE_NODE_PREFIX : byte := x01.

Definition merkle_hash_leaf (leaf : bytes) : bytes :=
  sha3_hash (MERKLE_LEAF_PREFIX :: leaf).

Definition merkle_hash_node (left right : bytes) : bytes :=
  sha3_hash (MERKLE_NODE_PREFIX :: left ++ right).

(** One pass over [current_level.chunks(2)]; an odd last node is paired with
    itself. *)
Fixpoint merkle_next_level (level : list bytes) : list bytes :=
  match level with
  | [] => []
  | [a] => [merkle_hash_node a a]
  | a :: b :: rest => merkle_hash_node a b :: merkle_next_level rest
  end.

(** [while current_level.len() > 1]; each pass halves the level, so the level's
    length is enough fuel ([merkle_loop_singleton]). *)
Fixpoint merkle_loop (fuel : nat) (level : list bytes) : list bytes :=
  match fuel with
  | O => level
  | S fuel =>
      if bool_decide (1 < length level)%nat
      then merkle_loop fuel (merkle_next_level level)
      else level
  end.

Definition merkle_root (hashes : list bytes) : bytes :=
  match hashes with
  | [] => sha3_hash (bstr "empty")
  | _ :: _ =>
      let level := merkle_hash_leaf <$> hashes in
      merkle_loop (length level) level !!! 0%nat
  end.

Definition merkle_sibling_index (level_len index : nat) : nat :=
  if Nat.even index then Nat.min (index + 1) (level_len - 1) else (index - 1)%nat.

Fixpoint merkle_proof_loop (fuel : nat) (level : list bytes) (index : nat) : list bytes :=
  match fuel with
  | O => []
  | S fuel =>
      if bool_decide (1 < length level)%nat
      then level !!! merkle_sibling_index (length level) index
           :: merkle_proof_loop fuel (merkle_next_level level) (Nat.div index 2)
      else []
  end.

Definition merkle_proof (hashes : list bytes) (index : nat) : list bytes :=
  if bool_decide (hashes = []) || bool_decide (length hashes ≤ index)%nat then []
  else if bool_decide (length hashes = 1%nat) then []
  else
    let level := merkle_hash_leaf <$> hashes in
    merkle_proof_loop (length level) level index.

(** The loop of [verify_merkle_proof]. *)
Fixpoint merkle_fold (current : bytes) (proof : list bytes) (index : nat) : bytes :=
  match proof with
  | [] => current
  | sibling :: proof =>
      merkle_fold
        (if Nat.even index then merkle_hash_node current sibling
         else merkle_hash_node sibling current)
        proof (Nat.div index 2)
  end.

Definition verify_merkle_proof (leaf_hash : bytes) (proof : list bytes) (index : nat)
    (root : bytes) : bool :=
  if bool_decide (root = []) then false
  else bool_decide (merkle_fold (merkle_hash_leaf leaf_hash) proof index = root).

(** ** Basic facts *)

Lemma length_sha3_hash x : length (sha3_hash x) = 32%nat.
Proof. apply sha3_256_length. Qed.

#[local] Hint Extern 1 (length _ = 32%nat) => apply length_sha3_hash : core.

Lemma sha3_hash_nonempty x : sha3_hash x ≠ [].
Proof. intros E. pose proof (length_sha3_hash x) as Hl. by rewrite E in Hl. Qed.

Lemma length_address_bytes_from_public_key pk :
  length (address_bytes_from_public_key pk) = ADDRESS_LEN.
Proof.
  unfold address_bytes_from_public_key, sha3_hash_domain.
  rewrite length_take, sha3_256_length. done.
Qed.

Lemma length_merkle_next_level l :
  length (merkle_next_level l) = Nat.div2 (S (length l)).
Proof.
  induction l as [|a|a b l IH] using list_ind_two; simpl; auto.
Qed.

(** [merkle_loop] reaches a single node, and more fuel changes nothing. *)
Lemma merkle_loop_singleton fuel l :
  l ≠ [] → (length l ≤ fuel)%nat → length (merkle_loop fuel l) = 1%nat.
Proof.
  revert l. induction fuel as [|fuel IH]; intros l Hne Hf; simpl.
  { destruct l; simpl in *; [done|lia]. }
  case_bool_decide as Hl.
  - apply IH; [|rewrite length_merkle_next_level; pose proof (div2_le_pred _ Hl); lia].
    destruct l as [|a [|b l]]; simpl in *; done.
  - destruct l as [|a [|b l]]; simpl in *; [done|done|lia].
Qed.

Lemma merkle_loop_fuel fuel1 fuel2 l :
  (length l ≤ fuel1)%nat → (length l ≤ fuel2)%nat →
  merkle_loop fuel1 l = merkle_loop fuel2 l.
Proof.
  revert fuel2 l. induction fuel1 as [|f1 IH]; intros [|f2] l H1 H2; simpl.
  - done.
  - by rewrite bool_decide_eq_false_2 by lia.
  - by rewrite bool_decide_eq_false_2 by lia.
  - case_bool_decide as Hl; [|done].
    pose proof (div2_le_pred _ Hl). apply IH; rewrite length_merkle_next_level; lia.
Qed.

Lemma merkle_loop_step fuel l :
  (1 < length l)%nat → merkle_loop (S fuel) l = merkle_loop fuel (merkle_next_level l).
Proof. intros. simpl. by rewrite bool_decide_eq_true_2. Qed.

Lemma merkle_root_loop fuel hashes :
  hashes ≠ [] → (length hashes ≤ fuel)%nat →
  merkle_root hashes = merkle_loop fuel (merkle_hash_leaf <$> hashes) !!! 0%nat.
Proof.
  intros Hne Hf. destruct hashes; [done|]. unfold merkle_root. f_equal.
  apply merkle_loop_fuel; rewrite length_fmap; lia.
Qed.

Lemma length_merkle_root l : length (merkle_root l) = 32%nat.
Proof.
  assert (∀ fuel k, k ≠ [] → Forall (λ h, length h = 32%nat) k →
    merkle_loop fuel k ≠ [] ∧ Forall (λ h, length h = 32%nat) (merkle_loop fuel k)) as Hk.
  { intros fuel. induction fuel as [|fuel IH]; intros k Hne Hf; simpl; [done|].
    case_bool_decide; [|done]. apply IH; [by destruct k as [|? [|??]]|].
    clear. induction k as [|a|a b k IHk] using list_ind_two; cbn [merkle_next_level];
      rewrite ?Forall_cons; auto using length_sha3_hash. }
  destruct l as [|x l]; [apply length_sha3_hash|]. unfold merkle_root.
  destruct (Hk (length (merkle_hash_leaf <$> x :: l)) (merkle_hash_leaf <$> x :: l))
    as [Hne HF]; [done| |].
  { apply Forall_fmap, Forall_true. intros. apply length_sha3_hash. }
  destruct (merkle_loop _ _) as [|h k]; [done|]. by inversion HF.
Qed.

Lemma merkle_root_nonempty l : merkle_root l ≠ [].
Proof. intros E. pose proof (length_merkle_root l) as Hl. by rewrite E in Hl. Qed.

(** ** Completeness of inclusion proofs *)

Lemma lookup_merkle_next_level l i :
  (i < length l)%nat →
  merkle_next_level l !! Nat.div i 2 =
    Some (if Nat.even i
          then merkle_hash_node (l !!! i) (l !!! merkle_sibling_index (length l) i)
          else merkle_hash_node (l !!! merkle_sibling_index (length l) i) (l !!! i)).
Proof.
  unfold merkle_sibling_index.
  revert i. induction l as [|a|a b l IH] using list_ind_two; intros i Hi; simpl in Hi.
  - lia.
  - by replace i with 0%nat by lia.
  - destruct i as [|[|i]]; [done..|].
    replace (Nat.div (S (S i)) 2) with (S (Nat.div i 2)).
    2:{ replace (S (S i)) with (i + 1 * 2)%nat by lia. rewrite Nat.div_add by lia. lia. }
    cbn [merkle_next_level]. rewrite <- lookup_tail. cbn [tail].
    rewrite IH by lia. replace (Nat.even (S (S i))) with (Nat.even i) by done.
    destruct (Nat.even i) eqn:Ev; cbn [length].
    + replace (Nat.min (S (S i) + 1) (S (S (length l)) - 1))
        with (S (S (Nat.min (i + 1) (length l - 1)))) by lia. done.
    + destruct i as [|i]; [done|]. by replace (S (S (S i)) - 1)%nat with (S (S (S i - 1))) by lia.
Qed.

Lemma merkle_fold_loop fuel l i :
  (length l ≤ fuel)%nat → (i < length l)%nat →
  merkle_fold (l !!! i) (merkle_proof_loop fuel l i) i = merkle_loop fuel l !!! 0%nat.
Proof.
  revert l i. induction fuel as [|fuel IH]; intros l i Hf Hi; simpl; [lia|].
  case_bool_decide as Hl; [|by replace i with 0%nat by lia].
  pose proof (lookup_merkle_next_level l i Hi) as Hn. simpl.
  rewrite <- (IH (merkle_next_level l) (Nat.div i 2)).
  - f_equal. symmetry. by apply list_lookup_total_correct.
  - rewrite length_merkle_next_level. pose proof (div2_le_pred _ Hl). lia.
  - by eapply lookup_lt_Some.
Qed.

(** ** Soundness of inclusion proofs *)

(** The Merkle tree whose levels [merkle_root] computes. *)
Inductive mtree :=
  | MLeaf (x : bytes)
  | MNode (l r : mtree).

Fixpoint mhash (t : mtree) : bytes :=
  match t with
  | MLeaf x => merkle_hash_leaf x
  | MNode l r => merkle_hash_node (mhash l) (mhash r)
  end.

Fixpoint mleaves (t : mtree) : list bytes :=
  match t with
  | MLeaf x => [x]
  | MNode l r => mleaves l ++ mleaves r
  end.

(** The byte strings hashed while building a tree, and while checking a proof. *)
Fixpoint tree_inputs (t : mtree) : list bytes :=
  match t with
  | MLeaf x => [MERKLE_LEAF_PREFIX :: x]
  | MNode l r => (MERKLE_NODE_PREFIX :: mhash l ++ mhash r) :: tree_inputs l ++ tree_inputs r
  end.

Fixpoint fold_inputs (current : bytes) (proof : list bytes) (index : nat) : list bytes :=
  match proof with
  | [] => []
  | sibling :: proof =>
      let input := if Nat.even index then MERKLE_NODE_PREFIX :: current ++ sibling
                   else MERKLE_NODE_PREFIX :: sibling ++ current in
      input :: fold_inputs (sha3_hash input) proof (Nat.div index 2)
  end.

Fixpoint tree_next (level : list mtree) : list mtree :=
  match level with
  | [] => []
  | [a] => [MNode a a]
  | a :: b :: rest => MNode a b :: tree_next rest
  end.

Fixpoint tree_loop (fuel : nat) (level : list mtree) : list mtree :=
  match fuel with
  | O => level
  | S fuel => if bool_decide (1 < length level)%nat then tree_loop fuel (tree_next level) else level
  end.

Definition merkle_tree (hashes : list bytes) : option mtree :=
  head (tree_loop (length hashes) (MLeaf <$> hashes)).

(** Everything [merkle_root hashes] hashes. *)
Definition merkle_root_inputs (hashes : list bytes) : list bytes :=
  from_option tree_inputs [] (merkle_tree hashes).

(** Everything [verify_merkle_proof leaf proof index _] hashes. *)
Definition verify_inputs (leaf : bytes) (proof : list bytes) (index : nat) : list bytes :=
  (MERKLE_LEAF_PREFIX :: leaf) :: fold_inputs (merkle_hash_leaf leaf) proof index.

(** SHA3-256 does not collide on the given inputs. *)
Definition no_collision (xs ys : list bytes) : Prop :=
  Forall (λ x, Forall (λ y, sha3_256 x = sha3_256 y → x = y) ys) xs.

Lemma no_collision_elem xs ys x y :
  no_collision xs ys → x ∈ xs → y ∈ ys → sha3_hash x = sha3_hash y → x = y.
Proof. unfold no_collision. rewrite Forall_forall. setoid_rewrite Forall_forall. eauto. Qed.

Lemma mhash_tree_next l : mhash <$> tree_next l = merkle_next_level (mhash <$> l).
Proof. induction l as [|a|a b l IH] using list_ind_two; simpl; [done..|]. by f_equal. Qed.

Lemma mhash_tree_loop fuel l : mhash <$> tree_loop fuel l = merkle_loop fuel (mhash <$> l).
Proof.
  revert l. induction fuel as [|fuel IH]; intros l; simpl; [done|].
  rewrite length_fmap. case_bool_decide; [|done]. by rewrite IH, mhash_tree_next.
Qed.

Lemma mleaves_tree_loop fuel l t x :
  t ∈ tree_loop fuel l → x ∈ mleaves t → ∃ t', t' ∈ l ∧ x ∈ mleaves t'.
Proof.
  revert l. induction fuel as [|fuel IH]; intros l; simpl; [by eauto|].
  case_bool_decide; [|by eauto]. intros Ht Hx.
  destruct (IH _ Ht Hx) as (t'&Ht'&Hx'). clear -Ht' Hx'.
  induction l as [|a|a b l IHl] using list_ind_two; simpl in Ht'.
  - by apply not_elem_of_nil in Ht'.
  - apply list_elem_of_singleton in Ht' as ->. exists a. simpl in Hx'.
    split; [left|]. apply elem_of_app in Hx' as [?|?]; done.
  - apply elem_of_cons in Ht' as [->|Ht'].
    + simpl in Hx'. apply elem_of_app in Hx' as [?|?]; [exists a|exists b];
        rewrite !elem_of_cons; auto.
    + destruct (IHl Ht') as (t''&?&?). exists t''. rewrite !elem_of_cons. auto.
Qed.

Lemma merkle_root_tree hashes :
  hashes ≠ [] → ∃ t, merkle_tree hashes = Some t ∧ mhash t = merkle_root hashes ∧
    ∀ x, x ∈ mleaves t → x ∈ hashes.
Proof.
  intros Hne. unfold merkle_tree.
  pose proof (mhash_tree_loop (length hashes) (MLeaf <$> hashes)) as Hm.
  rewrite <- list_fmap_compose in Hm.
  change (mhash ∘ MLeaf) with merkle_hash_leaf in Hm.
  pose proof (merkle_loop_singleton (length hashes) (merkle_hash_leaf <$> hashes)) as H1.
  rewrite length_fmap in H1. specialize (H1 ltac:(by destruct hashes) ltac:(lia)).
  rewrite <- Hm in H1.
  destruct (tree_loop (length hashes) (MLeaf <$> hashes)) as [|t [|??]] eqn:E; try done.
  exists t. split; [done|split].
  - destruct hashes; [done|]. unfold merkle_root. rewrite length_fmap, <- Hm. done.
  - intros x Hx. destruct (mleaves_tree_loop (length hashes) (MLeaf <$> hashes) t x) as (t'&Ht'&Hx'); [|done|].
    { rewrite E. left. }
    apply list_elem_of_fmap in Ht' as (y&->&Hy). simpl in Hx'.
    by apply list_elem_of_singleton in Hx' as ->.
Qed.

Lemma length_mhash t : length (mhash t) = 32%nat.
Proof. destruct t; apply length_sha3_hash. Qed.

Lemma merkle_fold_snoc c p s i :
  merkle_fold c (p ++ [s]) i =
    let d := merkle_fold c p i in
    if Nat.even (Nat.div i (2 ^ length p)) then merkle_hash_node d s else merkle_hash_node s d.
Proof.
  revert c i. induction p as [|q p IH]; intros c i; cbn [app merkle_fold length].
  { change (2 ^ 0)%nat with 1%nat. by rewrite Nat.div_1_r. }
  rewrite IH, Nat.Div0.div_div. done.
Qed.

Lemma fold_inputs_snoc c p s i :
  fold_inputs c (p ++ [s]) i =
    fold_inputs c p i ++
    [let d := merkle_fold c p i in
     if Nat.even (Nat.div i (2 ^ length p)) then MERKLE_NODE_PREFIX :: d ++ s
     else MERKLE_NODE_PREFIX :: s ++ d].
Proof.
  revert c i. induction p as [|q p IH]; intros c i; cbn [app fold_inputs merkle_fold length].
  { change (2 ^ 0)%nat with 1%nat. by rewrite Nat.div_1_r. }
  rewrite IH. cbn [app]. rewrite Nat.Div0.div_div.
  change (2 ^ S (length p))%nat with (2 * 2 ^ length p)%nat.
  by destruct (Nat.even i).
Qed.

Lemma length_merkle_fold x p i :
  length (merkle_fold (merkle_hash_leaf x) p i) = 32%nat.
Proof.
  assert (length (merkle_hash_leaf x) = 32%nat) as Hl by apply length_sha3_hash.
  revert Hl i. generalize (merkle_hash_leaf x). induction p as [|s p IH]; intros c Hc i; simpl; [done|].
  apply IH. destruct (Nat.even i); apply length_sha3_hash.
Qed.

(** A path that hashes to the root of a tree starts at one of its leaves. *)
Lemma merkle_fold_sound t leaf p i :
  no_collision (tree_inputs t) (verify_inputs leaf p i) →
  merkle_fold (merkle_hash_leaf leaf) p i = mhash t →
  leaf ∈ mleaves t.
Proof.
  unfold no_collision. revert t. induction p as [|s p IH] using rev_ind; intros t Hnc Hf.
  - destruct t as [y|l r]; simpl in *; apply Forall_cons in Hnc as [Hnc _];
      apply Forall_cons in Hnc as [Hnc _]; specialize (Hnc (eq_sym Hf)); [|done].
    apply list_elem_of_singleton. congruence.
  - rewrite merkle_fold_snoc in Hf. unfold verify_inputs in Hnc.
    rewrite fold_inputs_snoc in Hnc. set (d := merkle_fold _ p i) in *.
    assert (length d = 32%nat) as Hd by apply length_merkle_fold.
    set (input := if Nat.even _ then _ :: d ++ s else _ :: s ++ d) in Hnc.
    assert (mhash t = sha3_256 input) as Hroot.
    { rewrite <- Hf. unfold input. cbv zeta. by destruct (Nat.even _). }
    assert (∀ a, a ∈ tree_inputs t → sha3_256 a = sha3_256 input → a = input) as Ha.
    { intros a Hat. rewrite Forall_forall in Hnc. specialize (Hnc a Hat).
      rewrite Forall_forall in Hnc. apply Hnc. rewrite elem_of_cons, elem_of_app.
      right; right. left. }
    assert (∀ t', (∀ a, a ∈ tree_inputs t' → a ∈ tree_inputs t) → d = mhash t' →
      leaf ∈ mleaves t') as Hsub.
    { intros t' Hin E. apply IH; [|done]. rewrite Forall_forall in Hnc |- *.
      intros a Hat. specialize (Hnc a (Hin a Hat)). rewrite Forall_forall in Hnc |- *.
      intros b Hb. apply Hnc. unfold verify_inputs in Hb.
      rewrite elem_of_cons in Hb |- *. rewrite elem_of_app. destruct Hb; auto. }
    destruct t as [y|l r].
    + assert (MERKLE_LEAF_PREFIX :: y = input) as E by (apply Ha; [left|done]).
      unfold input in E. by destruct (Nat.even _).
    + assert (MERKLE_NODE_PREFIX :: mhash l ++ mhash r = input) as E by (apply Ha; [left|done]).
      simpl. rewrite elem_of_app. pose proof (length_mhash l). pose proof (length_mhash r).
      unfold input in E. destruct (Nat.even _); apply (f_equal tail) in E; simpl in E.
      * apply app_inj_1 in E as [<- _]; [|lia]. left. apply Hsub; [|done].
        intros. simpl. set_solver.
      * assert (length s = 32%nat).
        { apply (f_equal length) in E. rewrite !length_app in E. lia. }
        apply app_inj_1 in E as [_ <-]; [|lia]. right. apply Hsub; [|done].
        intros. simpl. set_solver.
Qed.
End hash.

(** ** A concrete hash, used to run the model on examples

    A 32-bit polynomial mix in which a zero byte, the padding of keys and
    signatures, only counts. *)

Definition demo_mix_byte (acc : Z) (b : byte) : Z :=
  let v := byte_Z b in
  if v =? 0 then acc + 1 else Z.land (acc * 65599 + v) 4294967295.

Definition demo_mix (data : bytes) : Z :=
  foldl demo_mix_byte (Z.of_nat (length data) + 1) data.

Definition demo_sha3 : Sha3.
Proof.
  refine {| sha3_256 data := to_le_bytes 32 (demo_mix data) |}.
  intros x. apply length_to_le_bytes.
Defined.

#[global] Instance no_collision_dec `{Sha3} xs ys : Decision (no_collision xs ys).
Proof. unfold no_collision. apply _. Defined.

(** Completeness of the proofs. *)
Lemma merkle_verify_complete `{Sha3} (hashes : list bytes) (index : nat) (leaf : bytes) :
  hashes !! index = Some leaf →
  verify_merkle_proof leaf (merkle_proof hashes index) index (merkle_root hashes) = true.
Proof.
  intros Hi. pose proof (lookup_lt_Some _ _ _ Hi) as Hlt.
  unfold verify_merkle_proof, merkle_proof.
  rewrite (bool_decide_eq_false_2 (merkle_root _ = [])) by apply merkle_root_nonempty.
  rewrite bool_decide_eq_true.
  rewrite (bool_decide_eq_false_2 (hashes = [])) by (by intros ->).
  rewrite (bool_decide_eq_false_2 (length hashes ≤ index)%nat) by lia. simpl.
  case_bool_decide as H1.
  - destruct hashes as [|x [|??]]; simpl in *; [done| |done].
    destruct index; [|done]. simplify_eq/=. done.
  - transitivity (merkle_loop (length (merkle_hash_leaf <$> hashes))
                    (merkle_hash_leaf <$> hashes) !!! 0%nat); [|by destruct hashes].
    rewrite <- (merkle_fold_loop _ _ index) by (rewrite ?length_fmap; lia).
    f_equal. symmetry. apply list_lookup_total_correct. by rewrite list_lookup_fmap, Hi.
Qed.

(** Soundness of the verifier. *)
Lemma merkle_verify_sound `{Sha3} (hashes : list bytes) (leaf : bytes)
    (proof : list bytes) (index : nat) :
  hashes ≠ [] →
  no_collision (merkle_root_inputs hashes) (verify_inputs leaf proof index) →
  verify_merkle_proof leaf proof index (merkle_root hashes) = true →
  leaf ∈ hashes.
Proof.
  intros Hne Hnc Hv. destruct (merkle_root_tree hashes Hne) as (t&Ht&Hh&Hl).
  unfold verify_merkle_proof in Hv. case_bool_decide; [done|].
  apply bool_decide_eq_true in Hv. unfold merkle_root_inputs in Hnc. rewrite Ht in Hnc.
  apply Hl. eapply merkle_fold_sound; [exact Hnc|]. by rewrite Hv, Hh.
Qed.

(** ** Properties *)

(** Every leaf of a Merkle tree has a verifying proof: for every index in
    range, the path [merkle_proof] extracts is accepted by
    [verify_merkle_proof] against [merkle_root]. *)
Theorem merkle_proof_complete `{Sha3} (hashes : list bytes) (index : nat) (leaf : bytes) :
  hashes !! index = Some leaf →
  verify_merkle_proof leaf (merkle_proof hashes index) index (merkle_root hashes) = true.
Proof. apply merkle_verify_complete. Qed.

Lemma merkle_proof_complete_witness :
  let hs := [bstr "a"; bstr "b"; bstr "c"] in
  @verify_merkle_proof demo_sha3 (bstr "c") (@merkle_proof demo_sha3 hs 2) 2
    (@merkle_root demo_sha3 hs) = true.
Proof. apply (@merkle_proof_complete demo_sha3). reflexivity. Defined.

(** An accepted proof is a proof of membership. If SHA3-256 does not
    collide on the strings hashed to build the tree and to check the proof, a
    leaf accepted against [merkle_root hashes] — whatever index and sibling
    list the prover supplies — is one of [hashes]. The leaf and node prefixes
    are what excludes passing an inner node off as a leaf. *)
Theorem merkle_proof_sound `{Sha3} (hashes : list bytes) (leaf : bytes)
    (proof : list bytes) (index : nat) :
  hashes ≠ [] →
  no_collision (merkle_root_inputs hashes) (verify_inputs leaf proof index) →
  verify_merkle_proof leaf proof index (merkle_root hashes) = true →
  leaf ∈ hashes.
Proof. apply merkle_verify_sound. Qed.

Lemma merkle_proof_sound_witness :
  bstr "c" ∈ [bstr "a"; bstr "b"; bstr "c"].
Proof.
  apply (@merkle_proof_sound demo_sha3 [bstr "a"; bstr "b"; bstr "c"] (bstr "c")
    (@merkle_proof demo_sha3 [bstr "a"; bstr "b"; bstr "c"] 2) 2); [done| |vm_compute; reflexivity].
  vm_decide.
Defined.

Lemma merkle_next_level_duplicate `{Sha3} l x :
  Nat.odd (length l) = true → last l = Some x →
  merkle_next_level (l ++ [x]) = merkle_next_level l.
Proof.
  induction l as [|a|a b l IH] using list_ind_two; intros Ho Hx; simpl in *; [done|congruence|].
  f_equal. apply IH; [done|]. destruct l; [done|]. by rewrite last_cons_cons in Hx.
Qed.

(** The root does not determine the list of leaves: repeating the last
    element of an odd-length list of at least two leaves (hence three or more)
    leaves the root unchanged. *)
Lemma merkle_root_duplicate_last `{Sha3} (hashes : list bytes) (x : bytes) :
  (2 ≤ length hashes)%nat → Nat.odd (length hashes) = true → last hashes = Some x →
  merkle_root (hashes ++ [x]) = merkle_root hashes.
Proof.
  intros H2 Ho Hx. set (fuel := S (S (length hashes))).
  rewrite (merkle_root_loop fuel (hashes ++ [x])), (merkle_root_loop fuel hashes);
    [|by intros ->|unfold fuel; lia|by destruct hashes|rewrite length_app; unfold fuel; simpl; lia].
  rewrite fmap_app. unfold fuel.
  rewrite (merkle_loop_step _ ((merkle_hash_leaf <$> hashes) ++ _)),
    (merkle_loop_step _ (merkle_hash_leaf <$> hashes));
    [|rewrite ?length_app, length_fmap; lia..].
  cbn [fmap list_fmap]. rewrite (merkle_next_level_duplicate _ (merkle_hash_leaf x));
    [done|by rewrite length_fmap|by rewrite fmap_last, Hx].
Qed.
