(* ===== verification/Crypto.v ===== *)
(** * Signatures ([src/crypto/dilithium.rs])

    The FIPS-204 ML-DSA-87 primitives come from the [ml-dsa] crate and are the
    parameters of the class [MlDsa]; this file models the wrapper around them.
    The [bincode] crate's encoder is the parameter [bincode_serialize], one
    instance per serialised type. *)
From S2P Require Import Prelude.

(** [bincode::serialize(&x)] for a type of the crate. *)
Class Bincode (A : Type) := bincode_serialize : A → bytes.

Definition ML_DSA_PK_LEN : nat := 2592.
Definition ML_DSA_SIG_LEN : nat := 4627.
Definition ML_DSA_SEED_LEN : nat := 32.

(** The [ml-dsa] crate: key generation from a seed, signing, decoding and
    verification, with the lengths of the encodings and the correctness of the
    scheme. *)
Class MlDsa := {
  mldsa_verifying_key : bytes → bytes;
  mldsa_sign : bytes → bytes → bytes;
  mldsa_decode_signature : bytes → option bytes;
  mldsa_verify : bytes → bytes → bytes → bool;
  mldsa_verifying_key_length seed : length (mldsa_verifying_key seed) = ML_DSA_PK_LEN;
  mldsa_sign_length seed msg : length (mldsa_sign seed msg) = ML_DSA_SIG_LEN;
  mldsa_correct seed msg : length seed = ML_DSA_SEED_LEN →
    ∃ sig, mldsa_decode_signature (mldsa_sign seed msg) = Some sig ∧
           mldsa_verify (mldsa_verifying_key seed) msg sig = true;
}.

(** [pub struct Signature(pub Vec<u8>)]. *)
Record Signature := mkSignature { signature_bytes : bytes }.

#[global] Instance Signature_eq_dec : EqDecision Signature.
Proof. solve_decision. Defined.

Record KeyPair := mkKeyPair {
  public_key : bytes;
  secret_key : bytes;
}.

Section dilithium.
Context `{MlDsa}.

(** [KeyPair::generate], given the 32 bytes drawn from the system's generator. *)
Definition keypair_generate (seed : bytes) : KeyPair :=
  mkKeyPair (mldsa_verifying_key seed) seed.

(** [KeyPair::sign]; [None] is the panic of [expect("invalid secret key")]. *)
Definition keypair_sign (kp : KeyPair) (message : bytes) : option Signature :=
  if bool_decide (length (secret_key kp) = ML_DSA_SEED_LEN)
  then Some (mkSignature (mldsa_sign (secret_key kp) message))
  else None.

(** [dilithium::verify]. *)
Definition dilithium_verify (message : bytes) (signature : Signature) (pk : bytes) : bool :=
  if negb (bool_decide (length pk = ML_DSA_PK_LEN)) then false
  else if negb (bool_decide (length (signature_bytes signature) = ML_DSA_SIG_LEN)) then false
  else match mldsa_decode_signature (signature_bytes signature) with
       | None => false
       | Some sig => mldsa_verify pk message sig
       end.

(** A signature verifies for at most one message of length at most [n]:
    ML-DSA's message-bound-signature property, restricted to the short messages
    the node signs. *)
Definition message_binding (n : nat) : Prop :=
  ∀ m m' sig pk, (length m ≤ n)%nat → (length m' ≤ n)%nat →
    dilithium_verify m sig pk = true → dilithium_verify m' sig pk = true → m = m'.

(** What the rest of the node uses: a generated key pair's signatures verify. *)
Lemma dilithium_sign_verify seed msg :
  length seed = ML_DSA_SEED_LEN →
  ∃ sig, keypair_sign (keypair_generate seed) msg = Some sig ∧
    dilithium_verify msg sig (public_key (keypair_generate seed)) = true.
Proof.
  intros Hs. unfold keypair_sign. simpl. rewrite bool_decide_eq_true_2 by done.
  eexists. split; [done|]. unfold dilithium_verify.
  cbn [public_key keypair_generate secret_key signature_bytes].
  rewrite mldsa_verifying_key_length, mldsa_sign_length, !bool_decide_eq_true_2 by done.
  cbn [negb].
  destruct (mldsa_correct seed msg Hs) as (sig&->&Hv). done.
Qed.
End dilithium.

(** ** A concrete scheme, used to run the model on examples

    The key is the padded seed; a signature embeds the seed and the first 4000
    bytes of the message with its length, and is checked up to the message's
    last byte. *)

Definition demo_signature (seed msg : bytes) : bytes :=
  take 32 (seed ++ replicate 32 x00) ++ to_le_bytes 8 (Z.of_nat (length msg)) ++
  take 4587 (take 4000 msg ++ replicate 4587 x00).

Definition demo_verify (pk msg sig : bytes) : bool :=
  let n := (40 + length msg)%nat in
  bool_decide (take n sig = take n (demo_signature (take 32 pk) msg)).

Definition demo_mldsa : MlDsa.
Proof.
  refine {|
    mldsa_verifying_key seed := take 2592 (take 32 seed ++ replicate 2592 x00);
    mldsa_sign := demo_signature;
    mldsa_decode_signature sig := Some sig;
    mldsa_verify := demo_verify;
  |}.
  - intros seed. rewrite length_take, length_app, length_replicate. unfold ML_DSA_PK_LEN. lia.
  - intros seed msg. unfold demo_signature.
    rewrite !length_app, !length_take, !length_app, length_to_le_bytes, !length_replicate.
    unfold ML_DSA_SIG_LEN. lia.
  - intros seed msg Hs. eexists. split; [done|]. apply bool_decide_eq_true. do 2 f_equal.
    unfold ML_DSA_SEED_LEN in Hs.
    rewrite (take_ge seed) by lia. rewrite take_take.
    replace (32 `min` 2592)%nat with 32%nat by lia.
    by rewrite take_app_length'.
Defined.

Lemma demo_signature_body seed msg k :
  (length msg ≤ 4000)%nat → (k ≤ length msg)%nat →
  take (40 + k) (demo_signature seed msg) =
    take 32 (seed ++ replicate 32 x00) ++ to_le_bytes 8 (Z.of_nat (length msg)) ++ take k msg.
Proof.
  intros Hm Hk. unfold demo_signature.
  assert (length (take 32 (seed ++ replicate 32 x00)) = 32%nat) as H32.
  { rewrite length_take, length_app, length_replicate. lia. }
  replace (40 + k)%nat with (length (take 32 (seed ++ replicate 32 x00)) + (8 + k))%nat by lia.
  rewrite take_app_add. f_equal.
  rewrite <- (length_to_le_bytes 8 (Z.of_nat (length msg))) at 1.
  rewrite take_app_add, take_take, (take_ge msg 4000), take_app_le by lia. f_equal. f_equal. lia.
Qed.

Lemma demo_message_binding : @message_binding demo_mldsa 4000.
Proof.
  intros m m' sig pk Hm Hm'. unfold dilithium_verify.
  case_match; [done|]. case_match; [done|]. simpl. unfold demo_verify.
  rewrite !bool_decide_eq_true. intros E E'. set (s := signature_bytes sig) in E, E'.
  assert (∀ k m, (length m ≤ 4000)%nat → (k ≤ length m)%nat →
    take (40 + length m) s = take (40 + length m) (demo_signature (take 32 pk) m) →
    take (40 + k) s = take 32 (take 32 pk ++ replicate 32 x00) ++
      to_le_bytes 8 (Z.of_nat (length m)) ++ take k m) as Hk.
  { intros k m0 Hm0 Hk Em. rewrite <- demo_signature_body by done.
    apply (f_equal (take (40 + k))) in Em. rewrite !take_take in Em.
    by rewrite Nat.min_l in Em by lia. }
  pose proof (Hk 0%nat m Hm ltac:(lia) E) as L.
  rewrite (Hk 0%nat m' Hm' ltac:(lia) E') in L.
  apply app_inv_head in L. rewrite !take_0, !app_nil_r in L.
  apply to_le_bytes_inj in L; [|simpl; lia..].
  pose proof (Hk (length m) m Hm ltac:(lia) E) as B.
  rewrite (Hk (length m) m' Hm' ltac:(lia) E') in B.
  rewrite L in B. do 2 apply app_inv_head in B.
  rewrite !take_ge in B by lia. done.
Qed.
