(* ===== verification/Vm.v ===== *)
(** * Virtual machines: gas schedule, contract state, receipts, engine interfaces
    ([src/vm/gas.rs], [src/vm/state.rs], [src/core/receipt.rs], [src/vm/mod.rs],
    [src/vm/evm.rs])

    The class [WasmEngine] and the class [EvmEngine] are what the chain relies on of
    the two engines; [Wasm] and [Evm] implement them. The code of [Vm::deploy]
    around the WASM engine is here. *)
From S2P Require Import Prelude Hash.

Definition GAS_BASE_TX : Z := 21000.
Definition GAS_DEPLOY : Z := 32000.
Definition GAS_CALL : Z := 2600.
Definition GAS_PER_BYTE : Z := 16.

Record ContractState := mkContractState {
  code_hash : bytes;
  code : bytes;
  storage : gmap bytes bytes;
  owner : bytes;
}.

#[global] Instance ContractState_eq_dec : EqDecision ContractState.
Proof. solve_decision. Defined.

Record LogEntry := mkLogEntry {
  log_contract : bytes;
  log_topics : list bytes;
  log_data : bytes;
}.

Record Receipt := mkReceipt {
  rc_tx_hash : bytes;
  rc_success : bool;
  rc_gas_used : Z;
  rc_effective_gas_price : Z;
  rc_priority_fee_paid : Z;
  rc_base_fee_burned : Z;
  rc_gas_refunded : Z;
  rc_logs : list LogEntry;
  rc_return_data : bytes;
  rc_contract_address : option bytes;
}.

Inductive VmError :=
  | InvalidWasm
  | EmptyBytecode
  | OutOfGas (limit needed : Z)
  | MissingEntrypoint
  | UnsupportedEntrypoint
  | UnmeteredLoop
  | Execution (message : string)
  | VmGasOverflow.

Inductive EvmError :=
  | EvmInvalidBytecode
  | EvmEmptyBytecode
  | EvmReverted (message : string)
  | EvmHalted (message : string)
  | EvmOutOfGas
  | EvmInternal (message : string)
  | EvmRlpDecode (message : string)
  | EvmSignatureRecovery
  | EvmContractNotFound.

(** [DecodedRawTx]: an Ethereum transaction parsed from its RLP encoding. *)
Record DecodedRawTx := mkDecodedRawTx {
  raw_from : bytes;
  raw_to : option bytes;
  raw_value : Z;
  raw_data : bytes;
  raw_gas_limit : Z;
  raw_gas_price : Z;
  raw_max_fee_per_gas : Z;
  raw_max_priority_fee_per_gas : Z;
  raw_nonce : Z;
  raw_chain_id : option Z;
  raw_tx_hash : bytes;
}.

(** [EvmStateView]: what revm sees of the chain, keyed by 20-byte addresses. *)
Record EvmStateView := mkEvmStateView {
  ev_accounts : gmap bytes (Z * Z);
  ev_contracts : gmap bytes ContractState;
}.

Record EvmOutcome := mkEvmOutcome {
  eo_gas_used : Z;
  eo_account_updates : gmap bytes (Z * Z);
  eo_storage_updates : gmap bytes (gmap bytes bytes);
  eo_contracts_created : gmap bytes ContractState;
  eo_contract_address : option bytes;
  eo_logs : list LogEntry;
  eo_return_data : bytes;
  eo_success : bool;
}.

(** Arguments of a revm run ([evm::deploy] and [evm::call]). *)
Record EvmCall := mkEvmCall {
  ec_caller : bytes;
  ec_to : option bytes;
  ec_data : bytes;
  ec_value : Z;
  ec_gas_limit : Z;
  ec_gas_price : Z;
  ec_block_height : Z;
  ec_base_fee : Z;
  ec_block_gas_limit : Z;
}.

(** alloy's decoder with signer recovery, and the revm interpreter. *)
Class EvmEngine := {
  decode_raw_eth_tx : bytes → result EvmError DecodedRawTx;
  evm_run : EvmStateView → EvmCall → result EvmError EvmOutcome;
  evm_run_gas_used view c outcome :
    evm_run view c = Ok outcome → 0 ≤ eo_gas_used outcome ≤ ec_gas_limit c;
}.

(** wasmparser and wasmer: module normalisation, compilation and metering
    analysis ([Vm::compile_module]), and the run of an exported entry point. A
    run is given the contract, its address, the call data, the caller, the
    transferred value and the gas limit; it returns the new storage and the
    receipt. *)
Class WasmEngine := {
  compile_module : bytes → result VmError (bytes * bool);
  wasm_call : ContractState → bytes → bytes → bytes → Z → Z →
    result VmError (gmap bytes bytes * Receipt);
  wasm_call_gas_used contract addr data caller value gas_limit storage' receipt :
    wasm_call contract addr data caller value gas_limit = Ok (storage', receipt) →
    0 ≤ rc_gas_used receipt ≤ gas_limit;
}.

(** [checked_add] and [checked_mul] on [u64]. *)
Definition checked_add (a b : Z) : option Z := if a + b <=? u64_max then Some (a + b) else None.
Definition checked_mul (a b : Z) : option Z := if a * b <=? u64_max then Some (a * b) else None.

Section vm.
Context `{Sha3} `{WasmEngine}.

(** [Vm::deploy]. *)
Definition vm_deploy (code deployer : bytes) (nonce gas_limit block_height : Z) :
    result VmError (ContractState * Receipt) :=
  if bool_decide (code = []) then Err EmptyBytecode else
  '(normalized_code, _) ← compile_module code;
  code_byte_gas ← ok_or VmGasOverflow
    (checked_mul (Z.of_nat (length normalized_code)) GAS_PER_BYTE);
  gas_needed ← ok_or VmGasOverflow
    (g ← checked_add GAS_BASE_TX GAS_DEPLOY; checked_add g code_byte_gas);
  if gas_limit <? gas_needed then Err (OutOfGas gas_limit gas_needed) else
  let contract_address :=
    take ADDRESS_LEN
      (sha3_hash_domain (bstr "curs3d-contract-addr-v2")
         [deployer; to_le_bytes 8 nonce; to_le_bytes 8 block_height]) in
  Ok (mkContractState (sha3_hash normalized_code) normalized_code ∅ deployer,
      mkReceipt [] true gas_needed 0 0 0 0 [] [] (Some contract_address)).

(** [receipt_from_outcome]. *)
Definition receipt_from_outcome (outcome : EvmOutcome) (tx_hash : bytes)
    (effective_gas_price : Z) : Receipt :=
  mkReceipt tx_hash (eo_success outcome) (eo_gas_used outcome) effective_gas_price 0 0 0
    (eo_logs outcome) (eo_return_data outcome) (eo_contract_address outcome).

(** A successful deployment never charges more than the gas limit. *)
Lemma vm_deploy_gas code deployer nonce gas_limit height contract receipt :
  vm_deploy code deployer nonce gas_limit height = Ok (contract, receipt) →
  GAS_BASE_TX + GAS_DEPLOY ≤ rc_gas_used receipt ≤ gas_limit ∧
  rc_gas_used receipt ≤ u64_max.
Proof.
  unfold vm_deploy, checked_add, checked_mul. intros Hd.
  destruct (bool_decide _); [done|].
  destruct (compile_module code) as [[nc m]|]; simpl in Hd; [|done].
  repeat case_test; bool_to_prop; simpl in *. unfold GAS_BASE_TX, GAS_DEPLOY, GAS_PER_BYTE in *.
  lia.
Qed.
End vm.

(** Engines for runs that involve no contract: the decoder reads the first 20
    bytes of the raw transaction as its signer, executions fail. *)
Definition demo_evm : EvmEngine.
Proof.
  refine {| 
    decode_raw_eth_tx raw :=
      Ok (mkDecodedRawTx (take 20 raw) None 0 [] 0 0 0 0 0 None []);
    evm_run _ _ := Err EvmOutOfGas |}.
  done.
Defined.

Definition demo_wasm : WasmEngine.
Proof.
  refine {| compile_module _ := Err InvalidWasm;
            wasm_call _ _ _ _ _ _ := Err MissingEntrypoint |}.
  done.
Defined.
