(* ===== verification/Transaction.v ===== *)
(** * Transactions ([src/core/transaction.rs])

    Kinds, mempool classes, gas and fee arithmetic, signing payload, signature
    verification. Amounts, fees, gas and nonces are [u64], the timestamp is
    [i64]; wall-clock time is an argument of the constructors. *)
From S2P Require Import Prelude Hash Crypto Vm.

Inductive TransactionKind :=
  | Transfer
  | Stake
  | Unstake
  | Coinbase
  | DeployContract
  | CallContract
  | DeployToken
  | TokenTransfer
  | TokenApprove
  | TokenTransferFrom
  | SubmitProposal
  | GovernanceVote
  | DeployEvmContract
  | CallEvmContract.

#[global] Instance TransactionKind_eq_dec : EqDecision TransactionKind.
Proof. solve_decision. Defined.

Inductive MempoolClass := System | User.

#[global] Instance MempoolClass_eq_dec : EqDecision MempoolClass.
Proof. solve_decision. Defined.

(** [TransactionKind::mempool_class]. *)
Definition kind_mempool_class (kind : TransactionKind) : MempoolClass :=
  match kind with
  | Stake | Unstake | SubmitProposal | GovernanceVote | Coinbase => System
  | Transfer | DeployContract | CallContract | DeployToken | TokenTransfer
  | TokenApprove | TokenTransferFrom | DeployEvmContract | CallEvmContract => User
  end.

Record Transaction := mkTransaction {
  tx_chain_id : string;
  tx_kind : TransactionKind;
  tx_from : bytes;
  tx_sender_public_key : bytes;
  tx_to : bytes;
  tx_amount : Z;
  tx_fee : Z;
  tx_max_fee_per_gas : Z;
  tx_max_priority_fee_per_gas : Z;
  tx_nonce : Z;
  tx_timestamp : Z;
  tx_signature : option Signature;
  tx_gas_limit : Z;
  tx_data : bytes;
  tx_evm_raw_tx : bytes;
}.

#[global] Instance Transaction_eq_dec : EqDecision Transaction.
Proof. solve_decision. Defined.

(** The [u64] fields hold machine integers. *)
Definition tx_wf (tx : Transaction) : Prop :=
  is_u64 (tx_amount tx) ∧ is_u64 (tx_fee tx) ∧ is_u64 (tx_max_fee_per_gas tx) ∧
  is_u64 (tx_max_priority_fee_per_gas tx) ∧ is_u64 (tx_nonce tx) ∧ is_u64 (tx_gas_limit tx).

(** [SignableTransaction]: what the sender signs. *)
Record SignableTransaction := mkSignable {
  sg_chain_id : string;
  sg_kind : TransactionKind;
  sg_from : bytes;
  sg_sender_public_key : bytes;
  sg_to : bytes;
  sg_amount : Z;
  sg_fee : Z;
  sg_max_fee_per_gas : Z;
  sg_max_priority_fee_per_gas : Z;
  sg_nonce : Z;
  sg_timestamp : Z;
  sg_gas_limit : Z;
  sg_data : bytes;
}.

Definition mempool_class (tx : Transaction) : MempoolClass := kind_mempool_class (tx_kind tx).

(** ** Gas and fees *)

(** [canonical_max_fee_per_gas], the public [max_fee_per_gas()]. *)
Definition max_fee_per_gas (tx : Transaction) : Z :=
  Z.max (tx_max_fee_per_gas tx) (tx_fee tx).

(** [canonical_max_priority_fee_per_gas], the public
    [max_priority_fee_per_gas()]. *)
Definition max_priority_fee_per_gas (tx : Transaction) : Z :=
  let max_fee := max_fee_per_gas tx in
  if tx_max_priority_fee_per_gas tx =? 0 then Z.min (tx_fee tx) max_fee
  else Z.min (tx_max_priority_fee_per_gas tx) max_fee.

Definition intrinsic_gas (tx : Transaction) : Z :=
  let data_len := Z.of_nat (length (tx_data tx)) in
  let to_len := Z.of_nat (length (tx_to tx)) in
  let payload_bytes :=
    match tx_kind tx with
    | Transfer => data_len
    | Stake | Unstake | Coinbase => 0
    | DeployContract => saturating_add to_len data_len
    | CallContract => data_len
    | DeployToken | TokenTransfer | TokenApprove | TokenTransferFrom => data_len
    | SubmitProposal | GovernanceVote => data_len
    | DeployEvmContract => saturating_add data_len to_len
    | CallEvmContract => data_len
    end in
  let kind_gas :=
    match tx_kind tx with
    | Transfer | Stake | Unstake | Coinbase => GAS_BASE_TX
    | DeployContract => saturating_add GAS_BASE_TX GAS_DEPLOY
    | CallContract => saturating_add GAS_BASE_TX GAS_CALL
    | DeployToken => GAS_BASE_TX
    | TokenTransfer | TokenApprove | TokenTransferFrom => GAS_BASE_TX
    | SubmitProposal | GovernanceVote => GAS_BASE_TX
    | DeployEvmContract => saturating_add GAS_BASE_TX GAS_DEPLOY
    | CallEvmContract => saturating_add GAS_BASE_TX GAS_CALL
    end in
  saturating_add kind_gas (saturating_mul payload_bytes GAS_PER_BYTE).

Definition estimated_gas_for_admission (tx : Transaction) : Z :=
  match tx_kind tx with
  | DeployContract | CallContract | DeployEvmContract | CallEvmContract =>
      Z.max (tx_gas_limit tx) (intrinsic_gas tx)
  | _ => intrinsic_gas tx
  end.

Definition effective_gas_limit (tx : Transaction) : Z := estimated_gas_for_admission tx.

Definition total_fee_cap (tx : Transaction) : Z :=
  saturating_mul (effective_gas_limit tx) (max_fee_per_gas tx).

Definition effective_gas_price (tx : Transaction) (base_fee_per_gas : Z) : option Z :=
  let max_fee := max_fee_per_gas tx in
  if max_fee <? base_fee_per_gas then None
  else
    let priority := Z.min (max_priority_fee_per_gas tx)
                          (saturating_sub max_fee base_fee_per_gas) in
    Some (saturating_add base_fee_per_gas priority).

Definition priority_fee_per_gas (tx : Transaction) (base_fee_per_gas : Z) : option Z :=
  (λ effective, saturating_sub effective base_fee_per_gas) <$>
    effective_gas_price tx base_fee_per_gas.

Definition with_fee_caps (tx : Transaction) (max_fee max_priority : Z) : Transaction :=
  mkTransaction (tx_chain_id tx) (tx_kind tx) (tx_from tx) (tx_sender_public_key tx)
    (tx_to tx) (tx_amount tx) max_fee max_fee (Z.min max_priority max_fee) (tx_nonce tx)
    (tx_timestamp tx) (tx_signature tx) (tx_gas_limit tx) (tx_data tx) (tx_evm_raw_tx tx).

(** ** Predicates on the kind *)

Definition is_coinbase (tx : Transaction) : bool := bool_decide (tx_kind tx = Coinbase).
Definition is_stake (tx : Transaction) : bool := bool_decide (tx_kind tx = Stake).
Definition is_unstake (tx : Transaction) : bool := bool_decide (tx_kind tx = Unstake).
Definition is_evm (tx : Transaction) : bool :=
  match tx_kind tx with DeployEvmContract | CallEvmContract => true | _ => false end.

Section transaction.
Context `{Sha3} `{MlDsa} `{EvmEngine} `{!Bincode SignableTransaction}.

(** ** Constructors *)

(** [Transaction::new]. *)
Definition transaction_new (chain_id : string) (pk to : bytes) (amount fee nonce now : Z)
    : Transaction :=
  mkTransaction chain_id Transfer (address_bytes_from_public_key pk) pk to amount fee fee fee
    nonce now None 0 [] [].

(** [Transaction::stake]. *)
Definition transaction_stake (chain_id : string) (pk : bytes) (amount fee nonce now : Z)
    : Transaction :=
  mkTransaction chain_id Stake (address_bytes_from_public_key pk) pk [] amount fee fee fee
    nonce now None 0 [] [].

(** [Transaction::unstake]. *)
Definition transaction_unstake (chain_id : string) (pk : bytes) (amount fee nonce now : Z)
    : Transaction :=
  mkTransaction chain_id Unstake (address_bytes_from_public_key pk) pk [] amount fee fee fee
    nonce now None 0 [] [].

(** [Transaction::coinbase_with_timestamp]; [Transaction::coinbase] passes the
    current time. *)
Definition coinbase_with_timestamp (chain_id : string) (to : bytes) (amount timestamp : Z)
    : Transaction :=
  mkTransaction chain_id Coinbase (replicate ADDRESS_LEN x00) [] to amount 0 0 0 0 timestamp
    None 0 [] [].

(** [Transaction::deploy_contract]: the bytecode travels in [to]. *)
Definition transaction_deploy_contract (chain_id : string) (pk code : bytes)
    (gas_limit fee nonce now : Z) : Transaction :=
  mkTransaction chain_id DeployContract (address_bytes_from_public_key pk) pk code 0 fee fee
    fee nonce now None gas_limit [] [].

(** [Transaction::call_contract]. *)
Definition transaction_call_contract (chain_id : string) (pk contract_addr input_data : bytes)
    (value gas_limit fee nonce now : Z) : Transaction :=
  mkTransaction chain_id CallContract (address_bytes_from_public_key pk) pk contract_addr
    value fee fee fee nonce now None gas_limit input_data [].

(** [Transaction::from_evm_raw]. *)
Definition from_evm_raw (chain_id : string) (kind : TransactionKind)
    (from_addr to_addr : bytes) (value nonce gas_limit max_fee max_priority : Z)
    (data raw_tx : bytes) (now : Z) : Transaction :=
  mkTransaction chain_id kind from_addr [] to_addr value max_fee max_fee max_priority nonce
    now None gas_limit data raw_tx.

(** ** Hash and signature *)

Definition signable_payload (tx : Transaction) : SignableTransaction :=
  mkSignable (tx_chain_id tx) (tx_kind tx) (tx_from tx) (tx_sender_public_key tx) (tx_to tx)
    (tx_amount tx) (tx_fee tx) (max_fee_per_gas tx) (max_priority_fee_per_gas tx)
    (tx_nonce tx) (tx_timestamp tx) (tx_gas_limit tx) (tx_data tx).

Definition signable_bytes (tx : Transaction) : bytes :=
  bstr "curs3d-tx-v1:" ++ bincode_serialize (signable_payload tx).

Definition tx_hash (tx : Transaction) : bytes := sha3_hash (signable_bytes tx).

Definition set_signature (tx : Transaction) (sig : option Signature) : Transaction :=
  mkTransaction (tx_chain_id tx) (tx_kind tx) (tx_from tx) (tx_sender_public_key tx)
    (tx_to tx) (tx_amount tx) (tx_fee tx) (tx_max_fee_per_gas tx)
    (tx_max_priority_fee_per_gas tx) (tx_nonce tx) (tx_timestamp tx) sig (tx_gas_limit tx)
    (tx_data tx) (tx_evm_raw_tx tx).

(** [Transaction::sign]; [None] is the panic of [KeyPair::sign]. *)
Definition transaction_sign (tx : Transaction) (kp : KeyPair) : option Transaction :=
  if is_coinbase tx then Some tx
  else sig ← keypair_sign kp (signable_bytes tx); Some (set_signature tx (Some sig)).

(** [Transaction::verify_signature]. *)
Definition verify_signature (tx : Transaction) : bool :=
  if is_coinbase tx then true
  else if is_evm tx then
    if bool_decide (tx_evm_raw_tx tx = []) then false
    else match decode_raw_eth_tx (tx_evm_raw_tx tx) with
         | Ok decoded => bool_decide (raw_from decoded = tx_from tx)
         | Err _ => false
         end
  else if negb (bool_decide (tx_from tx = address_bytes_from_public_key (tx_sender_public_key tx)))
  then false
  else match tx_signature tx with
       | Some sig => dilithium_verify (signable_bytes tx) sig (tx_sender_public_key tx)
       | None => false
       end.
End transaction.

(** ** Lemmas on gas and fees *)

Lemma max_priority_le_max_fee tx : max_priority_fee_per_gas tx ≤ max_fee_per_gas tx.
Proof. unfold max_priority_fee_per_gas. case_match; lia. Qed.

Lemma max_fee_per_gas_u64 tx : tx_wf tx → is_u64 (max_fee_per_gas tx).
Proof. unfold tx_wf, max_fee_per_gas. u64_lia. Qed.

Lemma max_priority_fee_per_gas_u64 tx : tx_wf tx → is_u64 (max_priority_fee_per_gas tx).
Proof.
  intros Hwf. pose proof (max_fee_per_gas_u64 _ Hwf). unfold tx_wf, max_priority_fee_per_gas in *.
  case_match; u64_lia.
Qed.

Lemma intrinsic_gas_range tx : GAS_BASE_TX ≤ intrinsic_gas tx ≤ u64_max.
Proof.
  unfold intrinsic_gas, GAS_PER_BYTE, GAS_BASE_TX, GAS_DEPLOY, GAS_CALL.
  destruct (tx_kind tx); u64_lia.
Qed.

Lemma estimated_gas_range tx :
  tx_wf tx → GAS_BASE_TX ≤ estimated_gas_for_admission tx ≤ u64_max.
Proof.
  intros Hwf. pose proof (intrinsic_gas_range tx). unfold estimated_gas_for_admission.
  unfold tx_wf in Hwf. destruct (tx_kind tx); u64_lia.
Qed.

Lemma total_fee_cap_u64 tx : tx_wf tx → is_u64 (total_fee_cap tx).
Proof.
  intros Hwf. apply saturating_mul_range; [|by apply max_fee_per_gas_u64].
  pose proof (estimated_gas_range tx Hwf). unfold effective_gas_limit, GAS_BASE_TX in *. u64_lia.
Qed.

#[export] Hint Resolve max_fee_per_gas_u64 max_priority_fee_per_gas_u64 total_fee_cap_u64 : u64.

(** The effective price lies between the base fee and the fee cap. *)
Lemma effective_gas_price_bounds tx base p :
  tx_wf tx → is_u64 base → effective_gas_price tx base = Some p →
  base ≤ p ≤ max_fee_per_gas tx ∧ p - base ≤ max_priority_fee_per_gas tx.
Proof.
  intros Hwf Hb. pose proof (max_fee_per_gas_u64 _ Hwf).
  pose proof (max_priority_fee_per_gas_u64 _ Hwf). unfold effective_gas_price.
  case_match eqn:E; [done|]. intros [= <-]. bool_to_prop. u64_lia.
Qed.

(** ** Lemmas on signatures *)

Section signature_lemmas.
Context `{Sha3} `{MlDsa} `{EvmEngine} `{!Bincode SignableTransaction}.

Lemma signable_bytes_set_signature tx sig : signable_bytes (set_signature tx sig) = signable_bytes tx.
Proof. done. Qed.

(** For a native transaction, acceptance is the derivation of the sender's
    address plus an ML-DSA signature on the payload. *)
Lemma verify_signature_native tx :
  is_coinbase tx = false → is_evm tx = false →
  verify_signature tx = true ↔
    tx_from tx = address_bytes_from_public_key (tx_sender_public_key tx) ∧
    ∃ sig, tx_signature tx = Some sig ∧
      dilithium_verify (signable_bytes tx) sig (tx_sender_public_key tx) = true.
Proof.
  intros Hc He. unfold verify_signature. rewrite Hc, He.
  case_bool_decide; simpl; [|naive_solver].
  destruct (tx_signature tx); naive_solver.
Qed.
End signature_lemmas.

(** ** Running the model on examples *)

Definition kind_index (k : TransactionKind) : Z :=
  match k with
  | Transfer => 0 | Stake => 1 | Unstake => 2 | Coinbase => 3 | DeployContract => 4
  | CallContract => 5 | DeployToken => 6 | TokenTransfer => 7 | TokenApprove => 8
  | TokenTransferFrom => 9 | SubmitProposal => 10 | GovernanceVote => 11
  | DeployEvmContract => 12 | CallEvmContract => 13
  end.

Definition demo_field (b : bytes) : bytes := to_le_bytes 8 (Z.of_nat (length b)) ++ b.

Definition demo_bincode_tx : Bincode SignableTransaction := λ p,
  demo_field (bstr (sg_chain_id p)) ++ to_le_bytes 4 (kind_index (sg_kind p)) ++
  demo_field (sg_from p) ++ demo_field (sg_sender_public_key p) ++ demo_field (sg_to p) ++
  concat (to_le_bytes 8 <$> [sg_amount p; sg_fee p; sg_max_fee_per_gas p;
    sg_max_priority_fee_per_gas p; sg_nonce p; sg_timestamp p; sg_gas_limit p]) ++
  demo_field (sg_data p).

Definition demo_seed (n : Z) : bytes := to_le_bytes 32 n.
Definition demo_keypair (n : Z) : KeyPair := @keypair_generate demo_mldsa (demo_seed n).

(** ** Properties *)

(** The EIP-1559 price. A base fee above the cap has no price; otherwise
    the price lies between the base fee and the fee cap, the tip is the price
    minus the base fee and at most the priority cap, and no gas amount within
    the transaction's gas limit costs more than the cap debited up front. *)
Theorem effective_gas_price_spec (tx : Transaction) (base : Z) :
  tx_wf tx → is_u64 base →
  match effective_gas_price tx base with
  | None => max_fee_per_gas tx < base
  | Some p =>
      base ≤ p ≤ max_fee_per_gas tx ∧
      priority_fee_per_gas tx base = Some (p - base) ∧
      p - base ≤ max_priority_fee_per_gas tx ∧
      ∀ gas, 0 ≤ gas ≤ effective_gas_limit tx → saturating_mul gas p ≤ total_fee_cap tx
  end.
Proof.
  intros Hwf Hb. destruct (effective_gas_price tx base) as [p|] eqn:E.
  - destruct (effective_gas_price_bounds tx base p Hwf Hb E) as [Hp Hq].
    split; [done|]. split; [|split; [done|]].
    + unfold priority_fee_per_gas. rewrite E. simpl. f_equal. u64_lia.
    + intros gas Hg. unfold total_fee_cap, saturating_mul.
      assert (gas * p ≤ effective_gas_limit tx * max_fee_per_gas tx); [|lia].
      apply Z.mul_le_mono_nonneg; unfold is_u64 in Hb; lia.
  - unfold effective_gas_price in E. case_match; [|done]. by bool_to_prop.
Qed.

Lemma effective_gas_price_spec_witness :
  let tx := mkTransaction "c" Transfer [] [] [] 5 3 10 4 0 0 None 0 [] [] in
  effective_gas_price tx 7 = Some 10 ∧ saturating_mul 21000 10 ≤ total_fee_cap tx.
Proof.
  set (tx := mkTransaction "c" Transfer [] [] [] 5 3 10 4 0 0 None 0 [] []).
  pose proof (effective_gas_price_spec tx 7) as Hs.
  split; [reflexivity|].
  destruct Hs as (_&_&_&Hg); [unfold tx_wf, tx; simpl; u64_lia|u64_lia|].
  apply Hg. vm_compute. split; discriminate.
Defined.

(** Signing then verifying succeeds: a native transaction whose sender
    fields come from a generated key pair verifies after [sign], and signing
    does not change the transaction hash. *)
Theorem sign_verify_roundtrip `{Sha3} `{MlDsa} `{EvmEngine} `{!Bincode SignableTransaction}
    (tx : Transaction) (seed : bytes) :
  length seed = ML_DSA_SEED_LEN →
  is_coinbase tx = false → is_evm tx = false →
  tx_sender_public_key tx = public_key (keypair_generate seed) →
  tx_from tx = address_bytes_from_public_key (tx_sender_public_key tx) →
  ∃ tx', transaction_sign tx (keypair_generate seed) = Some tx' ∧
    verify_signature tx' = true ∧ tx_hash tx' = tx_hash tx.
Proof.
  intros Hs Hc He Hpk Hf.
  destruct (dilithium_sign_verify seed (signable_bytes tx) Hs) as (sig&Hsig&Hv).
  exists (set_signature tx (Some sig)). unfold transaction_sign. rewrite Hc, Hsig.
  split; [done|split; [|done]]. apply verify_signature_native; [done..|].
  split; [done|]. exists sig. split; [done|].
  rewrite signable_bytes_set_signature. simpl. by rewrite Hpk.
Qed.

Lemma sign_verify_roundtrip_witness :
  let tx := @transaction_new demo_sha3 "c" (public_key (demo_keypair 7)) (replicate 20 x01) 5 3 0 0 in
  ∃ tx', @transaction_sign demo_mldsa demo_bincode_tx tx (demo_keypair 7) = Some tx' ∧
    @verify_signature demo_sha3 demo_mldsa demo_evm demo_bincode_tx tx' = true ∧
    @tx_hash demo_sha3 demo_bincode_tx tx' = @tx_hash demo_sha3 demo_bincode_tx tx.
Proof.
  apply (@sign_verify_roundtrip demo_sha3 demo_mldsa demo_evm demo_bincode_tx _ (demo_seed 7));
    reflexivity.
Defined.

(** Tampering with a signed native transaction is detected: if [tx]
    verifies, any transaction with the same public key and signature but a
    different signing payload is rejected. *)
Theorem tampered_payload_rejected `{Sha3} `{MlDsa} `{EvmEngine} `{!Bincode SignableTransaction}
    (n : nat) (tx tx' : Transaction) :
  message_binding n →
  (length (signable_bytes tx) ≤ n)%nat → (length (signable_bytes tx') ≤ n)%nat →
  is_coinbase tx = false → is_evm tx = false → is_coinbase tx' = false → is_evm tx' = false →
  tx_sender_public_key tx' = tx_sender_public_key tx → tx_signature tx' = tx_signature tx →
  verify_signature tx = true → signable_bytes tx' ≠ signable_bytes tx →
  verify_signature tx' = false.
Proof.
  intros Hb Hn Hn' Hc He Hc' He' Hpk Hsig Hv Hne.
  destruct (verify_signature tx') eqn:Hv'; [|done]. exfalso. apply Hne.
  apply (verify_signature_native tx Hc He) in Hv as (_&sig&Hs&Hd).
  apply (verify_signature_native tx' Hc' He') in Hv' as (_&sig'&Hs'&Hd').
  rewrite Hpk in Hd'. rewrite Hsig in Hs'. simplify_eq. by eapply Hb.
Qed.

Lemma tampered_payload_rejected_witness :
  let tx := @transaction_new demo_sha3 "c" (public_key (demo_keypair 7)) (replicate 20 x01) 5 3 0 0 in
  let sig := mkSignature (demo_signature (demo_seed 7) (@signable_bytes demo_bincode_tx tx)) in
  let bad := @transaction_new demo_sha3 "c" (public_key (demo_keypair 7)) (replicate 20 x02) 5 3 0 0 in
  @verify_signature demo_sha3 demo_mldsa demo_evm demo_bincode_tx (set_signature bad (Some sig)) = false.
Proof.
  intros tx sig bad.
  apply (@tampered_payload_rejected demo_sha3 demo_mldsa demo_evm demo_bincode_tx 4000
    (set_signature tx (Some sig))); [apply demo_message_binding|vm_decide..].
Defined.

(** An EVM transaction's payload is not bound to its signed raw
    transaction: once some EVM transaction verifies, every EVM transaction with
    the same sender and raw bytes verifies, whatever its recipient, amount,
    fees, nonce, gas limit and data. *)
Theorem evm_payload_not_bound `{Sha3} `{MlDsa} `{EvmEngine} `{!Bincode SignableTransaction}
    (tx tx' : Transaction) :
  is_evm tx = true → verify_signature tx = true →
  is_evm tx' = true → tx_from tx' = tx_from tx → tx_evm_raw_tx tx' = tx_evm_raw_tx tx →
  verify_signature tx' = true.
Proof.
  intros He Hv He' Hf Hr. unfold verify_signature in *. rewrite He in Hv. rewrite He', Hf, Hr.
  assert (∀ t, is_evm t = true → is_coinbase t = false) as Hnc.
  { intros t. unfold is_evm, is_coinbase. destruct (tx_kind t); done. }
  rewrite Hnc in Hv |- * by done. done.
Qed.

Lemma evm_payload_not_bound_witness :
  let victim := replicate 20 x07 in
  let raw := victim in
  let forged := from_evm_raw "c" CallEvmContract victim (replicate 20 x66) 1000000 9 50000 1 1 [] raw 0 in
  @verify_signature demo_sha3 demo_mldsa demo_evm demo_bincode_tx forged = true.
Proof.
  intros victim raw forged.
  apply (@evm_payload_not_bound demo_sha3 demo_mldsa demo_evm demo_bincode_tx
    (from_evm_raw "c" CallEvmContract victim (replicate 20 x01) 1 0 50000 1 1 [] raw 0));
    reflexivity.
Defined.
