(* ===== verification/Token.v ===== *)
(** * CUR-20 token registry ([src/token/mod.rs])

    The registry's three hash maps, its operations, the supply invariant and
    its preservation along every sequence of operations. *)
From S2P Require Import Prelude Hash.

Record CUR20Token := mkToken {
  contract_address : bytes;
  name : string;
  symbol : string;
  decimals : Z;
  total_supply : Z;
  creator : bytes;
  created_at_height : Z;
}.

#[global] Instance CUR20Token_eq_dec : EqDecision CUR20Token.
Proof. solve_decision. Defined.

Record DeployTokenParams := mkDeployTokenParams {
  dp_name : string;
  dp_symbol : string;
  dp_decimals : Z;
  dp_total_supply : Z;
}.

Record TokenTransferParams := mkTokenTransferParams {
  tp_token_address : bytes;
  tp_recipient : bytes;
  tp_amount : Z;
}.

Record TokenApproveParams := mkTokenApproveParams {
  ap_token_address : bytes;
  ap_spender : bytes;
  ap_amount : Z;
}.

Record TokenTransferFromParams := mkTokenTransferFromParams {
  tf_token_address : bytes;
  tf_from : bytes;
  tf_recipient : bytes;
  tf_amount : Z;
}.

Inductive TokenError :=
  | TokenNotFound
  | InvalidName
  | InvalidSymbol
  | InvalidDecimals
  | InvalidSupply
  | AlreadyExists
  | InsufficientBalance
  | InsufficientAllowance
  | SelfTransfer
  | ZeroAmount.

Record TokenRegistry := mkRegistry {
  tokens : gmap bytes CUR20Token;
  balances : gmap (bytes * bytes) Z;
  allowances : gmap (bytes * bytes * bytes) Z;
}.

#[global] Instance TokenRegistry_eq_dec : EqDecision TokenRegistry.
Proof. solve_decision. Defined.

Definition registry_new : TokenRegistry := mkRegistry ∅ ∅ ∅.

Definition balance_of (r : TokenRegistry) (token_address owner : bytes) : Z :=
  default 0 (balances r !! (token_address, owner)).

Definition allowance (r : TokenRegistry) (token_address owner spender : bytes) : Z :=
  default 0 (allowances r !! (token_address, owner, spender)).

Section token.
Context `{Sha3}.

(** [SHA-3(deployer || nonce || "cur20")], truncated to an address. *)
Definition token_address_of (deployer : bytes) (nonce : Z) : bytes :=
  address_bytes_from_data (deployer ++ to_le_bytes 8 nonce ++ bstr "cur20").

(** The operations take [&mut self] and check every error before the first
    write, so an [Err] leaves the registry as it was; an [Ok] carries the new
    registry. *)
Definition deploy_token (r : TokenRegistry) (deployer : bytes) (nonce : Z)
    (params : DeployTokenParams) (height : Z) : result TokenError (bytes * TokenRegistry) :=
  if bool_decide (dp_name params = ""%string) ||
     (64 <? Z.of_nat (String.length (dp_name params))) then Err InvalidName else
  if bool_decide (dp_symbol params = ""%string) ||
     (12 <? Z.of_nat (String.length (dp_symbol params))) then Err InvalidSymbol else
  if 18 <? dp_decimals params then Err InvalidDecimals else
  if dp_total_supply params =? 0 then Err InvalidSupply else
  let address := token_address_of deployer nonce in
  if bool_decide (is_Some (tokens r !! address)) then Err AlreadyExists else
  let token := mkToken address (dp_name params) (dp_symbol params) (dp_decimals params)
                 (dp_total_supply params) deployer height in
  Ok (address,
      mkRegistry (<[address := token]> (tokens r))
        (<[(address, deployer) := dp_total_supply params]> (balances r)) (allowances r)).
End token.

Definition transfer (r : TokenRegistry) (token_address from to : bytes) (amount : Z)
    : result TokenError TokenRegistry :=
  if bool_decide (tokens r !! token_address = None) then Err TokenNotFound else
  if bool_decide (from = to) then Err SelfTransfer else
  if amount =? 0 then Err ZeroAmount else
  let from_key := (token_address, from) in
  let from_balance := default 0 (balances r !! from_key) in
  if from_balance <? amount then Err InsufficientBalance else
  let balances1 := <[from_key := sub64 from_balance amount]> (balances r) in
  let to_key := (token_address, to) in
  let to_balance := default 0 (balances1 !! to_key) in
  Ok (mkRegistry (tokens r) (<[to_key := add64 to_balance amount]> balances1) (allowances r)).

Definition approve (r : TokenRegistry) (token_address owner spender : bytes) (amount : Z)
    : result TokenError TokenRegistry :=
  if bool_decide (tokens r !! token_address = None) then Err TokenNotFound else
  Ok (mkRegistry (tokens r) (balances r)
        (<[(token_address, owner, spender) := amount]> (allowances r))).

Definition transfer_from (r : TokenRegistry) (token_address spender from to : bytes)
    (amount : Z) : result TokenError TokenRegistry :=
  if bool_decide (tokens r !! token_address = None) then Err TokenNotFound else
  if amount =? 0 then Err ZeroAmount else
  let allowance_key := (token_address, from, spender) in
  let allowed := default 0 (allowances r !! allowance_key) in
  if allowed <? amount then Err InsufficientAllowance else
  let from_key := (token_address, from) in
  let from_balance := default 0 (balances r !! from_key) in
  if from_balance <? amount then Err InsufficientBalance else
  let balances1 := <[from_key := sub64 from_balance amount]> (balances r) in
  let to_key := (token_address, to) in
  let to_balance := default 0 (balances1 !! to_key) in
  Ok (mkRegistry (tokens r) (<[to_key := add64 to_balance amount]> balances1)
        (<[allowance_key := sub64 allowed amount]> (allowances r))).

(** ** The supply invariant *)

(** Sum of all balances of one token. *)
Definition supply_of (m : gmap (bytes * bytes) Z) (t : bytes) : Z :=
  map_sum (λ k v, if bool_decide (k.1 = t) then v else 0) m.

Record registry_wf (r : TokenRegistry) : Prop := {
  wf_balances k v : balances r !! k = Some v → is_u64 v ∧ is_Some (tokens r !! k.1);
  wf_allowances k v : allowances r !! k = Some v → is_u64 v;
  wf_supply t tok : tokens r !! t = Some tok →
    is_u64 (total_supply tok) ∧ supply_of (balances r) t = total_supply tok;
}.

(** The balance movement shared by [transfer] and [transfer_from]. *)
Definition move_balance (m : gmap (bytes * bytes) Z) (t from to : bytes) (amount : Z)
    : gmap (bytes * bytes) Z :=
  let m1 := <[(t, from) := sub64 (default 0 (m !! (t, from))) amount]> m in
  <[(t, to) := add64 (default 0 (m1 !! (t, to))) amount]> m1.

Section lemmas.
Implicit Types (m : gmap (bytes * bytes) Z) (t : bytes).

Lemma supply_of_insert m t k v :
  supply_of (<[k:=v]> m) t =
    supply_of m t + (if bool_decide (k.1 = t) then v - default 0 (m !! k) else 0).
Proof.
  unfold supply_of. rewrite map_sum_insert.
  destruct (m !! k) as [w|]; simpl; case_bool_decide; lia.
Qed.

Lemma supply_of_le m t o :
  (∀ k v, m !! k = Some v → is_u64 v) → default 0 (m !! (t, o)) ≤ supply_of m t.
Proof.
  intros Hm. assert (∀ k v, m !! k = Some v → 0 ≤ (if bool_decide (k.1 = t) then v else 0)) as Hp.
  { intros k v Hk%Hm. case_bool_decide; u64_lia. }
  destruct (m !! (t, o)) as [v|] eqn:E; simpl; [|by apply map_sum_nonneg].
  pose proof (map_sum_lookup_le _ m (t, o) v Hp E) as Hle. simpl in Hle.
  by rewrite bool_decide_eq_true_2 in Hle.
Qed.

(** With the sender's balance sufficient and the supply within [u64], moving
    tokens never wraps. *)
Lemma move_balance_exact m t from to amount o :
  (∀ k v, m !! k = Some v → is_u64 v) → supply_of m t ≤ u64_max →
  0 ≤ amount ≤ default 0 (m !! (t, from)) →
  let bal o := default 0 (m !! (t, o)) in
  default 0 (move_balance m t from to amount !! (t, o)) =
    if bool_decide (from = to) then bal o
    else if bool_decide (o = from) then bal o - amount
    else if bool_decide (o = to) then bal o + amount else bal o.
Proof.
  intros Hm Hs Ha bal. unfold move_balance.
  assert (∀ x, is_u64 (default 0 (m !! (t, x)))) as Hu.
  { intros x. destruct (m !! (t, x)) eqn:E; simpl; [by eapply Hm|u64_lia]. }
  pose proof (Hu from) as Hf. rewrite (sub64_exact _ _ Hf) by lia.
  set (m1 := <[(t, from):=_]> m).
  assert (∀ k v, m1 !! k = Some v → is_u64 v) as Hm1.
  { intros k v. unfold m1. rewrite lookup_insert. case_decide; [|by apply Hm].
    intros [= <-]. u64_lia. }
  assert (supply_of m1 t = supply_of m t - amount) as Hs1.
  { unfold m1. rewrite supply_of_insert, bool_decide_eq_true_2 by done. lia. }
  pose proof (supply_of_le m1 t to Hm1). 
  assert (is_u64 (default 0 (m1 !! (t, to)))).
  { destruct (m1 !! (t, to)) eqn:E; simpl; [by eapply Hm1|u64_lia]. }
  rewrite add64_exact by (unfold is_u64 in *; lia).
  unfold m1, bal. rewrite !lookup_insert.
  destruct (decide (to = o)) as [<-|Ho]; [destruct (decide (from = to)) as [<-|Hft]|].
  - rewrite !(decide_True (P:=(_, _) = _)), bool_decide_eq_true_2 by done. simpl. lia.
  - rewrite decide_True, decide_False by congruence.
    rewrite !bool_decide_eq_false_2, bool_decide_eq_true_2 by congruence. simpl. lia.
  - rewrite decide_False by congruence. destruct (decide (from = o)) as [<-|].
    + rewrite decide_True, (bool_decide_eq_true_2 (from = from)), bool_decide_eq_false_2 by congruence.
      done.
    + rewrite decide_False by congruence. repeat case_bool_decide; congruence.
Qed.

Lemma move_balance_supply m t from to amount t' :
  (∀ k v, m !! k = Some v → is_u64 v) → supply_of m t ≤ u64_max →
  0 ≤ amount ≤ default 0 (m !! (t, from)) →
  supply_of (move_balance m t from to amount) t' = supply_of m t'.
Proof.
  intros Hm Hs Ha. pose proof (move_balance_exact m t from to amount to Hm Hs Ha) as Hto.
  pose proof (Hm (t, from)) as Hf. cbv zeta in Hto. unfold move_balance in *.
  rewrite lookup_insert_eq in Hto. simpl in Hto. rewrite !supply_of_insert. cbn [fst].
  rewrite Hto. rewrite sub64_exact.
  2:{ destruct (m !! (t, from)); simpl; [by apply Hf|u64_lia]. }
  2: lia.
  destruct (bool_decide (t = t')); [|lia].
  case_bool_decide as Heq.
  - subst. rewrite lookup_insert_eq. simpl. lia.
  - rewrite lookup_insert_ne by congruence. rewrite (bool_decide_eq_false_2 (to = from)) by done.
    rewrite bool_decide_eq_true_2 by done. lia.
Qed.

Lemma move_balance_u64 m t from to amount k v :
  (∀ k v, m !! k = Some v → is_u64 v) →
  move_balance m t from to amount !! k = Some v → is_u64 v.
Proof.
  intros Hm. unfold move_balance. rewrite lookup_insert. case_decide.
  { intros [= <-]. apply add64_range. }
  rewrite lookup_insert. case_decide; [|by apply Hm]. intros [= <-]. apply sub64_range.
Qed.

Lemma move_balance_dom m t from to amount k v :
  move_balance m t from to amount !! k = Some v → is_Some (m !! k) ∨ k.1 = t.
Proof.
  unfold move_balance. rewrite !lookup_insert.
  repeat case_decide; simplify_eq/=; naive_solver.
Qed.
End lemmas.

(** The transfers are guarded balance movements. *)
Lemma transfer_ok r t from to amount r' :
  transfer r t from to amount = Ok r' ↔
    is_Some (tokens r !! t) ∧ from ≠ to ∧ amount ≠ 0 ∧ amount ≤ balance_of r t from ∧
    r' = mkRegistry (tokens r) (move_balance (balances r) t from to amount) (allowances r).
Proof.
  unfold transfer, balance_of, move_balance.
  destruct (tokens r !! t) as [tok|]; simpl; [|split; [done|by intros [[??] _]]].
  repeat case_test; bool_to_prop; split; intros; destruct_and?; simplify_eq; try done; try lia.
  all: split_and!; try done; lia.
Qed.

Lemma transfer_from_ok r t spender from to amount r' :
  transfer_from r t spender from to amount = Ok r' ↔
    is_Some (tokens r !! t) ∧ amount ≠ 0 ∧ amount ≤ allowance r t from spender ∧
    amount ≤ balance_of r t from ∧
    r' = mkRegistry (tokens r) (move_balance (balances r) t from to amount)
           (<[(t, from, spender) := sub64 (allowance r t from spender) amount]> (allowances r)).
Proof.
  unfold transfer_from, balance_of, allowance, move_balance.
  destruct (tokens r !! t) as [tok|]; simpl; [|split; [done|by intros [[??] _]]].
  repeat case_test; bool_to_prop; split; intros; destruct_and?; simplify_eq; try done; try lia.
  all: split_and!; try done; lia.
Qed.

(** Every operation of the registry, with [u64] arguments. *)
Inductive token_step `{Sha3} (r : TokenRegistry) : TokenRegistry → Prop :=
  | step_deploy deployer nonce params height address r' :
      is_u64 (dp_total_supply params) →
      deploy_token r deployer nonce params height = Ok (address, r') → token_step r r'
  | step_transfer t from to amount r' :
      is_u64 amount → transfer r t from to amount = Ok r' → token_step r r'
  | step_approve t o s amount r' :
      is_u64 amount → approve r t o s amount = Ok r' → token_step r r'
  | step_transfer_from t s from to amount r' :
      is_u64 amount → transfer_from r t s from to amount = Ok r' → token_step r r'.

Lemma registry_wf_u64 r : registry_wf r → ∀ k v, balances r !! k = Some v → is_u64 v.
Proof. intros Hwf k v Hk. by apply (wf_balances _ Hwf) in Hk as [? _]. Qed.

Lemma registry_wf_supply_le r t : registry_wf r → is_Some (tokens r !! t) →
  supply_of (balances r) t ≤ u64_max.
Proof. intros Hwf [tok Ht]. destruct (wf_supply _ Hwf t tok Ht) as [? ->]. u64_lia. Qed.

Lemma registry_new_wf : registry_wf registry_new.
Proof. split; simpl; intros *; by rewrite lookup_empty. Qed.

Lemma move_balance_wf r t from to amount alw :
  registry_wf r → is_Some (tokens r !! t) → 0 ≤ amount ≤ balance_of r t from →
  (∀ k v, alw !! k = Some v → is_u64 v) →
  registry_wf (mkRegistry (tokens r) (move_balance (balances r) t from to amount) alw).
Proof.
  intros Hwf Ht Ha Halw. pose proof (registry_wf_u64 _ Hwf) as Hu.
  pose proof (registry_wf_supply_le _ _ Hwf Ht). split; simpl.
  - intros k v Hk. split; [by eapply move_balance_u64|].
    apply move_balance_dom in Hk as [[w Hw]| ->]; [|done]. by apply (wf_balances _ Hwf) in Hw as [_ ?].
  - done.
  - intros t' tok Ht'. rewrite move_balance_supply by done. by apply (wf_supply _ Hwf).
Qed.

Lemma deploy_token_wf `{Sha3} r deployer nonce params height address r' :
  registry_wf r → is_u64 (dp_total_supply params) →
  deploy_token r deployer nonce params height = Ok (address, r') → registry_wf r'.
Proof.
  intros Hwf Hsup. unfold deploy_token. repeat case_test; try done.
  intros [= <- <-]. bool_to_prop. set (a := token_address_of deployer nonce) in *.
  assert (∀ o, balances r !! (a, o) = None) as Hnone.
  { intros o. destruct (balances r !! (a, o)) eqn:E; [|done].
    apply (wf_balances _ Hwf) in E as [_ ?]. done. }
  split; simpl.
  - intros k v. rewrite lookup_insert. case_decide as Hk.
    { intros [= <-]. subst k. simpl. by rewrite lookup_insert_eq. }
    intros [? [tok Htok]]%(wf_balances _ Hwf). split; [done|].
    destruct (decide (a = k.1)) as [->|]; [by rewrite lookup_insert_eq|].
    by rewrite lookup_insert_ne, Htok.
  - apply (wf_allowances _ Hwf).
  - intros t tok. rewrite supply_of_insert, Hnone. cbn [fst]. rewrite lookup_insert. case_decide as Ht.
    + intros [= <-]. subst t. simpl. rewrite bool_decide_eq_true_2 by done. split; [done|].
      assert (supply_of (balances r) a = 0); [|lia].
      apply map_sum_zero. intros [t o] v Hk. simpl. case_bool_decide; [|done]. subst.
      by rewrite Hnone in Hk.
    + rewrite bool_decide_eq_false_2 by congruence. rewrite Z.add_0_r. apply (wf_supply _ Hwf).
Qed.

Lemma token_step_wf `{Sha3} r r' : registry_wf r → token_step r r' → registry_wf r'.
Proof.
  intros Hwf [].
  - by eapply deploy_token_wf.
  - apply transfer_ok in H1 as (?&?&?&?&->). apply move_balance_wf;
      [done..|u64_lia|apply (wf_allowances _ Hwf)].
  - unfold approve in H1. case_test; simplify_eq. split; simpl; [apply (wf_balances _ Hwf)| |
      apply (wf_supply _ Hwf)].
    intros k v. rewrite lookup_insert. case_decide; [by intros [= <-]|apply (wf_allowances _ Hwf)].
  - apply transfer_from_ok in H1 as (?&?&?&?&->). apply move_balance_wf;
      [done..|u64_lia|].
    intros k v. rewrite lookup_insert. case_decide; [|apply (wf_allowances _ Hwf)].
    intros [= <-]. apply sub64_range.
Qed.

(** ** Properties *)

(** C33: token supply is conserved. In every registry reachable from the empty
    one by deployments, transfers, approvals and delegated transfers, all
    balances fit in [u64] and, for every deployed token, the balances add up to
    exactly its total supply. *)
Theorem token_supply_conserved `{Sha3} (r : TokenRegistry) :
  rtc token_step registry_new r → registry_wf r.
Proof.
  intros Hr. cut (∀ r0, registry_wf r0 → rtc token_step r0 r → registry_wf r).
  { intros Hc. apply (Hc registry_new); [apply registry_new_wf|done]. }
  clear Hr. intros r0 Hwf Hr. induction Hr; eauto using token_step_wf.
Qed.

(** A registry with one token of supply 1000, of which bob holds 400, carol
    being allowed to spend 300 of them. *)
Definition demo_token : bytes := @token_address_of demo_sha3 (bstr "alice") 0.
Definition demo_deploy_params : DeployTokenParams := mkDeployTokenParams "T" "T" 6 1000.

Definition demo_deployed : TokenRegistry :=
  (unwrap_or ([], registry_new)
     (@deploy_token demo_sha3 registry_new (bstr "alice") 0 demo_deploy_params 1)).2.
Definition demo_transferred : TokenRegistry :=
  unwrap_or registry_new (transfer demo_deployed demo_token (bstr "alice") (bstr "bob") 400).
Definition demo_approved : TokenRegistry :=
  unwrap_or registry_new (approve demo_transferred demo_token (bstr "bob") (bstr "carol") 300).

Lemma demo_approved_reachable : rtc (@token_step demo_sha3) registry_new demo_approved.
Proof.
  apply rtc_l with demo_deployed.
  { eapply (@step_deploy demo_sha3 _ (bstr "alice") 0 demo_deploy_params 1); [simpl; u64_lia|].
    unfold demo_deployed. rewrite <- surjective_pairing. apply is_ok_unwrap. vm_compute. reflexivity. }
  apply rtc_l with demo_transferred.
  { apply (@step_transfer demo_sha3 _ demo_token (bstr "alice") (bstr "bob") 400); [u64_lia|].
    apply is_ok_unwrap. vm_compute. reflexivity. }
  apply rtc_once.
  apply (@step_approve demo_sha3 _ demo_token (bstr "bob") (bstr "carol") 300); [u64_lia|].
  apply is_ok_unwrap. vm_compute. reflexivity.
Qed.

Lemma demo_approved_wf : registry_wf demo_approved.
Proof.
  pose proof demo_approved_reachable as Hr.
  assert (∀ r0 r, rtc (@token_step demo_sha3) r0 r → registry_wf r0 → registry_wf r) as Hc.
  { induction 1; eauto using token_step_wf. }
  apply (Hc _ _ Hr), registry_new_wf.
Qed.

Lemma token_supply_conserved_witness : supply_of (balances demo_approved) demo_token = 1000.
Proof.
  destruct (@token_supply_conserved demo_sha3 demo_approved demo_approved_reachable) as [_ _ Hs].
  assert (total_supply <$> tokens demo_approved !! demo_token = Some 1000) as Ht
    by (vm_compute; reflexivity).
  destruct (tokens demo_approved !! demo_token) as [tok|] eqn:E; [|done].
  rewrite (proj2 (Hs _ _ E)). apply (inj Some), Ht.
Defined.

(** What a token transfer does. A successful [transfer] debits the sender
    and credits the recipient by exactly the amount, touches no other balance,
    no allowance and no token; a failed one names the first violated condition
    in the order the code checks them. *)
Theorem transfer_spec (r : TokenRegistry) (t from to : bytes) (amount : Z) :
  registry_wf r → is_u64 amount →
  match transfer r t from to amount with
  | Ok r' =>
      from ≠ to ∧ 0 < amount ≤ balance_of r t from ∧
      tokens r' = tokens r ∧ allowances r' = allowances r ∧
      balance_of r' t from = balance_of r t from - amount ∧
      balance_of r' t to = balance_of r t to + amount ∧
      ∀ t' o, (t', o) ≠ (t, from) → (t', o) ≠ (t, to) → balance_of r' t' o = balance_of r t' o
  | Err TokenNotFound => tokens r !! t = None
  | Err SelfTransfer => is_Some (tokens r !! t) ∧ from = to
  | Err ZeroAmount => is_Some (tokens r !! t) ∧ from ≠ to ∧ amount = 0
  | Err InsufficientBalance =>
      is_Some (tokens r !! t) ∧ from ≠ to ∧ 0 < amount ∧ balance_of r t from < amount
  | Err _ => False
  end.
Proof.
  intros Hwf Ha. destruct (transfer r t from to amount) as [r'|e] eqn:E.
  - apply transfer_ok in E as (Ht&Hne&Hnz&Hle&->).
    pose proof (registry_wf_u64 _ Hwf) as Hu. pose proof (registry_wf_supply_le _ _ Hwf Ht) as Hs.
    assert (0 < amount ≤ balance_of r t from) as Hamt by u64_lia.
    pose proof (λ o, move_balance_exact _ t from to amount o Hu Hs ltac:(unfold balance_of in *; lia)) as Hm.
    cbv zeta in Hm. unfold balance_of in *. cbn [balances tokens allowances].
    split_and!; try done; try lia.
    + rewrite Hm. by repeat case_bool_decide.
    + rewrite Hm. by repeat case_bool_decide.
    + intros t' o H1 H2. unfold move_balance. by rewrite !lookup_insert_ne.
  - unfold transfer, balance_of in *. repeat case_test; bool_to_prop; try done.
    all: rewrite <- ?not_eq_None_Some; split_and!; try done; u64_lia.
Qed.

Lemma transfer_spec_witness :
  let r' := unwrap_or registry_new (transfer demo_approved demo_token (bstr "bob") (bstr "carol") 150) in
  balance_of r' demo_token (bstr "bob") = balance_of demo_approved demo_token (bstr "bob") - 150 ∧
  balance_of r' demo_token (bstr "bob") = 250.
Proof.
  intros r'. pose proof (transfer_spec demo_approved demo_token (bstr "bob") (bstr "carol") 150
    demo_approved_wf ltac:(u64_lia)) as Hs.
  rewrite (is_ok_unwrap (transfer _ _ _ _ _) registry_new) in Hs by (vm_compute; reflexivity).
  destruct Hs as (_&_&_&_&Hb&_). split; [exact Hb|]. vm_compute. reflexivity.
Defined.

(** Delegated transfers stay within the allowance. A successful
    [transfer_from] needs an allowance and a balance of at least the amount,
    lowers that allowance by exactly the amount and moves exactly the amount
    (nothing when owner and recipient coincide). *)
Theorem transfer_from_spec (r r' : TokenRegistry) (t spender from to : bytes) (amount : Z) :
  registry_wf r → is_u64 amount → transfer_from r t spender from to amount = Ok r' →
  0 < amount ≤ allowance r t from spender ∧ amount ≤ balance_of r t from ∧
  allowance r' t from spender = allowance r t from spender - amount ∧
  (∀ t' o s, (t', o, s) ≠ (t, from, spender) → allowance r' t' o s = allowance r t' o s) ∧
  (∀ o, balance_of r' t o =
     if bool_decide (from = to) then balance_of r t o
     else if bool_decide (o = from) then balance_of r t o - amount
     else if bool_decide (o = to) then balance_of r t o + amount else balance_of r t o).
Proof.
  intros Hwf Ha Hok. apply transfer_from_ok in Hok as (Ht&Hnz&Hal&Hle&->).
  pose proof (registry_wf_u64 _ Hwf) as Hu. pose proof (registry_wf_supply_le _ _ Hwf Ht) as Hs.
  assert (0 < amount) by u64_lia. split_and!; try lia.
  - unfold allowance in *. cbn [allowances]. rewrite lookup_insert_eq. simpl.
    apply sub64_exact; [|lia].
    destruct (allowances r !! _) eqn:E; simpl; [by eapply (wf_allowances _ Hwf)|u64_lia].
  - intros t' o s Hne. unfold allowance. cbn [allowances]. by rewrite lookup_insert_ne.
  - intros o. unfold balance_of in *. cbn [balances]. apply move_balance_exact; [done..|lia].
Qed.

Lemma transfer_from_spec_witness :
  let r' := unwrap_or registry_new
    (transfer_from demo_approved demo_token (bstr "carol") (bstr "bob") (bstr "dave") 100) in
  allowance r' demo_token (bstr "bob") (bstr "carol") =
    allowance demo_approved demo_token (bstr "bob") (bstr "carol") - 100.
Proof.
  intros r'. assert (transfer_from demo_approved demo_token (bstr "carol") (bstr "bob")
    (bstr "dave") 100 = Ok r') as Hok by (apply is_ok_unwrap; vm_compute; reflexivity).
  assert (is_u64 100) as Hu by u64_lia.
  destruct (transfer_from_spec demo_approved r' demo_token (bstr "carol") (bstr "bob")
    (bstr "dave") 100 demo_approved_wf Hu Hok) as (_&_&Hal&_). exact Hal.
Defined.
