(* ===== verification/Governance.v ===== *)
(** * On-chain governance ([src/governance/mod.rs])

    Proposals, stake-weighted voting against a snapshot, and the per-block
    processing that decides and executes proposals. [process_block] iterates
    over a [HashMap]; the model takes the iteration order as an argument, and
    the results are compared up to [gov_equiv], which ignores it. A division by
    zero is a panic, modelled by [None]. *)
From S2P Require Import Prelude Hash Crypto.

Definition VOTING_PERIOD_EPOCHS : Z := 2.
Definition QUORUM_PERCENT : Z := 50.
Definition APPROVAL_PERCENT : Z := 67.
Definition MIN_EXECUTION_DELAY_BLOCKS : Z := 32.

Inductive ProposalKind :=
  | ProtocolUpgrade (version : Z) (description : string)
  | ParameterChange (parameter : string) (new_value : Z).

Inductive ProposalStatus := Active | Passed | Rejected | Executed | Expired.

#[global] Instance ProposalStatus_eq_dec : EqDecision ProposalStatus.
Proof. solve_decision. Defined.

Inductive VoteChoice := For | Against.

Record Proposal := mkProposal {
  pr_id : bytes;
  pr_proposer : bytes;
  pr_kind : ProposalKind;
  pr_status : ProposalStatus;
  pr_created_at_height : Z;
  pr_voting_deadline_height : Z;
  pr_execution_height : option Z;
  pr_votes_for : Z;
  pr_votes_against : Z;
  pr_voters : gset bytes;
  pr_stake_snapshot : gmap bytes Z;
}.

(** [SubmitProposalParams] and [GovernanceVoteParams]. *)
Record SubmitProposalParams := mkSubmitProposalParams { sp_kind : ProposalKind }.
Record GovernanceVoteParams := mkGovernanceVoteParams {
  gv_proposal_id : bytes;
  gv_vote : VoteChoice;
}.

Record GovernanceState := mkGovernance {
  proposals : gmap bytes Proposal;
  executed_upgrades : list bytes;
}.

#[global] Instance ProposalKind_eq_dec : EqDecision ProposalKind.
Proof. solve_decision. Defined.
#[global] Instance Proposal_eq_dec : EqDecision Proposal.
Proof. solve_decision. Defined.
#[global] Instance GovernanceState_eq_dec : EqDecision GovernanceState.
Proof. solve_decision. Defined.

Definition governance_new : GovernanceState := mkGovernance ∅ [].

Inductive GovernanceError :=
  | ProposalNotFound
  | ProposalNotActive
  | AlreadyVoted
  | InvalidParams
  | VotingEnded
  | UnknownParameter (parameter : string).

(** Field assignments used by the operations. *)
Definition with_status (p : Proposal) (s : ProposalStatus) (exec : option Z) : Proposal :=
  mkProposal (pr_id p) (pr_proposer p) (pr_kind p) s (pr_created_at_height p)
    (pr_voting_deadline_height p) exec (pr_votes_for p) (pr_votes_against p)
    (pr_voters p) (pr_stake_snapshot p).

Definition with_votes (p : Proposal) (votes_for votes_against : Z) (voters : gset bytes)
    : Proposal :=
  mkProposal (pr_id p) (pr_proposer p) (pr_kind p) (pr_status p) (pr_created_at_height p)
    (pr_voting_deadline_height p) (pr_execution_height p) votes_for votes_against
    voters (pr_stake_snapshot p).

Definition valid_params : list string :=
  ["block_gas_limit"; "minimum_stake"; "block_reward"; "epoch_length";
   "unstake_delay_blocks"; "jail_duration_blocks"]%string.

(** The [match &params.kind] of [submit_proposal]. *)
Definition validate_kind (kind : ProposalKind) : result GovernanceError () :=
  match kind with
  | ProtocolUpgrade version _ => if version =? 0 then Err InvalidParams else Ok ()
  | ParameterChange parameter _ =>
      if bool_decide (parameter ∈ valid_params) then Ok ()
      else Err (UnknownParameter parameter)
  end.

Section governance.
Context `{Sha3} `{!Bincode ProposalKind}.

Definition proposal_id_of (proposer : bytes) (current_height : Z) (kind : ProposalKind) : bytes :=
  sha3_hash (proposer ++ to_le_bytes 8 current_height ++ bincode_serialize kind).

Definition submit_proposal (gs : GovernanceState) (proposer : bytes)
    (params : SubmitProposalParams) (current_height epoch_length : Z)
    (stake_snapshot : gmap bytes Z) : result GovernanceError (bytes * GovernanceState) :=
  _ ← validate_kind (sp_kind params);
  let id := proposal_id_of proposer current_height (sp_kind params) in
  let voting_deadline := add64 current_height (mul64 VOTING_PERIOD_EPOCHS epoch_length) in
  let proposal := mkProposal id proposer (sp_kind params) Active current_height
                    voting_deadline None 0 0 ∅ stake_snapshot in
  Ok (id, mkGovernance (<[id := proposal]> (proposals gs)) (executed_upgrades gs)).
End governance.

(** The mutation of one proposal by [vote]. *)
Definition vote_proposal (p : Proposal) (voter : bytes) (choice : VoteChoice)
    (current_height : Z) : result GovernanceError Proposal :=
  if negb (bool_decide (pr_status p = Active)) then Err ProposalNotActive else
  if pr_voting_deadline_height p <? current_height then Err VotingEnded else
  if bool_decide (voter ∈ pr_voters p) then Err AlreadyVoted else
  let snapshotted_stake := default 0 (pr_stake_snapshot p !! voter) in
  if snapshotted_stake =? 0 then Err ProposalNotActive else
  let voters := {[voter]} ∪ pr_voters p in
  Ok (match choice with
      | For => with_votes p (add64 (pr_votes_for p) snapshotted_stake) (pr_votes_against p) voters
      | Against => with_votes p (pr_votes_for p) (add64 (pr_votes_against p) snapshotted_stake) voters
      end).

Definition vote (gs : GovernanceState) (voter proposal_id : bytes) (choice : VoteChoice)
    (_voter_stake_current current_height : Z) : result GovernanceError GovernanceState :=
  p ← ok_or ProposalNotFound (proposals gs !! proposal_id);
  p' ← vote_proposal p voter choice current_height;
  Ok (mkGovernance (<[proposal_id := p']> (proposals gs)) (executed_upgrades gs)).

(** [quorum_met] and [approved]: percentages in wrapping [u64] arithmetic. *)
Definition quorum_met (p : Proposal) (total_stake : Z) : bool :=
  let total_votes := add64 (pr_votes_for p) (pr_votes_against p) in
  (0 <? total_stake) && (mul64 total_stake QUORUM_PERCENT <=? mul64 total_votes 100).

Definition approved (p : Proposal) : bool :=
  let total_votes := add64 (pr_votes_for p) (pr_votes_against p) in
  (0 <? total_votes) && (mul64 total_votes APPROVAL_PERCENT <=? mul64 (pr_votes_for p) 100).

(** The body of [process_block]'s loop for one proposal: the new proposal and
    whether it is executed now. *)
Definition process_proposal (current_height total_stake epoch_length : Z) (p : Proposal)
    : option (Proposal * bool) :=
  match pr_status p with
  | Active =>
      if pr_voting_deadline_height p <? current_height then
        if quorum_met p total_stake && approved p then
          if epoch_length =? 0 then None else
          Some (with_status p Passed (Some
            (Z.max (saturating_add (pr_voting_deadline_height p) MIN_EXECUTION_DELAY_BLOCKS)
               (mul64 (add64 (pr_voting_deadline_height p / epoch_length) 1) epoch_length))), false)
        else Some (with_status p Rejected (pr_execution_height p), false)
      else Some (p, false)
  | Passed =>
      match pr_execution_height p with
      | Some exec_height =>
          if exec_height <=? current_height
          then Some (with_status p Executed (pr_execution_height p), true)
          else Some (p, false)
      | None => Some (p, false)
      end
  | _ => Some (p, false)
  end.

(** The loop over [self.proposals.values_mut()], in the order [order]. *)
Fixpoint process_loop (current_height total_stake epoch_length : Z) (order : list bytes)
    (gs : GovernanceState) (to_execute : list Proposal)
    : option (list Proposal * GovernanceState) :=
  match order with
  | [] => Some (to_execute, gs)
  | key :: order =>
      match proposals gs !! key with
      | None => process_loop current_height total_stake epoch_length order gs to_execute
      | Some p =>
          '(p', executed) ← process_proposal current_height total_stake epoch_length p;
          process_loop current_height total_stake epoch_length order
            (mkGovernance (<[key := p']> (proposals gs))
               (if executed : bool then executed_upgrades gs ++ [pr_id p'] else executed_upgrades gs))
            (if executed then to_execute ++ [p'] else to_execute)
      end
  end.

Definition process_block (order : list bytes) (gs : GovernanceState)
    (current_height total_stake epoch_length : Z) : option (list Proposal * GovernanceState) :=
  process_loop current_height total_stake epoch_length order gs [].

(** [order] enumerates the keys of the hash map once each. *)
Definition iteration_order (gs : GovernanceState) (order : list bytes) : Prop :=
  order ≡ₚ (map_to_list (proposals gs)).*1.

Lemma iteration_order_elem gs order id p :
  iteration_order gs order → proposals gs !! id = Some p → id ∈ order.
Proof.
  intros Ho Hp. rewrite Ho. apply list_elem_of_fmap. exists (id, p). split; [done|].
  by apply elem_of_map_to_list.
Qed.

Lemma iteration_order_split gs order id p :
  iteration_order gs order → proposals gs !! id = Some p → ∃ rest, order ≡ₚ id :: rest.
Proof.
  intros Ho Hp. destruct (list_elem_of_split order id) as (l1 & l2 & ->);
    [by eapply iteration_order_elem|].
  exists (l1 ++ l2). by rewrite Permutation_middle.
Qed.

(** ** Tally invariant *)

Definition voted_stake (p : Proposal) : Z := stake_of (pr_stake_snapshot p) (pr_voters p).
Definition snapshot_stake (p : Proposal) : Z := map_sum (λ _ v, v) (pr_stake_snapshot p).

Record proposal_wf (p : Proposal) : Prop := {
  pw_stakes k v : pr_stake_snapshot p !! k = Some v → 0 ≤ v;
  pw_total : snapshot_stake p ≤ u64_max;
  pw_votes : 0 ≤ pr_votes_for p ∧ 0 ≤ pr_votes_against p;
  pw_tally : pr_votes_for p + pr_votes_against p = voted_stake p;
  pw_voters : pr_voters p ⊆ dom (pr_stake_snapshot p);
  pw_exec : pr_status p = Passed ∨ pr_status p = Executed →
    ∃ e, pr_execution_height p = Some e ∧
      saturating_add (pr_voting_deadline_height p) MIN_EXECUTION_DELAY_BLOCKS ≤ e;
}.

Definition governance_wf (gs : GovernanceState) : Prop :=
  ∀ id p, proposals gs !! id = Some p → proposal_wf p.

Lemma proposal_tally_bound p : proposal_wf p →
  pr_votes_for p + pr_votes_against p ≤ u64_max.
Proof.
  intros Hwf. rewrite (pw_tally _ Hwf). pose proof (pw_total _ Hwf).
  pose proof (stake_of_le _ (pr_voters p) (pw_stakes _ Hwf)).
  unfold voted_stake, snapshot_stake in *. lia.
Qed.

(** What a successful vote does. *)
Lemma vote_proposal_ok p voter choice h p' :
  vote_proposal p voter choice h = Ok p' →
  let s := default 0 (pr_stake_snapshot p !! voter) in
  pr_status p = Active ∧ h ≤ pr_voting_deadline_height p ∧ (voter ∉ pr_voters p) ∧ s ≠ 0 ∧
  p' = match choice with
       | For => with_votes p (add64 (pr_votes_for p) s) (pr_votes_against p) ({[voter]} ∪ pr_voters p)
       | Against => with_votes p (pr_votes_for p) (add64 (pr_votes_against p) s) ({[voter]} ∪ pr_voters p)
       end.
Proof. unfold vote_proposal. repeat case_test; bool_to_prop; naive_solver. Qed.

Lemma vote_proposal_wf p voter choice h p' :
  proposal_wf p → vote_proposal p voter choice h = Ok p' → proposal_wf p'.
Proof.
  intros Hwf (Hact&_&Hnew&Hnz&->)%vote_proposal_ok.
  set (s := default 0 (pr_stake_snapshot p !! voter)) in *.
  assert (voter ∈ dom (pr_stake_snapshot p)) as Hd.
  { apply elem_of_dom. unfold s in *. by destruct (pr_stake_snapshot p !! voter). }
  assert (0 ≤ s) as Hs.
  { unfold s. destruct ((pr_stake_snapshot p) !! voter) eqn:E; simpl; [by eapply (pw_stakes _ Hwf)|lia]. }
  pose proof (pw_votes _ Hwf). pose proof (pw_tally _ Hwf) as Ht. pose proof (pw_total _ Hwf).
  pose proof (stake_of_le _ ({[voter]} ∪ pr_voters p) (pw_stakes _ Hwf)) as Hle.
  pose proof (stake_of_add (pr_stake_snapshot p) (pr_voters p) voter Hnew) as Hadd.
  pose proof (pw_voters _ Hwf). fold s in Hadd. unfold voted_stake, snapshot_stake in *.
  destruct choice; split; cbn [with_votes pr_stake_snapshot pr_votes_for pr_votes_against
    pr_voters pr_status pr_execution_height pr_voting_deadline_height voted_stake snapshot_stake];
    try (apply (pw_stakes _ Hwf)); try done; try (rewrite add64_exact by lia; lia);
    try set_solver; try (rewrite Hact; intros []; done).
  all: unfold voted_stake; cbn [with_votes pr_stake_snapshot pr_voters];
    rewrite add64_exact by lia; lia.
Qed.

Lemma process_proposal_wf h ts el p p' b :
  proposal_wf p → process_proposal h ts el p = Some (p', b) → proposal_wf p'.
Proof.
  intros Hwf. unfold process_proposal.
  assert (∀ s e, (s = Passed ∨ s = Executed → ∃ e', e = Some e' ∧
    saturating_add (pr_voting_deadline_height p) MIN_EXECUTION_DELAY_BLOCKS ≤ e') →
    proposal_wf (with_status p s e)) as Hst.
  { intros s e He. destruct Hwf. split; done. }
  destruct (pr_status p) eqn:Es; repeat case_test; intros [= <- <-]; try done.
  - apply Hst. intros _. eexists. split; [done|]. lia.
  - apply Hst. by intros [|].
  - apply Hst. intros _. rewrite <- Heqo. apply (pw_exec _ Hwf). by left.
Qed.

(** ** Independence of the iteration order *)

(** Equality of governance states up to the order of [executed_upgrades]. *)
Definition gov_equiv (g1 g2 : GovernanceState) : Prop :=
  proposals g1 = proposals g2 ∧ executed_upgrades g1 ≡ₚ executed_upgrades g2.

Definition outcome_equiv (o1 o2 : option (list Proposal * GovernanceState)) : Prop :=
  match o1, o2 with
  | Some (l1, g1), Some (l2, g2) => l1 ≡ₚ l2 ∧ gov_equiv g1 g2
  | None, None => True
  | _, _ => False
  end.

#[global] Instance gov_equiv_equivalence : Equivalence gov_equiv.
Proof.
  split.
  - done.
  - by intros x y [??].
  - intros x y z [? H1] [? H2]. split; [congruence|by rewrite H1].
Qed.

#[global] Instance outcome_equiv_equivalence : Equivalence outcome_equiv.
Proof.
  split.
  - intros [[l g]|]; done.
  - intros [[l1 g1]|] [[l2 g2]|]; simpl; try done. by intros [? ->].
  - intros [[l1 g1]|] [[l2 g2]|] [[l3 g3]|]; simpl; try done.
    intros [-> ->] [-> ->]. done.
Qed.

(** One step of the loop. *)
Definition process_key (h ts el : Z) (key : bytes) (gs : GovernanceState) (acc : list Proposal)
    : option (list Proposal * GovernanceState) :=
  match proposals gs !! key with
  | None => Some (acc, gs)
  | Some p =>
      '(p', executed) ← process_proposal h ts el p;
      Some (if executed : bool then acc ++ [p'] else acc,
            mkGovernance (<[key := p']> (proposals gs))
              (if executed then executed_upgrades gs ++ [pr_id p'] else executed_upgrades gs))
  end.

Lemma process_loop_cons h ts el key order gs acc :
  process_loop h ts el (key :: order) gs acc =
    '(acc', gs') ← process_key h ts el key gs acc; process_loop h ts el order gs' acc'.
Proof.
  unfold process_key. simpl. destruct (proposals gs !! key) as [p|]; simpl; [|done].
  by destruct (process_proposal h ts el p) as [[p' []]|]; simpl.
Qed.

Lemma process_key_proper h ts el key g1 g2 a1 a2 :
  gov_equiv g1 g2 → a1 ≡ₚ a2 →
  outcome_equiv (process_key h ts el key g1 a1) (process_key h ts el key g2 a2).
Proof.
  intros [Hp He] Ha. unfold process_key. rewrite Hp.
  destruct (proposals g2 !! key) as [p|]; simpl; [|done].
  destruct (process_proposal h ts el p) as [[p' []]|]; simpl; [|done..].
  split; [by rewrite Ha|split; simpl; [done|by rewrite He]].
Qed.

Lemma process_loop_proper h ts el order g1 g2 a1 a2 :
  gov_equiv g1 g2 → a1 ≡ₚ a2 →
  outcome_equiv (process_loop h ts el order g1 a1) (process_loop h ts el order g2 a2).
Proof.
  revert g1 g2 a1 a2. induction order as [|key order IH]; intros g1 g2 a1 a2 Hg Ha; [done|].
  rewrite !process_loop_cons. pose proof (process_key_proper h ts el key _ _ _ _ Hg Ha) as Hk.
  destruct (process_key h ts el key g1 a1) as [[l1 g1']|],
    (process_key h ts el key g2 a2) as [[l2 g2']|]; simpl in *; try done.
  destruct Hk. by apply IH.
Qed.

(** Distinct keys commute. *)
Lemma process_key_swap h ts el k1 k2 gs acc :
  outcome_equiv
    ('(a, g) ← process_key h ts el k1 gs acc; process_key h ts el k2 g a)
    ('(a, g) ← process_key h ts el k2 gs acc; process_key h ts el k1 g a).
Proof.
  destruct (decide (k1 = k2)) as [->|Hne]; [done|].
  unfold process_key. destruct (proposals gs !! k1) as [p1|] eqn:E1,
    (proposals gs !! k2) as [p2|] eqn:E2; simpl; rewrite ?E1, ?E2; simpl; try done.
  - destruct (process_proposal h ts el p1) as [[q1 b1]|] eqn:F1,
      (process_proposal h ts el p2) as [[q2 b2]|] eqn:F2; simpl;
      rewrite ?lookup_insert_ne, ?E1, ?E2 by done; simpl; rewrite ?F1, ?F2; simpl; try done.
    repeat split; simpl; [|by rewrite insert_insert_ne|];
      destruct b1, b2; rewrite <- ?(assoc_L app); try done; apply Permutation_app_head; constructor.
  - destruct (process_proposal h ts el p1) as [[q1 b1]|]; simpl; [|done].
    rewrite lookup_insert_ne, E2 by done. done.
  - destruct (process_proposal h ts el p2) as [[q2 b2]|]; simpl; [|done].
    rewrite lookup_insert_ne, E1 by done. done.
Qed.

Lemma process_loop_perm h ts el o1 o2 gs acc :
  o1 ≡ₚ o2 → outcome_equiv (process_loop h ts el o1 gs acc) (process_loop h ts el o2 gs acc).
Proof.
  intros Hp. revert gs acc. induction Hp as [|k o1 o2 _ IH|k1 k2 o|o1 o2 o3 _ IH1 _ IH2]; intros gs acc.
  - done.
  - rewrite !process_loop_cons. by destruct (process_key h ts el k gs acc) as [[??]|]; simpl.
  - assert (∀ a b, process_loop h ts el (a :: b :: o) gs acc =
      '(l, g) ← ('(l, g) ← process_key h ts el a gs acc; process_key h ts el b g l);
      process_loop h ts el o g l) as Hsplit.
    { intros a b. rewrite process_loop_cons.
      destruct (process_key h ts el a gs acc) as [[??]|]; [|done].
      cbn [mbind option_bind]. by rewrite process_loop_cons. }
    rewrite !Hsplit. pose proof (process_key_swap h ts el k2 k1 gs acc) as Hs.
    destruct (mbind _ (process_key h ts el k2 gs acc)) as [[l1 g1]|],
      (mbind _ (process_key h ts el k1 gs acc)) as [[l2 g2]|]; simpl in *; try done.
    destruct Hs. by apply process_loop_proper.
  - by rewrite IH1.
Qed.

Lemma process_loop_wf h ts el order gs acc l gs' :
  governance_wf gs → process_loop h ts el order gs acc = Some (l, gs') → governance_wf gs'.
Proof.
  revert gs acc. induction order as [|key order IH]; intros gs acc Hwf; simpl; [by intros [= _ <-]|].
  destruct (proposals gs !! key) as [p|] eqn:E; [|by apply IH].
  destruct (process_proposal h ts el p) as [[p' b]|] eqn:F; simpl; [|done].
  apply IH. intros id q. simpl. rewrite lookup_insert. case_decide; [|by apply Hwf].
  intros [= <-]. by eapply process_proposal_wf, F; eapply Hwf.
Qed.

(** Without repetition in the order, every listed proposal is processed once
    and the others are left alone. *)
Lemma process_loop_lookup h ts el order gs acc l gs' id :
  NoDup order → process_loop h ts el order gs acc = Some (l, gs') →
  proposals gs' !! id =
    if decide (id ∈ order) then fst <$> (proposals gs !! id ≫= process_proposal h ts el)
    else proposals gs !! id.
Proof.
  intros Hnd. revert gs acc. induction Hnd as [|key order Hk _ IH]; intros gs acc;
    cbn [process_loop].
  { intros [= _ <-]. by rewrite decide_False by apply not_elem_of_nil. }
  destruct (proposals gs !! key) as [p|] eqn:E.
  - destruct (process_proposal h ts el p) as [[p' b]|] eqn:F; cbn [mbind option_bind]; [|done].
    intros Hl. rewrite (IH _ _ Hl). cbn [proposals].
    destruct (decide (id = key)) as [->|Hne].
    + rewrite decide_False, lookup_insert_eq, decide_True, E by (done || left). simpl. by rewrite F.
    + rewrite lookup_insert_ne by done. destruct (decide (id ∈ order)).
      * by rewrite decide_True by (by right).
      * by rewrite decide_False by (by rewrite elem_of_cons; intros [|]).
  - intros Hl. rewrite (IH _ _ Hl). destruct (decide (id = key)) as [->|Hne].
    + by rewrite decide_False, decide_True, E by (done || left).
    + destruct (decide (id ∈ order)).
      * by rewrite decide_True by (by right).
      * by rewrite decide_False by (by rewrite elem_of_cons; intros [|]).
Qed.

(** The operations the chain performs on the governance state. Proposals are
    submitted with a snapshot of validator stakes. *)
Inductive gov_step `{Sha3} `{!Bincode ProposalKind} (gs : GovernanceState)
    : GovernanceState → Prop :=
  | step_submit proposer params h el snapshot id gs' :
      (∀ k v, snapshot !! k = Some v → 0 ≤ v) → map_sum (λ _ v, v) snapshot ≤ u64_max →
      submit_proposal gs proposer params h el snapshot = Ok (id, gs') → gov_step gs gs'
  | step_vote voter id choice stake h gs' :
      vote gs voter id choice stake h = Ok gs' → gov_step gs gs'
  | step_process order h ts el executed gs' :
      process_block order gs h ts el = Some (executed, gs') → gov_step gs gs'.

Lemma proposal_new_wf id proposer kind h deadline snapshot :
  (∀ k v, snapshot !! k = Some v → 0 ≤ v) → map_sum (λ _ v, v) snapshot ≤ u64_max →
  proposal_wf (mkProposal id proposer kind Active h deadline None 0 0 ∅ snapshot).
Proof.
  intros Hs Ht. split; simpl; [done|done|lia| |set_solver|by intros []].
  symmetry. unfold voted_stake, stake_of. simpl. apply map_sum_zero.
  intros k v _. by rewrite bool_decide_eq_false_2 by set_solver.
Qed.

Lemma gov_step_wf `{Sha3} `{!Bincode ProposalKind} gs gs' :
  governance_wf gs → gov_step gs gs' → governance_wf gs'.
Proof.
  intros Hwf [proposer params h el snapshot id gs1 Hs Ht Hok|voter id choice stake h gs1 Hok|
    order h ts el executed gs1 Hok].
  - unfold submit_proposal in Hok. destruct (validate_kind _) as [[]|]; simpl in Hok; [|done].
    injection Hok as <- <-. intros k p. simpl. rewrite lookup_insert.
    case_decide; [|by apply Hwf]. intros [= <-]. by apply proposal_new_wf.
  - unfold vote in Hok. destruct (proposals gs !! id) as [p|] eqn:E; simpl in Hok; [|done].
    destruct (vote_proposal p voter choice h) as [p'|] eqn:F; simpl in Hok; [|done].
    injection Hok as <-. intros k q. simpl. rewrite lookup_insert.
    case_decide; [|by apply Hwf]. intros [= <-]. by eapply vote_proposal_wf, F; eapply Hwf.
  - by eapply process_loop_wf, Hok.
Qed.

(** ** Properties *)

(** C34: votes are counted once and never overflow. In every governance state
    reached by submitting proposals, voting and processing blocks, each
    proposal's tally is exactly the snapshotted stake of the accounts in its
    voter set, which are all in the snapshot; so the tally is at most the total
    snapshotted stake. A passed or executed proposal has an execution height at
    least [MIN_EXECUTION_DELAY_BLOCKS] after its deadline. *)
Theorem governance_tally_sound `{Sha3} `{!Bincode ProposalKind} (gs : GovernanceState) :
  rtc gov_step governance_new gs → governance_wf gs.
Proof.
  intros Hr. cut (∀ g0, governance_wf g0 → rtc gov_step g0 gs → governance_wf gs).
  { intros Hc. apply (Hc governance_new); [|done]. intros id p. simpl. by rewrite lookup_empty. }
  clear Hr. intros g0 Hwf Hr. induction Hr; eauto using gov_step_wf.
Qed.

Definition demo_bincode_kind : Bincode ProposalKind := λ k,
  match k with
  | ProtocolUpgrade v d => x00 :: to_le_bytes 4 v ++ bstr d
  | ParameterChange p v => x01 :: bstr p ++ to_le_bytes 8 v
  end.

(** One proposal submitted at height 5 by a validator set of stakes 60 and 40,
    the first of which has voted for it. *)
Definition demo_kind : ProposalKind := ParameterChange "block_reward" 7.
Definition demo_snapshot : gmap bytes Z := <[[x0a] := 60]> {[[x0b] := 40]}.

Lemma demo_snapshot_nonneg k v : demo_snapshot !! k = Some v → 0 ≤ v.
Proof.
  unfold demo_snapshot. rewrite lookup_insert_Some, lookup_singleton_Some.
  intros [[_ <-]|[_ [_ <-]]]; lia.
Qed.

Definition demo_submitted : GovernanceState :=
  (unwrap_or ([], governance_new)
     (@submit_proposal demo_sha3 demo_bincode_kind governance_new [x0a]
        (mkSubmitProposalParams demo_kind) 5 32 demo_snapshot)).2.
Definition demo_proposal_id : bytes := @proposal_id_of demo_sha3 demo_bincode_kind [x0a] 5 demo_kind.
Definition demo_voted : GovernanceState :=
  unwrap_or governance_new (vote demo_submitted [x0a] demo_proposal_id For 60 6).

Lemma demo_voted_reachable :
  rtc (@gov_step demo_sha3 demo_bincode_kind) governance_new demo_voted.
Proof.
  apply rtc_l with demo_submitted.
  { eapply (@step_submit demo_sha3 demo_bincode_kind _ [x0a] (mkSubmitProposalParams demo_kind)
      5 32 demo_snapshot).
    - apply demo_snapshot_nonneg.
    - vm_compute. discriminate.
    - unfold demo_submitted. rewrite <- surjective_pairing. apply is_ok_unwrap. by vm_compute. }
  apply rtc_once. eapply (@step_vote demo_sha3 demo_bincode_kind _ [x0a] demo_proposal_id For 60 6).
  apply is_ok_unwrap. by vm_compute.
Qed.

Lemma governance_tally_sound_witness :
  match proposals demo_voted !! demo_proposal_id with
  | Some p => pr_votes_for p + pr_votes_against p = voted_stake p
  | None => False
  end.
Proof.
  pose proof (@governance_tally_sound demo_sha3 demo_bincode_kind _ demo_voted_reachable) as Hwf.
  assert (bool_decide (is_Some (proposals demo_voted !! demo_proposal_id)) = true) as Hs
    by (vm_compute; reflexivity).
  specialize (Hwf demo_proposal_id).
  destruct (proposals demo_voted !! demo_proposal_id) as [p|]; [|discriminate Hs].
  exact (pw_tally p (Hwf p eq_refl)).
Defined.

(** The outcome of a block does not depend on the iteration order of the
    [HashMap]: two orders either both panic or produce the same proposals, the
    same executed proposals and the same execution log up to permutation. *)
Theorem process_block_order_irrelevant (gs : GovernanceState) (order1 order2 : list bytes)
    (h total_stake epoch_length : Z) :
  iteration_order gs order1 → iteration_order gs order2 →
  outcome_equiv (process_block order1 gs h total_stake epoch_length)
                (process_block order2 gs h total_stake epoch_length).
Proof. intros H1 H2. apply process_loop_perm. by rewrite H1, H2. Qed.

Definition demo_two_proposals : GovernanceState :=
  mkGovernance
    (<[[x01] := mkProposal [x01] [] demo_kind Passed 1 2 (Some 40) 60 0 {[ [x0a] ]} demo_snapshot]>
     {[ [x02] := mkProposal [x02] [] demo_kind Passed 1 2 (Some 50) 60 0 {[ [x0a] ]} demo_snapshot]})
    [].

Lemma process_block_order_irrelevant_witness :
  outcome_equiv (process_block [[x01]; [x02]] demo_two_proposals 60 100 32)
                (process_block [[x02]; [x01]] demo_two_proposals 60 100 32).
Proof.
  assert ((map_to_list (proposals demo_two_proposals)).*1 ≡ₚ [[x01]; [x02]]) as Hk.
  { simpl. rewrite map_to_list_insert by (by rewrite lookup_singleton_ne).
    by rewrite map_to_list_singleton. }
  apply process_block_order_irrelevant; unfold iteration_order; rewrite Hk; [done|].
  apply Permutation_swap.
Defined.

(** How [process_block] moves a proposal through its states. Away from
    overflow of the percentage products, an active proposal is left alone up to
    its deadline; after it, it passes exactly when the votes reach half of the
    active stake and two thirds (67 percent) of the votes are in favour, with
    an execution height at the next epoch boundary or 32 blocks after the
    deadline, whichever is later, and is rejected otherwise. A passed proposal
    is executed at its execution height; the other states are final. *)
Theorem process_block_decides (gs gs' : GovernanceState) (order : list bytes)
    (executed : list Proposal) (h total_stake epoch_length : Z) (id : bytes) (p : Proposal) :
  governance_wf gs → iteration_order gs order →
  process_block order gs h total_stake epoch_length = Some (executed, gs') →
  proposals gs !! id = Some p →
  0 ≤ total_stake → total_stake * QUORUM_PERCENT ≤ u64_max → snapshot_stake p * 100 ≤ u64_max →
  let total_votes := pr_votes_for p + pr_votes_against p in
  proposals gs' !! id = Some (
    match pr_status p with
    | Active =>
        if h <=? pr_voting_deadline_height p then p
        else if (0 <? total_stake) && (total_stake * 50 <=? total_votes * 100) &&
                (0 <? total_votes) && (total_votes * 67 <=? pr_votes_for p * 100)
        then with_status p Passed (Some
               (Z.max (saturating_add (pr_voting_deadline_height p) 32)
                 (mul64 (add64 (pr_voting_deadline_height p / epoch_length) 1) epoch_length)))
        else with_status p Rejected (pr_execution_height p)
    | Passed =>
        match pr_execution_height p with
        | Some e => if e <=? h then with_status p Executed (Some e) else p
        | None => p
        end
    | _ => p
    end).
Proof.
  intros Hwf Ho Hok Hp Hts Hq Hsn total_votes. specialize (Hwf id p Hp).
  pose proof (pw_votes _ Hwf). pose proof (pw_tally _ Hwf) as Htally.
  pose proof (stake_of_le _ (pr_voters p) (pw_stakes _ Hwf)) as Hle.
  assert (0 ≤ total_votes ≤ snapshot_stake p) as Htv.
  { unfold total_votes, voted_stake, snapshot_stake in *. lia. }
  assert (NoDup order) as Hnd by (rewrite Ho; apply NoDup_fst_map_to_list).
  rewrite (process_loop_lookup _ _ _ _ _ _ _ _ id Hnd Hok), Hp.
  rewrite decide_True by (by eapply iteration_order_elem).
  assert (add64 (pr_votes_for p) (pr_votes_against p) = total_votes) as Hadd
    by (apply add64_exact; unfold total_votes in *; lia).
  assert (process_proposal h total_stake epoch_length p ≠ None) as Hsome.
  { intros Hn. destruct (iteration_order_split _ _ _ _ Ho Hp) as [rest Hr].
    pose proof (process_loop_perm h total_stake epoch_length _ _ gs [] Hr) as Hpm.
    unfold process_block in Hok. rewrite Hok, process_loop_cons in Hpm. unfold process_key in Hpm.
    rewrite Hp, Hn in Hpm. done. }
  revert Hsome. unfold process_proposal, quorum_met, approved. simpl mbind.
  rewrite Hadd. unfold mul64, QUORUM_PERCENT, APPROVAL_PERCENT, MIN_EXECUTION_DELAY_BLOCKS in *.
  rewrite !(wrap64_id (total_stake * 50)), !(wrap64_id (total_votes * 100)),
    !(wrap64_id (total_votes * 67)), !(wrap64_id (pr_votes_for p * 100))
    by (unfold is_u64; unfold total_votes in *; lia).
  destruct (pr_status p); try done.
  - destruct (pr_voting_deadline_height p <? h) eqn:Ed.
    + replace (h <=? pr_voting_deadline_height p) with false by (symmetry; apply Z.leb_gt; lia).
      rewrite <- !andb_assoc. destruct (_ && _) eqn:Eb; [|done].
      destruct (epoch_length =? 0); done.
    + replace (h <=? pr_voting_deadline_height p) with true by (symmetry; apply Z.leb_le; lia). done.
  - destruct (pr_execution_height p) as [e|]; [|done]. by destruct (e <=? h).
Qed.

Lemma process_block_decides_witness :
  let p := mkProposal [x01] [] demo_kind Active 1 2 None 60 0 {[ [x0a] ]} demo_snapshot in
  let gs := mkGovernance {[ [x01] := p ]} [] in
  let gs' := from_option snd governance_new (process_block [[x01]] gs 3 100 32) in
  pr_status <$> (proposals gs' !! [x01]) = Some Passed.
Proof.
  intros p gs gs'.
  assert (proposal_wf p) as Hp.
  { split; simpl; [apply demo_snapshot_nonneg|by vm_compute|lia|by vm_compute| |by intros []].
    unfold demo_snapshot. rewrite dom_insert_L. set_solver. }
  assert (governance_wf gs) as Hwf by (by intros id q [_ <-]%(lookup_singleton_Some (M:=gmap bytes) [x01] id p q)).
  assert (iteration_order gs [[x01]]) as Ho.
  { unfold iteration_order. simpl. by rewrite map_to_list_singleton. }
  destruct (process_block [[x01]] gs 3 100 32) as [[ex g]|] eqn:E.
  - unfold gs'. simpl.
    rewrite (process_block_decides gs g [[x01]] ex 3 100 32 [x01] p Hwf Ho E);
      [by vm_compute|by apply lookup_singleton_eq|lia|by vm_compute|by vm_compute].
  - apply (f_equal (λ o, bool_decide (is_Some o))) in E. vm_compute in E. discriminate.
Defined.

(** A chain whose genesis sets [epoch_length] to zero panics while
    processing the first block after the deadline of a proposal that reached
    quorum and approval: the epoch alignment divides by the raw length, while
    the rest of the node reads it as [max(1)]. *)
Theorem process_block_zero_epoch_panics (gs : GovernanceState) (order : list bytes)
    (h total_stake : Z) (id : bytes) (p : Proposal) :
  iteration_order gs order → proposals gs !! id = Some p →
  pr_status p = Active → pr_voting_deadline_height p < h →
  quorum_met p total_stake = true → approved p = true →
  process_block order gs h total_stake 0 = None.
Proof.
  intros Ho Hp Ha Hd Hq Happ. destruct (iteration_order_split _ _ _ _ Ho Hp) as [rest Hr].
  pose proof (process_loop_perm h total_stake 0 _ _ gs [] Hr) as Hpm.
  rewrite (process_loop_cons _ _ _ id) in Hpm. unfold process_key in Hpm.
  assert (process_proposal h total_stake 0 p = None) as Hn.
  { unfold process_proposal. rewrite Ha, Hq, Happ. by rewrite (proj2 (Z.ltb_lt _ _) Hd). }
  rewrite Hp in Hpm. cbn [mbind option_bind] in Hpm. rewrite Hn in Hpm. unfold process_block.
  by destruct (process_loop h total_stake 0 order gs []) as [[??]|].
Qed.

Lemma process_block_zero_epoch_panics_witness :
  let p := mkProposal [x01] [] demo_kind Active 1 2 None 60 0 {[ [x0a] ]} demo_snapshot in
  process_block [[x01]] (mkGovernance {[ [x01] := p ]} []) 3 100 0 = None.
Proof.
  intros p. apply (process_block_zero_epoch_panics _ _ _ _ [x01] p);
    [|by apply lookup_singleton_eq|done|done|by vm_compute|by vm_compute].
  unfold iteration_order. simpl. by rewrite map_to_list_singleton.
Defined.
