(* ===== verification/Block.v ===== *)
(** * Blocks ([src/core/block.rs])

    Headers, construction and signing of a block, the genesis block and the
    three self-checks of a block. The wall-clock time of [Block::new] is an
    argument; [bincode]'s encoding of a header is a parameter. *)
From S2P Require Import Prelude Hash Crypto Vm Transaction.

Definition GENESIS_TIMESTAMP : Z := 1700000000.
Definition EMPTY_STATE_ROOT_SEED : bytes := bstr "curs3d-empty-state".

Record BlockHeader := mkHeader {
  version : Z;
  height : Z;
  timestamp : Z;
  prev_hash : bytes;
  hd_merkle_root : bytes;
  state_root : bytes;
  gas_used : Z;
  base_fee_per_gas : Z;
  validator_public_key : bytes;
  hd_nonce : Z;
}.

#[global] Instance BlockHeader_eq_dec : EqDecision BlockHeader.
Proof. solve_decision. Defined.

Record Block := mkBlock {
  header : BlockHeader;
  transactions : list Transaction;
  block_hash : bytes;
  signature : option Signature;
}.

#[global] Instance Block_eq_dec : EqDecision Block.
Proof. solve_decision. Defined.

Section block.
Context `{Sha3} `{MlDsa} `{!Bincode SignableTransaction} `{!Bincode BlockHeader}.

(** [Block::compute_hash]. *)
Definition compute_hash (h : BlockHeader) : bytes := double_hash (bincode_serialize h).

(** [Block::signable_block_hash]. *)
Definition signable_block_hash (hash : bytes) : bytes := bstr "curs3d-block-sig-v1:" ++ hash.

(** [Block::new]; [None] is the panic of [KeyPair::sign]. *)
Definition block_new (version height : Z) (prev_hash state_root : bytes)
    (gas_used base_fee_per_gas : Z) (transactions : list Transaction) (kp : KeyPair)
    (now : Z) : option Block :=
  let tx_hashes := tx_hash <$> transactions in
  let h := mkHeader version height now prev_hash (merkle_root tx_hashes) state_root gas_used
             base_fee_per_gas (public_key kp) 0 in
  let hash := compute_hash h in
  sig ← keypair_sign kp (signable_block_hash hash);
  Some (mkBlock h transactions hash (Some sig)).

(** [Block::genesis_with_state_root]. *)
Definition genesis_with_state_root (state_root : bytes) (chain_id : string)
    (initial_base_fee_per_gas : Z) : Block :=
  let coinbase := coinbase_with_timestamp chain_id (replicate ADDRESS_LEN x00) 0
                    GENESIS_TIMESTAMP in
  let h := mkHeader 1 0 GENESIS_TIMESTAMP (replicate 32 x00) (merkle_root [tx_hash coinbase])
             state_root 0 initial_base_fee_per_gas [] 0 in
  mkBlock h [coinbase] (compute_hash h) None.

(** [Block::genesis]. *)
Definition block_genesis : Block :=
  genesis_with_state_root (sha3_hash EMPTY_STATE_ROOT_SEED) "curs3d-devnet" 0.

(** [Block::verify_hash]. *)
Definition verify_hash (b : Block) : bool :=
  bool_decide (block_hash b = compute_hash (header b)).

(** [Block::verify_signature]. *)
Definition block_verify_signature (b : Block) : bool :=
  if height (header b) =? 0 then bool_decide (signature b = None)
  else match signature b with
       | Some sig =>
           dilithium_verify (signable_block_hash (block_hash b)) sig
             (validator_public_key (header b))
       | None => false
       end.

(** [Block::verify_merkle_root]. *)
Definition verify_merkle_root (b : Block) : bool :=
  bool_decide (merkle_root (tx_hash <$> transactions b) = hd_merkle_root (header b)).

(** ** Lemmas *)

Lemma length_compute_hash h : length (compute_hash h) = 32%nat.
Proof. apply length_sha3_hash. Qed.

Lemma length_signable_block_hash hash :
  length (signable_block_hash hash) = (20 + length hash)%nat.
Proof. done. Qed.

Lemma verify_hash_spec b : verify_hash b = true ↔ block_hash b = compute_hash (header b).
Proof. apply bool_decide_eq_true. Qed.

Lemma verify_merkle_root_spec b :
  verify_merkle_root b = true ↔ merkle_root (tx_hash <$> transactions b) = hd_merkle_root (header b).
Proof. apply bool_decide_eq_true. Qed.

Lemma block_verify_signature_height0 b :
  height (header b) = 0 → block_verify_signature b = bool_decide (signature b = None).
Proof. unfold block_verify_signature. by intros ->. Qed.

Lemma block_verify_signature_spec b :
  height (header b) ≠ 0 →
  block_verify_signature b = true ↔
    ∃ sig, signature b = Some sig ∧
      dilithium_verify (signable_block_hash (block_hash b)) sig
        (validator_public_key (header b)) = true.
Proof.
  intros Hh. unfold block_verify_signature. rewrite (proj2 (Z.eqb_neq _ _) Hh).
  destruct (signature b); naive_solver.
Qed.

(** The three self-checks, as [validate_block] runs them. *)
Definition self_checks (b : Block) : bool :=
  verify_hash b && verify_merkle_root b && block_verify_signature b.

Lemma genesis_self_checks root chain_id fee :
  self_checks (genesis_with_state_root root chain_id fee) = true.
Proof.
  unfold self_checks, verify_hash, verify_merkle_root.
  by rewrite !bool_decide_eq_true_2.
Qed.
End block.

(** ** Running the model on examples *)

Definition demo_bincode_header : Bincode BlockHeader := λ h,
  to_le_bytes 4 (version h) ++ to_le_bytes 8 (height h) ++ to_le_bytes 8 (timestamp h) ++
  demo_field (prev_hash h) ++ demo_field (hd_merkle_root h) ++ demo_field (state_root h) ++
  to_le_bytes 8 (gas_used h) ++ to_le_bytes 8 (base_fee_per_gas h) ++
  demo_field (validator_public_key h) ++ to_le_bytes 8 (hd_nonce h).

Definition demo_header (n : Z) (kp : KeyPair) : BlockHeader :=
  mkHeader 1 n 1700000010 (replicate 32 x01) (replicate 32 x02) (replicate 32 x03) 0 1
    (public_key kp) 0.

Definition demo_block_txs : list Transaction :=
  (λ n, coinbase_with_timestamp "c" (replicate 20 x01) n 0) <$> [1; 2; 3].

(** ** Properties *)

(** A block built by [Block::new] above height zero with a generated key
    passes its own hash, Merkle-root and signature checks, and so does every
    genesis block. A block built for height zero never passes: there the
    signature must be absent. *)
Theorem block_new_self_checks `{Sha3} `{MlDsa} `{!Bincode SignableTransaction}
    `{!Bincode BlockHeader} (v h : Z) (prev root : bytes) (gas base_fee : Z)
    (txs : list Transaction) (seed : bytes) (now : Z) :
  length seed = ML_DSA_SEED_LEN →
  ∃ b, block_new v h prev root gas base_fee txs (keypair_generate seed) now = Some b ∧
    header b = mkHeader v h now prev (merkle_root (tx_hash <$> txs)) root gas base_fee
                 (public_key (keypair_generate seed)) 0 ∧
    transactions b = txs ∧
    self_checks b = negb (h =? 0).
Proof.
  intros Hs. unfold block_new. set (hd := mkHeader _ _ _ _ _ _ _ _ _ _).
  destruct (dilithium_sign_verify seed (signable_block_hash (compute_hash hd)) Hs)
    as (sig&Hsig&Hv). rewrite Hsig.
  eexists. split; [done|]. split; [done|]. split; [done|].
  unfold self_checks, verify_hash, verify_merkle_root.
  cbn [header transactions block_hash]. rewrite !bool_decide_eq_true_2 by done.
  unfold block_verify_signature. cbn [header signature hd height block_hash]. by destruct (h =? 0).
Qed.

Lemma block_new_self_checks_witness :
  ∃ b, @block_new demo_sha3 demo_mldsa demo_bincode_tx demo_bincode_header 1 1 (replicate 32 x01)
         (replicate 32 x02) 21000 1 demo_block_txs (demo_keypair 7) 5 = Some b ∧
    @self_checks demo_sha3 demo_mldsa demo_bincode_tx demo_bincode_header b = true.
Proof.
  destruct (@block_new_self_checks demo_sha3 demo_mldsa demo_bincode_tx demo_bincode_header 1 1
    (replicate 32 x01) (replicate 32 x02) 21000 1 demo_block_txs (demo_seed 7) 5
    ltac:(reflexivity)) as (b&Hb&_&_&Hc).
  exists b. exact (conj Hb Hc).
Defined.

(** The transactions of a block are malleable. A block of an odd number of
    at least three transactions that passes its self-checks still passes them,
    with the same hash and signature, after its last transaction is repeated. *)
Theorem block_last_tx_repeatable `{Sha3} `{MlDsa} `{!Bincode SignableTransaction}
    `{!Bincode BlockHeader} (b : Block) (tx : Transaction) :
  (2 ≤ length (transactions b))%nat → Nat.odd (length (transactions b)) = true →
  last (transactions b) = Some tx → self_checks b = true →
  self_checks (mkBlock (header b) (transactions b ++ [tx]) (block_hash b) (signature b)) = true.
Proof.
  intros H2 Ho Hl Hc. unfold self_checks, verify_hash, verify_merkle_root in *.
  cbn [header transactions block_hash]. rewrite fmap_app. cbn [fmap list_fmap].
  rewrite merkle_root_duplicate_last; [done|by rewrite length_fmap..|by rewrite fmap_last, Hl].
Qed.

Lemma block_last_tx_repeatable_witness :
  let h txs := mkHeader 1 0 0 [] (@merkle_root demo_sha3 (@tx_hash demo_sha3 demo_bincode_tx <$> txs))
    [] 0 1 [] 0 in
  let hd := h demo_block_txs in
  let hash := @compute_hash demo_sha3 demo_bincode_header hd in
  @self_checks demo_sha3 demo_mldsa demo_bincode_tx demo_bincode_header
    (mkBlock hd (demo_block_txs ++ drop 2 demo_block_txs) hash None) = true.
Proof.
  intros h hd hash.
  apply (@block_last_tx_repeatable demo_sha3 demo_mldsa demo_bincode_tx demo_bincode_header
    (mkBlock hd demo_block_txs hash None) (coinbase_with_timestamp "c" (replicate 20 x01) 3 0));
    [simpl; lia|reflexivity|reflexivity|vm_compute; reflexivity].
Defined.

(** A header cannot be edited under its hash: absent a SHA3 collision on
    the two strings hashed, a block whose hash is that of a verified block but
    whose header encodes differently fails [verify_hash]. *)
Theorem header_tampering_detected `{Sha3} `{!Bincode BlockHeader} (b : Block) (h' : BlockHeader) :
  let inputs h := [bincode_serialize h; sha3_hash (bincode_serialize h)] in
  no_collision (inputs (header b)) (inputs h') →
  verify_hash b = true → bincode_serialize h' ≠ bincode_serialize (header b) →
  verify_hash (mkBlock h' (transactions b) (block_hash b) (signature b)) = false.
Proof.
  intros inputs Hnc Hv Hne. destruct (verify_hash (mkBlock _ _ _ _)) eqn:Hv'; [|done].
  apply verify_hash_spec in Hv, Hv'. cbn [header block_hash] in Hv'.
  rewrite Hv in Hv'. unfold compute_hash, double_hash in Hv'. exfalso. apply Hne. symmetry.
  assert (∀ x y, x ∈ inputs (header b) → y ∈ inputs h' → sha3_hash x = sha3_hash y → x = y) as Hinj
    by (intros x y Hx Hy; by apply (no_collision_elem _ _ _ _ Hnc)).
  unfold inputs in Hinj. apply Hinj in Hv'; [|set_solver..]. apply Hinj in Hv'; set_solver.
Qed.

Lemma header_tampering_detected_witness :
  let hd := demo_header 1 (demo_keypair 7) in
  let hd' := demo_header 2 (demo_keypair 7) in
  @verify_hash demo_sha3 demo_bincode_header
    (mkBlock hd' [] (@compute_hash demo_sha3 demo_bincode_header hd) None) = false.
Proof.
  intros hd hd'.
  apply (@header_tampering_detected demo_sha3 demo_bincode_header
    (mkBlock hd [] (@compute_hash demo_sha3 demo_bincode_header hd) None));
    [vm_decide|vm_compute; reflexivity|vm_decide].
Defined.
