(* ===== verification/Account.v ===== *)
(** * Account state ([src/core/chain/mod.rs])

    The account record of the ledger and the operations the consensus and chain
    modules share on the [HashMap] of accounts, modelled as a [gmap] keyed by
    address. *)
From S2P Require Import Prelude.

Record PendingUnstake := mkPendingUnstake {
  pu_amount : Z;
  unlock_height : Z;
}.

#[global] Instance PendingUnstake_eq_dec : EqDecision PendingUnstake.
Proof. solve_decision. Defined.

Record AccountState := mkAccount {
  balance : Z;
  nonce : Z;
  staked_balance : Z;
  pending_unstakes : list PendingUnstake;
  validator_active_from_height : Z;
  jailed_until_height : Z;
  ac_public_key : option bytes;
}.

#[global] Instance AccountState_eq_dec : EqDecision AccountState.
Proof. solve_decision. Defined.

(** [#[derive(Default)]]. *)
Definition account_default : AccountState := mkAccount 0 0 0 [] 0 0 None.

Abbreviation accounts_map := (gmap bytes AccountState).

(** Field updates. *)
Definition set_balance (z : Z) (a : AccountState) : AccountState :=
  mkAccount z (nonce a) (staked_balance a) (pending_unstakes a)
    (validator_active_from_height a) (jailed_until_height a) (ac_public_key a).
Definition set_nonce (z : Z) (a : AccountState) : AccountState :=
  mkAccount (balance a) z (staked_balance a) (pending_unstakes a)
    (validator_active_from_height a) (jailed_until_height a) (ac_public_key a).
Definition set_staked (z : Z) (a : AccountState) : AccountState :=
  mkAccount (balance a) (nonce a) z (pending_unstakes a)
    (validator_active_from_height a) (jailed_until_height a) (ac_public_key a).
Definition set_pending (l : list PendingUnstake) (a : AccountState) : AccountState :=
  mkAccount (balance a) (nonce a) (staked_balance a) l
    (validator_active_from_height a) (jailed_until_height a) (ac_public_key a).
Definition set_active_from (z : Z) (a : AccountState) : AccountState :=
  mkAccount (balance a) (nonce a) (staked_balance a) (pending_unstakes a)
    z (jailed_until_height a) (ac_public_key a).
Definition set_jailed_until (z : Z) (a : AccountState) : AccountState :=
  mkAccount (balance a) (nonce a) (staked_balance a) (pending_unstakes a)
    (validator_active_from_height a) z (ac_public_key a).
Definition set_account_public_key (k : option bytes) (a : AccountState) : AccountState :=
  mkAccount (balance a) (nonce a) (staked_balance a) (pending_unstakes a)
    (validator_active_from_height a) (jailed_until_height a) k.

(** [Blockchain::get_account]: the account, or the default one. *)
Definition get_account (accounts : accounts_map) (address : bytes) : AccountState :=
  default account_default (accounts !! address).

(** [Blockchain::get_balance], [Blockchain::get_staked_balance]. *)
Definition get_balance (accounts : accounts_map) (address : bytes) : Z :=
  from_option balance 0 (accounts !! address).
Definition get_staked_balance (accounts : accounts_map) (address : bytes) : Z :=
  from_option staked_balance 0 (accounts !! address).

(** [accounts.entry(a).or_default()] followed by an update in place. *)
Definition update_account (address : bytes) (f : AccountState → AccountState)
    (accounts : accounts_map) : accounts_map :=
  entry_or_default account_default address f accounts.

(** ** What an account owns *)

Definition pending_total (a : AccountState) : Z := sumZ (pu_amount <$> pending_unstakes a).

(** Liquid, staked and unbonding funds. *)
Definition account_funds (a : AccountState) : Z :=
  balance a + staked_balance a + pending_total a.

Definition account_wf (a : AccountState) : Prop :=
  is_u64 (balance a) ∧ is_u64 (nonce a) ∧ is_u64 (staked_balance a) ∧
  Forall (λ p, is_u64 (pu_amount p) ∧ is_u64 (unlock_height p)) (pending_unstakes a).

Definition accounts_wf (m : accounts_map) : Prop := ∀ k a, m !! k = Some a → account_wf a.

(** The ledger's total supply. *)
Definition total_supply (m : accounts_map) : Z := map_sum (λ _ a, account_funds a) m.

(** ** Lemmas *)

Lemma account_default_wf : account_wf account_default.
Proof. repeat split; simpl; try u64_lia. constructor. Qed.

Lemma account_default_funds : account_funds account_default = 0.
Proof. done. Qed.

Lemma pending_total_nonneg a : account_wf a → 0 ≤ pending_total a.
Proof.
  intros (_&_&_&Hp). apply sumZ_nonneg. rewrite Forall_fmap.
  eapply Forall_impl; [exact Hp|]. intros p [Ha _]. simpl. u64_lia.
Qed.

Lemma account_funds_nonneg a : account_wf a → 0 ≤ account_funds a.
Proof.
  intros Hwf. pose proof (pending_total_nonneg a Hwf). unfold account_funds, account_wf in *. u64_lia.
Qed.

Lemma get_account_wf m k : accounts_wf m → account_wf (get_account m k).
Proof.
  intros Hm. unfold get_account. destruct (m !! k) eqn:E; simpl; [by eapply Hm|].
  apply account_default_wf.
Qed.

Lemma lookup_update_account m k f j :
  update_account k f m !! j = if decide (k = j) then Some (f (get_account m k)) else m !! j.
Proof.
  unfold update_account, entry_or_default, get_account. rewrite lookup_insert.
  by case_decide.
Qed.

Lemma get_update_account m k f j :
  get_account (update_account k f m) j =
    if decide (k = j) then f (get_account m k) else get_account m j.
Proof. unfold get_account at 1. rewrite lookup_update_account. by case_decide. Qed.

Lemma update_account_wf m k f :
  accounts_wf m → account_wf (f (get_account m k)) → accounts_wf (update_account k f m).
Proof.
  intros Hm Hf j a. rewrite lookup_update_account. case_decide; [naive_solver|apply Hm].
Qed.

Lemma total_supply_update m k f :
  total_supply (update_account k f m) =
    total_supply m + account_funds (f (get_account m k)) - account_funds (get_account m k).
Proof.
  unfold total_supply, update_account, entry_or_default, get_account.
  destruct (m !! k) as [a|] eqn:E; simpl.
  - rewrite map_sum_insert, E. simpl. lia.
  - rewrite map_sum_insert_None by done. rewrite account_default_funds. lia.
Qed.

Lemma account_funds_le_supply m k :
  accounts_wf m → account_funds (get_account m k) ≤ total_supply m.
Proof.
  intros Hm. unfold total_supply, get_account. destruct (m !! k) as [a|] eqn:E; simpl.
  - apply (map_sum_lookup_le (λ _ a, account_funds a) m k a); [|done].
    intros j b Hj. apply account_funds_nonneg. by eapply Hm.
  - rewrite account_default_funds. apply map_sum_nonneg. intros j b Hj.
    apply account_funds_nonneg. by eapply Hm.
Qed.

#[export] Hint Resolve account_default_wf get_account_wf : curs3d.
