(* ===== verification/Validators.v ===== *)
(** * Validator set and slot-leader schedule ([src/consensus/mod.rs])

    The active validator set, the frozen epoch snapshot, stake-weighted
    selection of a validator and the ranked slot-leader schedule. Sums of
    stakes are [u64] sums that wrap; [snapshot_wf] says when they do not. *)
From S2P Require Import Prelude Hash Account.

Definition SLOT_DURATION_SECS : Z := 10.
Definition BACKUP_LEADER_TIMEOUT_SECS : Z := 30.

Record Validator := mkValidator {
  vd_address : bytes;
  vd_public_key : bytes;
  vd_stake : Z;
}.

#[global] Instance Validator_eq_dec : EqDecision Validator.
Proof. solve_decision. Defined.

Record EpochSnapshot := mkSnapshot {
  es_epoch : Z;
  es_start_height : Z;
  es_validators : list Validator;
  es_total_stake : Z;
}.

#[global] Instance EpochSnapshot_eq_dec : EqDecision EpochSnapshot.
Proof. solve_decision. Defined.

Record ProofOfStake := mkPoS {
  pos_minimum_stake : Z;
  slashed_validators : gset bytes;
  pos_current_height : Z;
}.

(** ** The active set *)

(** The [filter_map] closure of [active_validators]. *)
Definition validator_of_account (pos : ProofOfStake) (entry : bytes * AccountState)
    : option Validator :=
  let '(address, account) := entry in
  public_key ← ac_public_key account;
  if staked_balance account <? pos_minimum_stake pos then None
  else if pos_current_height pos <? validator_active_from_height account then None
  else if pos_current_height pos <? jailed_until_height account then None
  else if bool_decide (address ∈ slashed_validators pos) then None
  else Some (mkValidator address public_key (staked_balance account)).

Definition address_le (v w : Validator) : Prop := bytes_le (vd_address v) (vd_address w).

#[global] Instance address_le_dec : RelDecision address_le.
Proof. intros v w. unfold address_le. apply _. Defined.
#[global] Instance address_le_trans : Transitive address_le.
Proof. intros u v w. unfold address_le. apply transitivity. Qed.
#[global] Instance address_le_total : Total address_le.
Proof. intros v w. unfold address_le. apply total, _. Qed.

(** [active_validators] on the entries in the order the [HashMap] yields them. *)
Definition active_validators_iter (pos : ProofOfStake) (entries : list (bytes * AccountState))
    : list Validator :=
  merge_sort address_le (omap (validator_of_account pos) entries).

Definition active_validators (pos : ProofOfStake) (accounts : accounts_map) : list Validator :=
  active_validators_iter pos (map_to_list accounts).

Definition total_stake_of (vs : list Validator) : Z := sum64 (vd_stake <$> vs).

(** ** Stake-weighted selection *)

(** The ticket loop shared by [select_validator],
    [select_validator_from_snapshot] and [slot_leader_excluding]. *)
Fixpoint weighted_pick (vs : list Validator) (selector : Z) : option Validator :=
  match vs with
  | [] => None
  | v :: vs =>
      if selector <? vd_stake v then Some v
      else weighted_pick vs (sub64 selector (vd_stake v))
  end.

Section selection.
Context `{Sha3}.

Definition selection_seed (block_height : Z) (prev_hash : bytes) : Z :=
  from_le_bytes (take 8 (sha3_hash_domain (bstr "curs3d-validator-selection")
    [to_le_bytes 8 block_height; prev_hash])).

(** [select_validator_from_snapshot]. *)
Definition select_validator_from_snapshot (snapshot : EpochSnapshot) (block_height : Z)
    (prev_hash : bytes) : option Validator :=
  if bool_decide (es_validators snapshot = []) then None
  else
    let total_stake := total_stake_of (es_validators snapshot) in
    if total_stake =? 0 then None
    else weighted_pick (es_validators snapshot)
           (selection_seed block_height prev_hash mod total_stake).

(** [ProofOfStake::select_validator]. *)
Definition select_validator (pos : ProofOfStake) (accounts : accounts_map) (block_height : Z)
    (prev_hash : bytes) : option Validator :=
  let validators := active_validators pos accounts in
  if bool_decide (validators = []) then None
  else
    let total_stake := total_stake_of validators in
    if total_stake =? 0 then None
    else weighted_pick validators (selection_seed block_height prev_hash mod total_stake).

(** ** Slot leaders *)

Definition slot_leader_seed (height : Z) (parent_hash : bytes) (rank : Z) : Z :=
  from_le_bytes (take 16 (sha3_hash_domain (bstr "curs3d-slot-leader-v1")
    [to_le_bytes 8 height; parent_hash; to_le_bytes 4 rank])).

Definition slot_leader_excluding (snapshot : EpochSnapshot) (height : Z) (parent_hash : bytes)
    (rank : Z) (excluded : gset bytes) : option bytes :=
  let candidates := filter (λ v, vd_address v ∉ excluded) (es_validators snapshot) in
  if bool_decide (candidates = []) then None
  else
    let total_stake := total_stake_of candidates in
    if total_stake =? 0 then None
    else
      let selector := wrap64 (slot_leader_seed height parent_hash rank mod total_stake) in
      match weighted_pick candidates selector with
      | Some v => Some (vd_address v)
      | None => vd_address <$> last candidates
      end.

(** The [for k in 0..=rank] loop of [slot_leader_at_rank], [n] iterations from
    rank [k]. *)
Fixpoint leader_loop (snapshot : EpochSnapshot) (height : Z) (parent_hash : bytes) (n : nat)
    (k : Z) (excluded : gset bytes) (last : option bytes) : option bytes :=
  match n with
  | O => last
  | S n =>
      match slot_leader_excluding snapshot height parent_hash k excluded with
      | Some addr =>
          leader_loop snapshot height parent_hash n (k + 1) ({[ addr ]} ∪ excluded) (Some addr)
      | None => last
      end
  end.

Definition slot_leader_at_rank (snapshot : EpochSnapshot) (height : Z) (parent_hash : bytes)
    (rank : Z) : option bytes :=
  if bool_decide (es_validators snapshot = []) then None
  else leader_loop snapshot height parent_hash (S (Z.to_nat rank)) 0 ∅ None.

(** [slot_leader]. *)
Definition slot_leader (snapshot : EpochSnapshot) (height : Z) (parent_hash : bytes)
    : option bytes :=
  slot_leader_at_rank snapshot height parent_hash 0.
End selection.

(** [allowed_backup_rank]: the timestamps are [i64], the count a [usize], the
    result is cast to [u32]. *)
Definition allowed_backup_rank (parent_timestamp block_timestamp snapshot_validators : Z) : Z :=
  if (snapshot_validators <=? 1) || (block_timestamp <=? parent_timestamp) then 0
  else
    let gap := wrap64 (block_timestamp - parent_timestamp) in
    if gap <? BACKUP_LEADER_TIMEOUT_SECS then 0
    else
      let rank := gap / BACKUP_LEADER_TIMEOUT_SECS in
      let max_rank := saturating_sub snapshot_validators 1 in
      Z.min rank max_rank mod 4294967296.

(** ** Well-formed sets *)

(** Stakes are non-negative and their sum fits in a [u64]. *)
Definition stakes_wf (vs : list Validator) : Prop :=
  Forall (λ v, 0 ≤ vd_stake v) vs ∧ sumZ (vd_stake <$> vs) ≤ u64_max.

(** Every validator has stake. *)
Definition all_staked (vs : list Validator) : Prop := Forall (λ v, 0 < vd_stake v) vs.

(** ** Lemmas *)

Lemma stakes_sum_nonneg vs : Forall (λ v, 0 ≤ vd_stake v) vs → 0 ≤ sumZ (vd_stake <$> vs).
Proof. intros Hs. apply sumZ_nonneg. by rewrite Forall_fmap. Qed.

Lemma total_stake_exact vs : stakes_wf vs → total_stake_of vs = sumZ (vd_stake <$> vs).
Proof.
  intros [Hs Ht]. apply sum64_exact. pose proof (stakes_sum_nonneg vs Hs). lia.
Qed.

Lemma total_stake_positive vs :
  stakes_wf vs → all_staked vs → vs ≠ [] → 0 < total_stake_of vs.
Proof.
  intros Hwf Hst Hne. rewrite total_stake_exact by done. destruct Hwf as [Hs _].
  destruct Hst as [|v vs Hv Hst]; [done|]. apply Forall_cons in Hs as [_ Hs].
  rewrite fmap_cons. simpl sumZ. pose proof (stakes_sum_nonneg vs Hs). lia.
Qed.

Lemma stakes_wf_filter (P : Validator → Prop) `{∀ v, Decision (P v)} vs :
  stakes_wf vs → stakes_wf (filter P vs).
Proof.
  intros [Hs Ht]. split; [by apply Forall_list_filter|].
  cut (sumZ (vd_stake <$> filter P vs) ≤ sumZ (vd_stake <$> vs)); [lia|]. clear Ht.
  induction Hs as [|v vs Hv Hs IH]; [done|]. rewrite filter_cons, fmap_cons. simpl sumZ.
  case_decide; rewrite ?fmap_cons; simpl sumZ; lia.
Qed.

Lemma stakes_wf_cons v vs : stakes_wf (v :: vs) → 0 ≤ vd_stake v ∧ stakes_wf vs.
Proof.
  unfold stakes_wf. rewrite Forall_cons, fmap_cons. simpl sumZ. intros [[Hv Hs] Ht].
  split_and!; [done..|lia].
Qed.

Lemma weighted_pick_elem vs s v : weighted_pick vs s = Some v → v ∈ vs.
Proof.
  revert s. induction vs as [|w vs IH]; intros s; simpl; [done|]. case_match.
  - intros [= ->]. left.
  - intros Hp. right. by eapply IH.
Qed.

(** Skipping the first validator's tickets. *)
Lemma weighted_pick_skip v vs s :
  is_u64 s → 0 ≤ vd_stake v → vd_stake v ≤ s →
  weighted_pick (v :: vs) s = weighted_pick vs (s - vd_stake v).
Proof.
  intros Hs Hv Hle. simpl. rewrite (proj2 (Z.ltb_ge _ _) Hle). f_equal.
  apply sub64_exact; [done|lia].
Qed.

(** Every ticket below the total belongs to a validator, who has stake. *)
Lemma weighted_pick_total vs s :
  stakes_wf vs → 0 ≤ s < sumZ (vd_stake <$> vs) →
  ∃ v, weighted_pick vs s = Some v ∧ 0 < vd_stake v.
Proof.
  revert s. induction vs as [|v vs IH]; intros s Hwf Hs; [simpl in Hs; lia|].
  pose proof Hwf as [Hv Hwf']%stakes_wf_cons. destruct Hwf as [_ Hmax].
  rewrite fmap_cons in Hs, Hmax. simpl sumZ in *.
  destruct (decide (s < vd_stake v)) as [Hlt|Hge].
  - exists v. simpl. rewrite (proj2 (Z.ltb_lt _ _) Hlt). split; [done|lia].
  - rewrite weighted_pick_skip by (u64_lia || lia). apply IH; [done|lia].
Qed.

Lemma weighted_pick_mod vs seed :
  stakes_wf vs → 0 < total_stake_of vs →
  ∃ v, weighted_pick vs (seed mod total_stake_of vs) = Some v ∧ v ∈ vs ∧ 0 < vd_stake v.
Proof.
  intros Hwf Ht. rewrite (total_stake_exact _ Hwf) in *.
  destruct (weighted_pick_total vs (seed mod sumZ (vd_stake <$> vs))) as (v&Hp&Hv);
    [done|by apply Z.mod_pos_bound|].
  exists v. eauto using weighted_pick_elem.
Qed.

Lemma total_stake_nonneg vs : 0 ≤ total_stake_of vs.
Proof. apply sum64_range. Qed.

(** ** The schedule of leaders *)

Section schedule.
Context `{Sha3}.
Variables (snapshot : EpochSnapshot) (h : Z) (parent : bytes).

(** The addresses chosen by the loop, until the pool is exhausted. *)
Fixpoint leader_seq (n : nat) (k : Z) (excluded : gset bytes) : list bytes :=
  match n with
  | O => []
  | S n =>
      match slot_leader_excluding snapshot h parent k excluded with
      | Some addr => addr :: leader_seq n (k + 1) ({[ addr ]} ∪ excluded)
      | None => []
      end
  end.

Lemma leader_loop_seq n k excluded lst :
  leader_loop snapshot h parent n k excluded lst =
    match last (leader_seq n k excluded) with Some a => Some a | None => lst end.
Proof.
  revert k excluded lst. induction n as [|n IH]; intros k excluded lst; simpl; [done|].
  destruct (slot_leader_excluding _ _ _ _ _) as [a|]; [|done].
  rewrite IH, last_cons. by destruct (last _).
Qed.

Lemma leader_seq_take m n k excluded :
  (m ≤ n)%nat → leader_seq m k excluded = take m (leader_seq n k excluded).
Proof.
  revert m k excluded. induction n as [|n IH]; intros [|m] k excluded Hm; simpl; try done; [lia|].
  destruct (slot_leader_excluding _ _ _ _ _) as [a|]; [|done].
  simpl. f_equal. apply IH. lia.
Qed.

Lemma slot_leader_excluding_spec k excluded a :
  slot_leader_excluding snapshot h parent k excluded = Some a →
  a ∈ vd_address <$> es_validators snapshot ∧ a ∉ excluded.
Proof.
  unfold slot_leader_excluding. case_bool_decide; [done|]. case_match; [done|]. intros Ha.
  assert (∃ v, v ∈ filter (λ v, vd_address v ∉ excluded) (es_validators snapshot) ∧
    a = vd_address v) as (v&Hv&->).
  { destruct (weighted_pick _ _) as [v|] eqn:E.
    - exists v. split; [by eapply weighted_pick_elem|congruence].
    - apply fmap_Some in Ha as (v&Hl&->). exists v. split; [|done].
      by eapply last_Some_elem_of. }
  apply list_elem_of_filter in Hv as [Hx Hv]. split; [|done]. by apply list_elem_of_fmap_2.
Qed.

(** While a staked candidate remains, a leader is found. *)
Lemma slot_leader_excluding_some k excluded :
  stakes_wf (es_validators snapshot) → all_staked (es_validators snapshot) →
  (∃ v, v ∈ es_validators snapshot ∧ vd_address v ∉ excluded) →
  is_Some (slot_leader_excluding snapshot h parent k excluded).
Proof.
  intros Hwf Hst (v&Hv&Hx). unfold slot_leader_excluding.
  set (cs := filter _ _). assert (v ∈ cs) as Hvc by (by apply list_elem_of_filter).
  rewrite bool_decide_eq_false_2 by (intros E; rewrite E in Hvc; by apply not_elem_of_nil in Hvc).
  assert (stakes_wf cs) as Hcs by (by apply stakes_wf_filter).
  assert (0 < total_stake_of cs).
  { apply total_stake_positive; [done|by apply Forall_list_filter|].
    intros E. rewrite E in Hvc. by apply not_elem_of_nil in Hvc. }
  rewrite (proj2 (Z.eqb_neq _ _)) by lia.
  destruct (weighted_pick _ _) as [w|]; [by eexists|].
  apply fmap_is_Some. destruct (last cs) eqn:E; [by eexists|].
  apply last_None in E. rewrite E in Hvc. by apply not_elem_of_nil in Hvc.
Qed.

Lemma leader_seq_elem n k excluded a :
  a ∈ leader_seq n k excluded → a ∈ vd_address <$> es_validators snapshot ∧ a ∉ excluded.
Proof.
  revert k excluded. induction n as [|n IH]; intros k excluded; simpl; [by intros ?%not_elem_of_nil|].
  destruct (slot_leader_excluding _ _ _ _ _) as [b|] eqn:E; [|by intros ?%not_elem_of_nil].
  intros [->|Ha]%elem_of_cons; [by eapply slot_leader_excluding_spec|].
  apply IH in Ha. set_solver.
Qed.

Lemma leader_seq_NoDup n k excluded : NoDup (leader_seq n k excluded).
Proof.
  revert k excluded. induction n as [|n IH]; intros k excluded; simpl; [constructor|].
  destruct (slot_leader_excluding _ _ _ _ _) as [b|]; constructor; [|done].
  intros Hb%leader_seq_elem. set_solver.
Qed.

(** With every validator staked, the loop only stops when all have led. *)
Lemma leader_seq_length n k excluded :
  stakes_wf (es_validators snapshot) → all_staked (es_validators snapshot) →
  length (leader_seq n k excluded) = n ∨
  (∀ v, v ∈ es_validators snapshot → vd_address v ∈ leader_seq n k excluded ∨ vd_address v ∈ excluded).
Proof.
  intros Hwf Hst. revert k excluded. induction n as [|n IH]; intros k excluded; simpl; [by left|].
  destruct (slot_leader_excluding snapshot h parent k excluded) as [a|] eqn:E.
  - destruct (IH (k + 1) ({[a]} ∪ excluded)) as [Hl|Hall]; [left; simpl; by f_equal|right].
    intros v Hv. apply Hall in Hv. set_solver.
  - right. intros v Hv. right. destruct (decide (vd_address v ∈ excluded)) as [|Hn]; [done|].
    destruct (slot_leader_excluding_some k excluded Hwf Hst) as [? Hs]; [eauto|congruence].
Qed.

Lemma leader_seq_permutation n :
  stakes_wf (es_validators snapshot) → all_staked (es_validators snapshot) →
  NoDup (vd_address <$> es_validators snapshot) → (length (es_validators snapshot) ≤ n)%nat →
  leader_seq n 0 ∅ ≡ₚ vd_address <$> es_validators snapshot.
Proof.
  intros Hwf Hst Hnd Hn. pose proof (leader_seq_NoDup n 0 ∅) as Hnd'.
  assert (leader_seq n 0 ∅ ⊆ vd_address <$> es_validators snapshot) as Hsub.
  { intros a Ha. by apply leader_seq_elem in Ha as [? _]. }
  destruct (leader_seq_length n 0 ∅ Hwf Hst) as [Hl|Hall].
  - apply submseteq_length_Permutation; [by apply NoDup_submseteq|]. rewrite length_fmap. lia.
  - apply NoDup_Permutation; [done..|]. intros a. split; [apply Hsub|].
    intros (v&->&Hv)%list_elem_of_fmap. destruct (Hall v Hv); set_solver.
Qed.

Lemma slot_leader_at_rank_seq rank n :
  (rank < n)%nat → slot_leader_at_rank snapshot h parent (Z.of_nat rank) =
    last (take (S rank) (leader_seq n 0 ∅)).
Proof.
  intros Hr. unfold slot_leader_at_rank. case_bool_decide as Hv.
  - destruct n as [|n]; [lia|]. simpl. unfold slot_leader_excluding. by rewrite Hv.
  - rewrite leader_loop_seq, Nat2Z.id, (leader_seq_take (S rank) n) by lia.
    by destruct (last _).
Qed.
End schedule.

(** ** The active set *)

Lemma validator_of_account_spec pos a acc v :
  validator_of_account pos (a, acc) = Some v ↔
    vd_address v = a ∧ ac_public_key acc = Some (vd_public_key v) ∧
    vd_stake v = staked_balance acc ∧ pos_minimum_stake pos ≤ staked_balance acc ∧
    validator_active_from_height acc ≤ pos_current_height pos ∧
    jailed_until_height acc ≤ pos_current_height pos ∧ a ∉ slashed_validators pos.
Proof.
  unfold validator_of_account. destruct (ac_public_key acc) as [pk|]; simpl; [|naive_solver].
  split.
  - repeat case_match; try done. intros [= <-]. bool_to_prop. simpl. split_and!; auto with lia.
  - intros (<-&[= ->]&Hs&Hm&Ha&Hj&Hn).
    rewrite (proj2 (Z.ltb_ge _ _) Hm), (proj2 (Z.ltb_ge _ _) Ha), (proj2 (Z.ltb_ge _ _) Hj),
      bool_decide_eq_false_2 by done.
    destruct v; simpl in *. by subst.
Qed.

Lemma active_validators_iter_perm pos entries : active_validators_iter pos entries ≡ₚ
  omap (validator_of_account pos) entries.
Proof. apply merge_sort_Permutation. Qed.

Lemma elem_of_active_validators pos accounts v :
  v ∈ active_validators pos accounts ↔
    ∃ acc, accounts !! vd_address v = Some acc ∧
      validator_of_account pos (vd_address v, acc) = Some v.
Proof.
  unfold active_validators. rewrite active_validators_iter_perm, list_elem_of_omap. split.
  - intros ([a acc]&Hin&Hv). apply elem_of_map_to_list in Hin.
    pose proof Hv as [-> _]%validator_of_account_spec. by exists acc.
  - intros (acc&Hl&Hv). exists (vd_address v, acc). by rewrite elem_of_map_to_list.
Qed.

Lemma active_addresses_sublist pos entries :
  vd_address <$> omap (validator_of_account pos) entries `sublist_of` entries.*1.
Proof.
  induction entries as [|[a acc] es IH]; [done|]. cbn [omap list_omap].
  destruct (validator_of_account pos (a, acc)) as [v|] eqn:E; rewrite ?fmap_cons.
  - apply validator_of_account_spec in E as [-> _]. by constructor.
  - by constructor.
Qed.

Lemma NoDup_active_addresses pos entries :
  NoDup entries.*1 → NoDup (vd_address <$> active_validators_iter pos entries).
Proof.
  intros Hnd. rewrite active_validators_iter_perm.
  eapply sublist_NoDup; [|apply active_addresses_sublist]. done.
Qed.

(** ** Counting tickets *)

(** The number of tickets below [n] that select [v]. *)
Definition tickets_of (vs : list Validator) (v : Validator) : list Z :=
  filter (λ s, weighted_pick vs s = Some v) (seqZ 0 (sumZ (vd_stake <$> vs))).

Lemma tickets_of_cons w vs v :
  stakes_wf (w :: vs) →
  length (tickets_of (w :: vs) v) =
    ((if decide (w = v) then Z.to_nat (vd_stake w) else 0) + length (tickets_of vs v))%nat.
Proof.
  intros Hwf. pose proof Hwf as [Hw Hvs]%stakes_wf_cons.
  pose proof (stakes_sum_nonneg vs (proj1 Hvs)) as Hn. destruct Hwf as [_ Hmax].
  unfold tickets_of. rewrite fmap_cons in *. simpl sumZ in *.
  rewrite seqZ_app, filter_app, length_app by lia. f_equal.
  - assert (∀ s, s ∈ seqZ 0 (vd_stake w) → weighted_pick (w :: vs) s = Some w) as Hall.
    { intros s [_ Hs]%elem_of_seqZ. simpl. by rewrite (proj2 (Z.ltb_lt s _)) by lia. }
    case_decide as Hd.
    + subst v. by rewrite length_filter_all, length_seqZ.
    + rewrite length_filter_none; [done|]. intros s Hs. rewrite (Hall s Hs). congruence.
  - rewrite Z.add_0_l, <- (Z.add_0_r (vd_stake w)) at 1. rewrite <- fmap_add_seqZ.
    apply length_filter_ext. intros s [Hs1 Hs2]%elem_of_seqZ.
    rewrite weighted_pick_skip by (u64_lia || lia). by rewrite Z.add_simpl_l.
Qed.

(** Running the model on examples: three validators with stakes 5, 3 and 2. *)
Definition demo_validators : list Validator :=
  [mkValidator [x01] [xa1] 5; mkValidator [x02] [xa2] 3; mkValidator [x03] [xa3] 2].
Definition demo_epoch : EpochSnapshot := mkSnapshot 1 32 demo_validators 10.

#[global] Instance stakes_wf_dec vs : Decision (stakes_wf vs).
Proof. unfold stakes_wf. apply _. Defined.
#[global] Instance all_staked_dec vs : Decision (all_staked vs).
Proof. unfold all_staked. apply _. Defined.

Definition demo_pos : ProofOfStake := mkPoS 3 ∅ 1.
Definition demo_staked (pk : bytes) (stake : Z) : AccountState :=
  mkAccount 0 0 stake [] 1 0 (Some pk).
Definition demo_validator_accounts : accounts_map :=
  <[[x02] := demo_staked [xa2] 3]> (<[[x01] := demo_staked [xa1] 5]>
    {[ [x03] := demo_staked [xa3] 2 ]}).

(** ** Properties *)

(** The active set is a function of the ledger. Whatever order the
    [HashMap] of accounts is iterated in, [active_validators] returns the same
    list: sorted by address without repetition, it holds exactly the accounts
    with a public key, at least the minimum stake, activated and not jailed at
    the current height, and never slashed. *)
Theorem active_validators_spec (pos : ProofOfStake) (accounts : accounts_map)
    (entries : list (bytes * AccountState)) :
  entries ≡ₚ map_to_list accounts →
  active_validators_iter pos entries = active_validators pos accounts ∧
  Sorted address_le (active_validators pos accounts) ∧
  NoDup (vd_address <$> active_validators pos accounts) ∧
  ∀ v, v ∈ active_validators pos accounts ↔
    ∃ acc, accounts !! vd_address v = Some acc ∧
      ac_public_key acc = Some (vd_public_key v) ∧ vd_stake v = staked_balance acc ∧
      pos_minimum_stake pos ≤ staked_balance acc ∧
      validator_active_from_height acc ≤ pos_current_height pos ∧
      jailed_until_height acc ≤ pos_current_height pos ∧
      vd_address v ∉ slashed_validators pos.
Proof.
  intros Hp. assert (NoDup (vd_address <$> active_validators pos accounts)) as Hnd
    by apply NoDup_active_addresses, NoDup_fst_map_to_list.
  split_and!; [|by apply Sorted_merge_sort, _|done|].
  - apply (StronglySorted_unique_strong address_le).
    + intros v w Hv Hw H1 H2. pose proof (anti_symm bytes_le _ _ H1 H2) as Ha.
      assert (active_validators_iter pos entries ≡ₚ active_validators pos accounts) as Hperm
        by (unfold active_validators; by rewrite !active_validators_iter_perm, Hp).
      rewrite Hperm in Hv, Hw. apply elem_of_active_validators in Hv as (a&Hla&Hva).
      apply elem_of_active_validators in Hw as (b&Hlb&Hvb). congruence.
    + by apply (StronglySorted_merge_sort address_le).
    + by apply (StronglySorted_merge_sort address_le).
    + unfold active_validators. by rewrite !active_validators_iter_perm, Hp.
  - intros v. rewrite elem_of_active_validators. setoid_rewrite validator_of_account_spec.
    naive_solver.
Qed.

Lemma active_validators_spec_witness :
  active_validators_iter demo_pos
    [([x03], demo_staked [xa3] 2); ([x02], demo_staked [xa2] 3); ([x01], demo_staked [xa1] 5)] =
  active_validators demo_pos demo_validator_accounts.
Proof.
  refine (proj1 (active_validators_spec demo_pos demo_validator_accounts _ _)).
  vm_decide.
Defined.

(** Selection is proportional to stake. Of the tickets below the total
    stake, a validator of the set is selected by exactly as many as it has
    stake. *)
Theorem selection_proportional (vs : list Validator) (v : Validator) :
  stakes_wf vs → NoDup vs → v ∈ vs →
  Z.of_nat (length (tickets_of vs v)) = vd_stake v.
Proof.
  intros Hwf Hnd Hv.
  assert (∀ ws, stakes_wf ws → v ∉ ws → length (tickets_of ws v) = 0%nat) as Hout.
  { intros ws _ Hn. apply length_filter_none. intros s _ Hp%weighted_pick_elem. done. }
  induction Hnd as [|w vs Hw Hnd IH]; [by apply not_elem_of_nil in Hv|].
  rewrite tickets_of_cons by done. pose proof Hwf as [Hs Hwf']%stakes_wf_cons.
  apply elem_of_cons in Hv as [->|Hv].
  - rewrite decide_True, Hout by done. lia.
  - rewrite decide_False by (by intros ->). by apply IH.
Qed.

Lemma selection_proportional_witness :
  Z.of_nat (length (tickets_of demo_validators (mkValidator [x02] [xa2] 3))) = 3.
Proof.
  apply (selection_proportional demo_validators (mkValidator [x02] [xa2] 3)); vm_decide.
Defined.

(** The schedule of a slot. When every validator of the snapshot has stake
    and the stakes do not overflow, the leaders of ranks [0..n-1] of a slot are
    the [n] validators in some order, each once, and every higher rank repeats
    the last of them: the schedule never runs out. *)
Theorem leader_schedule_complete `{Sha3} (snapshot : EpochSnapshot) (h : Z) (parent : bytes) :
  let vs := es_validators snapshot in
  stakes_wf vs → all_staked vs → NoDup (vd_address <$> vs) → vs ≠ [] →
  ∃ schedule, schedule ≡ₚ vd_address <$> vs ∧
    ∀ rank : nat, slot_leader_at_rank snapshot h parent (Z.of_nat rank) =
      schedule !! Nat.min rank (length vs - 1).
Proof.
  intros vs Hwf Hst Hnd Hne. exists (leader_seq snapshot h parent (length vs) 0 ∅).
  assert (∀ n, (length vs ≤ n)%nat → leader_seq snapshot h parent n 0 ∅ ≡ₚ vd_address <$> vs)
    as Hperm by (intros; by apply leader_seq_permutation).
  split; [by apply Hperm|]. intros rank.
  rewrite (slot_leader_at_rank_seq _ _ _ rank (S rank + length vs)) by lia.
  assert (length vs ≠ 0)%nat by (by destruct vs).
  rewrite (leader_seq_take _ _ _ (length vs) (S rank + length vs)) by lia.
  set (l := leader_seq snapshot h parent (S rank + length vs) 0 ∅).
  assert (length l = length vs) as Hl.
  { unfold l. rewrite (Hperm (S rank + length vs)%nat) by lia. by rewrite length_fmap. }
  rewrite (take_ge l (length vs)) by lia.
  rewrite last_lookup, length_take, lookup_take_lt by lia. f_equal. lia.
Qed.

Lemma leader_schedule_complete_witness :
  ∃ schedule, schedule ≡ₚ [[x01]; [x02]; [x03]] ∧
    ∀ rank : nat, @slot_leader_at_rank demo_sha3 demo_epoch 33 [] (Z.of_nat rank) =
      schedule !! Nat.min rank 2.
Proof.
  apply (@leader_schedule_complete demo_sha3 demo_epoch 33 []); [vm_decide..|done].
Defined.

(** Selection from a snapshot or from the live accounts never fails on a
    well-formed set that has stake, and elects a member that has stake. *)
Theorem select_validator_total `{Sha3} (snapshot : EpochSnapshot) (h : Z) (prev : bytes) :
  stakes_wf (es_validators snapshot) →
  match select_validator_from_snapshot snapshot h prev with
  | Some v => v ∈ es_validators snapshot ∧ 0 < vd_stake v
  | None => total_stake_of (es_validators snapshot) = 0
  end.
Proof.
  intros Hwf. unfold select_validator_from_snapshot. case_bool_decide as He; [by rewrite He|].
  destruct (Z.eqb_spec (total_stake_of (es_validators snapshot)) 0) as [|Ht]; [done|].
  pose proof (total_stake_nonneg (es_validators snapshot)).
  destruct (weighted_pick_mod (es_validators snapshot) (selection_seed h prev) Hwf)
    as (v&->&Hv&Hs); [lia|done].
Qed.

Lemma select_validator_total_witness :
  match @select_validator_from_snapshot demo_sha3 demo_epoch 33 [] with
  | Some v => v ∈ es_validators demo_epoch ∧ 0 < vd_stake v
  | None => total_stake_of (es_validators demo_epoch) = 0
  end.
Proof. apply (@select_validator_total demo_sha3 demo_epoch 33 []). vm_decide. Defined.

(** The window of backup leaders. For [i64] timestamps, the allowed rank is
    the number of whole 30-second timeouts since the parent, capped at the last
    validator: it is zero until the first timeout, never out of range and
    monotone in the block's timestamp. *)
Theorem allowed_backup_rank_spec (parent block n : Z) :
  let i64 t := -9223372036854775808 ≤ t ≤ 9223372036854775807 in
  i64 parent → i64 block → 0 ≤ n ≤ 4294967296 →
  allowed_backup_rank parent block n =
    Z.max 0 (Z.min ((block - parent) / BACKUP_LEADER_TIMEOUT_SECS) (n - 1)).
Proof.
  intros i64 Hp Hb Hn. unfold i64 in *. unfold allowed_backup_rank, BACKUP_LEADER_TIMEOUT_SECS.
  destruct (Z.leb_spec n 1); simpl.
  { lia. }
  destruct (Z.leb_spec block parent); [Z.to_euclidean_division_equations; lia|].
  rewrite wrap64_id by u64_lia.
  destruct (Z.ltb_spec (block - parent) 30); [Z.to_euclidean_division_equations; lia|].
  unfold saturating_sub. rewrite Z.mod_small; Z.to_euclidean_division_equations; lia.
Qed.

Lemma allowed_backup_rank_spec_witness :
  allowed_backup_rank 1000 1075 4 = 2.
Proof. rewrite (allowed_backup_rank_spec 1000 1075 4) by lia. reflexivity. Defined.
