(* ===== verification/Slashing.v ===== *)
(** * Equivocation evidence and slashing ([src/consensus/mod.rs])

    Verification of double-signing evidence, the evidence the network handler
    assembles from two conflicting blocks, and the slashing of the offender. *)
From S2P Require Import Prelude Hash Crypto Vm Transaction Block Account Validators.

Definition EQUIVOCATION_SLASH_PERCENT : Z := 33.

(** ** Equivocation evidence and slashing *)

Record EquivocationEvidence := mkEvidence {
  ev_height : Z;
  ev_validator_public_key : bytes;
  block_header_a : BlockHeader;
  block_hash_a : bytes;
  signature_a : Signature;
  block_header_b : BlockHeader;
  block_hash_b : bytes;
  signature_b : Signature;
}.

Inductive SlashingError := InvalidEvidence | AlreadySlashed | ValidatorNotFound.

#[global] Instance SlashingError_eq_dec : EqDecision SlashingError.
Proof. solve_decision. Defined.

(** [EquivocationEvidence::key]. *)
Definition evidence_key (ev : EquivocationEvidence) : bytes :=
  to_be_bytes 8 (ev_height ev) ++ ev_validator_public_key ev.

Section evidence.
Context `{Sha3} `{MlDsa} `{!Bincode BlockHeader}.

(** [EquivocationEvidence::verify]. *)
Definition evidence_verify (ev : EquivocationEvidence) : bool :=
  if bool_decide (block_hash_a ev = block_hash_b ev) then false
  else if negb (height (block_header_a ev) =? ev_height ev) ||
          negb (height (block_header_b ev) =? ev_height ev) then false
  else if negb (bool_decide (validator_public_key (block_header_a ev) = ev_validator_public_key ev))
       || negb (bool_decide (validator_public_key (block_header_b ev) = ev_validator_public_key ev))
  then false
  else if negb (bool_decide (compute_hash (block_header_a ev) = block_hash_a ev)) ||
          negb (bool_decide (compute_hash (block_header_b ev) = block_hash_b ev)) then false
  else
    let sig_a_ok :=
      dilithium_verify (block_hash_a ev) (signature_a ev) (ev_validator_public_key ev) in
    let sig_b_ok :=
      dilithium_verify (block_hash_b ev) (signature_b ev) (ev_validator_public_key ev) in
    sig_a_ok && sig_b_ok.

(** The evidence the network handler builds when a received block [theirs]
    conflicts with the stored block [ours] of the same height
    ([NetworkNode::handle_new_block]). *)
Definition network_evidence (ours theirs : Block) : option EquivocationEvidence :=
  if bool_decide (validator_public_key (header ours) = validator_public_key (header theirs)) &&
     negb (bool_decide (block_hash ours = block_hash theirs))
  then
    sig_a ← signature ours;
    sig_b ← signature theirs;
    Some (mkEvidence (height (header theirs)) (validator_public_key (header theirs))
      (header ours) (block_hash ours) sig_a (header theirs) (block_hash theirs) sig_b)
  else None.

Definition slash_account (current_height jail : Z) (a : AccountState) : Z * AccountState :=
  let penalty := saturating_mul (staked_balance a) EQUIVOCATION_SLASH_PERCENT / 100 in
  (penalty,
   set_jailed_until (saturating_add current_height jail)
     (set_staked (saturating_sub (staked_balance a) penalty) a)).

(** [ProofOfStake::slash_with_evidence]. *)
Definition slash_with_evidence (pos : ProofOfStake) (accounts : accounts_map)
    (ev : EquivocationEvidence) (jail_duration_blocks : Z)
    : result SlashingError (Z * ProofOfStake * accounts_map) :=
  if negb (evidence_verify ev) then Err InvalidEvidence
  else
    let address := address_bytes_from_public_key (ev_validator_public_key ev) in
    if bool_decide (address ∈ slashed_validators pos) then Err AlreadySlashed
    else
      account ← ok_or ValidatorNotFound (accounts !! address);
      let '(penalty, account') :=
        slash_account (pos_current_height pos) jail_duration_blocks account in
      Ok (penalty,
          mkPoS (pos_minimum_stake pos) ({[ address ]} ∪ slashed_validators pos)
            (pos_current_height pos),
          <[address := account']> accounts).
End evidence.

(** ** Lemmas on evidence *)

Section evidence_lemmas.
Context `{Sha3} `{MlDsa} `{!Bincode BlockHeader}.

Lemma evidence_verify_signatures ev :
  evidence_verify ev = true →
  length (block_hash_a ev) = 32%nat ∧
  dilithium_verify (block_hash_a ev) (signature_a ev) (ev_validator_public_key ev) = true ∧
  dilithium_verify (block_hash_b ev) (signature_b ev) (ev_validator_public_key ev) = true.
Proof.
  unfold evidence_verify. do 4 (case_match; [done|]). intros Hs.
  repeat match goal with H : _ || _ = false |- _ => apply orb_false_iff in H as [? ?] end.
  bool_to_prop. split_and!; [|done..].
  match goal with H : compute_hash _ = block_hash_a ev |- _ => rewrite <- H end.
  apply length_compute_hash.
Qed.

Lemma slash_with_evidence_ok pos accounts ev jail penalty pos' accounts' :
  slash_with_evidence pos accounts ev jail = Ok (penalty, pos', accounts') →
  let address := address_bytes_from_public_key (ev_validator_public_key ev) in
  evidence_verify ev = true ∧ (address ∉ slashed_validators pos) ∧
  ∃ a, accounts !! address = Some a ∧
    penalty = saturating_mul (staked_balance a) EQUIVOCATION_SLASH_PERCENT / 100 ∧
    accounts' = <[address := (slash_account (pos_current_height pos) jail a).2]> accounts ∧
    pos' = mkPoS (pos_minimum_stake pos) ({[ address ]} ∪ slashed_validators pos)
             (pos_current_height pos).
Proof.
  intros Hok address. unfold slash_with_evidence in Hok. fold address in Hok.
  destruct (evidence_verify ev); [|done]. simpl in Hok.
  case_bool_decide; [done|]. destruct (accounts !! address) as [a|]; [|done].
  simpl in Hok. injection Hok as <- <- <-. eauto 10.
Qed.
End evidence_lemmas.

(** ** Properties *)

(** Evidence made of signed blocks is always rejected. [Block::new] signs
    the domain-separated hash, [EquivocationEvidence::verify] checks the
    signatures against the raw hash: for two blocks that pass their own
    signature check, the evidence the network handler assembles is
    [InvalidEvidence], so a double signer is never slashed. *)
Theorem signed_block_evidence_rejected `{Sha3} `{MlDsa} `{!Bincode BlockHeader}
    (ours theirs : Block) (ev : EquivocationEvidence) (pos : ProofOfStake)
    (accounts : accounts_map) (jail : Z) :
  message_binding 52 → height (header ours) ≠ 0 →
  block_verify_signature ours = true → block_verify_signature theirs = true →
  network_evidence ours theirs = Some ev →
  evidence_verify ev = false ∧ slash_with_evidence pos accounts ev jail = Err InvalidEvidence.
Proof.
  intros Hb Hh Hours _ Hev. cut (evidence_verify ev = false).
  { intros Hf. split; [done|]. unfold slash_with_evidence. by rewrite Hf. }
  destruct (evidence_verify ev) eqn:Hver; [|done]. exfalso.
  apply evidence_verify_signatures in Hver as (Hlen&Hsa&_).
  unfold network_evidence in Hev. destruct (_ && _) eqn:Hc; [|done].
  apply andb_true_iff in Hc as [Hpk%bool_decide_eq_true _].
  apply (block_verify_signature_spec ours Hh) in Hours as (sig&Hsig&Hd).
  rewrite Hsig in Hev. destruct (signature theirs) as [sig'|]; [|done].
  simpl in Hev. injection Hev as <-. cbn [block_hash_a signature_a ev_validator_public_key] in *.
  rewrite <- Hpk in Hsa. pose proof (length_signable_block_hash (block_hash ours)) as Hl.
  assert (signable_block_hash (block_hash ours) = block_hash ours) as He
    by (eapply (Hb _ _ sig); [lia..|exact Hd|exact Hsa]).
  rewrite He in Hl. lia.
Qed.

Definition demo_signed_block (n ts : Z) : Block :=
  let hd := mkHeader 1 n ts (replicate 32 x01) (replicate 32 x02) (replicate 32 x03) 0 1
              (public_key (demo_keypair 7)) 0 in
  let hash := @compute_hash demo_sha3 demo_bincode_header hd in
  mkBlock hd [] hash (Some (mkSignature (demo_signature (demo_seed 7) (signable_block_hash hash)))).

Lemma demo_signed_verifies :
  @block_verify_signature demo_mldsa (demo_signed_block 5 100) = true ∧
  @block_verify_signature demo_mldsa (demo_signed_block 5 200) = true.
Proof. split; vm_compute; reflexivity. Qed.

Lemma demo_signed_height n ts : n ≠ 0 → height (header (demo_signed_block n ts)) ≠ 0.
Proof. done. Qed.

Lemma demo_binding_52 : @message_binding demo_mldsa 52.
Proof. intros m m' sig pk Hm Hm'. apply demo_message_binding; lia. Qed.

Lemma demo_network_evidence :
  ∃ ev, network_evidence (demo_signed_block 5 100) (demo_signed_block 5 200) = Some ev.
Proof.
  apply (bool_decide_eq_true_1 (is_Some (network_evidence (demo_signed_block 5 100)
    (demo_signed_block 5 200)))).
  vm_compute. reflexivity.
Qed.

Lemma signed_block_evidence_rejected_witness :
  ∃ ev, network_evidence (demo_signed_block 5 100) (demo_signed_block 5 200) = Some ev ∧
    @evidence_verify demo_sha3 demo_mldsa demo_bincode_header ev = false.
Proof.
  destruct demo_network_evidence as [ev Hev]. exists ev. split; [exact Hev|].
  exact (proj1 (@signed_block_evidence_rejected demo_sha3 demo_mldsa demo_bincode_header
    (demo_signed_block 5 100) (demo_signed_block 5 200) ev demo_pos ∅ 64 demo_binding_52
    (demo_signed_height 5 100 ltac:(discriminate)) (proj1 demo_signed_verifies)
    (proj2 demo_signed_verifies) Hev)).
Defined.

(** Slashing happens once and is permanent. Accepted evidence burns a third
    (33 percent, rounded down) of the offender's stake, jails it from the
    current height and touches no other account; the same key can never be
    slashed again, and no later validator set of the same configuration
    contains it, whatever happens to the accounts. *)
Theorem slash_spec `{Sha3} `{MlDsa} `{!Bincode BlockHeader} (pos pos' : ProofOfStake)
    (accounts accounts' : accounts_map) (ev : EquivocationEvidence) (jail penalty : Z) :
  accounts_wf accounts →
  slash_with_evidence pos accounts ev jail = Ok (penalty, pos', accounts') →
  let address := address_bytes_from_public_key (ev_validator_public_key ev) in
  let before := get_account accounts address in
  (staked_balance before * 33 ≤ u64_max → penalty = staked_balance before * 33 / 100) ∧
  0 ≤ penalty ≤ staked_balance before ∧
  accounts' = <[address :=
    set_jailed_until (saturating_add (pos_current_height pos) jail)
      (set_staked (staked_balance before - penalty) before)]> accounts ∧
  (∀ ev' accounts2 jail2, ev_validator_public_key ev' = ev_validator_public_key ev →
     evidence_verify ev' = true →
     slash_with_evidence pos' accounts2 ev' jail2 = Err AlreadySlashed) ∧
  (∀ accounts2 h, address ∉ vd_address <$>
     active_validators (mkPoS (pos_minimum_stake pos') (slashed_validators pos') h) accounts2).
Proof.
  intros Hwf Hok address before. apply slash_with_evidence_ok in Hok as (Hv&Hn&a&Ha&->&->&->).
  assert (before = a) as -> by (unfold before, get_account, address; by rewrite Ha).
  destruct (Hwf _ _ Ha) as (_&_&Hs&_). unfold EQUIVOCATION_SLASH_PERCENT.
  assert (0 ≤ saturating_mul (staked_balance a) 33 / 100 ≤ staked_balance a) as Hp.
  { unfold saturating_mul, is_u64, u64_max in *. Z.to_euclidean_division_equations; lia. }
  split_and!; [|lia|lia| | |].
  - intros. unfold saturating_mul. by rewrite Z.min_l by lia.
  - unfold slash_account. simpl. do 3 f_equal. unfold saturating_sub, EQUIVOCATION_SLASH_PERCENT. lia.
  - intros ev' accounts2 jail2 Hk Hv'. unfold slash_with_evidence. rewrite Hv', Hk. simpl.
    by rewrite bool_decide_eq_true_2 by set_solver.
  - intros accounts2 h (v&Hav&Hin)%list_elem_of_fmap.
    apply elem_of_active_validators in Hin as (acc&_&Hacc).
    apply validator_of_account_spec in Hacc as (_&_&_&_&_&_&Hns). simpl in Hns.
    rewrite <- Hav in Hns. set_solver.
Qed.

(** Evidence over raw hashes, which only a signer outside the node produces. *)
Definition demo_raw_evidence : EquivocationEvidence :=
  let a := demo_signed_block 5 100 in
  let b := demo_signed_block 5 200 in
  mkEvidence 5 (public_key (demo_keypair 7))
    (header a) (block_hash a) (mkSignature (demo_signature (demo_seed 7) (block_hash a)))
    (header b) (block_hash b) (mkSignature (demo_signature (demo_seed 7) (block_hash b))).
Definition demo_offender : bytes :=
  @address_bytes_from_public_key demo_sha3 (public_key (demo_keypair 7)).
Definition demo_offender_account : AccountState := demo_staked (public_key (demo_keypair 7)) 1000.
Definition demo_offender_accounts : accounts_map := {[ demo_offender := demo_offender_account ]}.
Abbreviation demo_slashed :=
  (@slash_with_evidence demo_sha3 demo_mldsa demo_bincode_header demo_pos
    demo_offender_accounts demo_raw_evidence 64).

Lemma demo_evidence_address :
  @address_bytes_from_public_key demo_sha3 (ev_validator_public_key demo_raw_evidence) = demo_offender.
Proof. by vm_compute. Qed.

Lemma demo_offender_accounts_wf : accounts_wf demo_offender_accounts.
Proof.
  intros k a [_ <-]%(lookup_singleton_Some (M:=gmap bytes) demo_offender k demo_offender_account a).
  repeat split; simpl; try u64_lia. constructor.
Qed.

Lemma demo_offender_before : get_account demo_offender_accounts demo_offender = demo_offender_account.
Proof. unfold get_account, demo_offender_accounts. by rewrite lookup_singleton_eq. Qed.

Lemma demo_slashed_ok : ∃ penalty pos' accounts', demo_slashed = Ok (penalty, pos', accounts').
Proof.
  pose proof (is_ok_unwrap demo_slashed (0, demo_pos, ∅)) as Hok.
  destruct (unwrap_or _ demo_slashed) as [[penalty pos'] accounts'].
  exists penalty, pos', accounts'. apply Hok. vm_compute. reflexivity.
Qed.

Lemma slash_spec_witness :
  ∃ penalty pos' accounts', demo_slashed = Ok (penalty, pos', accounts') ∧ penalty = 1000 * 33 / 100.
Proof.
  destruct demo_slashed_ok as (penalty&pos'&accounts'&Hok).
  exists penalty, pos', accounts'. split; [exact Hok|].
  destruct (@slash_spec demo_sha3 demo_mldsa demo_bincode_header demo_pos pos'
    demo_offender_accounts accounts' demo_raw_evidence 64 penalty demo_offender_accounts_wf Hok)
    as [Hp _].
  cbv zeta in Hp.
  rewrite demo_evidence_address, demo_offender_before in Hp. apply Hp. vm_compute. discriminate.
Defined.
