(* ===== verification/Finality.v ===== *)
(** * Finality ([src/consensus/mod.rs])

    Finality votes and the tracker that counts them against an epoch's
    validator snapshot. *)
From S2P Require Import Prelude Hash Crypto Vm Transaction Block Account Validators.

(** ** Finality *)

Record FinalityVote := mkVote {
  fv_block_hash : bytes;
  fv_block_height : Z;
  fv_epoch : Z;
  voter_public_key : bytes;
  fv_signature : Signature;
}.

Record FinalizedBlock := mkFinalized { fb_hash : bytes; fb_height : Z }.

#[global] Instance FinalizedBlock_eq_dec : EqDecision FinalizedBlock.
Proof. solve_decision. Defined.

Record FinalityTracker := mkTracker {
  votes : gmap bytes (list FinalityVote);
  seen_votes : gset (bytes * Z);
  finalized_height : Z;
  finalized_hash : bytes;
}.

(** [FinalityTracker::new] and [FinalityTracker::with_finalized]. *)
Definition with_finalized (h : Z) (hash : bytes) : FinalityTracker := mkTracker ∅ ∅ h hash.
Definition tracker_new : FinalityTracker := with_finalized 0 [].

(** The map [validator_stakes] collected from the snapshot: a repeated key
    keeps the last stake. *)
Definition validator_stakes (snapshot : EpochSnapshot) : gmap bytes Z :=
  foldl (λ m v, <[vd_public_key v := vd_stake v]> m) ∅ (es_validators snapshot).

Section finality.
Context `{MlDsa}.

(** [FinalityVote::signable_data]. *)
Definition vote_signable_data (hash : bytes) (h epoch : Z) : bytes :=
  bstr "curs3d-finality-vote-v1:" ++ hash ++ to_le_bytes 8 h ++ to_le_bytes 8 epoch.

(** [FinalityVote::new]; [None] is the panic of [KeyPair::sign]. *)
Definition vote_new (hash : bytes) (h epoch : Z) (kp : KeyPair) : option FinalityVote :=
  sig ← keypair_sign kp (vote_signable_data hash h epoch);
  Some (mkVote hash h epoch (public_key kp) sig).

(** [FinalityVote::verify]. *)
Definition vote_verify (v : FinalityVote) : bool :=
  dilithium_verify (vote_signable_data (fv_block_hash v) (fv_block_height v) (fv_epoch v))
    (fv_signature v) (voter_public_key v).

(** The stake that voted for a block, summed over the recorded votes. *)
Definition voted_stake_for (stakes : gmap bytes Z) (vs : list FinalityVote) : Z :=
  sum64 (omap (λ v, stakes !! voter_public_key v) vs).

Definition first_vote_above (h : Z) (vs : list FinalityVote) : bool :=
  match vs with f :: _ => h <? fv_block_height f | [] => false end.

(** The state after the block reached the threshold, with old votes pruned. *)
Definition finalize (t : FinalityTracker) (hash : bytes) (h : Z) : FinalityTracker :=
  mkTracker
    (filter (λ kv, first_vote_above h kv.2 = true) (votes t))
    (filter (λ k, h < k.2) (seen_votes t)) h hash.

(** The voter is marked as seen at the height and the block's votes stored. *)
Definition record_votes (t : FinalityTracker) (vote : FinalityVote) (bucket : list FinalityVote)
    : FinalityTracker :=
  mkTracker (<[fv_block_hash vote := bucket]> (votes t))
    ({[ (voter_public_key vote, fv_block_height vote) ]} ∪ seen_votes t)
    (finalized_height t) (finalized_hash t).

(** [FinalityTracker::add_vote]. *)
Definition add_vote (t : FinalityTracker) (vote : FinalityVote) (snapshot : EpochSnapshot)
    : option FinalizedBlock * FinalityTracker :=
  if negb (vote_verify vote) then (None, t)
  else if negb (fv_epoch vote =? es_epoch snapshot) then (None, t)
  else if fv_block_height vote <=? finalized_height t then (None, t)
  else
    let stakes := validator_stakes snapshot in
    if negb (bool_decide (is_Some (stakes !! voter_public_key vote))) then (None, t)
    else
      let dedup_key := (voter_public_key vote, fv_block_height vote) in
      if bool_decide (dedup_key ∈ seen_votes t) then (None, t)
      else
        let bucket := default [] (votes t !! fv_block_hash vote) in
        if bool_decide (Exists (λ v, voter_public_key v = voter_public_key vote) bucket)
        then (None, record_votes t vote bucket)
        else
          let bucket := bucket ++ [vote] in
          let t := record_votes t vote bucket in
          let total_active_stake := es_total_stake snapshot in
          if total_active_stake =? 0 then (None, t)
          else if saturating_mul total_active_stake 2 <=?
                  saturating_mul (voted_stake_for stakes bucket) 3
          then (Some (mkFinalized (fv_block_hash vote) (fv_block_height vote)),
                finalize t (fv_block_hash vote) (fv_block_height vote))
          else (None, t).

(** One vote processed against some epoch's snapshot. *)
Inductive tracker_step : relation FinalityTracker :=
  | step_add_vote t vote snapshot : tracker_step t (add_vote t vote snapshot).2.

(** The votes recorded for a block are verified, for that block, from distinct
    voters. *)
Definition tracker_wf (t : FinalityTracker) : Prop :=
  ∀ hash vs, votes t !! hash = Some vs →
    NoDup (voter_public_key <$> vs) ∧
    Forall (λ v, vote_verify v = true ∧ fv_block_hash v = hash) vs.
End finality.

(** ** Lemmas on finality *)

Section finality_lemmas.
Context `{MlDsa}.

Lemma tracker_new_wf : tracker_wf tracker_new.
Proof. intros hash vs. simpl. by rewrite lookup_empty. Qed.

Lemma tracker_wf_bucket t hash :
  tracker_wf t → NoDup (voter_public_key <$> default [] (votes t !! hash)) ∧
    Forall (λ v, vote_verify v = true ∧ fv_block_hash v = hash) (default [] (votes t !! hash)).
Proof.
  intros Hwf. destruct (votes t !! hash) as [vs|] eqn:E; simpl; [by apply Hwf|].
  split; constructor.
Qed.

Lemma record_votes_wf t vote vs :
  tracker_wf t → NoDup (voter_public_key <$> vs) →
  Forall (λ v, vote_verify v = true ∧ fv_block_hash v = fv_block_hash vote) vs →
  tracker_wf (record_votes t vote vs).
Proof.
  intros Hwf Hnd Hall k ws. simpl. rewrite lookup_insert. case_decide; [|apply Hwf].
  intros [= <-]. by subst.
Qed.

Lemma finalize_wf t hash h : tracker_wf t → tracker_wf (finalize t hash h).
Proof.
  intros Hwf k vs Hk. apply Hwf. simpl in Hk. by apply map_lookup_filter_Some in Hk as [? _].
Qed.

(** The recorded votes after a fresh vote keep the invariant. *)
Lemma fresh_bucket t vote :
  tracker_wf t → vote_verify vote = true →
  ¬ Exists (λ v, voter_public_key v = voter_public_key vote)
      (default [] (votes t !! fv_block_hash vote)) →
  let bucket := default [] (votes t !! fv_block_hash vote) ++ [vote] in
  NoDup (voter_public_key <$> bucket) ∧
  Forall (λ v, vote_verify v = true ∧ fv_block_hash v = fv_block_hash vote) bucket.
Proof.
  intros Hwf Hv Hnew bucket. destruct (tracker_wf_bucket t (fv_block_hash vote) Hwf) as [Hnd Hall].
  split.
  - unfold bucket. rewrite fmap_app. apply NoDup_app. split; [done|]. split; [|apply NoDup_singleton].
    intros k (v&->&Hin)%list_elem_of_fmap Hk. simpl in Hk. apply list_elem_of_singleton in Hk.
    apply Hnew, Exists_exists. eauto.
  - unfold bucket. apply Forall_app. split; [done|]. by constructor.
Qed.

Lemma add_vote_wf t vote snapshot : tracker_wf t → tracker_wf (add_vote t vote snapshot).2.
Proof.
  intros Hwf. destruct (tracker_wf_bucket t (fv_block_hash vote) Hwf) as [Hnd Hall].
  unfold add_vote. destruct (negb (vote_verify vote)) eqn:Hv; [done|].
  destruct (negb (_ =? _)); [done|]. destruct (fv_block_height vote <=? _); [done|].
  destruct (negb (bool_decide _)); [done|]. case_bool_decide as Hseen; [done|].
  case_bool_decide as Hex; [by apply record_votes_wf|].
  apply negb_false_iff in Hv. destruct (fresh_bucket t vote Hwf Hv Hex) as [Hnd' Hall'].
  repeat case_match; simpl; [|apply finalize_wf|]; by apply record_votes_wf.
Qed.

Lemma rtc_tracker_wf t t' : rtc tracker_step t t' → tracker_wf t → tracker_wf t'.
Proof. induction 1 as [|? ? ? [? vote snapshot] _ IH]; [done|]. intros. by apply IH, add_vote_wf. Qed.

(** What a finalizing vote establishes. *)
Lemma add_vote_finalizes t vote snapshot fb t' :
  tracker_wf t → add_vote t vote snapshot = (Some fb, t') →
  let bucket := default [] (votes t !! fv_block_hash vote) ++ [vote] in
  NoDup (voter_public_key <$> bucket) ∧
  Forall (λ v, vote_verify v = true ∧ fv_block_hash v = fb_hash fb) bucket ∧
  es_total_stake snapshot ≠ 0 ∧
  saturating_mul (es_total_stake snapshot) 2 ≤
    saturating_mul (voted_stake_for (validator_stakes snapshot) bucket) 3 ∧
  fb = mkFinalized (fv_block_hash vote) (fv_block_height vote) ∧
  finalized_height t < fb_height fb ∧
  finalized_height t' = fb_height fb ∧ finalized_hash t' = fb_hash fb.
Proof.
  intros Hwf Hok bucket. unfold add_vote in Hok.
  destruct (negb (vote_verify vote)) eqn:Hv; [done|]. destruct (negb (_ =? _)); [done|].
  destruct (fv_block_height vote <=? _) eqn:Hh; [done|]. destruct (negb (bool_decide _)); [done|].
  case_bool_decide as Hseen; [done|]. case_bool_decide as Hex; [done|]. cbv zeta in Hok.
  destruct (es_total_stake snapshot =? 0) eqn:Hz; [done|].
  destruct (saturating_mul (es_total_stake snapshot) 2 <=? _) eqn:Hq; [|done].
  injection Hok as <- <-. bool_to_prop. destruct (fresh_bucket t vote Hwf Hv Hex) as [Hnd Hall].
  split_and!; simpl; done.
Qed.

(** The map of stakes, when the snapshot's keys are distinct. *)
Lemma validator_stakes_lookup snapshot pk :
  NoDup (vd_public_key <$> es_validators snapshot) →
  ∀ s, validator_stakes snapshot !! pk = Some s ↔
    ∃ v, v ∈ es_validators snapshot ∧ vd_public_key v = pk ∧ vd_stake v = s.
Proof.
  unfold validator_stakes. intros Hnd s.
  cut (∀ m : gmap bytes Z, (∀ v, v ∈ es_validators snapshot → m !! vd_public_key v = None) →
    foldl (λ m v, <[vd_public_key v := vd_stake v]> m) m (es_validators snapshot) !! pk = Some s ↔
    m !! pk = Some s ∨
    ∃ v, v ∈ es_validators snapshot ∧ vd_public_key v = pk ∧ vd_stake v = s).
  { intros Hc. rewrite Hc by (intros; apply lookup_empty). rewrite lookup_empty. naive_solver. }
  induction (es_validators snapshot) as [|v vs IH]; intros m Hm.
  { simpl. split; [by left|]. intros [?|(?&?%not_elem_of_nil&_)]; done. }
  rewrite fmap_cons in Hnd. apply NoDup_cons in Hnd as [Hv Hnd].
  assert (m !! vd_public_key v = None) as Hvm by (apply Hm; left).
  simpl. rewrite IH; [|done|].
  - rewrite lookup_insert. setoid_rewrite elem_of_cons. case_decide as Hd.
    + subst pk. split.
      * intros [[= <-]|(w&Hw&Hk&Hs)]; [right; exists v; auto|right; exists w; auto].
      * intros [?|(w&[->|Hw]&Hk&Hs)]; [congruence|left; congruence|].
        right. by exists w.
    + naive_solver.
  - intros w Hw. rewrite lookup_insert_ne; [apply Hm; by right|].
    intros Heq. apply Hv. rewrite Heq. by apply list_elem_of_fmap_2.
Qed.
End finality_lemmas.

(** ** Quorums *)

(** A snapshot with distinct keys whose recorded total is the sum of its
    stakes, small enough for the threshold products not to saturate. *)
Record snapshot_wf (snapshot : EpochSnapshot) : Prop := {
  sw_stakes : stakes_wf (es_validators snapshot);
  sw_keys : NoDup (vd_public_key <$> es_validators snapshot);
  sw_total : es_total_stake snapshot = sumZ (vd_stake <$> es_validators snapshot);
  sw_bound : es_total_stake snapshot * 3 ≤ u64_max;
}.

Lemma validator_stakes_sum snapshot :
  NoDup (vd_public_key <$> es_validators snapshot) →
  map_sum (λ _ s, s) (validator_stakes snapshot) = sumZ (vd_stake <$> es_validators snapshot).
Proof.
  unfold validator_stakes. intros Hnd.
  cut (∀ m : gmap bytes Z, (∀ v, v ∈ es_validators snapshot → m !! vd_public_key v = None) →
    map_sum (λ _ s, s) (foldl (λ m v, <[vd_public_key v := vd_stake v]> m) m
      (es_validators snapshot)) = map_sum (λ _ s, s) m + sumZ (vd_stake <$> es_validators snapshot)).
  { intros Hc. rewrite Hc by (intros; apply lookup_empty). by rewrite map_sum_empty. }
  induction (es_validators snapshot) as [|v vs IH]; intros m Hm.
  { simpl. lia. }
  rewrite fmap_cons in Hnd. apply NoDup_cons in Hnd as [Hv Hnd].
  simpl foldl. rewrite IH; [|done|].
  - rewrite map_sum_insert_None by (apply Hm; left). rewrite fmap_cons. simpl sumZ. lia.
  - intros w Hw. rewrite lookup_insert_ne; [apply Hm; by right|].
    intros Heq. apply Hv. rewrite Heq. by apply list_elem_of_fmap_2.
Qed.

Section quorum.
Context (snapshot : EpochSnapshot) (Hwf : snapshot_wf snapshot).
Let stakes := validator_stakes snapshot.

Lemma validator_stakes_nonneg k s : stakes !! k = Some s → 0 ≤ s.
Proof.
  intros (v&Hv&_&<-)%(validator_stakes_lookup _ _ (sw_keys _ Hwf)).
  destruct (sw_stakes _ Hwf) as [Hs _]. rewrite Forall_forall in Hs. by apply Hs.
Qed.

Lemma stake_of_validators A : 0 ≤ stake_of stakes A ≤ es_total_stake snapshot.
Proof.
  split; [apply stake_of_nonneg, validator_stakes_nonneg|].
  rewrite (sw_total _ Hwf), <- (validator_stakes_sum _ (sw_keys _ Hwf)).
  apply stake_of_le, validator_stakes_nonneg.
Qed.

(** Votes of distinct voters add up to the stake of the set of voters. *)
Lemma voted_stake_for_set vs :
  NoDup (voter_public_key <$> vs) →
  voted_stake_for stakes vs = stake_of stakes (list_to_set (voter_public_key <$> vs)).
Proof.
  intros Hnd. pose proof (stake_of_validators (list_to_set (voter_public_key <$> vs))) as Hb.
  pose proof (sw_bound _ Hwf). unfold voted_stake_for.
  replace (omap (λ v, stakes !! voter_public_key v) vs)
    with (omap (λ k, stakes !! k) (voter_public_key <$> vs))
    by (clear; induction vs as [|v vs IH]; [done|]; rewrite fmap_cons; cbn [omap list_omap];
        by rewrite IH).
  rewrite sum64_exact; rewrite sumZ_omap_stake_of by done; [done|lia].
Qed.

(** Two sets holding two thirds of the stake share one third of it. *)
Lemma quorums_intersect A B :
  2 * es_total_stake snapshot ≤ 3 * stake_of stakes A →
  2 * es_total_stake snapshot ≤ 3 * stake_of stakes B →
  es_total_stake snapshot ≤ 3 * stake_of stakes (A ∩ B).
Proof.
  intros HA HB. pose proof (stake_of_union_inter stakes A B).
  pose proof (stake_of_validators (A ∪ B)). lia.
Qed.
End quorum.

(** The holder of [key] signed a finality vote for the block. *)
Definition attests `{MlDsa} (key hash : bytes) : Prop :=
  ∃ v, vote_verify v = true ∧ voter_public_key v = key ∧ fv_block_hash v = hash.

Lemma add_vote_quorum `{MlDsa} t vote snapshot fb t' :
  snapshot_wf snapshot → tracker_wf t → add_vote t vote snapshot = (Some fb, t') →
  ∃ voters : gset bytes, (∀ k, k ∈ voters → attests k (fb_hash fb)) ∧
    0 < es_total_stake snapshot ∧
    2 * es_total_stake snapshot ≤ 3 * stake_of (validator_stakes snapshot) voters.
Proof.
  intros Hs Hwf Hok. apply add_vote_finalizes in Hok as (Hnd&Hall&Hz&Hq&_); [|done].
  set (bucket := default [] _ ++ [vote]) in *.
  exists (list_to_set (voter_public_key <$> bucket)). split_and!.
  - intros k (v&->&Hv)%elem_of_list_to_set%list_elem_of_fmap. rewrite Forall_forall in Hall.
    destruct (Hall v Hv) as [Hver Hh]. by exists v.
  - pose proof (stake_of_validators snapshot Hs ∅). lia.
  - rewrite (voted_stake_for_set snapshot Hs) in Hq by done.
    pose proof (stake_of_validators snapshot Hs (list_to_set (voter_public_key <$> bucket))).
    pose proof (sw_bound _ Hs). unfold saturating_mul in Hq. lia.
Qed.

(** ** Replayed votes *)

(** The voter can no longer count at this height. *)
Definition vote_spent (t : FinalityTracker) (key : bytes) (h : Z) : Prop :=
  (key, h) ∈ seen_votes t ∨ h ≤ finalized_height t.

Section replay.
Context `{MlDsa}.

Lemma add_vote_cases t vote snapshot :
  (add_vote t vote snapshot).2 = t ∨
  ∃ bucket, let t' := record_votes t vote bucket in finalized_height t < fv_block_height vote ∧
    ((add_vote t vote snapshot).2 = t' ∨
     (add_vote t vote snapshot).2 = finalize t' (fv_block_hash vote) (fv_block_height vote)).
Proof.
  unfold add_vote. destruct (negb (vote_verify vote)); [by left|].
  destruct (negb (_ =? _)); [by left|].
  destruct (fv_block_height vote <=? _) eqn:Hh; [by left|]. apply Z.leb_gt in Hh.
  destruct (negb (bool_decide _)); [by left|]. case_bool_decide; [by left|]. right.
  case_bool_decide; [eauto|]. exists (default [] (votes t !! fv_block_hash vote) ++ [vote]).
  split; [done|]. repeat case_match; auto.
Qed.

Lemma vote_spent_step t t' key h : vote_spent t key h → tracker_step t t' → vote_spent t' key h.
Proof.
  intros Hsp Hstep. destruct Hstep as [t0 vote snapshot].
  destruct (add_vote_cases t0 vote snapshot) as [->|(bucket&Hlt&[->| ->])]; [done|..].
  - destruct Hsp; [left; simpl; set_solver|by right].
  - unfold vote_spent in *. simpl. destruct Hsp as [Hk|]; [|right; lia].
    destruct (decide (h ≤ fv_block_height vote)); [by right|left].
    apply elem_of_filter. simpl. split; [lia|set_solver].
Qed.

Lemma vote_spent_rejected t vote snapshot :
  vote_spent t (voter_public_key vote) (fv_block_height vote) →
  add_vote t vote snapshot = (None, t).
Proof.
  intros Hsp. unfold add_vote. repeat (case_match; [done|]).
  case_bool_decide as Hseen; [done|]. bool_to_prop. destruct Hsp; [done|lia].
Qed.

Lemma add_vote_spends t vote snapshot :
  (add_vote t vote snapshot).2 ≠ t →
  vote_spent (add_vote t vote snapshot).2 (voter_public_key vote) (fv_block_height vote).
Proof.
  intros Hne. destruct (add_vote_cases t vote snapshot) as [|(bucket&Hlt&[->| ->])]; [done|..].
  - left. simpl. set_solver.
  - right. simpl. lia.
Qed.
End replay.

(** ** Running the model on examples *)

Definition demo_staking_validators : list Validator :=
  (λ '(n, s), mkValidator (@address_bytes_from_public_key demo_sha3 (public_key (demo_keypair n)))
    (public_key (demo_keypair n)) s) <$> [(1, 5000000); (2, 3000000); (3, 2000000)].
Definition demo_stake_snapshot : EpochSnapshot := mkSnapshot 1 32 demo_staking_validators 10000000.

Definition demo_vote (n : Z) (hash : bytes) : FinalityVote :=
  mkVote hash 40 1 (public_key (demo_keypair n))
    (mkSignature (demo_signature (demo_seed n) (vote_signable_data hash 40 1))).

Lemma demo_vote_voter n h h' : voter_public_key (demo_vote n h) = voter_public_key (demo_vote n h').
Proof. done. Qed.
Lemma demo_vote_height n h h' : fv_block_height (demo_vote n h) = fv_block_height (demo_vote n h').
Proof. done. Qed.

Definition demo_tracker (hash : bytes) : FinalityTracker :=
  (@add_vote demo_mldsa tracker_new (demo_vote 1 hash) demo_stake_snapshot).2.

Lemma demo_snapshot_wf : snapshot_wf demo_stake_snapshot.
Proof. split; vm_decide. Qed.

Lemma demo_tracker_reachable hash : rtc (@tracker_step demo_mldsa) tracker_new (demo_tracker hash).
Proof. apply rtc_once, (@step_add_vote demo_mldsa). Qed.

Definition demo_finalizes (hash : bytes) : bool :=
  match (@add_vote demo_mldsa (demo_tracker hash) (demo_vote 2 hash) demo_stake_snapshot).1 with
  | Some fb => bool_decide (fb_hash fb = hash) && (fb_height fb =? 40)
  | None => false
  end.

Lemma demo_finalizes_eq hash :
  demo_finalizes hash = true →
  @add_vote demo_mldsa (demo_tracker hash) (demo_vote 2 hash) demo_stake_snapshot =
    (Some (mkFinalized hash 40),
     (@add_vote demo_mldsa (demo_tracker hash) (demo_vote 2 hash) demo_stake_snapshot).2).
Proof.
  unfold demo_finalizes. destruct (add_vote _ _ _) as [[[fh fn]|] t]; simpl; [|done].
  intros [Hh Hn]%andb_true_iff. bool_to_prop. by subst.
Qed.

(** ** Properties *)

(** Finality needs two thirds of the stake. When a vote finalizes a block
    in a tracker reached from any starting point by any sequence of votes, the
    validators that signed a vote for exactly this block hold at least two
    thirds of the snapshot's stake, each counted once, and the finalized height
    strictly increases. *)
Theorem finality_quorum `{MlDsa} (h0 : Z) (hash0 : bytes) (t t' : FinalityTracker)
    (vote : FinalityVote) (snapshot : EpochSnapshot) (fb : FinalizedBlock) :
  rtc tracker_step (with_finalized h0 hash0) t → snapshot_wf snapshot →
  add_vote t vote snapshot = (Some fb, t') →
  (∃ voters : gset bytes, (∀ k, k ∈ voters → attests k (fb_hash fb)) ∧
    0 < es_total_stake snapshot ∧
    2 * es_total_stake snapshot ≤ 3 * stake_of (validator_stakes snapshot) voters) ∧
  fb = mkFinalized (fv_block_hash vote) (fv_block_height vote) ∧
  finalized_height t < fb_height fb ∧
  finalized_height t' = fb_height fb ∧ finalized_hash t' = fb_hash fb.
Proof.
  intros Hr Hs Hok. assert (tracker_wf t) as Hwf.
  { apply (rtc_tracker_wf _ _ Hr). intros k vs. simpl. by rewrite lookup_empty. }
  split; [by eapply add_vote_quorum|].
  by apply add_vote_finalizes in Hok as (_&_&_&_&?&?&?&?).
Qed.

Lemma finality_quorum_witness :
  ∃ voters : gset bytes, (∀ k, k ∈ voters → @attests demo_mldsa k [x0a]) ∧
    0 < 10000000 ∧ 2 * 10000000 ≤ 3 * stake_of (validator_stakes demo_stake_snapshot) voters.
Proof.
  exact (proj1 (@finality_quorum demo_mldsa 0 [] (demo_tracker [x0a]) _ (demo_vote 2 [x0a])
    demo_stake_snapshot (mkFinalized [x0a] 40) (demo_tracker_reachable [x0a]) demo_snapshot_wf
    (demo_finalizes_eq [x0a] ltac:(vm_compute; reflexivity)))).
Defined.

(** C8: conflicting finality is accountable. If two nodes, whatever votes each
    of them has seen, finalize two blocks under the same epoch snapshot, then
    validators holding at least a third of the stake signed votes for both. *)
Theorem finality_accountable `{MlDsa} (t1 t1' t2 t2' : FinalityTracker)
    (vote1 vote2 : FinalityVote) (snapshot : EpochSnapshot) (fb1 fb2 : FinalizedBlock) :
  rtc tracker_step tracker_new t1 → rtc tracker_step tracker_new t2 → snapshot_wf snapshot →
  add_vote t1 vote1 snapshot = (Some fb1, t1') → add_vote t2 vote2 snapshot = (Some fb2, t2') →
  ∃ offenders : gset bytes,
    (∀ k, k ∈ offenders → attests k (fb_hash fb1) ∧ attests k (fb_hash fb2)) ∧
    es_total_stake snapshot ≤ 3 * stake_of (validator_stakes snapshot) offenders.
Proof.
  intros Hr1 Hr2 Hs Hok1 Hok2.
  apply add_vote_quorum in Hok1 as (A&HA&_&HqA);
    [|done|by apply (rtc_tracker_wf _ _ Hr1), tracker_new_wf].
  apply add_vote_quorum in Hok2 as (B&HB&_&HqB);
    [|done|by apply (rtc_tracker_wf _ _ Hr2), tracker_new_wf].
  exists (A ∩ B). split; [set_solver|]. by apply quorums_intersect.
Qed.

Lemma finality_accountable_witness :
  ∃ offenders : gset bytes,
    (∀ k, k ∈ offenders → @attests demo_mldsa k [x0a] ∧ @attests demo_mldsa k [x0b]) ∧
    10000000 ≤ 3 * stake_of (validator_stakes demo_stake_snapshot) offenders.
Proof.
  exact (@finality_accountable demo_mldsa (demo_tracker [x0a]) _ (demo_tracker [x0b]) _
    (demo_vote 2 [x0a]) (demo_vote 2 [x0b]) demo_stake_snapshot (mkFinalized [x0a] 40)
    (mkFinalized [x0b] 40) (demo_tracker_reachable [x0a]) (demo_tracker_reachable [x0b])
    demo_snapshot_wf (demo_finalizes_eq [x0a] ltac:(vm_compute; reflexivity))
    (demo_finalizes_eq [x0b] ltac:(vm_compute; reflexivity))).
Defined.

(** One vote per validator and height. Once a vote has changed the tracker,
    no later vote of the same validator for the same height, for whatever block
    and however many votes came in between, has any effect. *)
Theorem one_vote_per_height `{MlDsa} (t t' : FinalityTracker) (vote vote' : FinalityVote)
    (snapshot snapshot' : EpochSnapshot) :
  (add_vote t vote snapshot).2 ≠ t → rtc tracker_step (add_vote t vote snapshot).2 t' →
  voter_public_key vote' = voter_public_key vote → fv_block_height vote' = fv_block_height vote →
  add_vote t' vote' snapshot' = (None, t').
Proof.
  intros Hne Hr Hk Hh. apply vote_spent_rejected. rewrite Hk, Hh.
  pose proof (add_vote_spends _ _ _ Hne) as Hsp. clear Hne.
  induction Hr as [|? ? ? Hstep _ IH]; [done|]. by eapply IH, vote_spent_step.
Qed.

Lemma demo_vote_counted :
  (@add_vote demo_mldsa tracker_new (demo_vote 1 [x0a]) demo_stake_snapshot).2 ≠ tracker_new.
Proof.
  intros E. apply (f_equal (λ t, bool_decide (seen_votes t = ∅))) in E.
  vm_compute in E. discriminate.
Qed.

Lemma one_vote_per_height_witness :
  @add_vote demo_mldsa (demo_tracker [x0a]) (demo_vote 1 [x0b]) demo_stake_snapshot =
    (None, demo_tracker [x0a]).
Proof.
  unfold demo_tracker.
  apply (@one_vote_per_height demo_mldsa tracker_new _ (demo_vote 1 [x0a])
    (demo_vote 1 [x0b]) demo_stake_snapshot demo_stake_snapshot demo_vote_counted
    (rtc_refl (@tracker_step demo_mldsa) _) (demo_vote_voter 1 [x0b] [x0a])
    (demo_vote_height 1 [x0b] [x0a])).
Defined.
