(* ===== verification/Settlement.v ===== *)
(** * Epoch settlement ([src/consensus/mod.rs])

    Rewards of the validators that produced blocks in an epoch, inactivity
    penalties of those that did not, and their application to the accounts. *)
From S2P Require Import Prelude Account Validators.

Definition EPOCH_REWARD_RATE_PER_CUR : Z := 100.
Definition INACTIVITY_PENALTY_RATE_PER_CUR : Z := 50.
Definition INACTIVITY_GRACE_EPOCHS : Z := 2.

(** ** Epoch settlement *)

Inductive PenaltyReason :=
  | Inactivity (missed_epochs : Z)
  | Equivocation.

Record ValidatorReward := mkReward { rw_address : bytes; rw_amount : Z; blocks_produced : Z }.
Record ValidatorPenalty := mkPenalty { pn_address : bytes; pn_amount : Z; pn_reason : PenaltyReason }.

Record EpochSettlement := mkSettlement {
  st_epoch : Z;
  rewards : list ValidatorReward;
  penalties : list ValidatorPenalty;
  total_rewards_distributed : Z;
  total_penalties_applied : Z;
}.

(** The reward of a validator that produced blocks, the penalty of one that
    missed a number of epochs in a row. *)
Definition reward_amount (v : Validator) (blocks : Z) : Z :=
  saturating_mul (saturating_mul (vd_stake v / 1000000) EPOCH_REWARD_RATE_PER_CUR) blocks.
Definition penalty_amount (v : Validator) (missed : Z) : Z :=
  saturating_mul (saturating_mul (vd_stake v / 1000000) INACTIVITY_PENALTY_RATE_PER_CUR)
    (saturating_sub missed INACTIVITY_GRACE_EPOCHS).

(** The body of the loop of [compute_epoch_settlement]. *)
Definition settle_validator (block_producers missed_epochs : gmap bytes Z)
    (s : EpochSettlement) (v : Validator) : EpochSettlement :=
  let blocks := default 0 (block_producers !! vd_address v) in
  if 0 <? blocks then
    let reward := reward_amount v blocks in
    if 0 <? reward then
      mkSettlement (st_epoch s) (rewards s ++ [mkReward (vd_address v) reward blocks])
        (penalties s) (saturating_add (total_rewards_distributed s) reward)
        (total_penalties_applied s)
    else s
  else
    let consecutive_missed := saturating_add (default 0 (missed_epochs !! vd_address v)) 1 in
    if INACTIVITY_GRACE_EPOCHS <? consecutive_missed then
      let penalty := penalty_amount v consecutive_missed in
      if 0 <? penalty then
        mkSettlement (st_epoch s) (rewards s)
          (penalties s ++ [mkPenalty (vd_address v) penalty (Inactivity consecutive_missed)])
          (total_rewards_distributed s) (saturating_add (total_penalties_applied s) penalty)
      else s
    else s.

Definition compute_epoch_settlement (snapshot : EpochSnapshot)
    (block_producers missed_epochs : gmap bytes Z) : EpochSettlement :=
  foldl (settle_validator block_producers missed_epochs)
    (mkSettlement (es_epoch snapshot) [] [] 0 0) (es_validators snapshot).

Definition apply_reward (accounts : accounts_map) (r : ValidatorReward) : accounts_map :=
  update_account (rw_address r)
    (λ a, set_balance (saturating_add (balance a) (rw_amount r)) a) accounts.
Definition apply_penalty (accounts : accounts_map) (p : ValidatorPenalty) : accounts_map :=
  update_account (pn_address p)
    (λ a, set_staked (saturating_sub (staked_balance a) (pn_amount p)) a) accounts.

Definition apply_epoch_settlement (accounts : accounts_map) (s : EpochSettlement) : accounts_map :=
  foldl apply_penalty (foldl apply_reward accounts (rewards s)) (penalties s).

(** ** Lemmas on settlement *)

(** What the loop records for one validator. *)
Definition reward_of (producers : gmap bytes Z) (v : Validator) : option ValidatorReward :=
  let blocks := default 0 (producers !! vd_address v) in
  if (0 <? blocks) && (0 <? reward_amount v blocks)
  then Some (mkReward (vd_address v) (reward_amount v blocks) blocks) else None.

Definition penalty_of (producers missed : gmap bytes Z) (v : Validator) : option ValidatorPenalty :=
  let m := saturating_add (default 0 (missed !! vd_address v)) 1 in
  if negb (0 <? default 0 (producers !! vd_address v)) && (INACTIVITY_GRACE_EPOCHS <? m) &&
     (0 <? penalty_amount v m)
  then Some (mkPenalty (vd_address v) (penalty_amount v m) (Inactivity m)) else None.

Lemma settle_loop producers missed vs s :
  foldl (settle_validator producers missed) s vs =
    mkSettlement (st_epoch s) (rewards s ++ omap (reward_of producers) vs)
      (penalties s ++ omap (penalty_of producers missed) vs)
      (foldl saturating_add (total_rewards_distributed s)
        (rw_amount <$> omap (reward_of producers) vs))
      (foldl saturating_add (total_penalties_applied s)
        (pn_amount <$> omap (penalty_of producers missed) vs)).
Proof.
  revert s. induction vs as [|v vs IH]; intros s.
  { simpl. rewrite !app_nil_r. by destruct s. }
  cbn [foldl omap list_omap]. rewrite IH.
  destruct (reward_of producers v) as [r|] eqn:Er, (penalty_of producers missed v) as [p|] eqn:Ep;
    unfold reward_of in Er; unfold penalty_of in Ep; unfold settle_validator; cbv zeta in *;
    destruct (0 <? default 0 (producers !! vd_address v)); cbn [andb negb] in *; try done;
    repeat case_match; simplify_eq; try done;
    cbn [rewards penalties st_epoch total_rewards_distributed total_penalties_applied
         rw_amount pn_amount fmap list_fmap foldl]; by rewrite <- app_assoc.
Qed.

Lemma compute_epoch_settlement_eq snapshot producers missed :
  compute_epoch_settlement snapshot producers missed =
    let rs := omap (reward_of producers) (es_validators snapshot) in
    let ps := omap (penalty_of producers missed) (es_validators snapshot) in
    mkSettlement (es_epoch snapshot) rs ps (foldl saturating_add 0 (rw_amount <$> rs))
      (foldl saturating_add 0 (pn_amount <$> ps)).
Proof. apply settle_loop. Qed.

(** Updating distinct accounts one after the other. *)
Lemma foldl_update_out {A} (addr : A → bytes) (f : A → AccountState → AccountState)
    (l : list A) (m : accounts_map) (a : bytes) :
  a ∉ addr <$> l → foldl (λ m x, update_account (addr x) (f x) m) m l !! a = m !! a.
Proof.
  revert m. induction l as [|x l IH]; intros m Ha; [done|].
  rewrite fmap_cons, not_elem_of_cons in Ha. destruct Ha as [Hx Ha]. cbn [foldl].
  rewrite IH by done. rewrite lookup_update_account. by rewrite decide_False.
Qed.

Lemma foldl_update_in {A} (addr : A → bytes) (f : A → AccountState → AccountState)
    (l : list A) (m : accounts_map) (x : A) :
  NoDup (addr <$> l) → x ∈ l →
  foldl (λ m x, update_account (addr x) (f x) m) m l !! addr x =
    Some (f x (get_account m (addr x))).
Proof.
  revert m. induction l as [|y l IH]; intros m Hnd Hx; [by apply not_elem_of_nil in Hx|].
  rewrite fmap_cons in Hnd. apply NoDup_cons in Hnd as [Hy Hnd]. cbn [foldl].
  apply elem_of_cons in Hx as [->|Hx].
  - rewrite foldl_update_out by done. rewrite lookup_update_account. by rewrite decide_True.
  - rewrite IH by done. rewrite get_update_account, decide_False; [done|].
    intros Heq. apply Hy. rewrite Heq. by apply list_elem_of_fmap_2.
Qed.

Lemma reward_of_address producers v r : reward_of producers v = Some r → rw_address r = vd_address v.
Proof. unfold reward_of. case_match; [|done]. by intros [= <-]. Qed.

Lemma penalty_of_address producers missed v p :
  penalty_of producers missed v = Some p → pn_address p = vd_address v.
Proof. unfold penalty_of. case_match; [|done]. by intros [= <-]. Qed.

(** The addresses of the records are those of their validators. *)
Lemma omap_address_sublist {B} (g : Validator → option B) (addr : B → bytes) vs :
  (∀ w b, g w = Some b → addr b = vd_address w) →
  addr <$> omap g vs `sublist_of` vd_address <$> vs.
Proof.
  intros Hg. induction vs as [|w vs IH]; [done|]. cbn [omap list_omap].
  destruct (g w) as [b|] eqn:E; rewrite ?fmap_cons; [rewrite (Hg w b E)|]; by constructor.
Qed.

Lemma omap_address_none {B} (g : Validator → option B) (addr : B → bytes) vs v :
  (∀ w b, g w = Some b → addr b = vd_address w) →
  NoDup (vd_address <$> vs) → v ∈ vs → g v = None → vd_address v ∉ addr <$> omap g vs.
Proof.
  intros Hg Hnd Hv Hn (b&Hb&Hin)%list_elem_of_fmap.
  apply list_elem_of_omap in Hin as (w&Hw&Hgw). rewrite (Hg w b Hgw) in Hb.
  assert (v = w) as ->; [|congruence].
  apply list_elem_of_lookup in Hv as [i Hi]. apply list_elem_of_lookup in Hw as [j Hj].
  assert (i = j) as ->; [|congruence].
  eapply (NoDup_lookup _ i j (vd_address v) Hnd); rewrite list_lookup_fmap, ?Hi, ?Hj; simpl; congruence.
Qed.

(** The effect of a list of updates derived from the validators on one
    validator's account. *)
Lemma foldl_update_validator {B} (g : Validator → option B) (addr : B → bytes)
    (f : B → AccountState → AccountState) vs m v :
  (∀ w b, g w = Some b → addr b = vd_address w) →
  NoDup (vd_address <$> vs) → v ∈ vs →
  foldl (λ m b, update_account (addr b) (f b) m) m (omap g vs) !! vd_address v =
    match g v with Some b => Some (f b (get_account m (vd_address v))) | None => m !! vd_address v end.
Proof.
  intros Hg Hnd Hv. pose proof (omap_address_sublist g addr vs Hg) as Hsub.
  destruct (g v) as [b|] eqn:E.
  - rewrite <- (Hg v b E). apply foldl_update_in; [by eapply sublist_NoDup|].
    apply list_elem_of_omap. eauto.
  - apply foldl_update_out. by eapply omap_address_none.
Qed.

Lemma saturating_sum_min l :
  Forall (λ x, 0 ≤ x) l → foldl saturating_add 0 l = Z.min (sumZ l) u64_max.
Proof.
  intros Hl. cut (∀ a, 0 ≤ a ≤ u64_max → foldl saturating_add a l = Z.min (a + sumZ l) u64_max).
  { intros Hc. by rewrite Hc by u64_lia. }
  induction Hl as [|x l Hx Hl IH]; intros a Ha; cbn [foldl sumZ foldr]; [u64_lia|].
  pose proof (sumZ_nonneg l Hl). rewrite IH; unfold saturating_add, sumZ in *; u64_lia.
Qed.

(** ** Properties *)

(** The effect of an epoch settlement. For validators of distinct
    addresses, a validator that produced blocks is paid its reward into its
    liquid balance and one that did not is charged, after the grace epochs,
    from its stake, saturating at zero; no other account changes, and the
    totals are the sums of the recorded amounts, capped at [u64::MAX]. *)
Theorem epoch_settlement_effect (snapshot : EpochSnapshot) (producers missed : gmap bytes Z)
    (accounts : accounts_map) :
  stakes_wf (es_validators snapshot) → NoDup (vd_address <$> es_validators snapshot) →
  let s := compute_epoch_settlement snapshot producers missed in
  let accounts' := apply_epoch_settlement accounts s in
  (∀ a, a ∉ vd_address <$> es_validators snapshot → accounts' !! a = accounts !! a) ∧
  (∀ v, v ∈ es_validators snapshot →
    let a := vd_address v in
    let before := get_account accounts a in
    let blocks := default 0 (producers !! a) in
    let m := saturating_add (default 0 (missed !! a)) 1 in
    accounts' !! a =
      if 0 <? blocks then
        if 0 <? reward_amount v blocks
        then Some (set_balance (saturating_add (balance before) (reward_amount v blocks)) before)
        else accounts !! a
      else if (INACTIVITY_GRACE_EPOCHS <? m) && (0 <? penalty_amount v m)
      then Some (set_staked (saturating_sub (staked_balance before) (penalty_amount v m)) before)
      else accounts !! a) ∧
  total_rewards_distributed s = Z.min (sumZ (rw_amount <$> rewards s)) u64_max ∧
  total_penalties_applied s = Z.min (sumZ (pn_amount <$> penalties s)) u64_max.
Proof.
  intros Hwf Hnd s accounts'. unfold accounts', apply_epoch_settlement, s.
  rewrite compute_epoch_settlement_eq. cbv zeta.
  cbn [rewards penalties total_rewards_distributed total_penalties_applied].
  set (rs := omap (reward_of producers) _). set (ps := omap (penalty_of producers missed) _).
  change (foldl apply_reward accounts rs) with (foldl (λ m r, update_account (rw_address r)
    (λ a, set_balance (saturating_add (balance a) (rw_amount r)) a) m) accounts rs).
  change (foldl apply_penalty ?base ps) with (foldl (λ m p, update_account (pn_address p)
    (λ a, set_staked (saturating_sub (staked_balance a) (pn_amount p)) a) m) base ps).
  split_and!.
  - intros a Ha. rewrite !foldl_update_out; [done| |]; intros Hin; apply Ha;
      (eapply elem_of_sublist; [exact Hin|]); apply omap_address_sublist;
      eauto using reward_of_address, penalty_of_address.
  - intros v Hv. cbv zeta.
    set (m1 := foldl _ accounts rs). unfold ps.
    rewrite (foldl_update_validator (penalty_of producers missed) pn_address
      (λ p a, set_staked (saturating_sub (staked_balance a) (pn_amount p)) a)) by
      eauto using penalty_of_address.
    assert (m1 !! vd_address v = match reward_of producers v with
      | Some r => Some (set_balance (saturating_add (balance (get_account accounts (vd_address v)))
          (rw_amount r)) (get_account accounts (vd_address v)))
      | None => accounts !! vd_address v end) as Hm1 by
      (apply (foldl_update_validator (reward_of producers) rw_address
         (λ r a, set_balance (saturating_add (balance a) (rw_amount r)) a));
       eauto using reward_of_address).
    destruct (0 <? default 0 (producers !! vd_address v)) eqn:Eb.
    + assert (penalty_of producers missed v = None) as -> by (unfold penalty_of; by rewrite Eb).
      rewrite Hm1. unfold reward_of. rewrite Eb. by destruct (0 <? reward_amount _ _).
    + assert (reward_of producers v = None) as Hr by (unfold reward_of; by rewrite Eb).
      rewrite Hr in Hm1.
      replace (get_account m1 (vd_address v)) with (get_account accounts (vd_address v))
        by (unfold get_account; by rewrite Hm1).
      rewrite Hm1. unfold penalty_of. rewrite Eb. by destruct (_ && _).
  - apply saturating_sum_min, Forall_fmap, Forall_forall.
    intros r (v&Hv&Hr)%list_elem_of_omap. unfold reward_of in Hr. destruct (_ && _) eqn:E; [|done].
    bool_to_prop. simplify_eq. simpl. lia.
  - apply saturating_sum_min, Forall_fmap, Forall_forall.
    intros p (v&Hv&Hp)%list_elem_of_omap. unfold penalty_of in Hp. destruct (_ && _) eqn:E; [|done].
    bool_to_prop. simplify_eq. simpl. lia.
Qed.

Lemma epoch_settlement_effect_witness :
  let v := mkValidator [x01] [xa1] 5000000 in
  let snapshot := mkSnapshot 1 32 [v] 5000000 in
  apply_epoch_settlement ∅ (compute_epoch_settlement snapshot {[ [x01] := 3 ]} ∅) !! [x01] =
    Some (set_balance 1500 account_default).
Proof.
  intros v snapshot.
  destruct (epoch_settlement_effect snapshot {[ [x01] := 3 ]} ∅ ∅) as (_&Hv&_);
    [vm_decide|vm_decide|].
  etransitivity; [exact (Hv v (list_elem_of_here v []))|reflexivity].
Defined.
