(* ===== verification/BlockStore.v ===== *)
(** * The block store ([src/core/block_store.rs], [src/storage/backend.rs])

    The cursor through which the chain reads its canonical blocks: a pinned
    genesis, an LRU cache and a storage backend behind two counters. The backend
    is an interface with laws, implemented by the in-memory backend; the LRU
    cache (a library) is a parameter. The cursor refines a plain list of blocks
    with a pruning floor. Mutexes are not modelled: an operation is a step, except
    [block_at], which drops the lock while it reads the storage. *)
From S2P Require Import Prelude Hash Crypto Vm Transaction Block.

(** [StorageError] of [src/storage/mod.rs]. *)
Inductive StorageError :=
  | RedbError (message : string)
  | IoError (message : string)
  | SerializeError (message : string).

#[global] Instance StorageError_eq_dec : EqDecision StorageError.
Proof. solve_decision. Defined.

(** ** Interfaces *)

(** [trait BlockBackend], with the laws the cursor relies on. Heights are [u64]s:
    a backend may store them in eight bytes. A [storable] block is one that the
    backend's encoding preserves. *)
Class BlockBackend (B : Type) := {
  put_block : Block → B → result StorageError B;
  get_block : Z → B → result StorageError (option Block);
  prune_blocks_below : Z → B → result StorageError (nat * B);
  get_height : B → result StorageError (option Z);
  storable : Block → Prop;
  get_put s s' b h : is_u64 h → is_u64 (height (header b)) → storable b → put_block b s = Ok s' →
    get_block h s' = (if bool_decide (h = height (header b)) then Ok (Some b) else get_block h s);
  get_pruned s s' n k h : is_u64 h → is_u64 k → prune_blocks_below k s = Ok (n, s') → k ≤ h →
    get_block h s' = get_block h s;
}.

(** The [LruCache] of the crate [lru]: inserting may evict other entries, and at
    most [lru_capacity] keys are cached. *)
Class LruCache (L : Type) := {
  lru_new : nat → L;
  lru_peek : Z → L → option Block;
  lru_get : Z → L → option Block * L;
  lru_put : Z → Block → L → L;
  lru_retain : (Z → bool) → L → L;
  lru_capacity : L → nat;
  lru_keys : L → gset Z;
  peek_new n h : lru_peek h (lru_new n) = None;
  get_peek c h : (lru_get h c).1 = lru_peek h c;
  peek_get c h k : lru_peek k (lru_get h c).2 = lru_peek k c;
  peek_put c h b k v : lru_peek k (lru_put h b c) = Some v →
    k = h ∧ v = b ∨ k ≠ h ∧ lru_peek k c = Some v;
  peek_retain c p k : lru_peek k (lru_retain p c) = if p k then lru_peek k c else None;
  peek_keys c k b : lru_peek k c = Some b → k ∈ lru_keys c;
  keys_capacity c : (size (lru_keys c) ≤ lru_capacity c)%nat;
  put_capacity h b c : lru_capacity (lru_put h b c) = lru_capacity c;
  retain_capacity p c : lru_capacity (lru_retain p c) = lru_capacity c;
}.

(** ** The cursor *)

Inductive BlockStoreError :=
  | StorageFailure (e : StorageError)
  | MissingGenesis
  | NonContiguousAppend (expected actual : Z).

#[global] Instance BlockStoreError_eq_dec : EqDecision BlockStoreError.
Proof. solve_decision. Defined.

(** [CursorState] and the fields of [BlockStoreCursor]. *)
Record Cursor (B L : Type) := mkCursor {
  cu_storage : B;
  cu_genesis : Block;
  cu_cache : L;
  height_count : Z;
  base_height : Z;
  self_persist : bool;
}.
Arguments mkCursor {B L}.
Arguments cu_storage {B L}.
Arguments cu_genesis {B L}.
Arguments cu_cache {B L}.
Arguments height_count {B L}.
Arguments base_height {B L}.
Arguments self_persist {B L}.

Section cursor.
Context {B L : Type} `{!BlockBackend B} `{!LruCache L}.

Definition set_cache (l : L) (c : Cursor B L) : Cursor B L :=
  mkCursor (cu_storage c) (cu_genesis c) l (height_count c) (base_height c) (self_persist c).
Definition set_storage (s : B) (c : Cursor B L) : Cursor B L :=
  mkCursor s (cu_genesis c) (cu_cache c) (height_count c) (base_height c) (self_persist c).

(** The search for the lowest stored block above genesis. *)
Fixpoint find_base (candidates : list Z) (s : B) : result StorageError Z :=
  match candidates with
  | [] => Ok 0
  | h :: candidates =>
      b ← get_block h s;
      match b with Some _ => Ok h | None => find_base candidates s end
  end.

(** [new_with_persist]. *)
Definition new_with_persist (s : B) (cache_size : nat) (persist : bool)
    : result BlockStoreError (Cursor B L) :=
  g ← map_err StorageFailure (get_block 0 s);
  genesis ← ok_or MissingGenesis g;
  head_height ← map_err StorageFailure (get_height s);
  let count := from_option (λ h, h + 1) 1 head_height in
  base ← map_err StorageFailure
    (if 1 <? count then find_base (seqZ 1 (count - 1)) s else Ok 0);
  Ok (mkCursor s genesis (lru_new (Nat.max cache_size 1)) count base persist).

(** The first locked section of [block_at]: an answer, or a height to read from
    the storage. *)
Definition block_at_begin (h : Z) (c : Cursor B L) : option (option Block) * Cursor B L :=
  if h =? 0 then (Some (Some (cu_genesis c)), c)
  else if (height_count c <=? h) || (h <? base_height c) then (Some None, c)
  else
    let '(cached, l) := lru_get h (cu_cache c) in
    (match cached with Some b => Some (Some b) | None => None end, set_cache l c).

(** The second: what was read is cached, unless the bounds moved. *)
Definition block_at_finish (h : Z) (from_storage : option Block) (c : Cursor B L)
    : option Block * Cursor B L :=
  match from_storage with
  | None => (None, c)
  | Some b =>
      if (height_count c <=? h) || (h <? base_height c) then (None, c)
      else (Some b, set_cache (lru_put h b (cu_cache c)) c)
  end.

Definition block_at (h : Z) : stM (Cursor B L) BlockStoreError (option Block) := λ c,
  match block_at_begin h c with
  | (Some answer, c) => (Ok answer, c)
  | (None, c) =>
      match get_block h (cu_storage c) with
      | Err e => (Err (StorageFailure e), c)
      | Ok from_storage =>
          let '(answer, c) := block_at_finish h from_storage c in (Ok answer, c)
      end
  end.

(** [append]. *)
Definition append (b : Block) : stM (Cursor B L) BlockStoreError () :=
  c ← st_get;
  let h := height (header b) in
  _ ← st_guard (h =? height_count c) (NonContiguousAppend (height_count c) h);
  _ ← (if self_persist c
       then
         s ← st_lift (map_err StorageFailure (put_block b (cu_storage c)));
         st_modify (set_storage s)
       else mret ());
  st_modify (λ c,
    if h =? 0
    then mkCursor (cu_storage c) b (cu_cache c) (height_count c + 1) (base_height c) (self_persist c)
    else mkCursor (cu_storage c) (cu_genesis c) (lru_put h b (cu_cache c)) (height_count c + 1)
           (base_height c) (self_persist c)).

(** [prune_below]. *)
Definition prune_below (keep_from : Z) : stM (Cursor B L) BlockStoreError nat :=
  c ← st_get;
  if (keep_from =? 0) || (keep_from <=? base_height c) then mret 0%nat
  else
    '(removed, s) ← st_lift (map_err StorageFailure (prune_blocks_below keep_from (cu_storage c)));
    _ ← st_modify (λ c, mkCursor s (cu_genesis c)
          (lru_retain (λ h, negb (h <? keep_from)) (cu_cache c))
          (height_count c) keep_from (self_persist c));
    mret removed.

(** [invalidate_from]. *)
Definition invalidate_from (from : Z) (c : Cursor B L) : Cursor B L :=
  mkCursor (cu_storage c) (cu_genesis c) (lru_retain (λ h, negb (from <=? h)) (cu_cache c))
    (if from <? height_count c then from else height_count c) (base_height c) (self_persist c).

(** ** The abstract store: a list of blocks with a pruning floor *)

Record Store := mkStore {
  st_blocks : list Block;
  st_genesis : Block;
  st_base : Z;
}.

Definition spec_block_at (h : Z) (s : Store) : option Block :=
  if h =? 0 then Some (st_genesis s)
  else if h <? st_base s then None
  else st_blocks s !! Z.to_nat h.

Definition spec_append (b : Block) (s : Store) : result BlockStoreError () * Store :=
  let n := Z.of_nat (length (st_blocks s)) in
  if height (header b) =? n
  then (Ok (), mkStore (st_blocks s ++ [b]) (if n =? 0 then b else st_genesis s) (st_base s))
  else (Err (NonContiguousAppend n (height (header b))), s).

Definition spec_prune (keep_from : Z) (s : Store) : Store :=
  mkStore (st_blocks s) (st_genesis s) (Z.max keep_from (st_base s)).

Definition spec_invalidate (from : Z) (s : Store) : Store :=
  mkStore (take (Z.to_nat from) (st_blocks s)) (st_genesis s) (st_base s).

(** A self-persisting cursor that represents the abstract store: counters agree,
    the storage holds the readable blocks, the cache only true ones. *)
Record represents (c : Cursor B L) (s : Store) : Prop := {
  rp_persist : self_persist c = true;
  rp_count : height_count c = Z.of_nat (length (st_blocks s));
  rp_base : base_height c = st_base s;
  rp_floor : 0 ≤ st_base s;
  rp_genesis : cu_genesis c = st_genesis s;
  rp_range : Z.of_nat (length (st_blocks s)) ≤ u64_mod;
  rp_storage h b : 0 < h → st_base s ≤ h → st_blocks s !! Z.to_nat h = Some b →
    get_block h (cu_storage c) = Ok (Some b);
  rp_cache h b : lru_peek h (cu_cache c) = Some b →
    0 < h ∧ st_blocks s !! Z.to_nat h = Some b;
}.

(** ** Lemmas: each operation simulates its specification *)

Lemma block_at_refines h c s :
  0 ≤ h → represents c s → ∃ c', block_at h c = (Ok (spec_block_at h s), c') ∧ represents c' s.
Proof.
  intros Hh [Hp Hn Hb Hb0 Hg Hr Hs Hc]. unfold block_at, block_at_begin, spec_block_at.
  destruct (Z.eqb_spec h 0) as [->|Hne]; [exists c; by rewrite Hg|].
  rewrite Hn, Hb. destruct (h <? st_base s) eqn:Hlow; [rewrite orb_true_r; by exists c|].
  rewrite orb_false_r. destruct (_ <=? h) eqn:Hhigh; bool_to_prop.
  { exists c. split; [|done]. by rewrite lookup_ge_None_2 by lia. }
  destruct (lookup_lt_is_Some_2 (st_blocks s) (Z.to_nat h)) as [b Hl]; [lia|]. rewrite Hl.
  pose proof (get_peek (cu_cache c) h) as Hget. pose proof (λ k, peek_get (cu_cache c) h k) as Hpk.
  destruct (lru_get h (cu_cache c)) as [cached l]. simpl in *.
  assert (represents (set_cache l c) s) as Hrep.
  { split; simpl; try done. intros k v. rewrite Hpk. apply Hc. }
  destruct cached as [v|].
  { symmetry in Hget. destruct (Hc _ _ Hget) as (_&Hv). exists (set_cache l c). split; [|done]. congruence. }
  rewrite (Hs h b) by (done || lia). unfold block_at_finish. simpl. rewrite Hn, Hb.
  rewrite (proj2 (Z.leb_gt _ _)), (proj2 (Z.ltb_ge _ _)) by lia. simpl.
  eexists. split; [done|]. split; simpl; try done.
  intros k v [(->&->)|(_&Hk)]%peek_put; [split; [lia|done]|]. rewrite Hpk in Hk. by apply Hc.
Qed.

Lemma append_refines b c s :
  is_u64 (height (header b)) → storable b → represents c s →
  match append b c with
  | (Ok _, c') => (spec_append b s).1 = Ok () ∧ represents c' (spec_append b s).2
  | (Err (StorageFailure _), c') => c' = c
  | (Err e, c') => spec_append b s = (Err e, s) ∧ c' = c
  end.
Proof.
  intros Hu Hst [Hp Hn Hb Hb0 Hg Hr Hs Hc]. unfold append, spec_append, st_guard, st_get, st_lift, st_modify.
  unfold mbind, stM_bind, mret, stM_ret. rewrite Hn, Hp.
  destruct (height (header b) =? _) eqn:Eh; [|done]. bool_to_prop.
  destruct (put_block b (cu_storage c)) as [s'|e] eqn:Hput; [|done]. simpl.
  split; [done|]. rewrite Eh.
  assert (∀ h v, 0 < h → st_base s ≤ h → (st_blocks s ++ [b]) !! Z.to_nat h = Some v →
    get_block h s' = Ok (Some v)) as Hs'.
  { intros h v Hpos Hlow Hl. pose proof (lookup_lt_Some _ _ _ Hl) as Hlt.
    rewrite length_app in Hlt. simpl in Hlt.
    rewrite (get_put _ _ _ h ltac:(u64_lia) Hu Hst Hput), Eh. case_bool_decide as Hhn.
    - rewrite lookup_app_r in Hl by lia. subst h. rewrite Nat2Z.id, Nat.sub_diag in Hl. by simplify_eq/=.
    - rewrite lookup_app_Some in Hl. destruct Hl as [Hl|[Hge Hl]]; [by apply Hs|].
      apply list_lookup_singleton_Some in Hl as [? _]. lia. }
  assert (∀ h v, lru_peek h (cu_cache c) = Some v →
    0 < h ∧ (st_blocks s ++ [b]) !! Z.to_nat h = Some v) as Hc'.
  { intros h v Hk. destruct (Hc _ _ Hk) as (?&Hl). split; [done|]. by apply lookup_app_l_Some. }
  case_match; bool_to_prop; (split; simpl; rewrite ?length_app, ?Nat2Z.inj_add; try done; try (rewrite Hn; simpl; lia); try (simpl; u64_lia)).
  intros h v [(->&->)|(_&Hk)]%peek_put; [|by apply Hc'].
  rewrite Nat2Z.id, lookup_app_r, Nat.sub_diag by lia. split; [lia|done].
Qed.

Lemma prune_below_refines k c s :
  is_u64 k → represents c s →
  match prune_below k c with
  | (Ok _, c') => represents c' (spec_prune k s)
  | (Err _, c') => c' = c
  end.
Proof.
  intros Hk Hrep. pose proof Hrep as [Hp Hn Hb Hb0 Hg Hr Hs Hc].
  unfold prune_below, spec_prune, st_get, st_lift, st_modify, mbind, stM_bind, mret, stM_ret.
  rewrite Hb. destruct (_ || _) eqn:Hskip.
  { rewrite Z.max_r by (destruct (Z.eqb_spec k 0); bool_to_prop; u64_lia). by destruct s. }
  apply orb_false_iff in Hskip as [_ Hlt]. bool_to_prop.
  destruct (prune_blocks_below k (cu_storage c)) as [[n s']|e] eqn:Hpr; [|done]. simpl.
  rewrite Z.max_l by lia. split; simpl; try done; [u64_lia|..].
  - intros h b Hpos Hlow Hl. pose proof (lookup_lt_Some _ _ _ Hl) as Hl'.
    rewrite (get_pruned _ _ _ _ h ltac:(u64_lia) Hk Hpr) by done. apply Hs; [done|lia|done].
  - intros h b. rewrite peek_retain. case_match; [apply Hc|done].
Qed.

Lemma invalidate_from_refines k c s :
  is_u64 k → represents c s → represents (invalidate_from k c) (spec_invalidate k s).
Proof.
  intros Hk [Hp Hn Hb Hb0 Hg Hr Hs Hc]. unfold invalidate_from, spec_invalidate. rewrite Hn.
  split; simpl; try done.
  - rewrite length_take. destruct (k <? _) eqn:E; bool_to_prop; u64_lia.
  - rewrite length_take. lia.
  - intros h b Hpos Hlow [Hl _]%lookup_take_Some. by apply Hs.
  - intros h b. rewrite peek_retain. destruct (k <=? h) eqn:E; [done|]. simpl. bool_to_prop.
    intros Hl. destruct (Hc _ _ Hl). split; [done|]. apply lookup_take_Some. split; [done|u64_lia].
Qed.

(** ** The cursor as a transition system *)

Inductive StoreOp :=
  | OpBlockAt (h : Z)
  | OpAppend (b : Block)
  | OpPrune (keep_from : Z)
  | OpInvalidate (from : Z).

Definition op_wf (op : StoreOp) : Prop :=
  match op with
  | OpBlockAt h | OpPrune h | OpInvalidate h => is_u64 h
  | OpAppend b => is_u64 (height (header b)) ∧ storable b
  end.

(** What a caller sees of an operation. *)
Inductive StoreOut :=
  | OutBlock (b : option Block)
  | OutAppended (r : result BlockStoreError ())
  | OutDone
  | OutStorage (e : BlockStoreError).

Definition run_op (op : StoreOp) (c : Cursor B L) : StoreOut * Cursor B L :=
  match op with
  | OpBlockAt h => let '(r, c) := block_at h c in
      (match r with Ok b => OutBlock b | Err e => OutStorage e end, c)
  | OpAppend b => let '(r, c) := append b c in
      (match r with Err (StorageFailure e) => OutStorage (StorageFailure e) | r => OutAppended r end, c)
  | OpPrune k => let '(r, c) := prune_below k c in
      (match r with Ok _ => OutDone | Err e => OutStorage e end, c)
  | OpInvalidate k => (OutDone, invalidate_from k c)
  end.

Definition spec_op (op : StoreOp) (s : Store) : StoreOut * Store :=
  match op with
  | OpBlockAt h => (OutBlock (spec_block_at h s), s)
  | OpAppend b => let '(r, s) := spec_append b s in (OutAppended r, s)
  | OpPrune k => (OutDone, spec_prune k s)
  | OpInvalidate k => (OutDone, spec_invalidate k s)
  end.

(** A storage failure has no effect on the store. *)
Definition spec_step (op : StoreOp) (out : StoreOut) (s : Store) : Store :=
  match out with OutStorage _ => s | _ => (spec_op op s).2 end.

Definition outs_agree (op : StoreOp) (out : StoreOut) (s : Store) : Prop :=
  match out with OutStorage _ => True | _ => out = (spec_op op s).1 end.

Lemma prune_err k c e c' : prune_below k c = (Err e, c') → ∃ e', e = StorageFailure e'.
Proof.
  unfold prune_below, st_get, st_lift, st_modify, mbind, stM_bind, mret, stM_ret.
  case_match; [done|]. destruct (prune_blocks_below _ _) as [[n s]|e0]; simpl; [done|].
  intros [= <- _]. eauto.
Qed.

(** One operation, answered as the specification answers it. *)
Lemma run_op_refines op c s :
  op_wf op → represents c s →
  outs_agree op (run_op op c).1 s ∧ represents (run_op op c).2 (spec_step op (run_op op c).1 s).
Proof.
  intros Hop Hrep. destruct op as [h|b|k|k]; simpl in *.
  - destruct (block_at_refines h c s (proj1 Hop) Hrep) as (c'&->&Hc'). done.
  - pose proof (append_refines b c s (proj1 Hop) (proj2 Hop) Hrep) as Ha. destruct (append b c) as [[[]|e] c']; simpl.
    + destruct Ha as [Ho Hc']. unfold outs_agree, spec_step. simpl.
      destruct (spec_append b s) as [r s']. simpl in *. by subst.
    + destruct e as [e| |n m]; unfold outs_agree, spec_step; simpl; [by subst|..];
        destruct Ha as [-> ->]; done.
  - pose proof (prune_below_refines k c s Hop Hrep) as Hp.
    destruct (prune_below k c) as [[n|e] c'] eqn:E; [done|]. apply prune_err in E as [e' ->]. by subst.
  - split; [done|]. by apply invalidate_from_refines.
Qed.

Fixpoint run_ops (ops : list StoreOp) (c : Cursor B L) : list StoreOut * Cursor B L :=
  match ops with
  | [] => ([], c)
  | op :: ops =>
      let '(out, c) := run_op op c in
      let '(outs, c) := run_ops ops c in (out :: outs, c)
  end.

Fixpoint spec_ops (ops : list StoreOp) (s : Store) : list StoreOut * Store :=
  match ops with
  | [] => ([], s)
  | op :: ops =>
      let '(out, s) := spec_op op s in
      let '(outs, s) := spec_ops ops s in (out :: outs, s)
  end.

Definition is_failure (out : StoreOut) : Prop :=
  match out with OutStorage _ => True | _ => False end.

#[global] Instance is_failure_dec out : Decision (is_failure out).
Proof. destruct out; simpl; apply _. Defined.

(** C9: the block store refines a list of blocks. On a self-persisting cursor, every
    sequence of reads, appends, prunings and truncations in which the storage
    does not fail gives the answers of a plain list of blocks with a pruning
    floor, whatever the cache evicts, and the cursor still represents that list. *)
Theorem block_store_refines (ops : list StoreOp) (c : Cursor B L) (s : Store) :
  Forall op_wf ops → represents c s → Forall (λ out, ¬ is_failure out) (run_ops ops c).1 →
  (run_ops ops c).1 = (spec_ops ops s).1 ∧ represents (run_ops ops c).2 (spec_ops ops s).2.
Proof.
  intros Hops. revert c s. induction Hops as [|op ops Hop _ IH]; intros c s Hrep Hok; [done|].
  destruct (run_op_refines op c s Hop Hrep) as [Ho Hr]. simpl in *.
  destruct (run_op op c) as [out c1]. simpl in *. specialize (IH c1).
  destruct (run_ops ops c1) as [outs c2]. simpl in *. apply Forall_cons in Hok as [Hf Hok].
  assert (out = (spec_op op s).1 ∧ represents c1 (spec_op op s).2) as [-> Hr1] by (by destruct out).
  destruct (spec_op op s) as [out' s1]. simpl in *. destruct (IH s1 Hr1 Hok) as [Ho2 Hr2].
  destruct (spec_ops ops s1) as [outs' s2]. simpl in *. by subst.
Qed.
End cursor.

(** ** The in-memory backend *)

(** [InMemoryBlockBackend]: a map from heights to blocks; it does not fail. *)
Definition InMemoryBlockBackend : Type := gmap Z Block.

#[global] Program Instance in_memory_backend : BlockBackend InMemoryBlockBackend := {|
  put_block b s := Ok (<[height (header b) := b]> s);
  get_block h s := Ok (s !! h);
  prune_blocks_below retain_from s :=
    if retain_from =? 0 then Ok (0%nat, s)
    else Ok (size (filter (λ kb, kb.1 < retain_from) s), filter (λ kb, ¬ kb.1 < retain_from) s);
  get_height s := Ok (foldr (λ k m, Some (from_option (Z.max k) k m)) None (map_to_list s).*1);
  storable _ := True;
|}.
Next Obligation.
  intros s s' b h _ _ _ [= <-]. unfold InMemoryBlockBackend in *. rewrite (lookup_insert (M:=gmap Z)).
  case_decide; case_bool_decide; congruence.
Qed.
Next Obligation.
  unfold InMemoryBlockBackend. intros s s' n k h _ _ Hp Hh. simpl in Hp. destruct (k =? 0); injection Hp as _ <-; [done|].
  f_equal. apply option_eq. intros b. rewrite map_lookup_filter_Some. simpl. split; [naive_solver|].
  intros Hb. split; [done|lia].
Qed.

(** ** An LRU cache *)

(** Most recent entries first; the first [lc_capacity] of them count. *)
Record LruList := mkLru { lc_capacity : nat; lc_entries : list (Z * Block) }.

Definition lc_items (c : LruList) : list (Z * Block) := take (lc_capacity c) (lc_entries c).

Fixpoint assoc (k : Z) (l : list (Z * Block)) : option Block :=
  match l with
  | [] => None
  | (h, b) :: l => if h =? k then Some b else assoc k l
  end.

Definition without (h : Z) (l : list (Z * Block)) : list (Z * Block) :=
  filter (λ kb, kb.1 ≠ h) l.

Lemma assoc_filter (P : Z * Block → Prop) `{∀ x, Decision (P x)} (p : Z → bool) k l :
  (∀ h b, P (h, b) ↔ p h = true) → assoc k (filter P l) = if p k then assoc k l else None.
Proof.
  intros HP. induction l as [|[h b] l IH]; [by destruct (p k)|].
  rewrite filter_cons. case_decide as Hd; simpl; rewrite IH.
  - apply HP in Hd. destruct (Z.eqb_spec h k) as [->|]; [by rewrite Hd|done].
  - destruct (Z.eqb_spec h k) as [->|]; [|done]. destruct (p k) eqn:E; [|done].
    by apply (HP k b) in E.
Qed.

Lemma assoc_without h k l : assoc k (without h l) = if h =? k then None else assoc k l.
Proof.
  unfold without. rewrite (assoc_filter _ (λ x, negb (x =? h))).
  - rewrite (Z.eqb_sym k h). by destruct (h =? k).
  - intros; simpl; by rewrite negb_true_iff, Z.eqb_neq.
Qed.

Lemma assoc_take n k l v : assoc k (take n l) = Some v → assoc k l = Some v.
Proof.
  revert n. induction l as [|[h b] l IH]; intros [|n]; simpl; try done. case_match; eauto.
Qed.

Lemma assoc_elem k l v : assoc k l = Some v → k ∈ l.*1.
Proof.
  induction l as [|[h b] l IH]; [done|]. simpl.
  destruct (Z.eqb_spec h k) as [->|]; [intros _; left|intros Hl; right; auto].
Qed.

Lemma length_without h l v : assoc h l = Some v → (S (length (without h l)) ≤ length l)%nat.
Proof.
  unfold without. induction l as [|[k b] l IH]; [done|]. simpl. rewrite filter_cons. simpl.
  destruct (Z.eqb_spec k h) as [->|Hne].
  - intros _. rewrite decide_False by auto. pose proof (length_filter (λ kb : Z * Block, kb.1 ≠ h) l). lia.
  - intros Hl. rewrite decide_True by done. simpl. specialize (IH Hl). lia.
Qed.

#[global] Program Instance lru_list : LruCache LruList := {|
  lru_new n := mkLru n [];
  lru_peek k c := assoc k (lc_items c);
  lru_get h c :=
    match assoc h (lc_items c) with
    | Some b => (Some b, mkLru (lc_capacity c) ((h, b) :: without h (lc_items c)))
    | None => (None, c)
    end;
  lru_put h b c := mkLru (lc_capacity c) ((h, b) :: without h (lc_items c));
  lru_retain p c := mkLru (lc_capacity c) (filter (λ kb, p kb.1 = true) (lc_items c));
  lru_capacity := lc_capacity;
  lru_keys c := list_to_set (lc_items c).*1;
|}.
Next Obligation. intros n h. unfold lc_items. simpl. by rewrite take_nil. Qed.
Next Obligation. intros c h. simpl. by destruct (assoc h (lc_items c)). Qed.
Next Obligation.
  intros c h k. simpl. destruct (assoc h (lc_items c)) as [b|] eqn:E; [|done].
  pose proof (length_without _ _ _ E) as Hlen. unfold lc_items at 1. simpl.
  rewrite take_ge by (simpl; unfold lc_items in *; rewrite length_take in *; lia).
  simpl. rewrite assoc_without. destruct (Z.eqb_spec h k) as [<-|]; done.
Qed.
Next Obligation.
  intros c h b k v. simpl. unfold lc_items at 1. simpl. intros Hk%assoc_take. simpl in Hk.
  rewrite assoc_without in Hk. destruct (Z.eqb_spec h k) as [->|]; [left; by simplify_eq|by right].
Qed.
Next Obligation.
  intros c p k. simpl. unfold lc_items at 1. simpl. rewrite take_ge.
  - by apply (assoc_filter (λ kb, p kb.1 = true) p).
  - rewrite length_filter. unfold lc_items. rewrite length_take. lia.
Qed.
Next Obligation. intros c k b. simpl. rewrite elem_of_list_to_set. apply assoc_elem. Qed.
Next Obligation.
  intros c. simpl. transitivity (length (lc_items c).*1).
  - apply size_list_to_set_le.
  - rewrite length_fmap. unfold lc_items. rewrite length_take. lia.
Qed.
Next Obligation. done. Qed.
Next Obligation. done. Qed.

(** ** Examples *)

Definition demo_stored (h : Z) : Block := mkBlock (mkHeader 1 h 0 [] [] [] 0 1 [] 0) [] [] None.
Abbreviation demo_cursor_type := (Cursor InMemoryBlockBackend LruList).

(** A self-persisting cursor over a genesis block, with room for one block. *)
Definition demo_cursor : demo_cursor_type :=
  mkCursor {[ 0 := demo_stored 0 ]} (demo_stored 0) (mkLru 1 []) 1 0 true.
Definition demo_store : Store := mkStore [demo_stored 0] (demo_stored 0) 0.

Lemma demo_cursor_new : new_with_persist {[ 0 := demo_stored 0 ]} 1 true = Ok demo_cursor.
Proof. vm_compute. exact eq_refl. Qed.

Lemma demo_represents : represents demo_cursor demo_store.
Proof.
  split; try done.
  intros h b Hpos _ Hl. simpl in Hl. by apply list_lookup_singleton_Some in Hl as [? _]; lia.
Qed.

(** Two appends, a truncation and another block at height 1. *)
Definition demo_other : Block := mkBlock (mkHeader 1 1 0 [] [] [] 0 1 [] 0) [] [x01] None.
Definition demo_ops : list StoreOp :=
  [OpAppend (demo_stored 1); OpAppend (demo_stored 2); OpBlockAt 1; OpInvalidate 1;
   OpAppend demo_other; OpBlockAt 1; OpBlockAt 2; OpPrune 1; OpBlockAt 1; OpAppend (demo_stored 7)].

Lemma demo_ops_succeed : Forall (λ out, ¬ is_failure out) (run_ops demo_ops demo_cursor).1.
Proof. vm_compute. repeat constructor; tauto. Qed.

Lemma block_store_refines_witness :
  (run_ops demo_ops demo_cursor).1 = (spec_ops demo_ops demo_store).1.
Proof.
  exact (proj1 (block_store_refines demo_ops demo_cursor demo_store
    ltac:(repeat constructor; simpl; discriminate) demo_represents demo_ops_succeed)).
Defined.

(** Pruning loses the genesis block. [prune_below] is documented never to drop
    it, and the cursor keeps its pinned copy, but the backend drops every height
    below the floor, height 0 included: a cursor opened on the storage of a
    pruned one fails. *)
Theorem pruned_store_cannot_reopen (keep_from : Z) (c c' : demo_cursor_type) (removed : nat)
    (cache_size : nat) (persist : bool) :
  0 < keep_from → base_height c < keep_from → prune_below keep_from c = (Ok removed, c') →
  @new_with_persist _ LruList _ _ (cu_storage c') cache_size persist = Err MissingGenesis ∧
  (block_at 0 c').1 = Ok (Some (cu_genesis c)).
Proof.
  intros Hk Hb. unfold prune_below, st_get, st_lift, st_modify, mbind, stM_bind, mret, stM_ret.
  rewrite (proj2 (Z.eqb_neq _ _)), (proj2 (Z.leb_gt _ _)) by lia. simpl.
  rewrite (proj2 (Z.eqb_neq keep_from 0)) by lia. simpl. intros [= _ <-]. split; [|done].
  unfold new_with_persist. simpl.
  assert (filter (λ kb : Z * Block, ¬ kb.1 < keep_from) (cu_storage c) !! 0 = None) as ->; [|done].
  apply map_lookup_filter_None. right. intros b _ Hn. simpl in Hn. lia.
Qed.

Definition demo_pruned : demo_cursor_type :=
  (prune_below 1 (append (demo_stored 1) demo_cursor).2).2.

Lemma demo_prune_run : prune_below 1 (append (demo_stored 1) demo_cursor).2 = (Ok 1%nat, demo_pruned).
Proof. vm_compute. exact eq_refl. Qed.

Lemma pruned_store_cannot_reopen_witness :
  @new_with_persist _ LruList _ _ (cu_storage demo_pruned) 1 true = Err MissingGenesis.
Proof.
  exact (proj1 (pruned_store_cannot_reopen 1 (append (demo_stored 1) demo_cursor).2 demo_pruned 1 1 true
    eq_refl eq_refl demo_prune_run)).
Defined.

(** The two locked sections of [block_at] are not one step. A reader that misses
    the cache and reads block 1 from the storage, while another caller truncates
    the chain and appends another block 1, then caches what it read: from there
    on the store, which represents the new chain, answers with the old block. *)
Theorem interleaved_read_caches_stale_block :
  let c0 := (run_ops [OpAppend (demo_stored 1); OpAppend (demo_stored 2)] demo_cursor).2 in
  let '(answer, c1) := block_at_begin 1 c0 in
  let c2 := (run_ops [OpInvalidate 1; OpAppend demo_other] c1).2 in
  answer = None ∧ get_block 1 (cu_storage c1) = Ok (Some (demo_stored 1)) ∧
  (block_at 1 c2).1 = Ok (Some demo_other) ∧
  (block_at 1 (block_at_finish 1 (Some (demo_stored 1)) c2).2).1 = Ok (Some (demo_stored 1)).
Proof. vm_compute. split_and!; exact eq_refl. Qed.

(** ** The write-behind cursor of a node with storage *)

Section write_behind.
Context {B L : Type} `{!BlockBackend B} `{!LruCache L}.

(** [replace_all_blocks] of [src/core/chain/mod.rs]: failed appends are only
    logged. *)
Definition cursor_replace_all (blocks : list Block) (c : Cursor B L) : Cursor B L :=
  foldl (λ c b, (append b c).2) (invalidate_from 0 c) blocks.

(** A cursor that does not persist, fed the first [n] blocks of a chain. *)
Record fed (c0 : Cursor B L) (n : nat) (c : Cursor B L) : Prop := {
  fed_count : height_count c = Z.of_nat n;
  fed_persist : self_persist c = false;
  fed_storage : cu_storage c = cu_storage c0;
  fed_base : base_height c = base_height c0;
  fed_capacity : lru_capacity (cu_cache c) = lru_capacity (cu_cache c0);
}.

Lemma replace_all_fed (blocks : list Block) (c : Cursor B L) :
  self_persist c = false → 0 ≤ height_count c →
  (∀ i b, blocks !! i = Some b → height (header b) = Z.of_nat i) →
  fed c (length blocks) (cursor_replace_all blocks c).
Proof.
  intros Hp Hn Hb. unfold cursor_replace_all.
  assert (∀ todo done c1, blocks = done ++ todo → fed c (length done) c1 →
    fed c (length blocks) (foldl (λ c b, (append b c).2) c1 todo)) as Hf.
  { induction todo as [|b todo IH]; intros dn c1 E [H1 H2 H3 H4 H5].
    - rewrite E, app_nil_r. done.
    - simpl. apply (IH (dn ++ [b])); [by rewrite <- app_assoc|].
      assert (height (header b) = Z.of_nat (length dn)) as Hh.
      { apply Hb. rewrite E. apply list_lookup_middle. done. }
      unfold append, st_get, st_guard, st_modify, st_lift, mbind, stM_bind, mret, stM_ret.
      rewrite H1, Hh, Z.eqb_refl, H2. rewrite length_app. simpl.
      destruct (_ =? 0); split; simpl; rewrite ?put_capacity; congruence || (rewrite ?H1; lia). }
  apply (Hf blocks []); [done|]. unfold invalidate_from.
  split; simpl; rewrite ?retain_capacity; try done.
  destruct (0 <? _) eqn:E; bool_to_prop; lia.
Qed.

(** A snapshot or reorganisation loses history on a node with storage. There the
    cursor only caches what it is given, so replacing the chain by one that the
    storage does not hold, of more non-genesis blocks than the cache has room for,
    leaves a height below the tip at which [block_at] finds nothing. *)
Theorem replaced_blocks_lost (blocks : list Block) (c : Cursor B L) :
  self_persist c = false → 0 ≤ height_count c → base_height c = 0 →
  (∀ i b, blocks !! i = Some b → height (header b) = Z.of_nat i) →
  (∀ h, 0 < h → get_block h (cu_storage c) = Ok None) →
  (lru_capacity (cu_cache c) + 1 < length blocks)%nat →
  let c' := cursor_replace_all blocks c in
  height_count c' = Z.of_nat (length blocks) ∧
  ∃ h, 0 < h < Z.of_nat (length blocks) ∧ (block_at h c').1 = Ok None.
Proof.
  intros Hp Hn Hb0 Hb Hs Hcap c'.
  destruct (replace_all_fed blocks c Hp Hn Hb) as [H1 H2 H3 H4 H5]. fold c' in H1, H2, H3, H4, H5.
  split; [done|]. set (n := Z.of_nat (length blocks)) in *.
  destruct (decide (Exists (λ h, lru_peek h (cu_cache c') = None) (seqZ 1 (n - 1)))) as [Hx|Hx].
  - apply Exists_exists in Hx as (h&Hh%elem_of_seqZ&Hpk). exists h. split; [lia|].
    unfold block_at, block_at_begin. rewrite (proj2 (Z.eqb_neq _ _)) by lia.
    rewrite H1, H4, Hb0, (proj2 (Z.leb_gt _ _)), (proj2 (Z.ltb_ge _ _)) by lia. simpl.
    pose proof (get_peek (cu_cache c') h) as Hg. destruct (lru_get h (cu_cache c')) as [o l].
    simpl in Hg. rewrite Hpk in Hg. subst o. cbn [set_cache cu_storage]. by rewrite H3, Hs by lia.
  - exfalso. assert (list_to_set (seqZ 1 (n - 1)) ⊆ lru_keys (cu_cache c')) as Hsub.
    { intros h Hh%elem_of_list_to_set. destruct (lru_peek h (cu_cache c')) eqn:E.
      - by eapply peek_keys.
      - destruct Hx. apply Exists_exists. eauto. }
    apply subseteq_size in Hsub. rewrite size_list_to_set in Hsub by apply NoDup_seqZ.
    rewrite length_seqZ in Hsub. pose proof (keys_capacity (cu_cache c')). lia.
Qed.
End write_behind.

(** A fresh node whose cache has room for one block is given three. *)
Definition demo_behind : demo_cursor_type :=
  mkCursor {[ 0 := demo_stored 0 ]} (demo_stored 0) (mkLru 1 []) 1 0 false.
Definition demo_history : list Block := [demo_stored 0; demo_stored 1; demo_stored 2].

Lemma replaced_blocks_lost_witness :
  ∃ h, 0 < h < 3 ∧ (block_at h (cursor_replace_all demo_history demo_behind)).1 = Ok None.
Proof.
  apply (replaced_blocks_lost demo_history demo_behind).
  - done.
  - done.
  - done.
  - intros [|[|[|i]]] b Hb; simpl in Hb; by simplify_eq.
  - intros h Hh. simpl. unfold InMemoryBlockBackend in *. by rewrite lookup_singleton_ne by lia.
  - simpl. lia.
Defined.
