(* ===== verification/BlockTree.v ===== *)
(** * Fork choice ([src/core/blocktree.rs])

    The tree of known blocks: insertion with the heaviest-chain rule, ancestor
    walks, finalization with pruning. The walks of the code are loops that
    follow [prev_hash] until the height-0 block or an unknown hash; [walk] is
    that loop, run with one step of fuel per height. *)
From S2P Require Import Prelude Hash Crypto Vm Transaction Block.

Record BlockEntry := mkEntry {
  be_block : Block;
  cumulative_stake_weight : Z;
  children : list bytes;
}.

Record BlockTree := mkTree {
  entries : gmap bytes BlockEntry;
  canonical_tip : bytes;
  bt_finalized_hash : bytes;
  bt_finalized_height : Z;
}.

Inductive BlockTreeError := OrphanBlock | BelowFinalized | InvalidHeightLink.

#[global] Instance BlockTreeError_eq_dec : EqDecision BlockTreeError.
Proof. solve_decision. Defined.

(** [BlockTree::from_genesis]. *)
Definition tree_from_genesis (genesis : Block) : BlockTree :=
  mkTree {[ block_hash genesis := mkEntry genesis 0 [] ]} (block_hash genesis)
    (block_hash genesis) 0.

(** ** Walking to the ancestors *)

(** [while let Some(entry) = entries.get(&current) { ..; if height == 0 { break; }
    current = prev_hash }]: the blocks visited, with their keys. *)
Fixpoint walk (fuel : nat) (t : BlockTree) (current : bytes) : list (bytes * Block) :=
  match fuel with
  | O => []
  | S fuel =>
      match entries t !! current with
      | Some entry =>
          (current, be_block entry) ::
          (if height (header (be_block entry)) =? 0 then []
           else walk fuel t (prev_hash (header (be_block entry))))
      | None => []
      end
  end.

(** One step per height of the starting block. *)
Definition walk_fuel (t : BlockTree) (hash : bytes) : nat :=
  match entries t !! hash with
  | Some entry => S (Z.to_nat (height (header (be_block entry))))
  | None => 1
  end.

Definition ancestry (t : BlockTree) (hash : bytes) : list (bytes * Block) :=
  walk (walk_fuel t hash) t hash.

Definition is_descendant_of (t : BlockTree) (descendant ancestor : bytes) : bool :=
  existsb (λ kb, bool_decide (kb.1 = ancestor)) (ancestry t descendant).

Definition canonical_chain (t : BlockTree) : list Block :=
  reverse (snd <$> ancestry t (canonical_tip t)).

Definition is_on_canonical_chain (t : BlockTree) (hash : bytes) : bool :=
  is_descendant_of t (canonical_tip t) hash.

Definition common_ancestor (t : BlockTree) (hash_a hash_b : bytes) : option bytes :=
  let ancestors_a : gset bytes := list_to_set (ancestry t hash_a).*1 in
  (λ r, r.2.1) <$> list_find (λ kb, kb.1 ∈ ancestors_a) (ancestry t hash_b).

(** The walk stopped before [ancestor_hash]. *)
Fixpoint until (ancestor_hash : bytes) (l : list (bytes * Block)) : list Block :=
  match l with
  | [] => []
  | (current, b) :: l =>
      if bool_decide (current = ancestor_hash) then [] else b :: until ancestor_hash l
  end.

Definition chain_between (t : BlockTree) (ancestor_hash descendant_hash : bytes) : list Block :=
  reverse (until ancestor_hash (ancestry t descendant_hash)).

(** ** Insertion *)

Definition add_child (h : bytes) (e : BlockEntry) : BlockEntry :=
  mkEntry (be_block e) (cumulative_stake_weight e) (children e ++ [h]).

(** [BlockTree::insert]; on [Err] the tree is unchanged. *)
Definition insert_block (t : BlockTree) (b : Block) (proposer_stake : Z)
    : result BlockTreeError (bool * BlockTree) :=
  let hash := block_hash b in
  let prev := prev_hash (header b) in
  if bool_decide (is_Some (entries t !! hash)) then Ok (false, t)
  else if (height (header b) <=? bt_finalized_height t) &&
          negb (bool_decide (hash = bt_finalized_hash t)) then Err BelowFinalized
  else
    parent ← ok_or OrphanBlock (entries t !! prev);
    if negb (height (header b) =? add64 (height (header (be_block parent))) 1)
    then Err InvalidHeightLink
    else if (0 <? bt_finalized_height t) && negb (bool_decide (prev = bt_finalized_hash t)) &&
            negb (is_descendant_of t prev (bt_finalized_hash t)) then Err BelowFinalized
    else
      let cumulative_weight := add64 (cumulative_stake_weight parent) proposer_stake in
      let entries' :=
        <[hash := mkEntry b cumulative_weight []]> (<[prev := add_child hash parent]> (entries t)) in
      let old_tip_weight :=
        from_option cumulative_stake_weight 0 (entries' !! canonical_tip t) in
      if old_tip_weight <? cumulative_weight then
        let t' := mkTree entries' hash (bt_finalized_hash t) (bt_finalized_height t) in
        Ok (negb (is_descendant_of t' hash (canonical_tip t)), t')
      else Ok (false, mkTree entries' (canonical_tip t) (bt_finalized_hash t) (bt_finalized_height t)).

(** ** Finalization *)

Definition kept_by_prune (t : BlockTree) (hash : bytes) : bool :=
  bool_decide (hash = bt_finalized_hash t) || is_descendant_of t hash (bt_finalized_hash t) ||
  is_descendant_of t (bt_finalized_hash t) hash.

Definition prune_below_finalized (t : BlockTree) : BlockTree :=
  if bt_finalized_height t =? 0 then t
  else mkTree (filter (λ he, kept_by_prune t he.1 = true) (entries t)) (canonical_tip t)
         (bt_finalized_hash t) (bt_finalized_height t).

Definition set_finalized (t : BlockTree) (hash : bytes) (h : Z) : BlockTree :=
  prune_below_finalized (mkTree (entries t) (canonical_tip t) hash h).

(** ** The tree as a transition system

    The steps the chain takes: any insertion, and finalization of a known
    canonical block above the last finalized height, which is what
    [Blockchain::add_finality_vote] checks before calling [set_finalized]. *)
Inductive tree_step : relation BlockTree :=
  | step_insert t b stake changed t' :
      insert_block t b stake = Ok (changed, t') → is_u64 (height (header b)) → tree_step t t'
  | step_finalize t hash e :
      entries t !! hash = Some e → is_on_canonical_chain t hash = true →
      bt_finalized_height t < height (header (be_block e)) →
      tree_step t (set_finalized t hash (height (header (be_block e)))).

(** [p] is the parent of the known block [h]. *)
Definition parent_of (t : BlockTree) (h p : bytes) : Prop :=
  ∃ e, entries t !! h = Some e ∧ height (header (be_block e)) ≠ 0 ∧
    prev_hash (header (be_block e)) = p.

(** [a] is an ancestor of [d], or [d] itself. *)
Definition descends (t : BlockTree) : relation bytes := rtc (parent_of t).

Record tree_wf (root : bytes) (t : BlockTree) : Prop := {
  tw_hash h e : entries t !! h = Some e → block_hash (be_block e) = h;
  tw_height h e : entries t !! h = Some e → 0 ≤ height (header (be_block e)) ≤ u64_max;
  tw_link h e : entries t !! h = Some e → height (header (be_block e)) ≠ 0 →
    ∃ p, entries t !! prev_hash (header (be_block e)) = Some p ∧
      height (header (be_block e)) = height (header (be_block p)) + 1;
  tw_root h e : entries t !! h = Some e → height (header (be_block e)) = 0 → h = root;
  tw_tip : is_Some (entries t !! canonical_tip t);
  tw_heaviest h e : entries t !! h = Some e →
    cumulative_stake_weight e ≤
      from_option cumulative_stake_weight 0 (entries t !! canonical_tip t);
  tw_final : ∃ e, entries t !! bt_finalized_hash t = Some e ∧
    height (header (be_block e)) = bt_finalized_height t;
  tw_tip_final : descends t (canonical_tip t) (bt_finalized_hash t);
}.

(** ** Ancestry *)

Lemma parent_of_fun t h p q : parent_of t h p → parent_of t h q → p = q.
Proof. intros (e&He&_&<-) (f&Hf&_&<-). congruence. Qed.

(** The ancestors of a block form a line. *)
Lemma descends_linear t d a b : descends t d a → descends t d b → descends t a b ∨ descends t b a.
Proof.
  intros Ha. revert b. induction Ha as [d|d p a Hp Ha IH]; intros b Hb; [by left|].
  inversion Hb as [|? q ? Hq Hqb]; subst.
  - right. by eapply rtc_l.
  - pose proof (parent_of_fun _ _ _ _ Hp Hq) as ->. by apply IH.
Qed.

Section wf.
Context (root : bytes) (t : BlockTree) (Hwf : tree_wf root t).

Lemma parent_of_known h p :
  parent_of t h p → ∃ e f, entries t !! h = Some e ∧ entries t !! p = Some f ∧
    height (header (be_block e)) = height (header (be_block f)) + 1.
Proof.
  intros (e&He&Hh&<-). destruct (tw_link _ _ Hwf h e He Hh) as (f&Hf&Hl). eauto.
Qed.

Lemma descends_known d a :
  is_Some (entries t !! d) → descends t d a → is_Some (entries t !! a).
Proof.
  intros Hd Hr. induction Hr as [|d p a Hp Hr IH]; [done|].
  apply IH. destruct (parent_of_known _ _ Hp) as (?&?&_&?&_). eauto.
Qed.

(** A proper ancestor is strictly lower. *)
Lemma descends_height d a e f :
  entries t !! d = Some e → entries t !! a = Some f → descends t d a →
  d = a ∨ height (header (be_block f)) < height (header (be_block e)).
Proof.
  intros He Hf Hr. revert e He. induction Hr as [d|d p a Hp Hr IH]; intros e He; [by left|right].
  destruct (parent_of_known _ _ Hp) as (e'&g&He'&Hg&Hl).
  destruct (IH Hf g Hg) as [->|]; simplify_eq; lia.
Qed.

Lemma descends_antisym a b : is_Some (entries t !! a) → descends t a b → descends t b a → a = b.
Proof.
  intros Ha Hab Hba. pose proof (descends_known _ _ Ha Hab) as [f Hf]. destruct Ha as [e He].
  destruct (descends_height _ _ _ _ He Hf Hab), (descends_height _ _ _ _ Hf He Hba); auto; lia.
Qed.

(** The loop visits exactly the ancestors, given one step per height. *)
Lemma elem_of_walk fuel d e a :
  entries t !! d = Some e → (Z.to_nat (height (header (be_block e))) < fuel)%nat →
  a ∈ (walk fuel t d).*1 ↔ descends t d a.
Proof.
  revert d e. induction fuel as [|fuel IH]; intros d e He Hf; [lia|]. simpl. rewrite He.
  pose proof (tw_height _ _ Hwf d e He) as Hn. rewrite fmap_cons, elem_of_cons. simpl.
  destruct (Z.eqb_spec (height (header (be_block e))) 0) as [Hz|Hz]; simpl.
  - split; [intros [->|?%not_elem_of_nil]; [apply rtc_refl|done]|].
    intros Hr. left. inversion Hr as [|? p ? (f&Hf'&Hnz&_)]; subst; [done|]. congruence.
  - destruct (tw_link _ _ Hwf d e He Hz) as (p&Hp&Hl).
    rewrite (IH _ p Hp) by lia. split.
    + intros [->|Hr]; [apply rtc_refl|]. eapply rtc_l; [|exact Hr]. by exists e.
    + intros Hr. inversion Hr as [|? q ? (f&Hf'&_&<-) Hq]; subst; [by left|right].
      by simplify_eq.
Qed.

Lemma elem_of_ancestry d a :
  a ∈ (ancestry t d).*1 ↔ is_Some (entries t !! d) ∧ descends t d a.
Proof.
  unfold ancestry, walk_fuel. destruct (entries t !! d) as [e|] eqn:He.
  - rewrite (elem_of_walk _ d e a He) by lia. naive_solver.
  - simpl. rewrite He. simpl. split; [by intros ?%not_elem_of_nil|by intros [[? ?] _]].
Qed.

Lemma is_descendant_of_spec d a :
  is_descendant_of t d a = true ↔ is_Some (entries t !! d) ∧ descends t d a.
Proof.
  rewrite <- elem_of_ancestry. unfold is_descendant_of. rewrite existsb_exists, list_elem_of_fmap.
  split.
  - intros ((k&b)&Hin&Hk). apply bool_decide_eq_true in Hk. exists (k, b).
    split; [done|]. by apply list_elem_of_In.
  - intros ((k&b)&->&Hin). exists (k, b). split; [by apply list_elem_of_In|].
    by apply bool_decide_eq_true.
Qed.

(** More fuel changes nothing: the loops terminate within one step per height. *)
Lemma walk_fuel_enough fuel d e :
  entries t !! d = Some e → (Z.to_nat (height (header (be_block e))) < fuel)%nat →
  walk fuel t d = ancestry t d.
Proof.
  intros He. unfold ancestry, walk_fuel. rewrite He.
  cut (∀ n m, (Z.to_nat (height (header (be_block e))) < n)%nat →
    (Z.to_nat (height (header (be_block e))) < m)%nat → walk n t d = walk m t d); [auto with lia|].
  intros n. revert d e He. induction n as [|n IH]; intros d e He [|m] Hn Hm; [lia..|].
  simpl. rewrite He. pose proof (tw_height _ _ Hwf d e He).
  destruct (Z.eqb_spec (height (header (be_block e))) 0) as [|Hz]; [done|]. f_equal.
  destruct (tw_link _ _ Hwf d e He Hz) as (p&Hp&Hl). apply (IH _ p Hp); lia.
Qed.

(** Every block descends from the root. *)
Lemma descends_root d : is_Some (entries t !! d) → descends t d root.
Proof.
  intros [e He]. remember (Z.to_nat (height (header (be_block e)))) as n eqn:Hn.
  revert d e He Hn. induction n as [|n IH]; intros d e He Hn;
    pose proof (tw_height _ _ Hwf d e He).
  - rewrite (tw_root _ _ Hwf d e He) by lia. apply rtc_refl.
  - destruct (tw_link _ _ Hwf d e He) as (p&Hp&Hl); [lia|].
    eapply rtc_l; [exists e; split; [done|]; split; [lia|done]|]. apply (IH _ p Hp). lia.
Qed.
End wf.

(** ** Insertion preserves well-formedness *)

Lemma insert_block_cases t b stake changed t' :
  insert_block t b stake = Ok (changed, t') →
  let hash := block_hash b in
  let prev := prev_hash (header b) in
  t' = t ∧ changed = false ∧ is_Some (entries t !! hash) ∨
  ∃ parent, entries t !! hash = None ∧ entries t !! prev = Some parent ∧
    (bt_finalized_height t < height (header b) ∨ hash = bt_finalized_hash t) ∧
    height (header b) = add64 (height (header (be_block parent))) 1 ∧
    (bt_finalized_height t ≤ 0 ∨ prev = bt_finalized_hash t ∨
     is_descendant_of t prev (bt_finalized_hash t) = true) ∧
    let w := add64 (cumulative_stake_weight parent) stake in
    let entries' := <[hash := mkEntry b w []]> (<[prev := add_child hash parent]> (entries t)) in
    let old := from_option cumulative_stake_weight 0 (entries' !! canonical_tip t) in
    entries t' = entries' ∧ bt_finalized_hash t' = bt_finalized_hash t ∧
    bt_finalized_height t' = bt_finalized_height t ∧
    (old < w ∧ canonical_tip t' = hash ∧
       changed = negb (is_descendant_of t' hash (canonical_tip t)) ∨
     w ≤ old ∧ canonical_tip t' = canonical_tip t ∧ changed = false).
Proof.
  intros Hok hash prev. unfold insert_block in Hok. fold hash prev in Hok.
  case_bool_decide as Hk; [left; simplify_eq; auto|right].
  destruct ((height (header b) <=? _) && _) eqn:Hf; [done|].
  destruct (entries t !! prev) as [parent|] eqn:Hp; [|done]. cbn [ok_or mbind result_bind] in Hok.
  destruct (negb (height (header b) =? _)) eqn:Hh; [done|].
  destruct (_ && negb (is_descendant_of _ _ _)) eqn:Hd; [done|].
  exists parent. split_and!; [by apply eq_None_not_Some|done| | | |].
  - apply andb_false_iff in Hf as [Hf|Hf]; bool_to_prop; auto.
  - by bool_to_prop.
  - apply andb_false_iff in Hd as [Hd|Hd]; [|by bool_to_prop; auto].
    apply andb_false_iff in Hd as [Hd|Hd]; bool_to_prop; auto.
  - cbv zeta in *. destruct (_ <? _) eqn:Hw in Hok; bool_to_prop; simplify_eq/=;
      split_and!; auto.
Qed.

(** The entries after an insertion: the new one, and the old ones with the same
    block and weight. *)
Section inserted.
Context (t : BlockTree) (b : Block) (w : Z) (parent : BlockEntry).
Let hash := block_hash b.
Let prev := prev_hash (header b).
Hypothesis (Hnew : entries t !! hash = None) (Hparent : entries t !! prev = Some parent).
Let entries' := <[hash := mkEntry b w []]> (<[prev := add_child hash parent]> (entries t)).

Lemma inserted_old k e :
  entries t !! k = Some e → ∃ e', entries' !! k = Some e' ∧ be_block e' = be_block e ∧
    cumulative_stake_weight e' = cumulative_stake_weight e.
Proof.
  intros Hk. unfold entries'. rewrite lookup_insert_ne by congruence.
  destruct (decide (prev = k)) as [<-|Hne].
  - rewrite lookup_insert_eq. assert (e = parent) as -> by congruence. by eexists.
  - rewrite lookup_insert_ne by done. by exists e.
Qed.

Lemma inserted_inv k e' :
  entries' !! k = Some e' →
  k = hash ∧ e' = mkEntry b w [] ∨
  ∃ e, entries t !! k = Some e ∧ be_block e' = be_block e ∧
    cumulative_stake_weight e' = cumulative_stake_weight e.
Proof.
  unfold entries'. destruct (decide (hash = k)) as [<-|Hne].
  { rewrite lookup_insert_eq. intros [= <-]. by left. }
  rewrite lookup_insert_ne by done. destruct (decide (prev = k)) as [<-|Hne'].
  - rewrite lookup_insert_eq. intros [= <-]. right. by exists parent.
  - rewrite lookup_insert_ne by done. intros Hk. right. by exists e'.
Qed.

Lemma inserted_parent_of t' h p :
  entries t' = entries' → parent_of t h p → parent_of t' h p.
Proof.
  intros He (e&Hk&Hh&Hp). destruct (inserted_old h e Hk) as (e'&Hk'&Hb&_).
  exists e'. rewrite He, Hb. done.
Qed.

Lemma inserted_descends t' d a :
  entries t' = entries' → descends t d a → descends t' d a.
Proof.
  intros He Hr. induction Hr as [|d p a Hp Hr IH]; [apply rtc_refl|].
  eapply rtc_l; [by eapply inserted_parent_of|done].
Qed.

Lemma inserted_head t' : entries t' = entries' → height (header b) ≠ 0 → parent_of t' hash prev.
Proof. intros He Hh. exists (mkEntry b w []). rewrite He. split; [apply lookup_insert_eq|done]. Qed.
End inserted.

(** A child above the finalized height is exactly one above its parent: the
    checked sum did not wrap. *)
Lemma child_height hb hp : 0 ≤ hp ≤ u64_max → 0 < hb → hb = add64 hp 1 → hb = hp + 1.
Proof.
  intros Hp Hb ->. unfold add64, wrap64 in *. destruct (decide (hp = u64_max)) as [->|].
  - by vm_compute in Hb.
  - apply Z.mod_small. u64_lia.
Qed.

(** The weight of a known block is not changed by an insertion. *)
Lemma inserted_weight t b w parent k :
  entries t !! block_hash b = None → entries t !! prev_hash (header b) = Some parent →
  is_Some (entries t !! k) →
  from_option cumulative_stake_weight 0
    ((<[block_hash b := mkEntry b w []]> (<[prev_hash (header b) := add_child (block_hash b) parent]>
      (entries t))) !! k) = from_option cumulative_stake_weight 0 (entries t !! k).
Proof.
  intros Hnew Hpar [e He]. destruct (inserted_old t b w parent Hnew Hpar k e He) as (e'&->&_&Hw).
  by rewrite He.
Qed.

(** What the guards of an insertion establish in a well-formed tree. *)
Lemma insert_guards root t b parent :
  tree_wf root t → entries t !! block_hash b = None →
  entries t !! prev_hash (header b) = Some parent →
  (bt_finalized_height t < height (header b) ∨ block_hash b = bt_finalized_hash t) →
  height (header b) = add64 (height (header (be_block parent))) 1 →
  (bt_finalized_height t ≤ 0 ∨ prev_hash (header b) = bt_finalized_hash t ∨
   is_descendant_of t (prev_hash (header b)) (bt_finalized_hash t) = true) →
  0 ≤ bt_finalized_height t < height (header b) ∧
  height (header b) = height (header (be_block parent)) + 1 ∧
  descends t (prev_hash (header b)) (bt_finalized_hash t).
Proof.
  intros Hwf Hnew Hpar Hfin Hh Hdesc.
  destruct (tw_final _ _ Hwf) as (f&Hf&Hff). pose proof (tw_height _ _ Hwf _ _ Hf) as Hf0.
  pose proof (tw_height _ _ Hwf _ _ Hpar) as Hp0.
  destruct Hfin as [Hfin|Hfin]; [|congruence].
  split; [lia|]. split; [apply child_height; lia|].
  destruct Hdesc as [Hz|[->|Hd]]; [|apply rtc_refl|by eapply is_descendant_of_spec].
  rewrite (tw_root _ _ Hwf _ _ Hf) by lia. by eapply descends_root.
Qed.

Lemma insert_block_wf root t b stake changed t' :
  tree_wf root t → is_u64 (height (header b)) →
  insert_block t b stake = Ok (changed, t') → tree_wf root t'.
Proof.
  intros Hwf Hu Hok. apply insert_block_cases in Hok as [(->&_&_)|Hok]; [done|].
  destruct Hok as (parent&Hnew&Hpar&Hfin&Hh&Hdesc&Hent&Hfh&Hfn&Htip).
  destruct (insert_guards root t b parent) as (Hf0&Hl&Hpf); [done..|].
  destruct (tw_final _ _ Hwf) as (f&Hf&Hff).
  pose proof (λ k e, inserted_old t b (add64 (cumulative_stake_weight parent) stake) parent Hnew
    Hpar k e) as Hold. rewrite <- Hent in Hold.
  pose proof (λ k e, inserted_inv t b (add64 (cumulative_stake_weight parent) stake) parent
    Hpar k e) as Hinv. rewrite <- Hent in Hinv.
  pose proof (λ d a, inserted_descends t b _ parent Hnew Hpar t' d a Hent) as Hdescends.
  assert (parent_of t' (block_hash b) (prev_hash (header b))) as Hhead
    by (apply (inserted_head t b _ parent t' Hent); lia).
  split.
  - intros k e Hk. destruct (Hinv k e Hk) as [[-> ->]|(e0&Hk0&->&_)]; [done|]. by eapply tw_hash.
  - intros k e Hk. destruct (Hinv k e Hk) as [[-> ->]|(e0&Hk0&->&_)]; [done|]. by eapply tw_height.
  - intros k e Hk Hnz. destruct (Hinv k e Hk) as [[-> ->]|(e0&Hk0&Hb&_)].
    + destruct (Hold _ _ Hpar) as (p'&Hp'&Hbp&_). exists p'. by rewrite Hbp.
    + rewrite Hb in *. destruct (tw_link _ _ Hwf k e0 Hk0 Hnz) as (p&Hp&Hlp).
      destruct (Hold _ _ Hp) as (p'&Hp'&Hbp&_). exists p'. by rewrite Hbp.
  - intros k e Hk Hz. destruct (Hinv k e Hk) as [[-> ->]|(e0&Hk0&Hb&_)]; [simpl in Hz; lia|].
    rewrite Hb in Hz. by eapply tw_root.
  - destruct Htip as [(_&->&_)|(_&->&_)]; [rewrite Hent, lookup_insert_eq; by eexists|].
    destruct (tw_tip _ _ Hwf) as [e He]. destruct (Hold _ _ He) as (e'&He'&_). eauto.
  - intros k e Hk.
    assert (from_option cumulative_stake_weight 0 (entries t' !! canonical_tip t) =
      from_option cumulative_stake_weight 0 (entries t !! canonical_tip t)) as Hsame.
    { destruct (tw_tip _ _ Hwf) as [e0 He0]. destruct (Hold _ _ He0) as (e'&He'&_&Hw).
      by rewrite He', He0. }
    rewrite <- Hent, Hsame in Htip.
    assert (cumulative_stake_weight e ≤ add64 (cumulative_stake_weight parent) stake ∧
        k = block_hash b ∨ cumulative_stake_weight e ≤
        from_option cumulative_stake_weight 0 (entries t !! canonical_tip t)) as Hle.
    { destruct (Hinv k e Hk) as [[-> ->]|(e0&Hk0&_&->)]; [by left|right]. by eapply tw_heaviest. }
    destruct Htip as [(Hlt&->&_)|(Hge&->&_)].
    + rewrite Hent at 1. rewrite lookup_insert_eq. simpl. lia.
    + rewrite Hsame. lia.
  - rewrite Hfh, Hfn. destruct (Hold _ _ Hf) as (f'&Hf'&Hbf&_). exists f'. by rewrite Hbf.
  - rewrite Hfh. destruct Htip as [(_&->&_)|(_&->&_)].
    + eapply rtc_l; [exact Hhead|]. by apply Hdescends.
    + apply Hdescends. by eapply tw_tip_final.
Qed.

(** The choice of the tip, and the meaning of the returned flag. *)
Lemma tip_choice root t t' b w old changed :
  tree_wf root t → tree_wf root t' → entries t !! block_hash b = None →
  (old < w ∧ canonical_tip t' = block_hash b ∧
     changed = negb (is_descendant_of t' (block_hash b) (canonical_tip t)) ∨
   w ≤ old ∧ canonical_tip t' = canonical_tip t ∧ changed = false) →
  canonical_tip t' = (if old <? w then block_hash b else canonical_tip t) ∧
  (changed = true ↔ canonical_tip t' ≠ canonical_tip t ∧
                     ¬ descends t' (canonical_tip t') (canonical_tip t)).
Proof.
  intros Hwf Hwf' Hnew [(Hlt&Htip&->)|(Hle&->&->)].
  - rewrite Htip, (proj2 (Z.ltb_lt _ _) Hlt). split; [done|].
    pose proof (is_descendant_of_spec root t' Hwf' (block_hash b) (canonical_tip t)) as Hd.
    assert (is_Some (entries t' !! block_hash b)) as Hs
      by (rewrite <- Htip; by eapply tw_tip).
    assert (block_hash b ≠ canonical_tip t) as Hne.
    { intros E. rewrite E in Hnew. destruct (tw_tip _ _ Hwf) as [? Ht]. congruence. }
    rewrite negb_true_iff, <- not_true_iff_false, Hd. naive_solver.
  - rewrite (proj2 (Z.ltb_ge _ _) Hle). naive_solver.
Qed.

(** ** Finalization preserves well-formedness *)

Section finalized.
Context (root : bytes) (t : BlockTree) (Hwf : tree_wf root t).
Context (hash : bytes) (f : BlockEntry) (Hf : entries t !! hash = Some f).
Let marked := mkTree (entries t) (canonical_tip t) hash (height (header (be_block f))).
Let t' := set_finalized t hash (height (header (be_block f))).

(** Marking does not change the walks. *)
Lemma walk_marked fuel k : walk fuel marked k = walk fuel t k.
Proof.
  revert k. induction fuel as [|fuel IH]; intros k; [done|]. simpl.
  destruct (entries t !! k); [|done]. f_equal. case_match; [done|]. apply IH.
Qed.

Lemma is_descendant_of_marked d a : is_descendant_of marked d a = is_descendant_of t d a.
Proof. unfold is_descendant_of, ancestry. by rewrite walk_marked. Qed.

Lemma kept_spec k :
  is_Some (entries t !! k) →
  kept_by_prune marked k = true ↔ descends t k hash ∨ descends t hash k.
Proof.
  intros Hk. unfold kept_by_prune. rewrite !is_descendant_of_marked, !orb_true_iff.
  rewrite bool_decide_eq_true, !(is_descendant_of_spec root t Hwf). simpl. split.
  - intros [[->|[_ ?]]|[_ ?]]; [left; apply rtc_refl|by left|by right].
  - intros [?|?]; [by left; right|right]. split; [by eexists|done].
Qed.

Hypothesis (Hpos : height (header (be_block f)) ≠ 0).

Lemma pruned_lookup k e :
  entries t' !! k = Some e ↔
    entries t !! k = Some e ∧ (descends t k hash ∨ descends t hash k).
Proof.
  unfold t', set_finalized, prune_below_finalized. cbn [bt_finalized_height].
  rewrite (proj2 (Z.eqb_neq _ _)) by done. cbn [entries]. rewrite map_lookup_filter_Some.
  split; intros [Hk Hkeep]; (split; [done|]); eapply kept_spec; eauto.
Qed.

Lemma pruned_fields :
  canonical_tip t' = canonical_tip t ∧ bt_finalized_hash t' = hash ∧
  bt_finalized_height t' = height (header (be_block f)).
Proof.
  unfold t', set_finalized, prune_below_finalized. cbn [bt_finalized_height].
  by rewrite (proj2 (Z.eqb_neq _ _)).
Qed.

(** The parent of a kept block is kept. *)
Lemma kept_parent k p :
  descends t k hash ∨ descends t hash k → parent_of t k p → descends t p hash ∨ descends t hash p.
Proof.
  intros [Hk|Hk] Hp.
  - inversion Hk as [|? q ? Hq Hr]; subst; [right; by apply rtc_once|left].
    by rewrite (parent_of_fun _ _ _ _ Hp Hq).
  - right. by eapply rtc_r.
Qed.

Lemma pruned_descends k a :
  is_Some (entries t !! k) → descends t k hash ∨ descends t hash k →
  descends t k a → descends t' k a.
Proof.
  intros Hs Hk Hr. induction Hr as [|k p a Hp Hr IH]; [apply rtc_refl|].
  pose proof (kept_parent _ _ Hk Hp) as Hkp.
  destruct (parent_of_known root t Hwf _ _ Hp) as (e&g&He&Hg&_).
  eapply rtc_l; [|apply IH; eauto]. destruct Hp as (e'&He'&Hh&Hpr).
  exists e'. by rewrite pruned_lookup.
Qed.

Lemma set_finalized_wf : descends t (canonical_tip t) hash → tree_wf root t'.
Proof.
  intros Hcan. destruct pruned_fields as (Htip&Hfh&Hfn).
  assert (∀ k e, entries t' !! k = Some e → entries t !! k = Some e) as Hsub
    by (intros k e Hk; by apply pruned_lookup in Hk as [? _]).
  destruct (tw_tip _ _ Hwf) as [tip He].
  assert (entries t' !! canonical_tip t = Some tip) as Htip' by (apply pruned_lookup; auto).
  split.
  - intros k e Hk. eapply tw_hash; eauto.
  - intros k e Hk. eapply tw_height; eauto.
  - intros k e Hk Hnz. apply pruned_lookup in Hk as [Hk Hkeep].
    destruct (tw_link _ _ Hwf k e Hk Hnz) as (p&Hp&Hl). exists p. split; [|done].
    apply pruned_lookup. split; [done|]. eapply kept_parent; [exact Hkeep|]. by exists e.
  - intros k e Hk. eapply tw_root; eauto.
  - rewrite Htip, Htip'. by eexists.
  - intros k e Hk. rewrite Htip, Htip'. apply Hsub in Hk.
    pose proof (tw_heaviest _ _ Hwf k e Hk) as Hw. by rewrite He in Hw.
  - rewrite Hfh, Hfn. exists f. split; [|done]. apply pruned_lookup. split; [done|].
    left. apply rtc_refl.
  - rewrite Htip, Hfh. apply pruned_descends; eauto.
Qed.
End finalized.

Lemma tree_step_wf root t t' : tree_wf root t → tree_step t t' → tree_wf root t'.
Proof.
  intros Hwf Hs. destruct Hs as [t b stake changed t' Hok Hu|t hash e He Hcan Hlt].
  - by eapply insert_block_wf.
  - apply (is_descendant_of_spec root t Hwf) in Hcan as [_ Hcan].
    apply set_finalized_wf; [done|done| |done].
    destruct (tw_final _ _ Hwf) as (f&Hf&Hh). pose proof (tw_height _ _ Hwf _ _ Hf). lia.
Qed.

(** A block that was finalized stays below the tip. *)
Lemma tree_step_final root t t' :
  tree_wf root t → tree_step t t' → descends t' (bt_finalized_hash t') (bt_finalized_hash t).
Proof.
  intros Hwf Hs. destruct Hs as [t b stake changed t' Hok Hu|t hash e He Hcan Hlt].
  - apply insert_block_cases in Hok as [(->&_&_)|(?&_&_&_&_&_&_&->&_&_)]; apply rtc_refl.
  - destruct (tw_final _ _ Hwf) as (f&Hf&Hh). pose proof (tw_height _ _ Hwf _ _ Hf).
    assert (height (header (be_block e)) ≠ 0) as Hnz by lia.
    destruct (pruned_fields t hash e Hnz) as (_&->&_).
    apply (is_descendant_of_spec root t Hwf) in Hcan as [_ Hcan].
    apply (pruned_descends root t Hwf hash e He Hnz); [by eexists|left; apply rtc_refl|].
    destruct (descends_linear _ _ _ _ Hcan (tw_tip_final _ _ Hwf)) as [|Hr]; [done|].
    destruct (descends_height root t Hwf _ _ _ _ Hf He Hr) as [->|]; [apply rtc_refl|lia].
Qed.

(** What descended from the finalized block's past still does. *)
Lemma tree_step_descends root t t' a :
  tree_wf root t → tree_step t t' → descends t (bt_finalized_hash t) a →
  descends t' (bt_finalized_hash t) a.
Proof.
  intros Hwf Hs Ha. destruct Hs as [t b stake changed t' Hok Hu|t hash e He Hcan Hlt].
  - apply insert_block_cases in Hok as [(->&_&_)|(parent&Hnew&Hpar&_&_&_&Hent&_)]; [done|].
    by apply (inserted_descends t b _ parent Hnew Hpar t' _ _ Hent).
  - destruct (tw_final _ _ Hwf) as (f&Hf&Hh). pose proof (tw_height _ _ Hwf _ _ Hf).
    assert (height (header (be_block e)) ≠ 0) as Hnz by lia.
    apply (is_descendant_of_spec root t Hwf) in Hcan as [_ Hcan].
    apply (pruned_descends root t Hwf hash e He Hnz); [by eexists| |done].
    destruct (descends_linear _ _ _ _ Hcan (tw_tip_final _ _ Hwf)) as [|Hr]; [by right|by left].
Qed.

Lemma rtc_tree_wf root t t' : tree_wf root t → rtc tree_step t t' → tree_wf root t'.
Proof. intros Hwf Hr. induction Hr; eauto using tree_step_wf. Qed.

Lemma rtc_tree_final root t t' a :
  tree_wf root t → rtc tree_step t t' → descends t (bt_finalized_hash t) a →
  descends t' (bt_finalized_hash t') a.
Proof.
  intros Hwf Hr. revert a. induction Hr as [|t1 t2 t3 Hs Hr IH]; intros a Ha; [done|].
  pose proof (tree_step_wf _ _ _ Hwf Hs) as Hwf2. apply (IH Hwf2).
  unfold descends. etrans; [by apply (tree_step_final root t1)|].
  by apply (tree_step_descends root t1).
Qed.

Lemma tree_from_genesis_wf genesis :
  height (header genesis) = 0 → tree_wf (block_hash genesis) (tree_from_genesis genesis).
Proof.
  intros Hz. assert (∀ h e, entries (tree_from_genesis genesis) !! h = Some e →
    h = block_hash genesis ∧ e = mkEntry genesis 0 []) as Hinv.
  { intros h e He. simpl in He. apply lookup_singleton_Some in He as [<- <-]. done. }
  split.
  - by intros h e [-> ->]%Hinv.
  - intros h e [-> ->]%Hinv. simpl. rewrite Hz. u64_lia.
  - by intros h e [-> ->]%Hinv.
  - by intros h e [-> ->]%Hinv.
  - simpl. rewrite lookup_singleton_eq. by eexists.
  - intros h e [-> ->]%Hinv. simpl. by rewrite lookup_singleton_eq.
  - simpl. rewrite lookup_singleton_eq. by eexists.
  - apply rtc_refl.
Qed.

(** ** The order of a walk *)

Lemma elem_of_walk_descends fuel t d a : a ∈ (walk fuel t d).*1 → descends t d a.
Proof.
  revert d. induction fuel as [|fuel IH]; intros d; simpl; [by intros ?%not_elem_of_nil|].
  destruct (entries t !! d) as [e|] eqn:He; [|by intros ?%not_elem_of_nil].
  rewrite fmap_cons, elem_of_cons. intros [->|Ha]; [apply rtc_refl|].
  destruct (Z.eqb_spec (height (header (be_block e))) 0) as [|Hz]; [by apply not_elem_of_nil in Ha|].
  eapply rtc_l; [by exists e|]. by apply IH.
Qed.

(** Dropping the first blocks of a walk leaves the walk of the next one. *)
Lemma drop_walk fuel t d i k b :
  walk fuel t d !! i = Some (k, b) → drop i (walk fuel t d) = walk (fuel - i) t k.
Proof.
  revert fuel d. induction i as [|i IH]; intros [|fuel] d; [done| |done|].
  - intros Hk. rewrite drop_0. replace (S fuel - 0)%nat with (S fuel) by lia. simpl in *.
    destruct (entries t !! d) eqn:Hd; [|done]. simpl in Hk. injection Hk as <- <-.
    by rewrite Hd.
  - simpl. destruct (entries t !! d) as [e|]; [|done]. simpl.
    destruct (height (header (be_block e)) =? 0); [done|]. apply IH.
Qed.

Lemma walk_ordered fuel t d i j x y :
  (i ≤ j)%nat → walk fuel t d !! i = Some x → walk fuel t d !! j = Some y → descends t x.1 y.1.
Proof.
  destruct x as [k b]. intros Hij Hi Hj. apply (elem_of_walk_descends (fuel - i)). cbn [fst].
  rewrite <- (drop_walk _ _ _ _ _ _ Hi). apply list_elem_of_fmap_2.
  apply list_elem_of_lookup. exists (j - i)%nat. rewrite lookup_drop. by replace (i + (j - i))%nat with j by lia.
Qed.

(** A walk yields stored blocks under their keys. *)
Lemma walk_entry fuel t d i k b :
  walk fuel t d !! i = Some (k, b) → ∃ e, entries t !! k = Some e ∧ be_block e = b.
Proof.
  intros Hi. pose proof (drop_walk _ _ _ _ _ _ Hi) as Hd.
  rewrite <- (Nat.add_0_r i), <- lookup_drop, Hd in Hi.
  destruct (fuel - i)%nat as [|n]; [done|]. simpl in Hi.
  destruct (entries t !! k) as [e|]; [|done]. exists e. split; [done|]. by injection Hi.
Qed.

(** Consecutive blocks of a walk are child and parent. *)
Lemma walk_linked root t fuel d i k b k' b' :
  tree_wf root t → walk fuel t d !! i = Some (k, b) → walk fuel t d !! S i = Some (k', b') →
  block_hash b = k ∧ prev_hash (header b) = k' ∧ height (header b) = height (header b') + 1.
Proof.
  intros Hwf Hi Hj. pose proof (drop_walk _ _ _ _ _ _ Hi) as Hd.
  rewrite <- (Nat.add_1_r i), <- lookup_drop, Hd in Hj.
  rewrite <- (Nat.add_0_r i), <- lookup_drop, Hd in Hi.
  destruct (fuel - i)%nat as [|n]; [done|]. simpl in *.
  destruct (entries t !! k) as [e|] eqn:He; [|done]. simpl in *. injection Hi as <-.
  split; [by eapply tw_hash|].
  destruct (Z.eqb_spec (height (header (be_block e))) 0) as [|Hz]; [done|].
  destruct (tw_link _ _ Hwf k e He Hz) as (p&Hp&Hl).
  destruct n as [|n]; [done|]. simpl in Hj. rewrite Hp in Hj. simpl in Hj. injection Hj as <- <-. done.
Qed.

Lemma walk_head fuel t d e :
  entries t !! d = Some e → walk (S fuel) t d !! 0%nat = Some (d, be_block e).
Proof. intros He. simpl. by rewrite He. Qed.

Lemma walk_known n t d e :
  entries t !! d = Some e →
  walk (S n) t d = (d, be_block e) :: (if height (header (be_block e)) =? 0 then []
                                       else walk n t (prev_hash (header (be_block e)))).
Proof. intros He. simpl. by rewrite He. Qed.

(** The walk from a known block ends at the root. *)
Lemma ancestry_last root t d e :
  tree_wf root t → entries t !! d = Some e →
  ∃ g, last (ancestry t d) = Some (root, g) ∧ height (header g) = 0 ∧
    length (ancestry t d) = S (Z.to_nat (height (header (be_block e)))).
Proof.
  intros Hwf He. unfold ancestry, walk_fuel. rewrite He.
  remember (Z.to_nat (height (header (be_block e)))) as n eqn:Hn.
  revert d e He Hn. induction n as [|n IH]; intros d e He Hn;
    pose proof (tw_height _ _ Hwf d e He); rewrite (walk_known _ _ _ _ He).
  - rewrite (proj2 (Z.eqb_eq _ _)) by lia. exists (be_block e).
    rewrite <- (tw_root _ _ Hwf d e He) by lia. split; [done|]. split; [lia|done].
  - rewrite (proj2 (Z.eqb_neq _ _)) by lia.
    destruct (tw_link _ _ Hwf d e He) as (p&Hp&Hl); [lia|].
    destruct (IH _ p Hp) as (g&Hg&Hg0&Hlen); [lia|].
    exists g. rewrite last_cons, Hg. simpl length. split_and!; [done|done|by f_equal].
Qed.

(** ** Running the model on examples *)

Definition demo_tree_block (name parent : bytes) (h : Z) : Block :=
  mkBlock (mkHeader 1 h 0 parent [] [] 0 1 [] 0) [] name None.
Definition demo_tree_insert (b : Block) (stake : Z) (t : BlockTree) : BlockTree :=
  from_option snd t (match insert_block t b stake with Ok r => Some r | Err _ => None end).

Definition demo_genesis_block : Block := demo_tree_block [x00] [] 0.

(** Two forks of genesis: [a] of weight 5 and [b - c] of weight 4 + 3. *)
Definition demo_tree_a : BlockTree :=
  demo_tree_insert (demo_tree_block [x0a] [x00] 1) 5 (tree_from_genesis demo_genesis_block).
Definition demo_tree_b : BlockTree :=
  demo_tree_insert (demo_tree_block [x0b] [x00] 1) 4 demo_tree_a.
Definition demo_tree : BlockTree :=
  demo_tree_insert (demo_tree_block [x0c] [x0b] 2) 3 demo_tree_b.

(** The loops on a canonical chain as the code returns it: genesis first. *)
Lemma canonical_chain_walk root t :
  tree_wf root t → ∃ tip g, entries t !! canonical_tip t = Some tip ∧
    head (canonical_chain t) = Some g ∧ block_hash g = root ∧ height (header g) = 0 ∧
    last (canonical_chain t) = Some (be_block tip) ∧
    length (canonical_chain t) = S (Z.to_nat (height (header (be_block tip)))).
Proof.
  intros Hwf. destruct (tw_tip _ _ Hwf) as [tip Htip].
  destruct (ancestry_last root t _ _ Hwf Htip) as (g&Hg&Hg0&Hlen).
  exists tip, g. unfold canonical_chain. rewrite head_reverse, last_reverse, length_reverse, length_fmap.
  rewrite fmap_last, Hg. split_and!; [done|done| |done| |done].
  - apply last_Some_elem_of in Hg. apply list_elem_of_lookup in Hg as [i Hi].
    pose proof (drop_walk _ _ _ _ _ _ Hi) as Hd. rewrite <- (Nat.add_0_r i), <- lookup_drop in Hi.
    unfold ancestry in Hi. rewrite Hd in Hi. destruct (_ - i)%nat; [done|]. simpl in Hi.
    destruct (entries t !! root) as [e|] eqn:He; [|done]. simpl in Hi. injection Hi as <-.
    by eapply tw_hash.
  - unfold ancestry, walk_fuel. by rewrite Htip, (walk_known _ _ _ _ Htip).
Qed.

(** It is linked and numbered from genesis. *)
Lemma canonical_chain_link root t i b b' :
  tree_wf root t → canonical_chain t !! i = Some b → canonical_chain t !! S i = Some b' →
  prev_hash (header b') = block_hash b ∧ height (header b') = height (header b) + 1.
Proof.
  intros Hwf Hb Hc. pose proof (lookup_lt_Some _ _ _ Hc) as Hi.
  unfold canonical_chain in Hb, Hc, Hi. rewrite length_reverse, length_fmap in Hi.
  apply reverse_lookup_Some in Hb as [Hb _]. apply reverse_lookup_Some in Hc as [Hc _].
  rewrite length_fmap in Hb, Hc. apply list_lookup_fmap_Some in Hb as ([kb b1]&->&Hb).
  apply list_lookup_fmap_Some in Hc as ([kc c1]&->&Hc).
  replace (length (ancestry t (canonical_tip t)) - S i)%nat
    with (S (length (ancestry t (canonical_tip t)) - S (S i))) in Hb by lia.
  destruct (walk_linked root t _ _ _ _ _ _ _ Hwf Hc Hb) as (_&Hp&Hh).
  destruct (walk_entry _ _ _ _ _ _ Hb) as (e&He&<-).
  cbn [snd]. by rewrite Hp, (tw_hash _ _ Hwf kb e He).
Qed.

Lemma canonical_chain_numbered root t i b :
  tree_wf root t → canonical_chain t !! i = Some b → height (header b) = Z.of_nat i.
Proof.
  intros Hwf. destruct (canonical_chain_walk root t Hwf) as (tip&g&_&Hg&_&Hg0&_).
  revert b. induction i as [|i IH]; intros b Hb.
  - rewrite <- head_lookup, Hg in Hb. injection Hb as <-. lia.
  - destruct (canonical_chain t !! i) as [a|] eqn:Ha.
    + destruct (canonical_chain_link _ _ _ _ _ Hwf Ha Hb) as [_ ->]. rewrite (IH a eq_refl). lia.
    + apply lookup_ge_None in Ha. apply lookup_lt_Some in Hb. lia.
Qed.

Lemma demo_tree_steps (b : Block) (stake : Z) (t t' : BlockTree) :
  is_u64 (height (header b)) →
  is_ok (insert_block t b stake) = true → t' = demo_tree_insert b stake t → tree_step t t'.
Proof.
  intros Hu Hok ->. unfold demo_tree_insert. destruct (insert_block t b stake) as [[c t']|] eqn:E; [|done].
  simpl. by eapply step_insert.
Qed.

Lemma demo_tree_reachable : rtc tree_step (tree_from_genesis demo_genesis_block) demo_tree.
Proof.
  apply (rtc_l _ _ demo_tree_a);
    [|apply (rtc_l _ _ demo_tree_b); [|apply rtc_once]].
  - apply (demo_tree_steps (demo_tree_block [x0a] [x00] 1) 5);
      [by vm_compute|by vm_compute|exact eq_refl].
  - apply (demo_tree_steps (demo_tree_block [x0b] [x00] 1) 4);
      [by vm_compute|by vm_compute|exact eq_refl].
  - apply (demo_tree_steps (demo_tree_block [x0c] [x0b] 2) 3);
      [by vm_compute|by vm_compute|exact eq_refl].
Qed.

Lemma demo_tree_b_wf : tree_wf [x00] demo_tree_b.
Proof.
  assert (rtc tree_step (tree_from_genesis demo_genesis_block) demo_tree_b) as Hr.
  { apply (rtc_l _ _ demo_tree_a); [|apply rtc_once].
    - apply (demo_tree_steps (demo_tree_block [x0a] [x00] 1) 5);
        [by vm_compute|by vm_compute|exact eq_refl].
    - apply (demo_tree_steps (demo_tree_block [x0b] [x00] 1) 4);
        [by vm_compute|by vm_compute|exact eq_refl]. }
  eapply rtc_tree_wf; [|exact Hr]. by apply (tree_from_genesis_wf demo_genesis_block).
Qed.

Lemma demo_inserts : ∃ changed t',
  insert_block demo_tree_b (demo_tree_block [x0c] [x0b] 2) 3 = Ok (changed, t') ∧
  ¬ is_Some (entries demo_tree_b !! [x0c]).
Proof.
  pose proof (is_ok_unwrap (insert_block demo_tree_b (demo_tree_block [x0c] [x0b] 2) 3)
    (false, demo_tree_b)) as Hok.
  destruct (unwrap_or _ _) as [changed t']. exists changed, t'. split.
  - apply Hok. by vm_compute.
  - apply (bool_decide_eq_false_1 (is_Some (entries demo_tree_b !! [x0c]))). by vm_compute.
Qed.

(** ** Properties *)

(** C18: the fork-choice invariant. In every tree reached from a genesis block
    by insertions and finalizations, blocks are stored under their hash, every
    block above height zero has its parent one height below, only the genesis
    is at height zero, the canonical tip is a known block of maximal cumulative
    stake weight, and it descends from the finalized block. *)
Theorem tree_invariant (genesis : Block) (t : BlockTree) :
  height (header genesis) = 0 → rtc tree_step (tree_from_genesis genesis) t →
  tree_wf (block_hash genesis) t.
Proof. intros Hz Hr. eapply rtc_tree_wf; [by apply tree_from_genesis_wf|done]. Qed.

Lemma tree_invariant_witness : tree_wf [x00] demo_tree.
Proof. exact (tree_invariant demo_genesis_block demo_tree eq_refl demo_tree_reachable). Defined.

(** Finality is never reverted. Once a block is finalized, it stays on the
    canonical chain through every later insertion and finalization, however
    heavy the competing forks. *)
Theorem finalized_never_reverted (genesis : Block) (t t' : BlockTree) :
  height (header genesis) = 0 → rtc tree_step (tree_from_genesis genesis) t →
  rtc tree_step t t' →
  is_on_canonical_chain t' (bt_finalized_hash t) = true.
Proof.
  intros Hz Hr Hr'.
  assert (tree_wf (block_hash genesis) t) as Hwf
    by (eapply rtc_tree_wf; [by apply tree_from_genesis_wf|done]).
  assert (tree_wf (block_hash genesis) t') as Hwf' by (by eapply rtc_tree_wf).
  apply (is_descendant_of_spec (block_hash genesis) t' Hwf'). split; [by eapply tw_tip|].
  unfold descends. etrans; [by eapply tw_tip_final|].
  eapply (rtc_tree_final _ t); [done..|apply rtc_refl].
Qed.

(** [c] finalized, then a heavy child of the losing fork is refused. *)
Definition demo_tree_final : BlockTree := set_finalized demo_tree [x0c] 2.

Lemma demo_tree_finalizes : tree_step demo_tree demo_tree_final.
Proof.
  assert (∃ e, entries demo_tree !! [x0c] = Some e ∧ height (header (be_block e)) = 2) as (e&He&Hh).
  { assert (option_map (λ e, height (header (be_block e))) (entries demo_tree !! [x0c]) = Some 2)
      as H by (vm_compute; reflexivity).
    destruct (entries demo_tree !! [x0c]) as [e|]; [|done]. exists e. split; [done|]. by injection H. }
  unfold demo_tree_final. rewrite <- Hh. apply step_finalize; [done|by vm_compute|].
  rewrite Hh. by vm_compute.
Qed.

Lemma finalized_never_reverted_witness :
  is_on_canonical_chain demo_tree_final [x00] = true ∧
  insert_block demo_tree_final (demo_tree_block [x0d] [x0a] 2) 1000 = Err BelowFinalized.
Proof.
  split; [|vm_compute; reflexivity].
  exact (finalized_never_reverted demo_genesis_block demo_tree demo_tree_final eq_refl
    demo_tree_reachable (rtc_once _ _ demo_tree_finalizes)).
Defined.

(** Insertion. A known block is ignored; an orphan, a wrong height or a
    block on a branch that left the finalized chain is refused with the tree
    unchanged; any other block is added, and becomes the tip exactly when it is
    strictly heavier than the tip, the returned flag telling whether the old
    tip was abandoned. *)
Theorem insert_block_spec (root : bytes) (t : BlockTree) (b : Block) (stake : Z) :
  tree_wf root t → is_u64 (height (header b)) →
  let known := is_Some (entries t !! block_hash b) in
  let parent := entries t !! prev_hash (header b) in
  let on_final := is_descendant_of t (prev_hash (header b)) (bt_finalized_hash t) = true in
  match insert_block t b stake with
  | Ok (changed, t') =>
      known ∧ t' = t ∧ changed = false ∨
      ¬ known ∧ on_final ∧ bt_finalized_height t < height (header b) ∧
      ∃ p, parent = Some p ∧ height (header b) = height (header (be_block p)) + 1 ∧
        let w := add64 (cumulative_stake_weight p) stake in
        entries t' !! block_hash b = Some (mkEntry b w []) ∧
        let tip_weight := from_option cumulative_stake_weight 0 (entries t !! canonical_tip t) in
        canonical_tip t' = (if tip_weight <? w then block_hash b else canonical_tip t) ∧
        (changed = true ↔ canonical_tip t' ≠ canonical_tip t ∧
                           ¬ descends t' (canonical_tip t') (canonical_tip t))
  | Err BelowFinalized =>
      ¬ known ∧ (height (header b) ≤ bt_finalized_height t ∨ ¬ on_final)
  | Err OrphanBlock => ¬ known ∧ parent = None
  | Err InvalidHeightLink =>
      ¬ known ∧ ∃ p, parent = Some p ∧ height (header b) ≠ add64 (height (header (be_block p))) 1
  end.
Proof.
  intros Hwf Hu known parent on_final.
  destruct (insert_block t b stake) as [[changed t']|err] eqn:Hok.
  - pose proof (insert_block_wf root t b stake changed t' Hwf Hu Hok) as Hwf'.
    apply insert_block_cases in Hok as [(->&->&Hk)|Hok]; [by left|right].
    destruct Hok as (p&Hnew&Hp&Hfin&Hh&Hdesc&Hent&_&_&Htip).
    destruct (insert_guards root t b p) as (Hf0&Hl&Hpf); [done..|].
    split_and!; [by apply eq_None_not_Some| |lia|].
    { apply (is_descendant_of_spec root t Hwf). by split; [eexists|]. }
    exists p. split; [done|]. split; [done|]. cbv zeta. rewrite Hent at 1.
    rewrite lookup_insert_eq. split; [done|].
    rewrite (inserted_weight t b _ p _ Hnew Hp) in Htip by (by eapply tw_tip).
    by apply (tip_choice root t t' b).
  - unfold insert_block in Hok. case_bool_decide as Hk; [done|].
    destruct ((height (header b) <=? _) && _) eqn:Hf.
    { injection Hok as <-. apply andb_true_iff in Hf as [Hf _]. bool_to_prop. auto. }
    fold parent in Hok. destruct parent as [p|]; cbn [ok_or mbind result_bind] in Hok;
      [|by injection Hok as <-].
    destruct (negb (height (header b) =? _)) eqn:Hh.
    { injection Hok as <-. bool_to_prop. split; [done|]. by exists p. }
    destruct (_ && negb (is_descendant_of _ _ _)) eqn:Hd; [|cbv zeta in Hok; by case_match].
    injection Hok as <-. split; [done|]. right. apply andb_true_iff in Hd as [_ Hd].
    apply negb_true_iff in Hd. unfold on_final. by rewrite Hd.
Qed.

Lemma insert_block_spec_witness :
  match insert_block demo_tree_b (demo_tree_block [x0c] [x0b] 2) 3 with
  | Ok (changed, t') => changed = true ↔ canonical_tip t' ≠ canonical_tip demo_tree_b ∧
                           ¬ descends t' (canonical_tip t') (canonical_tip demo_tree_b)
  | Err _ => False
  end.
Proof.
  pose proof (insert_block_spec [x00] demo_tree_b (demo_tree_block [x0c] [x0b] 2) 3
    demo_tree_b_wf ltac:(by vm_compute)) as Hs. cbv zeta in Hs.
  destruct demo_inserts as (changed&t'&Hok&Hnew). rewrite Hok in Hs |- *.
  destruct Hs as [(Hk&_&_)|(_&_&_&p&_&_&_&_&Hc)]; [contradiction|exact Hc].
Defined.

(** The canonical chain. In every well-formed tree [canonical_chain] is the
    list of blocks from genesis to the tip, one per height, each the parent of
    the next; the loop ends within one step per height, and running it longer
    gives the same list. *)
Theorem canonical_chain_linked (root : bytes) (t : BlockTree) :
  tree_wf root t →
  ∃ tip g, entries t !! canonical_tip t = Some tip ∧
    head (canonical_chain t) = Some g ∧ block_hash g = root ∧
    last (canonical_chain t) = Some (be_block tip) ∧
    (∀ i b, canonical_chain t !! i = Some b → height (header b) = Z.of_nat i) ∧
    (∀ i b c, canonical_chain t !! i = Some b → canonical_chain t !! S i = Some c →
       prev_hash (header c) = block_hash b) ∧
    (∀ fuel, (Z.to_nat (height (header (be_block tip))) < fuel)%nat →
       walk fuel t (canonical_tip t) = ancestry t (canonical_tip t)).
Proof.
  intros Hwf. destruct (canonical_chain_walk root t Hwf) as (tip&g&Htip&Hg&Hgr&Hg0&Hl&Hlen).
  exists tip, g. split_and!; [done..| | |].
  - intros i b. by apply (canonical_chain_numbered root).
  - intros i b c Hb Hc. by apply (canonical_chain_link root t i).
  - intros fuel. by apply (walk_fuel_enough root t Hwf).
Qed.

Lemma demo_tree_wf : tree_wf [x00] demo_tree.
Proof.
  eapply rtc_tree_wf; [|exact demo_tree_reachable].
  by apply (tree_from_genesis_wf demo_genesis_block).
Qed.

Lemma canonical_chain_linked_witness :
  ∃ tip g, entries demo_tree !! canonical_tip demo_tree = Some tip ∧
    head (canonical_chain demo_tree) = Some g ∧ block_hash g = [x00] ∧
    last (canonical_chain demo_tree) = Some (be_block tip).
Proof.
  destruct (canonical_chain_linked [x00] demo_tree demo_tree_wf) as (tip&g&H1&H2&H3&H4&_).
  exists tip, g. exact (conj H1 (conj H2 (conj H3 H4))).
Defined.

(** [common_ancestor] is the lowest common ancestor. Any two known blocks
    have one; it is an ancestor of both, and every common ancestor is an
    ancestor of it. *)
Theorem common_ancestor_lowest (root : bytes) (t : BlockTree) (a b : bytes) :
  tree_wf root t → is_Some (entries t !! a) → is_Some (entries t !! b) →
  ∃ x, common_ancestor t a b = Some x ∧ descends t a x ∧ descends t b x ∧
    ∀ y, descends t a y → descends t b y → descends t x y.
Proof.
  intros Hwf Ha Hb. unfold common_ancestor.
  assert (∀ k c, (k, c) ∈ ancestry t b → (k, c).1 ∈ (list_to_set (ancestry t a).*1 : gset bytes) ↔
    descends t a k) as Hin.
  { intros k c _. rewrite elem_of_list_to_set, (elem_of_ancestry root t Hwf). naive_solver. }
  destruct (list_find (λ kb, kb.1 ∈ (list_to_set (ancestry t a).*1 : gset bytes)) (ancestry t b))
    as [[i [x c]]|] eqn:Hf.
  - apply list_find_Some in Hf as (Hi&Hx&Hfirst). exists x.
    assert ((x, c) ∈ ancestry t b) as Hxb by (by eapply list_elem_of_lookup_2).
    split; [done|]. split; [by apply (Hin x c)|]. split.
    { apply (elem_of_walk_descends (walk_fuel t b)). by apply (list_elem_of_fmap_2 fst) in Hxb. }
    intros y Hay Hby.
    assert (y ∈ (ancestry t b).*1) as ([ky cy]&->&Hyb)%list_elem_of_fmap
      by (by apply (elem_of_ancestry root t Hwf)).
    pose proof Hyb as [j Hj]%list_elem_of_lookup.
    assert (i ≤ j)%nat as Hij.
    { destruct (decide (i ≤ j)%nat) as [|Hlt]; [done|]. exfalso.
      apply (Hfirst j _ Hj); [lia|]. by apply (Hin ky cy). }
    exact (walk_ordered _ _ _ _ _ _ _ Hij Hi Hj).
  - apply list_find_None in Hf. rewrite Forall_forall in Hf. exfalso.
    assert (root ∈ (ancestry t b).*1) as ([k c]&Hk&Hroot)%list_elem_of_fmap
      by (apply (elem_of_ancestry root t Hwf); split; [done|by eapply descends_root]).
    apply (Hf _ Hroot), (Hin k c Hroot). simpl in Hk. subst k. by eapply descends_root.
Qed.

Lemma common_ancestor_lowest_witness :
  ∃ x, common_ancestor demo_tree [x0a] [x0c] = Some x ∧ descends demo_tree [x0a] x.
Proof.
  destruct (common_ancestor_lowest [x00] demo_tree [x0a] [x0c] demo_tree_wf) as (x&Hx&Ha&_);
    [vm_decide|vm_decide|].
  exists x. exact (conj Hx Ha).
Defined.
