(* ===== verification/Trie.v ===== *)
(** * Sparse Merkle trie ([src/trie/mod.rs])

    The trie behind the version-6 state root: leaves keyed by 32-byte hashes, a
    root computed level by level and cached, and the proofs derived from it. *)
From S2P Require Import Prelude Hash.

Definition TRIE_DEPTH : nat := 256.

(** [get_bit]: most significant bit first. *)
Definition get_bit (key : bytes) (depth : nat) : bool :=
  if (TRIE_DEPTH <=? depth)%nat || (length key <=? depth / 8)%nat then false
  else Z.testbit (byte_Z (key !!! (depth / 8)%nat)) (Z.of_nat (7 - depth mod 8)).

(** [key[depth / 8] &= !(1 << (7 - depth % 8))] and [|=]. *)
Definition clear_bit (key : bytes) (depth : nat) : bytes :=
  alter (λ b, byte_of_Z (Z.clearbit (byte_Z b) (Z.of_nat (7 - depth mod 8)))) (depth / 8)%nat key.
Definition set_bit (key : bytes) (depth : nat) : bytes :=
  alter (λ b, byte_of_Z (Z.setbit (byte_Z b) (Z.of_nat (7 - depth mod 8)))) (depth / 8)%nat key.

Record SparseMerkleTrie := mkTrie {
  leaves : gmap bytes bytes;
  cached_root : option bytes;
}.

Record SmtProof := mkSmtProof {
  smt_key : bytes;
  smt_value : option bytes;
  smt_siblings : list bytes;
  smt_root : bytes;
}.

Section trie.
Context `{Sha3}.

Definition empty_hash : bytes := sha3_hash (bstr "curs3d-smt-empty").
Definition hash_children (left right : bytes) : bytes :=
  sha3_hash_domain (bstr "curs3d-smt-node") [left; right].
Definition hash_leaf (key value : bytes) : bytes :=
  sha3_hash_domain (bstr "curs3d-smt-leaf") [key; value].

Definition trie_new : SparseMerkleTrie := mkTrie ∅ None.

(** [SparseMerkleTrie::insert]; [None] is the failed assertion on the key's
    length. An empty value removes the key. *)
Definition trie_insert (t : SparseMerkleTrie) (key value : bytes) : option SparseMerkleTrie :=
  if negb (bool_decide (length key = 32%nat)) then None
  else Some (mkTrie
    (if bool_decide (value = []) then delete key (leaves t) else <[key := value]> (leaves t)) None).

Definition trie_remove (t : SparseMerkleTrie) (key : bytes) : SparseMerkleTrie :=
  mkTrie (delete key (leaves t)) None.

Definition trie_get (t : SparseMerkleTrie) (key : bytes) : option bytes := leaves t !! key.

(** ** The root *)

Definition children := (option bytes * option bytes)%type.

(** The node filed under its parent, on the side its bit says. *)
Definition file_node (depth : nat) (parents : gmap bytes children) (node : bytes * bytes)
    : gmap bytes children :=
  let '(key, node_hash) := node in
  entry_or_default (None, None) (clear_bit key depth)
    (λ entry : children,
      if get_bit key depth then (entry.1, Some node_hash) else (Some node_hash, entry.2)) parents.

(** One iteration of the loop over depths, on the nodes in iteration order. *)
Definition next_level (depth : nat) (level : list (bytes * bytes)) : gmap bytes bytes :=
  (λ entry : children, hash_children (default empty_hash entry.1) (default empty_hash entry.2))
    <$> foldl (file_node depth) ∅ level.

(** The levels below [depth], from the leaves up. *)
Fixpoint build_levels (depth : nat) (level : gmap bytes bytes) : gmap bytes bytes :=
  match depth with
  | O => level
  | S depth => build_levels depth (next_level depth (map_to_list level))
  end.

Definition compute_root (t : SparseMerkleTrie) : bytes :=
  if bool_decide (leaves t = ∅) then empty_hash
  else
    let nodes := map_imap (λ key value, Some (hash_leaf key value)) (leaves t) in
    default empty_hash (snd <$> head (map_to_list (build_levels TRIE_DEPTH nodes))).

(** [root(&mut self)]: the cached root, computed on demand. *)
Definition trie_root (t : SparseMerkleTrie) : bytes * SparseMerkleTrie :=
  match cached_root t with
  | Some cached => (cached, t)
  | None => let root := compute_root t in (root, mkTrie (leaves t) (Some root))
  end.

(** ** Proofs *)

Definition proof_sibling (t : SparseMerkleTrie) (key : bytes) (depth : nat) : bytes :=
  let sibling_key := if negb (get_bit key depth) then set_bit key depth else clear_bit key depth in
  match leaves t !! sibling_key with
  | Some sibling_value => hash_leaf sibling_key sibling_value
  | None => empty_hash
  end.

(** [SparseMerkleTrie::prove], limited to 20 levels; [None] is the index panic
    on a key of fewer than three bytes. *)
Definition trie_prove (t : SparseMerkleTrie) (key : bytes) : option (SmtProof * SparseMerkleTrie) :=
  if (length key <? 3)%nat then None
  else
    let siblings := proof_sibling t key <$> seq 0 20 in
    let '(root, t') := trie_root t in
    Some (mkSmtProof key (leaves t !! key) siblings root, t').

Fixpoint smt_fold (key : bytes) (depth : nat) (siblings : list bytes) (current : bytes) : bytes :=
  match siblings with
  | [] => current
  | sibling :: siblings =>
      smt_fold key (S depth) siblings
        (if get_bit key depth then hash_children sibling current else hash_children current sibling)
  end.

(** [SmtProof::verify]. *)
Definition smt_verify (p : SmtProof) (expected_root : bytes) : bool :=
  if negb (bool_decide (smt_root p = expected_root)) then false
  else
    let leaf := match smt_value p with
                | Some value => hash_leaf (smt_key p) value
                | None => empty_hash
                end in
    negb (bool_decide (smt_fold (smt_key p) 0 (smt_siblings p) leaf = [])).

(** ** Lemmas *)

Lemma hash_children_nonempty l r : hash_children l r ≠ [].
Proof. intros E. apply (f_equal length) in E. unfold hash_children, sha3_hash_domain in E. by rewrite sha3_256_length in E. Qed.

Lemma hash_leaf_nonempty k v : hash_leaf k v ≠ [].
Proof. intros E. apply (f_equal length) in E. unfold hash_leaf, sha3_hash_domain in E. by rewrite sha3_256_length in E. Qed.

Lemma smt_fold_nonempty key depth siblings current :
  current ≠ [] → smt_fold key depth siblings current ≠ [].
Proof.
  revert depth current. induction siblings as [|s ss IH]; intros depth current Hc; [done|].
  simpl. apply IH. case_match; apply hash_children_nonempty.
Qed.

(** The cache, when filled, holds the root of the leaves. *)
Definition trie_wf (t : SparseMerkleTrie) : Prop :=
  ∀ r, cached_root t = Some r → r = compute_root (mkTrie (leaves t) None).

Lemma trie_root_spec t :
  trie_wf t → (trie_root t).1 = compute_root (mkTrie (leaves t) None) ∧
    leaves (trie_root t).2 = leaves t ∧ trie_wf (trie_root t).2.
Proof.
  intros Hwf. unfold trie_root. destruct (cached_root t) as [r|] eqn:E; simpl.
  - split; [by apply Hwf|done].
  - split; [by destruct t|]. split; [done|]. intros r [= <-]. by destruct t.
Qed.

(** Steps of a trie. *)
Inductive trie_step : relation SparseMerkleTrie :=
  | step_trie_insert t key value t' : trie_insert t key value = Some t' → trie_step t t'
  | step_trie_remove t key : trie_step t (trie_remove t key)
  | step_trie_root t : trie_step t (trie_root t).2
  | step_trie_prove t key p t' : trie_prove t key = Some (p, t') → trie_step t t'.

Lemma trie_step_wf t t' : trie_wf t → trie_step t t' → trie_wf t'.
Proof.
  intros Hwf Hs. destruct Hs as [t key value t' Hi|t key|t|t key p t' Hp].
  - unfold trie_insert in Hi. case_match; [done|]. injection Hi as <-. by intros r.
  - by intros r.
  - by apply trie_root_spec.
  - unfold trie_prove in Hp. case_match; [done|].
    pose proof (trie_root_spec t Hwf) as (_&_&Hr). destruct (trie_root t) as [r t2].
    by injection Hp as _ <-.
Qed.
End trie.

(** ** Properties *)

(** The cache is transparent. After any sequence of insertions, removals,
    root computations and proofs, [root] returns the root recomputed from the
    current leaves, and computing it does not change them. *)
Theorem trie_cache_transparent `{Sha3} (t : SparseMerkleTrie) :
  rtc trie_step trie_new t →
  (trie_root t).1 = compute_root (mkTrie (leaves t) None) ∧ leaves (trie_root t).2 = leaves t.
Proof.
  intros Hr. cut (trie_wf t); [intros Hwf; by destruct (trie_root_spec t Hwf) as (?&?&_)|].
  cut (∀ t0, trie_wf t0 → rtc trie_step t0 t → trie_wf t); [intros Hc; by apply (Hc trie_new)|].
  clear Hr. intros t0 Hwf Hr. induction Hr; eauto using trie_step_wf.
Qed.

Lemma trie_cache_transparent_witness :
  let t := mkTrie ∅ (Some (@empty_hash demo_sha3)) in
  (@trie_root demo_sha3 t).1 = @compute_root demo_sha3 (mkTrie ∅ None).
Proof.
  intros t.
  refine (proj1 (@trie_cache_transparent demo_sha3 t _)).
  apply rtc_once. exact (@step_trie_root demo_sha3 trie_new).
Defined.

(** A proof proves nothing. [SmtProof::verify] compares only the root
    recorded in the proof itself: for every root, key and value (or absence)
    and every list of siblings, the proof that records this root is accepted. *)
Theorem smt_verify_accepts_anything `{Sha3} (key : bytes) (value : option bytes)
    (siblings : list bytes) (root : bytes) :
  smt_verify (mkSmtProof key value siblings root) root = true.
Proof.
  unfold smt_verify. simpl. rewrite bool_decide_eq_true_2 by done. simpl.
  rewrite bool_decide_eq_false_2; [done|]. apply smt_fold_nonempty.
  destruct value; [apply hash_leaf_nonempty|apply sha3_hash_nonempty].
Qed.
