(* ===== verification/StateRoot.v ===== *)
(** * State root and state proofs ([src/core/state_root.rs],
    [src/core/state_proof.rs])

    The commitment of a block header to the accounts and contracts, in its
    version-5 form (Merkle root over sorted leaves) and its dormant version-6
    form (sparse Merkle trie), and the inclusion proofs served to light
    clients. *)
From S2P Require Import Prelude Hash Crypto Vm Transaction Block Account Trie.

Definition V6_PROTOCOL_VERSION : Z := 6.

Abbreviation contracts_map := (gmap bytes ContractState).

(** The encoders of the leaves: [bincode] on tuples. *)
Abbreviation BincodeAccountLeaf := (Bincode (bytes * AccountState)).
Abbreviation BincodeStorageLeaf := (Bincode (bytes * bytes)).
Abbreviation BincodeContractLeaf := (Bincode (bytes * bytes * bytes * bytes)).

Record AccountProof := mkAccountProof {
  ap_address : bytes;
  ap_state : AccountState;
  ap_leaf_index : nat;
  ap_leaf_hash : bytes;
  ap_proof : list bytes;
  ap_state_root : bytes;
}.

Record StorageProof := mkStorageProof {
  sp_contract_address : bytes;
  sp_contract_code_hash : bytes;
  sp_contract_owner : bytes;
  sp_key : bytes;
  sp_value : bytes;
  sp_storage_leaf_index : nat;
  sp_storage_leaf_hash : bytes;
  sp_storage_proof : list bytes;
  sp_storage_root : bytes;
  sp_contract_leaf_index : nat;
  sp_contract_leaf_hash : bytes;
  sp_contract_proof : list bytes;
  sp_state_root : bytes;
}.

Section state_root.
Context `{Sha3} `{!BincodeAccountLeaf} `{!BincodeStorageLeaf} `{!BincodeContractLeaf}.

Definition account_leaf_hash (address : bytes) (state : AccountState) : bytes :=
  sha3_hash (bincode_serialize (address, state)).

(** The leaf of a storage entry, shared by [contract_storage_root] and the
    storage proofs. *)
Definition storage_leaf_hash (entry : bytes * bytes) : bytes := sha3_hash (bincode_serialize entry).

Definition contract_storage_root (contract : ContractState) : bytes :=
  merkle_root (storage_leaf_hash <$> sorted_entries (storage contract)).

(** The code hash of a leaf: recomputed when the contract carries none. *)
Definition leaf_code_hash (contract : ContractState) : bytes :=
  if bool_decide (code_hash contract = []) then sha3_hash (code contract) else code_hash contract.

Definition contract_leaf_hash (address : bytes) (state : ContractState) : bytes :=
  sha3_hash (bincode_serialize
    (address, leaf_code_hash state, owner state, contract_storage_root state)).

Definition state_leaf_hashes (accounts : accounts_map) (contracts : contracts_map) : list bytes :=
  ((λ e, account_leaf_hash e.1 e.2) <$> sorted_entries accounts) ++
  ((λ e, contract_leaf_hash e.1 e.2) <$> sorted_entries contracts).

(** [compute_v5_merkle], the same as [compute_full]. *)
Definition compute_full (accounts : accounts_map) (contracts : contracts_map) : bytes :=
  if bool_decide (accounts = ∅) && bool_decide (contracts = ∅)
  then sha3_hash EMPTY_STATE_ROOT_SEED
  else merkle_root (state_leaf_hashes accounts contracts).

(** Insertion of leaves in a trie, keyed by [SHA3(kind :: address)]; [None] is
    the trie's assertion on key lengths. *)
Definition insert_leaf {V} (kind : byte) (leaf : bytes → V → bytes) (t : option SparseMerkleTrie)
    (e : bytes * V) : option SparseMerkleTrie :=
  t ← t; trie_insert t (sha3_hash (kind :: e.1)) (leaf e.1 e.2).

(** [compute_v6_smt]. *)
Definition compute_v6_smt (accounts : accounts_map) (contracts : contracts_map) : option bytes :=
  let trie := foldl (insert_leaf x00 account_leaf_hash) (Some trie_new) (sorted_entries accounts) in
  let trie := foldl (insert_leaf x01 contract_leaf_hash) trie (sorted_entries contracts) in
  t ← trie; Some (trie_root t).1.

Definition compute_at_protocol (accounts : accounts_map) (contracts : contracts_map)
    (protocol_version : Z) : option bytes :=
  if V6_PROTOCOL_VERSION <=? protocol_version then compute_v6_smt accounts contracts
  else Some (compute_full accounts contracts).

(** ** Proofs *)

(** [entries.iter().position(|(k, _)| k == key)]. *)
Definition position {V} (key : bytes) (entries : list (bytes * V)) : option nat :=
  fst <$> list_find (λ e, e.1 = key) entries.

Definition generate_account_proof (address : bytes) (accounts : accounts_map)
    (contracts : contracts_map) : option AccountProof :=
  state ← accounts !! address;
  account_index ← position address (sorted_entries accounts);
  let leaves := state_leaf_hashes accounts contracts in
  Some (mkAccountProof address state account_index (account_leaf_hash address state)
    (merkle_proof leaves account_index) (compute_full accounts contracts)).

Definition verify_account_proof (p : AccountProof) : bool :=
  bool_decide (account_leaf_hash (ap_address p) (ap_state p) = ap_leaf_hash p) &&
  verify_merkle_proof (ap_leaf_hash p) (ap_proof p) (ap_leaf_index p) (ap_state_root p).

Definition generate_storage_proof (contract_address key : bytes) (accounts : accounts_map)
    (contracts : contracts_map) : option StorageProof :=
  contract ← contracts !! contract_address;
  value ← storage contract !! key;
  let account_count := length (sorted_entries accounts) in
  contract_position ← position contract_address (sorted_entries contracts);
  storage_position ← position key (sorted_entries (storage contract));
  let storage_leaves := storage_leaf_hash <$> sorted_entries (storage contract) in
  storage_leaf ← storage_leaves !! storage_position;
  let state_leaves := state_leaf_hashes accounts contracts in
  Some (mkStorageProof contract_address (leaf_code_hash contract) (owner contract) key value
    storage_position storage_leaf (merkle_proof storage_leaves storage_position)
    (merkle_root storage_leaves)
    (account_count + contract_position) (contract_leaf_hash contract_address contract)
    (merkle_proof state_leaves (account_count + contract_position))
    (compute_full accounts contracts)).

Definition verify_storage_proof (p : StorageProof) : bool :=
  if negb (bool_decide (storage_leaf_hash (sp_key p, sp_value p) = sp_storage_leaf_hash p))
  then false
  else if negb (verify_merkle_proof (sp_storage_leaf_hash p) (sp_storage_proof p)
                  (sp_storage_leaf_index p) (sp_storage_root p)) then false
  else
    let contract_leaf := sha3_hash (bincode_serialize
      (sp_contract_address p, sp_contract_code_hash p, sp_contract_owner p, sp_storage_root p)) in
    bool_decide (contract_leaf = sp_contract_leaf_hash p) &&
    verify_merkle_proof (sp_contract_leaf_hash p) (sp_contract_proof p)
      (sp_contract_leaf_index p) (sp_state_root p).

(** ** Lemmas *)

Lemma position_sorted {V} (m : gmap bytes V) k v :
  m !! k = Some v → ∃ i, position k (sorted_entries m) = Some i ∧
    sorted_entries m !! i = Some (k, v).
Proof.
  intros Hk. assert ((k, v) ∈ sorted_entries m) as Hin by (by apply elem_of_sorted_entries).
  destruct (list_find_elem_of (λ e : bytes * V, e.1 = k) _ _ Hin eq_refl) as [[i [k' v']] Hf].
  exists i. unfold position. rewrite Hf. split; [done|].
  apply list_find_Some in Hf as (Hi&Hk'&_). simpl in Hk'. subst k'.
  assert ((k, v') ∈ sorted_entries m) as Hin' by (by eapply list_elem_of_lookup_2).
  apply elem_of_sorted_entries in Hin'. congruence.
Qed.

Lemma sorted_entries_empty {V} (m : gmap bytes V) : sorted_entries m = [] → m = ∅.
Proof.
  intros E. apply map_empty. intros k. destruct (m !! k) as [v|] eqn:Hk; [|done].
  apply elem_of_sorted_entries in Hk. rewrite E in Hk. by apply not_elem_of_nil in Hk.
Qed.

Lemma state_leaf_account accounts contracts k a i :
  sorted_entries accounts !! i = Some (k, a) →
  state_leaf_hashes accounts contracts !! i = Some (account_leaf_hash k a).
Proof.
  intros Hi. unfold state_leaf_hashes. apply lookup_app_l_Some. by rewrite list_lookup_fmap, Hi.
Qed.

Lemma state_leaf_contract accounts contracts k c i :
  sorted_entries contracts !! i = Some (k, c) →
  state_leaf_hashes accounts contracts !! (length (sorted_entries accounts) + i)%nat =
    Some (contract_leaf_hash k c).
Proof.
  intros Hi. unfold state_leaf_hashes. rewrite lookup_app_r by (rewrite length_fmap; lia).
  rewrite length_fmap. replace (_ + i - _)%nat with i by lia. by rewrite list_lookup_fmap, Hi.
Qed.

(** A non-empty state's root is the Merkle root of its leaves. *)
Lemma compute_full_leaves accounts contracts i l :
  state_leaf_hashes accounts contracts !! i = Some l →
  compute_full accounts contracts = merkle_root (state_leaf_hashes accounts contracts).
Proof.
  intros Hi. unfold compute_full. case_bool_decide as Ha; [|done].
  case_bool_decide as Hc; [|done]. by rewrite Ha, Hc in Hi.
Qed.

Lemma elem_of_state_leaves accounts contracts l :
  l ∈ state_leaf_hashes accounts contracts ↔
    (∃ k a, accounts !! k = Some a ∧ l = account_leaf_hash k a) ∨
    (∃ k c, contracts !! k = Some c ∧ l = contract_leaf_hash k c).
Proof.
  unfold state_leaf_hashes. rewrite elem_of_app, !list_elem_of_fmap. split.
  - intros [([k a]&->&Hin)|([k c]&->&Hin)]; apply elem_of_sorted_entries in Hin; eauto.
  - intros [(k&a&Hk&->)|(k&c&Hk&->)]; [left|right]; eexists (_, _);
      (split; [|by apply elem_of_sorted_entries]); done.
Qed.
End state_root.

(** ** Running the model on examples *)

Definition demo_bincode_account_leaf : BincodeAccountLeaf := λ '(a, st),
  demo_field a ++ to_le_bytes 8 (balance st) ++ to_le_bytes 8 (nonce st) ++
  to_le_bytes 8 (staked_balance st) ++
  demo_field (concat ((λ p, to_le_bytes 8 (pu_amount p) ++ to_le_bytes 8 (unlock_height p))
                        <$> pending_unstakes st)) ++
  to_le_bytes 8 (validator_active_from_height st) ++ to_le_bytes 8 (jailed_until_height st) ++
  from_option (λ k, x01 :: demo_field k) [x00] (ac_public_key st).
Definition demo_bincode_storage_leaf : BincodeStorageLeaf := λ e, demo_field e.1 ++ demo_field e.2.
Definition demo_bincode_contract_leaf : BincodeContractLeaf := λ '(a, h, o, r),
  demo_field a ++ demo_field h ++ demo_field o ++ demo_field r.

Definition demo_state_accounts : accounts_map :=
  <[[x01] := set_balance 5 account_default]> {[ [x02] := set_balance 7 account_default ]}.
Definition demo_contract : ContractState :=
  mkContractState [] [xc0] {[ [x0b] := [x01]; [x0c] := [x02] ]} [x01].
Definition demo_state_contracts : contracts_map := {[ [x09] := demo_contract ]}.

(** ** Properties *)

(** The node's account proofs are accepted. Every account of the state has
    a proof against the state root, for exactly its stored state. *)
Theorem account_proof_complete `{Sha3} `{!BincodeAccountLeaf} `{!BincodeStorageLeaf}
    `{!BincodeContractLeaf} (accounts : accounts_map) (contracts : contracts_map)
    (address : bytes) (state : AccountState) :
  accounts !! address = Some state →
  ∃ p, generate_account_proof address accounts contracts = Some p ∧
    ap_address p = address ∧ ap_state p = state ∧
    ap_state_root p = compute_full accounts contracts ∧ verify_account_proof p = true.
Proof.
  intros Hs. destruct (position_sorted _ _ _ Hs) as (i&Hpos&Hi).
  pose proof (state_leaf_account accounts contracts _ _ _ Hi) as Hleaf.
  unfold generate_account_proof. rewrite Hs. cbn [mbind option_bind]. rewrite Hpos.
  cbn [mbind option_bind]. eexists. split; [done|]. split_and!; try done.
  unfold verify_account_proof. cbn. rewrite bool_decide_eq_true_2 by done.
  rewrite (compute_full_leaves _ _ _ _ Hleaf). by apply merkle_verify_complete.
Qed.

Lemma account_proof_complete_witness :
  ∃ p, @generate_account_proof demo_sha3 demo_bincode_account_leaf demo_bincode_storage_leaf
         demo_bincode_contract_leaf [x02] demo_state_accounts demo_state_contracts = Some p ∧
    @verify_account_proof demo_sha3 demo_bincode_account_leaf p = true.
Proof.
  destruct (@account_proof_complete demo_sha3 demo_bincode_account_leaf demo_bincode_storage_leaf
    demo_bincode_contract_leaf demo_state_accounts demo_state_contracts [x02]
    (set_balance 7 account_default) ltac:(vm_decide)) as (p&Hp&_&_&_&Hv).
  exists p. exact (conj Hp Hv).
Defined.

(** The node's storage proofs are accepted, for every slot of every
    contract of the state. *)
Theorem storage_proof_complete `{Sha3} `{!BincodeAccountLeaf} `{!BincodeStorageLeaf}
    `{!BincodeContractLeaf} (accounts : accounts_map) (contracts : contracts_map)
    (address key value : bytes) (contract : ContractState) :
  contracts !! address = Some contract → storage contract !! key = Some value →
  ∃ p, generate_storage_proof address key accounts contracts = Some p ∧
    sp_key p = key ∧ sp_value p = value ∧ sp_contract_address p = address ∧
    sp_state_root p = compute_full accounts contracts ∧ verify_storage_proof p = true.
Proof.
  intros Hc Hv. destruct (position_sorted _ _ _ Hc) as (i&Hposc&Hi).
  destruct (position_sorted _ _ _ Hv) as (j&Hposs&Hj).
  pose proof (state_leaf_contract accounts contracts _ _ _ Hi) as Hleaf.
  assert ((storage_leaf_hash <$> sorted_entries (storage contract)) !! j =
    Some (storage_leaf_hash (key, value))) as Hsl by (by rewrite list_lookup_fmap, Hj).
  unfold generate_storage_proof. rewrite Hc. cbn [mbind option_bind]. rewrite Hv, Hposc, Hposs.
  cbn [mbind option_bind]. rewrite Hsl. cbn [mbind option_bind].
  eexists. split; [done|]. split_and!; try done.
  unfold verify_storage_proof. cbn. rewrite bool_decide_eq_true_2 by done.
  rewrite (merkle_verify_complete _ _ _ Hsl). simpl. rewrite bool_decide_eq_true_2 by done.
  rewrite (compute_full_leaves _ _ _ _ Hleaf). by apply merkle_verify_complete.
Qed.

Lemma storage_proof_complete_witness :
  ∃ p, @generate_storage_proof demo_sha3 demo_bincode_account_leaf demo_bincode_storage_leaf
         demo_bincode_contract_leaf [x09] [x0c] demo_state_accounts demo_state_contracts = Some p ∧
    @verify_storage_proof demo_sha3 demo_bincode_storage_leaf demo_bincode_contract_leaf p = true.
Proof.
  destruct (@storage_proof_complete demo_sha3 demo_bincode_account_leaf demo_bincode_storage_leaf
    demo_bincode_contract_leaf demo_state_accounts demo_state_contracts [x09] [x0c] [x02]
    demo_contract (lookup_singleton_eq _ _) ltac:(vm_decide)) as (p&Hp&_&_&_&_&Hv).
  exists p. exact (conj Hp Hv).
Defined.

(** C35: an accepted account proof tells the truth about the state. Absent SHA3
    collisions on the strings hashed, and with an encoder injective on the
    leaves at hand, a proof accepted against the root of a
    non-empty state is for an account stored with this state, unless the
    account's encoding is also the encoding of a contract's leaf: the two kinds
    of leaves carry no tag. *)
Theorem account_proof_sound `{Sha3} `{!BincodeAccountLeaf} `{!BincodeStorageLeaf}
    `{!BincodeContractLeaf} (accounts : accounts_map) (contracts : contracts_map) (p : AccountProof) :
  let leaves := state_leaf_hashes accounts contracts in
  let claimed := bincode_serialize (ap_address p, ap_state p) in
  leaves ≠ [] →
  no_collision (merkle_root_inputs leaves) (verify_inputs (ap_leaf_hash p) (ap_proof p) (ap_leaf_index p)) →
  map_Forall (λ k a, no_collision [bincode_serialize (k, a)] [claimed]) accounts →
  map_Forall (λ k c, no_collision
     [bincode_serialize (k, leaf_code_hash c, owner c, contract_storage_root c)] [claimed]) contracts →
  map_Forall (λ k a, bincode_serialize (k, a) = claimed → (k, a) = (ap_address p, ap_state p))
    accounts →
  ap_state_root p = compute_full accounts contracts → verify_account_proof p = true →
  accounts !! ap_address p = Some (ap_state p) ∨
  ∃ k c, contracts !! k = Some c ∧
    bincode_serialize (k, leaf_code_hash c, owner c, contract_storage_root c) = claimed.
Proof.
  intros leaves claimed Hne Hnc Hac Hcc Hinj Hroot Hv.
  unfold verify_account_proof in Hv. apply andb_true_iff in Hv as [Hl Hv].
  apply bool_decide_eq_true in Hl. rewrite Hroot in Hv.
  assert (∃ l, leaves !! 0%nat = Some l) as [l0 Hl0] by (destruct leaves; [done|by eexists]).
  rewrite (compute_full_leaves _ _ _ _ Hl0) in Hv.
  apply merkle_verify_sound in Hv; [|done..]. rewrite <- Hl in Hv.
  apply elem_of_state_leaves in Hv as [(k&a&Hk&He)|(k&c&Hk&He)].
  - left. assert (bincode_serialize (k, a) = claimed) as Heq
      by (apply (no_collision_elem _ _ _ _ (Hac k a Hk)); [left|left|done]).
    apply (Hinj k a Hk) in Heq. by simplify_eq.
  - right. exists k, c. split; [done|].
    apply (no_collision_elem _ _ _ _ (Hcc k c Hk)); [left|left|done].
Qed.

(** A proof whose leaf and path are those of the second account. *)
Definition demo_account_proof : AccountProof :=
  mkAccountProof [x02] (set_balance 7 account_default) 1
    (@account_leaf_hash demo_sha3 demo_bincode_account_leaf [x02] (set_balance 7 account_default))
    (@merkle_proof demo_sha3 (@state_leaf_hashes demo_sha3 demo_bincode_account_leaf
       demo_bincode_storage_leaf demo_bincode_contract_leaf demo_state_accounts demo_state_contracts) 1)
    (@compute_full demo_sha3 demo_bincode_account_leaf demo_bincode_storage_leaf
       demo_bincode_contract_leaf demo_state_accounts demo_state_contracts).

Lemma account_proof_sound_witness :
  demo_state_accounts !! [x02] = Some (set_balance 7 account_default) ∨
  ∃ k c, demo_state_contracts !! k = Some c ∧
    @bincode_serialize _ demo_bincode_contract_leaf
      (k, @leaf_code_hash demo_sha3 c, owner c,
       @contract_storage_root demo_sha3 demo_bincode_storage_leaf c) =
    @bincode_serialize _ demo_bincode_account_leaf ([x02], set_balance 7 account_default).
Proof.
  apply (@account_proof_sound demo_sha3 demo_bincode_account_leaf demo_bincode_storage_leaf
    demo_bincode_contract_leaf demo_state_accounts demo_state_contracts demo_account_proof);
    [vm_decide|vm_decide|vm_decide|vm_decide|vm_decide|reflexivity|vm_compute; reflexivity].
Defined.
