(* ===== verification/Chain.v ===== *)
(** * Chain configuration and state ([src/core/chain/mod.rs],
    [src/core/chain/genesis.rs], [src/core/chain/consensus.rs])

    The genesis configuration, the error type, the in-memory state of a
    node (what it stores is in [Persistence]), the base-fee rule, epochs, protocol versions,
    validator snapshots and the authorization of a proposer. The cursor over
    the canonical chain is the list of its blocks, genesis first, which
    [BlockStore] shows it to refine. *)
From S2P Require Import Prelude Hash Crypto Vm Transaction Token Governance Block Account.
From S2P Require Import Validators Finality Settlement BlockStore BlockTree Trie StateRoot.

Definition DEFAULT_BLOCK_GAS_LIMIT : Z := 10000000.
Definition DEFAULT_BLOCK_REWARD : Z := 50000000.
Definition DEFAULT_MIN_STAKE : Z := 1000000000.
Definition DEFAULT_UNSTAKE_DELAY_BLOCKS : Z := 10.
Definition DEFAULT_EPOCH_LENGTH : Z := 32.
Definition DEFAULT_JAIL_DURATION_BLOCKS : Z := 64.
Definition DEFAULT_INITIAL_BASE_FEE_PER_GAS : Z := 0.
Definition DEFAULT_BASE_FEE_CHANGE_DENOMINATOR : Z := 8.
Definition MAX_FUTURE_BLOCK_TIME_SECS : Z := 30.
Definition V6_HARDFORK_HEIGHT_TESTNET : Z := u64_max.

(** [GenesisAllocation]: the key is the hexadecimal text of the configuration. *)
Record GenesisAllocation := mkAllocation {
  al_public_key : string;
  al_balance : Z;
  al_staked_balance : Z;
}.

(** [ProtocolUpgrade] of the genesis configuration (not the governance one). *)
Record GenesisUpgrade := mkUpgrade { up_height : Z; up_version : Z }.

Record GenesisConfig := mkGenesisConfig {
  gc_chain_id : string;
  gc_chain_name : string;
  gc_block_reward : Z;
  gc_minimum_stake : Z;
  gc_unstake_delay_blocks : Z;
  gc_epoch_length : Z;
  gc_jail_duration_blocks : Z;
  gc_allocations : list GenesisAllocation;
  gc_upgrades : list GenesisUpgrade;
  gc_block_gas_limit : Z;
  gc_initial_base_fee_per_gas : Z;
  gc_base_fee_change_denominator : Z;
}.

#[global] Instance GenesisAllocation_eq_dec : EqDecision GenesisAllocation.
Proof. solve_decision. Defined.
#[global] Instance GenesisUpgrade_eq_dec : EqDecision GenesisUpgrade.
Proof. solve_decision. Defined.
#[global] Instance GenesisConfig_eq_dec : EqDecision GenesisConfig.
Proof. solve_decision. Defined.

(** [GenesisConfig::default]. *)
Definition genesis_config_default : GenesisConfig :=
  mkGenesisConfig "curs3d-devnet" "curs3d-devnet" DEFAULT_BLOCK_REWARD DEFAULT_MIN_STAKE
    DEFAULT_UNSTAKE_DELAY_BLOCKS DEFAULT_EPOCH_LENGTH DEFAULT_JAIL_DURATION_BLOCKS [] []
    DEFAULT_BLOCK_GAS_LIMIT DEFAULT_INITIAL_BASE_FEE_PER_GAS DEFAULT_BASE_FEE_CHANGE_DENOMINATOR.

(** [ChainError], with addresses as bytes instead of their hexadecimal text.
    [Panic] is not an error of the code: it stands for a panic of the thread. *)
Inductive ChainError :=
  | InvalidGenesis (message : string)
  | GenesisMismatch
  | InvalidHeight (expected got : Z)
  | InvalidPrevHash
  | InvalidBlockHash
  | InvalidMerkleRoot
  | InvalidStateRoot
  | InvalidBlockSignature
  | InvalidBlockTimestamp (got min max : Z)
  | InvalidSignature
  | InvalidChainId (expected got : string)
  | InvalidSender
  | InvalidRecipient
  | InvalidTransactionFormat (message : string)
  | InsufficientFunds (address : bytes) (balance needed : Z)
  | InvalidNonce (expected got : Z)
  | DuplicateTransaction
  | ReplacementFeeTooLow
  | FeeTooLow
  | InvalidBaseFee (expected got : Z)
  | MempoolFull
  | MissingCoinbase
  | MultipleCoinbase
  | InvalidCoinbase
  | UnauthorizedValidator
  | WrongProposer (height allowed_rank : Z)
  | BlockTreeErr (e : BlockTreeError)
  | ReorgBelowFinality (height : Z)
  | InvalidProtocolVersion (expected got : Z)
  | ChainVmError (e : VmError)
  | ContractNotFound (address : bytes)
  | CheckpointMismatch (height : Z) (expected got : bytes)
  | SnapshotError (message : string)
  | ChainStorageError (e : StorageError)
  | ChainBlockStoreError (e : BlockStoreError)
  | Panic.

(** [BlockExecution]: the part of the state a transaction can touch. *)
Record BlockExecution := mkExec {
  accounts : accounts_map;
  contracts : contracts_map;
  receipts : gmap bytes Receipt;
  token_registry : TokenRegistry;
  governance : GovernanceState;
}.

(** The configuration fields of [Blockchain], fixed at construction. *)
Record ChainParams := mkParams {
  block_reward : Z;
  minimum_stake : Z;
  unstake_delay_blocks : Z;
  epoch_length : Z;
  jail_duration_blocks : Z;
  block_gas_limit : Z;
  initial_base_fee_per_gas : Z;
  base_fee_change_denominator : Z;
  genesis_config : GenesisConfig;
}.

(** [Blockchain]; [bc_state] groups the fields of [BlockExecution]. *)
Record Blockchain := mkChain {
  bc_params : ChainParams;
  bc_state : BlockExecution;
  pending_transactions : list Transaction;
  block_tree : BlockTree;
  finality_tracker : FinalityTracker;
  bc_slashed_validators : gset bytes;
  epoch_snapshots : gmap Z EpochSnapshot;
  validator_missed_epochs : gmap bytes Z;
  bc_blocks : list Block;
  block_hash_to_height : gmap bytes Z;
  tx_hash_index : gmap bytes (Z * nat);
  evm_tx_hash_index : gmap bytes (Z * nat);
}.

(** ** Reading the chain *)

(** [block_count], [height], [block_at_height], [latest_block], [genesis_hash];
    the [expect]s on a chain without genesis return the default block. *)
Definition default_block : Block := mkBlock (mkHeader 0 0 0 [] [] [] 0 0 [] 0) [] [] None.
Definition block_count (c : Blockchain) : Z := Z.of_nat (length (bc_blocks c)).
Definition chain_height (c : Blockchain) : Z := saturating_sub (block_count c) 1.
Definition block_at_height (c : Blockchain) (h : Z) : option Block :=
  if h <? 0 then None else bc_blocks c !! Z.to_nat h.
Definition latest_block (c : Blockchain) : Block :=
  default default_block (block_at_height c (chain_height c)).
Definition genesis_hash (c : Blockchain) : bytes :=
  from_option block_hash [] (head (bc_blocks c)).

(** ** Base fee *)

Definition target_block_gas_usage (p : ChainParams) : Z := Z.max (block_gas_limit p / 2) 1.

Definition next_base_fee_per_gas (p : ChainParams) (parent : Block) : Z :=
  let hd := header parent in
  let parent_base_fee :=
    if height hd =? 0 then Z.max (base_fee_per_gas hd) (initial_base_fee_per_gas p)
    else base_fee_per_gas hd in
  let target := target_block_gas_usage p in
  if parent_base_fee =? 0 then 1
  else if gas_used hd =? target then parent_base_fee
  else
    let delta := Z.abs (gas_used hd - target) in
    let divisor := saturating_mul target (Z.max (base_fee_change_denominator p) 1) in
    let change :=
      Z.max (if divisor =? 0 then 0
             else saturating_mul (Z.max parent_base_fee 1) delta / divisor) 1 in
    if target <? gas_used hd then saturating_add parent_base_fee change
    else Z.max (saturating_sub parent_base_fee change) 1.

(** ** Epochs and protocol versions *)

Definition epoch_for_height (p : ChainParams) (h : Z) : Z := h / Z.max (epoch_length p) 1.
Definition current_epoch (c : Blockchain) : Z := epoch_for_height (bc_params c) (chain_height c).

(** [height.is_multiple_of(epoch_length.max(1))], for a positive height. *)
Definition is_epoch_start (p : ChainParams) (h : Z) : bool :=
  (0 <? h) && (h mod Z.max (epoch_length p) 1 =? 0).

Definition next_epoch_start_height_for (current_height epoch_length : Z) : Z :=
  let epoch_length := Z.max epoch_length 1 in
  saturating_mul (saturating_add (current_height / epoch_length) 1) epoch_length.

Definition protocol_version_at_height (p : ChainParams) (h : Z) : Z :=
  let version :=
    if bool_decide (gc_upgrades (genesis_config p) = []) then 5
    else foldl (λ v u, if up_height u <=? h then up_version u else v) 1
           (gc_upgrades (genesis_config p)) in
  if (V6_HARDFORK_HEIGHT_TESTNET <=? h) && (version <? V6_PROTOCOL_VERSION)
  then V6_PROTOCOL_VERSION else version.

(** ** Validator snapshots *)

Definition build_epoch_snapshot_for_accounts (g : GenesisConfig) (epoch : Z)
    (accounts : accounts_map) (slashed : gset bytes) : EpochSnapshot :=
  let start_height := mul64 epoch (Z.max (gc_epoch_length g) 1) in
  let validators := active_validators (mkPoS (gc_minimum_stake g) slashed start_height) accounts in
  mkSnapshot epoch start_height validators (total_stake_of validators).

Definition snapshot_for_accounts (c : Blockchain) (epoch : Z) (accounts : accounts_map)
    : EpochSnapshot :=
  build_epoch_snapshot_for_accounts (genesis_config (bc_params c)) epoch accounts
    (bc_slashed_validators c).

Definition active_validator_total_stake (c : Blockchain) (accounts : accounts_map) (h : Z) : Z :=
  total_stake_of (active_validators
    (mkPoS (minimum_stake (bc_params c)) (bc_slashed_validators c) h) accounts).

Definition snapshot_for_height (c : Blockchain) (accounts : accounts_map)
    (snapshots : gmap Z EpochSnapshot) (block_height : Z) : option EpochSnapshot :=
  let epoch := epoch_for_height (bc_params c) block_height in
  let derived :=
    if 0 <? block_height then
      let validators := active_validators
        (mkPoS (minimum_stake (bc_params c)) (bc_slashed_validators c) block_height) accounts in
      if bool_decide (validators = []) then None
      else Some (mkSnapshot epoch block_height validators (total_stake_of validators))
    else None in
  match snapshots !! epoch with
  | Some snapshot => if bool_decide (es_validators snapshot = []) then derived else Some snapshot
  | None => derived
  end.

Definition allowed_backup_rank_for_height (block_height parent_timestamp block_timestamp
    snapshot_size : Z) : Z :=
  if block_height <=? 1 then 0
  else allowed_backup_rank parent_timestamp block_timestamp snapshot_size.

Section authorization.
Context `{Sha3}.

(** [ensure_validator_is_authorized_for_accounts_at_rank]. *)
Definition ensure_validator_is_authorized (c : Blockchain) (accounts : accounts_map)
    (snapshots : gmap Z EpochSnapshot) (validator_public_key : bytes) (block_height : Z)
    (prev_hash : bytes) (allowed_rank : Z) : result ChainError () :=
  let proposer_address := address_bytes_from_public_key validator_public_key in
  match snapshot_for_height c accounts snapshots block_height with
  | Some snapshot =>
      if bool_decide (es_validators snapshot = []) then Ok ()
      else if existsb (λ rank, bool_decide (slot_leader_at_rank snapshot block_height prev_hash rank
                                            = Some proposer_address))
                (seqZ 0 (allowed_rank + 1))
      then Ok ()
      else Err (WrongProposer block_height allowed_rank)
  | None =>
      let pos := mkPoS (minimum_stake (bc_params c)) (bc_slashed_validators c) block_height in
      match select_validator pos accounts block_height prev_hash with
      | Some expected =>
          if bool_decide (vd_public_key expected = validator_public_key) then Ok ()
          else Err (WrongProposer block_height allowed_rank)
      | None => Ok ()
      end
  end.

(** [slot_leader_address]. *)
Definition slot_leader_address (c : Blockchain) (block_height : Z) (prev_hash : bytes) (rank : Z)
    : option bytes :=
  snapshot ← snapshot_for_height c (accounts (bc_state c)) (epoch_snapshots c) block_height;
  if bool_decide (es_validators snapshot = []) then None
  else slot_leader_at_rank snapshot block_height prev_hash rank.

(** ** Epoch settlement *)

(** [proposer_addresses_for_settling_epoch]. *)
Definition proposer_addresses_for_settling_epoch (c : Blockchain) (block_height : Z) : list bytes :=
  let epoch_len := Z.max (epoch_length (bc_params c)) 1 in
  let prev_epoch := saturating_sub block_height 1 / epoch_len in
  let new_epoch := block_height / epoch_len in
  if (new_epoch <=? prev_epoch) || (prev_epoch =? 0) then []
  else
    omap (λ h, (λ b, address_bytes_from_public_key (validator_public_key (header b))) <$>
                 block_at_height c h)
      (seqZ (prev_epoch * epoch_len) ((new_epoch - prev_epoch) * epoch_len)).

(** The histogram of the producers. *)
Definition count_producers (producers : list bytes) : gmap bytes Z :=
  foldl (λ m addr, entry_or_default 0 addr (λ n, add64 n 1) m) ∅ producers.

Definition update_missed (producers : gmap bytes Z) (missed : gmap bytes Z) (v : Validator)
    : gmap bytes Z :=
  if bool_decide (is_Some (producers !! vd_address v)) then delete (vd_address v) missed
  else entry_or_default 0 (vd_address v) (λ n, add64 n 1) missed.

(** [apply_epoch_settlement_for_block]: the new accounts and missed epochs. *)
Definition apply_epoch_settlement_for_block (block_height epoch_length : Z)
    (snapshots : gmap Z EpochSnapshot) (producers : list bytes) (accounts : accounts_map)
    (missed : gmap bytes Z) : accounts_map * gmap bytes Z :=
  let epoch_len := Z.max epoch_length 1 in
  let prev_epoch := saturating_sub block_height 1 / epoch_len in
  let new_epoch := block_height / epoch_len in
  if (new_epoch <=? prev_epoch) || (prev_epoch =? 0) then (accounts, missed)
  else
    match snapshots !! prev_epoch with
    | None => (accounts, missed)
    | Some snapshot =>
        let block_producers := count_producers producers in
        let settlement := compute_epoch_settlement snapshot block_producers missed in
        (apply_epoch_settlement accounts settlement,
         foldl (update_missed block_producers) missed (es_validators snapshot))
    end.
End authorization.

(** ** Genesis *)

(** [hex::decode] and the optional [0x] prefix. *)
Class HexDecode := hex_decode : string → option bytes.

Section genesis.
Context `{Sha3} `{MlDsa} `{HexDecode} `{!BincodeAccountLeaf} `{!BincodeStorageLeaf}
  `{!BincodeContractLeaf} `{!Bincode SignableTransaction} `{!Bincode BlockHeader}.

Definition decode_public_key_hex (value : string) : result ChainError bytes :=
  let raw := if String.prefix "0x" value then String.substring 2 (String.length value - 2) value
             else value in
  ok_or (InvalidGenesis "invalid public_key hex in genesis") (hex_decode raw).

Definition genesis_account (minimum_stake : Z) (a : GenesisAllocation) (pk : bytes) : AccountState :=
  mkAccount (al_balance a) 0 (al_staked_balance a) []
    (if minimum_stake <=? al_staked_balance a then 1 else 0) 0 (Some pk).

(** [accounts_from_genesis]. *)
Definition add_allocation (g : GenesisConfig) (m : result ChainError accounts_map)
    (a : GenesisAllocation) : result ChainError accounts_map :=
  m ← m;
  pk ← decode_public_key_hex (al_public_key a);
  let address := address_bytes_from_public_key pk in
  if bool_decide (is_Some (m !! address))
  then Err (InvalidGenesis "duplicate account in genesis")
  else Ok (<[address := genesis_account (gc_minimum_stake g) a pk]> m).

Definition accounts_from_genesis (g : GenesisConfig) : result ChainError accounts_map :=
  foldl (add_allocation g) (Ok ∅) (gc_allocations g).

Definition params_of (g : GenesisConfig) : ChainParams :=
  mkParams (gc_block_reward g) (gc_minimum_stake g) (gc_unstake_delay_blocks g)
    (gc_epoch_length g) (gc_jail_duration_blocks g) (gc_block_gas_limit g)
    (gc_initial_base_fee_per_gas g) (gc_base_fee_change_denominator g) g.

(** [Blockchain::from_genesis]. *)
Definition from_genesis (g : GenesisConfig) : result ChainError Blockchain :=
  accounts ← accounts_from_genesis g;
  let genesis := genesis_with_state_root (compute_full accounts ∅) (gc_chain_id g)
                   (gc_initial_base_fee_per_gas g) in
  Ok (mkChain (params_of g)
        (mkExec accounts ∅ ∅ registry_new governance_new) []
        (tree_from_genesis genesis) tracker_new ∅
        {[ 0 := build_epoch_snapshot_for_accounts g 0 accounts ∅ ]} ∅ [genesis] ∅ ∅ ∅).
End genesis.

(** ** Lemmas *)

(** A move of the base fee is at least 1 and, as long as the target times the
    denominator fits, at most the fee divided by the denominator. *)
Lemma base_fee_step b delta target den :
  0 < b → 0 ≤ delta ≤ target → 0 < target → 0 < den → target * den ≤ u64_max →
  saturating_mul b delta / saturating_mul target den ≤ b / den.
Proof.
  intros Hb Hd Ht Hden Hfit. unfold saturating_mul. rewrite (Z.min_l (target * den)) by lia.
  apply Z.div_le_lower_bound; [lia|].
  assert (0 < target * den) by nia.
  pose proof (Z.mul_div_le ((b * delta) `min` u64_max) (target * den) ltac:(lia)) as Hle.
  set (q := _ / _) in *.
  assert (b * delta ≤ b * target) by nia.
  apply (Z.mul_le_mono_pos_l _ _ target); lia.
Qed.

Section genesis_lemmas.
Context `{Sha3} `{MlDsa} `{HexDecode}.

Definition allocation_funds (a : GenesisAllocation) : Z := al_balance a + al_staked_balance a.

Lemma foldl_add_allocation_err g l e : foldl (add_allocation g) (Err e) l = Err e.
Proof. by induction l. Qed.

Lemma foldl_add_allocation g l m m' :
  foldl (add_allocation g) (Ok m) l = Ok m' →
  total_supply m' = total_supply m + sumZ (allocation_funds <$> l).
Proof.
  revert m. induction l as [|a l IH]; intros m; simpl; [intros [= <-]; lia|].
  destruct (decode_public_key_hex (al_public_key a)) as [pk|e]; simpl;
    [|by rewrite foldl_add_allocation_err].
  case_bool_decide as Hex; [by rewrite foldl_add_allocation_err|].
  intros Hl. apply IH in Hl. rewrite Hl. unfold total_supply.
  rewrite map_sum_insert_None by (by apply eq_None_not_Some).
  assert (account_funds (genesis_account (gc_minimum_stake g) a pk) = allocation_funds a) as ->.
  { unfold account_funds, allocation_funds, pending_total. simpl. lia. }
  unfold fmap. lia.
Qed.
End genesis_lemmas.

(** ** Properties *)

(** C36: the EIP-1559 base fee. For a parent with positive base fee [b] the next
    fee stays positive and within 64 bits; it equals [b] exactly on target, rises
    above it and falls below it, and as long as a block uses at most twice the
    target, by at most the larger of 1 and [b] over the denominator. *)
Theorem next_base_fee_bounds (p : ChainParams) (parent : Block) :
  let b := base_fee_per_gas (header parent) in
  let gas := gas_used (header parent) in
  let target := target_block_gas_usage p in
  let den := Z.max (base_fee_change_denominator p) 1 in
  let next := next_base_fee_per_gas p parent in
  0 < b ≤ u64_max → 0 < height (header parent) → 0 ≤ gas ≤ 2 * target → target * den ≤ u64_max →
  1 ≤ next ≤ u64_max ∧ (gas = target → next = b) ∧
  (target < gas → b ≤ next ∧ (b < u64_max → b < next) ∧ next ≤ b + Z.max 1 (b / den)) ∧
  (gas < target → next ≤ b ∧ (1 < b → next < b) ∧ b - Z.max 1 (b / den) ≤ next).
Proof.
  intros b gas target den next Hb Hh Hg Hfit.
  assert (0 < target) as Ht by (unfold target, target_block_gas_usage; lia).
  pose proof (base_fee_step b (Z.abs (gas - target)) target den ltac:(lia) ltac:(lia) Ht
    ltac:(lia) Hfit) as Hstep.
  assert (saturating_mul target den ≠ 0) as Hd0 by (unfold saturating_mul; nia).
  unfold next, next_base_fee_per_gas. fold b gas target den.
  destruct (height (header parent) =? 0) eqn:E; [bool_to_prop; lia|].
  destruct (b =? 0) eqn:E0; [bool_to_prop; lia|].
  destruct (gas =? target) eqn:Eg; bool_to_prop; [lia|].
  destruct (saturating_mul target den =? 0) eqn:Ed; [bool_to_prop; lia|].
  rewrite (Z.max_l b 1) by lia.
  set (q := _ / saturating_mul target den) in *.
  destruct (target <? gas) eqn:Etg; bool_to_prop; unfold saturating_add, saturating_sub; lia.
Qed.

Lemma next_base_fee_bounds_witness :
  let p := params_of genesis_config_default in
  let parent := mkBlock (mkHeader 5 1 0 [] [] [] 9000000 100 [] 0) [] [] None in
  100 < next_base_fee_per_gas p parent ≤ 112.
Proof.
  intros p parent.
  pose proof (next_base_fee_bounds p parent ltac:(vm_compute; split; congruence)
    eq_refl ltac:(vm_compute; split; congruence) ltac:(vm_compute; congruence)) as (_&_&Hup&_).
  destruct (Hup eq_refl) as (_&Hlt&Hle). split; [exact (Hlt eq_refl)|exact Hle].
Defined.

(** Before the first backup deadline a slot has one proposer: two keys
    authorized at rank 0 for the same height and parent have the same address,
    whenever the epoch has a non-empty snapshot. *)
Theorem primary_proposer_unique `{Sha3} (c : Blockchain) (m : accounts_map)
    (snapshots : gmap Z EpochSnapshot) (pk pk' : bytes) (h : Z) (prev : bytes)
    (snapshot : EpochSnapshot) :
  snapshot_for_height c m snapshots h = Some snapshot → es_validators snapshot ≠ [] →
  ensure_validator_is_authorized c m snapshots pk h prev 0 = Ok () →
  ensure_validator_is_authorized c m snapshots pk' h prev 0 = Ok () →
  address_bytes_from_public_key pk = address_bytes_from_public_key pk'.
Proof.
  intros Hs Hne H1 H2. unfold ensure_validator_is_authorized in *. rewrite Hs in *.
  rewrite bool_decide_eq_false_2 in H1, H2 by done.
  change (seqZ 0 (0 + 1)) with [0] in *. simpl in *. rewrite orb_false_r in *.
  repeat case_bool_decide; try done. congruence.
Qed.

(** The genesis ledger holds exactly what the configuration allocates. *)
Theorem genesis_supply `{Sha3} `{MlDsa} `{HexDecode} `{!BincodeAccountLeaf}
    `{!BincodeStorageLeaf} `{!BincodeContractLeaf} `{!Bincode SignableTransaction}
    `{!Bincode BlockHeader} (g : GenesisConfig) (c : Blockchain) :
  from_genesis g = Ok c →
  total_supply (accounts (bc_state c)) = sumZ (allocation_funds <$> gc_allocations g) ∧
  chain_height c = 0 ∧ genesis_hash c = block_hash (latest_block c) ∧
  state_root (header (latest_block c)) = compute_full (accounts (bc_state c)) ∅.
Proof.
  unfold from_genesis. intros Hg. repeat st_step.
  match goal with E : accounts_from_genesis g = Ok _ |- _ =>
    unfold accounts_from_genesis in E; apply foldl_add_allocation in E; rename E into Hs end.
  simpl. split; [rewrite Hs; unfold total_supply; by rewrite map_sum_empty|done].
Qed.
