(* ===== verification/Storage.v ===== *)
(** * The database ([src/storage/mod.rs], [src/storage/backend.rs])

    The embedded database [redb] is a parameter: named tables of byte strings
    ordered by key, changed by atomic write transactions that may fail. This file
    models what the node stores in it, the decoding of records written by older
    versions, and the implementation of the block store's backend. The text of an
    error is not modelled, and a read of an open database does not fail for
    reasons of its own. *)
From S2P Require Import Prelude Hash Crypto Vm Transaction Token Governance Block Account.
From S2P Require Import Validators Slashing Finality Settlement BlockStore BlockTree Trie StateRoot Chain.

(** ** Decoding *)

(** [bincode::deserialize] for a type of the crate. *)
Class BincodeDecode (A : Type) := bincode_deserialize : bytes → option A.

(** The encoding of a value decodes to it. [bincode] has this of every value whose
    integers are in the range of their types. *)
Definition bincode_ok {A} `{!Bincode A, !BincodeDecode A} (x : A) : Prop :=
  bincode_deserialize (bincode_serialize x) = Some x.

Definition decode {A} `{!BincodeDecode A} (v : bytes) : result StorageError A :=
  ok_or (SerializeError "bincode") (bincode_deserialize v).

(** The current format first, an older one if that fails. *)
Definition decode_compat {A L} `{!BincodeDecode A, !BincodeDecode L} (upgrade : L → A) (v : bytes)
    : result StorageError A :=
  match bincode_deserialize v with
  | Some a => Ok a
  | None => l ← decode v; Ok (upgrade l)
  end.

(** ** The database *)

Inductive Table :=
  | BLOCKS_TABLE | STATE_TABLE | META_TABLE | PENDING_TABLE | EVIDENCE_TABLE | EPOCH_TABLE
  | CONTRACT_TABLE | RECEIPT_TABLE | SNAPSHOT_MANIFEST_TABLE | SNAPSHOT_CHUNK_TABLE.

#[global] Instance Table_eq_dec : EqDecision Table.
Proof. solve_decision. Defined.

(** One operation of a write transaction; [Clear] is [retain(|_, _| false)]. *)
Inductive Write :=
  | Insert (t : Table) (k v : bytes)
  | Remove (t : Table) (k : bytes)
  | Clear (t : Table).

Definition apply_write (t : Table) (m : gmap bytes bytes) (w : Write) : gmap bytes bytes :=
  match w with
  | Insert t' k v => if bool_decide (t' = t) then <[k := v]> m else m
  | Remove t' k => if bool_decide (t' = t) then delete k m else m
  | Clear t' => if bool_decide (t' = t) then ∅ else m
  end.

(** [redb::Database]: a committed transaction has the effect of its operations in
    order, a failed one none; tables are iterated in key order. *)
Class Redb (D : Type) := {
  db_table : D → Table → gmap bytes bytes;
  db_commit : list Write → D → result string D;
  db_commit_Ok ws d d' : db_commit ws d = Ok d' →
    ∀ t, db_table d' t = foldl (apply_write t) (db_table d t) ws;
}.

(** ** Records of older versions *)

Record LegacyGenesisConfigV1 := mkLegacyGenesis {
  lg_chain_name : string;
  lg_block_reward : Z;
  lg_minimum_stake : Z;
  lg_allocations : list GenesisAllocation;
}.

Record LegacyAccountStateV1 := mkLegacyAccount {
  la_balance : Z;
  la_nonce : Z;
  la_staked_balance : Z;
  la_public_key : option bytes;
}.

Record LegacyTransactionV1 := mkLegacyTransaction {
  lt_kind : TransactionKind;
  lt_from : bytes;
  lt_sender_public_key : bytes;
  lt_to : bytes;
  lt_amount : Z;
  lt_fee : Z;
  lt_nonce : Z;
  lt_timestamp : Z;
  lt_signature : option Signature;
}.

Record LegacyBlockV1 := mkLegacyBlock {
  lb_header : BlockHeader;
  lb_transactions : list LegacyTransactionV1;
  lb_hash : bytes;
  lb_signature : option Signature;
}.

(** The two signed hashes of the old evidence are decoded and dropped. *)
Record LegacyEquivocationEvidenceV1 := mkLegacyEvidence {
  le_height : Z;
  le_validator_public_key : bytes;
  le_block_hash_a : bytes;
  le_signature_a : Signature;
  le_block_hash_b : bytes;
  le_signature_b : Signature;
}.

Definition genesis_config_from_legacy (value : LegacyGenesisConfigV1) : GenesisConfig :=
  mkGenesisConfig (lg_chain_name value) (lg_chain_name value) (lg_block_reward value)
    (lg_minimum_stake value) DEFAULT_UNSTAKE_DELAY_BLOCKS DEFAULT_EPOCH_LENGTH
    DEFAULT_JAIL_DURATION_BLOCKS (lg_allocations value) (gc_upgrades genesis_config_default)
    (gc_block_gas_limit genesis_config_default)
    (gc_initial_base_fee_per_gas genesis_config_default)
    (gc_base_fee_change_denominator genesis_config_default).

Definition account_from_legacy (value : LegacyAccountStateV1) : AccountState :=
  mkAccount (la_balance value) (la_nonce value) (la_staked_balance value) [] 0 0
    (la_public_key value).

Definition transaction_into_current (chain_id : string) (tx : LegacyTransactionV1) : Transaction :=
  mkTransaction chain_id (lt_kind tx) (lt_from tx) (lt_sender_public_key tx) (lt_to tx) (lt_amount tx)
    (lt_fee tx) (lt_fee tx) (lt_fee tx) (lt_nonce tx) (lt_timestamp tx) (lt_signature tx) 0 [] [].

Definition block_into_current (chain_id : string) (b : LegacyBlockV1) : Block :=
  mkBlock (lb_header b) (transaction_into_current chain_id <$> lb_transactions b) (lb_hash b)
    (lb_signature b).

(** ** Keys *)

Definition HEIGHT_KEY : bytes := bstr "chain_height".
Definition SCHEMA_VERSION_KEY : bytes := bstr "schema_version".
Definition CURRENT_SCHEMA_VERSION : Z := 4.
Definition TOKEN_REGISTRY_KEY : bytes := bstr "token_registry".
Definition GOVERNANCE_STATE_KEY : bytes := bstr "governance_state".
Definition CHAIN_CONFIG_KEY : bytes := bstr "chain_config".
Definition FINALIZED_HEIGHT_KEY : bytes := bstr "finalized_height".

(** [height.to_be_bytes()] of a [u64], and back. *)
Definition u64_key (z : Z) : bytes := to_be_bytes 8 z.
Definition u64_of_key (k : bytes) : option Z :=
  if bool_decide (length k = 8%nat) then Some (from_le_bytes (reverse k)) else None.

(** ** State-sync records *)

Record SnapshotManifest := mkManifest {
  sm_height : Z;
  sm_epoch : Z;
  sm_chain_id : string;
  sm_genesis_hash : bytes;
  sm_latest_hash : bytes;
  sm_tip_height : Z;
  sm_tip_hash : bytes;
  sm_finalized_height : Z;
  sm_finalized_hash : bytes;
  sm_state_root : bytes;
  sm_chunk_root : bytes;
  sm_chunk_count : nat;
  sm_chunk_hashes : list bytes;
}.

Record StateChunk := mkChunk {
  ch_index : nat;
  ch_data : bytes;
  ch_hash : bytes;
  ch_proof : list bytes;
}.

Record SnapshotState := mkSnapshotState {
  ss_blocks : list Block;
  ss_accounts : list (bytes * AccountState);
  ss_contracts : list (bytes * ContractState);
  ss_receipts : list (bytes * Receipt);
  ss_pending_transactions : list Transaction;
  ss_slashed_validators : list bytes;
  ss_epoch_snapshots : list (Z * EpochSnapshot);
  ss_finalized_height : Z;
  ss_finalized_hash : bytes;
}.

(** The encodings of what is stored; [u64] and [string] are the scalars. *)
Class StorageCodec := {
  #[global] codec_block :: Bincode Block;
  #[global] codec_block_de :: BincodeDecode Block;
  #[global] codec_account :: Bincode AccountState;
  #[global] codec_account_de :: BincodeDecode AccountState;
  #[global] codec_contract :: Bincode ContractState;
  #[global] codec_contract_de :: BincodeDecode ContractState;
  #[global] codec_receipt :: Bincode Receipt;
  #[global] codec_receipt_de :: BincodeDecode Receipt;
  #[global] codec_tx :: Bincode Transaction;
  #[global] codec_tx_de :: BincodeDecode Transaction;
  #[global] codec_epoch :: Bincode EpochSnapshot;
  #[global] codec_epoch_de :: BincodeDecode EpochSnapshot;
  #[global] codec_evidence :: Bincode EquivocationEvidence;
  #[global] codec_evidence_de :: BincodeDecode EquivocationEvidence;
  #[global] codec_genesis :: Bincode GenesisConfig;
  #[global] codec_genesis_de :: BincodeDecode GenesisConfig;
  #[global] codec_registry :: Bincode TokenRegistry;
  #[global] codec_registry_de :: BincodeDecode TokenRegistry;
  #[global] codec_governance :: Bincode GovernanceState;
  #[global] codec_governance_de :: BincodeDecode GovernanceState;
  #[global] codec_manifest :: Bincode SnapshotManifest;
  #[global] codec_manifest_de :: BincodeDecode SnapshotManifest;
  #[global] codec_chunk :: Bincode StateChunk;
  #[global] codec_chunk_de :: BincodeDecode StateChunk;
  #[global] codec_u64 :: Bincode Z;
  #[global] codec_u64_de :: BincodeDecode Z;
}.

Class LegacyCodec := {
  #[global] legacy_genesis_de :: BincodeDecode LegacyGenesisConfigV1;
  #[global] legacy_account_de :: BincodeDecode LegacyAccountStateV1;
  #[global] legacy_tx_de :: BincodeDecode LegacyTransactionV1;
  #[global] legacy_block_de :: BincodeDecode LegacyBlockV1;
  #[global] legacy_evidence_de :: BincodeDecode LegacyEquivocationEvidenceV1;
}.

(** The pending transactions are handed back by age. *)
Definition pending_le (a b : Transaction) : Prop :=
  tx_timestamp a < tx_timestamp b ∨ tx_timestamp a = tx_timestamp b ∧ tx_nonce a ≤ tx_nonce b.
#[global] Instance pending_le_dec : RelDecision pending_le.
Proof. intros a b. unfold pending_le. apply _. Defined.

Definition chunk_le (a b : StateChunk) : Prop := (ch_index a ≤ ch_index b)%nat.
#[global] Instance chunk_le_dec : RelDecision chunk_le.
Proof. intros a b. unfold chunk_le. apply _. Defined.

Section storage.
Context `{Sha3} {D : Type} `{!Redb D} `{!StorageCodec} `{!LegacyCodec}
  `{!Bincode SignableTransaction}.

(** ** Transactions on the database *)

(** A write transaction, from [begin_write] to [commit]. *)
Definition write_transaction (ws : list Write) : stM D StorageError () := λ d,
  match db_commit ws d with
  | Ok d' => (Ok (), d')
  | Err m => (Err (RedbError m), d)
  end.

Definition entry_inserts {A} `{!Bincode A} (t : Table) (l : list (bytes * A)) : list Write :=
  (λ kv, Insert t kv.1 (bincode_serialize kv.2)) <$> l.

(** Clear a table and fill it again. *)
Definition replace_table {A} `{!Bincode A} (t : Table) (l : list (bytes * A))
    : stM D StorageError () :=
  write_transaction (Clear t :: entry_inserts t l).

(** A lookup with a decoder, and the decoding of a whole table in key order. *)
Definition table_get {A} (dec : bytes → result StorageError A) (t : Table) (k : bytes) (d : D)
    : result StorageError (option A) :=
  match db_table d t !! k with
  | Some v => a ← dec v; Ok (Some a)
  | None => Ok None
  end.

Fixpoint decode_entries {A} (dec : bytes → result StorageError A) (l : list (bytes * bytes))
    : result StorageError (list (bytes * A)) :=
  match l with
  | [] => Ok []
  | (k, v) :: l => a ← dec v; rest ← decode_entries dec l; Ok ((k, a) :: rest)
  end.

Definition table_all {A} (dec : bytes → result StorageError A) (t : Table) (d : D)
    : result StorageError (list (bytes * A)) :=
  decode_entries dec (sorted_entries (db_table d t)).

(** ** Blocks *)

Definition db_put_block (b : Block) : stM D StorageError () :=
  write_transaction [Insert BLOCKS_TABLE (u64_key (height (header b))) (bincode_serialize b);
                     Insert META_TABLE HEIGHT_KEY (u64_key (height (header b)))].

Definition db_get_block (h : Z) (d : D) : result StorageError (option Block) :=
  table_get decode BLOCKS_TABLE (u64_key h) d.

Definition get_block_compat (h : Z) (chain_id : string) (d : D)
    : result StorageError (option Block) :=
  table_get (decode_compat (block_into_current chain_id)) BLOCKS_TABLE (u64_key h) d.

Definition db_prune_blocks_below (retain_from : Z) : stM D StorageError nat := λ d,
  if retain_from =? 0 then (Ok 0%nat, d)
  else
    let keys := filter (λ k, bytes_cmp k (u64_key retain_from) = Lt)
                  (sorted_entries (db_table d BLOCKS_TABLE)).*1 in
    match write_transaction (Remove BLOCKS_TABLE <$> keys) d with
    | (Ok _, d') => (Ok (length keys), d')
    | (Err e, d') => (Err e, d')
    end.

Definition db_get_height (d : D) : result StorageError (option Z) :=
  match db_table d META_TABLE !! HEIGHT_KEY with
  | Some v => h ← ok_or (SerializeError "invalid height bytes") (u64_of_key v); Ok (Some h)
  | None => Ok None
  end.

Definition replace_blocks (blocks : list Block) : stM D StorageError () :=
  write_transaction
    (Clear BLOCKS_TABLE ::
     entry_inserts BLOCKS_TABLE ((λ b, (u64_key (height (header b)), b)) <$> blocks) ++
     [match last blocks with
      | Some b => Insert META_TABLE HEIGHT_KEY (u64_key (height (header b)))
      | None => Remove META_TABLE HEIGHT_KEY
      end]).

(** ** Accounts, contracts, receipts *)

Definition put_account (address : bytes) (state : AccountState) : stM D StorageError () :=
  write_transaction [Insert STATE_TABLE address (bincode_serialize state)].

Definition replace_accounts (m : accounts_map) : stM D StorageError () :=
  replace_table STATE_TABLE (sorted_entries m).

Definition db_get_account (address : bytes) (d : D) : result StorageError (option AccountState) :=
  table_get decode STATE_TABLE address d.

Definition get_account_compat (address : bytes) (d : D) : result StorageError (option AccountState) :=
  table_get (decode_compat account_from_legacy) STATE_TABLE address d.

Definition get_all_accounts (d : D) : result StorageError (list (bytes * AccountState)) :=
  table_all decode STATE_TABLE d.

Definition get_all_accounts_compat (d : D) : result StorageError (list (bytes * AccountState)) :=
  table_all (decode_compat account_from_legacy) STATE_TABLE d.

Definition replace_contracts (m : contracts_map) : stM D StorageError () :=
  replace_table CONTRACT_TABLE (sorted_entries m).

Definition get_all_contracts (d : D) : result StorageError (list (bytes * ContractState)) :=
  table_all decode CONTRACT_TABLE d.

Definition replace_receipts (m : gmap bytes Receipt) : stM D StorageError () :=
  replace_table RECEIPT_TABLE (sorted_entries m).

Definition get_all_receipts (d : D) : result StorageError (list (bytes * Receipt)) :=
  table_all decode RECEIPT_TABLE d.

(** ** Pending transactions *)

Definition replace_pending_transactions (txs : list Transaction) : stM D StorageError () :=
  replace_table PENDING_TABLE ((λ tx, (tx_hash tx, tx)) <$> txs).

Definition get_all_pending_transactions (d : D) : result StorageError (list Transaction) :=
  l ← table_all decode PENDING_TABLE d;
  Ok (merge_sort pending_le l.*2).

Definition get_all_pending_transactions_compat (chain_id : string) (d : D)
    : result StorageError (list Transaction) :=
  l ← table_all (decode_compat (transaction_into_current chain_id)) PENDING_TABLE d;
  Ok (merge_sort pending_le l.*2).

(** ** Evidence *)

Definition put_evidence (ev : EquivocationEvidence) : stM D StorageError () :=
  write_transaction [Insert EVIDENCE_TABLE (evidence_key ev) (bincode_serialize ev)].

Definition get_all_evidence (d : D) : result StorageError (list EquivocationEvidence) :=
  l ← table_all decode EVIDENCE_TABLE d; Ok l.*2.

(** The offender of a stored evidence of either version. *)
Definition decode_offender (v : bytes) : result StorageError bytes :=
  match bincode_deserialize v with
  | Some ev => Ok (address_bytes_from_public_key (ev_validator_public_key ev))
  | None =>
      legacy ← decode v;
      Ok (address_bytes_from_public_key (le_validator_public_key legacy))
  end.

Definition get_slashed_addresses (d : D) : result StorageError (gset bytes) :=
  l ← table_all decode_offender EVIDENCE_TABLE d;
  Ok (list_to_set l.*2).

(** ** Metadata *)

Definition put_meta {A} `{!Bincode A} (k : bytes) (value : A) : stM D StorageError () :=
  write_transaction [Insert META_TABLE k (bincode_serialize value)].

Definition get_meta {A} `{!BincodeDecode A} (k : bytes) (d : D) : result StorageError (option A) :=
  table_get decode META_TABLE k d.

Definition get_schema_version (d : D) : result StorageError (option Z) :=
  get_meta SCHEMA_VERSION_KEY d.

Definition get_genesis_config_compat (k : bytes) (d : D) : result StorageError (option GenesisConfig) :=
  table_get (decode_compat genesis_config_from_legacy) META_TABLE k d.

(** ** Epoch snapshots *)

Definition put_epoch_snapshot (epoch : Z) (snapshot : EpochSnapshot) : stM D StorageError () :=
  write_transaction [Insert EPOCH_TABLE (u64_key epoch) (bincode_serialize snapshot)].

(** Sorted by epoch; the order of insertion is that of the keys. *)
Definition epoch_le (p q : Z * EpochSnapshot) : Prop := p.1 ≤ q.1.
#[global] Instance epoch_le_dec : RelDecision epoch_le.
Proof. intros p q. unfold epoch_le. apply _. Defined.

Definition replace_epoch_snapshots (m : gmap Z EpochSnapshot) : stM D StorageError () :=
  replace_table EPOCH_TABLE (prod_map u64_key id <$> merge_sort epoch_le (map_to_list m)).

Definition get_epoch_snapshot (epoch : Z) (d : D) : result StorageError (option EpochSnapshot) :=
  table_get decode EPOCH_TABLE (u64_key epoch) d.

Fixpoint decode_epochs (l : list (bytes * EpochSnapshot))
    : result StorageError (list (Z * EpochSnapshot)) :=
  match l with
  | [] => Ok []
  | (k, s) :: l =>
      epoch ← ok_or (SerializeError "invalid epoch key") (u64_of_key k);
      rest ← decode_epochs l;
      Ok ((epoch, s) :: rest)
  end.

Definition get_all_epoch_snapshots (d : D) : result StorageError (list (Z * EpochSnapshot)) :=
  l ← table_all decode EPOCH_TABLE d; decode_epochs l.

(** ** State-sync snapshots *)

Definition put_snapshot_manifest (h : Z) (manifest : SnapshotManifest) : stM D StorageError () :=
  write_transaction [Insert SNAPSHOT_MANIFEST_TABLE (u64_key h) (bincode_serialize manifest)].

Definition get_latest_snapshot_manifest (d : D) : result StorageError (option SnapshotManifest) :=
  match last (sorted_entries (db_table d SNAPSHOT_MANIFEST_TABLE)) with
  | Some (_, v) => manifest ← decode v; Ok (Some manifest)
  | None => Ok None
  end.

Definition chunk_key (h : Z) (index : nat) : bytes := u64_key h ++ u64_key (Z.of_nat index).

Definition put_snapshot_chunk (h : Z) (chunk : StateChunk) (expected_chunk_count : option nat)
    : stM D StorageError () :=
  _ ← st_guard (match expected_chunk_count with
                | Some count => bool_decide (ch_index chunk < count)%nat
                | None => true
                end) (SerializeError "chunk index exceeds expected count");
  write_transaction [Insert SNAPSHOT_CHUNK_TABLE (chunk_key h (ch_index chunk))
                       (bincode_serialize chunk)].

Definition get_snapshot_chunks (h : Z) (d : D) : result StorageError (list StateChunk) :=
  l ← decode_entries decode
        (filter (λ kv : bytes * bytes, u64_key h `prefix_of` kv.1)
           (sorted_entries (db_table d SNAPSHOT_CHUNK_TABLE)));
  Ok (merge_sort chunk_le l.*2).

Definition get_snapshot_chunk (h : Z) (index : nat) (d : D) : result StorageError (option StateChunk) :=
  table_get decode SNAPSHOT_CHUNK_TABLE (chunk_key h index) d.

(** ** Lemmas *)

Lemma write_transaction_Ok ws d u d' t :
  write_transaction ws d = (Ok u, d') → db_table d' t = foldl (apply_write t) (db_table d t) ws.
Proof.
  unfold write_transaction. destruct (db_commit ws d) as [d1|] eqn:E; [|done].
  intros [= _ <-]. by eapply db_commit_Ok.
Qed.

Lemma write_transaction_Err ws d e d' : write_transaction ws d = (Err e, d') → d' = d.
Proof. unfold write_transaction. by destruct (db_commit ws d); intros [= _ <-]. Qed.

Lemma apply_inserts_other {A} `{!Bincode A} t t' (l : list (bytes * A)) m :
  t' ≠ t → foldl (apply_write t) m (entry_inserts t' l) = m.
Proof.
  intros Hne. unfold entry_inserts. revert m.
  induction l as [|[k a] l IH]; intros m; [done|]. cbn [fmap list_fmap foldl apply_write].
  rewrite bool_decide_eq_false_2 by done. apply IH.
Qed.

Lemma apply_inserts {A} `{!Bincode A} t (l : list (bytes * A)) m :
  NoDup l.*1 →
  foldl (apply_write t) m (entry_inserts t l) = list_to_map (prod_map id bincode_serialize <$> l) ∪ m.
Proof.
  unfold entry_inserts. revert m. induction l as [|[k a] l IH]; intros m Hnd.
  { simpl. by rewrite (left_id_L ∅ (∪)). }
  cbn [fmap list_fmap foldl apply_write] in *. apply NoDup_cons in Hnd as [Hk Hnd].
  rewrite bool_decide_eq_true_2 by done. rewrite IH by done. cbn [prod_map fst snd list_to_map id].
  rewrite <- insert_union_r, insert_union_l; [done|].
  apply not_elem_of_list_to_map_1. by rewrite <- list_fmap_compose.
Qed.

Lemma apply_clear t m ws : foldl (apply_write t) m (Clear t :: ws) = foldl (apply_write t) ∅ ws.
Proof. cbn [foldl apply_write]. by rewrite bool_decide_eq_true_2. Qed.

(** A replaced table holds exactly the new entries; the others are as before. *)
Lemma replace_table_Ok {A} `{!Bincode A} t (l : list (bytes * A)) d u d' :
  NoDup l.*1 → replace_table t l d = (Ok u, d') →
  db_table d' t = list_to_map (prod_map id bincode_serialize <$> l) ∧
  ∀ t', t' ≠ t → db_table d' t' = db_table d t'.
Proof.
  intros Hnd Hw. split.
  - rewrite (write_transaction_Ok _ _ _ _ t Hw), apply_clear, apply_inserts by done.
    by rewrite (right_id_L ∅ (∪)).
  - intros t' Ht. rewrite (write_transaction_Ok _ _ _ _ t' Hw). cbn [foldl apply_write].
    rewrite bool_decide_eq_false_2 by done. by apply apply_inserts_other.
Qed.

Lemma replace_entries_Ok {A} `{!Bincode A} (t : Table) (m : gmap bytes A) (d : D) u d' :
  replace_table t (sorted_entries m) d = (Ok u, d') →
  db_table d' t = bincode_serialize <$> m ∧ ∀ t', t' ≠ t → db_table d' t' = db_table d t'.
Proof.
  intros Hr. apply replace_table_Ok in Hr as [-> Ho]; [|apply NoDup_sorted_entries].
  split; [|done]. by rewrite <- sorted_entries_fmap, list_to_map_sorted_entries.
Qed.

Lemma decode_encoded {A} `{!Bincode A, !BincodeDecode A} (x : A) :
  bincode_ok x → decode (bincode_serialize x) = Ok x.
Proof. unfold decode, bincode_ok. by intros ->. Qed.

Lemma decode_entries_encoded {A} `{!Bincode A, !BincodeDecode A} (l : list (bytes * A)) :
  Forall (λ kv, bincode_ok kv.2) l →
  decode_entries decode (prod_map id bincode_serialize <$> l) = Ok l.
Proof.
  induction 1 as [|[k a] l Ha Hl IH]; [done|]. rewrite fmap_cons.
  cbn [prod_map fst snd decode_entries id] in *. rewrite decode_encoded by done.
  cbn [mbind result_bind]. by rewrite IH.
Qed.

(** What was encoded into a table is read back in key order. *)
Lemma table_all_encoded {A} `{!Bincode A, !BincodeDecode A} (t : Table) (m : gmap bytes A) (d : D) :
  db_table d t = bincode_serialize <$> m → map_Forall (λ _, bincode_ok) m →
  table_all decode t d = Ok (sorted_entries m).
Proof.
  intros Ht Hm. unfold table_all. rewrite Ht, sorted_entries_fmap.
  apply decode_entries_encoded, Forall_forall. intros [k a] Hka%elem_of_sorted_entries. by eapply Hm.
Qed.

Lemma decode_compat_encoded {A L} `{!Bincode A, !BincodeDecode A, !BincodeDecode L}
    (upgrade : L → A) x :
  bincode_ok x → decode_compat upgrade (bincode_serialize x) = Ok x.
Proof. unfold decode_compat, bincode_ok. by intros ->. Qed.

Lemma decode_entries_ext {A} (dec dec' : bytes → result StorageError A) l :
  (∀ k v, (k, v) ∈ l → dec v = dec' v) → decode_entries dec l = decode_entries dec' l.
Proof.
  induction l as [|[k v] l IH]; intros Hd; [done|]. simpl.
  rewrite (Hd k v) by left. destruct (dec' v); simpl; [|done].
  by rewrite IH by (intros; eapply Hd; right; done).
Qed.

Lemma table_all_compat {A L} `{!Bincode A, !BincodeDecode A, !BincodeDecode L}
    (upgrade : L → A) (t : Table) (m : gmap bytes A) (d : D) :
  db_table d t = bincode_serialize <$> m → map_Forall (λ _, bincode_ok) m →
  table_all (decode_compat upgrade) t d = Ok (sorted_entries m).
Proof.
  intros Ht Hm. rewrite <- (table_all_encoded _ _ _ Ht Hm). unfold table_all.
  apply decode_entries_ext. intros k v Hv%elem_of_sorted_entries. rewrite Ht, lookup_fmap in Hv.
  apply fmap_Some in Hv as (x&Hx&->). rewrite decode_compat_encoded by (by eapply Hm).
  symmetry. apply decode_encoded. by eapply Hm.
Qed.

Lemma table_get_encoded {A} `{!Bincode A, !BincodeDecode A} (t : Table) k (x : A) (d : D) :
  db_table d t !! k = Some (bincode_serialize x) → bincode_ok x →
  table_get decode t k d = Ok (Some x).
Proof. unfold table_get. intros -> Hx. by rewrite decode_encoded. Qed.

(** ** Keys *)

Lemma u64_key_range z : is_u64 z → 0 ≤ z < 256 ^ Z.of_nat 8.
Proof. intros. change (256 ^ Z.of_nat 8) with u64_mod. u64_lia. Qed.

Lemma u64_key_inj x y : is_u64 x → is_u64 y → u64_key x = u64_key y → x = y.
Proof. intros Hx Hy. apply to_be_bytes_inj; by apply u64_key_range. Qed.

Lemma u64_key_cmp x y : is_u64 x → is_u64 y → bytes_cmp (u64_key x) (u64_key y) = Z.compare x y.
Proof. intros Hx Hy. apply bytes_cmp_be; by apply u64_key_range. Qed.

Lemma u64_of_key_key z : is_u64 z → u64_of_key (u64_key z) = Some z.
Proof.
  intros Hz. unfold u64_of_key, u64_key, to_be_bytes.
  rewrite bool_decide_eq_true_2 by (by rewrite length_reverse, length_to_le_bytes).
  rewrite reverse_involutive, from_to_le_bytes, Z.mod_small; [done|]. by apply u64_key_range.
Qed.

(** ** The database as the block store's backend *)

(** Removing keys of a table. *)
Lemma apply_removes t keys m k :
  foldl (apply_write t) m (Remove t <$> keys) !! k = if bool_decide (k ∈ keys) then None else m !! k.
Proof.
  revert m. induction keys as [|k0 keys IH]; intros m; [done|].
  cbn [fmap list_fmap foldl apply_write]. rewrite bool_decide_eq_true_2 by done. rewrite IH.
  destruct (decide (k = k0)) as [->|Hne].
  - rewrite lookup_delete_eq. rewrite (bool_decide_eq_true_2 (k0 ∈ k0 :: keys)) by left. by case_bool_decide.
  - rewrite lookup_delete_ne by done. erewrite bool_decide_ext; [done|]. set_solver.
Qed.

Lemma db_get_put b d u d' h :
  is_u64 h → is_u64 (height (header b)) → bincode_ok b → db_put_block b d = (Ok u, d') →
  db_get_block h d' = if bool_decide (h = height (header b)) then Ok (Some b) else db_get_block h d.
Proof.
  intros Hh Hb Hok Hw. unfold db_get_block, table_get.
  rewrite (write_transaction_Ok _ _ _ _ BLOCKS_TABLE Hw). cbn [foldl apply_write].
  rewrite (bool_decide_eq_true_2 (BLOCKS_TABLE = BLOCKS_TABLE)), (bool_decide_eq_false_2 (META_TABLE = BLOCKS_TABLE)) by done.
  case_bool_decide as E.
  - rewrite E, lookup_insert_eq, decode_encoded by done. done.
  - rewrite lookup_insert_ne; [done|]. intros Hk. apply u64_key_inj in Hk; [congruence|done..].
Qed.

Lemma db_get_pruned d n d' k h :
  is_u64 h → is_u64 k → db_prune_blocks_below k d = (Ok n, d') → k ≤ h →
  db_get_block h d' = db_get_block h d.
Proof.
  intros Hh Hk. unfold db_prune_blocks_below. destruct (k =? 0); [by intros [= _ <-]|].
  set (keys := filter _ _). destruct (write_transaction _ d) as [[[]|e] d1] eqn:Hw; [|done].
  intros [= _ <-] Hle. unfold db_get_block, table_get.
  rewrite (write_transaction_Ok _ _ _ _ BLOCKS_TABLE Hw), apply_removes, bool_decide_eq_false_2; [done|].
  unfold keys. intros [Hlt _]%list_elem_of_filter. rewrite u64_key_cmp in Hlt by done.
  change (h < k) in Hlt. lia.
Qed.

(** [impl BlockBackend for Storage]. *)
#[global] Program Instance storage_backend : BlockBackend D := {|
  put_block b d := match db_put_block b d with (Ok _, d') => Ok d' | (Err e, _) => Err e end;
  get_block := db_get_block;
  prune_blocks_below k d :=
    match db_prune_blocks_below k d with (Ok n, d') => Ok (n, d') | (Err e, _) => Err e end;
  get_height := db_get_height;
  storable := bincode_ok;
|}.
Next Obligation.
  intros s s' b h Hh Hb Hok Hp. simpl in *.
  destruct (db_put_block b s) as [[[]|e] d'] eqn:E; [|done]. injection Hp as <-. by eapply db_get_put.
Qed.
Next Obligation.
  intros s s' n k h Hh Hk Hp Hle. simpl in *.
  destruct (db_prune_blocks_below k s) as [[m|e] d'] eqn:E; [|done]. injection Hp as _ <-.
  by eapply db_get_pruned.
Qed.
End storage.

(** ** A database and encodings to run on *)

(** A database that keeps every commit. *)
Definition DemoDb : Type := Table → gmap bytes bytes.
Definition demo_db_empty : DemoDb := λ _, ∅.

#[global] Program Instance demo_redb : Redb DemoDb := {|
  db_table d t := d t;
  db_commit ws d := Ok (λ t, foldl (apply_write t) (d t) ws);
|}.
Next Obligation. intros ws d d' [= <-] t. done. Qed.

(** The values of a list, encoded by their position. *)
Definition dict_ser {A} `{EqDecision A} (l : list A) : Bincode A := λ x,
  u64_key (Z.of_nat (default 0%nat (fst <$> list_find (x =.) l))).
Definition dict_de {A} (l : list A) : BincodeDecode A := λ v,
  i ← u64_of_key v; l !! Z.to_nat i.

Lemma dict_ok {A} `{EqDecision A} (l : list A) x :
  x ∈ l → Z.of_nat (length l) ≤ u64_max → @bincode_ok A (dict_ser l) (dict_de l) x.
Proof.
  intros Hx Hlen. destruct (list_find_elem_of (x =.) l x Hx eq_refl) as [[i y] Hf].
  unfold bincode_ok, bincode_deserialize, bincode_serialize, dict_de, dict_ser. rewrite Hf.
  change (default 0%nat (fst <$> Some (i, y))) with i.
  apply list_find_Some in Hf as (Hi&<-&_). pose proof (lookup_lt_Some _ _ _ Hi).
  rewrite u64_of_key_key by u64_lia. simpl. by rewrite Nat2Z.id.
Qed.
