(* ===== verification/Apply.v ===== *)
(** * Transaction execution ([src/core/chain/apply.rs])

    The application of one transaction to the accounts, contracts, receipts,
    token registry and governance state. The code mutates them in place and
    returns early on errors, so mutations made before an error remain: the
    functions are state-error computations that keep the state on [Err]. *)
From S2P Require Import Prelude Hash Crypto Vm Transaction Token Governance Block Account.
From S2P Require Import Validators Finality Settlement BlockTree Trie StateRoot Chain.

(** [serde_json::from_slice]. *)
Class Json (A : Type) := json_from_slice : bytes → option A.

(** [[0u8; 20]] with the address copied in when it has 20 bytes. *)
Definition array20 (address : bytes) : bytes :=
  if bool_decide (length address = 20%nat) then address else replicate 20 x00.

(** ** Shape *)

Definition format_error {A} (message : string) : result ChainError A :=
  Err (InvalidTransactionFormat message).

(** The checks every non-coinbase, non-transfer kind starts with. *)
Definition require_sender (tx : Transaction) : result ChainError () :=
  if bool_decide (tx_chain_id tx = ""%string) then format_error "missing transaction chain id"
  else if negb (bool_decide (length (tx_from tx) = ADDRESS_LEN)) then Err InvalidSender
  else Ok ().

Definition require_data (tx : Transaction) (message : string) : result ChainError () :=
  if bool_decide (tx_data tx = []) then format_error message else Ok ().

Definition require_gas_limit (tx : Transaction) (message : string) : result ChainError () :=
  if tx_gas_limit tx =? 0 then format_error message else Ok ().

Definition validate_transaction_shape (tx : Transaction) : result ChainError () :=
  if negb (is_coinbase tx) && (max_fee_per_gas tx <? max_priority_fee_per_gas tx)
  then format_error "max_priority_fee_per_gas cannot exceed max_fee_per_gas"
  else
    match tx_kind tx with
    | Coinbase =>
        if bool_decide (tx_chain_id tx = ""%string) then Err InvalidCoinbase
        else if negb (bool_decide (tx_from tx = replicate ADDRESS_LEN x00)) then Err InvalidCoinbase
        else if negb (bool_decide (tx_sender_public_key tx = [])) then Err InvalidCoinbase
        else if negb (bool_decide (length (tx_to tx) = ADDRESS_LEN)) then Err InvalidCoinbase
        else if negb (tx_fee tx =? 0) || negb (max_fee_per_gas tx =? 0) ||
                negb (max_priority_fee_per_gas tx =? 0) || negb (tx_nonce tx =? 0) ||
                bool_decide (is_Some (tx_signature tx)) then Err InvalidCoinbase
        else Ok ()
    | Transfer =>
        if bool_decide (tx_chain_id tx = ""%string) then format_error "missing transaction chain id"
        else if negb (bool_decide (length (tx_from tx) = ADDRESS_LEN)) ||
                negb (bool_decide (length (tx_to tx) = ADDRESS_LEN)) then Err InvalidRecipient
        else if tx_amount tx =? 0 then format_error "transfer amount must be positive"
        else Ok ()
    | Stake | Unstake =>
        _ ← require_sender tx;
        if negb (bool_decide (tx_to tx = []))
        then format_error "stake/unstake transactions cannot have a recipient"
        else if tx_amount tx =? 0 then format_error "stake/unstake amount must be positive"
        else Ok ()
    | DeployContract =>
        _ ← require_sender tx;
        if bool_decide (tx_to tx = []) then format_error "deploy contract must include bytecode"
        else require_gas_limit tx "deploy contract must specify gas_limit"
    | CallContract =>
        _ ← require_sender tx;
        if negb (bool_decide (length (tx_to tx) = ADDRESS_LEN))
        then format_error "call contract must specify a valid contract address"
        else require_gas_limit tx "call contract must specify gas_limit"
    | DeployToken =>
        _ ← require_sender tx;
        require_data tx "deploy token must include token parameters in data"
    | TokenTransfer =>
        _ ← require_sender tx;
        require_data tx "token transfer must include transfer parameters in data"
    | TokenApprove =>
        _ ← require_sender tx;
        require_data tx "token approve must include approve parameters in data"
    | TokenTransferFrom =>
        _ ← require_sender tx;
        require_data tx "token transferFrom must include parameters in data"
    | SubmitProposal =>
        _ ← require_sender tx;
        require_data tx "submit proposal must include proposal parameters in data"
    | GovernanceVote =>
        _ ← require_sender tx;
        require_data tx "governance vote must include vote parameters in data"
    | DeployEvmContract =>
        _ ← require_sender tx;
        _ ← require_data tx "evm deploy must include init bytecode in data";
        _ ← require_gas_limit tx "evm deploy must specify gas_limit";
        if bool_decide (tx_evm_raw_tx tx = [])
        then format_error "evm deploy missing raw tx for signature recovery" else Ok ()
    | CallEvmContract =>
        _ ← require_sender tx;
        if negb (bool_decide (length (tx_to tx) = ADDRESS_LEN))
        then format_error "evm call must specify a valid contract address"
        else
          _ ← require_gas_limit tx "evm call must specify gas_limit";
          if bool_decide (tx_evm_raw_tx tx = [])
          then format_error "evm call missing raw tx for signature recovery" else Ok ()
    end.

(** ** Fees *)

Definition ensure_transaction_fee_covers_base (tx : Transaction) (gas_used base_fee : Z)
    : result ChainError () :=
  let required := saturating_mul gas_used base_fee in
  if (max_fee_per_gas tx <? base_fee) || (total_fee_cap tx <? required) then Err FeeTooLow
  else Ok ().

Definition priority_fee_for_transaction (tx : Transaction) (gas_used base_fee : Z) : Z :=
  saturating_mul (default 0 (priority_fee_per_gas tx base_fee)) gas_used.

(** ** The sender's account *)

(** What the transaction may cost at most. *)
Definition tx_needed (tx : Transaction) : Z := saturating_add (tx_amount tx) (total_fee_cap tx).

(** The first block of [apply_user_transaction] on the sender's account: key
    binding, balance and nonce checks, debit, stake and unstake. *)
Definition charge_sender (tx : Transaction) (current_height unstake_delay epoch_length
    minimum_stake : Z) : stM AccountState ChainError () :=
  sender ← st_get;
  _ ← (if is_evm tx then mret ()
       else match ac_public_key sender with
            | Some existing =>
                st_guard (bool_decide (existing = tx_sender_public_key tx)) InvalidSender
            | None => st_modify (set_account_public_key (Some (tx_sender_public_key tx)))
            end);
  let needed := tx_needed tx in
  _ ← st_guard (needed <=? balance sender) (InsufficientFunds (tx_from tx) (balance sender) needed);
  _ ← st_guard (tx_nonce tx =? nonce sender) (InvalidNonce (nonce sender) (tx_nonce tx));
  _ ← st_modify (λ a, set_nonce (add64 (nonce a) 1) (set_balance (balance a - needed) a));
  _ ← (if is_stake tx then
         st_modify (λ a,
           let was_below_minimum := staked_balance a <? minimum_stake in
           let a := set_staked (saturating_add (staked_balance a) (tx_amount tx)) a in
           if was_below_minimum && (minimum_stake <=? staked_balance a)
           then set_active_from (next_epoch_start_height_for current_height epoch_length) a else a)
       else mret ());
  if is_unstake tx then
    sender ← st_get;
    _ ← st_guard (tx_amount tx <=? staked_balance sender)
          (InsufficientFunds (tx_from tx) (staked_balance sender) (tx_amount tx));
    st_modify (λ a, set_pending
      (pending_unstakes a ++
         [mkPendingUnstake (tx_amount tx) (saturating_add current_height unstake_delay)])
      (set_staked (saturating_sub (staked_balance a) (tx_amount tx)) a))
  else mret ().

(** Field updates of the execution state. *)
Definition set_accounts (m : accounts_map) (s : BlockExecution) : BlockExecution :=
  mkExec m (contracts s) (receipts s) (token_registry s) (governance s).
Definition set_contracts (m : contracts_map) (s : BlockExecution) : BlockExecution :=
  mkExec (accounts s) m (receipts s) (token_registry s) (governance s).
Definition set_receipts (m : gmap bytes Receipt) (s : BlockExecution) : BlockExecution :=
  mkExec (accounts s) (contracts s) m (token_registry s) (governance s).
Definition set_token_registry (r : TokenRegistry) (s : BlockExecution) : BlockExecution :=
  mkExec (accounts s) (contracts s) (receipts s) r (governance s).
Definition set_governance (g : GovernanceState) (s : BlockExecution) : BlockExecution :=
  mkExec (accounts s) (contracts s) (receipts s) (token_registry s) g.

(** [let sender = accounts.entry(from).or_default()] and a computation on it. *)
Definition on_account {A} (address : bytes) (m : stM AccountState ChainError A)
    : stM BlockExecution ChainError A := λ s,
  let '(r, a) := m (get_account (accounts s) address) in
  (r, set_accounts (update_account address (λ _, a) (accounts s)) s).

Definition credit (address : bytes) (amount : Z) (m : accounts_map) : accounts_map :=
  update_account address (λ a, set_balance (saturating_add (balance a) amount) a) m.

Section apply.
Context `{Sha3} `{MlDsa} `{EvmEngine} `{WasmEngine} `{!Bincode SignableTransaction}
  `{!Bincode ProposalKind} `{!Json DeployTokenParams} `{!Json TokenTransferParams}
  `{!Json TokenApproveParams} `{!Json TokenTransferFromParams} `{!Json SubmitProposalParams}
  `{!Json GovernanceVoteParams}.

(** ** Tokens and governance *)

Definition parse_params {A} `{!Json A} (tx : Transaction) (message : string) : result ChainError A :=
  ok_or (InvalidTransactionFormat message) (json_from_slice (tx_data tx)).

Definition token_failed {A} : result TokenError A → result ChainError A :=
  map_err (λ _, InvalidTransactionFormat "token operation failed").
Definition governance_failed {A} : result GovernanceError A → result ChainError A :=
  map_err (λ _, InvalidTransactionFormat "governance operation failed").

(** The stakes of all accounts at or above the minimum. *)
Definition validator_stake_snapshot (minimum_stake : Z) (m : accounts_map) : gmap bytes Z :=
  staked_balance <$> filter (λ kv : bytes * AccountState, minimum_stake ≤ staked_balance kv.2) m.

(** [apply_token_or_governance_tx]: the registries are only replaced on
    success. *)
Definition apply_token_or_governance_tx (registry : TokenRegistry) (gov : GovernanceState)
    (accounts : accounts_map) (minimum_stake epoch_length : Z) (tx : Transaction)
    (current_height : Z) : result ChainError (TokenRegistry * GovernanceState) :=
  match tx_kind tx with
  | DeployToken =>
      params ← parse_params tx "invalid DeployToken JSON in data";
      '(_, registry) ← token_failed (deploy_token registry (tx_from tx)
        (saturating_sub (tx_nonce tx) 1) params current_height);
      Ok (registry, gov)
  | TokenTransfer =>
      params ← parse_params tx "invalid TokenTransfer JSON in data";
      registry ← token_failed (transfer registry (tp_token_address params) (tx_from tx)
        (tp_recipient params) (tp_amount params));
      Ok (registry, gov)
  | TokenApprove =>
      params ← parse_params tx "invalid TokenApprove JSON in data";
      registry ← token_failed (approve registry (ap_token_address params) (tx_from tx)
        (ap_spender params) (ap_amount params));
      Ok (registry, gov)
  | TokenTransferFrom =>
      params ← parse_params tx "invalid TokenTransferFrom JSON in data";
      registry ← token_failed (transfer_from registry (tf_token_address params) (tx_from tx)
        (tf_from params) (tf_recipient params) (tf_amount params));
      Ok (registry, gov)
  | SubmitProposal =>
      params ← parse_params tx "invalid SubmitProposal JSON in data";
      let is_validator := match accounts !! tx_from tx with
                          | Some a => minimum_stake <=? staked_balance a
                          | None => false
                          end in
      if negb is_validator then Err UnauthorizedValidator
      else
        '(_, gov) ← governance_failed (submit_proposal gov (tx_from tx) params current_height
          epoch_length (validator_stake_snapshot minimum_stake accounts));
        Ok (registry, gov)
  | GovernanceVote =>
      params ← parse_params tx "invalid GovernanceVote JSON in data";
      let voter_stake := get_staked_balance accounts (tx_from tx) in
      if voter_stake <? minimum_stake then Err UnauthorizedValidator
      else
        gov ← governance_failed (vote gov (tx_from tx) (gv_proposal_id params) (gv_vote params)
          voter_stake current_height);
        Ok (registry, gov)
  | _ => Ok (registry, gov)
  end.

(** ** EVM *)

(** [evm_state_view]: the accounts and contracts at 20-byte addresses. *)
Definition evm_state_view (accounts : accounts_map) (contracts : contracts_map) : EvmStateView :=
  mkEvmStateView
    ((λ a, (balance a, nonce a)) <$> filter (λ kv : bytes * AccountState, length kv.1 = 20%nat) accounts)
    (filter (λ kv : bytes * ContractState, length kv.1 = 20%nat) contracts).

(** [merge_evm_outcome], one part of the outcome at a time. *)
Definition merge_accounts (outcome : EvmOutcome) (accounts : accounts_map) : accounts_map :=
  map_fold (λ addr bn, update_account addr (λ a, set_nonce bn.2 (set_balance bn.1 a)))
    accounts (eo_account_updates outcome).

Definition merge_created (outcome : EvmOutcome) (contracts : contracts_map) : contracts_map :=
  map_fold (λ addr contract, insert addr
      (mkContractState (code_hash contract) (code contract)
         (default (storage contract) (eo_storage_updates outcome !! addr)) (owner contract)))
    contracts (eo_contracts_created outcome).

Definition merge_storage (outcome : EvmOutcome) (contracts : contracts_map) : contracts_map :=
  map_fold (λ addr slot_updates contracts,
      if bool_decide (is_Some (eo_contracts_created outcome !! addr)) then contracts
      else alter (λ c, mkContractState (code_hash c) (code c) (slot_updates ∪ storage c) (owner c))
             addr contracts)
    contracts (eo_storage_updates outcome).

Definition merge_evm_outcome (outcome : EvmOutcome) (s : BlockExecution) : BlockExecution :=
  set_contracts (merge_storage outcome (merge_created outcome (contracts s)))
    (set_accounts (merge_accounts outcome (accounts s)) s).

Definition leak_evm_err (err : EvmError) : string :=
  match err with
  | EvmEmptyBytecode => "evm deploy: empty bytecode"
  | EvmInvalidBytecode => "evm: invalid bytecode"
  | EvmContractNotFound => "evm: contract not found"
  | EvmOutOfGas => "evm: out of gas"
  | EvmReverted _ => "evm: reverted"
  | EvmHalted _ => "evm: halted"
  | EvmInternal _ => "evm: internal error"
  | EvmRlpDecode _ => "evm: rlp decode failed"
  | EvmSignatureRecovery => "evm: signature recovery failed"
  end.

Definition evm_call_of (tx : Transaction) (to : option bytes) (current_height base_fee : Z) : EvmCall :=
  mkEvmCall (array20 (tx_from tx)) to (tx_data tx) (tx_amount tx) (tx_gas_limit tx)
    (Z.max base_fee 1) current_height base_fee DEFAULT_BLOCK_GAS_LIMIT.

(** The run and the merge of its outcome, common to both kinds. *)
Definition run_evm (state : EvmStateView) (call : EvmCall) : stM BlockExecution ChainError EvmOutcome :=
  outcome ← st_lift (map_err (λ e, InvalidTransactionFormat (leak_evm_err e)) (evm_run state call));
  _ ← st_modify (merge_evm_outcome outcome);
  mret outcome.

(** [apply_evm_deploy]: the caller's nonce is shown to revm as it was before
    the transaction. *)
Definition apply_evm_deploy (tx : Transaction) (current_height base_fee : Z)
    : stM BlockExecution ChainError EvmOutcome :=
  s ← st_get;
  let state := evm_state_view (accounts s) (contracts s) in
  let caller := array20 (tx_from tx) in
  let state :=
    match ev_accounts state !! caller with
    | Some (bal, _) =>
        mkEvmStateView (<[caller := (bal, tx_nonce tx)]> (ev_accounts state)) (ev_contracts state)
    | None => state
    end in
  if bool_decide (tx_data tx = [])
  then st_throw (InvalidTransactionFormat (leak_evm_err EvmEmptyBytecode))
  else run_evm state (evm_call_of tx None current_height base_fee).

(** [apply_evm_call]. *)
Definition apply_evm_call (tx : Transaction) (current_height base_fee : Z)
    : stM BlockExecution ChainError EvmOutcome :=
  s ← st_get;
  run_evm (evm_state_view (accounts s) (contracts s))
    (evm_call_of tx (Some (array20 (tx_to tx))) current_height base_fee).

(** ** Execution by kind *)

Definition with_tx_hash (h : bytes) (r : Receipt) : Receipt :=
  mkReceipt h (rc_success r) (rc_gas_used r) (rc_effective_gas_price r) (rc_priority_fee_paid r)
    (rc_base_fee_burned r) (rc_gas_refunded r) (rc_logs r) (rc_return_data r) (rc_contract_address r).

Definition with_fees (price priority burned refunded : Z) (r : Receipt) : Receipt :=
  mkReceipt (rc_tx_hash r) (rc_success r) (rc_gas_used r) price priority burned refunded
    (rc_logs r) (rc_return_data r) (rc_contract_address r).

Definition execute_deploy (tx : Transaction) (current_height : Z)
    : stM BlockExecution ChainError (Z * option Receipt) :=
  '(contract, receipt) ← st_lift (map_err ChainVmError
    (vm_deploy (tx_to tx) (tx_from tx) (saturating_sub (tx_nonce tx) 1) (tx_gas_limit tx)
       current_height));
  _ ← (match rc_contract_address receipt with
       | Some addr => st_modify (λ s, set_contracts (<[addr := contract]> (contracts s)) s)
       | None => mret ()
       end);
  mret (rc_gas_used receipt, Some (with_tx_hash (tx_hash tx) receipt)).

Definition execute_call (tx : Transaction) : stM BlockExecution ChainError (Z * option Receipt) :=
  s ← st_get;
  contract ← st_lift (ok_or (ContractNotFound (tx_to tx)) (contracts s !! tx_to tx));
  '(storage', receipt) ← st_lift (map_err ChainVmError
    (wasm_call contract (tx_to tx) (tx_data tx) (tx_from tx) (tx_amount tx) (tx_gas_limit tx)));
  _ ← st_modify (λ s, set_contracts
        (<[tx_to tx := mkContractState (code_hash contract) (code contract) storage' (owner contract)]>
           (contracts s)) s);
  _ ← (if 0 <? tx_amount tx
       then st_modify (λ s, set_accounts (credit (tx_to tx) (tx_amount tx) (accounts s)) s)
       else mret ());
  mret (rc_gas_used receipt, Some (with_tx_hash (tx_hash tx) receipt)).

Definition execute_evm (tx : Transaction) (current_height base_fee : Z)
    : stM BlockExecution ChainError (Z * option Receipt) :=
  outcome ← (if bool_decide (tx_kind tx = DeployEvmContract)
             then apply_evm_deploy tx current_height base_fee
             else apply_evm_call tx current_height base_fee);
  mret (Z.max (eo_gas_used outcome) GAS_BASE_TX,
        Some (receipt_from_outcome outcome (tx_hash tx) (Z.max base_fee 1))).

Definition execute_registry (tx : Transaction) (current_height epoch_length minimum_stake : Z)
    : stM BlockExecution ChainError (Z * option Receipt) :=
  s ← st_get;
  '(registry, gov) ← st_lift (apply_token_or_governance_tx (token_registry s) (governance s)
     (accounts s) minimum_stake epoch_length tx current_height);
  _ ← st_modify (λ s, set_governance gov (set_token_registry registry s));
  mret (GAS_BASE_TX, None).

(** The [match tx.kind] of [apply_user_transaction]: gas used and receipt. *)
Definition execute_kind (tx : Transaction) (current_height epoch_length minimum_stake base_fee : Z)
    : stM BlockExecution ChainError (Z * option Receipt) :=
  match tx_kind tx with
  | Transfer =>
      _ ← st_modify (λ s, set_accounts (credit (tx_to tx) (tx_amount tx) (accounts s)) s);
      mret (GAS_BASE_TX, None)
  | Stake | Unstake => mret (GAS_BASE_TX, None)
  | Coinbase => st_throw (InvalidTransactionFormat "coinbase not allowed in user transaction flow")
  | DeployContract => execute_deploy tx current_height
  | CallContract => execute_call tx
  | DeployToken | TokenTransfer | TokenApprove | TokenTransferFrom | SubmitProposal
  | GovernanceVote => execute_registry tx current_height epoch_length minimum_stake
  | DeployEvmContract | CallEvmContract => execute_evm tx current_height base_fee
  end.

(** The fee settlement that ends [apply_user_transaction]. *)
Definition settle_fees (tx : Transaction) (gas_used : Z) (maybe_receipt : option Receipt)
    (base_fee : Z) : stM BlockExecution ChainError Z :=
  _ ← st_lift (ensure_transaction_fee_covers_base tx gas_used base_fee);
  price ← st_lift (ok_or FeeTooLow (effective_gas_price tx base_fee));
  let actual_fee_paid := saturating_mul gas_used price in
  let gas_refunded := saturating_sub (total_fee_cap tx) actual_fee_paid in
  let priority_fee_paid := priority_fee_for_transaction tx gas_used base_fee in
  let base_fee_burned := saturating_mul gas_used base_fee in
  _ ← st_modify (λ s, set_accounts (credit (tx_from tx) gas_refunded (accounts s)) s);
  _ ← (match maybe_receipt with
       | Some receipt => st_modify (λ s, set_receipts
           (<[tx_hash tx := with_fees price priority_fee_paid base_fee_burned gas_refunded receipt]>
              (receipts s)) s)
       | None => mret ()
       end);
  mret gas_used.

Definition check_authenticity (tx : Transaction) : result ChainError () :=
  _ ← validate_transaction_shape tx;
  if negb (verify_signature tx) then Err InvalidSignature
  else if negb (is_evm tx) &&
          negb (bool_decide (tx_from tx = address_bytes_from_public_key (tx_sender_public_key tx)))
  then Err InvalidSender else Ok ().

(** [apply_user_transaction]. *)
Definition apply_user_transaction (tx : Transaction) (current_height unstake_delay epoch_length
    minimum_stake base_fee : Z) : stM BlockExecution ChainError Z :=
  _ ← st_lift (check_authenticity tx);
  _ ← on_account (tx_from tx)
        (charge_sender tx current_height unstake_delay epoch_length minimum_stake);
  '(gas_used, maybe_receipt) ← execute_kind tx current_height epoch_length minimum_stake base_fee;
  settle_fees tx gas_used maybe_receipt base_fee.

(** [apply_coinbase_transaction]. *)
Definition apply_coinbase_transaction (accounts : accounts_map) (tx : Transaction)
    : result ChainError accounts_map :=
  _ ← validate_transaction_shape tx;
  if negb (is_coinbase tx) then Err InvalidCoinbase
  else Ok (credit (tx_to tx) (tx_amount tx) accounts).
End apply.

(** [apply_unstake_unlocks], on one account and on all of them. *)
Definition release_unstakes (block_height : Z) (a : AccountState) : AccountState :=
  let due := filter (λ p, unlock_height p ≤ block_height) (pending_unstakes a) in
  let kept := filter (λ p, ¬ unlock_height p ≤ block_height) (pending_unstakes a) in
  let released := foldl saturating_add 0 (pu_amount <$> due) in
  set_balance (saturating_add (balance a) released) (set_pending kept a).

Definition apply_unstake_unlocks (accounts : accounts_map) (block_height : Z) : accounts_map :=
  release_unstakes block_height <$> accounts.
