(* ===== verification/Ledger.v ===== *)
(** * The ledger: what applying transactions does to the money

    Lemmas on the steps of [Apply.apply_user_transaction], then the accounting of
    the native transaction kinds: who pays, what the fee is split into, what
    leaves the total supply, and why a transaction cannot be replayed. *)
From S2P Require Import Prelude Hash Crypto Vm Transaction Token Governance Block Account.
From S2P Require Import Validators Finality Settlement BlockTree Trie StateRoot Chain Apply.

(** The part of a transaction's amount that no account receives. *)
Definition destroyed_amount (tx : Transaction) : Z :=
  match tx_kind tx with
  | Transfer | Stake | CallContract | Coinbase | DeployEvmContract | CallEvmContract => 0
  | Unstake | DeployContract | DeployToken | TokenTransfer | TokenApprove | TokenTransferFrom
  | SubmitProposal | GovernanceVote => tx_amount tx
  end.

(** The part of the amount that another account receives. *)
Definition received_amount (tx : Transaction) : Z :=
  match tx_kind tx with Transfer | CallContract => tx_amount tx | _ => 0 end.

(** Whether the recipient's account is credited. *)
Definition receives (tx : Transaction) : bool :=
  match tx_kind tx with Transfer => true | CallContract => 0 <? tx_amount tx | _ => false end.

(** ** The sender's account *)

Definition staked_after (tx : Transaction) (a : AccountState) : Z :=
  match tx_kind tx with
  | Stake => saturating_add (staked_balance a) (tx_amount tx)
  | Unstake => staked_balance a - tx_amount tx
  | _ => staked_balance a
  end.

Definition pending_after (tx : Transaction) (unlock_at : Z) (a : AccountState) : list PendingUnstake :=
  match tx_kind tx with
  | Unstake => pending_unstakes a ++ [mkPendingUnstake (tx_amount tx) unlock_at]
  | _ => pending_unstakes a
  end.

Lemma charge_sender_Ok tx h d e ms a u a' :
  charge_sender tx h d e ms a = (Ok u, a') →
  tx_needed tx ≤ balance a ∧ tx_nonce tx = nonce a ∧
  (tx_kind tx = Unstake → tx_amount tx ≤ staked_balance a) ∧
  balance a' = balance a - tx_needed tx ∧ nonce a' = add64 (nonce a) 1 ∧
  (tx_wf tx → staked_balance a' = staked_after tx a) ∧
  pending_unstakes a' = pending_after tx (saturating_add h d) a.
Proof.
  intros Hc. unfold charge_sender in Hc.
  apply st_bind_Ok in Hc as (a1&a2&H1&Hc). unfold st_get in H1. injection H1 as <- <-.
  apply st_bind_Ok in Hc as ([]&a0&H1&Hc).
  assert (balance a0 = balance a ∧ nonce a0 = nonce a ∧ staked_balance a0 = staked_balance a ∧
    pending_unstakes a0 = pending_unstakes a) as (Eb&En&Es&Ep).
  { destruct (is_evm tx); repeat st_step; [done|].
    destruct (ac_public_key a); repeat st_step; done. }
  clear H1. repeat st_step. bool_to_prop.
  unfold is_stake, is_unstake, staked_after, pending_after in *.
  destruct (tx_kind tx); simpl in *; repeat st_step; simpl;
    try (rewrite ?Eb, ?En, ?Es, ?Ep; by auto 10).
  - case_match; simpl in *; rewrite ?Eb, ?En, ?Es, ?Ep in *; split_and!; try done; intros _; u64_lia.
  - bool_to_prop. simpl in *. rewrite ?Eb, ?En, ?Es, ?Ep in *. split_and!; try done.
    intros _. u64_lia.
Qed.

Lemma credit_wf k x m : accounts_wf m → 0 ≤ x → accounts_wf (credit k x m).
Proof.
  intros Hm Hx. apply update_account_wf; [done|].
  pose proof (get_account_wf m k Hm) as (?&?&?&?). repeat split; simpl; try done; u64_lia.
Qed.

Lemma credit_supply k x m :
  accounts_wf m → 0 ≤ x → total_supply m + x ≤ u64_max →
  total_supply (credit k x m) = total_supply m + x.
Proof.
  intros Hm Hx Hs. unfold credit. rewrite total_supply_update.
  pose proof (account_funds_le_supply m k Hm).
  pose proof (get_account_wf m k Hm) as Ha. pose proof (pending_total_nonneg _ Ha).
  destruct Ha as (?&?&?&?). unfold account_funds, pending_total in *. simpl. u64_lia.
Qed.

Lemma credit_nonce k x m j : nonce (get_account (credit k x m) j) = nonce (get_account m j).
Proof. unfold credit. rewrite get_update_account. by case_decide; subst. Qed.

Lemma credit_staked k x m j :
  staked_balance (get_account (credit k x m) j) = staked_balance (get_account m j).
Proof. unfold credit. rewrite get_update_account. by case_decide; subst. Qed.

(** Below the total supply nothing saturates: what a sender is debited is the
    amount plus the fee cap, exactly. *)
Lemma tx_needed_exact m tx :
  accounts_wf m → tx_wf tx → total_supply m < u64_max →
  tx_needed tx ≤ balance (get_account m (tx_from tx)) →
  tx_needed tx = tx_amount tx + total_fee_cap tx ∧
  total_fee_cap tx = effective_gas_limit tx * max_fee_per_gas tx.
Proof.
  intros Hm Htx Hs Hb. pose proof (account_funds_le_supply m (tx_from tx) Hm) as Hle.
  pose proof (get_account_wf m (tx_from tx) Hm) as Ha. pose proof (pending_total_nonneg _ Ha).
  destruct Ha as (_&_&?&_). destruct (total_fee_cap_u64 tx Htx) as [Hc _].
  destruct Htx as ([Ht _]&_). unfold tx_needed, account_funds, is_u64 in *.
  assert (saturating_add (tx_amount tx) (total_fee_cap tx) < u64_max) as Hlt by lia.
  unfold saturating_add in Hlt. assert (tx_amount tx + total_fee_cap tx < u64_max) by lia.
  split; [unfold saturating_add; lia|].
  assert (total_fee_cap tx < u64_max) as Hlt' by lia. unfold total_fee_cap, saturating_mul in *. lia.
Qed.

(** The two sides of a transfer fit in the supply together. *)
Lemma two_accounts_le_supply m j k :
  accounts_wf m → j ≠ k →
  account_funds (get_account m j) + account_funds (get_account m k) ≤ total_supply m.
Proof.
  intros Hm Hjk.
  pose proof (total_supply_update m j (λ _, account_default)) as Hu.
  cbv beta in Hu. rewrite account_default_funds in Hu.
  assert (accounts_wf (update_account j (λ _, account_default) m)) as Hm'
    by (apply update_account_wf; auto with curs3d).
  pose proof (account_funds_le_supply _ k Hm') as Hle.
  rewrite get_update_account, decide_False in Hle by done. lia.
Qed.

Lemma charge_supply tx h d e ms s u s' :
  on_account (tx_from tx) (charge_sender tx h d e ms) s = (Ok u, s') →
  accounts_wf (accounts s) → tx_wf tx → is_u64 h → is_u64 d →
  total_supply (accounts s) < u64_max →
  accounts_wf (accounts s') ∧
  total_supply (accounts s') =
    total_supply (accounts s) - total_fee_cap tx - received_amount tx - destroyed_amount tx -
    (if is_evm tx then tx_amount tx else 0) - (if is_coinbase tx then tx_amount tx else 0).
Proof.
  intros Ho Hwf Htx Hh Hd Hs. unfold on_account in Ho.
  destruct (charge_sender _ _ _ _ _ _) as [r a] eqn:Hc. injection Ho as -> <-. simpl.
  apply charge_sender_Ok in Hc as (Hn&_&Hu&Hb&Hno&Hst&Hp). specialize (Hst Htx).
  destruct (tx_needed_exact _ _ Hwf Htx Hs Hn) as [En _].
  pose proof (get_account_wf _ (tx_from tx) Hwf) as Ha.
  pose proof (account_funds_le_supply _ (tx_from tx) Hwf) as Hle.
  pose proof (pending_total_nonneg _ Ha) as Hpn. pose proof (total_fee_cap_u64 tx Htx).
  rewrite total_supply_update. unfold account_funds, pending_total in *.
  set (a0 := get_account _ _) in *. destruct Ha as (Ha1&Ha2&Ha3&Ha4).
  assert (is_u64 (tx_amount tx)) as Ham by apply Htx.
  unfold staked_after, pending_after, is_coinbase, is_evm, received_amount, destroyed_amount in *.
  split.
  - apply update_account_wf; [done|]. fold a0. unfold account_wf. rewrite Hb, Hno, Hst, Hp.
    split; [u64_lia|]. split; [apply add64_range|]. clear Hno Hst Hp Hb En.
    destruct (tx_kind tx); try specialize (Hu eq_refl); (split; [u64_lia|]); try done.
    apply Forall_app. split; [done|]. apply Forall_singleton. simpl. split; u64_lia.
  - rewrite Hb, Hst, Hp. destruct (tx_kind tx); simpl; try u64_lia.
    rewrite fmap_app, sumZ_app. simpl. lia.

Qed.

(** ** The fee settlement *)

Section lemmas.
Context `{Sha3} `{MlDsa} `{EvmEngine} `{WasmEngine} `{!Bincode SignableTransaction}
  `{!Bincode ProposalKind} `{!Json DeployTokenParams} `{!Json TokenTransferParams}
  `{!Json TokenApproveParams} `{!Json TokenTransferFromParams} `{!Json SubmitProposalParams}
  `{!Json GovernanceVoteParams}.

Lemma settle_fees_Ok tx gas r base s g s' :
  settle_fees tx gas r base s = (Ok g, s') →
  g = gas ∧ ∃ price, effective_gas_price tx base = Some price ∧
    accounts s' = credit (tx_from tx)
      (saturating_sub (total_fee_cap tx) (saturating_mul gas price)) (accounts s) ∧
    contracts s' = contracts s ∧ token_registry s' = token_registry s ∧
    governance s' = governance s.
Proof.
  intros Hs. unfold settle_fees in Hs. do 9 st_step.
  destruct r; repeat st_step; eauto 10.
Qed.

(** ** Execution by kind *)

Lemma execute_kind_Ok tx h e ms base s gas r s' :
  execute_kind tx h e ms base s = (Ok (gas, r), s') → is_evm tx = false → tx_wf tx →
  is_coinbase tx = false ∧
  accounts s' = (if receives tx then credit (tx_to tx) (tx_amount tx) (accounts s)
                 else accounts s) ∧
  0 ≤ gas ≤ effective_gas_limit tx.
Proof.
  intros Hx He Htx. unfold execute_kind, is_evm, is_coinbase, receives in *.
  pose proof (intrinsic_gas_range tx) as Hi.
  unfold effective_gas_limit, estimated_gas_for_admission. unfold GAS_BASE_TX in *.
  destruct (tx_kind tx); try done; unfold execute_deploy, execute_call, execute_registry in *;
    repeat st_step; simpl; try (split_and!; [done..|unfold GAS_BASE_TX; lia|unfold GAS_BASE_TX; lia]).
  - match goal with E : vm_deploy _ _ _ _ _ = _ |- _ => apply vm_deploy_gas in E as [? _] end.
    unfold GAS_BASE_TX, GAS_DEPLOY in *.
    destruct (rc_contract_address _); repeat st_step; split_and!; simpl; done || lia.
  - match goal with E : wasm_call _ _ _ _ _ _ = _ |- _ => apply wasm_call_gas_used in E end.
    destruct (0 <? tx_amount tx); repeat st_step; split_and!; simpl; done || lia.
Qed.

(** The four stages of a successful application. *)
Lemma apply_user_Ok tx h d e ms base s g s' :
  apply_user_transaction tx h d e ms base s = (Ok g, s') →
  ∃ s1 s2 r price,
    check_authenticity tx = Ok () ∧
    on_account (tx_from tx) (charge_sender tx h d e ms) s = (Ok (), s1) ∧
    execute_kind tx h e ms base s1 = (Ok (g, r), s2) ∧
    effective_gas_price tx base = Some price ∧
    accounts s' = credit (tx_from tx)
      (saturating_sub (total_fee_cap tx) (saturating_mul g price)) (accounts s2) ∧
    contracts s' = contracts s2 ∧ token_registry s' = token_registry s2 ∧
    governance s' = governance s2.
Proof.
  intros Hx. unfold apply_user_transaction in Hx.
  repeat st_step. match goal with E : settle_fees _ _ _ _ _ = _ |- _ =>
    apply settle_fees_Ok in E as (->&price&?&?&?&?&?) end. eauto 15.
Qed.

(** The fee of a successful transaction splits into the burnt base fee and the
    priority fee, neither of which saturates. *)
Lemma fee_split tx gas base price :
  tx_wf tx → is_u64 base → effective_gas_price tx base = Some price →
  0 ≤ gas ≤ effective_gas_limit tx →
  total_fee_cap tx = effective_gas_limit tx * max_fee_per_gas tx → total_fee_cap tx < u64_max →
  saturating_mul gas price = gas * base + priority_fee_for_transaction tx gas base ∧
  0 ≤ priority_fee_for_transaction tx gas base ∧
  gas * base + priority_fee_for_transaction tx gas base ≤ total_fee_cap tx.
Proof.
  intros Htx Hb Hp Hg Hcap Hlt.
  destruct (effective_gas_price_bounds tx base price Htx Hb Hp) as [[Hbp Hpm] _].
  unfold priority_fee_for_transaction, priority_fee_per_gas. rewrite Hp. simpl.
  unfold saturating_sub. rewrite Z.max_l by lia.
  assert (gas * price ≤ effective_gas_limit tx * max_fee_per_gas tx).
  { apply Z.mul_le_mono_nonneg; unfold is_u64 in Hb; lia. }
  assert (0 ≤ gas * base) by (unfold is_u64 in Hb; nia).
  assert (0 ≤ (price - base) * gas) by nia.
  unfold saturating_mul. rewrite !Z.min_l by nia. nia.
Qed.

(** Supply accounting of one native transaction. *)
Lemma user_transaction_supply tx h d e ms base s g s' :
  apply_user_transaction tx h d e ms base s = (Ok g, s') → is_evm tx = false →
  tx_wf tx → is_u64 h → is_u64 d → is_u64 base →
  accounts_wf (accounts s) → total_supply (accounts s) < u64_max →
  accounts_wf (accounts s') ∧
  total_supply (accounts s') + destroyed_amount tx + g * base +
    priority_fee_for_transaction tx g base = total_supply (accounts s) ∧
  0 ≤ g ≤ effective_gas_limit tx ∧ 0 ≤ priority_fee_for_transaction tx g base.
Proof.
  intros Hx He Htx Hh Hd Hb Hwf Hs.
  apply apply_user_Ok in Hx as (s1&s2&r&price&_&Hch&Hex&Hp&Ha&_).
  pose proof Hch as Hn. unfold on_account in Hn.
  destruct (charge_sender _ _ _ _ _ _) as [r' a] eqn:Hc in Hn. injection Hn as -> _.
  apply charge_sender_Ok in Hc as [Hn _].
  destruct (tx_needed_exact _ _ Hwf Htx Hs Hn) as [En Ecap].
  apply charge_supply in Hch as [Hwf1 Hs1]; try done.
  apply execute_kind_Ok in Hex as (Hcb&Ha2&Hg); try done. rewrite He, Hcb in Hs1.
  pose proof (account_funds_le_supply _ (tx_from tx) Hwf) as Hle.
  pose proof (get_account_wf _ (tx_from tx) Hwf) as Hwa. pose proof (pending_total_nonneg _ Hwa).
  destruct Hwa as (_&_&[Hst _]&_). unfold account_funds in Hle.
  pose proof (total_fee_cap_u64 tx Htx) as [Hc0 _].
  assert (is_u64 (tx_amount tx)) as [Ham _] by apply Htx.
  assert (0 ≤ received_amount tx ∧ 0 ≤ destroyed_amount tx) as [Hr0 Hd0].
  { unfold received_amount, destroyed_amount. by destruct (tx_kind tx). }
  assert (accounts_wf (accounts s2) ∧
    total_supply (accounts s2) = total_supply (accounts s1) + received_amount tx) as [Hwf2 Hs2].
  { rewrite Ha2. unfold receives, received_amount in *.
    destruct (tx_kind tx); try (by rewrite Z.add_0_r);
      [|case_match; bool_to_prop; [|by replace (tx_amount tx) with 0 by lia; rewrite Z.add_0_r]];
      (split; [by apply credit_wf|apply credit_supply; [done..|lia]]). }
  destruct (fee_split tx g base price) as (Ef&Hpf&Hle2); try done; [lia|].
  assert (0 ≤ g * base) by (unfold is_u64 in Hb; nia).
  unfold saturating_sub in Ha. rewrite Ef, Z.max_l in Ha by lia. rewrite Ha.
  split; [apply credit_wf; [done|lia]|]. rewrite credit_supply; [|done|lia|lia].
  split; [lia|]. split; [done|lia].
Qed.

(** A native transaction advances the nonce of its sender by one and no other
    nonce. *)
Lemma user_transaction_nonces tx h d e ms base s g s' k :
  apply_user_transaction tx h d e ms base s = (Ok g, s') → is_evm tx = false → tx_wf tx →
  tx_nonce tx = nonce (get_account (accounts s) (tx_from tx)) ∧
  nonce (get_account (accounts s') k) =
    if bool_decide (tx_from tx = k) then add64 (tx_nonce tx) 1
    else nonce (get_account (accounts s) k).
Proof.
  intros Hx He Htx. apply apply_user_Ok in Hx as (s1&s2&r&price&_&Hch&Hex&Hp&Ha&_).
  unfold on_account in Hch. destruct (charge_sender _ _ _ _ _ _) as [r' a] eqn:Hc.
  injection Hch as -> <-. apply charge_sender_Ok in Hc as (_&En&_&_&Ea&_). split; [done|].
  apply execute_kind_Ok in Hex as (_&Ha2&_); [|done..].
  rewrite Ha, credit_nonce, Ha2. simpl.
  replace (nonce (get_account (if receives tx then _ else _) k))
    with (nonce (get_account (update_account (tx_from tx) (λ _, a) (accounts s)) k))
    by (destruct (receives tx); by rewrite ?credit_nonce).
  rewrite get_update_account. case_decide; case_bool_decide; subst; try done. by rewrite Ea, En.
Qed.
End lemmas.

(** ** Release of matured unstakes *)

Lemma foldl_saturating_add_exact l a :
  Forall (λ x, 0 ≤ x) l → 0 ≤ a → a + sumZ l ≤ u64_max → foldl saturating_add a l = a + sumZ l.
Proof.
  intros Hl. revert a. induction Hl as [|x l Hx Hl IH]; intros a Ha Hs; simpl in *; [lia|].
  pose proof (sumZ_nonneg l Hl). unfold saturating_add at 2. rewrite Z.min_l by lia.
  rewrite IH by lia. lia.
Qed.

Lemma sumZ_filter_split (P : PendingUnstake → Prop) `{∀ x, Decision (P x)} l :
  sumZ (pu_amount <$> filter P l) + sumZ (pu_amount <$> filter (λ x, ¬ P x) l) =
  sumZ (pu_amount <$> l).
Proof.
  induction l as [|x l IH]; [done|]. rewrite !filter_cons, fmap_cons. simpl sumZ.
  destruct (decide (P x)), (decide (¬ P x)); try done; rewrite fmap_cons; simpl sumZ; lia.
Qed.

(** On one account: the matured amounts move to the balance. *)
Lemma release_unstakes_exact h a :
  account_wf a → account_funds a ≤ u64_max →
  balance (release_unstakes h a) =
    balance a + sumZ (pu_amount <$> filter (λ p, unlock_height p ≤ h) (pending_unstakes a)) ∧
  account_funds (release_unstakes h a) = account_funds a ∧ account_wf (release_unstakes h a).
Proof.
  intros Hwf Hf. pose proof Hwf as (Hb&Hn&Hs&Hp).
  assert (∀ P `{∀ x, Decision (P x)},
    Forall (λ x, 0 ≤ x) (pu_amount <$> filter P (pending_unstakes a))) as Hnn.
  { intros P ?. rewrite Forall_fmap. apply Forall_list_filter.
    eapply Forall_impl; [exact Hp|]. intros p [Hpa _]. unfold is_u64 in Hpa. simpl. lia. }
  pose proof (sumZ_nonneg _ (Hnn (λ p, unlock_height p ≤ h) _)) as H1.
  pose proof (sumZ_nonneg _ (Hnn (λ p, ¬ unlock_height p ≤ h) _)) as H2.
  pose proof (sumZ_filter_split (λ p, unlock_height p ≤ h) (pending_unstakes a)) as Hsp.
  unfold account_funds, pending_total, release_unstakes, account_wf in *. simpl.
  unfold is_u64 in *. rewrite foldl_saturating_add_exact by (done || lia).
  unfold saturating_add. rewrite Z.min_l by lia. split_and!; try lia.
  by apply Forall_list_filter.
Qed.

Lemma unstake_unlocks_supply m h :
  accounts_wf m → total_supply m ≤ u64_max →
  accounts_wf (apply_unstake_unlocks m h) ∧
  total_supply (apply_unstake_unlocks m h) = total_supply m.
Proof.
  intros Hm Hs.
  assert (∀ k a, m !! k = Some a → account_wf a ∧ account_funds a ≤ u64_max) as Hk.
  { intros k a Ha. split; [by eapply Hm|].
    pose proof (account_funds_le_supply m k Hm) as Hle. unfold get_account in Hle.
    rewrite Ha in Hle. simpl in Hle. lia. }
  unfold apply_unstake_unlocks. split.
  - intros k a. rewrite lookup_fmap. intros (b&Hb&->)%fmap_Some.
    destruct (Hk k b Hb). by apply release_unstakes_exact.
  - unfold total_supply. rewrite map_sum_fmap. apply map_sum_ext. intros k a Ha.
    destruct (Hk k a Ha). by apply release_unstakes_exact.
Qed.

(** ** Running the model on examples *)

Definition no_json (A : Type) : Json A := λ _, None.
Definition demo_bincode_proposal : Bincode ProposalKind := λ _, [].

Abbreviation demo_apply := (@apply_user_transaction demo_sha3 demo_mldsa demo_evm demo_wasm
  demo_bincode_tx demo_bincode_proposal (no_json _) (no_json _) (no_json _) (no_json _)
  (no_json _) (no_json _)).

Definition demo_public_key (n : Z) : bytes := public_key (demo_keypair n).
Definition demo_address (n : Z) : bytes := @address_bytes_from_public_key demo_sha3 (demo_public_key n).
Definition demo_sign (n : Z) (tx : Transaction) : Transaction :=
  set_signature tx (Some (mkSignature (demo_signature (demo_seed n) (@signable_bytes demo_bincode_tx tx)))).

Definition demo_account (bal staked : Z) : AccountState := mkAccount bal 0 staked [] 0 0 None.
Definition demo_state (m : accounts_map) : BlockExecution := mkExec m ∅ ∅ registry_new governance_new.

Lemma demo_state_wf n bal staked :
  is_u64 bal → is_u64 staked → accounts_wf {[ demo_address n := demo_account bal staked ]}.
Proof.
  intros Hb Hs k a Hk.
  apply (lookup_singleton_Some (M:=gmap bytes)) in Hk as [_ <-].
  repeat split; try done; apply Hb || apply Hs.
Qed.

Lemma demo_state_supply n bal staked :
  total_supply {[ demo_address n := demo_account bal staked ]} = bal + staked.
Proof.
  unfold total_supply. rewrite <- insert_empty, map_sum_insert_None by apply lookup_empty.
  rewrite map_sum_empty. unfold account_funds. simpl. unfold pending_total. simpl. lia.
Qed.

(** ** Properties *)

Section properties.
Context `{Sha3} `{MlDsa} `{EvmEngine} `{WasmEngine} `{!Bincode SignableTransaction}
  `{!Bincode ProposalKind} `{!Json DeployTokenParams} `{!Json TokenTransferParams}
  `{!Json TokenApproveParams} `{!Json TokenTransferFromParams} `{!Json SubmitProposalParams}
  `{!Json GovernanceVoteParams}.

(** A successful transfer to another account moves exactly the amount: the
    sender pays it with the base fee and the priority fee of 21000 gas and its
    nonce advances by one, the recipient receives it, stakes and unbonding
    funds stay, and no other account, contract, token or proposal changes. *)
Theorem transfer_effect (tx : Transaction) (h d e ms base : Z) (s s' : BlockExecution) (g : Z) :
  apply_user_transaction tx h d e ms base s = (Ok g, s') → tx_kind tx = Transfer →
  tx_from tx ≠ tx_to tx → tx_wf tx → is_u64 base →
  accounts_wf (accounts s) → total_supply (accounts s) < u64_max →
  let a := get_account (accounts s) (tx_from tx) in
  let a' := get_account (accounts s') (tx_from tx) in
  let b := get_account (accounts s) (tx_to tx) in
  g = GAS_BASE_TX ∧ tx_nonce tx = nonce a ∧
  balance a' = balance a - tx_amount tx - (g * base + priority_fee_for_transaction tx g base) ∧
  0 ≤ balance a' ∧ nonce a' = add64 (nonce a) 1 ∧ staked_balance a' = staked_balance a ∧
  pending_unstakes a' = pending_unstakes a ∧
  accounts s' !! tx_to tx = Some (set_balance (balance b + tx_amount tx) b) ∧
  (∀ k, k ≠ tx_from tx → k ≠ tx_to tx → accounts s' !! k = accounts s !! k) ∧
  contracts s' = contracts s ∧ token_registry s' = token_registry s ∧
  governance s' = governance s.
Proof.
  intros Hx Hk Hne Htx Hb Hwf Hs a a' b.
  apply apply_user_Ok in Hx as (s1&s2&r&price&_&Hch&Hex&Hp&Ha&Hc1&Hc2&Hc3).
  unfold on_account in Hch. destruct (charge_sender _ _ _ _ _ _) as [r' a1] eqn:Hc.
  injection Hch as -> <-. apply charge_sender_Ok in Hc as (Hn&En&_&Eb&Eno&Est&Epe).
  destruct (tx_needed_exact _ _ Hwf Htx Hs Hn) as [Ene Ecap].
  unfold execute_kind in Hex. rewrite Hk in Hex. repeat st_step.
  unfold staked_after, pending_after in *. rewrite Hk in *. specialize (Est Htx).
  fold a in Hn, En, Eb, Eno, Est, Epe.
  pose proof (get_account_wf _ (tx_from tx) Hwf) as ([Ha0 Ha1]&_&[Hst _]&_). fold a in Ha0, Ha1, Hst.
  pose proof (account_funds_le_supply _ (tx_from tx) Hwf) as Hle. fold a in Hle.
  assert (0 ≤ pending_total a) as Hpt by (by apply pending_total_nonneg, get_account_wf).
  unfold account_funds in Hle.
  assert (is_u64 (tx_amount tx)) as [Ham _] by apply Htx.
  destruct (fee_split tx GAS_BASE_TX base price) as (Ef&Hpf&Hle2); try done;
    [pose proof (estimated_gas_range tx Htx) as Hest; unfold effective_gas_limit, GAS_BASE_TX in *; lia|lia|].
  assert (0 ≤ GAS_BASE_TX * base) by (unfold is_u64, GAS_BASE_TX in *; lia).
  unfold saturating_sub in Ha. rewrite Ef, Z.max_l in Ha by lia. simpl in Ha.
  assert (balance b + tx_amount tx ≤ u64_max) as Hbb.
  { pose proof (two_accounts_le_supply _ _ _ Hwf Hne) as Hab. fold a b in Hab.
    pose proof (get_account_wf _ (tx_to tx) Hwf) as Hwb. fold b in Hwb.
    pose proof (pending_total_nonneg _ Hwb). destruct Hwb as (_&_&[Hsb _]&_).
    pose proof (total_fee_cap_u64 tx Htx) as [Hc0 _]. unfold account_funds in Hab. lia. }
  assert (get_account (accounts s') (tx_from tx) = set_balance
    (balance a1 + (total_fee_cap tx - (GAS_BASE_TX * base + priority_fee_for_transaction tx GAS_BASE_TX base)))
    a1) as Ea'.
  { rewrite Ha. unfold credit. rewrite !get_update_account, !decide_True, !decide_False, !decide_True by done.
    f_equal. unfold saturating_add. lia. }
  unfold a'. rewrite Ea'. simpl. split_and!; try done; [lia..| |].
  - rewrite Ha. unfold credit. rewrite !lookup_update_account, decide_False, decide_True by done.
    rewrite get_update_account, decide_False by done. fold b. do 2 f_equal.
    unfold saturating_add. lia.
  - intros k Hf Hto. rewrite Ha. unfold credit. rewrite !lookup_update_account.
    by rewrite !decide_False by done.
Qed.

(** Unstaking destroys money. Every successful unstake of [X] removes [X]
    from the total supply beside the fee, because the amount is debited from the
    liquid balance as well as moved from the stake to the unbonding queue, and
    no later release of matured unstakes, at any height, brings it back. *)
Theorem unstake_destroys_liquid_funds (tx : Transaction) (h d e ms base : Z)
    (s s' : BlockExecution) (g later : Z) :
  apply_user_transaction tx h d e ms base s = (Ok g, s') → tx_kind tx = Unstake →
  tx_wf tx → is_u64 h → is_u64 d → is_u64 base →
  accounts_wf (accounts s) → total_supply (accounts s) < u64_max →
  total_supply (apply_unstake_unlocks (accounts s') later) =
    total_supply (accounts s) - tx_amount tx -
    (g * base + priority_fee_for_transaction tx g base).
Proof.
  intros Hx Hk Htx Hh Hd Hb Hwf Hs.
  apply user_transaction_supply in Hx as (Hwf'&Hs'&Hg&Hpf);
    [|unfold is_evm; by rewrite Hk|done..].
  unfold destroyed_amount in Hs'. rewrite Hk in Hs'.
  assert (is_u64 (tx_amount tx)) as [Ham _] by apply Htx.
  assert (0 ≤ g * base) by (unfold is_u64 in Hb; nia).
  rewrite (proj2 (unstake_unlocks_supply _ later Hwf' ltac:(lia))). lia.
Qed.
End properties.

Definition demo_unstake : Transaction :=
  demo_sign 7 (@transaction_unstake demo_sha3 "c" (demo_public_key 7) 4000000 2 0 0).
Definition demo_ledger : BlockExecution :=
  demo_state {[ demo_address 7 := demo_account 9000000 5000000 ]}.

Lemma demo_unstake_ok :
  is_ok (demo_apply demo_unstake 1 10 32 1000000 1 demo_ledger).1 = true.
Proof. vm_compute. exact eq_refl. Qed.

Lemma demo_unstake_run :
  demo_apply demo_unstake 1 10 32 1000000 1 demo_ledger =
    (Ok (unwrap_or 0 (demo_apply demo_unstake 1 10 32 1000000 1 demo_ledger).1),
     (demo_apply demo_unstake 1 10 32 1000000 1 demo_ledger).2).
Proof.
  rewrite <- (is_ok_unwrap _ 0 demo_unstake_ok). apply surjective_pairing.
Qed.

Lemma demo_unstake_wf : tx_wf demo_unstake.
Proof. unfold tx_wf. simpl. u64_lia. Qed.

Lemma unstake_destroys_liquid_funds_witness :
  let s' := (demo_apply demo_unstake 1 10 32 1000000 1 demo_ledger).2 in
  let g := unwrap_or 0 (demo_apply demo_unstake 1 10 32 1000000 1 demo_ledger).1 in
  total_supply (apply_unstake_unlocks (accounts s') 1000) =
    total_supply (accounts demo_ledger) - 4000000 -
    (g * 1 + priority_fee_for_transaction demo_unstake g 1).
Proof.
  intros s' g.
  exact (unstake_destroys_liquid_funds demo_unstake 1 10 32 1000000 1 demo_ledger s' g 1000
    demo_unstake_run eq_refl demo_unstake_wf ltac:(u64_lia) ltac:(u64_lia) ltac:(u64_lia)
    (demo_state_wf 7 9000000 5000000 ltac:(u64_lia) ltac:(u64_lia))
    ltac:(exact (eq_ind_r (λ z, z < u64_max) (eq_refl : 9000000 + 5000000 < u64_max)
                   (demo_state_supply 7 9000000 5000000)))).
Defined.

Definition demo_transfer : Transaction :=
  demo_sign 7 (@transaction_new demo_sha3 "c" (demo_public_key 7) (replicate 20 x01) 500000 2 0 0).

Lemma demo_transfer_ok :
  is_ok (demo_apply demo_transfer 1 10 32 1000000 1 demo_ledger).1 = true.
Proof. vm_compute. exact eq_refl. Qed.

Lemma demo_transfer_run :
  demo_apply demo_transfer 1 10 32 1000000 1 demo_ledger =
    (Ok (unwrap_or 0 (demo_apply demo_transfer 1 10 32 1000000 1 demo_ledger).1),
     (demo_apply demo_transfer 1 10 32 1000000 1 demo_ledger).2).
Proof.
  rewrite <- (is_ok_unwrap _ 0 demo_transfer_ok). apply surjective_pairing.
Qed.

Lemma demo_transfer_wf : tx_wf demo_transfer.
Proof. unfold tx_wf. simpl. u64_lia. Qed.

Lemma demo_transfer_other : tx_from demo_transfer ≠ tx_to demo_transfer.
Proof. vm_decide. Qed.

Lemma transfer_effect_witness :
  let s' := (demo_apply demo_transfer 1 10 32 1000000 1 demo_ledger).2 in
  get_account (accounts s') (replicate 20 x01) =
    set_balance (balance (get_account (accounts demo_ledger) (replicate 20 x01)) + 500000)
      (get_account (accounts demo_ledger) (replicate 20 x01)).
Proof.
  intros s'.
  pose proof (transfer_effect demo_transfer 1 10 32 1000000 1 demo_ledger s' _
    demo_transfer_run eq_refl demo_transfer_other demo_transfer_wf ltac:(u64_lia)
    (demo_state_wf 7 9000000 5000000 ltac:(u64_lia) ltac:(u64_lia))
    ltac:(exact (eq_ind_r (λ z, z < u64_max) (eq_refl : 9000000 + 5000000 < u64_max)
                   (demo_state_supply 7 9000000 5000000)))) as Ht.
  destruct Ht as (_&_&_&_&_&_&_&Hto&_). exact (f_equal (default account_default) Hto).
Defined.

(** Maturing releases exactly the due unstakes: on every account the amounts
    whose unlock height is reached move from the unbonding queue to the balance,
    the others stay in order, nothing else changes, the total supply is
    conserved, and a second release at the same height does nothing. *)
Theorem unstake_unlocks_spec (m : accounts_map) (h : Z) :
  accounts_wf m → total_supply m ≤ u64_max →
  let m' := apply_unstake_unlocks m h in
  (∀ k, m' !! k =
     (λ a, set_balance
        (balance a + sumZ (pu_amount <$> filter (λ p, unlock_height p ≤ h) (pending_unstakes a)))
        (set_pending (filter (λ p, ¬ unlock_height p ≤ h) (pending_unstakes a)) a)) <$> m !! k) ∧
  total_supply m' = total_supply m ∧ apply_unstake_unlocks m' h = m'.
Proof.
  intros Hm Hs m'. destruct (unstake_unlocks_supply m h Hm Hs) as [Hwf' Hs'].
  assert (∀ k a, m !! k = Some a → account_funds a ≤ u64_max) as Hk.
  { intros k a Ha. pose proof (account_funds_le_supply m k Hm) as Hle.
    unfold get_account in Hle. rewrite Ha in Hle. simpl in Hle. lia. }
  split; [|split; [done|]].
  - intros k. unfold m', apply_unstake_unlocks. rewrite lookup_fmap.
    destruct (m !! k) as [a|] eqn:Ha; [|done]. simpl. f_equal.
    destruct (release_unstakes_exact h a (Hm k a Ha) (Hk k a Ha)) as (Hb&_&_).
    unfold release_unstakes, set_balance, set_pending in *. simpl in *. by rewrite Hb.
  - unfold m', apply_unstake_unlocks. rewrite <- map_fmap_compose. apply map_fmap_ext.
    intros k a Ha. simpl.
    destruct (release_unstakes_exact h a (Hm k a Ha) (Hk k a Ha)) as (_&_&Hw).
    destruct Hw as (Hb&_). unfold release_unstakes in *. simpl in *.
    assert (∀ l, filter (λ p, unlock_height p ≤ h) (filter (λ p, ¬ unlock_height p ≤ h) l) = []) as Hnil.
    { intros l. induction l as [|p l IH]; [done|]. rewrite (filter_cons (λ p, ¬ _)).
      case_decide; [rewrite filter_cons_False by done|]; done. }
    rewrite Hnil, list_filter_filter_l by tauto. simpl. unfold set_balance, set_pending. simpl.
    f_equal. unfold is_u64 in Hb. unfold saturating_add at 1. lia.
Qed.

Lemma unstake_unlocks_spec_witness :
  let a := mkAccount 5 0 0 [mkPendingUnstake 3 10; mkPendingUnstake 4 20] 0 0 None in
  total_supply (apply_unstake_unlocks {[ [x01] := a ]} 15) = total_supply {[ [x01] := a ]}.
Proof.
  intros a.
  assert (accounts_wf {[ [x01] := a ]}) as Hwf.
  { intros k b Hk. apply (lookup_singleton_Some (M:=gmap bytes)) in Hk as [_ <-].
    repeat constructor; simpl; u64_lia. }
  exact (proj1 (proj2 (unstake_unlocks_spec {[ [x01] := a ]} 15 Hwf ltac:(vm_compute; discriminate)))).
Defined.

(** An account's first two token deployments collide. The deployment is
    addressed by the transaction nonce minus one, saturating, so nonces 0 and 1
    give the same address: after the first has succeeded, the second fails in
    every registry that still holds the tokens of the first. *)
Theorem first_token_deployments_collide `{Sha3} `{!Bincode ProposalKind} `{!Json DeployTokenParams}
    `{!Json TokenTransferParams} `{!Json TokenApproveParams} `{!Json TokenTransferFromParams}
    `{!Json SubmitProposalParams} `{!Json GovernanceVoteParams}
    (tx tx' : Transaction) (reg reg1 reg2 : TokenRegistry) (gov gov1 gov2 : GovernanceState)
    (m m2 : accounts_map) (ms el h h2 : Z) :
  tx_kind tx = DeployToken → tx_kind tx' = DeployToken → tx_from tx' = tx_from tx →
  tx_nonce tx = 0 → tx_nonce tx' = 1 →
  apply_token_or_governance_tx reg gov m ms el tx h = Ok (reg1, gov1) →
  tokens reg1 ⊆ tokens reg2 →
  is_ok (apply_token_or_governance_tx reg2 gov2 m2 ms el tx' h2) = false.
Proof.
  intros Hk Hk' Hf Hn Hn' Hok Hsub. unfold apply_token_or_governance_tx in *.
  rewrite Hk in Hok. rewrite Hk', Hf, Hn'.
  change (saturating_sub 1 1) with 0. rewrite Hn in Hok. change (saturating_sub 0 1) with 0 in Hok.
  assert (is_Some (tokens reg2 !! token_address_of (tx_from tx) 0)) as Hex.
  { unfold token_failed, deploy_token in Hok.
    destruct (parse_params tx _) as [p|]; [|done]. simpl in Hok.
    repeat (case_match; try done). simpl in Hok. injection Hok as <- _. simpl in Hsub.
    eexists. eapply lookup_weaken; [apply lookup_insert_eq|exact Hsub]. }
  destruct (parse_params tx' _) as [p|]; [|done]. simpl.
  unfold deploy_token. rewrite (bool_decide_eq_true_2 _ Hex).
  by repeat case_match.
Qed.

Definition demo_deploy_json : Json DeployTokenParams := λ _, Some (mkDeployTokenParams "T" "T" 2 100).
Abbreviation demo_token_tx := (@apply_token_or_governance_tx demo_sha3 demo_bincode_proposal
  demo_deploy_json (no_json _) (no_json _) (no_json _) (no_json _) (no_json _)).
Definition demo_deploy_tx (n : Z) : Transaction :=
  mkTransaction "c" DeployToken (replicate 20 x01) [] [] 0 0 0 0 n 0 None 0 [x00] [].
Definition demo_deployed :=
  demo_token_tx registry_new governance_new ∅ 10 32 (demo_deploy_tx 0) 1.

Lemma first_token_deployments_collide_witness :
  let reg1 := (unwrap_or (registry_new, governance_new) demo_deployed).1 in
  is_ok (demo_token_tx reg1 governance_new ∅ 10 32 (demo_deploy_tx 1) 2) = false.
Proof.
  intros reg1.
  refine (@first_token_deployments_collide _ _ _ _ _ _ _ _ (demo_deploy_tx 0) (demo_deploy_tx 1)
    registry_new reg1 reg1 governance_new
    (unwrap_or (registry_new, governance_new) demo_deployed).2 governance_new ∅ ∅ 10 32 1 2
    eq_refl eq_refl eq_refl eq_refl eq_refl _ (reflexivity _)).
  unfold reg1. rewrite <- surjective_pairing. apply is_ok_unwrap. vm_compute. exact eq_refl.
Defined.
