(* ===== verification/AddBlock.v ===== *)
(** * Block validation, acceptance and production ([src/core/chain/apply.rs],
    [src/core/chain/produce.rs], [src/core/checkpoints.rs])

    [validate_block_against_state] executes a block on a copy of its parent's
    state; [add_block] settles the epoch, validates and commits; [create_block]
    builds a block from the mempool. The wall clock is an argument. The order in
    which a [HashMap] of proposals is iterated is the parameter [HashOrder]. *)
From S2P Require Import Prelude Hash Crypto Vm Transaction Token Governance Block Account.
From S2P Require Import Validators Finality Settlement BlockTree Trie StateRoot Chain Apply.
From S2P Require Import Ledger.

(** The iteration order of the proposals' hash map: some enumeration of its keys. *)
Class HashOrder := {
  proposal_order : GovernanceState → list bytes;
  proposal_order_ok gs : iteration_order gs (proposal_order gs);
}.

(** ** Checkpoints ([src/core/checkpoints.rs]) *)

Record TrustedCheckpoint := mkCheckpoint {
  cp_height : Z;
  cp_hash : bytes;
  cp_state_root : option bytes;
}.

(** [CURS3D_PUBLIC_TESTNET]: empty at this commit. *)
Definition CURS3D_PUBLIC_TESTNET : list TrustedCheckpoint := [].

Definition checkpoints_for (chain_id : string) : list TrustedCheckpoint :=
  if bool_decide (chain_id = "curs3d-public-testnet"%string) then CURS3D_PUBLIC_TESTNET else [].

Definition verify_block_against_known (chain_id : string) (h : Z) (hash : bytes)
    : result ChainError () :=
  match list_find (λ cp, cp_height cp = h) (checkpoints_for chain_id) with
  | None => Ok ()
  | Some (_, cp) =>
      if bool_decide (hash = cp_hash cp) then Ok () else Err (CheckpointMismatch h (cp_hash cp) hash)
  end.

(** Field updates of the chain. *)
Definition set_state (s : BlockExecution) (c : Blockchain) : Blockchain :=
  mkChain (bc_params c) s (pending_transactions c) (block_tree c) (finality_tracker c)
    (bc_slashed_validators c) (epoch_snapshots c) (validator_missed_epochs c) (bc_blocks c)
    (block_hash_to_height c) (tx_hash_index c) (evm_tx_hash_index c).
Definition set_pool (l : list Transaction) (c : Blockchain) : Blockchain :=
  mkChain (bc_params c) (bc_state c) l (block_tree c) (finality_tracker c)
    (bc_slashed_validators c) (epoch_snapshots c) (validator_missed_epochs c) (bc_blocks c)
    (block_hash_to_height c) (tx_hash_index c) (evm_tx_hash_index c).
Definition set_tree (t : BlockTree) (c : Blockchain) : Blockchain :=
  mkChain (bc_params c) (bc_state c) (pending_transactions c) t (finality_tracker c)
    (bc_slashed_validators c) (epoch_snapshots c) (validator_missed_epochs c) (bc_blocks c)
    (block_hash_to_height c) (tx_hash_index c) (evm_tx_hash_index c).
Definition set_epochs (snapshots : gmap Z EpochSnapshot) (missed : gmap bytes Z) (c : Blockchain)
    : Blockchain :=
  mkChain (bc_params c) (bc_state c) (pending_transactions c) (block_tree c) (finality_tracker c)
    (bc_slashed_validators c) snapshots missed (bc_blocks c)
    (block_hash_to_height c) (tx_hash_index c) (evm_tx_hash_index c).
Definition set_blocks (l : list Block) (c : Blockchain) : Blockchain :=
  mkChain (bc_params c) (bc_state c) (pending_transactions c) (block_tree c) (finality_tracker c)
    (bc_slashed_validators c) (epoch_snapshots c) (validator_missed_epochs c) l
    (block_hash_to_height c) (tx_hash_index c) (evm_tx_hash_index c).
Definition set_indexes (i : gmap bytes Z) (j k : gmap bytes (Z * nat)) (c : Blockchain)
    : Blockchain :=
  mkChain (bc_params c) (bc_state c) (pending_transactions c) (block_tree c) (finality_tracker c)
    (bc_slashed_validators c) (epoch_snapshots c) (validator_missed_epochs c) (bc_blocks c) i j k.

Section add_block.
Context `{Sha3} `{MlDsa} `{EvmEngine} `{WasmEngine} `{HashOrder} `{!Bincode SignableTransaction}
  `{!Bincode BlockHeader} `{!Bincode ProposalKind} `{!BincodeAccountLeaf} `{!BincodeStorageLeaf}
  `{!BincodeContractLeaf} `{!Json DeployTokenParams} `{!Json TokenTransferParams}
  `{!Json TokenApproveParams} `{!Json TokenTransferFromParams} `{!Json SubmitProposalParams}
  `{!Json GovernanceVoteParams}.

(** ** Validation *)

(** The checks on the header and the block's own consistency, in order. *)
Definition check_header (now : Z) (c : Blockchain) (b parent : Block) : result ChainError () :=
  let hd := header b in
  if negb (height hd =? add64 (height (header parent)) 1)
  then Err (InvalidHeight (add64 (height (header parent)) 1) (height hd))
  else if negb (bool_decide (prev_hash hd = block_hash parent)) then Err InvalidPrevHash
  else if negb (verify_hash b) then Err InvalidBlockHash
  else if negb (verify_merkle_root b) then Err InvalidMerkleRoot
  else if negb (block_verify_signature b) then Err InvalidBlockSignature
  else if (timestamp hd <? timestamp (header parent)) ||
          (now + MAX_FUTURE_BLOCK_TIME_SECS <? timestamp hd)
  then Err (InvalidBlockTimestamp (timestamp hd) (timestamp (header parent))
              (now + MAX_FUTURE_BLOCK_TIME_SECS))
  else if negb (version hd =? protocol_version_at_height (bc_params c) (height hd))
  then Err (InvalidProtocolVersion (protocol_version_at_height (bc_params c) (height hd)) (version hd))
  else if negb (base_fee_per_gas hd =? next_base_fee_per_gas (bc_params c) parent)
  then Err (InvalidBaseFee (next_base_fee_per_gas (bc_params c) parent) (base_fee_per_gas hd))
  else Ok ().

Definition snapshot_size (c : Blockchain) (m : accounts_map) (h : Z) : Z :=
  from_option (λ s, Z.of_nat (length (es_validators s))) 0
    (snapshot_for_height c m (epoch_snapshots c) h).

Definition check_proposer (c : Blockchain) (m : accounts_map) (b parent : Block)
    : result ChainError () :=
  let hd := header b in
  ensure_validator_is_authorized c m (epoch_snapshots c) (validator_public_key hd) (height hd)
    (prev_hash hd)
    (allowed_backup_rank_for_height (height hd) (timestamp (header parent)) (timestamp hd)
       (snapshot_size c m (height hd))).

(** The loop's accumulators: hashes seen, priority fees, gas, coinbase. *)
Record TxTotals := mkTotals {
  tx_hashes : gset bytes;
  priority_fees : Z;
  total_gas_used : Z;
  found_coinbase : option Transaction;
}.

Definition totals_zero : TxTotals := mkTotals ∅ 0 0 None.

Definition apply_user (c : Blockchain) (h base_fee : Z) (tx : Transaction)
    : stM BlockExecution ChainError Z :=
  let p := bc_params c in
  apply_user_transaction tx h (unstake_delay_blocks p) (epoch_length p) (minimum_stake p) base_fee.

(** One iteration of the loop over the block's transactions. *)
Definition apply_block_transaction (c : Blockchain) (hd : BlockHeader) (index : nat)
    (tx : Transaction) (t : TxTotals) : stM BlockExecution ChainError TxTotals :=
  let chain_id := gc_chain_id (genesis_config (bc_params c)) in
  _ ← st_guard (bool_decide (tx_chain_id tx = chain_id)) (InvalidChainId chain_id (tx_chain_id tx));
  _ ← st_guard (negb (bool_decide (tx_hash tx ∈ tx_hashes t))) DuplicateTransaction;
  let seen := {[tx_hash tx]} ∪ tx_hashes t in
  if is_coinbase tx then
    _ ← st_guard (bool_decide (index = 0%nat)) InvalidCoinbase;
    _ ← st_guard (bool_decide (found_coinbase t = None)) MultipleCoinbase;
    mret (mkTotals seen (priority_fees t) (total_gas_used t) (Some tx))
  else
    gas ← apply_user c (height hd) (base_fee_per_gas hd) tx;
    let fees := saturating_add (priority_fees t)
                  (priority_fee_for_transaction tx gas (base_fee_per_gas hd)) in
    let total := saturating_add (total_gas_used t) gas in
    _ ← st_guard (total <=? block_gas_limit (bc_params c))
          (InvalidTransactionFormat "block gas limit exceeded");
    mret (mkTotals seen fees total (found_coinbase t)).

Fixpoint apply_block_transactions (c : Blockchain) (hd : BlockHeader) (index : nat)
    (txs : list Transaction) (t : TxTotals) : stM BlockExecution ChainError TxTotals :=
  match txs with
  | [] => mret t
  | tx :: txs =>
      t ← apply_block_transaction c hd index tx t;
      apply_block_transactions c hd (S index) txs t
  end.

(** What follows the loop: governance, gas accounting, coinbase. *)
Definition finish_block (c : Blockchain) (b : Block) (t : TxTotals)
    : stM BlockExecution ChainError () :=
  let hd := header b in
  s ← st_get;
  let stake := active_validator_total_stake c (accounts s) (height hd) in
  '(_, gov) ← st_lift (ok_or Panic (process_block (proposal_order (governance s)) (governance s)
     (height hd) stake (epoch_length (bc_params c))));
  _ ← st_modify (set_governance gov);
  _ ← st_guard (gas_used hd =? total_gas_used t)
        (InvalidTransactionFormat "block gas accounting mismatch");
  coinbase ← st_lift (ok_or MissingCoinbase (found_coinbase t));
  _ ← st_guard (bool_decide (tx_to coinbase =
                  address_bytes_from_public_key (validator_public_key hd))) InvalidCoinbase;
  _ ← st_guard (tx_amount coinbase =?
                  saturating_add (block_reward (bc_params c)) (priority_fees t)) InvalidCoinbase;
  m ← st_lift (apply_coinbase_transaction (accounts s) coinbase);
  st_modify (set_accounts m).

Definition check_state_root (c : Blockchain) (b : Block) (s : BlockExecution)
    : result ChainError () :=
  root ← ok_or Panic (compute_at_protocol (accounts s) (contracts s)
           (protocol_version_at_height (bc_params c) (height (header b))));
  if bool_decide (state_root (header b) = root) then Ok () else Err InvalidStateRoot.

(** [validate_block_against_state]: the projected state after the block. *)
Definition validate_block_against_state (now : Z) (c : Blockchain) (b parent : Block)
    (parent_state : BlockExecution) : result ChainError BlockExecution :=
  let hd := header b in
  _ ← check_header now c b parent;
  _ ← check_proposer c (accounts parent_state) b parent;
  let start := set_receipts ∅ (set_accounts
                 (apply_unstake_unlocks (accounts parent_state) (height hd)) parent_state) in
  let '(r, s) :=
    (t ← apply_block_transactions c hd 0 (transactions b) totals_zero;
     finish_block c b t) start in
  _ ← r;
  _ ← check_state_root c b s;
  Ok s.

(** ** Acceptance *)

(** [push_block_internal]: a block that is not the next one is only logged. *)
Definition push_block_internal (b : Block) (c : Blockchain) : Blockchain :=
  if height (header b) =? block_count c then set_blocks (bc_blocks c ++ [b]) c else c.

Definition index_transaction (h : Z) (index : nat) (tx : Transaction)
    (ij : gmap bytes (Z * nat) * gmap bytes (Z * nat)) : gmap bytes (Z * nat) * gmap bytes (Z * nat) :=
  (<[tx_hash tx := (h, index)]> ij.1,
   if is_evm tx then
     match decode_raw_eth_tx (tx_evm_raw_tx tx) with
     | Ok d => <[raw_tx_hash d := (h, index)]> ij.2
     | Err _ => ij.2
     end
   else ij.2).

Definition index_block (b : Block) (c : Blockchain) : Blockchain :=
  let h := height (header b) in
  let '(i, j) := foldl (λ ij itx, index_transaction h itx.1 itx.2 ij)
                   (tx_hash_index c, evm_tx_hash_index c)
                   (imap pair (transactions b)) in
  set_indexes (<[block_hash b := h]> (block_hash_to_height c)) i j c.

Definition remove_block_transactions_from_mempool (b : Block) (c : Blockchain) : Blockchain :=
  let included := tx_hash <$> filter (λ tx, is_coinbase tx = false) (transactions b) in
  set_pool (filter (λ tx, tx_hash tx ∉ included) (pending_transactions c)) c.

(** The first part of [add_block]: the snapshot of a new epoch and the
    settlement of the previous one, written to the live state. *)
Definition open_epoch (c : Blockchain) (h : Z) : Blockchain :=
  let p := bc_params c in
  let new_epoch := epoch_for_height p h in
  if is_epoch_start p h && bool_decide (epoch_snapshots c !! new_epoch = None)
  then set_epochs (<[new_epoch := snapshot_for_accounts c new_epoch (accounts (bc_state c))]>
                     (epoch_snapshots c)) (validator_missed_epochs c) c
  else c.

Definition settle_epoch (c : Blockchain) (h : Z) : Blockchain :=
  let '(m, missed) := apply_epoch_settlement_for_block h (epoch_length (bc_params c))
    (epoch_snapshots c) (proposer_addresses_for_settling_epoch c h) (accounts (bc_state c))
    (validator_missed_epochs c) in
  set_state (set_accounts m (bc_state c)) (set_epochs (epoch_snapshots c) missed c).

(** The commit of an executed block. *)
Definition commit_block (b : Block) (s : BlockExecution) (c : Blockchain) : Blockchain :=
  let proposer := address_bytes_from_public_key (validator_public_key (header b)) in
  let stake := get_staked_balance (accounts s) proposer in
  let c := match insert_block (block_tree c) b stake with
           | Ok (_, t) => set_tree t c
           | Err _ => c
           end in
  let c := set_state (set_receipts (receipts s ∪ receipts (bc_state c)) s) c in
  remove_block_transactions_from_mempool b (index_block b (push_block_internal b c)).

Definition add_block (now : Z) (b : Block) : stM Blockchain ChainError () :=
  _ ← st_modify (λ c, settle_epoch (open_epoch c (height (header b))) (height (header b)));
  c ← st_get;
  s ← st_lift (validate_block_against_state now c b (latest_block c) (bc_state c));
  _ ← st_lift (verify_block_against_known (gc_chain_id (genesis_config (bc_params c)))
                 (height (header b)) (block_hash b));
  st_modify (commit_block b s).

(** ** Production *)

(** One iteration of the loop of [create_block] over the mempool. The projected
    state is the one [apply_user_transaction] leaves, whether it succeeded and
    whether its gas fits. *)
Record BlockDraft := mkDraft {
  seen_hashes : gset bytes;
  block_txs : list Transaction;
  draft_gas : Z;
  draft_fees : Z;
}.

Definition draft_transaction (c : Blockchain) (h base_fee : Z) (pending : Transaction)
    (ds : BlockDraft * BlockExecution) : BlockDraft * BlockExecution :=
  let '(d, s) := ds in
  if bool_decide (tx_hash pending ∈ seen_hashes d) then (d, s)
  else
    let seen := {[tx_hash pending]} ∪ seen_hashes d in
    match apply_user c h base_fee pending s with
    | (Ok gas, s) =>
        if saturating_add (draft_gas d) gas <=? block_gas_limit (bc_params c)
        then (mkDraft seen (block_txs d ++ [pending]) (saturating_add (draft_gas d) gas)
                (saturating_add (draft_fees d) (priority_fee_for_transaction pending gas base_fee)), s)
        else (mkDraft seen (block_txs d) (draft_gas d) (draft_fees d), s)
    | (Err _, s) => (mkDraft seen (block_txs d) (draft_gas d) (draft_fees d), s)
    end.

(** The state the loop starts from: unlocked unstakes, then the settlement. *)
Definition draft_start (c : Blockchain) (h : Z) : BlockExecution :=
  let s := bc_state c in
  let m := (apply_epoch_settlement_for_block h (epoch_length (bc_params c)) (epoch_snapshots c)
    (proposer_addresses_for_settling_epoch c h) (apply_unstake_unlocks (accounts s) h)
    (validator_missed_epochs c)).1 in
  set_receipts ∅ (set_accounts m s).

(** [create_block]; [now] is the clock of the leader check and [stamp] the one
    read for the coinbase and the header. *)
Definition create_block (now stamp : Z) (c : Blockchain) (kp : KeyPair) : result ChainError Block :=
  let prev := latest_block c in
  let h := add64 (height (header prev)) 1 in
  let p := bc_params c in
  let base_fee := next_base_fee_per_gas p prev in
  let proposer := address_bytes_from_public_key (public_key kp) in
  _ ← ensure_validator_is_authorized c (accounts (bc_state c)) (epoch_snapshots c) (public_key kp) h
        (block_hash prev)
        (allowed_backup_rank_for_height h (timestamp (header prev)) now
           (snapshot_size c (accounts (bc_state c)) h));
  let '(d, s) := foldl (λ ds tx, draft_transaction c h base_fee tx ds)
                   (mkDraft ∅ [] 0 0, draft_start c h) (pending_transactions c) in
  let coinbase := coinbase_with_timestamp (gc_chain_id (genesis_config p)) proposer
    (saturating_add (block_reward p) (draft_fees d)) stamp in
  m ← apply_coinbase_transaction (accounts s) coinbase;
  root ← ok_or Panic (compute_at_protocol m (contracts s) (protocol_version_at_height p h));
  ok_or Panic (block_new (protocol_version_at_height p h) h (block_hash prev) root (draft_gas d)
    base_fee (coinbase :: block_txs d) kp stamp).

(** ** Lemmas: what the steps leave alone *)

Lemma open_epoch_same c h :
  bc_params (open_epoch c h) = bc_params c ∧ bc_blocks (open_epoch c h) = bc_blocks c ∧
  bc_state (open_epoch c h) = bc_state c ∧ block_tree (open_epoch c h) = block_tree c ∧
  finality_tracker (open_epoch c h) = finality_tracker c ∧
  validator_missed_epochs (open_epoch c h) = validator_missed_epochs c.
Proof. unfold open_epoch. by case_match. Qed.

Lemma settle_epoch_same c h :
  bc_params (settle_epoch c h) = bc_params c ∧ bc_blocks (settle_epoch c h) = bc_blocks c ∧
  block_tree (settle_epoch c h) = block_tree c ∧
  finality_tracker (settle_epoch c h) = finality_tracker c ∧
  epoch_snapshots (settle_epoch c h) = epoch_snapshots c ∧
  contracts (bc_state (settle_epoch c h)) = contracts (bc_state c).
Proof. unfold settle_epoch. by case_match. Qed.

(** The state [add_block] validates a block of height [h] against. *)
Definition prepared (c : Blockchain) (h : Z) : Blockchain := settle_epoch (open_epoch c h) h.

Lemma prepared_same c h :
  bc_params (prepared c h) = bc_params c ∧ bc_blocks (prepared c h) = bc_blocks c ∧
  block_tree (prepared c h) = block_tree c ∧
  finality_tracker (prepared c h) = finality_tracker c ∧
  latest_block (prepared c h) = latest_block c.
Proof.
  unfold prepared, latest_block, chain_height, block_at_height, block_count.
  destruct (settle_epoch_same (open_epoch c h) h) as (->&->&->&->&_).
  destruct (open_epoch_same c h) as (->&->&_&->&->&_). done.
Qed.

Lemma commit_block_same b s c :
  bc_params (commit_block b s c) = bc_params c ∧
  bc_blocks (commit_block b s c) = bc_blocks (push_block_internal b c) ∧
  accounts (bc_state (commit_block b s c)) = accounts s ∧
  contracts (bc_state (commit_block b s c)) = contracts s ∧
  finality_tracker (commit_block b s c) = finality_tracker c.
Proof.
  unfold commit_block, remove_block_transactions_from_mempool, index_block, push_block_internal,
    block_count.
  destruct (foldl _ _ _) as [i j].
  destruct (insert_block _ _ _) as [[f t]|e]; simpl; by case_match.
Qed.

Lemma add_block_Ok now b c u c' :
  add_block now b c = (Ok u, c') →
  ∃ s, validate_block_against_state now (prepared c (height (header b))) b (latest_block c)
         (bc_state (prepared c (height (header b)))) = Ok s ∧
       c' = commit_block b s (prepared c (height (header b))).
Proof.
  intros Ha. unfold add_block in Ha. repeat st_step. simpl in *.
  pose proof (prepared_same c (height (header b))) as (_&_&_&_&El).
  unfold prepared in *. rewrite <- El. eauto.
Qed.

Lemma add_block_Err now b c e c' :
  add_block now b c = (Err e, c') → c' = prepared c (height (header b)).
Proof.
  unfold add_block, st_modify, st_get, st_lift, mbind, stM_bind, prepared.
  repeat case_match; naive_solver.
Qed.

Lemma check_header_Ok now c b parent :
  check_header now c b parent = Ok () →
  height (header b) = add64 (height (header parent)) 1 ∧ prev_hash (header b) = block_hash parent ∧
  self_checks b = true ∧
  timestamp (header parent) ≤ timestamp (header b) ≤ now + MAX_FUTURE_BLOCK_TIME_SECS ∧
  version (header b) = protocol_version_at_height (bc_params c) (height (header b)) ∧
  base_fee_per_gas (header b) = next_base_fee_per_gas (bc_params c) parent.
Proof.
  unfold check_header, self_checks. intros Hc.
  repeat (case_match; try done). bool_to_prop.
  repeat match goal with E : _ = true |- _ => rewrite E end. done.
Qed.

(** The loop over a block's transactions, from position [i]. *)
Lemma apply_block_transaction_Ok c hd i tx t s t' s' :
  apply_block_transaction c hd i tx t s = (Ok t', s') →
  (tx_hash tx ∉ tx_hashes t) ∧ tx_hashes t' = {[tx_hash tx]} ∪ tx_hashes t ∧
  if is_coinbase tx then
    i = 0%nat ∧ s' = s ∧ priority_fees t' = priority_fees t ∧
    total_gas_used t' = total_gas_used t ∧ found_coinbase t' = Some tx
  else ∃ gas, apply_user c (height hd) (base_fee_per_gas hd) tx s = (Ok gas, s') ∧
    total_gas_used t' = saturating_add (total_gas_used t) gas ∧
    total_gas_used t' ≤ block_gas_limit (bc_params c) ∧
    priority_fees t' = saturating_add (priority_fees t)
      (priority_fee_for_transaction tx gas (base_fee_per_gas hd)) ∧
    found_coinbase t' = found_coinbase t.
Proof.
  intros Ha. unfold apply_block_transaction in Ha. st_step. st_step. st_step. st_step.
  bool_to_prop. destruct (is_coinbase tx); repeat st_step; bool_to_prop; simpl; eauto 10.
Qed.

Lemma apply_block_transactions_Ok c hd i txs t s t' s' :
  apply_block_transactions c hd i txs t s = (Ok t', s') →
  NoDup (tx_hash <$> txs) ∧ (∀ x, x ∈ tx_hash <$> txs → x ∉ tx_hashes t) ∧
  (total_gas_used t ≤ block_gas_limit (bc_params c) →
   total_gas_used t' ≤ block_gas_limit (bc_params c)) ∧
  Forall (λ tx, is_coinbase tx = false) (if bool_decide (i = 0%nat) then tail txs else txs) ∧
  (found_coinbase t' = found_coinbase t ∨
   ∃ cb, head txs = Some cb ∧ is_coinbase cb = true ∧ found_coinbase t' = Some cb).
Proof.
  revert i t s. induction txs as [|tx txs IH]; intros i t s Ha; simpl in Ha.
  { st_step. split_and!; try done; [apply NoDup_nil_2|by intros ? ?%elem_of_nil| |auto].
    by case_match. }
  apply st_bind_Ok in Ha as (t1&s1&Ht&Ha).
  apply apply_block_transaction_Ok in Ht as (Hni&Hs1&Ht).
  apply IH in Ha as (Hnd&Hfr&Hg&Hncb&Hcb). rewrite Hs1 in Hfr.
  rewrite bool_decide_eq_false_2 in Hncb by done.
  split_and!.
  - rewrite fmap_cons. constructor; [|done]. intros Hin. apply (Hfr _ Hin). set_solver.
  - intros x. rewrite fmap_cons. intros [->|Hin]%elem_of_cons; [done|]. apply Hfr in Hin. set_solver.
  - intros Hle. apply Hg. destruct (is_coinbase tx); [|naive_solver].
    destruct Ht as (_&_&_&->&_). done.
  - destruct (is_coinbase tx) eqn:Ec.
    + destruct Ht as (->&_). simpl. done.
    + case_bool_decide; simpl; [done|by constructor].
  - destruct (is_coinbase tx) eqn:Ec.
    + destruct Ht as (->&_&_&_&Et). right. exists tx. split; [done|]. split; [done|].
      destruct Hcb as [->|(cb&Hh&Hc&_)]; [done|].
      destruct txs as [|tx' txs]; [done|]. injection Hh as ->.
      apply Forall_cons in Hncb as [Hf _]. congruence.
    + destruct Ht as (gas&_&_&_&_&Ef). rewrite <- Ef.
      destruct Hcb as [?|(cb&Hh&Hc&_)]; [by left|].
      destruct txs as [|tx' txs]; [done|]. injection Hh as ->.
      apply Forall_cons in Hncb as [Hf _]. congruence.
Qed.

(** Validation, opened: the checks, the loop, the finish and the root. *)
Lemma validate_Ok now c b parent ps s :
  validate_block_against_state now c b parent ps = Ok s →
  ∃ t s1, let hd := header b in
    let start := set_receipts ∅ (set_accounts
                   (apply_unstake_unlocks (accounts ps) (height hd)) ps) in
    check_header now c b parent = Ok () ∧ check_proposer c (accounts ps) b parent = Ok () ∧
    apply_block_transactions c hd 0 (transactions b) totals_zero start = (Ok t, s1) ∧
    finish_block c b t s1 = (Ok (), s) ∧ check_state_root c b s = Ok ().
Proof.
  intros Hv. unfold validate_block_against_state in Hv. cbv zeta in Hv.
  apply result_bind_Ok in Hv as ([]&Hh&Hv). apply result_bind_Ok in Hv as ([]&Hp&Hv).
  destruct (mbind (M:=stM BlockExecution ChainError) _ _ _) as [r s2] eqn:Hl in Hv.
  apply result_bind_Ok in Hv as ([]&->&Hv). apply result_bind_Ok in Hv as ([]&Hr&Hv).
  injection Hv as ->. apply st_bind_Ok in Hl as (t&s1&Hl&Hf). exists t, s1. done.
Qed.

Lemma finish_block_Ok c b t s u s' :
  finish_block c b t s = (Ok u, s') →
  gas_used (header b) = total_gas_used t ∧
  ∃ cb, found_coinbase t = Some cb ∧ is_coinbase cb = true ∧
    tx_to cb = address_bytes_from_public_key (validator_public_key (header b)) ∧
    tx_amount cb = saturating_add (block_reward (bc_params c)) (priority_fees t) ∧
    accounts s' = credit (tx_to cb) (tx_amount cb) (accounts s) ∧ contracts s' = contracts s.
Proof.
  intros Hf. unfold finish_block in Hf. repeat st_step. bool_to_prop. split; [done|].
  match goal with E : apply_coinbase_transaction _ ?cb = Ok _ |- _ =>
    exists cb; unfold apply_coinbase_transaction in E; repeat st_step end.
  destruct (is_coinbase _); [|done]. simplify_eq/=. done.
Qed.

Lemma check_state_root_Ok c b s :
  check_state_root c b s = Ok () →
  compute_at_protocol (accounts s) (contracts s)
    (protocol_version_at_height (bc_params c) (height (header b))) = Some (state_root (header b)).
Proof.
  unfold check_state_root. intros Hc. repeat st_step. case_bool_decide; [|done]. congruence.
Qed.

(** The money of a block's native transactions: what leaves the accounts is the
    burnt base fee, the destroyed amounts and the fees owed to the proposer. *)
Lemma apply_block_transactions_supply c hd i txs t s t' s' :
  apply_block_transactions c hd i txs t s = (Ok t', s') →
  Forall (λ tx, is_evm tx = false ∧ tx_wf tx) txs →
  is_u64 (height hd) → is_u64 (unstake_delay_blocks (bc_params c)) →
  is_u64 (base_fee_per_gas hd) → block_gas_limit (bc_params c) < u64_max →
  accounts_wf (accounts s) → 0 ≤ total_gas_used t → 0 ≤ priority_fees t →
  priority_fees t + total_supply (accounts s) < u64_max →
  accounts_wf (accounts s') ∧ 0 ≤ total_gas_used t' ∧ 0 ≤ priority_fees t' ∧
  total_supply (accounts s') + sumZ (destroyed_amount <$> txs) +
    total_gas_used t' * base_fee_per_gas hd + priority_fees t' =
  total_supply (accounts s) + total_gas_used t * base_fee_per_gas hd + priority_fees t ∧
  total_supply (accounts s') + priority_fees t' ≤ total_supply (accounts s) + priority_fees t.
Proof.
  intros Ha Htxs Hh Hd Hb Hlim. revert i t s Ha.
  induction Htxs as [|tx txs [He Htx] _ IH]; intros i t s Ha Hwf Hg Hf Hs; simpl in Ha.
  { st_step. simpl. split_and!; try done; lia. }
  apply st_bind_Ok in Ha as (t1&s1&Ht&Ha). rewrite fmap_cons. simpl sumZ.
  apply apply_block_transaction_Ok in Ht as (_&_&Ht).
  destruct (is_coinbase tx) eqn:Ec.
  - destruct Ht as (_&->&Ep&Eg&_). apply IH in Ha; [|done|lia..].
    assert (destroyed_amount tx = 0) as ->;
      [|rewrite Ep, Eg in Ha; rewrite Z.add_0_l; exact Ha].
    unfold destroyed_amount. unfold is_coinbase in Ec. bool_to_prop. by rewrite Ec.
  - destruct Ht as (gas&Hu&Eg&Hgl&Ef&_). unfold apply_user in Hu.
    assert (0 ≤ total_supply (accounts s)) as Hs0.
    { apply map_sum_nonneg. intros k a Hk. apply account_funds_nonneg. by eapply Hwf. }
    apply user_transaction_supply in Hu as (Hwf1&Hs1&Hgas&Hpf); [|done..|lia].
    assert (0 ≤ destroyed_amount tx) as Hd0.
    { unfold destroyed_amount. assert (is_u64 (tx_amount tx)) as [? _] by apply Htx.
      by destruct (tx_kind tx). }
    assert (0 ≤ total_supply (accounts s1)) as Hs10.
    { apply map_sum_nonneg. intros k a Hk. apply account_funds_nonneg. by eapply Hwf1. }
    assert (0 ≤ gas * base_fee_per_gas hd) as Hgb
      by (apply Z.mul_nonneg_nonneg; [apply Hgas|apply Hb]).
    unfold saturating_add in Eg, Ef. rewrite Z.min_l in Eg by lia. rewrite Z.min_l in Ef by lia.
    apply IH in Ha as (Hwf'&Hg'&Hf'&Hsum&Hle); [|done|lia..].
    split_and!; [done..| |]; rewrite ?Eg, ?Ef in *; lia.
Qed.

(** The nonces: each sender's transactions carry consecutive nonces. *)
Definition nonces_of (sender : bytes) (txs : list Transaction) : list Z :=
  tx_nonce <$> filter (λ tx, tx_from tx = sender ∧ is_coinbase tx = false) txs.

Lemma apply_block_transactions_nonces c hd i txs t s t' s' k :
  apply_block_transactions c hd i txs t s = (Ok t', s') →
  Forall (λ tx, is_evm tx = false ∧ tx_wf tx) txs →
  is_u64 (nonce (get_account (accounts s) k)) →
  nonces_of k txs = (λ j, wrap64 (nonce (get_account (accounts s) k) + j)) <$>
    seqZ 0 (Z.of_nat (length (nonces_of k txs))) ∧
  nonce (get_account (accounts s') k) =
    wrap64 (nonce (get_account (accounts s) k) + Z.of_nat (length (nonces_of k txs))).
Proof.
  intros Ha Htxs. revert i t s Ha.
  induction Htxs as [|tx txs [He Htx] _ IH]; intros i t s Ha Hn; simpl in Ha.
  { st_step. simpl. rewrite Z.add_0_r, wrap64_id by done. done. }
  apply st_bind_Ok in Ha as (t1&s1&Ht&Ha).
  apply apply_block_transaction_Ok in Ht as (_&_&Ht).
  unfold nonces_of. rewrite filter_cons. fold (nonces_of k txs).
  destruct (is_coinbase tx) eqn:Ec.
  - destruct Ht as (_&->&_). rewrite decide_False by naive_solver. by eapply IH.
  - destruct Ht as (gas&Hu&_). unfold apply_user in Hu.
    apply (user_transaction_nonces _ _ _ _ _ _ _ _ _ k) in Hu as [En Ek]; [|done..].
    apply IH in Ha as [Hl Hk]; [|rewrite Ek; case_bool_decide; eauto with u64].
    case_bool_decide as Hf.
    + rewrite decide_True by done. rewrite Hf in En. rewrite fmap_cons. fold (nonces_of k txs).
      rewrite Hk, Ek. simpl length. rewrite Nat2Z.inj_succ, En. unfold add64.
      set (n := nonce (get_account (accounts s) k)) in *.
      assert (∀ j, wrap64 (wrap64 (n + 1) + j) = wrap64 (n + (1 + j))) as Hw.
      { intros j. unfold wrap64. rewrite Zplus_mod_idemp_l. f_equal. lia. }
      rewrite Hw. split; [|f_equal; lia].
      rewrite seqZ_cons, fmap_cons by lia. rewrite Z.add_0_r, wrap64_id by done. f_equal.
      rewrite Z.pred_succ. rewrite Hl at 1. rewrite Ek, En. unfold add64. fold n.
      change (Z.succ 0) with (1 + 0). rewrite <- fmap_add_seqZ, <- list_fmap_compose.
      apply list_fmap_ext. intros _ j _. simpl. apply Hw.
    + rewrite decide_False by naive_solver. rewrite Ek in *. done.
Qed.
End add_block.

(** ** The canonical chain *)

(** The blocks are numbered from 0 and each names its predecessor. *)
Definition chain_linked (c : Blockchain) : Prop :=
  bc_blocks c ≠ [] ∧
  ∀ i b, bc_blocks c !! i = Some b → height (header b) = Z.of_nat i ∧
    ∀ p, (0 < i)%nat → bc_blocks c !! pred i = Some p → prev_hash (header b) = block_hash p.

Lemma latest_block_last c b :
  last (bc_blocks c) = Some b → latest_block c = b.
Proof.
  intros Hl. unfold latest_block, block_at_height, chain_height, block_count.
  rewrite last_lookup in Hl. pose proof (lookup_lt_Some _ _ _ Hl).
  rewrite (proj2 (Z.ltb_ge _ _)) by (unfold saturating_sub; lia).
  replace (Z.to_nat _) with (pred (length (bc_blocks c))) by (unfold saturating_sub; lia).
  by rewrite Hl.
Qed.

Lemma chain_linked_latest c :
  chain_linked c → height (header (latest_block c)) = chain_height c ∧
  last (bc_blocks c) = Some (latest_block c).
Proof.
  intros [Hne Hl]. destruct (last (bc_blocks c)) as [b|] eqn:E.
  - rewrite (latest_block_last c b E). split; [|done].
    rewrite last_lookup in E. apply Hl in E as [-> _].
    destruct (bc_blocks c) eqn:Eb; [done|].
    unfold chain_height, block_count, saturating_sub. rewrite Eb. simpl. lia.
  - by apply last_None in E.
Qed.

Lemma from_genesis_linked `{Sha3} `{MlDsa} `{HexDecode} `{!BincodeAccountLeaf}
    `{!BincodeStorageLeaf} `{!BincodeContractLeaf} `{!Bincode SignableTransaction}
    `{!Bincode BlockHeader} (g : GenesisConfig) (c : Blockchain) :
  from_genesis g = Ok c → chain_linked c.
Proof.
  unfold from_genesis. intros Hg. repeat st_step. split; [done|].
  simpl. intros [|[|i]] b'; simpl; try done. intros [= <-]. split; [done|]. lia.
Qed.

Section linked.
Context `{Sha3} `{MlDsa} `{EvmEngine} `{WasmEngine} `{HashOrder} `{!Bincode SignableTransaction}
  `{!Bincode BlockHeader} `{!Bincode ProposalKind} `{!BincodeAccountLeaf} `{!BincodeStorageLeaf}
  `{!BincodeContractLeaf} `{!Json DeployTokenParams} `{!Json TokenTransferParams}
  `{!Json TokenApproveParams} `{!Json TokenTransferFromParams} `{!Json SubmitProposalParams}
  `{!Json GovernanceVoteParams}.

(** A block validated on the tip of a linked chain is the next one. *)
Lemma next_block_height now b c s :
  chain_linked c → block_count c < u64_max →
  validate_block_against_state now (prepared c (height (header b))) b (latest_block c)
    (bc_state (prepared c (height (header b)))) = Ok s →
  height (header b) = block_count c ∧ prev_hash (header b) = block_hash (latest_block c).
Proof.
  intros Hc Hlim Hv. apply validate_Ok in Hv as (_&_&Hh&_). apply check_header_Ok in Hh as (Eh&Epv&_).
  split; [|done]. destruct (chain_linked_latest c Hc) as [Elh _]. destruct Hc as [Hne _].
  rewrite Eh, Elh. unfold chain_height, block_count, saturating_sub in *.
  destruct (bc_blocks c); [done|]. simpl length in *. rewrite add64_exact by lia. lia.
Qed.

Lemma commit_block_blocks b s c :
  height (header b) = block_count c → bc_blocks (commit_block b s c) = bc_blocks c ++ [b].
Proof.
  intros Eh. destruct (commit_block_same b s c) as (_&->&_).
  unfold push_block_internal. by rewrite (proj2 (Z.eqb_eq _ _) Eh).
Qed.

Lemma add_block_appends now b c u c' :
  chain_linked c → block_count c < u64_max → add_block now b c = (Ok u, c') →
  bc_blocks c' = bc_blocks c ++ [b] ∧ height (header b) = block_count c ∧
  prev_hash (header b) = block_hash (latest_block c).
Proof.
  intros Hc Hlim Ha. apply add_block_Ok in Ha as (s&Hv&->).
  destruct (next_block_height _ _ _ _ Hc Hlim Hv) as [Eh Ep].
  destruct (prepared_same c (height (header b))) as (_&Eb&_).
  rewrite commit_block_blocks by (unfold block_count; by rewrite Eb). by rewrite Eb.
Qed.

Lemma linked_snoc c c' b :
  chain_linked c → bc_blocks c' = bc_blocks c ++ [b] → height (header b) = block_count c →
  prev_hash (header b) = block_hash (latest_block c) → chain_linked c'.
Proof.
  intros Hc Eb Ehb Epv. destruct (chain_linked_latest c Hc) as [_ Ela]. destruct Hc as [Hne Hl].
  unfold block_count in Ehb. split; rewrite Eb; [by destruct (bc_blocks c)|].
  intros i b'. rewrite lookup_app_Some. intros [Hi|[Hi Hb']].
  - destruct (Hl i b' Hi) as [? Hp]. split; [done|]. intros p Hpos.
    rewrite lookup_app_l by (apply lookup_lt_Some in Hi; lia). auto.
  - apply list_lookup_singleton_Some in Hb' as [Hz <-]. split; [rewrite Ehb; lia|].
    intros p Hpos. rewrite last_lookup in Ela.
    rewrite lookup_app_l by lia. replace (pred i) with (pred (length (bc_blocks c))) by lia.
    rewrite Ela. congruence.
Qed.

Lemma add_block_linked now b c :
  chain_linked c → block_count c < u64_max → chain_linked (add_block now b c).2.
Proof.
  intros Hc Hlim. destruct (add_block now b c) as [[u|e] c'] eqn:Ha; simpl.
  - destruct (add_block_appends _ _ _ _ _ Hc Hlim Ha) as (?&?&?). by eapply linked_snoc.
  - apply add_block_Err in Ha as ->. unfold chain_linked.
    by destruct (prepared_same c (height (header b))) as (_&->&_).
Qed.
End linked.
