(* ===== verification/ChainSafety.v ===== *)
(** * What accepting a block guarantees

    Theorems about [AddBlock.add_block], [AddBlock.validate_block_against_state]
    and [AddBlock.create_block], with a small chain to run them on. *)
From S2P Require Import Prelude Hash Crypto Vm Transaction Token Governance Block Account.
From S2P Require Import Validators Finality Settlement BlockTree Trie StateRoot Chain Apply.
From S2P Require Import Ledger AddBlock.

(** ** A chain of one genesis block, one validator and one funded account *)

Program Definition demo_order : HashOrder :=
  {| proposal_order gs := (map_to_list (proposals gs)).*1 |}.
Next Obligation. intros gs. unfold iteration_order. reflexivity. Qed.

Definition demo_hex : HexDecode := λ s,
  Some (if bool_decide (s = "validator 1"%string) then demo_public_key 1
        else if bool_decide (s = "validator 2"%string) then demo_public_key 2
        else bstr s).

Module Demo.
#[export] Existing Instances demo_sha3 demo_mldsa demo_evm demo_wasm demo_bincode_tx
  demo_bincode_header demo_bincode_proposal demo_bincode_account_leaf
  demo_bincode_storage_leaf demo_bincode_contract_leaf demo_order demo_hex no_json.
End Demo.

Definition demo_params (gas_limit : Z) : ChainParams :=
  params_of (mkGenesisConfig "c" "c" 50 1000 10 32 64 [] [] gas_limit 0 8).
Definition demo_ledger_accounts : accounts_map :=
  {[ demo_address 1 := mkAccount 0 0 5000 [] 0 0 (Some (demo_public_key 1));
     demo_address 7 := demo_account 9000000 0 ]}.
Definition demo_genesis : Block :=
  @genesis_with_state_root demo_sha3 demo_bincode_tx demo_bincode_header
    (@compute_full demo_sha3 demo_bincode_account_leaf demo_bincode_storage_leaf
       demo_bincode_contract_leaf demo_ledger_accounts ∅) "c" 0.
Definition demo_chain (gas_limit : Z) (pool : list Transaction) : Blockchain :=
  mkChain (demo_params gas_limit) (demo_state demo_ledger_accounts) pool
    (tree_from_genesis demo_genesis) tracker_new ∅ ∅ ∅ [demo_genesis] ∅ ∅ ∅.
Definition demo_payment (n : Z) : Transaction :=
  demo_sign 7 (@transaction_new demo_sha3 "c" (demo_public_key 7) (replicate 20 x01) 500000 2 n 0).

Definition demo_now : Z := 1700000010.

Section demo.
Import Demo.

Definition demo_made (gas_limit : Z) (pool : list Transaction) : Block :=
  unwrap_or demo_genesis
    (create_block demo_now demo_now (demo_chain gas_limit pool) (demo_keypair 1)).

(** The block produced from one payment, and its validation. *)
Definition demo_block : Block := demo_made 30000 [demo_payment 0].
Definition demo_after : result ChainError () * Blockchain :=
  add_block demo_now demo_block (demo_chain 30000 []).

Lemma demo_after_ok : is_ok demo_after.1 = true.
Proof. vm_compute. exact eq_refl. Qed.

Lemma demo_after_run :
  add_block demo_now demo_block (demo_chain 30000 []) = (Ok (), demo_after.2).
Proof.
  pose proof (is_ok_unwrap demo_after.1 () demo_after_ok) as E.
  rewrite (surjective_pairing (add_block _ _ _)). fold demo_after. rewrite E.
  by destruct (unwrap_or _ _).
Qed.

Lemma demo_block_height : height (header demo_block) = 1.
Proof. vm_compute. exact eq_refl. Qed.
End demo.

(** ** Properties *)

Section properties.
Context `{Sha3} `{MlDsa} `{EvmEngine} `{WasmEngine} `{HashOrder} `{!Bincode SignableTransaction}
  `{!Bincode BlockHeader} `{!Bincode ProposalKind} `{!BincodeAccountLeaf} `{!BincodeStorageLeaf}
  `{!BincodeContractLeaf} `{!Json DeployTokenParams} `{!Json TokenTransferParams}
  `{!Json TokenApproveParams} `{!Json TokenTransferFromParams} `{!Json SubmitProposalParams}
  `{!Json GovernanceVoteParams}.


(** C6: what a block does to the money. A validated block of native transactions
    changes the total supply by the block reward, minus the base fee of the gas
    it used, minus the amounts its transactions destroy: priority fees only
    change hands. *)
Theorem block_supply (now : Z) (c : Blockchain) (b parent : Block) (ps s : BlockExecution) :
  validate_block_against_state now c b parent ps = Ok s →
  Forall (λ tx, is_evm tx = false ∧ tx_wf tx) (transactions b) →
  is_u64 (height (header b)) → is_u64 (unstake_delay_blocks (bc_params c)) →
  is_u64 (base_fee_per_gas (header b)) → block_gas_limit (bc_params c) < u64_max →
  0 ≤ block_reward (bc_params c) → accounts_wf (accounts ps) →
  total_supply (accounts ps) + block_reward (bc_params c) < u64_max →
  accounts_wf (accounts s) ∧
  total_supply (accounts s) + gas_used (header b) * base_fee_per_gas (header b) +
    sumZ (destroyed_amount <$> transactions b) =
  total_supply (accounts ps) + block_reward (bc_params c).
Proof.
  intros Hv Htxs Hh Hd Hb Hlim Hrw Hwf Hs.
  apply validate_Ok in Hv as (t&s1&_&_&Hl&Hf&_).
  destruct (unstake_unlocks_supply (accounts ps) (height (header b)) Hwf) as [Hwf0 Hs0]; [lia|].
  apply apply_block_transactions_supply in Hl as (Hwf1&Hg&Hpf&Hsum&Hle);
    simpl; rewrite ?Hs0; try done; try lia.
  apply finish_block_Ok in Hf as (Eg&cb&_&_&_&Ham&Eacc&_). simpl in *. rewrite Hs0 in *.
  assert (0 ≤ total_supply (accounts s1)) as Hs1.
  { apply map_sum_nonneg. intros k a Hk. apply account_funds_nonneg. by eapply Hwf1. }
  unfold saturating_add in Ham. rewrite Z.min_l in Ham by lia.
  rewrite Eacc, Eg. split; [apply credit_wf; [done|lia]|].
  rewrite credit_supply by (done || lia). lia.
Qed.

(** C7: transactions cannot be replayed, skipped or reordered. In a validated block
    of native transactions the nonces of each sender's transactions are the
    account's nonce before the block and its successors, in that order and
    without gaps, and the account ends with the nonce that follows them. *)
Theorem block_nonces_consecutive (now : Z) (c : Blockchain) (b parent : Block)
    (ps s : BlockExecution) (sender : bytes) :
  validate_block_against_state now c b parent ps = Ok s →
  Forall (λ tx, is_evm tx = false ∧ tx_wf tx) (transactions b) → accounts_wf (accounts ps) →
  let n := nonce (get_account (accounts ps) sender) in
  let nonces := nonces_of sender (transactions b) in
  nonces = (λ j, wrap64 (n + j)) <$> seqZ 0 (Z.of_nat (length nonces)) ∧
  nonce (get_account (accounts s) sender) = wrap64 (n + Z.of_nat (length nonces)).
Proof.
  intros Hv Htxs Hwf n nonces. apply validate_Ok in Hv as (t&s1&_&_&Hl&Hf&_).
  assert (nonce (get_account (apply_unstake_unlocks (accounts ps) (height (header b))) sender) = n)
    as En.
  { unfold n, get_account, apply_unstake_unlocks. rewrite lookup_fmap.
    by destruct (accounts ps !! sender). }
  apply (apply_block_transactions_nonces _ _ _ _ _ _ _ _ sender) in Hl as [Hl Hn];
    [|done|simpl; rewrite En; by apply get_account_wf].
  apply finish_block_Ok in Hf as (_&cb&_&_&_&_&->&_). simpl in Hl, Hn. rewrite En in *.
  rewrite credit_nonce. done.
Qed.

(** C19: the canonical chain stays linked: blocks are numbered from 0 without gaps
    and each names the hash of its predecessor, from genesis on and after every
    attempt to add a block, accepted or not. *)
Theorem chain_stays_linked `{HexDecode} (g : GenesisConfig) (now : Z) (b : Block) :
  (∀ c, from_genesis g = Ok c → chain_linked c) ∧
  (∀ c, chain_linked c → block_count c < u64_max → chain_linked (add_block now b c).2).
Proof.
  split; [apply from_genesis_linked|intros c; apply add_block_linked].
Qed.

(** A rejected block leaves a trace. [add_block] opens and settles the epoch on
    the live state before it validates, so after a rejection the chain is not
    the one before: a block of any content whose height starts an epoch fixes
    that epoch's validator snapshot from the accounts of the moment, for good,
    and pays the settlement of the epoch before it every time it is submitted. *)
Theorem rejected_block_leaves_trace (now : Z) (b : Block) (c c' : Blockchain) (e : ChainError) :
  add_block now b c = (Err e, c') →
  let h := height (header b) in
  let epoch := epoch_for_height (bc_params c) h in
  c' = settle_epoch (open_epoch c h) h ∧
  (is_epoch_start (bc_params c) h = true → epoch_snapshots c !! epoch = None →
   epoch_snapshots c' !! epoch = Some (snapshot_for_accounts c epoch (accounts (bc_state c))) ∧
   open_epoch c' h = c').
Proof.
  intros Ha h epoch. apply add_block_Err in Ha. fold h in Ha. split; [done|].
  intros Hs Hn. destruct (prepared_same c h) as (Ep&_).
  assert (epoch_snapshots c' !! epoch =
    Some (snapshot_for_accounts c epoch (accounts (bc_state c)))) as Hsn.
  { rewrite Ha. unfold prepared.
    destruct (settle_epoch_same (open_epoch c h) h) as (_&_&_&_&->&_).
    unfold open_epoch. fold epoch. rewrite Hs, Hn, bool_decide_eq_true_2 by done. simpl.
    apply lookup_insert_eq. }
  split; [done|]. unfold open_epoch. rewrite Ha, Ep, <- Ha. fold epoch.
  rewrite Hsn, bool_decide_eq_false_2 by done. by rewrite andb_false_r.
Qed.
End properties.

(** ** Witnesses *)

Section witnesses.
Import Demo.


Lemma chain_stays_linked_witness :
  chain_linked demo_after.2.
Proof.
  assert (chain_linked (demo_chain 30000 [])) as Hc.
  { split; [discriminate|]. intros [|[|i]] b; simpl; try discriminate.
    intros [= <-]. split; [exact eq_refl|]. intros p Hp. inversion Hp. }
  exact (proj2 (chain_stays_linked genesis_config_default demo_now demo_block)
    (demo_chain 30000 []) Hc eq_refl).
Defined.

(** The premises of the ledger theorems, at the demo block. *)
Lemma demo_block_run :
  validate_block_against_state demo_now (demo_chain 30000 []) demo_block demo_genesis
    (demo_state demo_ledger_accounts) =
  Ok (unwrap_or (demo_state ∅) (validate_block_against_state demo_now (demo_chain 30000 [])
        demo_block demo_genesis (demo_state demo_ledger_accounts))).
Proof. apply is_ok_unwrap. vm_compute. exact eq_refl. Qed.

Definition tx_ok (tx : Transaction) : bool :=
  negb (is_evm tx) &&
  forallb (λ z, (0 <=? z) && (z <=? u64_max))
    [tx_amount tx; tx_fee tx; tx_max_fee_per_gas tx; tx_max_priority_fee_per_gas tx;
     tx_nonce tx; tx_gas_limit tx].

Lemma demo_block_native :
  Forall (λ tx, is_evm tx = false ∧ tx_wf tx) (transactions demo_block).
Proof.
  assert (forallb tx_ok (transactions demo_block) = true) as Hb by (vm_compute; exact eq_refl).
  rewrite forallb_forall in Hb. apply Forall_forall. intros tx Htx.
  apply list_elem_of_In, Hb in Htx. unfold tx_ok in Htx. simpl in Htx. bool_to_prop.
  split; [done|]. unfold tx_wf, is_u64. lia.
Qed.

Lemma demo_ledger_wf : accounts_wf demo_ledger_accounts.
Proof.
  intros k a Hk. unfold demo_ledger_accounts in Hk.
  apply lookup_insert_Some in Hk as [[_ <-]|[_ Hk]];
    [|apply (lookup_singleton_Some (M:=gmap bytes)) in Hk as [_ <-]];
    (split; [simpl; u64_lia|split; [simpl; u64_lia|split; [simpl; u64_lia|constructor]]]).
Qed.

Lemma demo_ledger_supply : total_supply demo_ledger_accounts = 9005000.
Proof.
  unfold total_supply, demo_ledger_accounts. rewrite map_sum_insert_None.
  - rewrite <- insert_empty, map_sum_insert_None by apply lookup_empty. rewrite map_sum_empty.
    exact eq_refl.
  - apply lookup_singleton_None. vm_decide.
Qed.

Lemma demo_block_base_fee : base_fee_per_gas (header demo_block) = 1 ∧ gas_used (header demo_block) = 21000.
Proof. vm_compute. split; exact eq_refl. Qed.

Lemma block_supply_witness :
  let s := unwrap_or (demo_state ∅) (validate_block_against_state demo_now (demo_chain 30000 [])
             demo_block demo_genesis (demo_state demo_ledger_accounts)) in
  total_supply (accounts s) + gas_used (header demo_block) * base_fee_per_gas (header demo_block) +
    sumZ (destroyed_amount <$> transactions demo_block) =
  total_supply demo_ledger_accounts + 50.
Proof.
  intros s.
  refine (proj2 (block_supply demo_now (demo_chain 30000 []) demo_block demo_genesis
    (demo_state demo_ledger_accounts) s demo_block_run demo_block_native _ _ _ _ _ demo_ledger_wf _)).
  - rewrite demo_block_height. u64_lia.
  - split; discriminate.
  - rewrite (proj1 demo_block_base_fee). u64_lia.
  - exact eq_refl.
  - discriminate.
  - change (accounts (demo_state demo_ledger_accounts)) with demo_ledger_accounts.
    rewrite demo_ledger_supply. exact eq_refl.
Defined.

Lemma block_nonces_consecutive_witness :
  let s := unwrap_or (demo_state ∅) (validate_block_against_state demo_now (demo_chain 30000 [])
             demo_block demo_genesis (demo_state demo_ledger_accounts)) in
  nonce (get_account (accounts s) (demo_address 7)) =
    wrap64 (nonce (get_account demo_ledger_accounts (demo_address 7)) +
            Z.of_nat (length (nonces_of (demo_address 7) (transactions demo_block)))).
Proof.
  exact (proj2 (block_nonces_consecutive demo_now (demo_chain 30000 []) demo_block demo_genesis
    (demo_state demo_ledger_accounts) _ (demo_address 7) demo_block_run demo_block_native
    demo_ledger_wf)).
Defined.

(** A chain one block before the end of its second epoch (epochs of two
    blocks), whose one validator produced both blocks of it. *)
Definition demo_short_params : ChainParams :=
  params_of (mkGenesisConfig "c" "c" 50 1000 10 2 64 [] [] 30000 0 8).
Definition demo_old_block (h : Z) : Block :=
  mkBlock (mkHeader 5 h 0 [] [] [] 0 1 [x01] 0) [] [x02] None.
Definition demo_proposer : bytes := address_bytes_from_public_key [x01].
Definition demo_epoch_chain : Blockchain :=
  mkChain demo_short_params (demo_state {[ demo_proposer := demo_account 0 5000000 ]}) []
    (tree_from_genesis demo_genesis) tracker_new ∅
    {[ 1 := mkSnapshot 1 2 [mkValidator demo_proposer [x01] 5000000] 5000000 ]} ∅
    (demo_old_block <$> [0; 1; 2; 3]) ∅ ∅ ∅.

(** A block of height 4 with nothing else right. *)
Definition demo_bogus_block : Block := mkBlock (mkHeader 0 4 0 [] [] [] 0 0 [] 0) [] [] None.
Definition demo_reject (c : Blockchain) : Blockchain := (add_block demo_now demo_bogus_block c).2.

Lemma demo_reject_err :
  add_block demo_now demo_bogus_block demo_epoch_chain = (Err InvalidPrevHash, demo_reject demo_epoch_chain).
Proof.
  unfold demo_reject. rewrite (surjective_pairing (add_block _ _ _)) at 1. f_equal.
Qed.

(** Submitting the bogus block pays the proposer again and again. *)
Example demo_repeated_rewards :
  (λ c, get_balance (accounts (bc_state c)) demo_proposer) <$>
    [demo_epoch_chain; demo_reject demo_epoch_chain; demo_reject (demo_reject demo_epoch_chain)]
  = [0; 1000; 2000].
Proof. vm_compute. exact eq_refl. Qed.

Lemma rejected_block_leaves_trace_witness :
  epoch_snapshots (demo_reject demo_epoch_chain) !! 2 =
    Some (snapshot_for_accounts demo_epoch_chain 2 (accounts (bc_state demo_epoch_chain))).
Proof.
  exact (proj1 (proj2 (rejected_block_leaves_trace demo_now demo_bogus_block demo_epoch_chain
    (demo_reject demo_epoch_chain) InvalidPrevHash demo_reject_err) eq_refl eq_refl)).
Defined.

Definition demo_pool : list Transaction := [demo_payment 0; demo_payment 1].
Definition demo_overfull : result ChainError Block :=
  create_block demo_now demo_now (demo_chain 30000 demo_pool) (demo_keypair 1).
Definition demo_overfull_block : Block := unwrap_or demo_genesis demo_overfull.

Lemma demo_overfull_ok : is_ok demo_overfull = true.
Proof. vm_compute. exact eq_refl. Qed.

Lemma demo_overfull_nonces : tail (tx_nonce <$> transactions demo_overfull_block) = [0].
Proof. vm_compute. exact eq_refl. Qed.

Lemma demo_overfull_rejected :
  (add_block demo_now demo_overfull_block (demo_chain 30000 demo_pool)).1 = Err InvalidStateRoot.
Proof. vm_compute. exact eq_refl. Qed.

Lemma demo_pool_fits :
  forallb (λ tx, effective_gas_limit tx <=? 30000) demo_pool = true.
Proof. vm_compute. exact eq_refl. Qed.

(** A validator whose mempool holds more than one block of gas produces a block
    it rejects itself: the transaction that no longer fits is not in the block,
    but its effects are in the state root. *)
Theorem overfull_mempool_block_rejected :
  let pool := [demo_payment 0; demo_payment 1] in
  let c := demo_chain 30000 pool in
  forallb (λ tx, effective_gas_limit tx <=? 30000) pool = true ∧
  ∃ b, create_block demo_now demo_now c (demo_keypair 1) = Ok b ∧
    tail (tx_nonce <$> transactions b) = [0] ∧ (add_block demo_now b c).1 = Err InvalidStateRoot.
Proof.
  split; [exact demo_pool_fits|]. exists demo_overfull_block.
  exact (conj (is_ok_unwrap demo_overfull demo_genesis demo_overfull_ok)
    (conj demo_overfull_nonces demo_overfull_rejected)).
Qed.

(** Witnesses of the theorems of [Chain]. *)
Lemma primary_proposer_unique_witness :
  address_bytes_from_public_key [x01] = address_bytes_from_public_key [x01].
Proof.
  exact (primary_proposer_unique demo_epoch_chain ∅ (epoch_snapshots demo_epoch_chain)
    [x01] [x01] 2 [] (mkSnapshot 1 2 [mkValidator demo_proposer [x01] 5000000] 5000000)
    eq_refl ltac:(discriminate) eq_refl eq_refl).
Defined.

Definition demo_config : GenesisConfig :=
  mkGenesisConfig "c" "c" 50 1000 10 32 64
    [mkAllocation "0xab" 7 5000; mkAllocation "cd" 9 0] [] 30000 0 8.
Definition demo_config_chain : Blockchain :=
  unwrap_or (demo_chain 0 []) (from_genesis demo_config).

Lemma demo_config_ok : is_ok (from_genesis demo_config) = true.
Proof. vm_compute. exact eq_refl. Qed.

Lemma genesis_supply_witness : total_supply (accounts (bc_state demo_config_chain)) = 5016.
Proof.
  exact (proj1 (genesis_supply demo_config demo_config_chain
    (is_ok_unwrap (from_genesis demo_config) (demo_chain 0 []) demo_config_ok))).
Defined.
End witnesses.
