(* ===== verification/Mempool.v ===== *)
(** * The mempool ([src/core/chain/mempool.rs], [src/core/chain/estimate.rs])

    Admission, fee floors, ordering, pruning and eviction of pending
    transactions, and the estimation of a transaction. [slice::sort_by] is the
    parameter [RustSort]: the standard library leaves the result unspecified (or
    panics) when the comparator is not a total order, and the mempool's is not. *)
From S2P Require Import Prelude Hash Crypto Vm Transaction Token Governance Block Account.
From S2P Require Import Validators Finality Settlement BlockTree Trie StateRoot Chain Apply.
From S2P Require Import Ledger AddBlock.

Definition MAX_FUTURE_TX_TIME_SECS : Z := 30.
Definition MAX_PENDING_TX_AGE_SECS : Z := 15 * 60.
Definition MAX_PENDING_TRANSACTIONS : Z := 10000.
Definition RESERVED_SYSTEM_SLOTS : Z := 500.
Definition MAX_PENDING_TRANSACTIONS_USER : Z := MAX_PENDING_TRANSACTIONS - RESERVED_SYSTEM_SLOTS.
Definition MAX_PENDING_TRANSACTIONS_PER_ACCOUNT : Z := 64.
Definition MAX_PENDING_GAS_BUDGET_MULTIPLIER : Z := 8.
Definition MAX_PENDING_GAS_PER_ACCOUNT_MULTIPLIER : Z := 2.
Definition MAX_PENDING_NONCE_GAP : Z := 32.
Definition MIN_REPLACEMENT_FEE_BUMP_PCT : Z := 10.
Definition MIN_REPLACEMENT_PRIORITY_BUMP_PCT : Z := 25.
Definition MAX_CONTRACT_CODE_BYTES : Z := 256 * 1024.

Abbreviation pool := (list Transaction).

(** [slice::sort_by], stable and in place. *)
Class RustSort := {
  rust_sort_by : (Transaction → Transaction → comparison) → pool → pool;
  rust_sort_by_perm cmp l : rust_sort_by cmp l ≡ₚ l;
}.

(** [Ordering::then_with] and [Ordering::reverse]. *)
Definition then_with (c d : comparison) : comparison := match c with Eq => d | _ => c end.

(** ** Occupancy and fee floors *)

Definition pending_gas_budget (p : ChainParams) : Z :=
  saturating_mul (block_gas_limit p) MAX_PENDING_GAS_BUDGET_MULTIPLIER.

Definition pending_gas_usage (l : pool) : Z := sum64 (estimated_gas_for_admission <$> l).

Definition occupancy_pct (usage budget : Z) : Z := saturating_mul usage 100 / budget.

(** The step functions of the occupancy. *)
Definition congestion_floor (pct : Z) : Z :=
  if 95 <=? pct then 12 else if 85 <=? pct then 8 else if 70 <=? pct then 4
  else if 50 <=? pct then 2 else 0.
Definition admission_surcharge (pct : Z) : Z :=
  if 95 <=? pct then 8 else if 85 <=? pct then 4 else if 70 <=? pct then 2
  else if 50 <=? pct then 1 else 0.

Definition minimum_priority_fee_per_gas_for_usage (tx : Transaction) (usage budget : Z) : Z :=
  let gas_units := saturating_add (estimated_gas_for_admission tx) 249999 / 250000 in
  saturating_mul (congestion_floor (occupancy_pct usage budget)) (Z.max gas_units 1).

Definition minimum_priority_fee_per_gas (p : ChainParams) (l : pool) (tx : Transaction) : Z :=
  minimum_priority_fee_per_gas_for_usage tx (pending_gas_usage l) (Z.max (pending_gas_budget p) 1).

Definition minimum_admission_fee (p : ChainParams) (l : pool) (tx : Transaction) (base : Z) : Z :=
  let required_base := saturating_mul (effective_gas_limit tx) base in
  let required_priority :=
    saturating_mul (effective_gas_limit tx) (minimum_priority_fee_per_gas p l tx) in
  let surcharge := admission_surcharge
    (occupancy_pct (pending_gas_usage l) (Z.max (pending_gas_budget p) 1)) in
  if surcharge =? 0 then saturating_add required_base required_priority
  else
    let units := saturating_add (estimated_gas_for_admission tx) 99999 / 100000 in
    saturating_add (saturating_add required_base required_priority)
      (saturating_mul (Z.max units 1) surcharge).

(** ** Order *)

Definition priority_or_zero (tx : Transaction) (base : Z) : Z :=
  default 0 (priority_fee_per_gas tx base).

(** [compare_fee_priority]: by fee per gas in [u128], higher first. *)
Definition compare_fee_priority (a b : Transaction) (base : Z) : comparison :=
  let a_gas := Z.max (estimated_gas_for_admission a) 1 in
  let b_gas := Z.max (estimated_gas_for_admission b) 1 in
  then_with
    (Z.compare (saturating_mul128 (priority_or_zero b base) a_gas)
               (saturating_mul128 (priority_or_zero a base) b_gas))
    (Z.compare (max_fee_per_gas b) (max_fee_per_gas a)).

(** The comparator of [sort_pending_transactions]. *)
Definition pending_cmp (base : Z) (a b : Transaction) : comparison :=
  if bool_decide (tx_from a = tx_from b)
  then then_with (Z.compare (tx_nonce a) (tx_nonce b))
                 (Z.compare (max_fee_per_gas b) (max_fee_per_gas a))
  else
    match mempool_class a, mempool_class b with
    | System, User => Lt
    | User, System => Gt
    | _, _ =>
        then_with (compare_fee_priority a b base)
          (then_with (Z.compare (tx_timestamp a) (tx_timestamp b))
                     (Z.compare (max_fee_per_gas b) (max_fee_per_gas a)))
    end.

(** The comparator of [worst_pending_transaction_index_in_class]. *)
Definition eviction_cmp (base : Z) (a b : Transaction) : comparison :=
  if bool_decide (tx_from a = tx_from b)
  then then_with (Z.compare (tx_nonce b) (tx_nonce a))
                 (Z.compare (max_fee_per_gas a) (max_fee_per_gas b))
  else CompOpp (compare_fee_priority a b base).

(** [Iterator::min_by]: the first of the minima. *)
Definition min_by {A} (cmp : A → A → comparison) (l : list A) : option A :=
  match l with
  | [] => None
  | x :: l => Some (foldl (λ x y, match cmp x y with Gt => y | _ => x end) x l)
  end.

(** ** Eviction *)

Definition count_class (class : MempoolClass) (l : pool) : Z :=
  Z.of_nat (length (filter (λ tx, mempool_class tx = class) l)).

(** [count_pending_by_class]. *)
Definition count_pending_by_class (l : pool) : Z * Z := (count_class System l, count_class User l).

Definition worst_pending_transaction_index_in_class (base : Z) (class : MempoolClass) (l : pool)
    : option nat :=
  fst <$> min_by (λ a b, eviction_cmp base a.2 b.2)
            (filter (λ itx, mempool_class itx.2 = class) (imap pair l)).

Definition evict_transaction_and_dependents (index : nat) (l : pool) : pool :=
  match l !! index with
  | None => l
  | Some evicted =>
      filter (λ pending, ¬ (tx_from pending = tx_from evicted ∧ tx_nonce evicted < tx_nonce pending))
        (delete index l)
  end.

(** The test at the top of the loop of [enforce_mempool_limits]. *)
Definition over_gas (p : ChainParams) (l : pool) : bool :=
  pending_gas_budget p <? pending_gas_usage l.
Definition over_limits (p : ChainParams) (l : pool) : bool :=
  (MAX_PENDING_TRANSACTIONS_USER <? count_class User l) ||
  (RESERVED_SYSTEM_SLOTS <? count_class System l) || over_gas p l.

Definition eviction_candidate (base : Z) (l : pool) : option nat :=
  match worst_pending_transaction_index_in_class base User l with
  | Some i => Some i
  | None => worst_pending_transaction_index_in_class base System l
  end.

Section mempool.
Context `{Sha3} `{MlDsa} `{EvmEngine} `{WasmEngine} `{RustSort} `{!Bincode SignableTransaction}
  `{!Bincode ProposalKind} `{!Json DeployTokenParams} `{!Json TokenTransferParams}
  `{!Json TokenApproveParams} `{!Json TokenTransferFromParams} `{!Json SubmitProposalParams}
  `{!Json GovernanceVoteParams}.

(** The loop of [enforce_mempool_limits], [fuel] iterations; [None] when the
    fuel runs out. The pool is as the loop leaves it, on errors too. *)
Fixpoint enforce_loop (fuel : nat) (p : ChainParams) (base : Z) (protected_hash : bytes) (l : pool)
    : option (result ChainError () * pool) :=
  match fuel with
  | O => None
  | S fuel =>
      if negb (over_limits p l) then Some (Ok (), l)
      else
        match eviction_candidate base l with
        | None => Some (Ok (), l)
        | Some index =>
            if bool_decide (tx_hash <$> l !! index = Some protected_hash)
            then Some (Err (if over_gas p l then FeeTooLow else MempoolFull), l)
            else enforce_loop fuel p base protected_hash (evict_transaction_and_dependents index l)
        end
  end.

(** [enforce_mempool_limits]: every iteration evicts, so one more iteration
    than there are transactions is enough. *)
Definition enforce_mempool_limits (p : ChainParams) (base : Z) (protected_hash : bytes) (l : pool)
    : result ChainError () * pool :=
  default (Err Panic, l) (enforce_loop (S (length l)) p base protected_hash l).

(** ** Sorting and pruning *)

Definition sort_pending_transactions (base : Z) (l : pool) : pool :=
  rust_sort_by (pending_cmp base) l.

Definition stays_pending (now : Z) (p : ChainParams) (base usage : Z) (tx : Transaction) : bool :=
  (now - MAX_PENDING_TX_AGE_SECS <=? tx_timestamp tx) && (base <=? max_fee_per_gas tx) &&
  (minimum_priority_fee_per_gas_for_usage tx usage (Z.max (pending_gas_budget p) 1) <=?
   priority_or_zero tx base).

Definition prune_pending_transactions (now : Z) (p : ChainParams) (base : Z) (l : pool) : pool :=
  sort_pending_transactions base
    (filter (λ tx, stays_pending now p base (pending_gas_usage l) tx = true) l).

(** ** Admission *)

Definition same_slot (tx pending : Transaction) : Prop :=
  tx_from pending = tx_from tx ∧ tx_nonce pending = tx_nonce tx.

(** [iter().position(..)] of the pending transaction [tx] would replace. *)
Definition replacement_index (tx : Transaction) (l : pool) : option nat :=
  fst <$> list_find (same_slot tx) l.

Definition pending_base_fee (c : Blockchain) : Z :=
  next_base_fee_per_gas (bc_params c) (latest_block c).

(** The checks of [add_transaction] on the transaction alone and the fees. *)
Definition check_admissible (now : Z) (c : Blockchain) (l : pool) (tx : Transaction)
    : result ChainError () :=
  let p := bc_params c in
  let base := pending_base_fee c in
  let floor := nonce (get_account (accounts (bc_state c)) (tx_from tx)) in
  if is_coinbase tx then format_error "coinbase transactions cannot enter the mempool"
  else if negb (bool_decide (tx_chain_id tx = gc_chain_id (genesis_config p)))
  then Err (InvalidChainId (gc_chain_id (genesis_config p)) (tx_chain_id tx))
  else if now + MAX_FUTURE_TX_TIME_SECS <? tx_timestamp tx
  then format_error "transaction timestamp too far in the future"
  else if block_gas_limit p <? estimated_gas_for_admission tx
  then format_error "transaction gas limit exceeds block gas limit"
  else if bool_decide (tx_kind tx = DeployContract) &&
          (MAX_CONTRACT_CODE_BYTES <? Z.of_nat (length (tx_to tx)))
  then format_error "deploy contract: wasm code exceeds 256 KB limit"
  else if max_fee_per_gas tx <? base then Err FeeTooLow
  else if priority_or_zero tx base <? minimum_priority_fee_per_gas p l tx then Err FeeTooLow
  else if total_fee_cap tx <? minimum_admission_fee p l tx base then Err FeeTooLow
  else if tx_nonce tx <? floor
  then format_error "transaction nonce below account nonce (stale transaction)"
  else if saturating_add floor MAX_PENDING_NONCE_GAP <? tx_nonce tx
  then format_error "transaction nonce gap too large for mempool admission"
  else Ok ().

(** The capacity checks, for a transaction that replaces none. *)
Definition check_capacity (p : ChainParams) (l : pool) (tx : Transaction) : result ChainError () :=
  let mine := filter (λ pending, tx_from pending = tx_from tx) l in
  let class_full :=
    match mempool_class tx with
    | System => RESERVED_SYSTEM_SLOTS <=? count_class System l
    | User => MAX_PENDING_TRANSACTIONS_USER <=? count_class User l
    end in
  if class_full then Err MempoolFull
  else if MAX_PENDING_TRANSACTIONS_PER_ACCOUNT <=? Z.of_nat (length mine) then Err MempoolFull
  else if saturating_mul (block_gas_limit p) MAX_PENDING_GAS_PER_ACCOUNT_MULTIPLIER <?
          saturating_add (pending_gas_usage mine) (estimated_gas_for_admission tx)
  then Err MempoolFull
  else Ok ().

(** A value raised by a percentage, by at least 1. *)
Definition bumped (x pct : Z) : Z :=
  Z.max (saturating_add x (saturating_mul x pct / 100)) (saturating_add x 1).

Definition check_replacement (base : Z) (existing tx : Transaction) : result ChainError () :=
  if (total_fee_cap tx <? bumped (total_fee_cap existing) MIN_REPLACEMENT_FEE_BUMP_PCT) ||
     (max_fee_per_gas tx <? bumped (max_fee_per_gas existing) MIN_REPLACEMENT_FEE_BUMP_PCT) ||
     (priority_or_zero tx base <?
        bumped (priority_or_zero existing base) MIN_REPLACEMENT_PRIORITY_BUMP_PCT)
  then Err ReplacementFeeTooLow else Ok ().

(** The dry run of the pool, without the transaction at index [skip]. *)
Fixpoint dry_run (c : Blockchain) (base : Z) (skip : option nat) (index : nat) (l : pool)
    (seen : gset bytes) : stM BlockExecution ChainError () :=
  match l with
  | [] => mret ()
  | pending :: l =>
      if bool_decide (skip = Some index) then dry_run c base skip (S index) l seen
      else
        _ ← st_guard (negb (bool_decide (tx_hash pending ∈ seen))) DuplicateTransaction;
        _ ← apply_user c (add64 (chain_height c) 1) base pending;
        dry_run c base skip (S index) l ({[tx_hash pending]} ∪ seen)
  end.

Definition insert_pending (replaced : option nat) (tx : Transaction) (l : pool) : pool :=
  match replaced with
  | Some i => <[i := tx]> l
  | None => l ++ [tx]
  end.

(** [find(..).map(hash).unwrap_or_default()]. *)
Definition hash_in_slot (tx : Transaction) (l : pool) : bytes :=
  from_option (λ itx, tx_hash itx.2) [] (list_find (same_slot tx) l).

(** The read-only part of [add_transaction], after the pruning: which pending
    transaction is replaced, if any. *)
Definition admission (now : Z) (c : Blockchain) (tx : Transaction) : result ChainError (option nat) :=
  let p := bc_params c in
  let base := pending_base_fee c in
  let l := pending_transactions c in
  _ ← check_admissible now c l tx;
  let replaced := replacement_index tx l in
  _ ← (if bool_decide (replaced = None) then check_capacity p l tx else Ok ());
  _ ← (if existsb (λ pending, bool_decide (tx_hash pending = tx_hash tx)) l
       then Err DuplicateTransaction else Ok ());
  _ ← match replaced ≫= (λ i, l !! i) with
      | Some existing => check_replacement base existing tx
      | None => Ok ()
      end;
  _ ← ((_ ← dry_run c base replaced 0 l ∅;
        apply_user c (add64 (chain_height c) 1) base tx) (set_receipts ∅ (bc_state c))).1;
  Ok replaced.

(** [add_transaction]. *)
Definition add_transaction (now : Z) (tx : Transaction) : stM Blockchain ChainError () :=
  _ ← st_modify (λ c, set_pool (prune_pending_transactions now (bc_params c) (pending_base_fee c)
                                  (pending_transactions c)) c);
  c ← st_get;
  replaced ← st_lift (admission now c tx);
  let l := insert_pending replaced tx (pending_transactions c) in
  let '(r, l) := enforce_mempool_limits (bc_params c) (pending_base_fee c) (hash_in_slot tx l) l in
  _ ← st_modify (set_pool l);
  _ ← st_lift r;
  st_modify (λ c, set_pool (sort_pending_transactions (pending_base_fee c)
                              (pending_transactions c)) c).

(** ** Estimation *)

Record TransactionEstimate := mkEstimate {
  te_next_block_height : Z;
  te_base_fee_per_gas : Z;
  te_gas_used : Z;
  te_effective_gas_price : Z;
  te_priority_fee_paid : Z;
  te_base_fee_burned : Z;
  te_total_fee_charged : Z;
  te_gas_refunded : Z;
  te_max_total_fee : Z;
  te_would_replace_pending : bool;
}.

(** The projection of [estimate_transaction]: duplicates are skipped. *)
Fixpoint estimate_run (c : Blockchain) (base : Z) (skip : option nat) (index : nat) (l : pool)
    (seen : gset bytes) : stM BlockExecution ChainError () :=
  match l with
  | [] => mret ()
  | pending :: l =>
      if bool_decide (skip = Some index) then estimate_run c base skip (S index) l seen
      else if bool_decide (tx_hash pending ∈ seen) then estimate_run c base skip (S index) l seen
      else
        _ ← apply_user c (add64 (chain_height c) 1) base pending;
        estimate_run c base skip (S index) l ({[tx_hash pending]} ∪ seen)
  end.

Definition estimate_transaction (c : Blockchain) (tx : Transaction)
    : result ChainError TransactionEstimate :=
  let chain_id := gc_chain_id (genesis_config (bc_params c)) in
  let base := pending_base_fee c in
  let replaced := replacement_index tx (pending_transactions c) in
  if is_coinbase tx then format_error "coinbase transactions cannot be estimated"
  else if negb (bool_decide (tx_chain_id tx = chain_id))
  then Err (InvalidChainId chain_id (tx_chain_id tx))
  else
    gas ← ((_ ← estimate_run c base replaced 0 (pending_transactions c) ∅;
            apply_user c (add64 (chain_height c) 1) base tx) (set_receipts ∅ (bc_state c))).1;
    price ← ok_or FeeTooLow (effective_gas_price tx base);
    let charged := saturating_mul gas price in
    Ok (mkEstimate (add64 (chain_height c) 1) base gas price
          (priority_fee_for_transaction tx gas base) (saturating_mul gas base) charged
          (saturating_sub (total_fee_cap tx) charged) (total_fee_cap tx)
          (bool_decide (is_Some replaced))).
End mempool.
