(* ===== verification/MempoolSafety.v ===== *)
(** * What the mempool guarantees

    Eviction terminates within its fuel and restores the limits; admission keeps
    one transaction per sender and nonce; replacements pay more. Then the gaps
    between the code and its comments: a rejected transaction can stay in the
    pool, system transactions can be evicted, and the order is cyclic. *)
From S2P Require Import Prelude Hash Crypto Vm Transaction Token Governance Block Account.
From S2P Require Import Validators Finality Settlement BlockTree Trie StateRoot Chain Apply.
From S2P Require Import Ledger AddBlock ChainSafety Mempool.

(** ** Eviction *)

Lemma min_by_elem {A} (cmp : A → A → comparison) l x : min_by cmp l = Some x → x ∈ l.
Proof.
  destruct l as [|y l]; [done|]. simpl. intros [= <-].
  assert (∀ z, z ∈ y :: l → foldl (λ x y, match cmp x y with Gt => y | _ => x end) z l ∈ y :: l)
    as Hf; [|apply Hf; left].
  assert (∀ k z, z ∈ y :: l → k ⊆ l →
    foldl (λ x y, match cmp x y with Gt => y | _ => x end) z k ∈ y :: l) as Hf;
    [|intros z Hz; by apply Hf].
  induction k as [|w k IH]; intros z Hz Hk; simpl; [done|].
  apply IH; [|set_solver]. destruct (cmp z w); set_solver.
Qed.

Lemma min_by_None {A} (cmp : A → A → comparison) l : min_by cmp l = None → l = [].
Proof. by destruct l. Qed.

Lemma worst_index_Some base class l i :
  worst_pending_transaction_index_in_class base class l = Some i →
  ∃ tx, l !! i = Some tx ∧ mempool_class tx = class.
Proof.
  unfold worst_pending_transaction_index_in_class. intros ([j tx]&Hm&->)%fmap_Some.
  apply min_by_elem, list_elem_of_filter in Hm as [Hc Hi]. apply elem_of_imap_pair in Hi.
  by exists tx.
Qed.

Lemma worst_index_None base class l :
  worst_pending_transaction_index_in_class base class l = None →
  ∀ tx, tx ∈ l → mempool_class tx ≠ class.
Proof.
  unfold worst_pending_transaction_index_in_class. intros Hm%fmap_None%min_by_None tx Htx Hc.
  apply list_elem_of_lookup in Htx as [i Hi].
  assert ((i, tx) ∈ filter (λ itx : nat * Transaction, mempool_class itx.2 = class) (imap pair l)) as Hin
    by (apply list_elem_of_filter; split; [done|by apply elem_of_imap_pair]).
  rewrite Hm in Hin. by apply elem_of_nil in Hin.
Qed.

(** As long as there is a User transaction, the candidate is one. *)
Lemma eviction_candidate_Some base l i :
  eviction_candidate base l = Some i →
  ∃ tx, l !! i = Some tx ∧ (mempool_class tx = System → ∀ u, u ∈ l → mempool_class u = System).
Proof.
  unfold eviction_candidate.
  destruct (worst_pending_transaction_index_in_class base User l) eqn:E.
  - intros [= <-]. apply worst_index_Some in E as (tx&Ht&Hc). exists tx. split; [done|congruence].
  - intros (tx&Ht&Hc)%worst_index_Some. exists tx. split; [done|]. intros _ u Hu.
    pose proof (worst_index_None _ _ _ E u Hu). by destruct (mempool_class u).
Qed.

Lemma eviction_candidate_None base l : eviction_candidate base l = None → l = [].
Proof.
  unfold eviction_candidate. case_match eqn:E; [done|]. intros E'.
  destruct l as [|tx l]; [done|].
  pose proof (worst_index_None _ _ _ E tx (list_elem_of_here _ _)).
  pose proof (worst_index_None _ _ _ E' tx (list_elem_of_here _ _)).
  by destruct (mempool_class tx).
Qed.

Lemma evict_sublist i l : evict_transaction_and_dependents i l `sublist_of` l.
Proof.
  unfold evict_transaction_and_dependents. case_match; [|done].
  etrans; [apply sublist_filter|apply sublist_delete].
Qed.

Lemma evict_shorter i l tx :
  l !! i = Some tx → (length (evict_transaction_and_dependents i l) < length l)%nat.
Proof.
  intros Hi. unfold evict_transaction_and_dependents. rewrite Hi.
  pose proof (lookup_lt_Some _ _ _ Hi).
  eapply Nat.le_lt_trans; [apply length_filter|]. rewrite length_delete by done. lia.
Qed.

Lemma over_limits_nil p : 0 ≤ block_gas_limit p → over_limits p [] = false.
Proof.
  intros Hp. unfold over_limits, over_gas, pending_gas_budget, pending_gas_usage, count_class.
  simpl. unfold saturating_mul, MAX_PENDING_GAS_BUDGET_MULTIPLIER, u64_max, sum64. simpl.
  rewrite (proj2 (Z.ltb_ge _ _)); [done|lia].
Qed.

Section enforcement.
Context `{Sha3} `{MlDsa} `{EvmEngine} `{WasmEngine} `{RustSort} `{!Bincode SignableTransaction}
  `{!Bincode ProposalKind} `{!Json DeployTokenParams} `{!Json TokenTransferParams}
  `{!Json TokenApproveParams} `{!Json TokenTransferFromParams} `{!Json SubmitProposalParams}
  `{!Json GovernanceVoteParams}.

(** The loop ends within its fuel, removes transactions only, and stops either
    within the limits or at the protected transaction. *)
Lemma enforce_loop_spec p base h fuel l :
  0 ≤ block_gas_limit p → (length l < fuel)%nat →
  ∃ r l', enforce_loop fuel p base h l = Some (r, l') ∧ l' `sublist_of` l ∧
    match r with
    | Ok _ => over_limits p l' = false
    | Err e => over_limits p l' = true ∧ e = (if over_gas p l' then FeeTooLow else MempoolFull) ∧
        ∃ tx, tx ∈ l' ∧ tx_hash tx = h
    end.
Proof.
  intros Hp. revert l. induction fuel as [|fuel IH]; intros l Hf; [lia|]. simpl.
  destruct (over_limits p l) eqn:Eo; simpl; [|by exists (Ok ()), l].
  destruct (eviction_candidate base l) as [i|] eqn:Ec.
  - destruct (eviction_candidate_Some base l i Ec) as (tx&Hi&_). case_bool_decide as Hh.
    + exists (Err (if over_gas p l then FeeTooLow else MempoolFull)), l.
      split; [done|]. split; [done|]. split; [done|]. split; [done|].
      exists tx. split; [by eapply list_elem_of_lookup_2|]. rewrite Hi in Hh. by injection Hh.
    + pose proof (evict_shorter i l tx Hi).
      destruct (IH (evict_transaction_and_dependents i l)) as (r&l'&->&Hsub&Hr); [lia|].
      exists r, l'. split; [done|]. split; [|done]. etrans; [done|apply evict_sublist].
  - apply eviction_candidate_None in Ec as ->. by rewrite over_limits_nil in Eo.
Qed.

Lemma enforce_spec p base h l r l' :
  0 ≤ block_gas_limit p → enforce_mempool_limits p base h l = (r, l') →
  l' `sublist_of` l ∧
  match r with
  | Ok _ => over_limits p l' = false
  | Err e => over_limits p l' = true ∧ e ≠ Panic ∧ ∃ tx, tx ∈ l' ∧ tx_hash tx = h
  end.
Proof.
  intros Hp He. unfold enforce_mempool_limits in He.
  destruct (enforce_loop_spec p base h (S (length l)) l Hp) as (r'&l2&E&Hsub&Hr); [lia|].
  rewrite E in He. simpl in He. injection He as <- <-. split; [done|].
  destruct r' as [|e]; [done|]. destruct Hr as (?&->&?). split; [done|]. split; [|done].
  by case_match.
Qed.

(** ** Slots: one transaction per sender and nonce *)

Definition slot (tx : Transaction) : bytes * Z := (tx_from tx, tx_nonce tx).
Definition slots_unique (l : pool) : Prop := NoDup (slot <$> l).

Lemma same_slot_slot tx x : same_slot tx x ↔ slot x = slot tx.
Proof. unfold same_slot, slot. split; [intros [-> ->]; done|by intros [= -> ->]]. Qed.

Lemma slots_unique_sublist l l' : l' `sublist_of` l → slots_unique l → slots_unique l'.
Proof. intros Hs Hl. unfold slots_unique in *. eapply sublist_NoDup; [exact Hl|by apply fmap_sublist]. Qed.

#[global] Instance slots_unique_perm : Proper ((≡ₚ) ==> iff) slots_unique.
Proof. intros l k Hp. unfold slots_unique. by rewrite Hp. Qed.

#[global] Instance count_class_perm class : Proper ((≡ₚ) ==> (=)) (count_class class).
Proof. intros l k Hp. unfold count_class. by rewrite Hp. Qed.

#[global] Instance pending_gas_usage_perm : Proper ((≡ₚ) ==> (=)) pending_gas_usage.
Proof. intros l k Hp. unfold pending_gas_usage. by rewrite Hp. Qed.

#[global] Instance over_limits_perm p : Proper ((≡ₚ) ==> (=)) (over_limits p).
Proof. intros l k Hp. unfold over_limits, over_gas. by rewrite Hp. Qed.

Lemma prune_perm now p base l :
  prune_pending_transactions now p base l ≡ₚ
    filter (λ tx, stays_pending now p base (pending_gas_usage l) tx = true) l.
Proof. apply rust_sort_by_perm. Qed.

Lemma prune_slots now p base l :
  slots_unique l → slots_unique (prune_pending_transactions now p base l).
Proof.
  intros Hl. rewrite prune_perm. by eapply slots_unique_sublist, Hl; apply sublist_filter.
Qed.

(** The slot the transaction takes in the pool. *)
Lemma replacement_index_Some tx l i :
  replacement_index tx l = Some i → ∃ x, l !! i = Some x ∧ slot x = slot tx.
Proof.
  unfold replacement_index. intros ([j x]&Hf&->)%fmap_Some.
  apply list_find_Some in Hf as (Hi&Hs&_). exists x. by rewrite <- same_slot_slot.
Qed.

Lemma replacement_index_None tx l : replacement_index tx l = None → slot tx ∉ slot <$> l.
Proof.
  unfold replacement_index. intros Hn%fmap_None Hin.
  apply list_elem_of_fmap in Hin as (x&Hs&Hx).
  apply list_find_None in Hn. rewrite Forall_forall in Hn.
  apply (Hn x Hx). by apply same_slot_slot.
Qed.

Lemma insert_pending_slots tx l :
  slots_unique l → slots_unique (insert_pending (replacement_index tx l) tx l).
Proof.
  intros Hl. unfold insert_pending, slots_unique.
  destruct (replacement_index tx l) as [i|] eqn:E.
  - apply replacement_index_Some in E as (x&Hi&Hs).
    rewrite list_fmap_insert, <- Hs, list_insert_id; [done|]. by rewrite list_lookup_fmap, Hi.
  - apply replacement_index_None in E. rewrite fmap_app. apply NoDup_app. split; [done|].
    split; [|apply NoDup_singleton].
    intros x Hx Hin. apply list_elem_of_singleton in Hin as ->. done.
Qed.

Lemma insert_pending_elem r tx l x : x ∈ insert_pending r tx l → x = tx ∨ x ∈ l.
Proof.
  unfold insert_pending. destruct r as [i|].
  - intros [j Hj]%list_elem_of_lookup.
    apply list_lookup_insert_Some in Hj as [(_&->&_)|[_ Hj]]; [by left|].
    right. by eapply list_elem_of_lookup_2.
  - rewrite elem_of_app, list_elem_of_singleton. tauto.
Qed.

Lemma hash_in_slot_unique tx l :
  slots_unique l → tx ∈ l → hash_in_slot tx l = tx_hash tx.
Proof.
  intros Hl Hin. unfold hash_in_slot.
  destruct (list_find (same_slot tx) l) as [[i x]|] eqn:E; simpl.
  - apply list_find_Some in E as (Hi&Hs%same_slot_slot&_).
    apply list_elem_of_lookup in Hin as [j Hj]. unfold slots_unique in Hl.
    assert (i = j) as ->; [|congruence].
    eapply (NoDup_lookup (slot <$> l) i j (slot tx)); [done|..];
      rewrite list_lookup_fmap, ?Hi, ?Hj; simpl; congruence.
  - apply list_find_None in E. rewrite Forall_forall in E.
    exfalso. apply (E tx Hin). by apply same_slot_slot.
Qed.

Lemma insert_pending_mem tx l : tx ∈ insert_pending (replacement_index tx l) tx l.
Proof.
  unfold insert_pending. destruct (replacement_index tx l) as [i|] eqn:E.
  - apply replacement_index_Some in E as (x&Hi&_). eapply list_elem_of_lookup_2.
    apply list_lookup_insert_eq. by eapply lookup_lt_Some.
  - apply elem_of_app. right. by apply list_elem_of_singleton.
Qed.

(** ** Admission *)

Definition pruned (now : Z) (c : Blockchain) : pool :=
  prune_pending_transactions now (bc_params c) (pending_base_fee c) (pending_transactions c).

Lemma admit_Ok now c tx rep :
  admission now c tx = Ok rep →
  rep = replacement_index tx (pending_transactions c) ∧
  check_admissible now c (pending_transactions c) tx = Ok () ∧
  (∀ i x, rep = Some i → pending_transactions c !! i = Some x →
     check_replacement (pending_base_fee c) x tx = Ok ()) ∧
  (rep = None → check_capacity (bc_params c) (pending_transactions c) tx = Ok ()) ∧
  verify_signature tx = true.
Proof.
  unfold admission. intros Ha. cbv zeta in Ha.
  apply result_bind_Ok in Ha as ([]&Hc&Ha). apply result_bind_Ok in Ha as ([]&Hcap&Ha).
  apply result_bind_Ok in Ha as (?&_&Ha). apply result_bind_Ok in Ha as (?&Hr&Ha).
  apply result_bind_Ok in Ha as (g&Hd&Ha). injection Ha as <-.
  split; [done|]. split; [done|]. split; [|split].
  - intros i y Ei Hy. rewrite Ei in Hr. simpl in Hr. rewrite Hy in Hr.
    by destruct (check_replacement _ _ _) as [[]|].
  - intros Hn. by rewrite bool_decide_eq_true_2 in Hcap by done.
  - destruct (mbind (M:=stM BlockExecution ChainError) _ _ _) as [r s2] eqn:El in Hd.
    simpl in Hd. subst r. apply st_bind_Ok in El as (?&s1&_&Hu). unfold apply_user in Hu.
    apply apply_user_Ok in Hu as (?&?&?&?&Hau&_). unfold check_authenticity in Hau.
    apply result_bind_Ok in Hau as (?&_&Hau). by destruct (verify_signature tx).
Qed.

Lemma add_transaction_cases now tx c r c' :
  add_transaction now tx c = (r, c') →
  let l0 := pruned now c in
  let base := pending_base_fee c in
  (∃ e, admission now (set_pool l0 c) tx = Err e ∧ r = Err e ∧ c' = set_pool l0 c) ∨
  (∃ r1 l1, let l := insert_pending (replacement_index tx l0) tx l0 in
     admission now (set_pool l0 c) tx = Ok (replacement_index tx l0) ∧
     enforce_mempool_limits (bc_params c) base (hash_in_slot tx l) l = (r1, l1) ∧
     match r1 with
     | Err e => r = Err e ∧ c' = set_pool l1 c
     | Ok _ => r = Ok () ∧ c' = set_pool (sort_pending_transactions base l1) c
     end).
Proof.
  intros Ha l0 base. cbv [add_transaction mbind stM_bind st_modify st_get st_lift] in Ha.
  change (prune_pending_transactions _ _ _ _) with l0 in Ha.
  destruct (admission now (set_pool l0 c) tx) as [rep|e] eqn:Ead; [right|left; naive_solver].
  destruct (admit_Ok _ _ _ _ Ead) as [-> _].
  change (pending_base_fee (set_pool l0 c)) with base in Ha.
  destruct (enforce_mempool_limits _ _ _ _) as [r1 l1] eqn:Een in Ha.
  exists r1, l1. split; [done|]. split; [exact Een|].
  destruct r1 as [[]|e]; by injection Ha as <- <-.
Qed.
End enforcement.

Lemma bumped_le x y pct :
  bumped x pct ≤ y →
  Z.min (x + 1) u64_max ≤ y ∧ Z.min (x + Z.min (x * pct) u64_max / 100) u64_max ≤ y.
Proof. unfold bumped, saturating_add, saturating_mul. lia. Qed.

(** ** Properties *)

Section properties.
Context `{Sha3} `{MlDsa} `{EvmEngine} `{WasmEngine} `{RustSort} `{!Bincode SignableTransaction}
  `{!Bincode ProposalKind} `{!Json DeployTokenParams} `{!Json TokenTransferParams}
  `{!Json TokenApproveParams} `{!Json TokenTransferFromParams} `{!Json SubmitProposalParams}
  `{!Json GovernanceVoteParams}.


(** What an admission does to the pool. *)
Lemma add_transaction_pool (now : Z) (tx : Transaction) (c c' : Blockchain)
    (r : result ChainError ()) :
  add_transaction now tx c = (r, c') → 0 ≤ block_gas_limit (bc_params c) →
  slots_unique (pending_transactions c) →
  c' = set_pool (pending_transactions c') c ∧ slots_unique (pending_transactions c') ∧
  (∀ x, x ∈ pending_transactions c' → x = tx ∨ x ∈ pending_transactions c) ∧
  (r = Ok () → over_limits (bc_params c) (pending_transactions c') = false).
Proof.
  intros Ha Hp Hl. apply (prune_slots now (bc_params c) (pending_base_fee c)) in Hl as Hl0.
  fold (pruned now c) in Hl0.
  assert (∀ x, x ∈ pruned now c → x ∈ pending_transactions c) as Hin.
  { intros x Hx. unfold pruned in Hx. rewrite prune_perm in Hx.
    by apply list_elem_of_filter in Hx as [_ ?]. }
  apply add_transaction_cases in Ha as [(e&_&->&->)|(r1&l1&_&He&Hr)].
  { split; [done|]. split; [done|]. split; [by auto|done]. }
  apply enforce_spec in He as [Hsub He]; [|done].
  assert (slots_unique l1) as Hl1
    by (eapply slots_unique_sublist; [exact Hsub|by apply insert_pending_slots]).
  assert (∀ x, x ∈ l1 → x = tx ∨ x ∈ pending_transactions c) as Hin1.
  { intros x Hx. eapply sublist_subseteq, insert_pending_elem in Hx; [|done]. naive_solver. }
  destruct r1 as [u|e]; destruct Hr as [-> ->]; simpl; (split; [done|]).
  - split; [by unfold sort_pending_transactions; rewrite rust_sort_by_perm|].
    split; [|intros _; by unfold sort_pending_transactions; rewrite rust_sort_by_perm].
    intros x Hx. unfold sort_pending_transactions in Hx. rewrite rust_sort_by_perm in Hx. auto.
  - done.
Qed.


(** What an admitted transaction satisfied: it is authentic, for this chain, not
    from the future, fits a block, covers the next base fee and every fee floor,
    and its nonce is within the window above the sender's. *)
Theorem admitted_transaction_checked (now : Z) (tx : Transaction) (c c' : Blockchain) :
  add_transaction now tx c = (Ok (), c') →
  let p := bc_params c in
  let base := pending_base_fee c in
  let floor := nonce (get_account (accounts (bc_state c)) (tx_from tx)) in
  verify_signature tx = true ∧ is_coinbase tx = false ∧
  tx_chain_id tx = gc_chain_id (genesis_config p) ∧
  tx_timestamp tx ≤ now + MAX_FUTURE_TX_TIME_SECS ∧
  estimated_gas_for_admission tx ≤ block_gas_limit p ∧ base ≤ max_fee_per_gas tx ∧
  minimum_priority_fee_per_gas p (pruned now c) tx ≤ priority_or_zero tx base ∧
  minimum_admission_fee p (pruned now c) tx base ≤ total_fee_cap tx ∧
  floor ≤ tx_nonce tx ≤ saturating_add floor MAX_PENDING_NONCE_GAP.
Proof.
  intros Ha. cbv zeta. apply add_transaction_cases in Ha as [(e&_&?&_)|(r1&l1&Had&_)]; [done|].
  apply admit_Ok in Had as (_&Hc&_&_&Hv). unfold check_admissible in Hc. cbv zeta in Hc. simpl in Hc.
  repeat (case_match; [done|]). bool_to_prop. split_and!; done || lia.
Qed.

(** A replacement pays more. A transaction admitted in the slot of a pending one
    raises its total fee cap and fee cap per gas by a tenth and its priority fee
    by a quarter, and each by at least 1, unless the value would exceed 64 bits. *)
Theorem replacement_pays_more (now : Z) (tx old : Transaction) (c c' : Blockchain) :
  add_transaction now tx c = (Ok (), c') → slots_unique (pending_transactions c) →
  old ∈ pruned now c → slot old = slot tx →
  let base := pending_base_fee c in
  let raised x y pct :=
    Z.min (x + 1) u64_max ≤ y ∧ Z.min (x + Z.min (x * pct) u64_max / 100) u64_max ≤ y in
  raised (total_fee_cap old) (total_fee_cap tx) 10 ∧
  raised (max_fee_per_gas old) (max_fee_per_gas tx) 10 ∧
  raised (priority_or_zero old base) (priority_or_zero tx base) 25.
Proof.
  intros Ha Hl Hold Hs base raised.
  apply (prune_slots now (bc_params c) (pending_base_fee c)) in Hl. fold (pruned now c) in Hl.
  apply add_transaction_cases in Ha as [(e&_&?&_)|(r1&l1&Had&_)]; [done|].
  apply admit_Ok in Had as (_&_&Hr&_). simpl in Hr.
  destruct (replacement_index tx (pruned now c)) as [i|] eqn:Ei.
  - destruct (replacement_index_Some _ _ _ Ei) as (x&Hx&Hsx).
    assert (x = old) as ->.
    { apply list_elem_of_lookup in Hold as [j Hj].
      assert (i = j) as ->; [|congruence].
      eapply (NoDup_lookup (slot <$> pruned now c) i j (slot tx)); [exact Hl|..];
        rewrite list_lookup_fmap, ?Hx, ?Hj; simpl; congruence. }
    specialize (Hr i old eq_refl Hx). unfold check_replacement in Hr.
    case_match eqn:Eb; [done|]. bool_to_prop.
    split_and!; by apply bumped_le.
  - apply replacement_index_None in Ei. exfalso. apply Ei. rewrite <- Hs.
    by apply list_elem_of_fmap_2.
Qed.

(** A rejected transaction can stay. When eviction reaches the submitted
    transaction itself, [add_transaction] returns the error after having put it
    in the pool and leaves it there, with the limits still exceeded. *)
Theorem rejected_transaction_stays (now : Z) (tx : Transaction) (c c' : Blockchain) (e : ChainError) :
  add_transaction now tx c = (Err e, c') → 0 ≤ block_gas_limit (bc_params c) →
  slots_unique (pending_transactions c) →
  is_ok (admission now (set_pool (pruned now c) c) tx) = true →
  tx_hash tx ∈ tx_hash <$> pending_transactions c' ∧
  over_limits (bc_params c) (pending_transactions c') = true.
Proof.
  intros Ha Hp Hl Hok.
  apply (prune_slots now (bc_params c) (pending_base_fee c)) in Hl. fold (pruned now c) in Hl.
  apply add_transaction_cases in Ha as [(e'&Had&_)|(r1&l1&_&He&Hr)]; [by rewrite Had in Hok|].
  apply enforce_spec in He as [_ He]; [|done].
  destruct r1 as [u|e1]; destruct Hr as [Er ->]; [done|].
  destruct He as (Hov&_&x&Hx&Ex). simpl. split; [|done].
  rewrite hash_in_slot_unique in Ex
    by (apply insert_pending_slots, Hl || apply insert_pending_mem).
  rewrite <- Ex. by apply list_elem_of_fmap_2.
Qed.

(** Eviction crosses classes: removing a User transaction removes every later
    transaction of its sender, stake and governance transactions included, so
    user pressure does evict System transactions. *)
Theorem eviction_takes_system_dependents (i : nat) (l : pool) (u s : Transaction) :
  l !! i = Some u → mempool_class u = User → s ∈ l → mempool_class s = System →
  tx_from s = tx_from u → tx_nonce u < tx_nonce s →
  s ∉ evict_transaction_and_dependents i l.
Proof.
  intros Hi _ _ _ Hf Hn. unfold evict_transaction_and_dependents. rewrite Hi.
  rewrite list_elem_of_filter. naive_solver.
Qed.

(** The order of the pool is cyclic: two payments of one sender, ordered by
    nonce, and a payment of another sender whose fee lies between theirs. The
    comparator given to [sort_by] is not a total order. *)
Theorem pending_order_cyclic :
  ∃ base a b c, pending_cmp base a b = Lt ∧ pending_cmp base b c = Lt ∧ pending_cmp base c a = Lt.
Proof.
  exists 1,
    (mkTransaction "c" Transfer [x01] [] [] 1 10 10 10 0 0 None 0 [] []),
    (mkTransaction "c" Transfer [x01] [] [] 1 30 30 30 1 0 None 0 [] []),
    (mkTransaction "c" Transfer [x02] [] [] 1 20 20 20 0 0 None 0 [] []).
  vm_compute. done.
Qed.
End properties.

(** ** A pool to run the theorems on *)

(** The stable insertion sort: one behaviour [sort_by] may have. *)
Fixpoint insert_by (cmp : Transaction → Transaction → comparison) (x : Transaction) (l : pool)
    : pool :=
  match l with
  | [] => [x]
  | y :: l => match cmp x y with Gt => y :: insert_by cmp x l | _ => x :: y :: l end
  end.

Lemma insert_by_perm cmp x l : insert_by cmp x l ≡ₚ x :: l.
Proof. induction l as [|y l IH]; simpl; [done|]. case_match; [done..|]. rewrite IH. constructor. Qed.

Program Definition demo_sort : RustSort :=
  {| rust_sort_by cmp l := foldr (insert_by cmp) [] l |}.
Next Obligation. intros cmp l. induction l as [|x l IH]; simpl; [done|]. by rewrite insert_by_perm, IH. Qed.

Definition pool_ledger : accounts_map :=
  list_to_map ((λ n, (demo_address n, demo_account 90000000 0)) <$> [11; 12; 13; 14; 15]).
Definition pool_chain (l : pool) : Blockchain :=
  mkChain (demo_params 21000) (demo_state pool_ledger) l (tree_from_genesis demo_genesis)
    tracker_new ∅ ∅ ∅ [demo_genesis] ∅ ∅ ∅.
Definition pool_payment (sender nonce fee : Z) : Transaction :=
  demo_sign sender (@transaction_new demo_sha3 "c" (demo_public_key sender) (replicate 20 x01)
    500000 fee nonce demo_now).

Section examples.
Import Demo.
#[local] Existing Instance demo_sort.

(** Eight payments of four senders fill the gas budget of eight blocks. *)
Definition full_pool : pool :=
  (λ sn, pool_payment sn.1 sn.2 40) <$>
    [(11, 0); (11, 1); (12, 0); (12, 1); (13, 0); (13, 1); (14, 0); (14, 1)].
Definition cheap_payment : Transaction := pool_payment 15 0 20.
Abbreviation cheap_result := (add_transaction demo_now cheap_payment (pool_chain full_pool)).

Lemma pool_gas_limit l : 0 ≤ block_gas_limit (bc_params (pool_chain l)).
Proof. simpl. discriminate. Qed.

Lemma full_pool_slots : slots_unique full_pool.
Proof. vm_decide. Qed.

Lemma cheap_result_err : is_ok cheap_result.1 = false.
Proof. vm_compute. exact eq_refl. Qed.

Definition cheap_error : ChainError := unwrap_err Panic cheap_result.1.

Lemma cheap_result_run :
  add_transaction demo_now cheap_payment (pool_chain full_pool) = (Err cheap_error, cheap_result.2).
Proof. exact (run_err Panic cheap_result cheap_result_err). Qed.

Lemma cheap_admitted :
  is_ok (admission demo_now (set_pool (pruned demo_now (pool_chain full_pool)) (pool_chain full_pool))
           cheap_payment) = true.
Proof. vm_compute. exact eq_refl. Qed.

Lemma rejected_transaction_stays_witness :
  over_limits (demo_params 21000) (pending_transactions cheap_result.2) = true.
Proof.
  exact (proj2 (rejected_transaction_stays demo_now cheap_payment (pool_chain full_pool)
    cheap_result.2 cheap_error cheap_result_run (pool_gas_limit _) full_pool_slots cheap_admitted)).
Defined.


Lemma eviction_takes_system_dependents_witness :
  let payment := mkTransaction "c" Transfer [x01] [] [] 1 10 10 10 0 0 None 0 [] [] in
  let stake := mkTransaction "c" Stake [x01] [] [] 1 99 99 99 1 0 None 0 [] [] in
  stake ∉ evict_transaction_and_dependents 0 [payment; stake].
Proof.
  intros payment stake.
  exact (eviction_takes_system_dependents 0 [payment; stake] payment stake eq_refl eq_refl
    (list_elem_of_further _ _ _ (list_elem_of_here _ _)) eq_refl eq_refl eq_refl).
Defined.

(** Two pending payments; the second is replaced by one that pays more. *)
Definition small_pool : pool := [pool_payment 11 0 40; pool_payment 11 1 40].
Definition better_payment : Transaction := pool_payment 11 1 60.
Abbreviation better_result := (add_transaction demo_now better_payment (pool_chain small_pool)).

Lemma better_ok : is_ok better_result.1 = true.
Proof. vm_compute. exact eq_refl. Qed.

Lemma better_run :
  add_transaction demo_now better_payment (pool_chain small_pool) = (Ok (), better_result.2).
Proof. exact (run_ok better_result better_ok). Qed.

Lemma small_pool_slots : slots_unique small_pool.
Proof. vm_decide. Qed.

Lemma small_pool_pruned : pool_payment 11 1 40 ∈ pruned demo_now (pool_chain small_pool).
Proof. vm_decide. Qed.

Lemma better_same_slot : slot (pool_payment 11 1 40) = slot better_payment.
Proof. exact eq_refl. Qed.


Lemma admitted_transaction_checked_witness : verify_signature better_payment = true.
Proof.
  exact (proj1 (admitted_transaction_checked demo_now better_payment (pool_chain small_pool)
    better_result.2 better_run)).
Defined.

Lemma replacement_pays_more_witness :
  Z.min (max_fee_per_gas (pool_payment 11 1 40) + 1) u64_max ≤ max_fee_per_gas better_payment.
Proof.
  exact (proj1 (proj1 (proj2 (replacement_pays_more demo_now better_payment (pool_payment 11 1 40)
    (pool_chain small_pool) better_result.2 better_run small_pool_slots small_pool_pruned
    better_same_slot)))).
Defined.
End examples.
