(* ===== verification/ForkChoice.v ===== *)
(** * Replay, fork choice and finality of the chain
    ([src/core/chain/replay.rs], [src/core/chain/reorg.rs],
    [src/core/chain/finality.rs])

    The recomputation of a state from genesis, the handling of a block that does
    not extend the tip, the switch to a heavier fork, finality votes and
    equivocation evidence, on the in-memory chain: what these operations store and
    prune is in [Persistence]. The local
    variables of a replay (accounts, contracts, receipts, registry, governance,
    missed epochs) are the corresponding fields of a scratch copy of the chain. *)
From S2P Require Import Prelude Hash Crypto Vm Transaction Token Governance Block Account.
From S2P Require Import Validators Slashing Finality Settlement BlockTree Trie StateRoot Chain Apply.
From S2P Require Import Ledger AddBlock.

Definition MAX_REORG_DEPTH : Z := 64.

(** Field updates of the chain. *)
Definition set_missed (missed : gmap bytes Z) (c : Blockchain) : Blockchain :=
  set_epochs (epoch_snapshots c) missed c.
Definition set_tracker (t : FinalityTracker) (c : Blockchain) : Blockchain :=
  mkChain (bc_params c) (bc_state c) (pending_transactions c) (block_tree c) t
    (bc_slashed_validators c) (epoch_snapshots c) (validator_missed_epochs c) (bc_blocks c)
    (block_hash_to_height c) (tx_hash_index c) (evm_tx_hash_index c).
Definition set_slashed (slashed : gset bytes) (c : Blockchain) : Blockchain :=
  mkChain (bc_params c) (bc_state c) (pending_transactions c) (block_tree c) (finality_tracker c)
    slashed (epoch_snapshots c) (validator_missed_epochs c) (bc_blocks c)
    (block_hash_to_height c) (tx_hash_index c) (evm_tx_hash_index c).

(** The loop that collects the blocks from [current] down to genesis, tip
    first. Running out of fuel is reported as [Panic]; the code would not stop. *)
Fixpoint lineage_loop (fuel : nat) (t : BlockTree) (genesis current : bytes)
    : result ChainError (list Block) :=
  match fuel with
  | O => Err Panic
  | S fuel =>
      e ← ok_or (BlockTreeErr OrphanBlock) (entries t !! current);
      if bool_decide (current = genesis) then Ok [be_block e]
      else
        rest ← lineage_loop fuel t genesis (prev_hash (header (be_block e)));
        Ok (be_block e :: rest)
  end.

Definition lineage (c : Blockchain) (tip_hash : bytes) : result ChainError (list Block) :=
  l ← lineage_loop (walk_fuel (block_tree c) tip_hash) (block_tree c) (genesis_hash c) tip_hash;
  Ok (reverse l).

Section fork_choice.
Context `{Sha3} `{MlDsa} `{EvmEngine} `{WasmEngine} `{HashOrder} `{HexDecode}
  `{!Bincode SignableTransaction}
  `{!Bincode BlockHeader} `{!Bincode ProposalKind} `{!BincodeAccountLeaf} `{!BincodeStorageLeaf}
  `{!BincodeContractLeaf} `{!Json DeployTokenParams} `{!Json TokenTransferParams}
  `{!Json TokenApproveParams} `{!Json TokenTransferFromParams} `{!Json SubmitProposalParams}
  `{!Json GovernanceVoteParams}.

(** ** Replay *)

(** The local state both replays start from. *)
Definition genesis_execution (c : Blockchain) : result ChainError BlockExecution :=
  m ← accounts_from_genesis (genesis_config (bc_params c));
  Ok (mkExec m ∅ ∅ registry_new governance_new).

Definition scratch (s : BlockExecution) (c : Blockchain) : Blockchain :=
  set_state s (set_missed ∅ c).

(** What both replays do with a block: settle its epoch on the local accounts,
    validate it against the local state, take over the result. *)
Definition replay_block (now : Z) (b previous : Block) : stM Blockchain ChainError () :=
  _ ← st_modify (λ c, settle_epoch c (height (header b)));
  c ← st_get;
  s ← st_lift (validate_block_against_state now c b previous (bc_state c));
  st_modify (set_state (set_receipts (receipts s ∪ receipts (bc_state c)) s)).

(** The loop of [replay_state_to_tip]. *)
Fixpoint replay_blocks (now : Z) (previous : Block) (blocks : list Block)
    : stM Blockchain ChainError () :=
  match blocks with
  | [] => mret ()
  | b :: blocks => _ ← replay_block now b previous; replay_blocks now b blocks
  end.

Definition replay_state_to_tip (now : Z) (c : Blockchain) (tip_hash : bytes)
    : result ChainError BlockExecution :=
  l ← lineage c tip_hash;
  start ← genesis_execution c;
  first ← ok_or Panic (head l);
  let '(r, c') := replay_blocks now first (tail l) (scratch start c) in
  _ ← r;
  Ok (bc_state c').

(** [replay_state_to_canonical_height]. *)
Definition replay_state_to_canonical_height (now : Z) (c : Blockchain) (target_height : Z)
    : result ChainError BlockExecution :=
  b ← ok_or (SnapshotError "target height missing") (block_at_height c target_height);
  replay_state_to_tip now c (block_hash b).

(** The loop of [rebuild_canonical_state], which also recreates the epochs'
    snapshots. *)
Definition rebuild_block (now : Z) (b previous : Block) : stM Blockchain ChainError () :=
  _ ← st_modify (λ c, open_epoch c (height (header b)));
  replay_block now b previous.

Fixpoint rebuild_blocks (now : Z) (previous : Block) (blocks : list Block)
    : stM Blockchain ChainError () :=
  match blocks with
  | [] => mret ()
  | b :: blocks => _ ← rebuild_block now b previous; rebuild_blocks now b blocks
  end.

Definition rebuild_indexes (c : Blockchain) : Blockchain :=
  foldl (λ c b, index_block b c) (set_indexes ∅ ∅ ∅ c) (bc_blocks c).

(** [rebuild_canonical_state]. The snapshots and indexes are rebuilt in place;
    the local variables are written back at the end only. *)
Definition rebuild_canonical_state (now : Z) : stM Blockchain ChainError () :=
  c ← st_get;
  start ← st_lift (genesis_execution c);
  _ ← st_modify (set_epochs {[ 0 := snapshot_for_accounts c 0 (accounts start) ]}
                   (validator_missed_epochs c));
  _ ← st_modify rebuild_indexes;
  previous ← st_lift (ok_or (InvalidGenesis "missing genesis block") (head (bc_blocks c)));
  c ← st_get;
  let '(r, c') := rebuild_blocks now previous (tail (bc_blocks c)) (scratch start c) in
  match r with
  | Ok _ => st_modify (λ _, c')
  | Err e =>
      _ ← st_modify (set_epochs (epoch_snapshots c') (validator_missed_epochs c));
      st_throw e
  end.

(** [is_valid]: replaying the canonical chain on a fresh node gives the state. *)
Fixpoint add_blocks (now : Z) (blocks : list Block) : stM Blockchain ChainError () :=
  match blocks with
  | [] => mret ()
  | b :: blocks => _ ← add_block now b; add_blocks now blocks
  end.

Definition is_valid (now : Z) (c : Blockchain) : bool :=
  match from_genesis (genesis_config (bc_params c)) with
  | Err _ => false
  | Ok replay =>
      match add_blocks now (tail (bc_blocks c)) replay with
      | (Err _, _) => false
      | (Ok _, replay) =>
          bool_decide (accounts (bc_state replay) = accounts (bc_state c)) &&
          bool_decide (contracts (bc_state replay) = contracts (bc_state c)) &&
          bool_decide (token_registry (bc_state replay) = token_registry (bc_state c))
      end
  end.

(** ** Reorganisation *)

Definition replace_all_blocks (blocks : list Block) (c : Blockchain) : Blockchain :=
  foldl (λ c b, push_block_internal b c) (set_blocks [] c) blocks.

(** The guards of [reorg_to_canonical_tip]. *)
Definition check_reorg (c : Blockchain) : result ChainError () :=
  let t := block_tree c in
  let canonical := canonical_chain t in
  let fin := finalized_height (finality_tracker c) in
  if from_option (λ b, height (header b)) 0 (last canonical) <? fin
  then Err (ReorgBelowFinality fin)
  else if 0 <? fin then
    let new_tip := from_option block_hash (genesis_hash c) (last canonical) in
    ancestor ← ok_or InvalidPrevHash (common_ancestor t (block_hash (latest_block c)) new_tip);
    ancestor_entry ← ok_or InvalidPrevHash (entries t !! ancestor);
    if height (header (be_block ancestor_entry)) <? fin then Err (ReorgBelowFinality fin)
    else if negb (is_descendant_of t new_tip (finalized_hash (finality_tracker c)))
    then Err (ReorgBelowFinality fin)
    else Ok ()
  else Ok ().

Definition reorg_to_canonical_tip (now : Z) : stM Blockchain ChainError () :=
  c ← st_get;
  _ ← st_lift (check_reorg c);
  _ ← st_modify (replace_all_blocks (canonical_chain (block_tree c)));
  rebuild_canonical_state now.

(** The stake a fork block adds to its branch. *)
Definition fork_stake (b : Block) (s : BlockExecution) : Z :=
  get_staked_balance (accounts s) (address_bytes_from_public_key (validator_public_key (header b))).

Definition add_block_with_fork_choice (now : Z) (b : Block) : stM Blockchain ChainError bool :=
  c ← st_get;
  _ ← st_guard (negb ((MAX_REORG_DEPTH <? chain_height c) &&
                      (height (header b) <? saturating_sub (chain_height c) MAX_REORG_DEPTH)))
        (InvalidTransactionFormat "block too old: exceeds maximum reorg depth");
  if bool_decide (prev_hash (header b) = block_hash (latest_block c)) then
    _ ← add_block now b;
    mret false
  else
    parent ← st_lift (ok_or (BlockTreeErr OrphanBlock) (entries (block_tree c) !! prev_hash (header b)));
    parent_state ← st_lift (replay_state_to_tip now c (block_hash (be_block parent)));
    s ← st_lift (validate_block_against_state now c b (be_block parent) parent_state);
    '(tip_changed, t) ← st_lift (map_err BlockTreeErr (insert_block (block_tree c) b (fork_stake b s)));
    _ ← st_modify (set_tree t);
    if tip_changed : bool then
      _ ← reorg_to_canonical_tip now;
      mret true
    else mret false.

(** ** Finality votes and evidence *)

(** [add_finality_vote]; the pruning that may follow is in [Persistence]. *)
Definition add_finality_vote (vote : FinalityVote) (c : Blockchain)
    : option FinalizedBlock * Blockchain :=
  match entries (block_tree c) !! fv_block_hash vote with
  | None => (None, c)
  | Some voted_block =>
      let vote_epoch := epoch_for_height (bc_params c) (fv_block_height vote) in
      if negb (height (header (be_block voted_block)) =? fv_block_height vote) then (None, c)
      else if negb (fv_epoch vote =? vote_epoch) then (None, c)
      else if negb (is_on_canonical_chain (block_tree c) (fv_block_hash vote)) then (None, c)
      else
        match epoch_snapshots c !! vote_epoch with
        | None => (None, c)
        | Some snapshot =>
            let '(finalized, tracker) := add_vote (finality_tracker c) vote snapshot in
            let c := set_tracker tracker c in
            (finalized,
             match finalized with
             | Some f => set_tree (set_finalized (block_tree c) (fb_hash f) (fb_height f)) c
             | None => c
             end)
        end
  end.

(** [process_equivocation]; on [Err] nothing changes. *)
Definition process_equivocation (ev : EquivocationEvidence) (c : Blockchain)
    : result SlashingError (Z * Blockchain) :=
  let pos := mkPoS (minimum_stake (bc_params c)) (bc_slashed_validators c) (chain_height c) in
  '(penalty, pos, m) ← slash_with_evidence pos (accounts (bc_state c)) ev
                         (jail_duration_blocks (bc_params c));
  Ok (penalty, set_slashed (slashed_validators pos) (set_state (set_accounts m (bc_state c)) c)).
End fork_choice.

(** ** Lemmas: validation depends on the chain's rules only *)

(** The configuration, snapshots and slashed validators agree. *)
Definition same_rules (c c' : Blockchain) : Prop :=
  bc_params c' = bc_params c ∧ epoch_snapshots c' = epoch_snapshots c ∧
  bc_slashed_validators c' = bc_slashed_validators c.

Section replay_lemmas.
Context `{Sha3} `{MlDsa} `{EvmEngine} `{WasmEngine} `{HashOrder} `{HexDecode}
  `{!Bincode SignableTransaction}
  `{!Bincode BlockHeader} `{!Bincode ProposalKind} `{!BincodeAccountLeaf} `{!BincodeStorageLeaf}
  `{!BincodeContractLeaf} `{!Json DeployTokenParams} `{!Json TokenTransferParams}
  `{!Json TokenApproveParams} `{!Json TokenTransferFromParams} `{!Json SubmitProposalParams}
  `{!Json GovernanceVoteParams}.

Lemma check_header_later now now' c c' b parent :
  same_rules c c' → now ≤ now' →
  check_header now c b parent = Ok () → check_header now' c' b parent = Ok ().
Proof.
  intros (Ep&_) Hn. unfold check_header. rewrite Ep.
  repeat (case_match; try done). bool_to_prop. lia.
Qed.

Lemma check_proposer_same c c' m b parent :
  same_rules c c' → check_proposer c' m b parent = check_proposer c m b parent.
Proof.
  intros (Ep&Es&Esl). unfold check_proposer, snapshot_size, ensure_validator_is_authorized,
    snapshot_for_height. by rewrite Ep, Es, Esl.
Qed.

Lemma apply_block_transactions_same c c' hd i txs t s :
  same_rules c c' →
  apply_block_transactions c' hd i txs t s = apply_block_transactions c hd i txs t s.
Proof.
  intros Hc. revert i t s. induction txs as [|tx txs IH]; intros i t s; [done|].
  cbn [apply_block_transactions]. unfold mbind, stM_bind.
  assert (apply_block_transaction c' hd i tx t s = apply_block_transaction c hd i tx t s) as ->.
  { unfold apply_block_transaction, apply_user. by rewrite (proj1 Hc). }
  destruct (apply_block_transaction c hd i tx t s) as [[t1|e] s1]; [apply IH|done].
Qed.

Lemma finish_block_same c c' b t s :
  same_rules c c' → finish_block c' b t s = finish_block c b t s.
Proof.
  intros (Ep&_&Esl). unfold finish_block, active_validator_total_stake. by rewrite Ep, Esl.
Qed.

Lemma run_block_same c c' b s :
  same_rules c c' →
  (t ← apply_block_transactions c' (header b) 0 (transactions b) totals_zero;
   finish_block c' b t) s =
  (t ← apply_block_transactions c (header b) 0 (transactions b) totals_zero;
   finish_block c b t) s.
Proof.
  intros Hc. unfold mbind, stM_bind. rewrite (apply_block_transactions_same _ _ _ _ _ _ _ Hc).
  destruct (apply_block_transactions _ _ _ _ _ _) as [[t|e] s1]; [|done].
  apply (finish_block_same _ _ _ _ _ Hc).
Qed.

Lemma validate_later now now' c c' b parent ps s :
  same_rules c c' → now ≤ now' →
  validate_block_against_state now c b parent ps = Ok s →
  validate_block_against_state now' c' b parent ps = Ok s.
Proof.
  intros Hc Hn. unfold validate_block_against_state. cbv zeta. intros Hv.
  apply result_bind_Ok in Hv as ([]&Hh&Hv). apply (check_header_later _ now' _ _ _ _ Hc Hn) in Hh.
  rewrite Hh. cbn [mbind result_bind]. rewrite (check_proposer_same _ _ _ _ _ Hc).
  rewrite (run_block_same _ _ _ _ Hc). unfold check_state_root in *.
  rewrite (proj1 Hc). exact Hv.
Qed.

(** ** A scratch copy that agrees with the live chain *)

Definition same_ledger (c c' : Blockchain) : Prop :=
  same_rules c c' ∧ bc_state c' = bc_state c ∧
  validator_missed_epochs c' = validator_missed_epochs c.

Lemma open_epoch_ledger c c' h :
  same_ledger c c' → same_ledger (open_epoch c h) (open_epoch c' h).
Proof.
  intros ((Ep&Es&Esl)&Est&Em). unfold open_epoch, snapshot_for_accounts.
  rewrite Ep, Es, Esl, Est, Em. case_match; unfold same_ledger, same_rules; simpl; auto 10.
Qed.

(** The producers of a settled epoch are read from blocks below the boundary. *)
Lemma settling_producers_prefix c c' h :
  bc_params c' = bc_params c → bc_blocks c `prefix_of` bc_blocks c' → 0 ≤ h ≤ block_count c →
  proposer_addresses_for_settling_epoch c' h = proposer_addresses_for_settling_epoch c h.
Proof.
  intros Ep [l El] Hh. unfold proposer_addresses_for_settling_epoch. rewrite Ep.
  case_match; [done|]. set (len := Z.max (epoch_length (bc_params c)) 1).
  assert (1 ≤ len) as Hlen by lia. apply list_omap_ext, Forall_Forall2_diag, Forall_forall.
  intros k Hk%elem_of_seqZ. f_equal. unfold block_at_height.
  destruct (k <? 0) eqn:Ek; [done|]. bool_to_prop. rewrite El. apply lookup_app_l.
  pose proof (Z.mul_div_le h len ltac:(lia)). unfold block_count in Hh.
  assert (k < h) by (destruct Hk; nia). lia.
Qed.

Lemma settle_epoch_ledger c c' h :
  same_ledger c c' → bc_blocks c `prefix_of` bc_blocks c' → 0 ≤ h ≤ block_count c →
  same_ledger (settle_epoch c h) (settle_epoch c' h).
Proof.
  intros ((Ep&Es&Esl)&Est&Em) Hpre Hh. unfold settle_epoch.
  rewrite (settling_producers_prefix _ _ _ Ep Hpre Hh), Ep, Es, Est, Em.
  destruct (apply_epoch_settlement_for_block _ _ _ _ _ _) as [m missed].
  unfold same_ledger, same_rules; simpl; auto.
Qed.

Lemma prepared_ledger c c' h :
  same_ledger c c' → bc_blocks c `prefix_of` bc_blocks c' → 0 ≤ h ≤ block_count c →
  same_ledger (prepared c h) (prepared c' h).
Proof.
  intros Hl Hpre Hh. unfold prepared.
  destruct (open_epoch_same c h) as (_&Eb&_). destruct (open_epoch_same c' h) as (_&Eb'&_).
  apply settle_epoch_ledger; [by apply open_epoch_ledger| |]; unfold block_count;
    rewrite ?Eb, ?Eb'; done.
Qed.

Lemma commit_block_ledger b s c :
  same_ledger (set_state (set_receipts (receipts s ∪ receipts (bc_state c)) s) c) (commit_block b s c).
Proof.
  unfold commit_block, remove_block_transactions_from_mempool, index_block, push_block_internal,
    block_count.
  destruct (foldl _ _ _) as [i j].
  destruct (insert_block _ _ _) as [[f t]|e]; simpl; by case_match.
Qed.

Lemma same_ledger_trans c1 c2 c3 : same_ledger c1 c2 → same_ledger c2 c3 → same_ledger c1 c3.
Proof. unfold same_ledger, same_rules. intuition congruence. Qed.

Lemma same_ledger_sym c1 c2 : same_ledger c1 c2 → same_ledger c2 c1.
Proof. unfold same_ledger, same_rules. intuition congruence. Qed.

Lemma set_state_ledger s c c' : same_ledger c c' → same_ledger (set_state s c) (set_state s c').
Proof. unfold same_ledger, same_rules. simpl. intuition congruence. Qed.

(** A block the live chain accepted is replayed on every scratch copy that
    agrees with it and already holds its blocks, at any later time. *)
Lemma rebuild_block_agrees now now' b c c' r :
  chain_linked c → block_count c < u64_max → now ≤ now' →
  add_block now b c = (Ok (), c') → same_ledger c r → bc_blocks c `prefix_of` bc_blocks r →
  ∃ r', rebuild_block now' b (latest_block c) r = (Ok (), r') ∧ same_ledger c' r' ∧
    bc_blocks r' = bc_blocks r.
Proof.
  intros Hc Hlim Hn Ha Hl Hpre. apply add_block_Ok in Ha as (s&Hv&->).
  destruct (next_block_height _ _ _ _ Hc Hlim Hv) as [Eh _].
  pose proof (prepared_ledger c r (height (header b)) Hl Hpre) as Hp.
  rewrite Eh in Hp at 1 2. specialize (Hp ltac:(unfold block_count; lia)).
  assert (validate_block_against_state now' (prepared r (height (header b))) b (latest_block c)
            (bc_state (prepared r (height (header b)))) = Ok s) as Hv'.
  { destruct Hp as (Hr&Est&_). rewrite Est. by eapply validate_later. }
  unfold rebuild_block, replay_block, st_modify, st_get, st_lift, mbind, stM_bind.
  fold (prepared r (height (header b))). rewrite Hv'. eexists. split; [done|]. split.
  - eapply same_ledger_trans; [apply same_ledger_sym, commit_block_ledger|].
    replace (receipts (bc_state (prepared r (height (header b)))))
      with (receipts (bc_state (prepared c (height (header b))))) by (by rewrite (proj1 (proj2 Hp))).
    by apply set_state_ledger.
  - simpl. by destruct (prepared_same r (height (header b))) as (_&->&_).
Qed.

Lemma rebuild_blocks_snoc now previous l b r u r1 :
  rebuild_blocks now previous l r = (Ok u, r1) →
  rebuild_blocks now previous (l ++ [b]) r = rebuild_block now b (default previous (last l)) r1.
Proof.
  revert previous r. induction l as [|a l IH]; intros previous r Hr.
  - simpl in Hr. st_step. simpl. unfold mbind, stM_bind.
    by destruct (rebuild_block _ _ _ _) as [[[]|e] r2].
  - cbn [rebuild_blocks app] in *. apply st_bind_Ok in Hr as ([]&r2&Ha&Hr).
    unfold mbind at 1, stM_bind at 1. rewrite Ha, (IH _ _ Hr). f_equal.
    rewrite last_cons. by destruct (last l).
Qed.

Lemma index_block_same b c :
  same_ledger c (index_block b c) ∧ bc_blocks (index_block b c) = bc_blocks c ∧
  block_tree (index_block b c) = block_tree c ∧
  finality_tracker (index_block b c) = finality_tracker c.
Proof. unfold index_block. by destruct (foldl _ _ _) as [i j]. Qed.

Lemma index_blocks_same l c :
  let d := foldl (λ c b, index_block b c) c l in
  same_ledger c d ∧ bc_blocks d = bc_blocks c ∧ block_tree d = block_tree c ∧
  finality_tracker d = finality_tracker c.
Proof.
  revert c. induction l as [|b l IH]; intros c; [done|]. cbn [foldl].
  destruct (index_block_same b c) as (Hl&Eb&Et&Ef), (IH (index_block b c)) as (Hl'&Eb'&Et'&Ef').
  split_and!; [by eapply same_ledger_trans|congruence..].
Qed.

Lemma rebuild_indexes_same c :
  same_ledger c (rebuild_indexes c) ∧ bc_blocks (rebuild_indexes c) = bc_blocks c ∧
  block_tree (rebuild_indexes c) = block_tree c ∧
  finality_tracker (rebuild_indexes c) = finality_tracker c.
Proof. apply (index_blocks_same (bc_blocks c) (set_indexes ∅ ∅ ∅ c)). Qed.

(** ** Lemmas: the parts a replay or a reorganisation leaves alone *)

Definition same_position (c c' : Blockchain) : Prop :=
  bc_params c' = bc_params c ∧ bc_blocks c' = bc_blocks c ∧ block_tree c' = block_tree c ∧
  finality_tracker c' = finality_tracker c ∧ bc_slashed_validators c' = bc_slashed_validators c.

Lemma same_position_trans c1 c2 c3 :
  same_position c1 c2 → same_position c2 c3 → same_position c1 c3.
Proof. unfold same_position. intuition congruence. Qed.

Lemma rebuild_block_position now b previous c :
  same_position c (rebuild_block now b previous c).2.
Proof.
  unfold rebuild_block, replay_block, st_modify, st_get, st_lift, mbind, stM_bind.
  fold (prepared c (height (header b))).
  destruct (prepared_same c (height (header b))) as (?&?&?&?&_).
  assert (bc_slashed_validators (prepared c (height (header b))) = bc_slashed_validators c) as Esl.
  { unfold prepared, settle_epoch. case_match. simpl. unfold open_epoch. by case_match. }
  by destruct (validate_block_against_state _ _ _ _ _).
Qed.

Lemma rebuild_blocks_position now previous l c : same_position c (rebuild_blocks now previous l c).2.
Proof.
  revert previous c. induction l as [|b l IH]; intros previous c; [done|]. simpl.
  unfold mbind, stM_bind. pose proof (rebuild_block_position now b previous c) as Hb.
  destruct (rebuild_block now b previous c) as [[[]|e] c1]; [|done].
  eapply same_position_trans; [exact Hb|apply IH].
Qed.

(** A rebuild, opened: on success the state is that of the scratch chain. *)
Lemma rebuild_Ok now c u c' :
  rebuild_canonical_state now c = (Ok u, c') → same_position c c'.
Proof.
  intros Hr. unfold rebuild_canonical_state in Hr. repeat st_step.
  destruct (rebuild_blocks _ _ _ _) as [[u'|e] c''] eqn:Hb; [|repeat st_step].
  repeat st_step. simplify_eq.
  match type of Hb with rebuild_blocks ?n ?p ?l ?c0 = _ =>
    pose proof (rebuild_blocks_position n p l c0) as Hp end.
  rewrite Hb in Hp. eapply same_position_trans; [|exact Hp].
  match goal with |- same_position c (scratch _ (rebuild_indexes ?c1)) =>
    destruct (rebuild_indexes_same c1) as (((Ep&_&Esl)&_)&Eb&Et&Ef) end.
  done.
Qed.

(** A failed rebuild keeps the old state under the new blocks. *)
Lemma rebuild_Err now c e c' :
  rebuild_canonical_state now c = (Err e, c') →
  same_position c c' ∧ bc_state c' = bc_state c ∧
  validator_missed_epochs c' = validator_missed_epochs c.
Proof.
  unfold rebuild_canonical_state, st_get, st_lift, st_modify, st_throw, mbind, stM_bind.
  destruct (genesis_execution c) as [start|e1]; [|by intros [= _ <-]].
  set (c1 := set_epochs _ _ c).
  destruct (rebuild_indexes_same c1) as (((Ep&_&Esl)&Est&Em)&Eb&Et&Ef).
  destruct (ok_or _ _) as [previous|e1]; [|by intros [= _ <-]].
  destruct (rebuild_blocks _ _ _ _) as [[u|e2] c2]; [done|]. intros [= _ <-].
  unfold same_position. simpl. auto 10.
Qed.

(** ** Lemmas: the blocks of a reorganised chain *)

Lemma replace_all_blocks_numbered l c :
  (∀ i b, l !! i = Some b → height (header b) = Z.of_nat i) →
  same_ledger c (replace_all_blocks l c) ∧ bc_blocks (replace_all_blocks l c) = l ∧
  block_tree (replace_all_blocks l c) = block_tree c ∧
  finality_tracker (replace_all_blocks l c) = finality_tracker c.
Proof.
  intros Hl. unfold replace_all_blocks.
  assert (∀ done todo, l = done ++ todo →
    foldl (λ c b, push_block_internal b c) (set_blocks done c) todo = set_blocks l c) as Hf.
  { intros k todo. revert k. induction todo as [|b todo IH]; intros k ->.
    - by rewrite app_nil_r.
    - cbn [foldl]. unfold push_block_internal, block_count at 2. cbn [bc_blocks set_blocks].
      rewrite (Hl (length k) b) by (rewrite lookup_app_r, Nat.sub_diag by lia; done).
      rewrite Z.eqb_refl. rewrite <- (IH (k ++ [b])) by (by rewrite <- app_assoc). done. }
  by rewrite (Hf [] l eq_refl).
Qed.

(** The loop that collects a branch stops at genesis. *)
Lemma lineage_loop_walk root t fuel d e :
  tree_wf root t → entries t !! d = Some e → (Z.to_nat (height (header (be_block e))) < fuel)%nat →
  lineage_loop fuel t root d = Ok (walk fuel t d).*2.
Proof.
  intros Hwf. revert d e. induction fuel as [|fuel IH]; intros d e He Hf; [lia|].
  simpl. rewrite He. simpl. pose proof (tw_height _ _ Hwf d e He) as Hh.
  destruct (Z.eqb_spec (height (header (be_block e))) 0) as [Hz|Hz].
  - rewrite bool_decide_eq_true_2 by (by eapply tw_root). done.
  - destruct (tw_link _ _ Hwf d e He Hz) as (p&Hp&Hl).
    rewrite bool_decide_eq_false_2.
    + by rewrite (IH _ p Hp) by lia.
    + intros ->. pose proof (descends_root _ _ Hwf _ (mk_is_Some _ _ Hp)) as Hr.
      destruct (descends_height _ _ Hwf _ _ _ _ Hp He Hr) as [Heq|]; [|lia].
      rewrite Heq in Hp. simplify_eq. lia.
Qed.

Lemma lineage_ancestry root c tip :
  tree_wf root (block_tree c) → genesis_hash c = root → is_Some (entries (block_tree c) !! tip) →
  lineage c tip = Ok (reverse (ancestry (block_tree c) tip).*2).
Proof.
  intros Hwf Hg [e He]. unfold lineage, ancestry. rewrite Hg.
  rewrite (lineage_loop_walk _ _ _ _ _ Hwf He); [done|]. unfold walk_fuel. rewrite He. lia.
Qed.

Lemma chain_linked_numbered c i b :
  chain_linked c → bc_blocks c !! i = Some b → height (header b) = Z.of_nat i.
Proof. intros [_ Hl] Hb. by apply Hl in Hb as [? _]. Qed.
End replay_lemmas.
