(* ===== verification/Persistence.v ===== *)
(** * The node and its database ([src/core/chain/persistence.rs],
    [src/core/chain/mod.rs])

    A node is a chain with, possibly, a database and a persistence worker. This
    file models what is written when, the worker's queue, the start of a node on
    an existing or empty database, and the pruning of the stored history. The
    list of blocks of the chain stands for the cursor over the stored ones, which
    it is as long as the blocks that are not stored yet fit the cursor's cache
    ([BlockStore.replaced_blocks_lost]). *)
From S2P Require Import Prelude Hash Crypto Vm Transaction Token Governance Block Account.
From S2P Require Import Validators Slashing Finality Settlement BlockStore BlockTree Trie StateRoot.
From S2P Require Import Chain Storage Apply Ledger AddBlock Mempool ForkChoice.

Definition PERSISTENCE_QUEUE_CAPACITY : nat := 8.
Definition DEFAULT_BLOCK_CACHE_SIZE : nat := 1000.

(** What a full write contains. *)
Record PersistedChainState := mkPersisted {
  ps_genesis_config : GenesisConfig;
  ps_finalized_height : Z;
  ps_blocks : list Block;
  ps_accounts : accounts_map;
  ps_contracts : contracts_map;
  ps_receipts : gmap bytes Receipt;
  ps_epoch_snapshots : gmap Z EpochSnapshot;
  ps_pending_transactions : list Transaction;
  ps_token_registry : TokenRegistry;
  ps_governance : GovernanceState;
}.

(** [PersistedChainState::from_chain]. *)
Definition from_chain (c : Blockchain) : PersistedChainState :=
  mkPersisted (genesis_config (bc_params c)) (finalized_height (finality_tracker c)) (bc_blocks c)
    (accounts (bc_state c)) (contracts (bc_state c)) (receipts (bc_state c)) (epoch_snapshots c)
    (pending_transactions c) (token_registry (bc_state c)) (governance (bc_state c)).

(** ** The worker *)

Inductive PersistJob :=
  | FullStateSignal
  | PendingTransactionsJob (txs : list Transaction)
  | FinalizedHeightJob (h : Z)
  | EvidenceJob (ev : EquivocationEvidence) (address : bytes) (account : option AccountState)
  | Shutdown.

(** Where the worker thread is: in [recv], in the loop that empties the slot with
    a job in hand, about to run that job, or gone. *)
Inductive Phase :=
  | Waiting
  | Draining (job : PersistJob)
  | Running (job : PersistJob)
  | Exited.

(** [PersistenceHandle] and the state of its thread. *)
Record Worker := mkWorker {
  full_state_slot : option PersistedChainState;
  wk_queue : list PersistJob;
  wk_phase : Phase;
}.

Definition worker_spawn : Worker := mkWorker None [] Waiting.

(** [try_send] on the bounded channel; a full or closed channel drops the job. *)
Definition try_send (job : PersistJob) (w : Worker) : Worker :=
  match wk_phase w with
  | Exited => w
  | _ =>
      if bool_decide (length (wk_queue w) < PERSISTENCE_QUEUE_CAPACITY)%nat
      then mkWorker (full_state_slot w) (wk_queue w ++ [job]) (wk_phase w) else w
  end.

(** [enqueue_full_state] and [try_enqueue]. *)
Definition enqueue_full_state (state : PersistedChainState) (w : Worker) : Worker :=
  try_send FullStateSignal (mkWorker (Some state) (wk_queue w) (wk_phase w)).

Definition try_enqueue (job : PersistJob) (w : Worker) : Worker := try_send job w.

Section persistence.
Context `{Sha3} {D : Type} `{!Redb D} `{!StorageCodec} `{!LegacyCodec}
  `{!Bincode SignableTransaction}.

(** [write_full_state_to_storage]: a transaction per table. *)
Definition write_full_state_to_storage (state : PersistedChainState) : stM D StorageError () :=
  _ ← put_meta CHAIN_CONFIG_KEY (ps_genesis_config state);
  _ ← put_meta FINALIZED_HEIGHT_KEY (ps_finalized_height state);
  _ ← put_meta SCHEMA_VERSION_KEY CURRENT_SCHEMA_VERSION;
  _ ← put_meta TOKEN_REGISTRY_KEY (ps_token_registry state);
  _ ← put_meta GOVERNANCE_STATE_KEY (ps_governance state);
  _ ← replace_blocks (ps_blocks state);
  _ ← replace_accounts (ps_accounts state);
  _ ← replace_contracts (ps_contracts state);
  _ ← replace_receipts (ps_receipts state);
  _ ← replace_epoch_snapshots (ps_epoch_snapshots state);
  replace_pending_transactions (ps_pending_transactions state).

Definition put_evidence_and_account (ev : EquivocationEvidence) (address : bytes)
    (account : option AccountState) : stM D StorageError () :=
  _ ← put_evidence ev;
  match account with
  | Some account => put_account address account
  | None => mret ()
  end.

(** [execute]: the outcome of a job is only logged. *)
Definition execute (job : stM D StorageError ()) (d : D) : D := (job d).2.

(** One step of [run_worker]; [None] when it waits in [recv] or has returned. *)
Definition run_job (job : PersistJob) (d : D) : D :=
  match job with
  | FullStateSignal | Shutdown => d
  | PendingTransactionsJob txs => execute (replace_pending_transactions txs) d
  | FinalizedHeightJob h => execute (put_meta FINALIZED_HEIGHT_KEY h) d
  | EvidenceJob ev address account => execute (put_evidence_and_account ev address account) d
  end.

Definition worker_step (dw : D * Worker) : option (D * Worker) :=
  let '(d, w) := dw in
  match wk_phase w with
  | Waiting =>
      match wk_queue w with
      | [] => None
      | job :: queue => Some (d, mkWorker (full_state_slot w) queue (Draining job))
      end
  | Draining job =>
      match full_state_slot w with
      | Some state =>
          Some (execute (write_full_state_to_storage state) d,
                mkWorker None (wk_queue w) (Draining job))
      | None => Some (d, mkWorker None (wk_queue w) (Running job))
      end
  | Running Shutdown =>
      Some (match full_state_slot w with
            | Some state => execute (write_full_state_to_storage state) d
            | None => d
            end, mkWorker None (wk_queue w) Exited)
  | Running job => Some (run_job job d, mkWorker (full_state_slot w) (wk_queue w) Waiting)
  | Exited => None
  end.

(** The worker alone, for at most [n] steps. *)
Fixpoint worker_run (n : nat) (dw : D * Worker) : D * Worker :=
  match n with
  | O => dw
  | S n => match worker_step dw with Some dw' => worker_run n dw' | None => dw end
  end.
End persistence.

(** ** The node *)

Inductive PersistenceMode :=
  | Sync
  | Async (w : Worker).

(** The storage-related fields of [Blockchain] next to the chain: the database,
    the mode, the pruning window, and the cursor's pruning floor. *)
Record Node (D : Type) := mkNode {
  nd_chain : Blockchain;
  nd_storage : option D;
  nd_mode : PersistenceMode;
  prune_keep_blocks : option Z;
  nd_base_height : Z;
}.
Arguments mkNode {D}.
Arguments nd_chain {D}.
Arguments nd_storage {D}.
Arguments nd_mode {D}.
Arguments prune_keep_blocks {D}.
Arguments nd_base_height {D}.

Section node.
Context `{Sha3} `{MlDsa} `{EvmEngine} `{WasmEngine} `{HashOrder} `{HexDecode}
  `{!Bincode SignableTransaction}
  `{!Bincode BlockHeader} `{!Bincode ProposalKind} `{!BincodeAccountLeaf} `{!BincodeStorageLeaf}
  `{!BincodeContractLeaf} `{!Json DeployTokenParams} `{!Json TokenTransferParams}
  `{!Json TokenApproveParams} `{!Json TokenTransferFromParams} `{!Json SubmitProposalParams}
  `{!Json GovernanceVoteParams} `{!RustSort}
  {D : Type} `{!Redb D} `{!StorageCodec} `{!LegacyCodec} {L : Type} `{!LruCache L}.

Definition set_chain (c : Blockchain) (n : Node D) : Node D :=
  mkNode c (nd_storage n) (nd_mode n) (prune_keep_blocks n) (nd_base_height n).
Definition set_node_storage (d : D) (n : Node D) : Node D :=
  mkNode (nd_chain n) (Some d) (nd_mode n) (prune_keep_blocks n) (nd_base_height n).
Definition set_mode (m : PersistenceMode) (n : Node D) : Node D :=
  mkNode (nd_chain n) (nd_storage n) m (prune_keep_blocks n) (nd_base_height n).

(** A step of the chain alone, and a step on the database if there is one. *)
Definition on_chain {A} (m : stM Blockchain ChainError A) : stM (Node D) ChainError A := λ n,
  let '(r, c) := m (nd_chain n) in (r, set_chain c n).

Definition on_storage (m : stM D StorageError ()) : stM (Node D) ChainError () := λ n,
  match nd_storage n with
  | Some d => let '(r, d') := m d in (map_err ChainStorageError r, set_node_storage d' n)
  | None => (Ok (), n)
  end.

(** The same with the errors dropped. *)
Definition on_storage_silent (m : stM D StorageError ()) : stM (Node D) ChainError () := λ n,
  (Ok (), (on_storage m n).2).

(** ** What is written when *)

Definition persist_full_state : stM (Node D) ChainError () :=
  n ← st_get;
  match nd_storage n with
  | None => mret ()
  | Some _ =>
      let state := from_chain (nd_chain n) in
      match nd_mode n with
      | Sync => on_storage (write_full_state_to_storage state)
      | Async w => st_modify (set_mode (Async (enqueue_full_state state w)))
      end
  end.

Definition persist_pending_transactions : stM (Node D) ChainError () :=
  n ← st_get;
  match nd_mode n with
  | Sync => on_storage (replace_pending_transactions (pending_transactions (nd_chain n)))
  | Async w => st_modify (set_mode (Async (try_enqueue
                 (PendingTransactionsJob (pending_transactions (nd_chain n))) w)))
  end.

Definition persist_added_block (b : Block) : stM (Node D) ChainError () :=
  n ← st_get;
  match nd_mode n with
  | Sync => on_storage (db_put_block b)
  | Async _ => mret ()
  end.

Definition persist_finalized_height (h : Z) : stM (Node D) ChainError () :=
  n ← st_get;
  match nd_mode n with
  | Sync => on_storage_silent (put_meta FINALIZED_HEIGHT_KEY h)
  | Async w => st_modify (set_mode (Async (try_enqueue (FinalizedHeightJob h) w)))
  end.

(** The two writes are independent: the account is written even if the evidence
    was not. *)
Definition persist_equivocation (ev : EquivocationEvidence) : stM (Node D) ChainError () :=
  n ← st_get;
  let address := address_bytes_from_public_key (ev_validator_public_key ev) in
  let account := accounts (bc_state (nd_chain n)) !! address in
  match nd_mode n with
  | Sync =>
      _ ← on_storage_silent (put_evidence ev);
      match account with
      | Some account => on_storage_silent (put_account address account)
      | None => mret ()
      end
  | Async w => st_modify (set_mode (Async (try_enqueue (EvidenceJob ev address account) w)))
  end.

(** ** The operations of the node *)

(** [add_block]: a full write at the boundaries of epochs. *)
Definition node_add_block (now : Z) (b : Block) : stM (Node D) ChainError () :=
  _ ← on_chain (add_block now b);
  _ ← persist_added_block b;
  n ← st_get;
  let len := epoch_length (bc_params (nd_chain n)) in
  if (0 <? len) && (height (header b) mod len =? 0) then persist_full_state else mret ().

Definition node_add_transaction (now : Z) (tx : Transaction) : stM (Node D) ChainError () :=
  _ ← on_chain (add_transaction now tx);
  persist_pending_transactions.

(** A reorganisation ends with a full write; the acceptance of a block on the tip
    is that of [add_block]. *)
Definition node_add_block_with_fork_choice (now : Z) (b : Block) : stM (Node D) ChainError bool :=
  n ← st_get;
  let c := nd_chain n in
  _ ← st_guard (negb ((MAX_REORG_DEPTH <? chain_height c) &&
                      (height (header b) <? saturating_sub (chain_height c) MAX_REORG_DEPTH)))
        (InvalidTransactionFormat "block too old: exceeds maximum reorg depth");
  if bool_decide (prev_hash (header b) = block_hash (latest_block c)) then
    _ ← node_add_block now b;
    mret false
  else
    reorged ← on_chain (add_block_with_fork_choice now b);
    if reorged : bool then _ ← persist_full_state; mret true else mret false.

(** [set_prune_keep_blocks] and [chain_base_height]. *)
Definition set_prune_keep_blocks (keep : option Z) (n : Node D) : Node D :=
  mkNode (nd_chain n) (nd_storage n) (nd_mode n) keep (nd_base_height n).
Definition set_base_height (h : Z) (n : Node D) : Node D :=
  mkNode (nd_chain n) (nd_storage n) (nd_mode n) (prune_keep_blocks n) h.
Definition chain_base_height (n : Node D) : Z := nd_base_height n.

(** [cursor.prune_below] on the node's cursor. Without a database the cursor is
    over an in-memory backend, which holds every height from the floor on. *)
Definition node_prune_below (keep_from : Z) (n : Node D) : result StorageError nat * Node D :=
  if (keep_from =? 0) || (keep_from <=? nd_base_height n) then (Ok 0%nat, n)
  else
    match nd_storage n with
    | Some d =>
        match db_prune_blocks_below keep_from d with
        | (Ok removed, d') => (Ok removed, set_base_height keep_from (set_node_storage d' n))
        | (Err e, d') => (Err e, set_node_storage d' n)
        end
    | None => (Ok (Z.to_nat (keep_from - nd_base_height n)), set_base_height keep_from n)
    end.

(** [maybe_prune_finalized]: nothing below the window is kept in the store. The
    list of the chain's blocks does not shrink: reads below the floor are those of
    [BlockStore.block_at]. *)
Definition maybe_prune_finalized (h : Z) (n : Node D) : nat * Node D :=
  match prune_keep_blocks n with
  | None => (0%nat, n)
  | Some keep =>
      if h <? keep then (0%nat, n)
      else
        let keep_from := h - keep in
        if keep_from =? 0 then (0%nat, n)
        else
          match node_prune_below keep_from n with
          | (Ok removed, n) => (removed, n)
          | (Err _, n) => (0%nat, n)
          end
  end.

Definition node_add_finality_vote (vote : FinalityVote) : stM (Node D) ChainError (option FinalizedBlock) :=
  finalized ← (λ n, let '(f, c) := add_finality_vote vote (nd_chain n) in (Ok f, set_chain c n));
  match finalized with
  | Some f =>
      _ ← persist_finalized_height (fb_height f);
      _ ← st_modify (λ n, (maybe_prune_finalized (fb_height f) n).2);
      mret finalized
  | None => mret None
  end.

Definition node_process_equivocation (ev : EquivocationEvidence) (n : Node D)
    : result SlashingError Z * Node D :=
  match process_equivocation ev (nd_chain n) with
  | Ok (penalty, c) => (Ok penalty, (persist_equivocation ev (set_chain c n)).2)
  | Err e => (Err e, n)
  end.

(** ** Start-up *)

(** Reading a block through the cursor; [block_at_height] panics on a failure. *)
Definition cursor_block (f : BlockStoreError → ChainError) (h : Z)
    : stM (Cursor D L) ChainError (option Block) := λ cu,
  let '(r, cu) := block_at h cu in (map_err f r, cu).

(** The walk that rebuilds the block tree; it ends at the first missing block. *)
Fixpoint load_tree (weights : accounts_map) (heights : list Z) (t : BlockTree)
    : stM (Cursor D L) ChainError BlockTree :=
  match heights with
  | [] => mret t
  | h :: heights =>
      found ← cursor_block ChainBlockStoreError h;
      match found with
      | None => mret t
      | Some b =>
          let stake := get_staked_balance weights
            (address_bytes_from_public_key (validator_public_key (header b))) in
          load_tree weights heights
            (match insert_block t b stake with Ok (_, t) => t | Err _ => t end)
      end
  end.

(** [iter_blocks().collect()]. *)
Fixpoint collect_blocks (heights : list Z) : stM (Cursor D L) ChainError (list Block) :=
  match heights with
  | [] => mret []
  | h :: heights =>
      found ← cursor_block (λ _, Panic) h;
      rest ← collect_blocks heights;
      mret (match found with Some b => b :: rest | None => rest end)
  end.

Definition storage_result {A} (r : result StorageError A) : stM (Cursor D L) ChainError A :=
  st_lift (map_err ChainStorageError r).

(** The chain [with_storage_mode] builds before it recomputes the state. *)
Definition load_chain (d : D) (genesis : GenesisConfig) (expected_genesis : Block)
    (stored_height : Z) : stM (Cursor D L) ChainError Blockchain :=
  found ← cursor_block ChainBlockStoreError 0;
  genesis_block ← st_lift (ok_or GenesisMismatch found);
  _ ← st_guard (bool_decide (block_hash genesis_block = block_hash expected_genesis)) GenesisMismatch;
  pending ← storage_result (get_all_pending_transactions_compat (gc_chain_id genesis) d);
  slashed ← storage_result (get_slashed_addresses d);
  weights ← storage_result (get_all_accounts_compat d);
  tree ← load_tree (list_to_map weights) (seqZ 1 stored_height) (tree_from_genesis genesis_block);
  finalized_meta ← storage_result (get_meta FINALIZED_HEIGHT_KEY d);
  let finalized_height := default 0 finalized_meta in
  finalized_block ← cursor_block ChainBlockStoreError finalized_height;
  registry ← storage_result (get_meta TOKEN_REGISTRY_KEY d);
  gov ← storage_result (get_meta GOVERNANCE_STATE_KEY d);
  cu ← st_get;
  blocks ← collect_blocks (seqZ 0 (height_count cu));
  mret (mkChain (params_of genesis)
          (mkExec ∅ ∅ ∅ (default registry_new registry) (default governance_new gov)) pending tree
          (with_finalized finalized_height (from_option block_hash [] finalized_block)) slashed ∅ ∅
          blocks ∅ ∅ ∅).

(** [with_storage_mode] on the database [Storage::open] returned. *)
Definition with_storage_mode (now : Z) (genesis_config : option GenesisConfig) (async : bool) (d : D)
    : result ChainError (Node D) :=
  stored ← map_err ChainStorageError (db_get_height d);
  match stored with
  | Some stored_height =>
      schema ← map_err ChainStorageError (get_schema_version d);
      stored_config ← map_err ChainStorageError (get_genesis_config_compat CHAIN_CONFIG_KEY d);
      let stored_genesis := default genesis_config_default stored_config in
      _ ← (match genesis_config with
           | Some expected => if bool_decide (stored_genesis = expected) then Ok () else Err GenesisMismatch
           | None => Ok ()
           end);
      expected_accounts ← accounts_from_genesis stored_genesis;
      let expected_genesis := genesis_with_state_root (compute_full expected_accounts ∅)
        (gc_chain_id stored_genesis) (gc_initial_base_fee_per_gas stored_genesis) in
      cu ← map_err ChainBlockStoreError (@new_with_persist D L _ _ d DEFAULT_BLOCK_CACHE_SIZE false);
      c ← (load_chain d stored_genesis expected_genesis stored_height cu).1;
      let '(r, c) := rebuild_canonical_state now c in
      _ ← r;
      let n := mkNode c (Some d) Sync None (base_height cu) in
      let '(r, n) := if default 1 schema <? CURRENT_SCHEMA_VERSION then persist_full_state n else (Ok (), n) in
      _ ← r;
      Ok (if async then set_mode (Async worker_spawn) n else n)
  | None =>
      c ← from_genesis (default genesis_config_default genesis_config);
      let '(r, n) := persist_full_state (mkNode c (Some d) Sync None 0) in
      _ ← r;
      Ok (if async then set_mode (Async worker_spawn) n else n)
  end.
End node.
