(* ===== verification/ForkChoiceSafety.v ===== *)
(** * What replay, fork choice and finality guarantee

    Theorems about the definitions of [ForkChoice]: a node that only accepted
    blocks recomputes its own state, a reorganisation keeps the finalized part of
    the chain, a finality vote moves the tracker and the tree together; and what
    goes wrong when validators were slashed or a rebuild fails. *)
From S2P Require Import Prelude Hash Crypto Vm Transaction Token Governance Block Account.
From S2P Require Import Validators Slashing Finality Settlement BlockTree Trie StateRoot Chain Apply.
From S2P Require Import Ledger AddBlock ChainSafety ForkChoice.

Section history.
Context `{Sha3} `{MlDsa} `{EvmEngine} `{WasmEngine} `{HashOrder} `{HexDecode}
  `{!Bincode SignableTransaction}
  `{!Bincode BlockHeader} `{!Bincode ProposalKind} `{!BincodeAccountLeaf} `{!BincodeStorageLeaf}
  `{!BincodeContractLeaf} `{!Json DeployTokenParams} `{!Json TokenTransferParams}
  `{!Json TokenApproveParams} `{!Json TokenTransferFromParams} `{!Json SubmitProposalParams}
  `{!Json GovernanceVoteParams}.

(** The chains a node reaches from genesis by accepting blocks, at times up to
    [limit]; in between, anything may change the mempool, the block tree or the
    finality tracker. *)
Inductive grown (g : GenesisConfig) (limit : Z) : Blockchain → Prop :=
  | grown_genesis c : from_genesis g = Ok c → grown g limit c
  | grown_block c now b c' :
      grown g limit c → now ≤ limit → block_count c < u64_max →
      add_block now b c = (Ok (), c') → grown g limit c'
  | grown_other c c' :
      grown g limit c → same_ledger c c' → bc_blocks c' = bc_blocks c → grown g limit c'.

Lemma grown_linked g limit c : grown g limit c → chain_linked c.
Proof.
  induction 1 as [c Hc|c now b c' _ IH _ Hlim Ha|c c' _ IH _ Eb].
  - by eapply from_genesis_linked.
  - pose proof (add_block_linked now b c IH Hlim) as Hl. by rewrite Ha in Hl.
  - unfold chain_linked. by rewrite Eb.
Qed.

(** The replay loop on a scratch chain that holds at least the blocks of [c]. *)
Definition replays (g : GenesisConfig) (limit : Z) (c : Blockchain) : Prop :=
  ∃ g0, from_genesis g = Ok g0 ∧
  ∀ r, same_ledger g0 r → bc_blocks c `prefix_of` bc_blocks r →
    ∃ r', rebuild_blocks limit (latest_block g0) (tail (bc_blocks c)) r = (Ok (), r') ∧
      same_ledger c r' ∧ bc_blocks r' = bc_blocks r.

Lemma from_genesis_blocks g c :
  from_genesis g = Ok c → bc_blocks c = [latest_block c] ∧ bc_params c = params_of g ∧
  bc_slashed_validators c = ∅ ∧ validator_missed_epochs c = ∅ ∧
  genesis_execution c = Ok (bc_state c) ∧
  epoch_snapshots c = {[ 0 := snapshot_for_accounts c 0 (accounts (bc_state c)) ]}.
Proof.
  unfold from_genesis. intros Hg. repeat st_step. unfold genesis_execution. simpl.
  match goal with E : accounts_from_genesis g = Ok _ |- _ => by rewrite E end.
Qed.

Lemma genesis_block_of g g0 : from_genesis g = Ok g0 →
  ∃ m, accounts_from_genesis g = Ok m ∧
    latest_block g0 = genesis_with_state_root (compute_full m ∅) (gc_chain_id g)
                        (gc_initial_base_fee_per_gas g).
Proof. unfold from_genesis. intros Hg. repeat st_step. by eexists. Qed.

Lemma last_tail_latest c b0 l :
  bc_blocks c = b0 :: l → latest_block c = default b0 (last l).
Proof.
  intros E. apply latest_block_last. rewrite E, last_cons. by destruct (last l).
Qed.

Lemma grown_replays g limit c : grown g limit c → replays g limit c ∧
  ∃ b0, head (bc_blocks c) = Some b0 ∧ ∀ g0, from_genesis g = Ok g0 → latest_block g0 = b0.
Proof.
  induction 1 as [c Hc|c now b c' Hgr [(g0&Hg0&IH) (b0&Hb0&Hl0)] Hn Hlim Ha|
                  c c' Hgr [(g0&Hg0&IH) Hhd] Hl Eb].
  - destruct (from_genesis_blocks g c Hc) as (Eb&_). split.
    + exists c. split; [done|]. intros r Hr _. rewrite Eb. by exists r.
    + exists (latest_block c). rewrite Eb. split; [done|]. intros g0 Hg0. rewrite Hc in Hg0. by injection Hg0 as <-.
  - pose proof (grown_linked _ _ _ Hgr) as Hlk.
    destruct (add_block_appends _ _ _ _ _ Hlk Hlim Ha) as (Eb&_&_).
    destruct (bc_blocks c) as [|b1 l] eqn:Ebc; [done|]. injection Hb0 as ->. split.
    + exists g0. split; [done|]. intros r Hr Hpre. rewrite Eb in Hpre |- *.
      destruct (IH r Hr) as (r1&Hr1&Hl1&Eb1); [by eapply prefix_app_l|].
      cbn [tail app] in *. rewrite (rebuild_blocks_snoc _ _ _ _ _ _ _ Hr1).
      rewrite (Hl0 g0 Hg0), <- (last_tail_latest c b0 l Ebc).
      destruct (rebuild_block_agrees now limit b c c' r1) as (r2&Hr2&Hl2&Eb2); try done.
      { rewrite Eb1, Ebc. by eapply prefix_app_l. }
      exists r2. split_and!; [done..|congruence].
    + exists b0. by rewrite Eb.
  - unfold replays. rewrite Eb. split; [|done]. exists g0. split; [done|]. intros r Hr Hpre.
    destruct (IH r Hr Hpre) as (r1&Hr1&Hl1&Eb1). exists r1. split_and!; [done| |done].
    eapply same_ledger_trans; [by apply same_ledger_sym|done].
Qed.

Lemma grown_params g limit c : grown g limit c → bc_params c = params_of g ∧ bc_slashed_validators c = ∅.
Proof.
  induction 1 as [c Hc|c now b c' _ [IHp IHs] _ _ Ha|c c' _ [IHp IHs] ((Ep&_&Es)&_) _].
  - by destruct (from_genesis_blocks g c Hc) as (_&?&?&_).
  - apply add_block_Ok in Ha as (s&_&->).
    destruct (commit_block_ledger b s (prepared c (height (header b)))) as ((Ep&_&Es)&_).
    rewrite Ep, Es. simpl. split; [by rewrite (proj1 (prepared_same c _))|].
    unfold prepared, settle_epoch. case_match. simpl. unfold open_epoch. by case_match.
  - by rewrite Ep, Es.
Qed.

(** The same on a second node, which accepts the blocks itself. *)
Lemma add_block_agrees now now' b c c' r :
  chain_linked c → block_count c < u64_max → now ≤ now' →
  add_block now b c = (Ok (), c') → same_ledger c r → bc_blocks r = bc_blocks c →
  ∃ r', add_block now' b r = (Ok (), r') ∧ same_ledger c' r' ∧ bc_blocks r' = bc_blocks c'.
Proof.
  intros Hc Hlim Hn Ha Hl Eb. pose proof (add_block_appends _ _ _ _ _ Hc Hlim Ha) as (Eb'&Eh&_).
  unfold add_block, st_modify, st_get, st_lift, mbind, stM_bind in *.
  fold (prepared c (height (header b))) in Ha. fold (prepared r (height (header b))).
  destruct (prepared_same r (height (header b))) as (Epr&Ebr&_&_&Elr).
  destruct (prepared_same c (height (header b))) as (Epc&_&_&_&Elc).
  pose proof (prepared_ledger c r (height (header b)) Hl ltac:(by rewrite Eb)
    ltac:(unfold block_count in *; lia)) as Hp.
  assert (latest_block r = latest_block c) as Elb
    by (unfold latest_block, block_at_height, chain_height, block_count; by rewrite Eb).
  destruct (validate_block_against_state _ _ _ _ _) as [s|e] eqn:Hv in Ha; [|done].
  rewrite Elc in Hv. destruct Hp as (Hr&Est&Em).
  rewrite Elr, Elb, Est, (validate_later _ now' _ _ _ _ _ _ Hr Hn Hv), (proj1 Hr).
  destruct (verify_block_against_known _ _ _); [|done]. eexists. split; [done|].
  injection Ha as <-. split.
  - eapply same_ledger_trans; [apply same_ledger_sym, commit_block_ledger|].
    eapply same_ledger_trans; [|apply commit_block_ledger]. rewrite Est.
    by apply set_state_ledger.
  - rewrite Eb', commit_block_blocks by (unfold block_count in *; congruence). congruence.
Qed.

Lemma add_blocks_snoc now l b r u r1 :
  add_blocks now l r = (Ok u, r1) → add_blocks now (l ++ [b]) r = add_block now b r1.
Proof.
  revert r. induction l as [|a l IH]; intros r Hr.
  - simpl in Hr. st_step. simpl. unfold mbind, stM_bind. by destruct (add_block _ _ _) as [[[]|e] r2].
  - cbn [add_blocks app] in *. apply st_bind_Ok in Hr as ([]&r2&Ha&Hr).
    unfold mbind at 1, stM_bind at 1. by rewrite Ha, (IH _ Hr).
Qed.

Lemma grown_resyncs g limit c : grown g limit c →
  ∃ g0, from_genesis g = Ok g0 ∧ ∃ r, add_blocks limit (tail (bc_blocks c)) g0 = (Ok (), r) ∧
    same_ledger c r ∧ bc_blocks r = bc_blocks c.
Proof.
  induction 1 as [c Hc|c now b c' Hgr (g0&Hg0&r&Hr&Hl&Eb) Hn Hlim Ha|
                  c c' Hgr (g0&Hg0&r&Hr&Hl&Eb) Hl' Eb'].
  - destruct (from_genesis_blocks g c Hc) as (Eb&_). rewrite Eb. by exists c; split; [|exists c].
  - pose proof (grown_linked _ _ _ Hgr) as Hlk.
    destruct (add_block_appends _ _ _ _ _ Hlk Hlim Ha) as (Ebc&_&_).
    destruct (add_block_agrees now limit b c c' r) as (r'&Hr'&Hlr&Ebr); try done.
    exists g0. split; [done|]. exists r'. rewrite Ebc. destruct (bc_blocks c) as [|b1 l] eqn:E.
    { by destruct Hlk. }
    cbn [tail app] in *. rewrite (add_blocks_snoc _ _ _ _ _ _ Hr), Ebr. done.
  - exists g0. split; [done|]. exists r. rewrite Eb'. split_and!; [done| |congruence].
    eapply same_ledger_trans; [by apply same_ledger_sym|done].
Qed.

(** The self-check passes: [is_valid] holds of every chain a node grew from
    genesis, at any time not before its blocks were accepted. *)
Theorem grown_is_valid (g : GenesisConfig) (limit : Z) (c : Blockchain) :
  grown g limit c → is_valid limit c = true.
Proof.
  intros Hgr. destruct (grown_resyncs _ _ _ Hgr) as (g0&Hg0&r&Hr&(_&Est&_)&_).
  destruct (grown_params _ _ _ Hgr) as [Ep _]. unfold is_valid.
  rewrite Ep. cbn [genesis_config params_of]. rewrite Hg0, Hr, Est.
  by rewrite !bool_decide_eq_true_2.
Qed.

(** Every chain with the blocks and rules of a grown one rebuilds its ledger. *)
Lemma grown_rebuilds g limit c d :
  grown g limit c → bc_params d = bc_params c → bc_blocks d = bc_blocks c →
  bc_slashed_validators d = ∅ →
  ∃ d', rebuild_canonical_state limit d = (Ok (), d') ∧ same_ledger c d' ∧
    same_position d d'.
Proof.
  intros Hgr Epd Ebd Esd. destruct (grown_replays _ _ _ Hgr) as [(g0&Hg0&Hrep) (b0&Hb0&Hl0)].
  destruct (grown_params _ _ _ Hgr) as [Ep _]. rewrite Ep in Epd.
  destruct (from_genesis_blocks g g0 Hg0) as (_&Ep0&Es0&Em0&Est0&Esn0).
  assert (∃ d', rebuild_canonical_state limit d = (Ok (), d') ∧ same_ledger c d') as (d'&Hd&Hl).
  { unfold rebuild_canonical_state, st_get, st_lift, st_modify, st_throw, mbind, stM_bind.
    assert (genesis_execution d = Ok (bc_state g0)) as ->.
    { rewrite <- Est0. unfold genesis_execution. by rewrite Epd, Ep0. }
    set (c1 := set_epochs _ _ d).
    destruct (rebuild_indexes_same c1) as (((Epi&Eni&Esi)&_)&Ebi&_).
    assert (bc_blocks (rebuild_indexes c1) = bc_blocks c) as Ebc by (by rewrite Ebi, <- Ebd).
    rewrite Ebc.
    rewrite Ebd, Hb0. cbn [ok_or]. rewrite <- (Hl0 g0 Hg0).
    destruct (Hrep (scratch (bc_state g0) (rebuild_indexes c1))) as (r&Hr&Hlr&Ebr).
    - unfold same_ledger, same_rules, scratch, set_missed. simpl. rewrite Epi, Eni, Esi. simpl.
      rewrite Epd, Esd, Ep0, Es0, Em0, Esn0. split_and!; try done.
      unfold snapshot_for_accounts. by rewrite Epd, Esd, Ep0, Es0.
    - simpl. by rewrite Ebi, <- Ebd.
    - rewrite Hr. by exists r. }
  exists d'. split_and!; [done|done|]. by eapply rebuild_Ok.
Qed.

(** C3: replay agrees with acceptance. The state, epoch snapshots and missed-epoch
    counters that [rebuild_canonical_state] recomputes from the genesis
    configuration and the canonical blocks, at any time not before the blocks
    were accepted, are exactly those a node built up block by block. *)
Theorem replay_agrees (g : GenesisConfig) (limit : Z) (c : Blockchain) :
  grown g limit c →
  ∃ c', rebuild_canonical_state limit c = (Ok (), c') ∧ bc_state c' = bc_state c ∧
    epoch_snapshots c' = epoch_snapshots c ∧
    validator_missed_epochs c' = validator_missed_epochs c ∧ bc_blocks c' = bc_blocks c.
Proof.
  intros Hgr. destruct (grown_rebuilds g limit c c Hgr) as (c'&Hc'&((_&?&_)&?&?)&(_&?&_)); [done..| |].
  - by destruct (grown_params _ _ _ Hgr).
  - by exists c'.
Qed.

(** ** Reorganisation *)

Lemma common_ancestor_descends root t a b x :
  tree_wf root t → common_ancestor t a b = Some x →
  is_Some (entries t !! x) ∧ is_Some (entries t !! a) ∧ descends t a x ∧ descends t b x.
Proof.
  unfold common_ancestor. intros Hwf Hc. apply fmap_Some in Hc as ([i [k blk]]&Hf&->).
  apply list_find_Some in Hf as (Hi&Hin&_). simpl in *. apply list_elem_of_lookup_2 in Hi.
  apply elem_of_list_to_set, (elem_of_ancestry root t Hwf) in Hin as [Ha Hax].
  assert (k ∈ (ancestry t b).*1) as [Hb Hbx]%(elem_of_ancestry root t Hwf)
    by (by apply (list_elem_of_fmap_2 fst) in Hi).
  split_and!; [by eapply descends_known|done..].
Qed.

Lemma elem_of_canonical_chain root t k e :
  tree_wf root t → entries t !! k = Some e → descends t (canonical_tip t) k →
  be_block e ∈ canonical_chain t.
Proof.
  intros Hwf He Hd. unfold canonical_chain. apply elem_of_reverse.
  assert (k ∈ (ancestry t (canonical_tip t)).*1) as Hk
    by (apply (elem_of_ancestry root t Hwf); split; [by eapply tw_tip|done]).
  apply list_elem_of_fmap in Hk as ([k' b]&->&Hk).
  apply list_elem_of_lookup in Hk as [i Hi]. destruct (walk_entry _ _ _ _ _ _ Hi) as (e'&He'&<-).
  simpl in He. simplify_eq. apply list_elem_of_fmap.
  eexists (_, _). split; [|by eapply list_elem_of_lookup_2]. done.
Qed.

Lemma canonical_last root t b :
  tree_wf root t → last (canonical_chain t) = Some b →
  block_hash b = canonical_tip t ∧ ∃ e, entries t !! canonical_tip t = Some e ∧ be_block e = b.
Proof.
  intros Hwf Hl. destruct (canonical_chain_walk root t Hwf) as (tip&_&Ht&_&_&_&Hl'&_).
  rewrite Hl in Hl'. injection Hl' as ->. split; [by eapply tw_hash|]. eauto.
Qed.

Lemma reorg_blocks root now c u c' :
  tree_wf root (block_tree c) → reorg_to_canonical_tip now c = (Ok u, c') →
  check_reorg c = Ok () ∧ bc_blocks c' = canonical_chain (block_tree c) ∧
  block_tree c' = block_tree c ∧ finality_tracker c' = finality_tracker c.
Proof.
  intros Hwf Hr. unfold reorg_to_canonical_tip in Hr. repeat st_step. split; [done|].
  match goal with E : rebuild_canonical_state _ _ = _ |- _ => apply rebuild_Ok in E as (_&->&->&->&_) end.
  destruct (replace_all_blocks_numbered (canonical_chain (block_tree c)) c) as (_&->&->&->); [|done].
  intros i b. by apply (canonical_chain_numbered root).
Qed.

(** C17: a reorganisation respects finality. After a successful switch with a
    finalized block, the chain is the tree's canonical chain, genesis first and
    linked, it contains the finalized block, and it keeps every block of the old
    chain up to the finalized height. *)
Theorem reorg_respects_finality (root : bytes) (now : Z) (c c' : Blockchain) (u : ()) :
  tree_wf root (block_tree c) → reorg_to_canonical_tip now c = (Ok u, c') →
  let fin := finalized_height (finality_tracker c) in
  0 < fin →
  bc_blocks c' = canonical_chain (block_tree c) ∧ chain_linked c' ∧
  (∃ b, b ∈ bc_blocks c' ∧ block_hash b = finalized_hash (finality_tracker c)) ∧
  (∀ k e, entries (block_tree c) !! k = Some e →
     descends (block_tree c) (block_hash (latest_block c)) k →
     height (header (be_block e)) ≤ fin → be_block e ∈ bc_blocks c').
Proof.
  intros Hwf Hr fin Hfin. apply (reorg_blocks root) in Hr as (Hck&Eb&_&_); [|done].
  set (t := block_tree c) in *. unfold check_reorg in Hck. fold t fin in Hck.
  destruct (canonical_chain_walk root t Hwf) as (tip&g&Htip&_&_&_&Hl&_). rewrite Hl in Hck. simpl in Hck.
  destruct (height (header (be_block tip)) <? fin); [done|].
  rewrite (proj2 (Z.ltb_lt _ _) Hfin) in Hck. repeat st_step.
  match goal with E : (if ?b then _ else _) = Ok _ |- _ => destruct b eqn:Ha in E; [done|];
    destruct (negb _) eqn:Hd in E; [done|] end. bool_to_prop.
  rewrite (tw_hash _ _ Hwf _ _ Htip) in *.
  apply (is_descendant_of_spec root t Hwf) in Hd as [_ Hd]. split_and!; [done| | |].
  - split; [by rewrite Eb; destruct (canonical_chain t)|]. rewrite Eb. intros i b Hb.
    split; [by eapply canonical_chain_numbered|]. intros p Hi Hp.
    destruct i as [|i]; [lia|]. by apply (canonical_chain_link root t i).
  - destruct (descends_known root t Hwf _ _ (mk_is_Some _ _ Htip) Hd) as [f Hf].
    exists (be_block f). rewrite Eb. split; [by eapply elem_of_canonical_chain|by eapply tw_hash].
  - intros k e He Hk Hh.
    match goal with E : common_ancestor _ _ _ = Some ?x |- _ =>
      apply (common_ancestor_descends root t _ _ _ Hwf) in E as (_&_&Ha1&Ha2) end.
    match goal with E : entries t !! _ = Some ?y |- _ =>
      destruct (descends_linear _ _ _ _ Ha1 Hk) as [Hr|Hr] end.
    + rewrite Eb. eapply elem_of_canonical_chain; [done..|]. unfold descends. etrans; [exact Ha2|exact Hr].
    + rewrite Eb. eapply elem_of_canonical_chain; [done..|].
      match goal with E : entries t !! _ = Some _, F : _ ≤ height (header (be_block ?y)) |- _ =>
        destruct (descends_height root t Hwf _ _ _ _ He E Hr) as [->|]; [done|lia] end.
Qed.

(** A refused or failed reorganisation. Refused by the guards, it changes
    nothing. Failing in the rebuild, it leaves a torn node: the blocks of the
    new branch over the accounts, contracts and missed-epoch counters of the
    old one. *)
Theorem reorg_failure (root : bytes) (now : Z) (c c' : Blockchain) (e : ChainError) :
  tree_wf root (block_tree c) → reorg_to_canonical_tip now c = (Err e, c') →
  (check_reorg c = Err e ∧ c' = c) ∨
  (check_reorg c = Ok () ∧ bc_blocks c' = canonical_chain (block_tree c) ∧
   bc_state c' = bc_state c ∧ validator_missed_epochs c' = validator_missed_epochs c).
Proof.
  intros Hwf. unfold reorg_to_canonical_tip, st_get, st_lift, st_modify, mbind, stM_bind.
  destruct (check_reorg c) as [[]|e1]; [|intros [= -> <-]; by left].
  intros Hr. right. apply rebuild_Err in Hr as ((_&->&_)&->&->).
  destruct (replace_all_blocks_numbered (canonical_chain (block_tree c)) c)
    as ((_&->&->)&->&_); [|done].
  intros i b. by apply (canonical_chain_numbered root).
Qed.

(** ** The node as a transition system *)

(** What a node does to its chain: a block on the tip, a block through fork
    choice, a finality vote, evidence; accepted or not. *)
Inductive node_step : relation Blockchain :=
  | node_block now b c : is_u64 (height (header b)) → node_step c (add_block now b c).2
  | node_fork_choice now b c :
      is_u64 (height (header b)) → node_step c (add_block_with_fork_choice now b c).2
  | node_vote vote c : node_step c (add_finality_vote vote c).2
  | node_evidence ev c penalty c' :
      process_equivocation ev c = Ok (penalty, c') → node_step c c'.

(** The tracker and the tree agree on what is final. *)
Record finality_sync (root : bytes) (c : Blockchain) : Prop := {
  fs_tree : tree_wf root (block_tree c);
  fs_tracker : tracker_wf (finality_tracker c);
  fs_height : finalized_height (finality_tracker c) = bt_finalized_height (block_tree c);
  fs_hash : 0 < finalized_height (finality_tracker c) →
    finalized_hash (finality_tracker c) = bt_finalized_hash (block_tree c);
}.

Lemma sync_step root c c' :
  finality_sync root c → finality_tracker c' = finality_tracker c →
  rtc tree_step (block_tree c) (block_tree c') →
  bt_finalized_height (block_tree c') = bt_finalized_height (block_tree c) →
  bt_finalized_hash (block_tree c') = bt_finalized_hash (block_tree c) → finality_sync root c'.
Proof.
  intros [Ht Htr Hh Hx] Ef Hs Eh Ex. split; rewrite ?Ef, ?Eh, ?Ex; try done. by eapply rtc_tree_wf.
Qed.

Lemma insert_block_final t b stake changed t' :
  insert_block t b stake = Ok (changed, t') →
  bt_finalized_height t' = bt_finalized_height t ∧ bt_finalized_hash t' = bt_finalized_hash t.
Proof. intros [(->&_)|(p&_&_&_&_&_&_&->&->&_)]%insert_block_cases; done. Qed.

(** An insertion that leaves the rest of finality alone. *)
Definition inserts (c c' : Blockchain) : Prop :=
  finality_tracker c' = finality_tracker c ∧ rtc tree_step (block_tree c) (block_tree c') ∧
  bt_finalized_height (block_tree c') = bt_finalized_height (block_tree c) ∧
  bt_finalized_hash (block_tree c') = bt_finalized_hash (block_tree c).

Lemma inserts_same c c' :
  finality_tracker c' = finality_tracker c → block_tree c' = block_tree c → inserts c c'.
Proof. unfold inserts. intros -> ->. by repeat split. Qed.

Lemma commit_block_inserts b s c :
  is_u64 (height (header b)) → inserts c (commit_block b s c).
Proof.
  intros Hu. assert (∀ d, inserts c d → inserts c (remove_block_transactions_from_mempool b
    (index_block b (push_block_internal b (set_state (set_receipts (receipts s ∪ receipts (bc_state d)) s) d)))))
    as Hd.
  { intros d Hd. destruct (index_block_same b (push_block_internal b
      (set_state (set_receipts (receipts s ∪ receipts (bc_state d)) s) d))) as (_&_&Et&Ef).
    unfold inserts, remove_block_transactions_from_mempool, set_pool. simpl. rewrite Et, Ef.
    unfold push_block_internal. by case_match. }
  unfold commit_block. destruct (insert_block _ _ _) as [[f t]|e] eqn:Hi; apply Hd;
    [|by apply inserts_same].
  destruct (insert_block_final _ _ _ _ _ Hi) as [Eh Ex]. split_and!; simpl; try done.
  by eapply rtc_once, step_insert.
Qed.

Lemma add_block_inserts now b c :
  is_u64 (height (header b)) → inserts c (add_block now b c).2.
Proof.
  intros Hu. destruct (prepared_same c (height (header b))) as (_&_&Et&Ef&_).
  destruct (add_block now b c) as [[u|e] c'] eqn:Ha; simpl.
  - apply add_block_Ok in Ha as (s&_&->). unfold inserts. rewrite <- Et, <- Ef.
    by apply commit_block_inserts.
  - apply add_block_Err in Ha as ->. by apply inserts_same.
Qed.

Lemma reorg_position root now c :
  tree_wf root (block_tree c) → block_tree (reorg_to_canonical_tip now c).2 = block_tree c ∧
  finality_tracker (reorg_to_canonical_tip now c).2 = finality_tracker c.
Proof.
  intros Hwf. unfold reorg_to_canonical_tip, st_get, st_lift, st_modify, mbind, stM_bind.
  destruct (check_reorg c); [|done].
  destruct (replace_all_blocks_numbered (canonical_chain (block_tree c)) c)
    as (_&_&Et&Ef); [intros i b; by apply (canonical_chain_numbered root)|].
  destruct (rebuild_canonical_state _ _) as [[u|e] c'] eqn:Hr; simpl.
  - apply rebuild_Ok in Hr as (_&_&->&->&_). done.
  - apply rebuild_Err in Hr as ((_&_&->&->&_)&_). done.
Qed.

(** Fork choice, opened: refused, an ordinary block, or a block of another
    branch, with or without a switch to it. *)
Lemma fork_choice_cases now b c r c' :
  add_block_with_fork_choice now b c = (r, c') →
  (is_ok r = false ∧ c' = c) ∨
  (prev_hash (header b) = block_hash (latest_block c) ∧
   ∃ r0, add_block now b c = (r0, c') ∧ r = (_ ← r0; Ok false)) ∨
  (prev_hash (header b) ≠ block_hash (latest_block c) ∧
   ∃ parent ps s changed t, entries (block_tree c) !! prev_hash (header b) = Some parent ∧
     replay_state_to_tip now c (block_hash (be_block parent)) = Ok ps ∧
     validate_block_against_state now c b (be_block parent) ps = Ok s ∧
     insert_block (block_tree c) b (fork_stake b s) = Ok (changed, t) ∧
     if changed : bool then ∃ r0, reorg_to_canonical_tip now (set_tree t c) = (r0, c') ∧ r = (_ ← r0; Ok true)
     else c' = set_tree t c ∧ r = Ok false).
Proof.
  unfold add_block_with_fork_choice, st_get, st_guard, st_lift, st_modify.
  unfold mbind, stM_bind, mret, stM_ret, result_bind.
  case_match; [|intros [= <- <-]; by left]. case_bool_decide as Htip.
  { intros Ha. right; left. split; [done|]. destruct (add_block now b c) as [[u|e] c1];
      injection Ha as <- <-; eauto. }
  destruct (entries _ !! _) as [parent|]; [|intros [= <- <-]; by left]. cbn [ok_or].
  destruct (replay_state_to_tip _ _ _) as [ps|e] eqn:Hps; [|intros [= <- <-]; by left].
  destruct (validate_block_against_state _ _ _ _ _) as [s|e] eqn:Hs; [|intros [= <- <-]; by left].
  destruct (insert_block _ _ _) as [[changed t]|e] eqn:Hi; [|intros [= <- <-]; by left].
  intros Hr. right; right. split; [done|]. exists parent, ps, s, changed, t. simpl in Hr.
  split_and!; [done..|]. destruct changed; [|by simplify_eq].
  destruct (reorg_to_canonical_tip _ _) as [[u|e] c1]; injection Hr as <- <-; eauto.
Qed.

Lemma fork_choice_inserts root now b c :
  tree_wf root (block_tree c) → is_u64 (height (header b)) →
  inserts c (add_block_with_fork_choice now b c).2.
Proof.
  intros Hwf Hu. destruct (add_block_with_fork_choice now b c) as [r c'] eqn:Hf. simpl.
  apply fork_choice_cases in Hf as [[_ ->]|[(_&r0&Ha&_)|(_&parent&ps&s&changed&t&_&_&_&Hi&Hc)]].
  - by apply inserts_same.
  - pose proof (add_block_inserts now b c Hu) as Hin. by rewrite Ha in Hin.
  - assert (inserts c (set_tree t c)) as Hin.
    { destruct (insert_block_final _ _ _ _ _ Hi) as [Eh Ex]. split_and!; simpl; try done.
      by eapply rtc_once, step_insert. }
    destruct changed; [|by destruct Hc as [-> _]]. destruct Hc as (r0&Hr&_).
    destruct (reorg_position root now (set_tree t c)) as [Et Ef].
    { simpl. eapply insert_block_wf; eauto. }
    rewrite Hr in Et, Ef. simpl in Et, Ef. unfold inserts. by rewrite Et, Ef.
Qed.

Lemma add_vote_unfinalized t vote snapshot t' :
  add_vote t vote snapshot = (None, t') →
  finalized_height t' = finalized_height t ∧ finalized_hash t' = finalized_hash t.
Proof. unfold add_vote. repeat case_match; intros; by simplify_eq. Qed.

(** What a vote does to the chain. *)
Lemma vote_cases vote c r c' :
  add_finality_vote vote c = (r, c') →
  (r = None ∧ c' = c) ∨
  ∃ e snapshot tracker, entries (block_tree c) !! fv_block_hash vote = Some e ∧
    height (header (be_block e)) = fv_block_height vote ∧
    fv_epoch vote = epoch_for_height (bc_params c) (fv_block_height vote) ∧
    is_on_canonical_chain (block_tree c) (fv_block_hash vote) = true ∧
    epoch_snapshots c !! fv_epoch vote = Some snapshot ∧
    add_vote (finality_tracker c) vote snapshot = (r, tracker) ∧
    c' = match r with
         | Some f => set_tree (set_finalized (block_tree c) (fb_hash f) (fb_height f)) (set_tracker tracker c)
         | None => set_tracker tracker c
         end.
Proof.
  unfold add_finality_vote. destruct (entries _ !! _) as [e|] eqn:He; [|intros [= <- <-]; by left].
  destruct (negb (_ =? _)) eqn:Hh; [intros [= <- <-]; by left|].
  destruct (negb (fv_epoch vote =? _)) eqn:Hep; [intros [= <- <-]; by left|].
  destruct (negb (is_on_canonical_chain _ _)) eqn:Hcan; [intros [= <- <-]; by left|].
  destruct (epoch_snapshots c !! _) as [snapshot|] eqn:Hs; [|intros [= <- <-]; by left].
  destruct (add_vote _ _ _) as [r0 tracker] eqn:Ha. intros [= <- <-]. right. bool_to_prop.
  exists e, snapshot, tracker. rewrite Hep. by destruct r0.
Qed.

Lemma vote_sync root vote c r c' :
  finality_sync root c → add_finality_vote vote c = (r, c') →
  finality_sync root c' ∧ rtc tree_step (block_tree c) (block_tree c').
Proof.
  intros Hc Hv. apply vote_cases in Hv as [[_ ->]|(e&sn&tr&He&Hh&_&Hcan&_&Ha&->)]; [done|].
  destruct Hc as [Ht Htr Hfh Hfx].
  pose proof (add_vote_wf (finality_tracker c) vote sn Htr) as Htr'. rewrite Ha in Htr'.
  destruct r as [f|].
  - apply add_vote_finalizes in Ha as (_&_&_&_&->&Hlt&Eh&Ex); [|done]. simpl in *.
    assert (tree_step (block_tree c) (set_finalized (block_tree c) (fv_block_hash vote) (fv_block_height vote)))
      as Hs by (rewrite <- Hh; eapply step_finalize; [done..|lia]).
    split; [|by apply rtc_once]. assert (height (header (be_block e)) ≠ 0) as Hnz.
    { pose proof (tw_final _ _ Ht) as (f&Hf&Hff). pose proof (tw_height _ _ Ht _ _ Hf). lia. }
    destruct (pruned_fields (block_tree c) (fv_block_hash vote) e Hnz) as (_&Px&Ph). rewrite Hh in Px, Ph.
    split; simpl; rewrite ?Px, ?Ph; try done. by eapply tree_step_wf.
  - apply add_vote_unfinalized in Ha as [Eh Ex]. split; [|done].
    split; simpl; rewrite ?Eh, ?Ex; done.
Qed.

Lemma node_step_sync root c c' :
  finality_sync root c → node_step c c' →
  finality_sync root c' ∧ rtc tree_step (block_tree c) (block_tree c').
Proof.
  intros Hc Hs. assert (∀ d, inserts c d → finality_sync root d ∧ rtc tree_step (block_tree c) (block_tree d))
    as Hins by (intros d (?&?&?&?); split; [by eapply sync_step|done]).
  destruct Hs as [now b c Hu|now b c Hu|vote c|ev c penalty c' Hev].
  - by apply Hins, add_block_inserts.
  - apply Hins. eapply fork_choice_inserts; [apply Hc|done].
  - destruct (add_finality_vote vote c) as [r c'] eqn:Hv. by eapply vote_sync.
  - unfold process_equivocation in Hev.
    destruct (slash_with_evidence _ _ _ _) as [[[? ?] ?]|?]; simplify_eq/=.
    refine (Hins _ _). by apply inserts_same.
Qed.

(** C2: finality is final. Start from a node whose tracker and tree agree, such as a
    fresh one, and take any sequence of blocks, fork blocks with their
    reorganisations, votes and evidence, accepted or refused. The tracker and
    the tree still agree, and what was final at the start is an ancestor of what
    is final now and on the tree's canonical chain. *)
Theorem node_finality_stable (root : bytes) (c c' : Blockchain) :
  finality_sync root c → rtc node_step c c' →
  finality_sync root c' ∧
  descends (block_tree c') (bt_finalized_hash (block_tree c')) (bt_finalized_hash (block_tree c)) ∧
  is_on_canonical_chain (block_tree c') (bt_finalized_hash (block_tree c)) = true ∧
  (0 < finalized_height (finality_tracker c) →
   is_on_canonical_chain (block_tree c') (finalized_hash (finality_tracker c)) = true).
Proof.
  intros Hc Hr.
  assert (finality_sync root c' ∧ rtc tree_step (block_tree c) (block_tree c')) as [Hc' Ht].
  { induction Hr as [c|c c1 c2 Hs _ IH]; [done|].
    destruct (node_step_sync root c c1 Hc Hs) as [Hc1 Ht1].
    destruct (IH Hc1) as [? ?]. split; [done|by etrans]. }
  pose proof (rtc_tree_final root _ _ _ (fs_tree _ _ Hc) Ht (rtc_refl _ _)) as Hd.
  assert (is_on_canonical_chain (block_tree c') (bt_finalized_hash (block_tree c)) = true) as Hcan.
  { apply (is_descendant_of_spec root _ (fs_tree _ _ Hc')). split; [by eapply tw_tip, fs_tree|].
    unfold descends. etrans; [by eapply tw_tip_final, fs_tree|exact Hd]. }
  split_and!; [done..|]. intros Hpos. by rewrite (fs_hash _ _ Hc Hpos).
Qed.

Lemma from_genesis_sync g c : from_genesis g = Ok c → finality_sync (genesis_hash c) c.
Proof.
  unfold from_genesis. intros Hg. repeat st_step.
  split; simpl; [by apply tree_from_genesis_wf|apply tracker_new_wf|done|done].
Qed.

(** A finality vote. It either changes nothing but the recorded votes, or
    finalizes the block it names: then the block is a known canonical block of
    the voted height above the last finalized one, the vote names the epoch of
    that height, and the tracker and the tree both move to it. *)
Theorem finality_vote_spec (root : bytes) (vote : FinalityVote) (c c' : Blockchain)
    (r : option FinalizedBlock) :
  finality_sync root c → add_finality_vote vote c = (r, c') →
  same_ledger c c' ∧ bc_blocks c' = bc_blocks c ∧
  match r with
  | None => block_tree c' = block_tree c ∧
      finalized_height (finality_tracker c') = finalized_height (finality_tracker c)
  | Some f =>
      fb_hash f = fv_block_hash vote ∧ fb_height f = fv_block_height vote ∧
      is_on_canonical_chain (block_tree c) (fb_hash f) = true ∧
      (∃ e, entries (block_tree c) !! fb_hash f = Some e ∧ height (header (be_block e)) = fb_height f) ∧
      fv_epoch vote = epoch_for_height (bc_params c) (fb_height f) ∧
      finalized_height (finality_tracker c) < fb_height f ∧
      finalized_height (finality_tracker c') = fb_height f ∧
      finalized_hash (finality_tracker c') = fb_hash f ∧
      bt_finalized_height (block_tree c') = fb_height f ∧ bt_finalized_hash (block_tree c') = fb_hash f
  end.
Proof.
  intros Hc Hv. destruct (vote_sync _ _ _ _ _ Hc Hv) as [[_ _ Hfh' Hfx'] _].
  apply vote_cases in Hv as [[-> ->]|(e&sn&tr&He&Hh&Hep&Hcan&_&Ha&->)]; [done|].
  destruct r as [f|]; split; try done; split; try done.
  - apply add_vote_finalizes in Ha as (_&_&_&_&->&Hlt&Eh&Ex); [|apply Hc]. simpl in *.
    pose proof (tw_final _ _ (fs_tree _ _ Hc)) as (f&Hf&Hff).
    pose proof (tw_height _ _ (fs_tree _ _ Hc) _ _ Hf). pose proof (fs_height _ _ Hc).
    rewrite Hfx' in Ex by lia. rewrite Hfh' in Eh. split_and!; try done; eauto; try congruence.
    rewrite Hfx'; [done|]. lia.
  - by apply add_vote_unfinalized in Ha as [? _].
Qed.


(** ** The first epoch *)

(** Every genesis validator is active from height 1 at the earliest, so the
    snapshot of epoch 0, taken at height 0, is empty. *)
Lemma genesis_accounts_inactive g l m m' :
  (∀ k a, m !! k = Some a → gc_minimum_stake g ≤ staked_balance a → validator_active_from_height a = 1) →
  foldl (add_allocation g) (Ok m) l = Ok m' →
  ∀ k a, m' !! k = Some a → gc_minimum_stake g ≤ staked_balance a → validator_active_from_height a = 1.
Proof.
  revert m. induction l as [|al l IH]; intros m Hm; simpl; [by intros [= <-]|].
  destruct (decode_public_key_hex (al_public_key al)) as [pk|e]; simpl;
    [|by rewrite foldl_add_allocation_err].
  case_bool_decide; [by rewrite foldl_add_allocation_err|]. apply IH.
  intros k a [[_ <-]|[_ Hk]]%lookup_insert_Some; [|by apply (Hm k)].
  simpl. intros Hs. by rewrite (proj2 (Z.leb_le _ _) Hs).
Qed.

Lemma genesis_snapshot_empty g c :
  from_genesis g = Ok c →
  ∃ s, epoch_snapshots c !! 0 = Some s ∧ es_validators s = [] ∧ es_total_stake s = 0.
Proof.
  unfold from_genesis. intros Hg. repeat st_step. simpl. rewrite lookup_singleton_eq.
  match goal with E : accounts_from_genesis g = Ok ?m |- _ =>
    pose proof (genesis_accounts_inactive g _ ∅ m ltac:(by intros ? ? ?%lookup_empty_Some) E) as Hm;
    assert (active_validators (mkPoS (gc_minimum_stake g) ∅ (mul64 0 (Z.max (gc_epoch_length g) 1))) m = [])
      as Hv end.
  { apply elem_of_nil_inv. intros v (acc&Hl&Hv)%elem_of_active_validators.
    apply validator_of_account_spec in Hv as (_&_&_&Hmin&Hact&_). simpl in *.
    rewrite (Hm _ _ Hl Hmin) in Hact. change (1 ≤ 0) in Hact. lia. }
  eexists. split; [done|]. unfold build_epoch_snapshot_for_accounts. rewrite Hv. done.
Qed.

Lemma grown_first_snapshot g limit c :
  grown g limit c → ∃ s, epoch_snapshots c !! 0 = Some s ∧ es_validators s = [] ∧ es_total_stake s = 0.
Proof.
  induction 1 as [c Hc|c now b c' _ (s&Hs&He) _ _ Ha|c c' _ (s&Hs&He) ((_&->&_)&_) _];
    [by eapply genesis_snapshot_empty| |eauto].
  apply add_block_Ok in Ha as (s'&_&->). exists s. split; [|done].
  destruct (commit_block_ledger b s' (prepared c (height (header b)))) as ((_&->&_)&_). simpl.
  unfold prepared. destruct (settle_epoch_same (open_epoch c (height (header b))) (height (header b)))
    as (_&_&_&_&->&_). unfold open_epoch. case_match eqn:E; [|done]. simpl.
  apply andb_true_iff in E as [_ E]. apply bool_decide_eq_true in E.
  rewrite lookup_insert_ne; [done|]. congruence.
Qed.

(** The first epoch has no finality. On every chain grown from genesis, no vote
    for a block of epoch 0 finalizes anything, whoever signs it: genesis
    validators only become active at height 1, after the snapshot of epoch 0 is
    taken. *)
Theorem first_epoch_never_finalizes (g : GenesisConfig) (limit : Z) (c : Blockchain)
    (vote : FinalityVote) :
  grown g limit c → epoch_for_height (bc_params c) (fv_block_height vote) = 0 →
  (add_finality_vote vote c).1 = None ∧
  block_tree (add_finality_vote vote c).2 = block_tree c.
Proof.
  intros Hgr Hep. destruct (grown_first_snapshot _ _ _ Hgr) as (s&Hs&Hv&Ht).
  destruct (add_finality_vote vote c) as [r c'] eqn:Hvote. simpl.
  apply vote_cases in Hvote as [[-> ->]|(e&s'&tr&_&_&Hfe&_&Hs'&Ha&->)]; [done|].
  rewrite Hfe, Hep, Hs in Hs'. injection Hs' as <-.
  assert (r = None) as ->; [|done]. unfold add_vote in Ha.
  unfold validator_stakes in Ha. rewrite Hv in Ha. simpl in Ha.
  rewrite lookup_empty, (bool_decide_eq_false_2 (is_Some None)) in Ha by apply is_Some_None.
  repeat (case_match; try done); by simplify_eq.
Qed.
End history.

(** ** Two validators of equal stake, one-block epochs *)



Section demo.
Import Demo.

Definition demo_two (stake : Z) : GenesisConfig :=
  mkGenesisConfig "c" "c" 50 1000 10 1 64
    [mkAllocation "validator 1" 0 stake; mkAllocation "validator 2" 0 stake] [] 30000 0 8.
Definition demo_start (stake : Z) : Blockchain :=
  unwrap_or (demo_chain 0 []) (from_genesis (demo_two stake)).

(** The block of the slot's leader, and the chain with it. *)
Definition demo_produce (now : Z) (c : Blockchain) : Block :=
  match create_block now now c (demo_keypair 1) with
  | Ok b => b
  | Err _ => unwrap_or demo_genesis (create_block now now c (demo_keypair 2))
  end.
Definition demo_extend (now : Z) (c : Blockchain) : Blockchain :=
  (add_block now (demo_produce now c) c).2.

(** A vote of a validator, in the epoch of the block's height. *)
Definition demo_ballot (n : Z) (b : Block) : FinalityVote :=
  default (mkVote [] 0 0 [] (mkSignature []))
    (vote_new (block_hash b) (height (header b)) (height (header b)) (demo_keypair n)).
Definition demo_cast (n : Z) (b : Block) (c : Blockchain) : Blockchain :=
  (add_finality_vote (demo_ballot n b) c).2.

(** Block [a1] is accepted and finalized, [a2] follows it; then the branch
    [b2, b3] from [a1] arrives. *)
Definition t0 : Z := 1700000000.
Definition demo_root : Blockchain := demo_start 5000.
Definition demo_a1 : Block := demo_produce (t0 + 10) demo_root.
Definition demo_c1 : Blockchain := demo_extend (t0 + 10) demo_root.
Definition demo_c2 : Blockchain := demo_cast 1 demo_a1 demo_c1.
Definition demo_final : Blockchain := demo_cast 2 demo_a1 demo_c2.
Definition demo_c3 : Blockchain := demo_extend (t0 + 20) demo_final.
Definition demo_b2 : Block := demo_produce (t0 + 25) demo_c1.
Definition demo_b3 : Block := demo_produce (t0 + 35) (demo_extend (t0 + 25) demo_c1).
Definition demo_now2 : Z := t0 + 40.
Definition demo_forked : Blockchain := (add_block_with_fork_choice demo_now2 demo_b2 demo_c3).2.
Definition demo_switched : Blockchain := (add_block_with_fork_choice demo_now2 demo_b3 demo_forked).2.

(** The facts the runs provide. *)
Lemma demo_root_ok : is_ok (from_genesis (demo_two 5000)) = true.
Proof. vm_compute. exact eq_refl. Qed.

Lemma demo_root_run : from_genesis (demo_two 5000) = Ok demo_root.
Proof. exact (is_ok_unwrap (from_genesis (demo_two 5000)) (demo_chain 0 []) demo_root_ok). Qed.

Lemma demo_a1_ok : is_ok (add_block (t0 + 10) demo_a1 demo_root).1 = true.
Proof. vm_compute. exact eq_refl. Qed.

Lemma demo_a1_run : add_block (t0 + 10) demo_a1 demo_root = (Ok (), demo_c1).
Proof. exact (run_ok (add_block (t0 + 10) demo_a1 demo_root) demo_a1_ok). Qed.

Lemma demo_heights :
  (λ b, height (header b)) <$> [demo_a1; demo_produce (t0 + 20) demo_final; demo_b2; demo_b3]
  = [1; 2; 2; 3].
Proof. vm_compute. exact eq_refl. Qed.

Lemma demo_u64 i b :
  [demo_a1; demo_produce (t0 + 20) demo_final; demo_b2; demo_b3] !! i = Some b →
  is_u64 (height (header b)).
Proof.
  intros Hb. pose proof (f_equal (.!! i) demo_heights) as Hi. rewrite list_lookup_fmap, Hb in Hi.
  change (Some (height (header b)) = [1; 2; 2; 3] !! i) in Hi. symmetry in Hi.
  apply list_elem_of_lookup_2 in Hi. rewrite !elem_of_cons in Hi.
  destruct Hi as [->|[->|[->|[->|[]%not_elem_of_nil]]]]; u64_lia.
Qed.

Lemma demo_grown : grown (demo_two 5000) (t0 + 10) demo_c1.
Proof.
  exact (grown_block _ _ demo_root (t0 + 10) demo_a1 demo_c1
    (grown_genesis _ _ demo_root demo_root_run) (Z.le_refl _) eq_refl demo_a1_run).
Qed.

Lemma demo_vote_steps : rtc node_step demo_root demo_c2.
Proof.
  apply (rtc_l _ _ demo_c1); [exact (node_block (t0 + 10) demo_a1 demo_root (demo_u64 0 _ eq_refl))|].
  exact (rtc_once _ _ (node_vote (demo_ballot 1 demo_a1) demo_c1)).
Qed.

Lemma demo_second_vote :
  is_some (add_finality_vote (demo_ballot 2 demo_a1) demo_c2).1 = true.
Proof. vm_compute. exact eq_refl. Qed.

Lemma demo_votes_steps : rtc node_step demo_root demo_final.
Proof.
  exact (rtc_r _ _ _ demo_vote_steps (node_vote (demo_ballot 2 demo_a1) demo_c2)).
Qed.

Lemma demo_fork_steps : rtc node_step demo_final demo_forked.
Proof.
  apply (rtc_l _ _ demo_c3);
    [exact (node_block (t0 + 20) (demo_produce (t0 + 20) demo_final) demo_final (demo_u64 1 _ eq_refl))|].
  exact (rtc_once _ _ (node_fork_choice demo_now2 demo_b2 demo_c3 (demo_u64 2 _ eq_refl))).
Qed.

Lemma demo_switch_step : node_step demo_forked demo_switched.
Proof. exact (node_fork_choice demo_now2 demo_b3 demo_forked (demo_u64 3 _ eq_refl)). Qed.

Lemma rtc_node_sync root c c' : finality_sync root c → rtc node_step c c' → finality_sync root c'.
Proof. intros Hc Hr. induction Hr as [|c c1 c2 Hs _ IH]; [done|]. by apply IH, (node_step_sync root c c1). Qed.

Lemma demo_final_sync : finality_sync (genesis_hash demo_root) demo_final.
Proof.
  exact (rtc_node_sync _ _ _ (from_genesis_sync _ _ demo_root_run) demo_votes_steps).
Qed.

Lemma demo_finalized : finalized_height (finality_tracker demo_final) = 1.
Proof. vm_compute. exact eq_refl. Qed.

Lemma demo_reorged :
  (add_block_with_fork_choice demo_now2 demo_b3 demo_forked).1 = Ok true ∧
  finalized_height (finality_tracker demo_forked) = 1.
Proof. vm_compute. split_and!; exact eq_refl. Qed.

(** The moment of the switch: [b3] is in the tree, the chain still ends in [a2]. *)
Definition with_block (b : Block) (stake : Z) (c : Blockchain) : Blockchain :=
  set_tree (demo_tree_insert b stake (block_tree c)) c.

Lemma with_block_wf root b stake c :
  tree_wf root (block_tree c) → is_u64 (height (header b)) →
  is_ok (insert_block (block_tree c) b stake) = true →
  tree_wf root (block_tree (with_block b stake c)).
Proof.
  intros Hwf Hu Hok. apply (tree_step_wf root (block_tree c)); [done|].
  by apply (demo_tree_steps b stake).
Qed.

Definition demo_heavier : Blockchain := with_block demo_b3 5000 demo_forked.

Lemma demo_insertion_ok : is_ok (insert_block (block_tree demo_forked) demo_b3 5000) = true.
Proof. vm_compute. exact eq_refl. Qed.

Lemma demo_heavier_final : finalized_height (finality_tracker demo_heavier) = 1.
Proof. vm_compute. exact eq_refl. Qed.

Lemma demo_heavier_wf : tree_wf (genesis_hash demo_root) (block_tree demo_heavier).
Proof.
  exact (with_block_wf (genesis_hash demo_root) demo_b3 5000 demo_forked
    (fs_tree _ _ (rtc_node_sync _ _ _ demo_final_sync demo_fork_steps)) (demo_u64 3 demo_b3 eq_refl)
    demo_insertion_ok).
Qed.

Abbreviation demo_reorg := (reorg_to_canonical_tip demo_now2 demo_heavier).
Abbreviation demo_late_reorg := (reorg_to_canonical_tip 0 demo_heavier).

Lemma demo_reorg_results : is_ok demo_reorg.1 = true ∧ is_ok demo_late_reorg.1 = false ∧
  is_ok (check_reorg demo_heavier) = true.
Proof. vm_compute. split_and!; exact eq_refl. Qed.

(** ** Witnesses *)

Lemma grown_is_valid_witness : is_valid (t0 + 10) demo_c1 = true.
Proof. exact (grown_is_valid (demo_two 5000) (t0 + 10) demo_c1 demo_grown). Defined.

Lemma replay_agrees_witness :
  ∃ c', rebuild_canonical_state (t0 + 10) demo_c1 = (Ok (), c') ∧ bc_state c' = bc_state demo_c1.
Proof.
  destruct (replay_agrees (demo_two 5000) (t0 + 10) demo_c1 demo_grown) as (c'&Hr&Hs&_).
  exact (ex_intro _ c' (conj Hr Hs)).
Defined.

Lemma node_finality_stable_witness :
  is_on_canonical_chain (block_tree demo_switched) (finalized_hash (finality_tracker demo_final)) = true.
Proof.
  destruct (node_finality_stable (genesis_hash demo_root) demo_final demo_switched demo_final_sync
    (rtc_r _ _ _ demo_fork_steps demo_switch_step)) as (_&_&_&Hf).
  apply Hf. rewrite demo_finalized. exact eq_refl.
Defined.

Lemma finality_vote_spec_witness :
  bt_finalized_height (block_tree demo_final) = finalized_height (finality_tracker demo_final).
Proof.
  destruct (finality_vote_spec (genesis_hash demo_root) (demo_ballot 2 demo_a1) demo_c2 demo_final
    (add_finality_vote (demo_ballot 2 demo_a1) demo_c2).1
    (rtc_node_sync _ _ _ (from_genesis_sync _ _ demo_root_run) demo_vote_steps)
    (surjective_pairing _)) as (_&_&Hf).
  destruct ((add_finality_vote (demo_ballot 2 demo_a1) demo_c2).1) as [f|] eqn:E.
  - destruct Hf as (_&_&_&_&_&_&E1&_&E2&_). exact (eq_trans E2 (eq_sym E1)).
  - pose proof demo_second_vote as Hv. rewrite E in Hv. discriminate Hv.
Defined.


Lemma reorg_respects_finality_witness :
  chain_linked demo_reorg.2 ∧ bc_blocks demo_reorg.2 = canonical_chain (block_tree demo_heavier).
Proof.
  destruct (reorg_respects_finality (genesis_hash demo_root) demo_now2 demo_heavier demo_reorg.2 ()
    demo_heavier_wf (run_ok demo_reorg (proj1 demo_reorg_results))) as (Hb&Hl&_).
  - rewrite demo_heavier_final. exact eq_refl.
  - exact (conj Hl Hb).
Defined.

Lemma reorg_failure_witness :
  bc_blocks demo_late_reorg.2 = canonical_chain (block_tree demo_heavier) ∧
  bc_state demo_late_reorg.2 = bc_state demo_heavier.
Proof.
  destruct (reorg_failure (genesis_hash demo_root) 0 demo_heavier demo_late_reorg.2
    (unwrap_err Panic demo_late_reorg.1) demo_heavier_wf
    (run_err Panic demo_late_reorg (proj1 (proj2 demo_reorg_results)))) as [(E&_)|(_&Hb&Hs&_)].
  - pose proof (proj2 (proj2 demo_reorg_results)) as Hc. rewrite E in Hc. discriminate Hc.
  - exact (conj Hb Hs).
Defined.

Lemma first_epoch_never_finalizes_witness :
  (add_finality_vote (mkVote [] 0 0 [] (mkSignature [])) demo_root).1 = None.
Proof.
  exact (proj1 (first_epoch_never_finalizes (demo_two 5000) (t0 + 10) demo_root
    (mkVote [] 0 0 [] (mkSignature [])) (grown_genesis _ _ demo_root demo_root_run) eq_refl)).
Defined.

(** ** What goes wrong *)

(** The proposer of [demo_a1], and a second block it could have signed. *)
Definition demo_signer : Z :=
  if bool_decide (validator_public_key (header demo_a1) = demo_public_key 1) then 1 else 2.
Definition demo_twin : Block := demo_produce (t0 + 15) demo_root.
Definition demo_raw_signature (b : Block) : Signature :=
  mkSignature (demo_signature (demo_seed demo_signer) (block_hash b)).
Definition demo_offence : EquivocationEvidence :=
  mkEvidence 1 (validator_public_key (header demo_a1))
    (header demo_a1) (block_hash demo_a1) (demo_raw_signature demo_a1)
    (header demo_twin) (block_hash demo_twin) (demo_raw_signature demo_twin).
Definition demo_punished : Blockchain :=
  (unwrap_or (0, demo_root) (process_equivocation demo_offence demo_c1)).2.

Lemma demo_punished_run :
  process_equivocation demo_offence demo_c1 = Ok (1650, demo_punished).
Proof.
  assert ((λ r, is_ok r && ((unwrap_or (0, demo_root) r).1 =? 1650))
            (process_equivocation demo_offence demo_c1) = true) as E by (vm_compute; exact eq_refl).
  unfold demo_punished. destruct (process_equivocation _ _) as [[p c]|e]; [|discriminate E].
  simpl in *. by apply Z.eqb_eq in E as ->.
Qed.

Lemma demo_punished_rebuild :
  (rebuild_canonical_state (t0 + 10) demo_punished).1 = Err (WrongProposer 1 0) ∧
  (rebuild_canonical_state (t0 + 10) demo_c1).1 = Ok ().
Proof. vm_compute. split; exact eq_refl. Qed.


(** A boundary with a reward to pay: two blocks of height 2 on the same parent. *)
Definition demo_rich : Blockchain := demo_extend (t0 + 10) (demo_start 5000000).
Definition demo_first : Block := demo_produce (t0 + 20) demo_rich.
Definition demo_second : Block := demo_produce (t0 + 25) demo_rich.

Lemma demo_boundary :
  (add_block demo_now2 demo_first demo_rich).1 = Ok () ∧
  (add_block demo_now2 demo_second demo_rich).1 = Ok () ∧
  (add_block_with_fork_choice demo_now2 demo_second (add_block demo_now2 demo_first demo_rich).2).1
  = Err InvalidStateRoot.
Proof. vm_compute. split_and!; exact eq_refl. Qed.

(** A fork block that starts an epoch is refused. There are a chain and two
    blocks on its tip that the chain accepts, each on its own; after the first,
    fork choice refuses the second, because a block of another branch is validated
    without the settlement of the epoch it closes. *)
Theorem boundary_fork_block_rejected :
  ∃ c b b', (add_block demo_now2 b c).1 = Ok () ∧ (add_block demo_now2 b' c).1 = Ok () ∧
    (add_block_with_fork_choice demo_now2 b' (add_block demo_now2 b c).2).1 = Err InvalidStateRoot.
Proof. exists demo_rich, demo_first, demo_second. exact demo_boundary. Qed.
End demo.
