(* ===== verification/PersistenceSafety.v ===== *)
(** * What survives a restart

    Theorems about [Storage] and [Persistence]: a node started again on its own
    database has the chain and the state it had. *)
From S2P Require Import Prelude Hash Crypto Vm Transaction Token Governance Block Account.
From S2P Require Import Validators Slashing Finality Settlement BlockStore BlockTree Trie StateRoot.
From S2P Require Import Chain Storage Apply Ledger AddBlock ChainSafety Mempool ForkChoice.
From S2P Require Import MempoolSafety ForkChoiceSafety Persistence.

(** ** Reading through a fresh cursor *)

Section reading.
Context {B L : Type} `{!BlockBackend B} `{!LruCache L}.

(** A cursor whose cache only holds what its storage holds. *)
Record mirrors (s : B) (count base : Z) (c : Cursor B L) : Prop := {
  mi_storage : cu_storage c = s;
  mi_count : height_count c = count;
  mi_base : base_height c = base;
  mi_genesis : get_block 0 s = Ok (Some (cu_genesis c));
  mi_cache h b : lru_peek h (cu_cache c) = Some b → get_block h s = Ok (Some b);
}.

Lemma mirrors_block_at s count base c h b :
  mirrors s count base c → base ≤ 1 → 0 ≤ h < count → get_block h s = Ok (Some b) →
  ∃ c', block_at h c = (Ok (Some b), c') ∧ mirrors s count base c'.
Proof.
  intros Hm0 Hb1 Hh Hget. pose proof Hm0 as [Hs Hn Hb Hg Hc]. unfold block_at, block_at_begin.
  destruct (Z.eqb_spec h 0) as [->|Hne].
  { exists c. rewrite Hget in Hg. by injection Hg as ->. }
  rewrite Hn, Hb, (proj2 (Z.leb_gt _ _)), (proj2 (Z.ltb_ge _ _)) by lia. simpl.
  pose proof (get_peek (cu_cache c) h) as Hpk. pose proof (λ k, peek_get (cu_cache c) h k) as Hpg.
  destruct (lru_get h (cu_cache c)) as [cached l]. simpl in *.
  assert (mirrors s count base (set_cache l c)) as Hm.
  { split; simpl; try done. intros k v. rewrite Hpg. apply Hc. }
  destruct cached as [v|].
  { symmetry in Hpk. apply Hc in Hpk. exists (set_cache l c). split; [|done]. congruence. }
  rewrite Hs, Hget. unfold block_at_finish. simpl.
  rewrite Hn, Hb, (proj2 (Z.leb_gt _ _)), (proj2 (Z.ltb_ge _ _)) by lia. simpl.
  eexists. split; [done|]. split; simpl; try done.
  intros k v [(->&->)|(_&Hk)]%peek_put; [done|]. rewrite Hpg in Hk. by apply Hc.
Qed.

Lemma mirrors_missing s count base c h :
  mirrors s count base c → 0 < h → count ≤ h → block_at h c = (Ok None, c).
Proof.
  intros [Hs Hn Hb Hg Hc] Hh Hle. unfold block_at, block_at_begin.
  rewrite (proj2 (Z.eqb_neq _ _)), Hn, (proj2 (Z.leb_le _ _)) by lia. done.
Qed.

Lemma find_base_present h hs s b : get_block h s = Ok (Some b) → find_base (h :: hs) s = Ok h.
Proof. simpl. by intros ->. Qed.

(** Opening a storage that holds the heights up to [n]. *)
Lemma new_with_persist_mirrors s size persist n g :
  get_height s = Ok (Some n) → 0 ≤ n → get_block 0 s = Ok (Some g) →
  (∀ h, 0 < h ≤ n → ∃ b, get_block h s = Ok (Some b)) →
  ∃ c base, new_with_persist s size persist = Ok c ∧ base ≤ 1 ∧ mirrors s (n + 1) base c.
Proof.
  intros Hn H0 Hg Hb. unfold new_with_persist. rewrite Hg. simpl. rewrite Hn. simpl.
  destruct (1 <? n + 1) eqn:E; bool_to_prop.
  - replace (n + 1 - 1) with (Z.succ (n - 1)) by lia. rewrite seqZ_cons by lia.
    destruct (Hb 1 ltac:(lia)) as [b1 Hb1]. rewrite (find_base_present _ _ _ _ Hb1). simpl.
    eexists _, 1. split; [done|]. split; [lia|]. split; simpl; try done.
    intros h b. by rewrite peek_new.
  - simpl. eexists _, 0. split; [done|]. split; [lia|]. split; simpl; try done.
    intros h b. by rewrite peek_new.
Qed.
End reading.

(** ** What the database holds *)

Section restart.
Context `{Sha3} `{MlDsa} `{EvmEngine} `{WasmEngine} `{HashOrder} `{HexDecode}
  `{!Bincode SignableTransaction}
  `{!Bincode BlockHeader} `{!Bincode ProposalKind} `{!BincodeAccountLeaf} `{!BincodeStorageLeaf}
  `{!BincodeContractLeaf} `{!Json DeployTokenParams} `{!Json TokenTransferParams}
  `{!Json TokenApproveParams} `{!Json TokenTransferFromParams} `{!Json SubmitProposalParams}
  `{!Json GovernanceVoteParams} `{!RustSort}
  {D : Type} `{!Redb D} `{!StorageCodec} `{!LegacyCodec} {L : Type} `{!LruCache L}.

(** What is written of a chain decodes again. *)
Record encodable (c : Blockchain) : Prop := {
  en_config : bincode_ok (genesis_config (bc_params c));
  en_finalized : bincode_ok (finalized_height (finality_tracker c));
  en_schema : bincode_ok CURRENT_SCHEMA_VERSION;
  en_blocks : Forall bincode_ok (bc_blocks c);
  en_accounts : map_Forall (λ _, bincode_ok) (accounts (bc_state c));
  en_pending : Forall bincode_ok (pending_transactions c);
  en_registry : bincode_ok (token_registry (bc_state c));
  en_governance : bincode_ok (governance (bc_state c));
}.

Definition meta_holds {A} `{!Bincode A, !BincodeDecode A} (d : D) (k : bytes) (x : A) : Prop :=
  db_table d META_TABLE !! k = Some (bincode_serialize x) ∧ bincode_ok x.

Definition table_holds {A} `{!Bincode A, !BincodeDecode A} (d : D) (t : Table) (m : gmap bytes A)
    : Prop :=
  db_table d t = bincode_serialize <$> m ∧ map_Forall (λ _, bincode_ok) m.

(** A database whose commits succeed. *)
Definition never_fails : Prop := ∀ ws (d : D), is_ok (db_commit ws d) = true.

(** The database of a node that was never slashed: it has the chain's blocks, and
    every record the start of a node reads decodes. The finalized height is written
    with its errors dropped, so it may be an older one. *)
Record stored (c : Blockchain) (d : D) : Prop := {
  sd_height : db_table d META_TABLE !! HEIGHT_KEY = Some (u64_key (chain_height c));
  sd_blocks i b : bc_blocks c !! i = Some b →
    db_table d BLOCKS_TABLE !! u64_key (Z.of_nat i) = Some (bincode_serialize b) ∧ bincode_ok b;
  sd_config : meta_holds d CHAIN_CONFIG_KEY (genesis_config (bc_params c));
  sd_schema : meta_holds d SCHEMA_VERSION_KEY CURRENT_SCHEMA_VERSION;
  sd_finalized : ∃ h, meta_holds d FINALIZED_HEIGHT_KEY h ∧
    0 ≤ h ≤ finalized_height (finality_tracker c) ∧
    (never_fails → h = finalized_height (finality_tracker c));
  sd_registry : ∃ r : TokenRegistry, meta_holds d TOKEN_REGISTRY_KEY r;
  sd_governance : ∃ g : GovernanceState, meta_holds d GOVERNANCE_STATE_KEY g;
  sd_pending : ∃ m : gmap bytes Transaction, table_holds d PENDING_TABLE m;
  sd_accounts : ∃ m : accounts_map, table_holds d STATE_TABLE m;
  sd_evidence : db_table d EVIDENCE_TABLE = ∅;
}.

(** ** Lemmas: full writes *)

Definition insert_all {A} (m : gmap bytes A) (l : list (bytes * A)) : gmap bytes A :=
  foldl (λ m kv, <[kv.1 := kv.2]> m) m l.

Lemma apply_inserts_map {A} `{!Bincode A} (t : Table) (l : list (bytes * A)) (m : gmap bytes A) :
  foldl (apply_write t) (bincode_serialize <$> m) (entry_inserts t l) =
    bincode_serialize <$> insert_all m l.
Proof.
  unfold entry_inserts. revert m. induction l as [|[k a] l IH]; intros m; [done|].
  cbn [fmap list_fmap foldl apply_write fst snd insert_all]. rewrite bool_decide_eq_true_2 by done.
  rewrite <- fmap_insert. apply IH.
Qed.

Lemma insert_all_Forall {A} (P : A → Prop) (l : list (bytes * A)) m :
  map_Forall (λ _, P) m → Forall (λ kv, P kv.2) l → map_Forall (λ _, P) (insert_all m l).
Proof.
  intros Hm Hl. revert m Hm. induction Hl as [|[k a] l Ha Hl IH]; intros m Hm; [done|].
  apply IH. by apply map_Forall_insert_2.
Qed.

Lemma insert_all_notin {A} (l : list (bytes * A)) m k :
  k ∉ l.*1 → insert_all m l !! k = m !! k.
Proof.
  revert m. induction l as [|[k' a] l IH]; intros m Hk; [done|].
  cbn [fmap list_fmap fst] in Hk. apply not_elem_of_cons in Hk as [Hne Hk].
  cbn [insert_all foldl fst snd]. fold (insert_all (<[k' := a]> m) l). rewrite (IH _ Hk).
  by rewrite lookup_insert_ne.
Qed.

Lemma insert_all_lookup {A} (l : list (bytes * A)) m k v :
  NoDup l.*1 → (k, v) ∈ l → insert_all m l !! k = Some v.
Proof.
  revert m. induction l as [|[k' a] l IH]; intros m Hnd Hk; [by apply not_elem_of_nil in Hk|].
  cbn [fmap list_fmap fst] in Hnd. apply NoDup_cons in Hnd as [Hn Hnd].
  cbn [insert_all foldl fst snd]. fold (insert_all (<[k' := a]> m) l).
  apply elem_of_cons in Hk as [[= -> ->]|Hk]; [|by apply IH].
  rewrite insert_all_notin by done. by rewrite lookup_insert_eq.
Qed.

Lemma replace_table_map {A} `{!Bincode A} (t : Table) (l : list (bytes * A)) d u d' :
  replace_table t l d = (Ok u, d') →
  db_table d' t = bincode_serialize <$> insert_all ∅ l ∧ ∀ t', t' ≠ t → db_table d' t' = db_table d t'.
Proof.
  intros Hw. split.
  - rewrite (write_transaction_Ok _ _ _ _ t Hw), apply_clear.
    rewrite <- (apply_inserts_map t l ∅). by rewrite fmap_empty.
  - intros t' Ht. rewrite (write_transaction_Ok _ _ _ _ t' Hw). cbn [foldl apply_write].
    rewrite bool_decide_eq_false_2 by done. by apply apply_inserts_other.
Qed.

Lemma put_meta_Ok {A} `{!Bincode A} k (x : A) d u d' :
  put_meta k x d = (Ok u, d') →
  db_table d' META_TABLE = <[k := bincode_serialize x]> (db_table d META_TABLE) ∧
  ∀ t, t ≠ META_TABLE → db_table d' t = db_table d t.
Proof.
  intros Hw. split; [|intros t Ht]; rewrite (write_transaction_Ok _ _ _ _ _ Hw);
    cbn [foldl apply_write]; [by rewrite bool_decide_eq_true_2|by rewrite bool_decide_eq_false_2].
Qed.

Definition block_entries (blocks : list Block) : list (bytes * Block) :=
  (λ b, (u64_key (height (header b)), b)) <$> blocks.

Lemma replace_blocks_Ok blocks d u d' :
  replace_blocks blocks d = (Ok u, d') →
  db_table d' BLOCKS_TABLE = bincode_serialize <$> insert_all ∅ (block_entries blocks) ∧
  db_table d' META_TABLE =
    match last blocks with
    | Some b => <[HEIGHT_KEY := u64_key (height (header b))]> (db_table d META_TABLE)
    | None => delete HEIGHT_KEY (db_table d META_TABLE)
    end ∧
  ∀ t, t ≠ META_TABLE → t ≠ BLOCKS_TABLE → db_table d' t = db_table d t.
Proof.
  intros Hw. split_and!; [| |intros t Ht Hb]; rewrite (write_transaction_Ok _ _ _ _ _ Hw);
    cbn [foldl apply_write]; rewrite foldl_app.
  - rewrite bool_decide_eq_true_2 by done.
    pose proof (apply_inserts_map BLOCKS_TABLE (block_entries blocks) ∅) as E.
    rewrite fmap_empty in E. fold (block_entries blocks). rewrite E. by destruct (last blocks).
  - rewrite bool_decide_eq_false_2, apply_inserts_other by done. by destruct (last blocks).
  - rewrite bool_decide_eq_false_2, apply_inserts_other by done.
    destruct (last blocks); simpl; by rewrite bool_decide_eq_false_2.
Qed.

(** Numbered blocks have distinct keys. *)
Lemma block_entries_NoDup blocks :
  (∀ i b, blocks !! i = Some b → height (header b) = Z.of_nat i) →
  Z.of_nat (length blocks) ≤ u64_mod → NoDup (block_entries blocks).*1.
Proof.
  intros Hb Hlen. unfold block_entries. rewrite <- list_fmap_compose. apply NoDup_alt.
  intros i j k Hi Hj. rewrite list_lookup_fmap in Hi, Hj.
  apply fmap_Some in Hi as (bi&Hi&->). apply fmap_Some in Hj as (bj&Hj&Hk). simpl in Hk.
  pose proof (lookup_lt_Some _ _ _ Hi). pose proof (lookup_lt_Some _ _ _ Hj).
  rewrite (Hb _ _ Hi), (Hb _ _ Hj) in Hk. apply u64_key_inj in Hk; [lia|u64_lia..].
Qed.

Ltac lookup_meta :=
  repeat (rewrite lookup_insert_ne by vm_decide); by rewrite lookup_insert_eq.

Lemma chain_linked_count c : chain_linked c → block_count c = chain_height c + 1.
Proof.
  intros [Hne _]. unfold chain_height, block_count, saturating_sub. destruct (bc_blocks c); [done|].
  simpl. lia.
Qed.

(** After a full write the database stores the chain. *)
Lemma write_full_state_stored c d u d' :
  chain_linked c → block_count c ≤ u64_mod → 0 ≤ finalized_height (finality_tracker c) →
  encodable c → db_table d EVIDENCE_TABLE = ∅ →
  write_full_state_to_storage (from_chain c) d = (Ok u, d') → stored c d'.
Proof.
  intros Hc Hlen Hfin [Ecfg Efin Esch Ebl Eacc Epend Ereg Egov] Hev Hw.
  unfold write_full_state_to_storage in Hw. repeat st_step.
  repeat match goal with
  | E : put_meta _ _ _ = (Ok _, _) |- _ => apply put_meta_Ok in E as [? ?]
  | E : replace_blocks _ _ = (Ok _, _) |- _ => apply replace_blocks_Ok in E as (?&?&?)
  | E : replace_accounts _ _ = (Ok _, _) |- _ => apply replace_entries_Ok in E as [? ?]
  | E : replace_contracts _ _ = (Ok _, _) |- _ => apply replace_entries_Ok in E as [? ?]
  | E : replace_receipts _ _ = (Ok _, _) |- _ => apply replace_entries_Ok in E as [? ?]
  | E : replace_epoch_snapshots _ _ = (Ok _, _) |- _ => apply replace_table_map in E as [? ?]
  | E : replace_pending_transactions _ _ = (Ok _, _) |- _ => apply replace_table_map in E as [? ?]
  end.
  cbn [from_chain ps_genesis_config ps_finalized_height ps_blocks ps_accounts ps_pending_transactions
       ps_token_registry ps_governance] in *.
  destruct (chain_linked_latest c Hc) as [Elh Ela]. rewrite Ela in *.
  assert (∃ M, db_table d' META_TABLE =
    <[HEIGHT_KEY := u64_key (height (header (latest_block c)))]>
    (<[GOVERNANCE_STATE_KEY := bincode_serialize (governance (bc_state c))]>
    (<[TOKEN_REGISTRY_KEY := bincode_serialize (token_registry (bc_state c))]>
    (<[SCHEMA_VERSION_KEY := bincode_serialize CURRENT_SCHEMA_VERSION]>
    (<[FINALIZED_HEIGHT_KEY := bincode_serialize (finalized_height (finality_tracker c))]>
    (<[CHAIN_CONFIG_KEY := bincode_serialize (genesis_config (bc_params c))]> M))))))
    as [M HM].
  { exists (db_table d META_TABLE).
    repeat match goal with E : ∀ t, t ≠ _ → db_table d' t = _ |- _ => rewrite (E META_TABLE) by done; clear E
           | E : ∀ t, t ≠ _ → db_table ?x t = _ |- context [db_table ?x META_TABLE] =>
               rewrite (E META_TABLE) by done; clear E
           | E : db_table ?x META_TABLE = _ |- context [db_table ?x META_TABLE] => rewrite E; clear E
           end. done. }
  assert (db_table d' BLOCKS_TABLE = bincode_serialize <$> insert_all ∅ (block_entries (bc_blocks c)))
    as HB.
  { repeat match goal with
    | E : ∀ t, t ≠ _ → db_table ?x t = _ |- context [db_table ?x BLOCKS_TABLE] =>
        rewrite (E BLOCKS_TABLE) by done; clear E
    end. done. }
  assert (db_table d' EVIDENCE_TABLE = ∅) as HE.
  { repeat match goal with
    | E : ∀ t, t ≠ _ → db_table ?x t = _ |- context [db_table ?x EVIDENCE_TABLE] =>
        rewrite (E EVIDENCE_TABLE) by done; clear E
    | E : ∀ t, t ≠ _ → t ≠ _ → db_table ?x t = _ |- context [db_table ?x EVIDENCE_TABLE] =>
        rewrite (E EVIDENCE_TABLE) by done; clear E
    end. done. }
  assert (db_table d' STATE_TABLE = bincode_serialize <$> accounts (bc_state c)) as HA.
  { repeat match goal with
    | E : ∀ t, t ≠ _ → db_table ?x t = _ |- context [db_table ?x STATE_TABLE] =>
        rewrite (E STATE_TABLE) by done; clear E
    end. done. }
  split; rewrite ?HE, ?HM.
  - rewrite lookup_insert_eq. by rewrite Elh.
  - intros i b Hi. rewrite HB, lookup_fmap. rewrite Forall_lookup in Ebl.
    erewrite insert_all_lookup; [split; [done|by eapply Ebl]| |].
    + apply block_entries_NoDup; [intros j b' Hj; by eapply chain_linked_numbered|done].
    + unfold block_entries. apply list_elem_of_fmap. exists b. split; [|by eapply list_elem_of_lookup_2].
      by rewrite (chain_linked_numbered _ _ _ Hc Hi).
  - split; [|done]. rewrite HM. lookup_meta.
  - split; [|done]. rewrite HM. lookup_meta.
  - eexists. split; [split; [rewrite HM; lookup_meta|done]|]. split; [lia|done].
  - eexists. split; [rewrite HM; lookup_meta|done].
  - eexists. split; [rewrite HM; lookup_meta|done].
  - eexists. split; [eassumption|]. apply insert_all_Forall; [apply map_Forall_empty|].
    apply Forall_fmap. exact Epend.
  - by eexists.
  - done.
Qed.

(** ** Lemmas: the smaller writes *)

(** A chain with the same blocks, rules and finalized height is stored as well. *)
Lemma stored_same c c' d :
  bc_blocks c' = bc_blocks c → bc_params c' = bc_params c →
  finalized_height (finality_tracker c') = finalized_height (finality_tracker c) →
  stored c d → stored c' d.
Proof.
  intros Eb Ep Ef [S1 S2 S3 S4 S5 S6 S7 S8 S9 S10].
  split; rewrite ?Eb, ?Ep, ?Ef; unfold chain_height, block_count in *; rewrite ?Eb; done.
Qed.

Lemma stored_put_block c c' b d u d' :
  stored c d → bc_params c' = bc_params c → bc_blocks c' = bc_blocks c ++ [b] →
  finalized_height (finality_tracker c') = finalized_height (finality_tracker c) →
  height (header b) = block_count c → block_count c < u64_max → bincode_ok b →
  db_put_block b d = (Ok u, d') → stored c' d'.
Proof.
  intros [S1 S2 S3 S4 S5 S6 S7 S8 S9 S10] Ep Eb Ef Eh Hlim Hok Hw.
  pose proof (λ t, write_transaction_Ok _ _ _ _ t Hw) as Ht. cbn [foldl apply_write] in Ht.
  assert (db_table d' META_TABLE = <[HEIGHT_KEY := u64_key (height (header b))]> (db_table d META_TABLE)) as HM.
  { by rewrite Ht. }
  assert (∀ t, t ≠ META_TABLE → t ≠ BLOCKS_TABLE → db_table d' t = db_table d t) as Ho.
  { intros t Ht1 Ht2. rewrite Ht. by rewrite !bool_decide_eq_false_2. }
  assert (db_table d' BLOCKS_TABLE =
    <[u64_key (height (header b)) := bincode_serialize b]> (db_table d BLOCKS_TABLE)) as HBl.
  { by rewrite Ht. }
  assert (∀ k, k ≠ HEIGHT_KEY → db_table d' META_TABLE !! k = db_table d META_TABLE !! k) as Hm.
  { intros k Hk. by rewrite HM, lookup_insert_ne. }
  unfold meta_holds, table_holds in *.
  split; unfold meta_holds, table_holds; rewrite ?Ep, ?Ef, ?(Ho PENDING_TABLE), ?(Ho STATE_TABLE), ?(Ho EVIDENCE_TABLE) by done;
    try (rewrite Hm by vm_decide; done); try done.
  - rewrite HM, lookup_insert_eq, Eh. do 2 f_equal. unfold chain_height, block_count, saturating_sub.
    rewrite Eb, length_app. simpl. lia.
  - intros i b' Hi. rewrite Eb in Hi. rewrite HBl.
    unfold block_count in *. rewrite lookup_app_Some in Hi. destruct Hi as [Hi|[Hge Hi]].
    + pose proof (lookup_lt_Some _ _ _ Hi). rewrite lookup_insert_ne; [by apply S2|].
      intros Hk. apply u64_key_inj in Hk; [lia|u64_lia..].
    + apply list_lookup_singleton_Some in Hi as [Hz <-]. rewrite Eh.
      replace (Z.of_nat i) with (Z.of_nat (length (bc_blocks c))) by lia. by rewrite lookup_insert_eq.
Qed.

Lemma stored_replace_pending c txs d u d' :
  stored c d → Forall bincode_ok txs → replace_pending_transactions txs d = (Ok u, d') → stored c d'.
Proof.
  intros [S1 S2 S3 S4 S5 S6 S7 S8 S9 S10] Hok Hw. apply replace_table_map in Hw as [Hp Ho].
  unfold meta_holds, table_holds in *.
  split; unfold meta_holds, table_holds; rewrite ?(Ho META_TABLE), ?(Ho BLOCKS_TABLE), ?(Ho STATE_TABLE), ?(Ho EVIDENCE_TABLE) by done; try done.
  eexists. split; [exact Hp|]. apply insert_all_Forall; [apply map_Forall_empty|]. by apply Forall_fmap.
Qed.

Lemma stored_put_finalized c c' h d r d' :
  stored c d → bc_blocks c' = bc_blocks c → bc_params c' = bc_params c →
  finalized_height (finality_tracker c') = h → finalized_height (finality_tracker c) ≤ h →
  bincode_ok h → put_meta FINALIZED_HEIGHT_KEY h d = (r, d') → stored c' d'.
Proof.
  intros [S1 S2 S3 S4 S5 S6 S7 S8 S9 S10] Eb Ep Ef Hle Hok Hw. destruct S5 as (f&Hf&Hr&Hrel).
  destruct r as [u|e].
  2: { pose proof (write_transaction_Err _ _ _ _ Hw) as ->.
    split; rewrite ?Eb, ?Ep; unfold chain_height, block_count in *; rewrite ?Eb; try done.
    exists f. split; [done|]. split; [lia|]. intros Hnf.
    unfold put_meta, write_transaction in Hw. specialize (Hnf [Insert META_TABLE FINALIZED_HEIGHT_KEY (bincode_serialize h)] d).
    by destruct (db_commit _ d). }
  apply put_meta_Ok in Hw as [HM Ho].
  assert (∀ k, k ≠ FINALIZED_HEIGHT_KEY → db_table d' META_TABLE !! k = db_table d META_TABLE !! k) as Hm.
  { intros k Hk. by rewrite HM, lookup_insert_ne. }
  unfold meta_holds, table_holds in *.
  split; unfold meta_holds, table_holds; rewrite ?Ep, ?Eb, ?(Ho BLOCKS_TABLE), ?(Ho PENDING_TABLE), ?(Ho STATE_TABLE), ?(Ho EVIDENCE_TABLE) by done;
    try (rewrite Hm by vm_decide; done); try done.
  - rewrite Hm by vm_decide. unfold chain_height, block_count in *. by rewrite Eb.
  - exists h. rewrite HM, lookup_insert_eq. split; [done|]. split; [lia|done].
Qed.

(** ** Lemmas: loading *)

Lemma load_tree_Ok weights hs t s count base (cu : Cursor D L) :
  mirrors s count base cu → base ≤ 1 →
  (∀ h, h ∈ hs → 0 ≤ h < count ∧ ∃ b, db_get_block h s = Ok (Some b)) →
  ∃ t' cu', load_tree weights hs t cu = (Ok t', cu') ∧ mirrors s count base cu'.
Proof.
  revert t cu. induction hs as [|h hs IH]; intros t cu Hm Hb1 Hhs; [by exists t, cu|].
  destruct (Hhs h ltac:(left)) as (Hh&b&Hb).
  destruct (mirrors_block_at _ _ _ _ _ _ Hm Hb1 Hh Hb) as (c1&Hc1&Hm1).
  cbn [load_tree]. unfold mbind, stM_bind, cursor_block. rewrite Hc1. cbn [map_err].
  apply IH; [done..|]. intros k Hk. apply Hhs. by right.
Qed.

Lemma collect_blocks_Ok (blocks : list Block) s count base (cu : Cursor D L) k :
  mirrors s count base cu → base ≤ 1 → k + Z.of_nat (length blocks) ≤ count → 0 ≤ k →
  (∀ i b, blocks !! i = Some b → db_get_block (k + Z.of_nat i) s = Ok (Some b)) →
  ∃ cu', collect_blocks (seqZ k (Z.of_nat (length blocks))) cu = (Ok blocks, cu') ∧
    mirrors s count base cu'.
Proof.
  revert k cu. induction blocks as [|b blocks IH]; intros k cu Hm Hb1 Hlen Hk Hb; [by exists cu|].
  cbn [length] in *. rewrite Nat2Z.inj_succ in *. rewrite seqZ_cons by lia. rewrite Z.pred_succ.
  cbn [collect_blocks].
  assert (db_get_block k s = Ok (Some b)) as Hkb.
  { specialize (Hb 0%nat b eq_refl). by rewrite Z.add_0_r in Hb. }
  destruct (mirrors_block_at s count base cu k b) as (c1&Hc1&Hm1); [done..|lia|done|].
  destruct (IH (Z.succ k) c1) as (c2&Hc2&Hm2); [done|done|lia|lia| |].
  { intros i b' Hi. specialize (Hb (S i) b' Hi). by replace (Z.succ k + Z.of_nat i) with (k + Z.of_nat (S i)) by lia. }
  unfold mbind, stM_bind, cursor_block. rewrite Hc1. cbn [map_err]. rewrite Hc2. by exists c2.
Qed.

Lemma table_get_compat {A B} `{!Bincode A, !BincodeDecode A, !BincodeDecode B} (upgrade : B → A)
    (t : Table) k (x : A) (d : D) :
  db_table d t !! k = Some (bincode_serialize x) → bincode_ok x →
  table_get (decode_compat upgrade) t k d = Ok (Some x).
Proof. unfold table_get. intros -> Hx. by rewrite decode_compat_encoded. Qed.

Lemma stored_block c d i b :
  stored c d → bc_blocks c !! i = Some b → db_get_block (Z.of_nat i) d = Ok (Some b).
Proof. intros Hs Hi. destruct (sd_blocks _ _ Hs _ _ Hi). by apply table_get_encoded. Qed.

Lemma no_evidence_no_slashed (d : D) :
  db_table d EVIDENCE_TABLE = ∅ → get_slashed_addresses d = Ok ∅.
Proof. intros E. unfold get_slashed_addresses, table_all. by rewrite E. Qed.

Lemma block_at_found h s count base (cu : Cursor D L) :
  mirrors s count base cu → base ≤ 1 → 0 ≤ h →
  (h < count → ∃ b, db_get_block h s = Ok (Some b)) →
  ∃ ob cu', block_at h cu = (Ok ob, cu') ∧ mirrors s count base cu'.
Proof.
  intros Hm Hb Hh Hget. destruct (Z.lt_ge_cases h count) as [Hlt|Hge].
  - destruct (Hget Hlt) as [b Hgb]. exists (Some b). by eapply mirrors_block_at.
  - destruct (decide (h = 0)) as [->|Hne].
    + exists (Some (cu_genesis cu)), cu. by unfold block_at, block_at_begin.
    + exists None, cu. by rewrite (mirrors_missing _ _ _ _ _ Hm) by lia.
Qed.

(** The records a start reads. *)
Lemma load_chain_Ok g c d expected b0 base (cu : Cursor D L) :
  stored c d → chain_linked c → block_count c ≤ u64_max → bc_params c = params_of g →
  head (bc_blocks c) = Some b0 → block_hash b0 = block_hash expected →
  mirrors d (block_count c) base cu → base ≤ 1 →
  ∃ c' cu', load_chain d g expected (chain_height c) cu = (Ok c', cu') ∧
    bc_params c' = params_of g ∧ bc_blocks c' = bc_blocks c ∧ bc_slashed_validators c' = ∅ ∧
    finalized_height (finality_tracker c') ≤ finalized_height (finality_tracker c) ∧
    (never_fails → finalized_height (finality_tracker c') = finalized_height (finality_tracker c)).
Proof.
  intros Hs Hc Hlim Hp Hb0 Hh Hm Hbase.
  pose proof (chain_linked_count _ Hc) as Hn. pose proof (Zle_0_nat (length (bc_blocks c))) as Hlen.
  assert (∀ h, 0 ≤ h < block_count c → ∃ b, db_get_block h d = Ok (Some b)) as Hget.
  { intros h Hr. destruct (lookup_lt_is_Some_2 (bc_blocks c) (Z.to_nat h)) as [b Hb].
    { unfold block_count in Hr. lia. }
    exists b. apply (stored_block _ _ _ _ Hs) in Hb. by rewrite Z2Nat.id in Hb by lia. }
  rewrite head_lookup in Hb0. pose proof (stored_block _ _ _ _ Hs Hb0) as Hg0.
  pose proof (lookup_lt_Some _ _ _ Hb0) as Hpos.
  pose proof Hs as [S1 S2 S3 S4 (f&[Hf Hfok]&Hfr&Hrel) (r&Hr&Hrok) (gv&Hgv&Hgvok) (mp&Hmp&Hmpok) (ma&Hma&Hmaok) Hev].
  destruct (mirrors_block_at _ _ _ _ 0 _ Hm Hbase ltac:(unfold block_count; lia) Hg0) as (c1&Hc1&Hm1).
  unfold load_chain, cursor_block, storage_result, st_lift, st_guard, st_get, mbind, stM_bind, mret, stM_ret.
  rewrite Hc1. cbn [map_err ok_or]. rewrite bool_decide_eq_true_2 by done.
  assert (get_all_pending_transactions_compat (gc_chain_id g) d =
    Ok (merge_sort pending_le (sorted_entries mp).*2)) as ->.
  { unfold get_all_pending_transactions_compat. by rewrite (table_all_compat _ _ _ _ Hmp Hmpok). }
  rewrite (no_evidence_no_slashed d Hev). unfold get_all_accounts_compat.
  rewrite (table_all_compat _ _ _ _ Hma Hmaok). cbn [map_err].
  destruct (load_tree_Ok (list_to_map (sorted_entries ma)) (seqZ 1 (chain_height c))
    (tree_from_genesis b0) d (block_count c) base c1) as (t&c2&Ht&Hm2); [done..| |].
  { intros h Hin%elem_of_seqZ. split; [lia|]. apply Hget. lia. }
  rewrite Ht. unfold get_meta. rewrite (table_get_encoded _ _ _ _ Hf Hfok). cbn [map_err from_option].
  destruct (block_at_found f d (block_count c) base c2) as (ob&c3&Hc3&Hm3); [done..|lia| |].
  { intros Hlt. apply Hget; lia. }
  change (id f) with f. rewrite Hc3, (table_get_encoded _ _ _ _ Hr Hrok), (table_get_encoded _ _ _ _ Hgv Hgvok).
  cbn [map_err]. rewrite (mi_count _ _ _ _ Hm3).
  destruct (collect_blocks_Ok (bc_blocks c) d (block_count c) base c3 0) as (c4&Hc4&_); [done..|
    unfold block_count; lia|lia| |].
  { intros i b Hi. rewrite Z.add_0_l. by eapply stored_block. }
  fold (block_count c) in Hc4. rewrite Hc4. eexists _, c4. split; [done|]. simpl.
  split_and!; [done..|lia|done].
Qed.

(** Starting on the database of a grown chain. *)
Lemma restart_stored g limit c d cfg async :
  grown g limit c → stored c d → block_count c ≤ u64_max → cfg = None ∨ cfg = Some g →
  ∃ n, with_storage_mode (L:=L) limit cfg async d = Ok n ∧ nd_storage n = Some d ∧
    same_ledger c (nd_chain n) ∧ bc_blocks (nd_chain n) = bc_blocks c ∧
    finalized_height (finality_tracker (nd_chain n)) ≤ finalized_height (finality_tracker c) ∧
    (never_fails →
     finalized_height (finality_tracker (nd_chain n)) = finalized_height (finality_tracker c)).
Proof.
  intros Hgr Hs Hlim Hcfg. pose proof (grown_linked _ _ _ Hgr) as Hc.
  destruct (grown_params _ _ _ Hgr) as [Hp _].
  destruct (grown_replays _ _ _ Hgr) as [(g0&Hg0&_) (b0&Hb0&Hl0)].
  destruct (genesis_block_of _ _ Hg0) as (m&Hm&Hgb). rewrite (Hl0 _ Hg0) in Hgb.
  pose proof (chain_linked_count _ Hc) as Hn.
  assert (0 ≤ chain_height c) as Hch by (unfold chain_height, saturating_sub; lia).
  assert (db_get_height d = Ok (Some (chain_height c))) as Hh.
  { unfold db_get_height. rewrite (sd_height _ _ Hs), u64_of_key_key by u64_lia. done. }
  assert (∀ h, 0 ≤ h ≤ chain_height c → ∃ b, db_get_block h d = Ok (Some b)) as Hget.
  { intros h Hr. destruct (lookup_lt_is_Some_2 (bc_blocks c) (Z.to_nat h)) as [b Hb].
    { unfold block_count in Hn. lia. }
    exists b. apply (stored_block _ _ _ _ Hs) in Hb. by rewrite Z2Nat.id in Hb by lia. }
  pose proof Hb0 as Hb0'. rewrite head_lookup in Hb0'. apply (stored_block _ _ _ _ Hs) in Hb0'.
  destruct (new_with_persist_mirrors (L:=L) d DEFAULT_BLOCK_CACHE_SIZE false (chain_height c) b0)
    as (cu&base&Hcu&Hbase&Hmi); [done..| |].
  { intros h Hr. apply Hget. lia. }
  rewrite <- Hn in Hmi.
  destruct (load_chain_Ok g c d _ b0 base cu Hs Hc Hlim Hp Hb0 (f_equal block_hash Hgb) Hmi Hbase)
    as (c1&cu1&Hload&Ep&Eb&Esl&Hfin&Hrel).
  destruct (grown_rebuilds g limit c c1) as (c2&Hc2&Hl2&(_&Eb2&_&Ef2&_)); [done|congruence|done..|].
  destruct (sd_schema _ _ Hs) as [Hsch Hschok]. destruct (sd_config _ _ Hs) as [Hcf Hcfok].
  rewrite Hp in Hcf, Hcfok. cbn [genesis_config params_of] in Hcf, Hcfok.
  eexists. split.
  - unfold with_storage_mode. rewrite Hh. cbn [map_err mbind result_bind].
    unfold get_schema_version, get_meta. rewrite (table_get_encoded _ _ _ _ Hsch Hschok).
    unfold get_genesis_config_compat. rewrite (table_get_compat _ _ _ _ _ Hcf Hcfok).
    cbn [map_err mbind result_bind from_option]. change (id g) with g.
    assert (match cfg with
            | Some expected => if bool_decide (g = expected) then Ok () else Err GenesisMismatch
            | None => Ok ()
            end = Ok ()) as -> by (destruct Hcfg as [-> | ->]; [done|by rewrite bool_decide_eq_true_2]).
    rewrite Hm. cbn [mbind result_bind]. rewrite Hcu. cbn [map_err mbind result_bind].
    rewrite Hload. cbn [fst mbind result_bind]. rewrite Hc2. cbn [mbind result_bind].
    change (id CURRENT_SCHEMA_VERSION <? CURRENT_SCHEMA_VERSION) with false. exact eq_refl.
  - assert (∀ n : Node D, nd_storage (if async then set_mode (Async worker_spawn) n else n) = nd_storage n ∧
      nd_chain (if async then set_mode (Async worker_spawn) n else n) = nd_chain n) as Hmode
      by (intros n; by destruct async).
    destruct (Hmode (mkNode c2 (Some d) Sync None (base_height cu))) as [-> ->]. simpl.
    rewrite Ef2. split_and!; [done..|congruence|done|done].
Qed.

(** ** The life of a node *)

(** What a node that writes synchronously and does not prune goes through: it
    starts on an empty database, accepts blocks, receives transactions, counts
    votes. Its database may refuse the finalized height, and its mempool; the
    writes of an accepted block succeed. *)
Inductive lives (g : GenesisConfig) (limit : Z) : Node D → Prop :=
  | lives_start now d n :
      db_get_height d = Ok None → db_table d EVIDENCE_TABLE = ∅ →
      with_storage_mode (L:=L) now (Some g) false d = Ok n → encodable (nd_chain n) →
      lives g limit n
  | lives_block now b n n' :
      lives g limit n → now ≤ limit → block_count (nd_chain n) < u64_max →
      node_add_block now b n = (Ok (), n') → encodable (nd_chain n') → lives g limit n'
  | lives_transaction now tx n r n' :
      lives g limit n → node_add_transaction now tx n = (r, n') → encodable (nd_chain n') →
      lives g limit n'
  | lives_vote vote n r n' :
      lives g limit n → node_add_finality_vote vote n = (r, n') → encodable (nd_chain n') →
      lives g limit n'.

Record kept (g : GenesisConfig) (limit : Z) (n : Node D) (d : D) : Prop := {
  kp_storage : nd_storage n = Some d;
  kp_mode : nd_mode n = Sync;
  kp_prune : prune_keep_blocks n = None;
  kp_grown : grown g limit (nd_chain n);
  kp_count : block_count (nd_chain n) ≤ u64_max;
  kp_final : 0 ≤ finalized_height (finality_tracker (nd_chain n));
  kp_votes : tracker_wf (finality_tracker (nd_chain n));
  kp_stored : stored (nd_chain n) d;
}.

Lemma kept_full g limit n d u n' :
  nd_storage n = Some d → nd_mode n = Sync → prune_keep_blocks n = None →
  grown g limit (nd_chain n) → block_count (nd_chain n) ≤ u64_max →
  0 ≤ finalized_height (finality_tracker (nd_chain n)) → tracker_wf (finality_tracker (nd_chain n)) →
  encodable (nd_chain n) → db_table d EVIDENCE_TABLE = ∅ → persist_full_state n = (Ok u, n') →
  ∃ d', kept g limit n' d' ∧ nd_chain n' = nd_chain n.
Proof.
  intros Hst Hmo Hpr Hgr Hlim Hf Hv He Hev. unfold persist_full_state, st_get, mbind, stM_bind.
  rewrite Hst, Hmo. unfold on_storage. rewrite Hst.
  destruct (write_full_state_to_storage _ d) as [[u'|e] d'] eqn:Hw; [|done].
  intros [= _ <-]. exists d'. split; [|done]. split; simpl; try done.
  eapply write_full_state_stored; [by eapply grown_linked|u64_lia|done..].
Qed.

(** A step that leaves the ledger, the blocks and the finality alone. *)
Lemma kept_same g limit n d c' :
  kept g limit n d → same_ledger (nd_chain n) c' → bc_blocks c' = bc_blocks (nd_chain n) →
  finalized_height (finality_tracker c') = finalized_height (finality_tracker (nd_chain n)) →
  tracker_wf (finality_tracker c') → kept g limit (set_chain c' n) d.
Proof.
  intros [K1 K2 K3 K4 K5 K6 K7 K8] Hl Eb Ef Hv. split; simpl; try done.
  - by eapply grown_other.
  - unfold block_count in *. by rewrite Eb.
  - by rewrite Ef.
  - destruct Hl as ((Ep&_)&_). by eapply stored_same.
Qed.

Lemma kept_transaction g limit now tx n d r n' :
  kept g limit n d → node_add_transaction now tx n = (r, n') → encodable (nd_chain n') →
  ∃ d', kept g limit n' d'.
Proof.
  intros Hk Hn He. unfold node_add_transaction, on_chain, mbind, stM_bind in Hn.
  destruct (add_transaction now tx (nd_chain n)) as [r0 c1] eqn:Ha.
  assert (kept g limit (set_chain c1 n) d) as Hk1.
  { assert (∃ l, c1 = set_pool l (nd_chain n)) as [l ->].
    { pose proof (add_transaction_cases _ _ _ _ _ Ha) as [(e&_&_&->)|(r1&l1&_&_&Hr1)]; [by eexists|].
      destruct r1; destruct Hr1 as [_ ->]; by eexists. }
    apply kept_same; [done..|]. apply Hk. }
  destruct r0 as [u|e]; [|injection Hn as _ <-; by exists d].
  unfold persist_pending_transactions, st_get, mbind, stM_bind, on_storage in Hn.
  rewrite (kp_mode _ _ _ _ Hk1), (kp_storage _ _ _ _ Hk1) in Hn.
  destruct (replace_pending_transactions _ d) as [r2 d2] eqn:Hw. injection Hn as _ <-. exists d2.
  destruct Hk1 as [K1 K2 K3 K4 K5 K6 K7 K8]. split; simpl in *; try done. destruct r2 as [u2|e2].
  - eapply stored_replace_pending; [done|exact (en_pending _ He)|done].
  - by rewrite (write_transaction_Err _ _ _ _ Hw).
Qed.

Lemma kept_vote g limit vote n d r n' :
  kept g limit n d → node_add_finality_vote vote n = (r, n') → encodable (nd_chain n') →
  ∃ d', kept g limit n' d'.
Proof.
  intros Hk Hn He. unfold node_add_finality_vote, mbind, stM_bind in Hn.
  destruct (add_finality_vote vote (nd_chain n)) as [fo c1] eqn:Ha.
  pose proof (vote_cases _ _ _ _ Ha) as [[-> ->]|(e&sn&tr&_&_&_&_&_&Hv&Ec)].
  { injection Hn as _ <-. exists d. apply kept_same; [done..|]. apply Hk. }
  pose proof (add_vote_wf _ vote sn (kp_votes _ _ _ _ Hk)) as Hwf. rewrite Hv in Hwf. simpl in Hwf.
  destruct fo as [f|].
  2: { injection Hn as _ <-. subst c1. exists d. apply kept_same; [done..| |done].
       by destruct (add_vote_unfinalized _ _ _ _ Hv). }
  destruct (add_vote_finalizes _ _ _ _ _ (kp_votes _ _ _ _ Hk) Hv) as (_&_&_&_&_&Hlt&Eh&_).
  destruct Hk as [K1 K2 K3 K4 K5 K6 K7 K8].
  unfold persist_finalized_height, on_storage_silent, on_storage, st_get, st_modify, mbind, stM_bind, mret, stM_ret in Hn.
  cbn [set_chain nd_mode nd_storage] in Hn. rewrite K2 in Hn. cbn [set_chain nd_storage] in Hn. rewrite K1 in Hn.
  destruct (put_meta _ _ d) as [r2 d2] eqn:Hw. cbn [snd] in Hn. unfold maybe_prune_finalized in Hn.
  cbn [set_node_storage set_chain prune_keep_blocks] in Hn. rewrite K3 in Hn. cbn [snd] in Hn.
  injection Hn as _ <-. exists d2. subst c1. cbn [set_node_storage nd_chain set_chain] in He.
  split; simpl; try done; [by eapply grown_other|lia|].
  eapply stored_put_finalized; [exact K8|done|done|exact Eh|lia| |exact Hw].
  pose proof (en_finalized _ He) as Hfo. simpl in Hfo. by rewrite Eh in Hfo.
Qed.

Lemma kept_block g limit now b n d n' :
  kept g limit n d → now ≤ limit → block_count (nd_chain n) < u64_max →
  node_add_block now b n = (Ok (), n') → encodable (nd_chain n') → ∃ d', kept g limit n' d'.
Proof.
  intros [K1 K2 K3 K4 K5 K6 K7 K8] Hnow Hlim Hn He. unfold node_add_block in Hn.
  apply st_bind_Ok in Hn as ([]&n1&Ha&Hn). unfold on_chain in Ha.
  destruct (add_block now b (nd_chain n)) as [[[]|e] c1] eqn:Hab; [|done]. injection Ha as <-.
  pose proof (grown_linked _ _ _ K4) as Hc.
  destruct (add_block_appends _ _ _ _ _ Hc Hlim Hab) as (Eb&Eh&_).
  assert (grown g limit c1) as Hgr by (by eapply grown_block).
  assert (bc_params c1 = bc_params (nd_chain n)) as Ep.
  { rewrite (proj1 (grown_params _ _ _ Hgr)). by rewrite (proj1 (grown_params _ _ _ K4)). }
  destruct (add_block_inserts now b (nd_chain n)) as (Et&_).
  { rewrite Eh. unfold block_count in *. u64_lia. }
  rewrite Hab in Et. simpl in Et.
  assert (block_count c1 = block_count (nd_chain n) + 1) as Hcount
    by (unfold block_count; rewrite Eb, length_app; simpl; lia).
  apply st_bind_Ok in Hn as ([]&n2&Hp&Hn). unfold persist_added_block, st_get, mbind, stM_bind, on_storage in Hp.
  cbn [set_chain nd_mode nd_storage] in Hp. rewrite K2 in Hp. cbn [set_chain nd_storage] in Hp. rewrite K1 in Hp.
  destruct (db_put_block b d) as [[u|e] d1] eqn:Hw; [|done]. injection Hp as _ <-.
  apply st_bind_Ok in Hn as (m&n3&Hg&Hn). injection Hg as <- <-. simpl in Hn.
  assert (nd_chain n' = c1) as En'.
  { case_match; [|by injection Hn as <-]. unfold persist_full_state, st_get, mbind, stM_bind in Hn.
    simpl in Hn. rewrite K2 in Hn. unfold on_storage in Hn. simpl in Hn.
    destruct (write_full_state_to_storage _ _) as [[?|?] ?]; [|done]. by injection Hn as _ <-. }
  rewrite En' in He.
  assert (stored c1 d1) as Hs1.
  { eapply stored_put_block; [exact K8|done|done|by rewrite Et|done|done| |exact Hw].
    pose proof (en_blocks _ He) as Hbl. rewrite Eb in Hbl. apply Forall_app in Hbl as [_ Hbl]. rewrite Forall_singleton in Hbl. exact Hbl. }
  assert (kept g limit (set_node_storage d1 (set_chain c1 n)) d1) as Hk1.
  { split; simpl; try done; [lia|by rewrite Et..]. }
  case_match; [|injection Hn as <-; by exists d1].
  destruct Hk1 as [L1 L2 L3 L4 L5 L6 L7 L8].
  destruct (kept_full g limit _ d1 _ _ L1 L2 L3 L4 L5 L6 L7 He (sd_evidence _ _ Hs1) Hn) as (d2&Hk2&_).
  by exists d2.
Qed.

Lemma lives_kept g limit n : lives g limit n → ∃ d, kept g limit n d.
Proof.
  induction 1 as [now d n Hh Hev Hw He|now b n n' _ [d Hk] Hnow Hlim Hn He|
                  now tx n r n' _ [d Hk] Hn He|vote n r n' _ [d Hk] Hn He].
  - unfold with_storage_mode in Hw. rewrite Hh in Hw. cbn [map_err mbind result_bind] in Hw.
    apply result_bind_Ok in Hw as (c&Hc&Hw). cbn [from_option id] in Hc.
    destruct (persist_full_state _) as [[[]|e] n1] eqn:Hp; [|done]. cbn in Hw. injection Hw as ->.
    destruct (from_genesis_blocks _ _ Hc) as (Eb&_).
    assert (finality_tracker c = tracker_new) as Et by (unfold from_genesis in Hc; by repeat st_step).
    assert (nd_chain n = c) as En.
    { unfold persist_full_state, st_get, mbind, stM_bind in Hp. simpl in Hp. unfold on_storage in Hp.
      simpl in Hp. destruct (write_full_state_to_storage _ _) as [[?|?] ?]; [|done]. by injection Hp as _ <-. }
    rewrite En in He.
    destruct (kept_full g limit (mkNode c (Some d) Sync None 0) d () n) as (d'&Hk&_); simpl; try done.
    + by constructor.
    + unfold block_count. rewrite Eb. simpl. u64_lia.
    + by rewrite Et.
    + rewrite Et. apply tracker_new_wf.
    + by exists d'.
  - by eapply kept_block.
  - by eapply kept_transaction.
  - by eapply kept_vote.
Qed.

End restart.

(** ** Witness: a node of two validators that finalizes its first block *)

#[global] Instance bincode_ok_dec {A} `{!Bincode A, !BincodeDecode A, EqDecision A} (x : A) :
  Decision (bincode_ok x).
Proof. unfold bincode_ok. apply _. Defined.

Section encodable.
Context `{!StorageCodec}.
Definition encodableb (c : Blockchain) : bool :=
  bool_decide (bincode_ok (genesis_config (bc_params c))) &&
  bool_decide (bincode_ok (finalized_height (finality_tracker c))) &&
  bool_decide (bincode_ok CURRENT_SCHEMA_VERSION) &&
  bool_decide (Forall bincode_ok (bc_blocks c)) &&
  bool_decide (Forall (λ kv, bincode_ok kv.2) (map_to_list (accounts (bc_state c)))) &&
  bool_decide (Forall bincode_ok (pending_transactions c)) &&
  bool_decide (bincode_ok (token_registry (bc_state c))) &&
  bool_decide (bincode_ok (governance (bc_state c))).

Lemma encodableb_encodable c : encodableb c = true → encodable c.
Proof.
  unfold encodableb. rewrite !andb_true_iff, !bool_decide_eq_true.
  intros [[[[[[[? ?] ?] ?] Hacc] ?] ?] ?]. split; try done. intros k a Hk.
  rewrite Forall_forall in Hacc. apply (Hacc (k, a)). by apply elem_of_map_to_list.
Qed.
End encodable.

Section witness.
Import Demo.
#[local] Existing Instance demo_sort.

Definition known_accounts : list AccountState :=
  (map_to_list (accounts (bc_state demo_root))).*2 ++ (map_to_list (accounts (bc_state demo_c1))).*2.
Definition no_ser (A : Type) : Bincode A := λ _, [].
Definition no_de (A : Type) : BincodeDecode A := λ _, None.

Definition demo_codec : StorageCodec := {|
  codec_block := dict_ser [latest_block demo_root; demo_a1];
  codec_block_de := dict_de [latest_block demo_root; demo_a1];
  codec_account := dict_ser known_accounts; codec_account_de := dict_de known_accounts;
  codec_contract := no_ser _; codec_contract_de := no_de _;
  codec_receipt := no_ser _; codec_receipt_de := no_de _;
  codec_tx := no_ser _; codec_tx_de := no_de _;
  codec_epoch := no_ser _; codec_epoch_de := no_de _;
  codec_evidence := no_ser _; codec_evidence_de := no_de _;
  codec_genesis := dict_ser [demo_two 5000]; codec_genesis_de := dict_de [demo_two 5000];
  codec_registry := dict_ser [registry_new]; codec_registry_de := dict_de [registry_new];
  codec_governance := dict_ser [governance_new]; codec_governance_de := dict_de [governance_new];
  codec_manifest := no_ser _; codec_manifest_de := no_de _;
  codec_chunk := no_ser _; codec_chunk_de := no_de _;
  codec_u64 := u64_key; codec_u64_de := u64_of_key;
|}.
Definition demo_legacy : LegacyCodec := {|
  legacy_genesis_de := no_de _; legacy_account_de := no_de _; legacy_tx_de := no_de _;
  legacy_block_de := no_de _; legacy_evidence_de := no_de _;
|}.
#[local] Existing Instances demo_codec demo_legacy.

Definition demo_open : result ChainError (Node DemoDb) :=
  with_storage_mode (L:=LruList) t0 (Some (demo_two 5000)) false demo_db_empty.
Definition demo_node0 : Node DemoDb :=
  unwrap_or (mkNode demo_root None Sync None 0) demo_open.
Definition demo_node1 : Node DemoDb := (node_add_block (t0 + 10) demo_a1 demo_node0).2.
Definition demo_node2 : Node DemoDb := (node_add_finality_vote (demo_ballot 1 demo_a1) demo_node1).2.
Definition demo_node3 : Node DemoDb := (node_add_finality_vote (demo_ballot 2 demo_a1) demo_node2).2.

Lemma demo_life_ok :
  is_ok demo_open && is_ok (node_add_block (t0 + 10) demo_a1 demo_node0).1 &&
  encodableb (nd_chain demo_node0) && encodableb (nd_chain demo_node1) &&
  encodableb (nd_chain demo_node2) && encodableb (nd_chain demo_node3) &&
  (block_count (nd_chain demo_node0) =? 1) &&
  (finalized_height (finality_tracker (nd_chain demo_node3)) =? 1) = true.
Proof. vm_compute. exact eq_refl. Qed.

Lemma demo_life :
  is_ok demo_open = true ∧ is_ok (node_add_block (t0 + 10) demo_a1 demo_node0).1 = true ∧
  encodableb (nd_chain demo_node0) = true ∧ encodableb (nd_chain demo_node1) = true ∧
  encodableb (nd_chain demo_node2) = true ∧ encodableb (nd_chain demo_node3) = true ∧
  (block_count (nd_chain demo_node0) =? 1) = true ∧
  (finalized_height (finality_tracker (nd_chain demo_node3)) =? 1) = true.
Proof. exact (andb8 _ _ _ _ _ _ _ _ demo_life_ok). Qed.

Lemma demo_open_run :
  with_storage_mode (L:=LruList) t0 (Some (demo_two 5000)) false demo_db_empty = Ok demo_node0.
Proof. exact (is_ok_unwrap demo_open (mkNode demo_root None Sync None 0) (proj1 demo_life)). Qed.

Lemma demo_block_step : node_add_block (t0 + 10) demo_a1 demo_node0 = (Ok (), demo_node1).
Proof. exact (run_ok (node_add_block (t0 + 10) demo_a1 demo_node0) (proj1 (proj2 demo_life))). Qed.

Lemma demo_first_vote : node_add_finality_vote (demo_ballot 1 demo_a1) demo_node1 =
  ((node_add_finality_vote (demo_ballot 1 demo_a1) demo_node1).1, demo_node2).
Proof. exact (surjective_pairing (node_add_finality_vote (demo_ballot 1 demo_a1) demo_node1)). Qed.

Lemma demo_last_vote : node_add_finality_vote (demo_ballot 2 demo_a1) demo_node2 =
  ((node_add_finality_vote (demo_ballot 2 demo_a1) demo_node2).1, demo_node3).
Proof. exact (surjective_pairing (node_add_finality_vote (demo_ballot 2 demo_a1) demo_node2)). Qed.

Lemma demo_lives : lives (L:=LruList) (demo_two 5000) (t0 + 10) demo_node3.
Proof.
  destruct demo_life as (_&_&Hd2&Hd3&Hd4&Hd5&Hd6&_).
  refine (lives_vote _ _ _ _ _ _ _ demo_last_vote (encodableb_encodable _ Hd5)).
  refine (lives_vote _ _ _ _ _ _ _ demo_first_vote (encodableb_encodable _ Hd4)).
  refine (lives_block _ _ _ _ _ _ _ (Z.le_refl _) _ demo_block_step (encodableb_encodable _ Hd3)).
  - refine (lives_start _ _ t0 demo_db_empty _ _ _ demo_open_run (encodableb_encodable _ Hd2)).
    + exact eq_refl.
    + exact eq_refl.
  - apply Z.eqb_eq in Hd6. rewrite Hd6. u64_lia.
Qed.

End witness.
