(* ===== verification/WorkerSafety.v ===== *)
(** * The persistence worker

    Theorems about the worker of [Persistence]: however its steps interleave with
    those of the node, the last full state handed over reaches the database; a
    small job handed over before a full state may still overwrite part of it. *)
From S2P Require Import Prelude Hash Crypto Vm Transaction Token Governance Block Account.
From S2P Require Import Validators Slashing Finality Settlement BlockStore BlockTree Trie StateRoot.
From S2P Require Import Chain Storage Apply Ledger AddBlock ChainSafety Mempool ForkChoice ForkChoiceSafety Persistence PersistenceSafety.

(** What the node and the worker do, in the order it happens. *)
Inductive WorkerOp :=
  | HandOver (state : PersistedChainState)
  | Enqueue (job : PersistJob)
  | Work.

Definition job_ok (job : PersistJob) : Prop := job ≠ Shutdown.
Definition op_ok (op : WorkerOp) : Prop :=
  match op with Enqueue job => job_ok job | _ => True end.

(** The last full state handed over. *)
Definition last_state (ops : list WorkerOp) : option PersistedChainState :=
  last (omap (λ op, match op with HandOver s => Some s | _ => None end) ops).

Section worker.
Context `{Sha3} {D : Type} `{!Redb D} `{!StorageCodec} `{!LegacyCodec}
  `{!Bincode SignableTransaction}.

Definition worker_op (dw : D * Worker) (op : WorkerOp) : D * Worker :=
  match op with
  | HandOver s => (dw.1, enqueue_full_state s dw.2)
  | Enqueue job => (dw.1, try_enqueue job dw.2)
  | Work => default dw (worker_step dw)
  end.

Definition worker_ops (ops : list WorkerOp) (d : D) : D * Worker :=
  foldl worker_op (d, worker_spawn) ops.

(** What only a full write touches. *)
Definition holds (d : D) (s : PersistedChainState) : Prop :=
  db_table d BLOCKS_TABLE = bincode_serialize <$> insert_all ∅ (block_entries (ps_blocks s)) ∧
  db_table d CONTRACT_TABLE = bincode_serialize <$> ps_contracts s ∧
  db_table d RECEIPT_TABLE = bincode_serialize <$> ps_receipts s.

(** A state in the slot has a job behind it, or the worker is about to look. *)
Record worker_wf (w : Worker) : Prop := {
  ww_signalled : full_state_slot w ≠ None → wk_queue w ≠ [] ∨ ∃ job, wk_phase w = Draining job;
  ww_queue : Forall job_ok (wk_queue w);
  ww_capacity : (length (wk_queue w) ≤ PERSISTENCE_QUEUE_CAPACITY)%nat;
  ww_phase : match wk_phase w with
    | Exited => False | Draining job | Running job => job_ok job | Waiting => True end;
}.

(** ** Lemmas *)

Lemma write_never_fails ws (d : D) :
  never_fails (D:=D) → ∃ d', write_transaction ws d = (Ok (), d').
Proof.
  intros Hnf. unfold write_transaction. specialize (Hnf ws d). destruct (db_commit ws d); [by eexists|done].
Qed.

Lemma never_fails_Ok ws (d : D) r d' :
  never_fails (D:=D) → write_transaction ws d = (r, d') → r = Ok ().
Proof. intros Hnf Hw. destruct (write_never_fails ws d Hnf) as [d2 E]. congruence. Qed.

(** A transaction leaves the tables it does not name alone, committed or not. *)
Lemma write_other ws (d : D) t :
  Forall (λ w, match w with Insert t' _ _ | Remove t' _ | Clear t' => t' ≠ t end) ws →
  db_table (execute (write_transaction ws) d) t = db_table d t.
Proof.
  intros Hws. unfold execute. destruct (write_transaction ws d) as [[u|e] d'] eqn:Hw; simpl.
  - rewrite (write_transaction_Ok _ _ _ _ t Hw). clear Hw.
    generalize (db_table d t). induction Hws as [|w ws Hw _ IH]; intros m; [done|]. simpl. rewrite IH.
    by destruct w; simpl; rewrite bool_decide_eq_false_2.
  - by rewrite (write_transaction_Err _ _ _ _ Hw).
Qed.

Lemma entry_inserts_other {A} `{!Bincode A} (t t' : Table) (l : list (bytes * A)) :
  t ≠ t' → Forall (λ w, match w with Insert t0 _ _ | Remove t0 _ | Clear t0 => t0 ≠ t' end) (entry_inserts t l).
Proof. intros Ht. by apply Forall_fmap, Forall_forall. Qed.

Lemma run_job_other job (d : D) t :
  t = BLOCKS_TABLE ∨ t = CONTRACT_TABLE ∨ t = RECEIPT_TABLE →
  db_table (run_job job d) t = db_table d t.
Proof.
  intros Ht. destruct job as [|txs|h|ev a acc|]; simpl; [done| | | |done].
  - apply write_other. constructor; [naive_solver|]. apply entry_inserts_other. naive_solver.
  - apply write_other. repeat constructor. naive_solver.
  - unfold execute, put_evidence_and_account, mbind, stM_bind.
    pose proof (write_other [Insert EVIDENCE_TABLE (evidence_key ev) (bincode_serialize ev)] d t
      ltac:(repeat constructor; naive_solver)) as He. unfold execute in He. unfold put_evidence.
    destruct (write_transaction _ d) as [[u|e] d1]; simpl in He; [|done].
    destruct acc as [acc|]; [|done]. rewrite <- He.
    exact (write_other [Insert STATE_TABLE a (bincode_serialize acc)] d1 t
      ltac:(repeat constructor; naive_solver)).
Qed.

Lemma write_full_never_fails s (d : D) :
  never_fails (D:=D) →
  write_full_state_to_storage s d = (Ok (), (write_full_state_to_storage s d).2).
Proof.
  intros Hnf. unfold write_full_state_to_storage, put_meta, replace_blocks, replace_accounts,
    replace_contracts, replace_receipts, replace_epoch_snapshots, replace_pending_transactions,
    replace_table, mbind, stM_bind.
  repeat match goal with |- context [write_transaction ?ws ?e] =>
    let e' := fresh "e" in let E := fresh "E" in
    destruct (write_never_fails ws e Hnf) as [e' E]; rewrite E; clear E end. done.
Qed.

Lemma write_full_holds s (d : D) :
  never_fails (D:=D) → holds (execute (write_full_state_to_storage s) d) s.
Proof.
  intros Hnf. unfold execute. pose proof (write_full_never_fails s d Hnf) as Hw.
  set (d' := (write_full_state_to_storage s d).2) in *. clearbody d'.
  unfold write_full_state_to_storage in Hw. repeat st_step.
  repeat match goal with
  | E : put_meta _ _ _ = (Ok _, _) |- _ => clear E
  | E : replace_blocks _ _ = (Ok _, _) |- _ => apply replace_blocks_Ok in E as (?&_&?)
  | E : replace_accounts _ _ = (Ok _, _) |- _ => apply replace_entries_Ok in E as [_ ?]
  | E : replace_contracts _ _ = (Ok _, _) |- _ => apply replace_entries_Ok in E as [? ?]
  | E : replace_receipts _ _ = (Ok _, _) |- _ => apply replace_entries_Ok in E as [? ?]
  | E : replace_epoch_snapshots _ _ = (Ok _, _) |- _ => apply replace_table_map in E as [_ ?]
  | E : replace_pending_transactions _ _ = (Ok _, _) |- _ => apply replace_table_map in E as [_ ?]
  end.
  unfold holds. split_and!;
    repeat match goal with
    | E : ∀ t, t ≠ _ → db_table ?x t = _ |- context [db_table ?x ?t0] => rewrite (E t0) by done; clear E
    end; done.
Qed.

Lemma worker_spawn_wf : worker_wf worker_spawn.
Proof. split; simpl; [done|constructor|lia|done]. Qed.

Lemma try_send_wf job w :
  job_ok job → (full_state_slot w ≠ None → job = FullStateSignal ∨ wk_queue w ≠ [] ∨ ∃ j, wk_phase w = Draining j) →
  Forall job_ok (wk_queue w) → (length (wk_queue w) ≤ PERSISTENCE_QUEUE_CAPACITY)%nat →
  match wk_phase w with Exited => False | Draining j | Running j => job_ok j | Waiting => True end →
  worker_wf (try_send job w).
Proof.
  intros Hj Hs Hq Hcap Hp. assert (wk_phase w ≠ Exited) as Hne by (intros E; by rewrite E in Hp).
  assert (try_send job w =
    if bool_decide (length (wk_queue w) < PERSISTENCE_QUEUE_CAPACITY)%nat
    then mkWorker (full_state_slot w) (wk_queue w ++ [job]) (wk_phase w) else w) as ->.
  { unfold try_send. by destruct (wk_phase w). }
  case_bool_decide as Hlen.
  - split; simpl; [|apply Forall_app; by repeat constructor|rewrite length_app; simpl; lia|done].
    intros _. left. by destruct (wk_queue w).
  - split; [|done..]. intros _. left. intros E. rewrite E in Hlen. unfold PERSISTENCE_QUEUE_CAPACITY in Hlen.
    simpl in Hlen. lia.
Qed.

Lemma worker_step_wf (d d' : D) w w' :
  worker_wf w → worker_step (d, w) = Some (d', w') → worker_wf w'.
Proof.
  intros [Hs Hq Hcap Hp]. unfold worker_step. destruct (wk_phase w) as [|job|job|] eqn:E; [| | |done].
  - destruct (wk_queue w) as [|job q] eqn:Eq; [done|]. intros [= <- <-].
    apply Forall_cons in Hq as [Hj Hq]. split; simpl; [|done|simpl in Hcap; lia|done].
    right. by exists job.
  - destruct (full_state_slot w); intros [= <- <-]; by split.
  - assert (full_state_slot w ≠ None → wk_queue w ≠ []) as Hs'.
    { intros Hn. destruct (Hs Hn) as [?|[j Hj]]; done. }
    destruct job; intros [= <- <-]; split; simpl; try done; intros Hn; left; by apply Hs'.
Qed.

Lemma worker_op_wf (d : D) w op : op_ok op → worker_wf w → worker_wf (worker_op (d, w) op).2.
Proof.
  intros Hop Hw. destruct op as [s|job|]; cbn [worker_op fst snd].
  - destruct Hw as [_ Hq Hcap Hp]. apply try_send_wf; [done| |done..]. intros _. by left.
  - pose proof Hw as [Hs Hq Hcap Hp]. apply try_send_wf; [done| |done..]. intros Hn. right. by apply Hs.
  - destruct (worker_step (d, w)) as [[d' w']|] eqn:E; [|done]. by eapply worker_step_wf.
Qed.

(** What was handed over last is in the slot or in the database. *)
Definition delivered (o : option PersistedChainState) (dw : D * Worker) : Prop :=
  match o with
  | Some s => full_state_slot dw.2 = Some s ∨ full_state_slot dw.2 = None ∧ holds dw.1 s
  | None => full_state_slot dw.2 = None
  end.

Lemma holds_other (d d' : D) s :
  (∀ t, t = BLOCKS_TABLE ∨ t = CONTRACT_TABLE ∨ t = RECEIPT_TABLE → db_table d' t = db_table d t) →
  holds d s → holds d' s.
Proof. intros Ht (H1'&H2'&H3'). unfold holds. by rewrite !Ht by auto. Qed.

Lemma worker_step_delivered (d d' : D) w w' o :
  never_fails (D:=D) → worker_wf w → worker_step (d, w) = Some (d', w') →
  delivered o (d, w) → delivered o (d', w').
Proof.
  intros Hnf Hw. unfold worker_step. destruct (wk_phase w) as [|job|job|] eqn:E; [| | |done].
  - destruct (wk_queue w) as [|job q]; [done|]. by intros [= <- <-].
  - destruct (full_state_slot w) as [s|] eqn:Es; intros [= <- <-]; unfold delivered; simpl.
    + destruct o as [s'|]; [|congruence]. rewrite Es. intros [[= <-]|[? _]]; [|done].
      right. split; [done|]. by apply write_full_holds.
    + destruct o as [s'|]; [|done]. rewrite Es. intros [?|[_ ?]]; [done|]. by right.
  - intros Hst. assert (w' = mkWorker (full_state_slot w) (wk_queue w) Waiting ∧ d' = run_job job d) as [-> ->].
    { pose proof (ww_phase _ Hw) as Hp. rewrite E in Hp. by destruct job; simplify_eq. }
    unfold delivered. simpl. destruct o as [s'|]; [|done]. intros [?|[? Hh]]; [by left|].
    right. split; [done|]. eapply holds_other; [|exact Hh]. intros t Ht. by apply run_job_other.
Qed.

Lemma full_state_slot_try_send job w : full_state_slot (try_send job w) = full_state_slot w.
Proof. unfold try_send. repeat case_match; done. Qed.

Lemma last_state_snoc ops op :
  last_state (ops ++ [op]) = match op with HandOver s => Some s | _ => last_state ops end.
Proof.
  unfold last_state. rewrite omap_app. destruct op; simpl; [by rewrite last_snoc|by rewrite app_nil_r..].
Qed.

Lemma worker_ops_inv ops (d : D) :
  never_fails (D:=D) → Forall op_ok ops →
  worker_wf (worker_ops ops d).2 ∧ delivered (last_state ops) (worker_ops ops d).
Proof.
  intros Hnf. induction ops as [|op ops IH] using rev_ind; intros Hops.
  { split; [apply worker_spawn_wf|done]. }
  apply Forall_app in Hops as [Hops Hop]. rewrite Forall_singleton in Hop. destruct (IH Hops) as [Hw Hd].
  unfold worker_ops in *. rewrite foldl_app. cbn [foldl]. destruct (foldl worker_op _ ops) as [d1 w1]. cbn [snd] in Hw.
  split; [by apply worker_op_wf|]. rewrite last_state_snoc. destruct op as [s|job|]; cbn [worker_op fst snd].
  - left. unfold enqueue_full_state. cbn [snd]. by rewrite full_state_slot_try_send.
  - unfold delivered, try_enqueue in *. cbn [fst snd] in *. by rewrite full_state_slot_try_send.
  - destruct (worker_step (d1, w1)) as [[d2 w2]|] eqn:E; [|done]. by eapply worker_step_delivered.
Qed.

(** ** The worker alone *)

Definition pending_steps (w : Worker) : nat :=
  3 * length (wk_queue w) + match full_state_slot w with Some _ => 1 | None => 0 end +
  match wk_phase w with Draining _ => 2 | Running _ => 1 | _ => 0 end.

Lemma worker_step_decreases (d d' : D) w w' :
  worker_step (d, w) = Some (d', w') → (pending_steps w' < pending_steps w)%nat.
Proof.
  unfold worker_step, pending_steps. destruct (wk_phase w) as [|job|job|]; [| | |done].
  - destruct (wk_queue w); [done|]. intros [= _ <-]. simpl. lia.
  - destruct (full_state_slot w); intros [= _ <-]; simpl; lia.
  - destruct job, (full_state_slot w); intros [= _ <-]; simpl; lia.
Qed.

Lemma worker_run_stops n (d : D) w :
  (pending_steps w ≤ n)%nat → worker_step (worker_run n (d, w)) = None.
Proof.
  revert d w. induction n as [|n IH]; intros d w Hn; cbn [worker_run].
  - destruct (worker_step (d, w)) as [[d' w']|] eqn:E; [|done]. apply worker_step_decreases in E. lia.
  - destruct (worker_step (d, w)) as [[d' w']|] eqn:E; [|done]. apply IH.
    apply worker_step_decreases in E. lia.
Qed.

Lemma worker_run_inv n (d : D) w o :
  never_fails (D:=D) → worker_wf w → delivered o (d, w) →
  worker_wf (worker_run n (d, w)).2 ∧ delivered o (worker_run n (d, w)).
Proof.
  intros Hnf. revert d w. induction n as [|n IH]; intros d w Hw Hd; [done|]. cbn [worker_run].
  destruct (worker_step (d, w)) as [[d' w']|] eqn:E; [|done].
  apply IH; [by eapply worker_step_wf|by eapply worker_step_delivered].
Qed.

Lemma worker_stuck (d : D) w : worker_wf w → worker_step (d, w) = None → w = worker_spawn.
Proof.
  intros [Hs Hq _ Hp]. destruct w as [slot q ph]. simpl in *. destruct ph as [|job|job|]; simpl.
  - destruct q; [|done]. intros _. destruct slot; [|done]. destruct Hs as [?|[? ?]]; done.
  - by destruct slot.
  - by destruct job.
  - done.
Qed.

Lemma pending_steps_bound w : worker_wf w → (pending_steps w ≤ 27)%nat.
Proof.
  intros [_ _ Hcap _]. unfold pending_steps, PERSISTENCE_QUEUE_CAPACITY in *.
  destruct (full_state_slot w), (wk_phase w); lia.
Qed.

(** ** Properties *)

(** C13: no full state is lost. However the steps of the node and of the worker
    interleave, and whatever jobs the full queue drops, the worker left alone is
    idle after at most 27 steps, with nothing in its slot; on a database that does
    not fail the blocks, contracts and receipts stored are then those of the last
    full state handed over. *)
Theorem full_state_reaches_database (ops : list WorkerOp) (d : D) :
  never_fails (D:=D) → Forall op_ok ops →
  ∃ d', worker_run 27 (worker_ops ops d) = (d', worker_spawn) ∧
    ∀ s, last_state ops = Some s → holds d' s.
Proof.
  intros Hnf Hops. destruct (worker_ops_inv ops d Hnf Hops) as [Hw Hd].
  destruct (worker_ops ops d) as [d1 w1]. cbn [snd] in Hw.
  destruct (worker_run_inv 27 d1 w1 (last_state ops) Hnf Hw Hd) as [Hw2 Hd2].
  pose proof (worker_run_stops 27 d1 w1 (pending_steps_bound _ Hw)) as Hstop.
  destruct (worker_run 27 (d1, w1)) as [d2 w2]. cbn [snd] in Hw2.
  pose proof (worker_stuck _ _ Hw2 Hstop) as ->. exists d2. split; [done|].
  intros s Hs. rewrite Hs in Hd2. by destruct Hd2 as [?|[_ ?]].
Qed.

(** A job is not always older than what is stored. The worker empties the slot
    before it runs the job in hand: a mempool and a finalized height handed over
    before a full state are written after it, so the database ends up with the
    old mempool and the old finalized height. *)
Theorem stale_jobs_overwrite (txs : list Transaction) (h : Z) (s : PersistedChainState) (d : D) :
  never_fails (D:=D) →
  ∃ d', worker_run 27 (worker_ops [Enqueue (PendingTransactionsJob txs);
      Enqueue (FinalizedHeightJob h); HandOver s] d) = (d', worker_spawn) ∧
    holds d' s ∧
    db_table d' PENDING_TABLE = bincode_serialize <$> insert_all ∅ ((λ tx, (tx_hash tx, tx)) <$> txs) ∧
    db_table d' META_TABLE !! FINALIZED_HEIGHT_KEY = Some (bincode_serialize h).
Proof.
  intros Hnf.
  set (d1 := execute (write_full_state_to_storage s) d).
  set (d2 := run_job (PendingTransactionsJob txs) d1).
  set (d3 := run_job (FinalizedHeightJob h) d2). exists d3.
  assert (holds d3 s) as Hh.
  { eapply holds_other; [intros t Ht; by apply (run_job_other (FinalizedHeightJob h))|].
    eapply holds_other; [intros t Ht; by apply (run_job_other (PendingTransactionsJob txs))|].
    by apply write_full_holds. }
  split; [done|]. split; [done|]. unfold d3, d2. simpl. unfold execute.
  destruct (replace_pending_transactions txs d1) as [r2 e2] eqn:E2.
  pose proof (never_fails_Ok _ _ _ _ Hnf E2) as ->. cbn [snd].
  destruct (put_meta FINALIZED_HEIGHT_KEY h e2) as [r3 e3] eqn:E3.
  pose proof (never_fails_Ok _ _ _ _ Hnf E3) as ->.
  apply replace_table_map in E2 as [Hp _]. apply put_meta_Ok in E3 as [Hm Ho]. cbn [snd].
  rewrite Hm, lookup_insert_eq, Ho by done. done.
Qed.
End worker.

(** ** Witnesses *)

Section witness.
Import Demo.
#[local] Existing Instances demo_codec demo_legacy.

(** Two states handed over while a full queue drops the second signal. *)
Definition demo_ops : list WorkerOp :=
  replicate 8 (Enqueue (FinalizedHeightJob 0)) ++
  [HandOver (from_chain demo_root); Work; Work; HandOver (from_chain demo_c1)].

Lemma demo_redb_never_fails : never_fails (D:=DemoDb).
Proof. intros ws d. exact eq_refl. Qed.

Lemma full_state_reaches_database_witness :
  ∃ d', worker_run 27 (worker_ops demo_ops demo_db_empty) = (d', worker_spawn) ∧
    holds d' (from_chain demo_c1).
Proof.
  destruct (full_state_reaches_database demo_ops demo_db_empty demo_redb_never_fails
    ltac:(repeat constructor; discriminate)) as (d'&Hr&Hh).
  exists d'. split; [exact Hr|]. apply Hh. exact eq_refl.
Defined.

Lemma stale_jobs_overwrite_witness :
  ∃ d', worker_run 27 (worker_ops [Enqueue (PendingTransactionsJob []);
      Enqueue (FinalizedHeightJob 0); HandOver (from_chain demo_final)] demo_db_empty) =
      (d', worker_spawn) ∧
    db_table d' META_TABLE !! FINALIZED_HEIGHT_KEY = Some (u64_key 0).
Proof.
  destruct (stale_jobs_overwrite [] 0 (from_chain demo_final) demo_db_empty demo_redb_never_fails)
    as (d'&Hr&_&_&Hm).
  exists d'. split; [exact Hr|exact Hm].
Defined.
End witness.
