(* ===== verification/StateSync.v ===== *)
(** * State sync ([src/core/chain/snapshot.rs], [src/core/checkpoints.rs])

    Snapshots of the chain: built from a replay of the finalized part, encoded,
    cut into chunks with Merkle proofs, checked and applied by another node. *)
From S2P Require Import Prelude Hash Crypto Vm Transaction Token Governance Block Account.
From S2P Require Import Validators Slashing Finality Settlement BlockStore BlockTree Trie StateRoot.
From S2P Require Import Chain Storage Apply Ledger AddBlock Mempool ForkChoice Persistence.

(** The encoding of the snapshot's payload. *)
Class SnapshotCodec := {
  #[global] codec_snapshot :: Bincode SnapshotState;
  #[global] codec_snapshot_de :: BincodeDecode SnapshotState;
}.

(** The iteration order of a hash set: some enumeration. *)
Class SetOrder := {
  set_order : gset bytes → list bytes;
  set_order_ok s : list_to_set (set_order s) =@{gset bytes} s;
}.

(** [slice::chunks]. *)
Fixpoint chunks_loop {A} (fuel : nat) (size : nat) (l : list A) : list (list A) :=
  match fuel, l with
  | O, _ | _, [] => []
  | S fuel, _ => take size l :: chunks_loop fuel size (drop size l)
  end.
Definition chunks_of {A} (size : nat) (l : list A) : list (list A) :=
  chunks_loop (length l) size l.

Definition SNAPSHOT_CHUNK_SIZE : nat := Z.to_nat 262144.

(** [verify_snapshot_against_known], one checkpoint and all of them. *)
Definition snapshot_agrees (manifest : SnapshotManifest) (cp : TrustedCheckpoint)
    : result ChainError () :=
  _ ← (if cp_height cp =? sm_height manifest then
         if bool_decide (sm_latest_hash manifest = cp_hash cp) then
           match cp_state_root cp with
           | Some root =>
               if bool_decide (sm_state_root manifest = root) then Ok ()
               else Err (CheckpointMismatch (cp_height cp) root (sm_state_root manifest))
           | None => Ok ()
           end
         else Err (CheckpointMismatch (cp_height cp) (cp_hash cp) (sm_latest_hash manifest))
       else Ok ());
  if (cp_height cp =? sm_finalized_height manifest) &&
     negb (bool_decide (sm_finalized_hash manifest = cp_hash cp))
  then Err (CheckpointMismatch (cp_height cp) (cp_hash cp) (sm_finalized_hash manifest))
  else Ok ().

Fixpoint snapshot_agrees_all (manifest : SnapshotManifest) (cps : list TrustedCheckpoint)
    : result ChainError () :=
  match cps with
  | [] => Ok ()
  | cp :: cps => _ ← snapshot_agrees manifest cp; snapshot_agrees_all manifest cps
  end.

Definition verify_snapshot_against_known (chain_id : string) (manifest : SnapshotManifest)
    : result ChainError () :=
  snapshot_agrees_all manifest (checkpoints_for chain_id).

Section state_sync.
Context `{Sha3} `{MlDsa} `{EvmEngine} `{WasmEngine} `{HashOrder} `{HexDecode} `{SetOrder}
  `{!Bincode SignableTransaction}
  `{!Bincode BlockHeader} `{!Bincode ProposalKind} `{!BincodeAccountLeaf} `{!BincodeStorageLeaf}
  `{!BincodeContractLeaf} `{!Json DeployTokenParams} `{!Json TokenTransferParams}
  `{!Json TokenApproveParams} `{!Json TokenTransferFromParams} `{!Json SubmitProposalParams}
  `{!Json GovernanceVoteParams}
  {D : Type} `{!Redb D} `{!StorageCodec} `{!LegacyCodec} `{!SnapshotCodec}.

(** ** Creation *)

(** The height a snapshot is taken at. *)
Definition snapshot_height (c : Blockchain) : Z :=
  let fin := finalized_height (finality_tracker c) in
  if 0 <? fin then Z.min fin (chain_height c) else chain_height c.

(** What the payload contains, given the replayed state. *)
Definition snapshot_state (c : Blockchain) (h : Z) (hash : bytes) (s : BlockExecution)
    : SnapshotState :=
  mkSnapshotState (take (Z.to_nat h + 1) (bc_blocks c)) (sorted_entries (accounts s))
    (sorted_entries (contracts s)) (sorted_entries (receipts s)) []
    (set_order (bc_slashed_validators c))
    (merge_sort epoch_le (filter (λ es : Z * EpochSnapshot, es.1 ≤ epoch_for_height (bc_params c) h)
       (map_to_list (epoch_snapshots c))))
    h hash.

(** The chunks of a payload; an empty one still makes a chunk. *)
Definition make_chunks (payload : bytes) : list bytes * list StateChunk :=
  let data := chunks_of SNAPSHOT_CHUNK_SIZE payload in
  let hashes := sha3_hash <$> data in
  let chunks := imap (λ i d, mkChunk i d (sha3_hash d) (merkle_proof hashes i)) data in
  (hashes, match chunks with [] => [mkChunk 0 [] (sha3_hash []) []] | _ => chunks end).

Definition snapshot_manifest (c : Blockchain) (h : Z) (hash : bytes) (s : BlockExecution)
    (hashes : list bytes) (chunk_count : nat) : SnapshotManifest :=
  mkManifest h (epoch_for_height (bc_params c) h) (gc_chain_id (genesis_config (bc_params c)))
    (genesis_hash c) hash (chain_height c) (block_hash (latest_block c)) h hash
    (compute_full (accounts s) (contracts s)) (merkle_root hashes) chunk_count hashes.

(** The part of [create_snapshot] before the storage. *)
Definition build_snapshot (now : Z) (c : Blockchain)
    : result ChainError (SnapshotManifest * list StateChunk) :=
  let h := snapshot_height c in
  b ← ok_or (SnapshotError "snapshot height missing") (block_at_height c h);
  s ← replay_state_to_canonical_height now c h;
  let '(hashes, chunks) := make_chunks (bincode_serialize (snapshot_state c h (block_hash b) s)) in
  Ok (snapshot_manifest c h (block_hash b) s hashes (length chunks), chunks).

Fixpoint put_chunks (h : Z) (count : nat) (chunks : list StateChunk) : stM D StorageError () :=
  match chunks with
  | [] => mret ()
  | ch :: chunks => _ ← put_snapshot_chunk h ch (Some count); put_chunks h count chunks
  end.

(** [create_snapshot]: the messages of the storage's errors are left out. *)
Definition create_snapshot (now : Z) : stM (Node D) ChainError SnapshotManifest :=
  n ← st_get;
  '(manifest, chunks) ← st_lift (build_snapshot now (nd_chain n));
  _ ← on_storage (put_chunks (sm_height manifest) (length chunks) chunks);
  _ ← on_storage (put_snapshot_manifest (sm_height manifest) manifest);
  mret manifest.

Definition node_snapshot_chunks (h : Z) (n : Node D) : result ChainError (list StateChunk) :=
  match nd_storage n with
  | Some d => map_err ChainStorageError (get_snapshot_chunks h d)
  | None => Err (SnapshotError "snapshot chunks unavailable without storage backend")
  end.

(** ** Checks *)

(** The loop over the chunks. *)
Fixpoint check_chunks (manifest : SnapshotManifest) (i : nat) (chunks : list StateChunk)
    : result ChainError () :=
  match chunks with
  | [] => Ok ()
  | ch :: chunks =>
      if negb (bool_decide (ch_index ch = i)) then Err (SnapshotError "unexpected chunk order")
      else
        let computed_hash := sha3_hash (ch_data ch) in
        if negb (bool_decide (sm_chunk_hashes manifest !! i = Some computed_hash))
        then Err (SnapshotError "chunk hash mismatch")
        else if negb (verify_merkle_proof computed_hash (ch_proof ch) i (sm_chunk_root manifest))
        then Err (SnapshotError "chunk proof mismatch")
        else check_chunks manifest (S i) chunks
  end.

Definition decode_snapshot_state (manifest : SnapshotManifest) (chunks : list StateChunk)
    : result ChainError SnapshotState :=
  _ ← (if bool_decide (length chunks = sm_chunk_count manifest) then Ok ()
       else Err (SnapshotError "unexpected number of chunks"));
  _ ← check_chunks manifest 0 chunks;
  s ← ok_or (SnapshotError "decoding") (bincode_deserialize (concat (ch_data <$> chunks)));
  let accounts : accounts_map := list_to_map (reverse (ss_accounts s)) in
  let contracts : contracts_map := list_to_map (reverse (ss_contracts s)) in
  if negb (bool_decide (compute_full accounts contracts = sm_state_root manifest))
  then Err (SnapshotError "state root mismatch")
  else
    match ss_blocks s with
    | [] => Err (SnapshotError "snapshot does not contain canonical blocks")
    | first :: _ =>
        if negb (bool_decide (block_hash first = sm_genesis_hash manifest))
        then Err (SnapshotError "snapshot genesis hash mismatch")
        else if negb (bool_decide (from_option block_hash [] (last (ss_blocks s)) = sm_latest_hash manifest))
        then Err (SnapshotError "snapshot latest hash mismatch")
        else Ok s
    end.

(** A snapshot block that contradicts a protected one. *)
Definition contradicts (c : Blockchain) (protected_height : Z) (b : Block) : bool :=
  let h := height (header b) in
  match block_at_height c h with
  | Some local => negb (bool_decide (block_hash local = block_hash b)) &&
      ((h =? 0) || (h <=? protected_height))
  | None => false
  end.

(** The checks of [apply_snapshot] against the local chain. *)
Definition check_snapshot (c : Blockchain) (manifest : SnapshotManifest) (chunks : list StateChunk)
    : result ChainError SnapshotState :=
  let chain_id := gc_chain_id (genesis_config (bc_params c)) in
  let t := finality_tracker c in
  _ ← (if bool_decide (sm_chain_id manifest = chain_id) then Ok ()
       else Err (SnapshotError "snapshot chain_id mismatch"));
  _ ← verify_snapshot_against_known chain_id manifest;
  _ ← (if (sm_height manifest <=? finalized_height t) && negb (bool_decide (finalized_hash t = [])) &&
          (finalized_height t =? sm_finalized_height manifest) &&
          negb (bool_decide (finalized_hash t = sm_finalized_hash manifest))
       then Err (SnapshotError "snapshot finalized hash conflicts with local finalized checkpoint")
       else Ok ());
  let protected_height := Z.min (finalized_height t) (sm_finalized_height manifest) in
  _ ← (match block_at_height c (sm_height manifest) with
       | Some local =>
           if negb (bool_decide (block_hash local = sm_latest_hash manifest)) &&
              (sm_height manifest <=? protected_height)
           then Err (SnapshotError "snapshot latest hash conflicts with local canonical block")
           else Ok ()
       | None => Ok ()
       end);
  s ← decode_snapshot_state manifest chunks;
  if existsb (contradicts c protected_height) (ss_blocks s)
  then Err (SnapshotError "snapshot block at protected height disagrees with local canonical block")
  else Ok s.

(** ** Application *)

(** [list_to_map] keeps the first entry of a key, [collect] the last. *)
Definition collect_map `{Countable K} {V} (l : list (K * V)) : gmap K V := list_to_map (reverse l).

(** The tree of the snapshot's blocks, weighed by its accounts. *)
Definition snapshot_tree (accounts : accounts_map) (genesis : Block) (blocks : list Block) : BlockTree :=
  foldl (λ t b, match insert_block t b (get_staked_balance accounts
                        (address_bytes_from_public_key (validator_public_key (header b)))) with
                | Ok (_, t) => t
                | Err _ => t
                end) (tree_from_genesis genesis) blocks.

(** The chain after a snapshot; the token registry, the proposals, the
    missed-epoch counters and the lookup indexes of blocks and transactions stay. *)
Definition install_snapshot (manifest : SnapshotManifest) (s : SnapshotState) (c : Blockchain)
    : Blockchain :=
  let c := replace_all_blocks (ss_blocks s) c in
  let accounts := collect_map (ss_accounts s) in
  let st := mkExec accounts (collect_map (ss_contracts s)) (collect_map (ss_receipts s))
              (token_registry (bc_state c)) (governance (bc_state c)) in
  let tree := snapshot_tree accounts (default default_block (head (bc_blocks c))) (tail (bc_blocks c)) in
  mkChain (bc_params c) st (ss_pending_transactions s)
    (set_finalized tree (sm_finalized_hash manifest) (sm_finalized_height manifest))
    (with_finalized (sm_finalized_height manifest) (sm_finalized_hash manifest))
    (list_to_set (ss_slashed_validators s)) (collect_map (ss_epoch_snapshots s))
    (validator_missed_epochs c) (bc_blocks c) (block_hash_to_height c) (tx_hash_index c)
    (evm_tx_hash_index c).

Definition apply_snapshot (manifest : SnapshotManifest) (chunks : list StateChunk)
    : stM (Node D) ChainError () :=
  n ← st_get;
  s ← st_lift (check_snapshot (nd_chain n) manifest chunks);
  _ ← st_modify (set_chain (install_snapshot manifest s (nd_chain n)));
  persist_full_state.
End state_sync.
