(* ===== verification/StateSyncSafety.v ===== *)
(** * What a snapshot transfers, and what it does not protect

    Theorems about [StateSync]: a snapshot read back is the one that was made, its
    chunks cannot be exchanged, blocks below both finalized heights stay; and a
    manifest of one's own making is accepted with any accounts and any history. *)
From S2P Require Import Prelude Hash Crypto Vm Transaction Token Governance Block Account.
From S2P Require Import Validators Slashing Finality Settlement BlockStore BlockTree Trie StateRoot.
From S2P Require Import Chain Storage Apply Ledger AddBlock ChainSafety Mempool ForkChoice.
From S2P Require Import ForkChoiceSafety Persistence PersistenceSafety StateSync.

(** ** Lemmas *)

Lemma chunk_size_pos : (0 < SNAPSHOT_CHUNK_SIZE)%nat.
Proof. unfold SNAPSHOT_CHUNK_SIZE. lia. Qed.

Lemma concat_chunks_loop {A} size fuel (l : list A) :
  (0 < size)%nat → (length l ≤ fuel)%nat → concat (chunks_loop fuel size l) = l.
Proof.
  intros Hs. revert l. induction fuel as [|fuel IH]; intros l Hl.
  { by destruct l; [|simpl in Hl; lia]. }
  destruct l as [|a l]; [done|]. cbn [chunks_loop concat].
  rewrite IH; [by rewrite take_drop|]. rewrite length_drop. simpl in *. lia.
Qed.

Lemma concat_chunks_of {A} size (l : list A) : (0 < size)%nat → concat (chunks_of size l) = l.
Proof. intros Hs. by apply concat_chunks_loop. Qed.

Lemma chunks_of_nonempty {A} size (l : list A) : l ≠ [] → chunks_of size l ≠ [].
Proof. unfold chunks_of. by destruct l. Qed.

Lemma collect_map_sorted {V} (m : gmap bytes V) : collect_map (sorted_entries m) = m.
Proof.
  unfold collect_map. rewrite <- (list_to_map_sorted_entries m) at 2.
  apply list_to_map_proper; [|by rewrite reverse_Permutation].
  rewrite reverse_Permutation. apply NoDup_sorted_entries.
Qed.

Lemma last_Some_elem_of {A} (l : list A) x : last l = Some x → x ∈ l.
Proof. intros (l'&->)%last_Some. apply elem_of_app. right. by left. Qed.

Lemma two_numbered b0 b1 :
  height (header b0) = 0 → height (header b1) = 1 →
  ∀ i b, [b0; b1] !! i = Some b → height (header b) = Z.of_nat i.
Proof. intros H0 H1 [|[|i]] b Hi; simpl in Hi; by simplify_eq. Qed.

Section snapshots.
Context `{Sha3} `{MlDsa} `{EvmEngine} `{WasmEngine} `{HashOrder} `{HexDecode} `{SetOrder}
  `{!Bincode SignableTransaction}
  `{!Bincode BlockHeader} `{!Bincode ProposalKind} `{!BincodeAccountLeaf} `{!BincodeStorageLeaf}
  `{!BincodeContractLeaf} `{!Json DeployTokenParams} `{!Json TokenTransferParams}
  `{!Json TokenApproveParams} `{!Json TokenTransferFromParams} `{!Json SubmitProposalParams}
  `{!Json GovernanceVoteParams}
  {D : Type} `{!Redb D} `{!StorageCodec} `{!LegacyCodec} `{!SnapshotCodec}.

(** The loop over the chunks accepts exactly the lists whose chunks are in order,
    hash to the manifest's hashes and prove against its root. *)
Lemma check_chunks_spec manifest i chunks :
  check_chunks manifest i chunks = Ok () ↔
  ∀ k ch, chunks !! k = Some ch → ch_index ch = (i + k)%nat ∧
    sm_chunk_hashes manifest !! (i + k)%nat = Some (sha3_hash (ch_data ch)) ∧
    verify_merkle_proof (sha3_hash (ch_data ch)) (ch_proof ch) (i + k) (sm_chunk_root manifest) = true.
Proof.
  revert i. induction chunks as [|c chunks IH]; intros i; [done|]. cbn [check_chunks]. split.
  - intros Hc. case_bool_decide as Hi; [|done]. case_bool_decide as Hh; [|done].
    cbn [negb] in Hc. destruct (verify_merkle_proof _ _ _ _) eqn:Hv; [|done]. cbn [negb] in Hc.
    intros [|k] ch Hk; simpl in Hk.
    + injection Hk as <-. by rewrite Nat.add_0_r.
    + rewrite Nat.add_succ_r. exact (proj1 (IH (S i)) Hc k ch Hk).
  - intros Hc. destruct (Hc 0%nat c eq_refl) as (Hi&Hh&Hv). rewrite Nat.add_0_r in Hi, Hh, Hv.
    rewrite Hi, Hh, Hv, !bool_decide_eq_true_2 by done. cbn [negb]. apply IH. intros k ch Hk.
    specialize (Hc (S k) ch Hk). by rewrite Nat.add_succ_r in Hc.
Qed.

(** The chunks of a payload pass under a manifest with their hashes and root. *)
Lemma make_chunks_check manifest payload hashes chunks :
  payload ≠ [] → make_chunks payload = (hashes, chunks) →
  sm_chunk_hashes manifest = hashes → sm_chunk_root manifest = merkle_root hashes →
  check_chunks manifest 0 chunks = Ok () ∧ concat (ch_data <$> chunks) = payload ∧
  hashes = sha3_hash <$> (ch_data <$> chunks).
Proof.
  intros Hne Hm Eh Er. unfold make_chunks in Hm. pose proof (chunks_of_nonempty SNAPSHOT_CHUNK_SIZE _ Hne) as Hne2.
  pose proof (concat_chunks_of SNAPSHOT_CHUNK_SIZE payload chunk_size_pos) as Hcat.
  set (data := chunks_of SNAPSHOT_CHUNK_SIZE payload) in *. clearbody data.
  injection Hm as Ehs Ec. rewrite <- Ehs in *.
  assert (chunks = imap (λ i d, mkChunk i d (sha3_hash d) (merkle_proof (sha3_hash <$> data) i)) data) as ->.
  { rewrite <- Ec. by destruct data. }
  assert (ch_data <$> imap (λ i d, mkChunk i d (sha3_hash d) (merkle_proof (sha3_hash <$> data) i)) data
    = data) as Ed.
  { apply list_eq. intros i. rewrite list_lookup_fmap, list_lookup_imap. by destruct (data !! i). }
  rewrite Ed. split_and!; [|done..]. apply check_chunks_spec. intros k ch Hk. rewrite list_lookup_imap in Hk.
  apply fmap_Some in Hk as (d&Hd&->). cbn [ch_index ch_data ch_proof]. rewrite Nat.add_0_l.
  assert ((sha3_hash <$> data) !! k = Some (sha3_hash d)) as Hk by (by rewrite list_lookup_fmap, Hd).
  rewrite Eh, Er. split_and!; [done..|]. by apply merkle_verify_complete.
Qed.

(** A state packed under a manifest of its own decodes. *)
Lemma decode_packed manifest s hashes chunks :
  bincode_ok s → bincode_serialize s ≠ [] → make_chunks (bincode_serialize s) = (hashes, chunks) →
  sm_chunk_hashes manifest = hashes → sm_chunk_root manifest = merkle_root hashes →
  sm_chunk_count manifest = length chunks →
  compute_full (collect_map (ss_accounts s)) (collect_map (ss_contracts s)) = sm_state_root manifest →
  block_hash <$> head (ss_blocks s) = Some (sm_genesis_hash manifest) →
  block_hash <$> last (ss_blocks s) = Some (sm_latest_hash manifest) →
  decode_snapshot_state manifest chunks = Ok s.
Proof.
  intros Hok Hne Hm Eh Er Ec Eroot Eg El. unfold decode_snapshot_state.
  destruct (make_chunks_check manifest _ _ _ Hne Hm Eh Er) as (Hc&Hcat&_).
  rewrite bool_decide_eq_true_2 by done. cbn [mbind result_bind]. rewrite Hc, Hcat.
  unfold bincode_ok in Hok. rewrite Hok. cbn [ok_or mbind result_bind].
  unfold collect_map in Eroot. rewrite Eroot, bool_decide_eq_true_2 by done. cbn [negb].
  destruct (ss_blocks s) as [|b0 l] eqn:Eb; [done|]. cbn [head fmap option_fmap option_map] in Eg.
  injection Eg as Eg. rewrite Eg, bool_decide_eq_true_2 by done. cbn [negb].
  destruct (last (b0 :: l)) as [bl|] eqn:Ebl; [|done]. injection El as El. cbn [from_option].
  by rewrite El, bool_decide_eq_true_2.
Qed.

Lemma no_checkpoints chain_id manifest : verify_snapshot_against_known chain_id manifest = Ok ().
Proof.
  unfold verify_snapshot_against_known, checkpoints_for, CURS3D_PUBLIC_TESTNET. by case_bool_decide.
Qed.

Lemma existsb_false {A} (f : A → bool) l : (∀ x, x ∈ l → f x = false) → existsb f l = false.
Proof.
  intros Hf. apply not_true_iff_false. intros (x&Hx&E)%existsb_exists.
  rewrite Hf in E; [done|]. by apply list_elem_of_In.
Qed.

(** A snapshot, opened. *)
Lemma build_snapshot_Ok now c manifest chunks :
  build_snapshot now c = Ok (manifest, chunks) →
  ∃ b s hashes, block_at_height c (snapshot_height c) = Some b ∧
    replay_state_to_canonical_height now c (snapshot_height c) = Ok s ∧
    make_chunks (bincode_serialize (snapshot_state c (snapshot_height c) (block_hash b) s)) = (hashes, chunks) ∧
    manifest = snapshot_manifest c (snapshot_height c) (block_hash b) s hashes (length chunks).
Proof.
  unfold build_snapshot. intros Hb. apply result_bind_Ok in Hb as (b&Hbl&Hb).
  apply result_bind_Ok in Hb as (s&Hs&Hb). apply ok_or_Ok in Hbl.
  destruct (make_chunks _) as [hashes ch] eqn:Hm. injection Hb as <- <-. by exists b, s, hashes.
Qed.
(** ** Properties *)

(** C31: a snapshot round trip. The chunks a node makes, checked against the manifest
    it makes, give back what it packed: the first blocks of its chain, the
    replayed accounts, contracts and receipts, its slashed validators, the epoch
    snapshots up to the snapshot's epoch. *)
Theorem snapshot_round_trip (now : Z) (c : Blockchain) (manifest : SnapshotManifest)
    (chunks : list StateChunk) :
  build_snapshot now c = Ok (manifest, chunks) →
  (∀ b s, block_at_height c (snapshot_height c) = Some b →
     replay_state_to_canonical_height now c (snapshot_height c) = Ok s →
     bincode_ok (snapshot_state c (snapshot_height c) (block_hash b) s) ∧
     bincode_serialize (snapshot_state c (snapshot_height c) (block_hash b) s) ≠ []) →
  ∃ s ss, replay_state_to_canonical_height now c (snapshot_height c) = Ok s ∧
    decode_snapshot_state manifest chunks = Ok ss ∧
    ss_blocks ss = take (Z.to_nat (snapshot_height c) + 1) (bc_blocks c) ∧
    collect_map (ss_accounts ss) = accounts s ∧ collect_map (ss_contracts ss) = contracts s ∧
    collect_map (ss_receipts ss) = receipts s ∧
    list_to_set (ss_slashed_validators ss) = bc_slashed_validators c ∧
    (∀ e x, (e, x) ∈ ss_epoch_snapshots ss ↔
       epoch_snapshots c !! e = Some x ∧ e ≤ epoch_for_height (bc_params c) (snapshot_height c)).
Proof.
  intros Hb Hcodec. destruct (build_snapshot_Ok _ _ _ _ Hb) as (b&s&hashes&Hbl&Hs&Hm&->).
  destruct (Hcodec b s Hbl Hs) as [Hok Hne]. set (h := snapshot_height c) in *.
  exists s, (snapshot_state c h (block_hash b) s). split; [done|].
  unfold block_at_height in Hbl. case_match; [done|].
  assert (take (Z.to_nat h + 1) (bc_blocks c) = take (Z.to_nat h) (bc_blocks c) ++ [b]) as Ht.
  { rewrite Nat.add_1_r. by apply take_S_r. }
  split.
  { eapply decode_packed; [done..| | |].
    - simpl. by rewrite !collect_map_sorted.
    - simpl. unfold genesis_hash. rewrite Nat.add_1_r. by destruct (bc_blocks c).
    - simpl. rewrite Ht, last_snoc. done. }
  simpl. rewrite !collect_map_sorted, set_order_ok. split_and!; [done..|].
  intros e x. rewrite merge_sort_Permutation, list_elem_of_filter, elem_of_map_to_list. naive_solver.
Qed.

(** C12: chunks cannot be exchanged. Under the manifest of a snapshot a node made, any
    chunks that another one accepts decode to what that node packed, unless two of
    the chunks' data collide under SHA-3. *)
Theorem accepted_chunks_authentic (now : Z) (c : Blockchain) (manifest : SnapshotManifest)
    (chunks received : list StateChunk) (ss : SnapshotState) :
  build_snapshot now c = Ok (manifest, chunks) →
  (∀ x, bincode_serialize (x : SnapshotState) ≠ []) →
  no_collision (ch_data <$> chunks) (ch_data <$> received) →
  decode_snapshot_state manifest received = Ok ss →
  ch_data <$> received = ch_data <$> chunks ∧ decode_snapshot_state manifest chunks = Ok ss.
Proof.
  intros Hb Hne Hnc Hd. destruct (build_snapshot_Ok _ _ _ _ Hb) as (b&s&hashes&_&_&Hm&Eman).
  destruct (make_chunks_check manifest _ _ _ (Hne _) Hm) as (Hc&_&Eh); [by rewrite Eman..|].
  unfold decode_snapshot_state in Hd. case_bool_decide as Hlen; [|done].
  cbn [mbind result_bind] in Hd. apply result_bind_Ok in Hd as ([]&Hc'&Hd).
  assert (ch_data <$> received = ch_data <$> chunks) as E.
  { pose proof (proj1 (check_chunks_spec _ _ _) Hc') as Hr.
    assert (length received = length chunks) as El by (by rewrite Hlen, Eman).
    apply list_eq. intros i. rewrite !list_lookup_fmap.
    destruct (received !! i) as [r|] eqn:Er.
    - destruct (chunks !! i) as [h|] eqn:Ei.
      2: { apply lookup_lt_Some in Er. apply lookup_ge_None in Ei. lia. }
      destruct (Hr i r Er) as (_&Hh&_). simpl. f_equal. rewrite Eman in Hh. simpl in Hh.
      rewrite Eh, !list_lookup_fmap, Ei in Hh. injection Hh as Hh. symmetry in Hh. symmetry.
      apply (no_collision_elem _ _ (ch_data h) (ch_data r) Hnc); [..|exact (eq_sym Hh)];
        apply list_elem_of_fmap_2; by eapply list_elem_of_lookup_2.
    - destruct (chunks !! i) as [h|] eqn:Ei; [|done].
      apply lookup_lt_Some in Ei. apply lookup_ge_None in Er. lia. }
  split; [done|]. unfold decode_snapshot_state.
  assert (length chunks = sm_chunk_count manifest) as Hl by (by rewrite Eman).
  rewrite bool_decide_eq_true_2 by done. cbn [mbind result_bind]. rewrite Hc, <- E. exact Hd.
Qed.

(** What a snapshot cannot rewrite. In an accepted snapshot, every block at a
    height below both the node's finalized height and the manifest's, and the
    genesis block, is the block the node has at that height. *)
Theorem accepted_snapshot_protects (c : Blockchain) (manifest : SnapshotManifest)
    (chunks : list StateChunk) (ss : SnapshotState) (b local : Block) :
  check_snapshot c manifest chunks = Ok ss → b ∈ ss_blocks ss →
  block_at_height c (height (header b)) = Some local →
  height (header b) = 0 ∨
    height (header b) ≤ finalized_height (finality_tracker c) ∧
    height (header b) ≤ sm_finalized_height manifest →
  block_hash local = block_hash b.
Proof.
  intros Hc Hb Hl Hp. unfold check_snapshot in Hc. cbv zeta in Hc.
  apply result_bind_Ok in Hc as (?&_&Hc). apply result_bind_Ok in Hc as (?&_&Hc).
  apply result_bind_Ok in Hc as (?&_&Hc). apply result_bind_Ok in Hc as (?&_&Hc).
  apply result_bind_Ok in Hc as (s&_&Hc).
  destruct (existsb _ _) eqn:He; [done|]. injection Hc as ->.
  destruct (decide (block_hash local = block_hash b)) as [|Hne]; [done|]. exfalso.
  assert (contradicts c (Z.min (finalized_height (finality_tracker c)) (sm_finalized_height manifest)) b = true) as Ht.
  { unfold contradicts. rewrite Hl, bool_decide_eq_false_2 by done. cbn [negb andb].
    apply orb_true_iff. destruct Hp as [->|?]; [by left|right; apply Z.leb_le; lia]. }
  rewrite <- not_true_iff_false, existsb_exists in He. apply He. exists b. split; [|done].
  by apply list_elem_of_In.
Qed.

(** ** A snapshot of one's own making *)

(** Any blocks and any accounts, under a manifest that claims nothing final. *)
Definition forged_state (blocks : list Block) (m : accounts_map) : SnapshotState :=
  mkSnapshotState blocks (sorted_entries m) [] [] [] [] [] 0 [].

Definition forged_snapshot (c : Blockchain) (blocks : list Block) (m : accounts_map)
    : SnapshotManifest * list StateChunk :=
  let '(hashes, chunks) := make_chunks (bincode_serialize (forged_state blocks m)) in
  let tip := default default_block (last blocks) in
  (mkManifest (height (header tip)) 0 (gc_chain_id (genesis_config (bc_params c))) (genesis_hash c)
     (block_hash tip) (height (header tip)) (block_hash tip) 0 [] (compute_full m ∅)
     (merkle_root hashes) (length chunks) hashes, chunks).

(** A snapshot is trusted for its content. A node with finalized blocks accepts
    any numbered list of blocks that starts with its genesis block, whatever their
    signatures, parents and state roots, with any accounts: the manifest's state
    root is compared with the accounts it came with, not with the last block. The
    manifest says that nothing is final, so no block but genesis is protected. *)
Theorem forged_snapshot_accepted (c : Blockchain) (blocks : list Block) (m : accounts_map) :
  0 < finalized_height (finality_tracker c) → head blocks = head (bc_blocks c) →
  head blocks ≠ None → (1 < length blocks)%nat →
  (∀ i b, blocks !! i = Some b → height (header b) = Z.of_nat i) →
  bincode_ok (forged_state blocks m) → bincode_serialize (forged_state blocks m) ≠ [] →
  let '(manifest, chunks) := forged_snapshot c blocks m in
  ∃ ss, check_snapshot c manifest chunks = Ok ss ∧
    let c' := install_snapshot manifest ss c in
    bc_blocks c' = blocks ∧ accounts (bc_state c') = m ∧
    finalized_height (finality_tracker c') = 0.
Proof.
  intros Hfin Hhd Hne Hlen Hnum Hok Hser. unfold forged_snapshot.
  destruct (make_chunks _) as [hashes chunks] eqn:Hm.
  destruct (last blocks) as [tip|] eqn:Etip.
  2: { apply last_None in Etip. subst blocks. simpl in Hlen. lia. }
  cbn [default from_option id]. set (manifest := mkManifest _ _ _ _ _ _ _ _ _ _ _ _ _).
  assert (height (header tip) = Z.of_nat (length blocks) - 1) as Htip.
  { rewrite last_lookup in Etip. rewrite (Hnum _ _ Etip). lia. }
  exists (forged_state blocks m). split.
  - unfold check_snapshot. cbv zeta. rewrite (bool_decide_eq_true_2 (sm_chain_id manifest = gc_chain_id (genesis_config (bc_params c)))) by done. cbn [mbind result_bind].
    rewrite no_checkpoints. cbn [mbind result_bind].
    change (sm_finalized_height manifest) with 0. rewrite (proj2 (Z.eqb_neq _ 0)) by lia.
    rewrite andb_false_r, andb_false_l. cbn [mbind result_bind].
    change (sm_height manifest) with (height (header tip)).
    replace (height (header tip) <=? Z.min (finalized_height (finality_tracker c)) 0) with false
      by (symmetry; apply Z.leb_gt; lia).
    assert (match block_at_height c (height (header tip)) with
            | Some local => if negb (bool_decide (block_hash local = sm_latest_hash manifest)) && false
                then Err (SnapshotError "snapshot latest hash conflicts with local canonical block")
                else Ok ()
            | None => Ok () end = Ok ()) as -> by (case_match; [by rewrite andb_false_r|done]).
    cbn [mbind result_bind].
    rewrite (decode_packed manifest (forged_state blocks m) hashes chunks); try done.
    + cbn [mbind result_bind]. rewrite existsb_false; [done|]. intros b Hb.
      apply list_elem_of_lookup in Hb as [i Hi]. simpl in Hi. unfold contradicts.
      rewrite (Hnum _ _ Hi). destruct (block_at_height c (Z.of_nat i)) as [local|] eqn:Hl; [|done].
      destruct i as [|i].
      * unfold block_at_height in Hl. simpl in Hl. rewrite <- head_lookup in Hl, Hi.
        rewrite Hhd, Hl in Hi. injection Hi as ->. by rewrite bool_decide_eq_true_2.
      * rewrite (proj2 (Z.eqb_neq _ _)), (proj2 (Z.leb_gt _ _)) by lia. by rewrite andb_false_r.
    + simpl. by rewrite collect_map_sorted.
    + simpl. rewrite Hhd. unfold genesis_hash. rewrite Hhd in Hne. by destruct (head (bc_blocks c)).
    + simpl. by rewrite Etip.
  - destruct (replace_all_blocks_numbered blocks c Hnum) as (_&Eb&_&_).
    unfold install_snapshot. cbn [bc_blocks bc_state accounts forged_state ss_blocks ss_accounts finality_tracker].
    split_and!; [done|by rewrite collect_map_sorted|done].
Qed.
End snapshots.

(** ** Witnesses: a node that finalized its first block *)

Section witnesses.
Import Demo.

Program Definition demo_set_order : SetOrder := {| set_order s := elements s |}.
Next Obligation. intros s. simpl. apply list_to_set_elements_L. Qed.
#[local] Existing Instance demo_set_order.

Definition demo_tip : Block := default default_block (block_at_height demo_final 1).
Definition demo_replayed : BlockExecution :=
  unwrap_or (mkExec ∅ ∅ ∅ registry_new governance_new)
    (replay_state_to_canonical_height (t0 + 10) demo_final (snapshot_height demo_final)).
Definition demo_ss : SnapshotState :=
  snapshot_state demo_final (snapshot_height demo_final) (block_hash demo_tip) demo_replayed.

(** Another block 1, and an account with a lot of money. *)
Definition demo_first : Block := default default_block (head (bc_blocks demo_final)).
Definition demo_other_1 : Block := mkBlock (mkHeader 1 1 0 [] [] [] 0 0 [] 0) [] [x05] None.
Definition demo_history : list Block := [demo_first; demo_other_1].
Definition demo_riches : accounts_map := {[ demo_address 9 := demo_account 1000000000 0 ]}.

Definition demo_snapshot_codec : SnapshotCodec := {|
  codec_snapshot s := [if ss_finalized_height s =? 0 then x00 else x01];
  codec_snapshot_de v := Some (if bool_decide (v = [x00]) then forged_state demo_history demo_riches
                               else demo_ss);
|}.
#[local] Existing Instance demo_snapshot_codec.

Definition demo_build : result ChainError (SnapshotManifest * list StateChunk) :=
  build_snapshot (t0 + 10) demo_final.
Definition demo_packed : SnapshotManifest * list StateChunk :=
  unwrap_or (mkManifest 0 0 "" [] [] 0 [] 0 [] [] [] 0 [], []) demo_build.

Lemma demo_packed_ok :
  is_ok demo_build && is_ok (check_snapshot demo_final demo_packed.1 demo_packed.2) &&
  (snapshot_height demo_final =? 1) &&
  is_ok (replay_state_to_canonical_height (t0 + 10) demo_final (snapshot_height demo_final)) &&
  bool_decide (ch_data <$> demo_packed.2 = [[x01]]) &&
  is_ok (decode_snapshot_state demo_packed.1 demo_packed.2) &&
  is_some (block_at_height demo_final 1) && (ss_finalized_height demo_ss =? 1) = true.
Proof. vm_compute. exact eq_refl. Qed.

Lemma demo_packed_run : build_snapshot (t0 + 10) demo_final = Ok (demo_packed.1, demo_packed.2).
Proof.
  destruct (andb8 _ _ _ _ _ _ _ _ demo_packed_ok) as (Hb&_). rewrite <- surjective_pairing.
  exact (is_ok_unwrap demo_build (mkManifest 0 0 "" [] [] 0 [] 0 [] [] [] 0 [], []) Hb).
Qed.

Lemma demo_ss_codec b s :
  block_at_height demo_final (snapshot_height demo_final) = Some b →
  replay_state_to_canonical_height (t0 + 10) demo_final (snapshot_height demo_final) = Ok s →
  bincode_ok (snapshot_state demo_final (snapshot_height demo_final) (block_hash b) s) ∧
  bincode_serialize (snapshot_state demo_final (snapshot_height demo_final) (block_hash b) s) ≠ [].
Proof.
  destruct (andb8 _ _ _ _ _ _ _ _ demo_packed_ok) as (_&_&Hh&_). apply Z.eqb_eq in Hh.
  intros Eb Es. split; [|discriminate].
  assert (snapshot_state demo_final (snapshot_height demo_final) (block_hash b) s = demo_ss) as ->.
  { unfold demo_ss, demo_replayed, demo_tip. rewrite Es. rewrite Hh in Eb. rewrite Eb. exact eq_refl. }
  unfold bincode_ok, bincode_serialize, bincode_deserialize, codec_snapshot, codec_snapshot_de, demo_snapshot_codec.
  destruct (andb8 _ _ _ _ _ _ _ _ demo_packed_ok) as (_&_&_&_&_&_&_&Hf). apply Z.eqb_eq in Hf.
  rewrite Hf. exact eq_refl.
Qed.

Lemma snapshot_round_trip_witness :
  ∃ ss, decode_snapshot_state demo_packed.1 demo_packed.2 = Ok ss ∧
    ss_blocks ss = take (Z.to_nat (snapshot_height demo_final) + 1) (bc_blocks demo_final).
Proof.
  destruct (snapshot_round_trip (t0 + 10) demo_final demo_packed.1 demo_packed.2 demo_packed_run
    demo_ss_codec) as (s&ss&_&Hd&Hb&_).
  exists ss. exact (conj Hd Hb).
Defined.

Lemma accepted_chunks_authentic_witness :
  ∃ ss, decode_snapshot_state demo_packed.1 demo_packed.2 = Ok ss.
Proof.
  destruct (andb8 _ _ _ _ _ _ _ _ demo_packed_ok) as (_&_&_&_&Hdata&Hd&_).
  apply bool_decide_eq_true in Hdata.
  pose proof (is_ok_unwrap (decode_snapshot_state demo_packed.1 demo_packed.2) demo_ss Hd) as Hdec.
  eexists.
  refine (proj2 (accepted_chunks_authentic (t0 + 10) demo_final demo_packed.1 demo_packed.2
    demo_packed.2 _ demo_packed_run _ _ Hdec)); [intros x; discriminate|].
  rewrite Hdata. repeat constructor.
Defined.

Definition demo_accepted : SnapshotState :=
  unwrap_or demo_ss (check_snapshot demo_final demo_packed.1 demo_packed.2).
Definition demo_last : Block := default default_block (last (ss_blocks demo_accepted)).
Definition demo_local : Block :=
  default default_block (block_at_height demo_final (height (header demo_last))).

Lemma demo_accepted_ok :
  is_some (last (ss_blocks demo_accepted)) &&
  is_some (block_at_height demo_final (height (header demo_last))) &&
  (height (header demo_last) <=? finalized_height (finality_tracker demo_final)) &&
  (height (header demo_last) <=? sm_finalized_height demo_packed.1) &&
  (height (header demo_last) =? 1) && is_some (head (bc_blocks demo_final)) &&
  (height (header (default default_block (head (bc_blocks demo_final)))) =? 0) && true = true.
Proof. vm_compute. exact eq_refl. Qed.

Lemma accepted_snapshot_protects_witness : block_hash demo_local = block_hash demo_last.
Proof.
  destruct (andb8 _ _ _ _ _ _ _ _ demo_packed_ok) as (_&Hc&_).
  destruct (andb8 _ _ _ _ _ _ _ _ demo_accepted_ok) as (Hl&Hb&Hf&Hm&_).
  apply (accepted_snapshot_protects demo_final demo_packed.1 demo_packed.2 demo_accepted demo_last demo_local).
  - exact (is_ok_unwrap (check_snapshot demo_final demo_packed.1 demo_packed.2) demo_ss Hc).
  - apply last_Some_elem_of. exact (is_some_default (last (ss_blocks demo_accepted)) default_block Hl).
  - exact (is_some_default (block_at_height demo_final (height (header demo_last))) default_block Hb).
  - right. exact (conj (proj1 (Z.leb_le _ _) Hf) (proj1 (Z.leb_le _ _) Hm)).
Defined.

Lemma forged_snapshot_accepted_witness :
  let '(manifest, chunks) := forged_snapshot demo_final demo_history demo_riches in
  ∃ ss, check_snapshot demo_final manifest chunks = Ok ss ∧
    accounts (bc_state (install_snapshot manifest ss demo_final)) = demo_riches ∧
    finalized_height (finality_tracker demo_final) = 1.
Proof.
  pose proof (forged_snapshot_accepted demo_final demo_history demo_riches) as Hf.
  destruct (forged_snapshot _ _ _) as [manifest chunks].
  destruct Hf as (ss&Hc&_&Ha&_).
  - rewrite demo_finalized. reflexivity.
  - destruct (andb8 _ _ _ _ _ _ _ _ demo_accepted_ok) as (_&_&_&_&_&Hh&_).
    exact (eq_sym (is_some_default (head (bc_blocks demo_final)) default_block Hh)).
  - discriminate.
  - simpl. lia.
  - destruct (andb8 _ _ _ _ _ _ _ _ demo_accepted_ok) as (_&_&_&_&_&_&Hz&_).
    exact (two_numbered demo_first demo_other_1 (proj1 (Z.eqb_eq _ _) Hz) eq_refl).
  - exact eq_refl.
  - discriminate.
  - exists ss. split; [exact Hc|]. split; [exact Ha|exact demo_finalized].
Defined.
End witnesses.
