(* ===== verification/Light.v ===== *)
(** * The light client ([src/light/mod.rs])

    Header synchronisation and the verification of state proofs against a header's
    state root; that it follows an honest node, and that it follows anyone. *)
From S2P Require Import Prelude Hash Crypto Vm Transaction Token Governance Block Account.
From S2P Require Import Validators Slashing Finality Settlement BlockStore BlockTree Trie StateRoot.
From S2P Require Import Chain Apply Ledger AddBlock ChainSafety ForkChoice ForkChoiceSafety.

Record SignedHeader := mkSignedHeader {
  sh_chain_id : string;
  sh_header : BlockHeader;
  sh_block_hash : bytes;
  sh_signature : option Signature;
}.

Record LightClient := mkLightClient {
  lc_chain_id : string;
  lc_genesis_hash : bytes;
  lc_headers : list SignedHeader;
  lc_finalized_height : Z;
}.

Inductive LightClientError :=
  | LightInvalidHash
  | LightInvalidChainId
  | LightInvalidPrevHash
  | LightInvalidHeight
  | LightInvalidSignature
  | LightMissingParent
  | LightInvalidProof
  | LightEmptyHeaders.

Section light.
Context `{Sha3} `{MlDsa} `{!Bincode BlockHeader} `{!BincodeAccountLeaf} `{!BincodeStorageLeaf}
  `{!BincodeContractLeaf}.

Definition light_new (chain_id : string) (genesis_hash : bytes) : LightClient :=
  mkLightClient chain_id genesis_hash [] 0.

Definition light_height (lc : LightClient) : Z :=
  from_option (λ sh, height (sh_header sh)) 0 (last (lc_headers lc)).

Definition push_header (sh : SignedHeader) (lc : LightClient) : LightClient :=
  mkLightClient (lc_chain_id lc) (lc_genesis_hash lc) (lc_headers lc ++ [sh]) (lc_finalized_height lc).

(** [LightClient::verify_block_signature]. *)
Definition verify_block_signature (hd : BlockHeader) (hash : bytes) (sig : Signature) : bool :=
  dilithium_verify (signable_block_hash hash) sig (validator_public_key hd).

Definition verify_header (lc : LightClient) (sh : SignedHeader) : result LightClientError () :=
  let hd := sh_header sh in
  let expected_height :=
    from_option (λ prev, add64 (height (sh_header prev)) 1) 0 (last (lc_headers lc)) in
  if negb (bool_decide (sh_chain_id sh = lc_chain_id lc)) then Err LightInvalidChainId
  else if negb (height hd =? expected_height) then Err LightInvalidHeight
  else if negb (bool_decide (compute_hash hd = sh_block_hash sh)) then Err LightInvalidHash
  else if height hd =? 0 then
    if negb (bool_decide (sh_block_hash sh = lc_genesis_hash lc)) ||
       negb (bool_decide (sh_signature sh = None))
    then Err LightInvalidHash else Ok ()
  else
    prev ← ok_or LightMissingParent (last (lc_headers lc));
    if negb (bool_decide (prev_hash hd = sh_block_hash prev)) then Err LightInvalidPrevHash
    else
      sig ← ok_or LightInvalidSignature (sh_signature sh);
      if negb (verify_block_signature hd (sh_block_hash sh) sig) then Err LightInvalidSignature
      else Ok ().

(** The loop keeps the headers accepted before a bad one. *)
Fixpoint sync_loop (headers : list SignedHeader) : stM LightClient LightClientError () :=
  match headers with
  | [] => mret ()
  | sh :: headers =>
      lc ← st_get;
      _ ← st_lift (verify_header lc sh);
      _ ← st_modify (push_header sh);
      sync_loop headers
  end.

Definition sync_headers (headers : list SignedHeader) : stM LightClient LightClientError Z :=
  _ ← st_guard (negb (bool_decide (headers = []))) LightEmptyHeaders;
  _ ← sync_loop headers;
  lc ← st_get;
  mret (light_height lc).

Definition state_root_at (lc : LightClient) (h : Z) : option bytes :=
  (λ sh, state_root (sh_header sh)) <$> lc_headers lc !! Z.to_nat h.

(** [LightClient::verify_account_proof] and [verify_storage_proof]. *)
Definition light_verify_account_proof (p : AccountProof) : bool :=
  let expected_leaf := sha3_hash (bincode_serialize (ap_address p, ap_state p)) in
  bool_decide (expected_leaf = ap_leaf_hash p) &&
  verify_merkle_proof (ap_leaf_hash p) (ap_proof p) (ap_leaf_index p) (ap_state_root p).

Definition light_verify_storage_proof (p : StorageProof) : bool :=
  let storage_leaf := sha3_hash (bincode_serialize (sp_key p, sp_value p)) in
  if negb (bool_decide (storage_leaf = sp_storage_leaf_hash p)) then false
  else
    let storage_valid := verify_merkle_proof (sp_storage_leaf_hash p) (sp_storage_proof p)
      (sp_storage_leaf_index p) (sp_storage_root p) in
    let contract_valid := verify_merkle_proof (sp_contract_leaf_hash p) (sp_contract_proof p)
      (sp_contract_leaf_index p) (sp_state_root p) in
    let contract_leaf := sha3_hash (bincode_serialize
      (sp_contract_address p, sp_contract_code_hash p, sp_contract_owner p, sp_storage_root p)) in
    storage_valid && bool_decide (contract_leaf = sp_contract_leaf_hash p) && contract_valid.

(** ** Lemmas *)

(** What the client checked of the headers it holds. *)
Definition light_wf (lc : LightClient) : Prop :=
  ∀ i sh, lc_headers lc !! i = Some sh →
    height (sh_header sh) = Z.of_nat i ∧ sh_chain_id sh = lc_chain_id lc ∧
    sh_block_hash sh = compute_hash (sh_header sh) ∧
    (i = 0%nat → sh_block_hash sh = lc_genesis_hash lc) ∧
    ∀ prev, lc_headers lc !! pred i = Some prev → (0 < i)%nat →
      prev_hash (sh_header sh) = sh_block_hash prev ∧
      ∃ sig, sh_signature sh = Some sig ∧ verify_block_signature (sh_header sh) (sh_block_hash sh) sig = true.

Lemma verify_header_Ok lc sh :
  light_wf lc → Z.of_nat (length (lc_headers lc)) ≤ u64_max → verify_header lc sh = Ok () →
  light_wf (push_header sh lc).
Proof.
  intros Hwf Hlen Hv. unfold verify_header in Hv. cbv zeta in Hv.
  case_bool_decide as Hid; [|done]. cbn [negb] in Hv.
  destruct (height (sh_header sh) =? _) eqn:Hh; [|done]. cbn [negb] in Hv. apply Z.eqb_eq in Hh.
  case_bool_decide as Hhash; [|done]. cbn [negb] in Hv.
  assert (height (sh_header sh) = Z.of_nat (length (lc_headers lc))) as Eh.
  { rewrite Hh. destruct (last (lc_headers lc)) as [prev|] eqn:El; simpl.
    - rewrite last_lookup in El. pose proof (lookup_lt_Some _ _ _ El). destruct (Hwf _ _ El) as (->&_).
      unfold add64. rewrite wrap64_id by u64_lia. lia.
    - by apply last_None in El as ->. }
  intros i sh' Hi. cbn [push_header lc_headers lc_chain_id lc_genesis_hash] in *.
  apply lookup_snoc_Some in Hi as [[Hlt Hi]|[-> <-]].
  - destruct (Hwf i sh' Hi) as (?&?&?&?&Hp). split_and!; [done..|]. intros prev Hprev Hpos.
    rewrite lookup_app_l in Hprev by lia. by apply Hp.
  - rewrite Eh in Hv. split_and!; try done.
    + intros E. rewrite E in Hv. cbn in Hv. case_bool_decide; [done|]. by simpl in Hv.
    + intros prev Hprev Hpos. rewrite (proj2 (Z.eqb_neq _ _)) in Hv by lia.
      rewrite lookup_app_l in Hprev by lia. rewrite last_lookup, Hprev in Hv. cbn [ok_or mbind result_bind] in Hv.
      case_bool_decide as Hph; [|done]. cbn [negb] in Hv. split; [done|].
      destruct (sh_signature sh) as [sig|]; [|done]. cbn [ok_or mbind result_bind] in Hv. exists sig.
      by destruct (verify_block_signature _ _ _).
Qed.

Lemma sync_loop_wf headers lc r lc' :
  light_wf lc → Z.of_nat (length (lc_headers lc) + length headers) ≤ u64_max →
  sync_loop headers lc = (r, lc') →
  light_wf lc' ∧ lc_chain_id lc' = lc_chain_id lc ∧ lc_genesis_hash lc' = lc_genesis_hash lc ∧
  ∃ done, lc_headers lc' = lc_headers lc ++ done ∧ done `prefix_of` headers ∧
    (r = Ok () → done = headers).
Proof.
  revert lc. induction headers as [|sh headers IH]; intros lc Hwf Hlen Hr.
  { injection Hr as <- <-. split_and!; [done..|]. exists []. by rewrite app_nil_r. }
  cbn [sync_loop] in Hr. unfold st_get, st_lift, st_modify, mbind, stM_bind in Hr. simpl in Hlen.
  destruct (verify_header lc sh) as [[]|e] eqn:Hv.
  - apply IH in Hr as (Hw&Hid&Hg&k&Eh&Hk&Hok); [|apply verify_header_Ok; [done|lia|done]|simpl; rewrite length_app; simpl; lia].
    split_and!; [done..|]. exists (sh :: k). simpl in Eh. rewrite Eh, <- app_assoc. split_and!; [done| |].
    + by apply prefix_cons.
    + intros E. by rewrite Hok.
  - injection Hr as <- <-. split_and!; [done..|]. exists []. rewrite app_nil_r.
    split_and!; [done|apply prefix_nil|done].
Qed.

(** Headers that pass one after the other. *)
Lemma sync_loop_app l1 l2 lc lc1 :
  sync_loop l1 lc = (Ok (), lc1) → sync_loop (l1 ++ l2) lc = sync_loop l2 lc1.
Proof.
  revert lc. induction l1 as [|sh l1 IH]; intros lc Hl; [by injection Hl as <-|].
  cbn [app sync_loop] in *. unfold st_get, st_lift, st_modify, mbind, stM_bind in *.
  destruct (verify_header lc sh) as [[]|e]; [by apply IH|done].
Qed.

Lemma sync_loop_one sh lc : verify_header lc sh = Ok () → sync_loop [sh] lc = (Ok (), push_header sh lc).
Proof. intros Hv. cbn [sync_loop]. unfold st_get, st_lift, st_modify, mbind, stM_bind. by rewrite Hv. Qed.

Lemma sync_headers_loop headers lc lc' :
  headers ≠ [] → sync_loop headers lc = (Ok (), lc') → sync_headers headers lc = (Ok (light_height lc'), lc').
Proof.
  intros Hne Hl. unfold sync_headers, st_guard, mbind, stM_bind. rewrite bool_decide_eq_false_2 by done.
  cbn [negb]. by rewrite Hl.
Qed.
End light.

Section properties.
Context `{Sha3} `{MlDsa} `{EvmEngine} `{WasmEngine} `{HashOrder} `{HexDecode}
  `{!Bincode SignableTransaction}
  `{!Bincode BlockHeader} `{!Bincode ProposalKind} `{!BincodeAccountLeaf} `{!BincodeStorageLeaf}
  `{!BincodeContractLeaf} `{!Json DeployTokenParams} `{!Json TokenTransferParams}
  `{!Json TokenApproveParams} `{!Json TokenTransferFromParams} `{!Json SubmitProposalParams}
  `{!Json GovernanceVoteParams}.

(** The header stream a node serves. *)
Definition signed_header (chain_id : string) (b : Block) : SignedHeader :=
  mkSignedHeader chain_id (header b) (block_hash b) (signature b).

(** The blocks of a grown chain pass their own checks, and the last one commits to
    the node's state. *)
Lemma grown_checked g limit c :
  grown g limit c → Forall (λ b, self_checks b = true) (bc_blocks c) ∧
  Z.of_nat (length (bc_blocks c)) ≤ u64_max ∧
  (1 < block_count c → compute_at_protocol (accounts (bc_state c)) (contracts (bc_state c))
     (protocol_version_at_height (bc_params c) (chain_height c)) = Some (state_root (header (latest_block c)))).
Proof.
  induction 1 as [c Hc|c now b c' Hgr (IH&Hlen&_) Hn Hlim Ha|c c' Hgr (IH&Hlen&IHr) Hl Eb].
  - destruct (genesis_block_of _ _ Hc) as (m&_&Eg). destruct (from_genesis_blocks _ _ Hc) as (Eb&_).
    rewrite Eb, Eg. split; [|split].
    + constructor; [apply genesis_self_checks|constructor].
    + simpl. u64_lia.
    + unfold block_count. rewrite Eb. simpl. lia.
  - pose proof (grown_linked _ _ _ Hgr) as Hlk.
    destruct (add_block_appends _ _ _ _ _ Hlk Hlim Ha) as (Eb&Eh&_).
    assert (latest_block c' = b) as Elb by (apply latest_block_last; by rewrite Eb, last_snoc).
    destruct (add_block_Ok _ _ _ _ _ Ha) as (s&Hv&Ec).
    apply validate_Ok in Hv as (t&s1&Hh&_&_&_&Hr). apply check_header_Ok in Hh as (_&_&Hsc&_).
    apply check_state_root_Ok in Hr. rewrite Eb. split; [|split].
    + apply Forall_app. split; [done|]. by constructor.
    + rewrite length_app. simpl. unfold block_count in Hlim. lia.
    + intros _. rewrite Elb.
      destruct (commit_block_same b s (prepared c (height (header b)))) as (_&_&Ea&Ecc&_).
      rewrite <- Ec in Ea, Ecc. rewrite Ea, Ecc.
      assert (chain_height c' = height (header b)) as ->.
      { unfold chain_height, saturating_sub. rewrite Eh. unfold block_count. rewrite Eb, length_app. simpl. lia. }
      assert (bc_params c' = bc_params (prepared c (height (header b)))) as ->; [|exact Hr].
      rewrite Ec. by destruct (commit_block_ledger b s (prepared c (height (header b)))) as ((->&_)&_).
  - destruct Hl as ((Ep&_)&Est&_). unfold block_count, chain_height, latest_block, block_at_height, chain_height, block_count in *.
    by rewrite Eb, Ep, Est.
Qed.

(** The client after the headers of the first blocks. *)
Lemma light_follows_prefix g limit c chain_id n :
  grown g limit c → (n ≤ length (bc_blocks c))%nat →
  let lc0 := light_new chain_id (genesis_hash c) in
  ∃ lc, sync_loop (signed_header chain_id <$> take n (bc_blocks c)) lc0 = (Ok (), lc) ∧
    lc_headers lc = signed_header chain_id <$> take n (bc_blocks c) ∧
    lc_chain_id lc = chain_id ∧ lc_genesis_hash lc = genesis_hash c.
Proof.
  intros Hgr Hn lc0. pose proof (grown_linked _ _ _ Hgr) as Hlk.
  destruct (grown_checked _ _ _ Hgr) as (Hsc&Hlen&_).
  induction n as [|n IH]; [by exists lc0|].
  destruct IH as (lc&Hl&Eh&Eid&Eg); [lia|].
  destruct (lookup_lt_is_Some_2 (bc_blocks c) n) as [b Hb]; [lia|].
  exists (push_header (signed_header chain_id b) lc). rewrite (take_S_r _ _ _ Hb), fmap_app.
  rewrite (sync_loop_app _ _ _ _ Hl). cbn [fmap list_fmap]. split; [|by rewrite <- Eh].
  apply sync_loop_one. rewrite Forall_lookup in Hsc. pose proof (Hsc _ _ Hb) as Hs.
  unfold self_checks in Hs. apply andb_true_iff in Hs as [Hs Hsig]. apply andb_true_iff in Hs as [Hh _].
  apply verify_hash_spec in Hh. destruct (proj2 Hlk _ _ Hb) as [Ehb Hprev].
  unfold verify_header. cbn [signed_header sh_chain_id sh_header sh_block_hash sh_signature]. cbv zeta.
  rewrite Eid, Eg, Eh, bool_decide_eq_true_2 by done. cbn [negb].
  assert (last (signed_header chain_id <$> take n (bc_blocks c)) = signed_header chain_id <$> (if n is S k then bc_blocks c !! k else None)) as ->.
  { rewrite fmap_last. f_equal. destruct n as [|k]; [done|].
    destruct (lookup_lt_is_Some_2 (bc_blocks c) k) as [p Hp]; [lia|].
    by rewrite (take_S_r _ _ _ Hp), last_snoc, Hp. }
  rewrite Ehb, <- Hh. rewrite (bool_decide_eq_true_2 (block_hash b = block_hash b)) by done.
  unfold block_verify_signature in Hsig. rewrite Ehb in Hsig. destruct n as [|k].
  - simpl in Hsig. apply bool_decide_eq_true in Hsig. rewrite Hsig. cbn.
    rewrite bool_decide_eq_true_2; [done|]. unfold genesis_hash. rewrite <- head_lookup in Hb. by rewrite Hb.
  - destruct (lookup_lt_is_Some_2 (bc_blocks c) k) as [p Hp]; [lia|]. rewrite Hp.
    cbn [fmap option_fmap option_map from_option signed_header sh_header].
    rewrite (proj1 (proj2 Hlk _ _ Hp)). unfold add64. rewrite wrap64_id by u64_lia.
    replace (Z.of_nat (S k) =? Z.of_nat k + 1) with true by (symmetry; apply Z.eqb_eq; lia).
    rewrite (proj2 (Z.eqb_neq (Z.of_nat (S k)) 0)) in Hsig |- * by lia.
    cbn [negb ok_or mbind result_bind sh_block_hash signed_header].
    rewrite (Hprev p ltac:(lia) Hp), bool_decide_eq_true_2 by done. cbn [negb].
    destruct (signature b) as [sig|]; [|done]. cbn [ok_or mbind result_bind].
    unfold verify_block_signature. by rewrite Hsig.
Qed.

(** The light client's headers are a chain. Whatever a client is sent, the headers
    it keeps are numbered from its genesis block on, each hashes to its block hash,
    names the one before and is signed by the key it carries. They extend those it
    had by the headers that came before the first bad one, which stay although the
    call fails. *)
Theorem light_headers_linked (lc lc' : LightClient) (headers : list SignedHeader)
    (r : result LightClientError Z) :
  light_wf lc → Z.of_nat (length (lc_headers lc) + length headers) ≤ u64_max →
  sync_headers headers lc = (r, lc') →
  light_wf lc' ∧
  ∃ accepted, lc_headers lc' = lc_headers lc ++ accepted ∧ accepted `prefix_of` headers ∧
    (is_ok r = true → accepted = headers ∧ headers ≠ [] ∧ r = Ok (light_height lc')).
Proof.
  intros Hwf Hlen Hr. unfold sync_headers, st_guard, st_get, mbind, stM_bind, mret, stM_ret in Hr.
  case_bool_decide as Hne; cbn [negb] in Hr.
  { injection Hr as <- <-. split; [done|]. exists []. rewrite app_nil_r. split_and!; [done|apply prefix_nil|done]. }
  destruct (sync_loop headers lc) as [r1 lc1] eqn:Hl.
  destruct (sync_loop_wf _ _ _ _ Hwf Hlen Hl) as (Hw&_&_&k&Eh&Hk&Hok).
  destruct r1 as [[]|e]; injection Hr as <- <-; (split; [done|]); exists k; split_and!; try done.
  intros _. by rewrite Hok.
Qed.

(** A light client follows an honest node. Given the node's signed headers it
    accepts them all; at every height it has the state root of the node's block, and
    at the tip that of the node's accounts and contracts, against which the node's
    proofs are checked. *)
Theorem light_follows_node (g : GenesisConfig) (limit : Z) (c : Blockchain) (chain_id : string) :
  grown g limit c →
  ∃ lc, sync_headers (signed_header chain_id <$> bc_blocks c) (light_new chain_id (genesis_hash c))
      = (Ok (chain_height c), lc) ∧
    (∀ h b, block_at_height c h = Some b → state_root_at lc h = Some (state_root (header b))) ∧
    (1 < block_count c → compute_at_protocol (accounts (bc_state c)) (contracts (bc_state c))
       (protocol_version_at_height (bc_params c) (chain_height c)) = state_root_at lc (chain_height c)).
Proof.
  intros Hgr. pose proof (grown_linked _ _ _ Hgr) as Hlk.
  destruct (light_follows_prefix g limit c chain_id (length (bc_blocks c)) Hgr ltac:(lia)) as (lc&Hl&Eh&_).
  rewrite firstn_all in Hl, Eh. destruct (chain_linked_latest _ Hlk) as [Hh Ela].
  assert (∀ h b, block_at_height c h = Some b → state_root_at lc h = Some (state_root (header b))) as Hroots.
  { intros h b Hb. unfold block_at_height in Hb. case_match; [done|]. unfold state_root_at.
    by rewrite Eh, list_lookup_fmap, Hb. }
  exists lc. split_and!; [|done|].
  - rewrite (sync_headers_loop _ _ lc); [|destruct Hlk as [Hne _]; by destruct (bc_blocks c)|done].
    unfold light_height. by rewrite Eh, fmap_last, Ela, <- Hh.
  - intros Hc. destruct (grown_checked _ _ _ Hgr) as (_&_&Hr). rewrite (Hr Hc). symmetry. apply Hroots.
    unfold latest_block. destruct (block_at_height c (chain_height c)) as [b|] eqn:Eb; [done|].
    exfalso. unfold block_at_height, chain_height, block_count, saturating_sub in *.
    case_match; bool_to_prop; [lia|]. apply lookup_ge_None in Eb. unfold block_count in Hc. lia.
Qed.

(** A header on top of the client's, signed by the holder of any key. *)
Definition own_header (lc : LightClient) (prev : SignedHeader) (seed root : bytes) : SignedHeader :=
  let kp := keypair_generate seed in
  let hd := mkHeader 1 (Z.of_nat (length (lc_headers lc))) 0 (sh_block_hash prev) [] root 0 0 (public_key kp) 0 in
  mkSignedHeader (lc_chain_id lc) hd (compute_hash hd)
    (keypair_sign kp (signable_block_hash (compute_hash hd))).

(** A light client follows anyone. Whoever extends its headers with one signed by a
    key of their own is believed: for any state with an account, there is such a
    header and a proof of that account, which verifies against the state root the
    client then holds. Neither the validator set nor the finalized height is
    looked at. *)
Theorem own_state_believed (lc : LightClient) (prev : SignedHeader) (seed address : bytes)
    (accounts : accounts_map) (contracts : contracts_map) (state : AccountState) :
  light_wf lc → last (lc_headers lc) = Some prev → Z.of_nat (length (lc_headers lc)) ≤ u64_max →
  length seed = ML_DSA_SEED_LEN → accounts !! address = Some state →
  ∃ p lc', sync_headers [own_header lc prev seed (compute_full accounts contracts)] lc =
      (Ok (Z.of_nat (length (lc_headers lc))), lc') ∧
    state_root_at lc' (Z.of_nat (length (lc_headers lc))) = Some (ap_state_root p) ∧
    ap_address p = address ∧ ap_state p = state ∧ light_verify_account_proof p = true.
Proof.
  intros Hwf Hl Hlen Hs Ha. set (sh := own_header lc prev seed _).
  destruct (account_proof_complete accounts contracts address state Ha) as (p&_&Hpa&Hps&Hr&Hv).
  assert (height (sh_header prev) = Z.of_nat (length (lc_headers lc)) - 1 ∧ lc_headers lc ≠ []) as [Eh Hne].
  { rewrite last_lookup in Hl. pose proof (lookup_lt_Some _ _ _ Hl) as Hlt. destruct (Hwf _ _ Hl) as (->&_).
    split; [lia|]. intros E. rewrite E in Hlt. simpl in Hlt. lia. }
  assert (verify_header lc sh = Ok ()) as Hok.
  { unfold verify_header. cbv zeta. rewrite Hl. cbn [from_option ok_or].
    rewrite (bool_decide_eq_true_2 (sh_chain_id sh = lc_chain_id lc)) by done. cbn [negb].
    rewrite Eh. unfold add64. rewrite wrap64_id by u64_lia. rewrite Z.sub_add.
    change (height (sh_header sh)) with (Z.of_nat (length (lc_headers lc))). rewrite Z.eqb_refl. cbn [negb].
    rewrite (bool_decide_eq_true_2 (compute_hash (sh_header sh) = sh_block_hash sh)) by done. cbn [negb].
    rewrite (proj2 (Z.eqb_neq _ 0)) by (destruct (lc_headers lc); [done|simpl; lia]).
    cbn [mbind result_bind]. rewrite bool_decide_eq_true_2 by done. cbn [negb].
    destruct (dilithium_sign_verify seed (signable_block_hash (sh_block_hash sh)) Hs) as (sig&Hsig&Hver).
    change (sh_signature sh) with (keypair_sign (keypair_generate seed) (signable_block_hash (sh_block_hash sh))).
    rewrite Hsig. cbn [ok_or mbind result_bind]. unfold verify_block_signature.
    change (validator_public_key (sh_header sh)) with (public_key (keypair_generate seed)). by rewrite Hver. }
  exists p, (push_header sh lc). split_and!; try done.
  - rewrite (sync_headers_loop [sh] lc (push_header sh lc) ltac:(done) (sync_loop_one _ _ Hok)). unfold light_height.
    cbn [push_header lc_headers]. by rewrite last_snoc.
  - unfold state_root_at. cbn [push_header lc_headers]. rewrite Nat2Z.id, lookup_app_r, Nat.sub_diag by lia.
    cbn. by rewrite Hr.
Qed.
End properties.

(** ** Witnesses *)

Section witnesses.
Import Demo.

Definition demo_light : LightClient :=
  (sync_headers (signed_header "c" <$> bc_blocks demo_c1) (light_new "c" (genesis_hash demo_c1))).2.
Definition demo_light_result : result LightClientError Z * LightClient :=
  sync_headers (signed_header "c" <$> bc_blocks demo_c1) (light_new "c" (genesis_hash demo_c1)).

Lemma light_new_wf chain_id hash : light_wf (light_new chain_id hash).
Proof. intros i sh Hi. discriminate Hi. Qed.

Lemma demo_light_facts :
  (Z.of_nat (length (lc_headers demo_light)) =? 2) && (Z.of_nat (length (bc_blocks demo_c1)) =? 2) &&
  is_some (last (lc_headers demo_light)) = true.
Proof. vm_compute. exact eq_refl. Qed.

Lemma demo_light_wf : light_wf demo_light.
Proof.
  destruct (andb_prop _ _ demo_light_facts) as [Hl _]. apply andb_prop in Hl as [_ Hl].
  apply Z.eqb_eq in Hl.
  destruct (sync_headers (signed_header "c" <$> bc_blocks demo_c1) (light_new "c" (genesis_hash demo_c1)))
    as [r lc] eqn:E.
  assert (lc = demo_light) as <- by (unfold demo_light; by rewrite E).
  unfold sync_headers, st_guard, st_get, mbind, stM_bind, mret, stM_ret in E.
  destruct (negb _); [|by injection E as _ <-].
  destruct (sync_loop _ _) as [r1 lc1] eqn:Hs.
  assert (lc1 = lc) as -> by (destruct r1; by injection E as _ <-).
  eapply sync_loop_wf; [apply light_new_wf| |exact Hs]. rewrite length_fmap, Nat.add_0_l, Hl. discriminate.
Qed.

Lemma light_headers_linked_witness : light_wf demo_light.
Proof.
  destruct (andb_prop _ _ demo_light_facts) as [Hl _]. apply andb_prop in Hl as [_ Hl].
  apply Z.eqb_eq in Hl.
  refine (proj1 (light_headers_linked (light_new "c" (genesis_hash demo_c1)) demo_light
    (signed_header "c" <$> bc_blocks demo_c1) demo_light_result.1 (light_new_wf _ _) _
    (surjective_pairing demo_light_result))).
  rewrite length_fmap, Nat.add_0_l, Hl. discriminate.
Defined.

Lemma light_follows_node_witness :
  ∃ lc, sync_headers (signed_header "c" <$> bc_blocks demo_c1) (light_new "c" (genesis_hash demo_c1))
    = (Ok (chain_height demo_c1), lc).
Proof.
  destruct (light_follows_node (demo_two 5000) (t0 + 10) demo_c1 "c" demo_grown) as (lc&Hl&_).
  exists lc. exact Hl.
Defined.

Lemma own_state_believed_witness :
  ∃ p lc', (sync_headers [own_header demo_light (default (mkSignedHeader "" (header default_block) [] None)
        (last (lc_headers demo_light))) (demo_seed 9)
      (compute_full {[ demo_address 9 := demo_account 1000000000 0 ]} ∅)] demo_light).2 = lc' ∧
    ap_state p = demo_account 1000000000 0 ∧ light_verify_account_proof p = true.
Proof.
  destruct (andb_prop _ _ demo_light_facts) as [Hl Hs]. apply andb_prop in Hl as [Hl _].
  apply Z.eqb_eq in Hl.
  destruct (own_state_believed demo_light (default (mkSignedHeader "" (header default_block) [] None)
      (last (lc_headers demo_light))) (demo_seed 9) (demo_address 9)
      {[ demo_address 9 := demo_account 1000000000 0 ]} ∅ (demo_account 1000000000 0) demo_light_wf
      (is_some_default (last (lc_headers demo_light)) _ Hs)) as (p&lc'&Hsync&_&_&Hst&Hv).
  - rewrite Hl. discriminate.
  - exact eq_refl.
  - apply lookup_singleton_eq.
  - exists p, lc'. split; [exact (f_equal snd Hsync)|]. exact (conj Hst Hv).
Defined.
End witnesses.
