(* ===== verification/Peers.v ===== *)
(** * Peers ([src/network/mod.rs])

    What a node keeps about its peers: the rate limiter, the scores, the tips it
    was told, the broadcasts that wait. An [Instant] is a number of nanoseconds. *)
From S2P Require Import Prelude.

Definition secs (n : Z) : Z := n * 1000000000.

Definition SYNC_TIMEOUT_SECS : Z := 30.
Definition MAX_SYNC_RETRIES : Z := 3.
Definition MAX_SEEN_BLOCKS : nat := 1000.
Definition SYNC_BATCH_SIZE : Z := 50.
Definition STARTUP_GRACE_SECS : Z := 20.
Definition PEERLESS_PRODUCTION_AFTER_SECS : Z := 120.
Definition PEER_MESH_SETTLE_SECS : Z := 15.
Definition VERIFIED_TIP_TTL_SECS : Z := 120.
Definition SYNC_STABLE_TICKS_BEFORE_PRODUCTION : Z := 3.
Definition MAX_PENDING_BROADCASTS : nat := 256.

Definition PEER_RATE_LIMIT_WINDOW_SECS : Z := 10.
Definition PEER_MAX_MESSAGES_PER_WINDOW : nat := 500.
Definition PEER_BAN_DURATION_SECS : Z := 300.
Definition PEER_MAX_TRACKED : nat := 2000.

Abbreviation PeerId := string.

(** ** Rate limiting *)

Record PeerRateState := mkRate {
  message_timestamps : list Z;
  banned_until : option Z;
  total_violations : Z;
}.
Definition rate_new : PeerRateState := mkRate [] None 0.
Abbreviation PeerRateLimiter := (gmap PeerId PeerRateState).

(** The eviction loop: from the front, while older than the window. *)
Fixpoint evict_old (now : Z) (l : list Z) : list Z :=
  match l with
  | [] => []
  | ts :: l' => if secs PEER_RATE_LIMIT_WINDOW_SECS <? now - ts then evict_old now l' else l
  end.

Definition rate_check (now : Z) (s : PeerRateState) : bool * PeerRateState :=
  if from_option (λ until, now <? until) false (banned_until s) then (false, s)
  else
    let l := evict_old now (message_timestamps s) in
    if bool_decide (PEER_MAX_MESSAGES_PER_WINDOW ≤ length l)%nat then
      let violations := total_violations s + 1 in
      (false, mkRate l (Some (now + secs (PEER_BAN_DURATION_SECS * violations))) violations)
    else (true, mkRate (l ++ [now]) None (total_violations s)).

(** [PeerRateLimiter::check]. *)
Definition limiter_check (now : Z) (peer : PeerId) (m : PeerRateLimiter) : bool * PeerRateLimiter :=
  let '(ok, s) := rate_check now (default rate_new (m !! peer)) in (ok, <[peer := s]> m).

Definition is_banned (now : Z) (peer : PeerId) (m : PeerRateLimiter) : bool :=
  match m !! peer with
  | Some s => from_option (λ until, now <? until) false (banned_until s)
  | None => false
  end.

Definition rate_active (now : Z) (s : PeerRateState) : bool :=
  from_option (λ until, now <? until) false (banned_until s) ||
  from_option (λ ts, now - ts <? secs (PEER_RATE_LIMIT_WINDOW_SECS * 6)) false
    (last (message_timestamps s)).

(** [cleanup]; [order] is the iteration order of the hash map. *)
Definition limiter_cleanup (order : PeerRateLimiter → list PeerId) (now : Z) (m : PeerRateLimiter)
    : PeerRateLimiter :=
  let m := filter (λ kv : PeerId * PeerRateState, rate_active now kv.2 = true) m in
  if bool_decide (PEER_MAX_TRACKED < size m)%nat then
    let free := filter (λ k, (m !! k ≫= banned_until) = None) (order m) in
    foldr delete m (take (size m - PEER_MAX_TRACKED) free)
  else m.

(** ** Scores *)

Definition PEER_SCORE_INITIAL : Z := 100.
Definition PEER_SCORE_MAX : Z := 200.
Definition PEER_SCORE_MIN : Z := -100.
Definition PEER_SCORE_BAN_THRESHOLD : Z := -50.
Definition PEER_SCORE_DECAY_PER_TICK : Z := 1.
Definition SCORE_VALID_BLOCK : Z := 5.
Definition SCORE_VALID_TX : Z := 1.
Definition SCORE_INVALID_BLOCK : Z := -20.
Definition SCORE_INVALID_TX : Z := -5.
Definition SCORE_RATE_LIMITED : Z := -15.

Record PeerScore := mkScore {
  score : Z;
  valid_messages : Z;
  invalid_messages : Z;
  last_updated : Z;
}.
Definition score_new (now : Z) : PeerScore := mkScore PEER_SCORE_INITIAL 0 0 now.
Abbreviation PeerScorer := (gmap PeerId PeerScore).

Definition record_good (now : Z) (peer : PeerId) (points : Z) (m : PeerScorer) : PeerScorer :=
  let s := default (score_new now) (m !! peer) in
  <[peer := mkScore (Z.min (score s + points) PEER_SCORE_MAX) (add64 (valid_messages s) 1)
              (invalid_messages s) now]> m.

Definition record_bad (now : Z) (peer : PeerId) (points : Z) (m : PeerScorer) : PeerScorer :=
  let s := default (score_new now) (m !! peer) in
  <[peer := mkScore (Z.max (score s + points) PEER_SCORE_MIN) (valid_messages s)
              (add64 (invalid_messages s) 1) now]> m.

Definition should_ban (peer : PeerId) (m : PeerScorer) : bool :=
  from_option (λ s, score s <=? PEER_SCORE_BAN_THRESHOLD) false (m !! peer).

Definition get_score (peer : PeerId) (m : PeerScorer) : Z :=
  from_option score PEER_SCORE_INITIAL (m !! peer).

Definition decay_score (s : PeerScore) : PeerScore :=
  mkScore
    (if PEER_SCORE_INITIAL <? score s
     then Z.max (score s - PEER_SCORE_DECAY_PER_TICK) PEER_SCORE_INITIAL
     else if score s <? PEER_SCORE_INITIAL
     then Z.min (score s + PEER_SCORE_DECAY_PER_TICK) PEER_SCORE_INITIAL
     else score s) (valid_messages s) (invalid_messages s) (last_updated s).
Definition decay_scores (m : PeerScorer) : PeerScorer := decay_score <$> m.

Definition scorer_cleanup (now : Z) (m : PeerScorer) : PeerScorer :=
  filter (λ kv : PeerId * PeerScore,
    ((now - last_updated kv.2 <? secs 600) || (score kv.2 <=? PEER_SCORE_BAN_THRESHOLD)) = true) m.

(** ** Waiting broadcasts *)

Definition enqueue_pending_broadcast {M} (msg : M) (pending : list M) : list M :=
  (if bool_decide (MAX_PENDING_BROADCASTS ≤ length pending)%nat then tail pending else pending) ++ [msg].

(** [broadcast_or_queue] and [flush_pending_broadcasts]; [sent] says which messages
    the network takes now. *)
Definition broadcast_or_queue {M} (sent : M → bool) (msg : M) (pending : list M) : list M :=
  if sent msg then pending else enqueue_pending_broadcast msg pending.
Definition flush_pending_broadcasts {M} (sent : M → bool) (pending : list M) : list M :=
  filter (λ msg, sent msg = false) pending.

(** ** Production guards *)

Definition should_delay_initial_production (started_at : Z) (connected_peers : nat) (now : Z) : bool :=
  let elapsed := Z.max 0 (now - started_at) in
  if elapsed <? secs STARTUP_GRACE_SECS then true
  else bool_decide (connected_peers = 0%nat) && (elapsed <? secs PEERLESS_PRODUCTION_AFTER_SECS).

Record PeerTip := mkTip { pt_height : Z; pt_hash : bytes; pt_seen_at : Z }.
Abbreviation PeerTips := (gmap PeerId PeerTip).

Definition prune_verified_peer_tips (now : Z) (tips : PeerTips) : PeerTips :=
  filter (λ kv : PeerId * PeerTip,
    (Z.max 0 (now - pt_seen_at kv.2) <? secs VERIFIED_TIP_TTL_SECS) = true) tips.

(** One tip in the loop of [sync_needed_from_verified_tips]. *)
Definition consider_tip (our_height : Z) (our_hash : bytes)
    (best : option (Z * bytes) * option (Z * bytes)) (tip : PeerTip) :=
  let '(higher, divergent) := best in
  if our_height <? pt_height tip then
    if from_option (λ b : Z * bytes, b.1 <? pt_height tip) true higher
    then (Some (pt_height tip, pt_hash tip), divergent) else best
  else if (pt_height tip =? our_height) && negb (bool_decide (pt_hash tip = our_hash)) &&
          bool_decide (divergent = None)
  then (higher, Some (pt_height tip, pt_hash tip)) else best.

Definition sync_needed_from_verified_tips (order : list PeerTip) (our_height : Z) (our_hash : bytes)
    : option (Z * bytes * bool) :=
  match foldl (consider_tip our_height our_hash) (None, None) order with
  | (Some (h, hash), _) => Some (h, hash, false)
  | (None, Some (h, hash)) => Some (h, hash, true)
  | (None, None) => None
  end.

(** ** Lemmas *)

Lemma evict_old_suffix now l : ∃ old, l = old ++ evict_old now l ∧
  Forall (λ ts, secs PEER_RATE_LIMIT_WINDOW_SECS < now - ts) old.
Proof.
  induction l as [|ts l (old&E&Hold)]; [by exists []|]. cbn [evict_old].
  destruct (_ <? now - ts) eqn:Ht; [|by exists []]. exists (ts :: old). bool_to_prop.
  split; [by rewrite E at 1|by constructor].
Qed.

(** A peer's messages, at the times they arrive: the times of those let through. *)
Fixpoint rate_run (times : list Z) (s : PeerRateState) : list Z * PeerRateState :=
  match times with
  | [] => ([], s)
  | now :: times =>
      let '(ok, s) := rate_check now s in
      let '(accepted, s) := rate_run times s in
      (if ok then now :: accepted else accepted, s)
  end.

(** 501 messages are never within one window. *)
Definition spread (l : list Z) : Prop := ∀ i a b,
  l !! i = Some a → l !! (i + PEER_MAX_MESSAGES_PER_WINDOW)%nat = Some b →
  secs PEER_RATE_LIMIT_WINDOW_SECS < b - a.

(** [acc] was let through by time [t]; the state remembers its end. *)
Record rate_inv (t : Z) (acc : list Z) (s : PeerRateState) : Prop := {
  ri_suffix : ∃ old, acc = old ++ message_timestamps s ∧
    Forall (λ a, secs PEER_RATE_LIMIT_WINDOW_SECS < t - a) old;
  ri_length : (length (message_timestamps s) ≤ PEER_MAX_MESSAGES_PER_WINDOW)%nat;
  ri_spread : spread acc;
}.

Lemma evict_old_head now l a l' : evict_old now l = a :: l' → now - a ≤ secs PEER_RATE_LIMIT_WINDOW_SECS.
Proof.
  induction l as [|ts l IH]; [done|]. cbn [evict_old]. destruct (_ <? now - ts) eqn:Ht; [done|].
  intros [= -> _]. bool_to_prop. done.
Qed.

Lemma rate_check_inv now t acc s :
  rate_inv t acc s → t ≤ now →
  let '(ok, s') := rate_check now s in rate_inv now (if ok then acc ++ [now] else acc) s'.
Proof.
  intros [(old&->&Hold) Hl500 Hsp] Ht.
  assert (Forall (λ a, secs PEER_RATE_LIMIT_WINDOW_SECS < now - a) old) as Hold'
    by (eapply Forall_impl; [exact Hold|]; simpl; lia).
  unfold rate_check. destruct (from_option _ false (banned_until s)).
  { split; [by exists old|done..]. }
  destruct (evict_old_suffix now (message_timestamps s)) as (old2&E&Hold2).
  set (l := evict_old now (message_timestamps s)) in *. clearbody l.
  rewrite E in Hl500, Hsp |- *. rewrite app_assoc in Hsp. rewrite app_assoc.
  rewrite length_app in Hl500.
  assert (Forall (λ a, secs PEER_RATE_LIMIT_WINDOW_SECS < now - a) (old ++ old2)) as Ho by (by apply Forall_app).
  set (o := old ++ old2) in *. clearbody o.
  case_bool_decide as Hlen; cbn [message_timestamps].
  { split; cbn [message_timestamps]; [by exists o|lia|done]. }
  split; cbn [message_timestamps]; [exists o; by rewrite app_assoc|rewrite length_app; simpl; lia|].
  intros i a b Ha Hb. apply lookup_snoc_Some in Hb as [[Hlt Hb]|[Hi <-]].
  - rewrite lookup_app_l in Ha by lia. by eapply Hsp.
  - rewrite length_app in Hi. rewrite lookup_app_l in Ha by (rewrite length_app; unfold PEER_MAX_MESSAGES_PER_WINDOW in *; lia).
    rewrite lookup_app_l in Ha by lia. rewrite Forall_lookup in Ho. by eapply Ho.
Qed.

Lemma rate_run_inv times t acc s :
  rate_inv t acc s → StronglySorted Z.le (t :: times) →
  spread (acc ++ (rate_run times s).1).
Proof.
  revert t acc s. induction times as [|now times IH]; intros t acc s Hinv Hs; cbn [rate_run fst].
  { rewrite app_nil_r. apply Hinv. }
  apply StronglySorted_inv in Hs as [Hs Ht]. apply Forall_cons in Ht as [Ht _].
  pose proof (rate_check_inv now t acc s Hinv Ht) as Hc. destruct (rate_check now s) as [ok s1].
  pose proof (IH now _ s1 Hc Hs) as Hr. destruct (rate_run times s1) as [accepted s2]. cbn [fst] in *.
  destruct ok; [by rewrite <- app_assoc in Hr|done].
Qed.

(** Nothing is refused to a peer that never was and keeps to the limit. *)
Lemma rate_run_all times t acc s :
  rate_inv t acc s → banned_until s = None → StronglySorted Z.le (t :: times) → spread (acc ++ times) →
  (rate_run times s).1 = times.
Proof.
  revert t acc s. induction times as [|now times IH]; intros t acc s Hinv Hb Hs Hsp; [done|].
  apply StronglySorted_inv in Hs as [Hs Ht]. apply Forall_cons in Ht as [Ht _].
  pose proof (rate_check_inv now t acc s Hinv Ht) as Hc. cbn [rate_run].
  unfold rate_check in *. rewrite Hb in *. cbn [from_option] in *.
  destruct Hinv as [(old&->&_) Hl500 _].
  destruct (evict_old_suffix now (message_timestamps s)) as (old2&E&_).
  set (l := evict_old now (message_timestamps s)) in *.
  assert (length l < PEER_MAX_MESSAGES_PER_WINDOW)%nat as Hlen.
  { destruct (decide (length l < PEER_MAX_MESSAGES_PER_WINDOW)%nat) as [|Hge]; [done|exfalso].
    assert (length l = PEER_MAX_MESSAGES_PER_WINDOW) as Hl.
    { apply (f_equal length) in E. rewrite length_app in E. lia. }
    destruct l as [|a l'] eqn:El; [done|]. pose proof (evict_old_head _ _ _ _ El) as Hin.
    rewrite E, !app_assoc, <- app_assoc in Hsp.
    assert (secs PEER_RATE_LIMIT_WINDOW_SECS < now - a); [|lia].
    apply (Hsp (length (old ++ old2))).
    - by rewrite lookup_app_r, Nat.sub_diag by lia.
    - rewrite lookup_app_r by lia. replace (_ + _ - _)%nat with (length (a :: l')) by lia.
      by rewrite lookup_app_r, Nat.sub_diag by lia. }
  rewrite bool_decide_eq_false_2 in * by lia.
  pose proof (IH now _ _ Hc eq_refl Hs) as Hr. rewrite <- app_assoc in Hr. specialize (Hr Hsp).
  destruct (rate_run times _) as [accepted s2]. cbn [fst] in *. by rewrite Hr.
Qed.

(** Whatever the times at which a peer's messages arrive, those the limiter lets
    through never hold 501 within a window of ten seconds; and a peer whose messages
    keep to that is never refused one. *)
Theorem rate_limit_bound (times : list Z) (Hsorted : StronglySorted Z.le times) :
  spread (rate_run times rate_new).1 ∧
  (spread times → (rate_run times rate_new).1 = times).
Proof.
  destruct times as [|t times]; [by split; [intros i a b ?|]|].
  assert (rate_inv t [] rate_new) as Hinv.
  { split; [by exists []|simpl; unfold PEER_MAX_MESSAGES_PER_WINDOW; lia|by intros i a b ?]. }
  assert (StronglySorted Z.le (t :: t :: times)) as Hs.
  { constructor; [done|]. apply StronglySorted_inv in Hsorted as [_ ?]. by constructor. }
  split; [exact (rate_run_inv _ t [] _ Hinv Hs)|].
  intros Hsp. exact (rate_run_all _ t [] _ Hinv eq_refl Hs Hsp).
Qed.

(** 600 messages in 6 seconds, then one after the ban. *)
Definition demo_flood : list Z := ((λ n, Z.of_nat n * 10000000) <$> seq 0 600) ++ [secs 400].

Lemma demo_flood_sorted a m : StronglySorted Z.le ((λ n, Z.of_nat n * 10000000) <$> seq a m).
Proof.
  revert a. induction m as [|m IH]; intros a; [constructor|]. constructor; [apply IH|].
  apply Forall_fmap, Forall_forall. intros n Hn%elem_of_seq. simpl. lia.
Qed.

Lemma rate_limit_bound_witness :
  spread (rate_run demo_flood rate_new).1 ∧
  length (rate_run demo_flood rate_new).1 = 501%nat ∧
  (rate_run [0; 5; secs 1] rate_new).1 = [0; 5; secs 1].
Proof.
  split; [|split; [vm_compute; reflexivity|]].
  - apply rate_limit_bound. apply StronglySorted_app_2.
    + intros a b Ha Hb. apply list_elem_of_singleton in Hb as ->.
      apply list_elem_of_fmap in Ha as (n&->&Hn). apply elem_of_seq in Hn. unfold secs. lia.
    + apply demo_flood_sorted.
    + repeat constructor.
  - apply rate_limit_bound; [repeat constructor; done|].
    intros i a b Ha Hb. apply lookup_lt_Some in Hb. unfold PEER_MAX_MESSAGES_PER_WINDOW in Hb. simpl in Hb. lia.
Defined.
