(* ===== verification/Network.v ===== *)
(** * Network ([src/network/mod.rs])

    The network loop: the messages, the state the loop keeps next to the chain, a
    handler per message and timer, and [net_step] that puts them together. A
    message goes out on gossipsub or waits in the queue of [Peers]. [None] is a
    panic (a secret key of the wrong length).

    Left out: the address book and dialling, gossipsub's topics, the peer count of
    the runtime, the events for websockets, logging. *)
From S2P Require Import Prelude Hash Crypto Vm Transaction Token Governance Block Account.
From S2P Require Import Validators Slashing Finality Settlement BlockStore BlockTree Trie StateRoot.
From S2P Require Import Chain Storage Apply Ledger AddBlock Mempool ForkChoice Persistence StateSync Peers.

Definition MAX_BUFFERED_PRE_MANIFEST_CHUNKS : nat := 2048.
Definition MAX_BUFFERED_PRE_MANIFEST_BYTES : Z := 128 * 1024 * 1024.
Definition MAX_DESERIALIZE_SIZE : Z := 16 * 1024 * 1024.

(** Below the limit on the payload the decoder's own limit cannot be met. *)
Definition bounded_deserialize {A} `{!BincodeDecode A} (data : bytes) : option A :=
  if MAX_DESERIALIZE_SIZE <? Z.of_nat (length data) then None else bincode_deserialize data.

Inductive NetworkMessage :=
  | NewBlock (data : bytes)
  | NewTransaction (data : bytes)
  | RequestBlocks (from_height : Z) (requester_peer_id : PeerId) (expected_prev_hash genesis : bytes)
  | BlockResponse (from_height : Z) (target_peer_id responder_peer_id : PeerId) (genesis : bytes)
      (blocks : list bytes)
  | HeightAnnounce (height : Z) (latest_hash genesis : bytes) (peer_id : PeerId)
      (public_addrs : list string) (key : option bytes) (signature : option Signature)
      (protocol_version : Z)
  | SlashingEvidence (data : bytes)
  | FinalityVoteMessage (data : bytes)
  | RequestSnapshot (requester_peer_id : PeerId) (preferred_height : option Z) (start_chunk : nat)
      (known_finalized_height : Z) (known_finalized_hash : bytes)
  | SnapshotManifestMessage (target_peer_id : PeerId) (data : bytes)
  | SnapshotChunkMessage (target_peer_id : PeerId) (height : Z) (data : bytes).

(** The encodings of what is not stored. *)
Class NetworkCodec := {
  #[global] codec_vote :: Bincode FinalityVote;
  #[global] codec_vote_de :: BincodeDecode FinalityVote;
}.

(** The iteration order of the map of tips. *)
Class TipOrder := {
  tip_order : PeerTips → list PeerTip;
  tip_order_ok m : tip_order m ≡ₚ (map_to_list m).*2;
}.

(** ** State *)

Record SyncState := mkSync {
  sync_requested : bool;
  sync_deadline : option Z;
  sync_retries : Z;
  sync_target_height : option Z;
  sync_stable_ticks : Z;
  pending_snapshot_manifest : option SnapshotManifest;
  pending_snapshot_chunks : gmap nat StateChunk;
  pre_manifest_chunk_buffer : gmap (Z * nat) StateChunk;
}.
Definition sync_new : SyncState := mkSync false None 0 None 0 None ∅ ∅.

Definition set_in_flight (requested : bool) (deadline : option Z) (retries : Z) (s : SyncState) : SyncState :=
  mkSync requested deadline retries (sync_target_height s) (sync_stable_ticks s)
    (pending_snapshot_manifest s) (pending_snapshot_chunks s) (pre_manifest_chunk_buffer s).
Definition set_gate (target : option Z) (ticks : Z) (s : SyncState) : SyncState :=
  mkSync (sync_requested s) (sync_deadline s) (sync_retries s) target ticks
    (pending_snapshot_manifest s) (pending_snapshot_chunks s) (pre_manifest_chunk_buffer s).
Definition set_session (manifest : option SnapshotManifest) (chunks : gmap nat StateChunk)
    (buffer : gmap (Z * nat) StateChunk) (s : SyncState) : SyncState :=
  mkSync (sync_requested s) (sync_deadline s) (sync_retries s) (sync_target_height s)
    (sync_stable_ticks s) manifest chunks buffer.
Definition sync_done (s : SyncState) : SyncState := set_in_flight false None 0 s.

Record PeerBook := mkBook {
  pb_limiter : PeerRateLimiter;
  pb_scorer : PeerScorer;
  verified_peer_tips : PeerTips;
  peer_heights : gmap PeerId (Z * bytes);
  last_peer_change_at : Z;
}.

(** The node, its key and identity, and the loop's variables. *)
Record NetNode (D : Type) := mkNet {
  nn_node : Node D;
  nn_id : PeerId;
  nn_key : option KeyPair;
  nn_started : Z;
  nn_sent : list NetworkMessage;
  nn_pending : list NetworkMessage;
  nn_seen : gset bytes;
  nn_sync : SyncState;
  nn_peers : PeerBook;
}.
Arguments mkNet {D}.
Arguments nn_node {D}.
Arguments nn_id {D}.
Arguments nn_key {D}.
Arguments nn_started {D}.
Arguments nn_sent {D}.
Arguments nn_pending {D}.
Arguments nn_seen {D}.
Arguments nn_sync {D}.
Arguments nn_peers {D}.

(** What the world shows the loop during a step: the clocks, the messages gossipsub
    takes, the number of connected peers. *)
Record Env := mkEnv {
  env_instant : Z;
  env_unix : Z;
  env_publish : NetworkMessage → bool;
  env_connected : nat;
}.

Definition height_bytes (h : Z) (latest_hash genesis : bytes) : bytes :=
  to_le_bytes 8 h ++ latest_hash ++ genesis.

(** The first chunk not there yet. *)
Definition next_missing_chunk_index (manifest : SnapshotManifest) (chunks : gmap nat StateChunk) : nat :=
  default (sm_chunk_count manifest)
    (head (filter (λ i, chunks !! i = None) (seq 0 (sm_chunk_count manifest)))).

(** The loop that puts the chunks in order: those it took out are lost when one is
    missing. *)
Fixpoint assemble (n i : nat) (chunks : gmap nat StateChunk) (ordered : list StateChunk)
    : option (list StateChunk) * gmap nat StateChunk :=
  match n with
  | O => (Some ordered, chunks)
  | S n =>
      match chunks !! i with
      | Some ch => assemble n (S i) (delete i chunks) (ordered ++ [ch])
      | None => (None, chunks)
      end
  end.

(** The node's last start is not used. *)
Definition allowed_rank_for_slot (next_height parent_timestamp now_unix snapshot_size : Z) : Z :=
  if next_height <=? 1 then 0 else allowed_backup_rank parent_timestamp now_unix snapshot_size.

Section network.
Context `{Sha3} `{MlDsa} `{EvmEngine} `{WasmEngine} `{HashOrder} `{HexDecode} `{SetOrder}
  `{!Bincode SignableTransaction}
  `{!Bincode BlockHeader} `{!Bincode ProposalKind} `{!BincodeAccountLeaf} `{!BincodeStorageLeaf}
  `{!BincodeContractLeaf} `{!Json DeployTokenParams} `{!Json TokenTransferParams}
  `{!Json TokenApproveParams} `{!Json TokenTransferFromParams} `{!Json SubmitProposalParams}
  `{!Json GovernanceVoteParams} `{!RustSort}
  {D : Type} `{!Redb D} `{!StorageCodec} `{!LegacyCodec} `{!SnapshotCodec} `{!NetworkCodec} `{!TipOrder}.

Definition nn_chain (n : NetNode D) : Blockchain := nd_chain (nn_node n).

Definition set_node (nd : Node D) (n : NetNode D) : NetNode D :=
  mkNet nd (nn_id n) (nn_key n) (nn_started n) (nn_sent n) (nn_pending n) (nn_seen n) (nn_sync n) (nn_peers n).
Definition set_out (sent pending : list NetworkMessage) (n : NetNode D) : NetNode D :=
  mkNet (nn_node n) (nn_id n) (nn_key n) (nn_started n) sent pending (nn_seen n) (nn_sync n) (nn_peers n).
Definition set_seen (seen : gset bytes) (n : NetNode D) : NetNode D :=
  mkNet (nn_node n) (nn_id n) (nn_key n) (nn_started n) (nn_sent n) (nn_pending n) seen (nn_sync n) (nn_peers n).
Definition set_sync (f : SyncState → SyncState) (n : NetNode D) : NetNode D :=
  mkNet (nn_node n) (nn_id n) (nn_key n) (nn_started n) (nn_sent n) (nn_pending n) (nn_seen n)
    (f (nn_sync n)) (nn_peers n).
Definition set_peers (f : PeerBook → PeerBook) (n : NetNode D) : NetNode D :=
  mkNet (nn_node n) (nn_id n) (nn_key n) (nn_started n) (nn_sent n) (nn_pending n) (nn_seen n)
    (nn_sync n) (f (nn_peers n)).

(** ** Sending *)

(** [broadcast_or_queue], and the flush of what waits. *)
Definition emit (env : Env) (msg : NetworkMessage) (n : NetNode D) : NetNode D :=
  set_out (if env_publish env msg then nn_sent n ++ [msg] else nn_sent n)
    (broadcast_or_queue (env_publish env) msg (nn_pending n)) n.
Definition emit_all (env : Env) (msgs : list NetworkMessage) (n : NetNode D) : NetNode D :=
  foldl (λ n msg, emit env msg n) n msgs.
Definition flush (env : Env) (n : NetNode D) : NetNode D :=
  set_out (nn_sent n ++ filter (λ msg, env_publish env msg = true) (nn_pending n))
    (flush_pending_broadcasts (env_publish env) (nn_pending n)) n.

(** A block of the chain, if it was not pruned. *)
Definition node_block_at (h : Z) (n : NetNode D) : option Block :=
  if (0 <? h) && (h <? chain_base_height (nn_node n)) then None else block_at_height (nn_chain n) h.

Definition request_blocks (from_height : Z) (n : NetNode D) : NetworkMessage :=
  RequestBlocks from_height (nn_id n) (block_hash (latest_block (nn_chain n))) (genesis_hash (nn_chain n)).
Definition request_snapshot (preferred : option Z) (start_chunk : nat) (n : NetNode D) : NetworkMessage :=
  let t := finality_tracker (nn_chain n) in
  RequestSnapshot (nn_id n) preferred start_chunk (finalized_height t) (finalized_hash t).

(** A request for what is above the tip: blocks, or a snapshot when that is far. *)
Definition sync_request (target_height : Z) (divergent : bool) (n : NetNode D) : NetworkMessage :=
  let our_height := chain_height (nn_chain n) in
  if divergent || (SYNC_BATCH_SIZE <? saturating_sub target_height our_height)
  then request_snapshot None 0 n else request_blocks (add64 our_height 1) n.

(** The request goes out and the sync is in flight. *)
Definition start_sync (env : Env) (msg : NetworkMessage) (n : NetNode D) : NetNode D :=
  set_sync (λ s, set_in_flight true (Some (env_instant env + secs SYNC_TIMEOUT_SECS)) (sync_retries s) s)
    (emit env msg n).

(** The top of the loop. *)
Definition check_sync_timeout (env : Env) (n : NetNode D) : NetNode D :=
  let s := nn_sync n in
  if from_option (λ deadline, deadline <=? env_instant env) false (sync_deadline s) then
    let retries := sync_retries s + 1 in
    let next manifest := next_missing_chunk_index manifest (pending_snapshot_chunks s) in
    let deadline := Some (env_instant env + secs SYNC_TIMEOUT_SECS) in
    if MAX_SYNC_RETRIES <=? retries then
      let start_chunk := from_option next 0%nat (pending_snapshot_manifest s) in
      set_sync (set_in_flight true deadline 0) (emit env (request_snapshot None start_chunk n) n)
    else
      let msg := match pending_snapshot_manifest s with
                 | Some manifest => request_snapshot (Some (sm_height manifest)) (next manifest) n
                 | None => request_blocks (add64 (chain_height (nn_chain n)) 1) n
                 end in
      set_sync (λ s, set_in_flight (sync_requested s) deadline retries s) (emit env msg n)
  else n.

(** ** Blocks and transactions *)

(** A finality vote: counted here, and sent. *)
Definition cast_vote (env : Env) (hash : bytes) (h : Z) (kp : KeyPair) (n : NetNode D) : option (NetNode D) :=
  vote ← vote_new hash h (epoch_for_height (bc_params (nn_chain n)) h) kp;
  let n := set_node (node_add_finality_vote vote (nn_node n)).2 n in
  Some (emit env (FinalityVoteMessage (bincode_serialize vote)) n).

(** The evidence against a validator that signed [b] next to the node's block. *)
Definition equivocation_evidence (our_block b : Block) : option EquivocationEvidence :=
  if bool_decide (validator_public_key (header our_block) = validator_public_key (header b)) &&
     negb (bool_decide (block_hash our_block = block_hash b))
  then
    sig_a ← signature our_block;
    sig_b ← signature b;
    Some (mkEvidence (height (header b)) (validator_public_key (header b))
            (header our_block) (block_hash our_block) sig_a (header b) (block_hash b) sig_b)
  else None.

Definition report_equivocation (env : Env) (b : Block) (n : NetNode D) : NetNode D :=
  match node_block_at (height (header b)) n ≫= λ our_block, equivocation_evidence our_block b with
  | Some evidence =>
      if evidence_verify evidence then
        emit env (SlashingEvidence (bincode_serialize evidence))
          (set_node (node_process_equivocation evidence (nn_node n)).2 n)
      else n
  | None => n
  end.

(** Hashes of payloads, emptied when full. *)
Definition mark_seen (hash : bytes) (seen : gset bytes) : gset bytes :=
  {[hash]} ∪ (if bool_decide (MAX_SEEN_BLOCKS ≤ size seen)%nat then ∅ else seen).

Definition handle_new_block (env : Env) (data : bytes) (n : NetNode D) : option (bool * NetNode D) :=
  let data_hash := sha3_hash data in
  if bool_decide (data_hash ∈ nn_seen n) then Some (false, n)
  else
    let n := set_seen (mark_seen data_hash (nn_seen n)) n in
    match bounded_deserialize data with
    | None => Some (false, n)
    | Some b =>
        match node_add_block (env_unix env) b (nn_node n) with
        | (Ok _, nd) =>
            let n := set_node nd n in
            match nn_key n with
            | Some kp =>
                n ← cast_vote env (block_hash b) (height (header b)) kp n;
                Some (true, n)
            | None => Some (true, n)
            end
        | (Err (InvalidHeight _ _), nd) | (Err InvalidPrevHash, nd) =>
            match node_add_block_with_fork_choice (env_unix env) b nd with
            | (Ok _, nd) => Some (false, set_node nd n)
            | (Err _, nd) => Some (false, report_equivocation env b (set_node nd n))
            end
        | (Err _, nd) => Some (false, set_node nd n)
        end
    end.

Definition handle_new_transaction (env : Env) (data : bytes) (n : NetNode D) : bool * NetNode D :=
  match bounded_deserialize data with
  | Some tx =>
      let '(r, nd) := node_add_transaction (env_unix env) tx (nn_node n) in (is_ok r, set_node nd n)
  | None => (false, n)
  end.

(** ** Block sync *)

Definition snapshot_messages (requester : PeerId) (manifest : SnapshotManifest) (chunks : list StateChunk)
    : list NetworkMessage :=
  SnapshotManifestMessage requester (bincode_serialize manifest) ::
  ((λ ch, SnapshotChunkMessage requester (sm_height manifest) (bincode_serialize ch)) <$> chunks).

(** A snapshot for a requester on another fork. *)
Definition offer_snapshot (env : Env) (requester : PeerId) (n : NetNode D) : NetNode D :=
  match create_snapshot (env_unix env) (nn_node n) with
  | (Ok manifest, nd) =>
      match node_snapshot_chunks (sm_height manifest) nd with
      | Ok chunks => emit_all env (snapshot_messages requester manifest chunks) (set_node nd n)
      | Err _ => set_node nd n
      end
  | (Err _, nd) => set_node nd n
  end.

(** The blocks of a response, from a height on, at most a batch. *)
Definition batch (from_height : Z) (n : NetNode D) : list Block :=
  let end_height := Z.min (from_height + SYNC_BATCH_SIZE - 1) (chain_height (nn_chain n)) in
  omap (λ h, node_block_at h n) (seqZ from_height (end_height + 1 - from_height)).

Definition handle_block_request (env : Env) (from_height : Z) (requester : PeerId)
    (expected_prev_hash request_genesis : bytes) (n : NetNode D) : NetNode D :=
  let c := nn_chain n in
  if negb (bool_decide (request_genesis = genesis_hash c)) then n
  else if chain_height c <? from_height then n
  else if (0 <? from_height) &&
          from_option (λ b, negb (bool_decide (block_hash b = expected_prev_hash))) false
            (node_block_at (from_height - 1) n)
  then offer_snapshot env requester n
  else
    match batch from_height n with
    | [] => n
    | blocks => emit env (BlockResponse from_height requester (nn_id n) (genesis_hash c)
                            (bincode_serialize <$> blocks)) n
    end.

(** The loop of [handle_block_response]: the blocks accepted and skipped. *)
Fixpoint response_loop (now : Z) (blocks : list bytes) (accepted skipped : Z) (nd : Node D)
    : Z * Z * Node D :=
  match blocks with
  | [] => (accepted, skipped, nd)
  | data :: blocks =>
      match bounded_deserialize data with
      | None => (accepted, skipped, nd)
      | Some b =>
          let ours := chain_height (nd_chain nd) in
          if height (header b) <=? ours then response_loop now blocks accepted (skipped + 1) nd
          else if negb (height (header b) =? add64 ours 1) then (accepted, skipped, nd)
          else
            match node_add_block now b nd with
            | (Ok _, nd) => response_loop now blocks (accepted + 1) skipped nd
            | (Err _, nd) => (accepted, skipped, nd)
            end
      end
  end.

Definition handle_block_response (env : Env) (from_height : Z) (response_genesis : bytes)
    (blocks : list bytes) (n : NetNode D) : NetNode D :=
  let c := nn_chain n in
  if negb (bool_decide (response_genesis = genesis_hash c)) then n
  else if saturating_add (chain_height c) 1 <? from_height then n
  else
    let '(accepted, skipped, nd) := response_loop (env_unix env) blocks 0 0 (nn_node n) in
    let n := set_node nd n in
    if 0 <? accepted then set_sync sync_done n
    else if (skipped =? Z.of_nat (length blocks)) && negb (bool_decide (blocks = []))
    then set_sync sync_done n else n.

(** ** Height announcements *)

Definition announce_verified (h : Z) (latest_hash genesis : bytes) (key : option bytes)
    (sig : option Signature) : bool :=
  match key, sig with
  | Some pk, Some sig => dilithium_verify (height_bytes h latest_hash genesis) sig pk
  | _, _ => false
  end.

Definition set_tips (tips : PeerTips) (p : PeerBook) : PeerBook :=
  mkBook (pb_limiter p) (pb_scorer p) tips (peer_heights p) (last_peer_change_at p).
Definition set_heights (heights : gmap PeerId (Z * bytes)) (p : PeerBook) : PeerBook :=
  mkBook (pb_limiter p) (pb_scorer p) (verified_peer_tips p) heights (last_peer_change_at p).
Definition set_changed (now : Z) (p : PeerBook) : PeerBook :=
  mkBook (pb_limiter p) (pb_scorer p) (verified_peer_tips p) (peer_heights p) now.
Definition set_scorer (scorer : PeerScorer) (p : PeerBook) : PeerBook :=
  mkBook (pb_limiter p) scorer (verified_peer_tips p) (peer_heights p) (last_peer_change_at p).
Definition set_limiter (limiter : PeerRateLimiter) (p : PeerBook) : PeerBook :=
  mkBook limiter (pb_scorer p) (verified_peer_tips p) (peer_heights p) (last_peer_change_at p).

(** A verified announcement's tip is kept under the name it gives itself. *)
Definition handle_height_announce (env : Env) (h : Z) (latest_hash genesis : bytes) (peer : PeerId)
    (key : option bytes) (sig : option Signature) (version : Z) (n : NetNode D) : NetNode D :=
  let verified := announce_verified h latest_hash genesis key sig in
  let n := set_peers (λ p, set_heights (<[peer := (h, latest_hash)]> (peer_heights p)) p) n in
  let c := nn_chain n in
  let our_height := chain_height c in
  if negb (bool_decide (genesis = genesis_hash c)) then n
  else if negb (version =? protocol_version_at_height (bc_params c) our_height) then n
  else
    let n := if verified : bool
             then set_peers (λ p, set_tips (<[peer := mkTip h latest_hash (env_instant env)]>
                                              (verified_peer_tips p)) p) n
             else n in
    let idle := negb (sync_requested (nn_sync n)) in
    if (our_height <? h) && idle && verified then start_sync env (sync_request h false n) n
    else if (h =? our_height) && negb (bool_decide (latest_hash = block_hash (latest_block c))) &&
            idle && verified
    then start_sync env (sync_request h true n) n
    else n.

(** ** Snapshots *)

Definition handle_snapshot_request (env : Env) (requester : PeerId) (preferred : option Z)
    (start_chunk : nat) (known_height : Z) (known_hash : bytes) (n : NetNode D) : NetNode D :=
  if chain_height (nn_chain n) =? 0 then n
  else if (0 <? known_height) &&
          negb (from_option (λ b, bool_decide (block_hash b = known_hash)) false (node_block_at known_height n))
  then n
  else
    let create nd := create_snapshot (env_unix env) nd in
    let '(manifest, nd) :=
      match create (nn_node n) with
      | (Ok m, nd) =>
          if from_option (λ h, sm_height m =? h) true preferred then (Some m, nd)
          else match create nd with (Ok m, nd) => (Some m, nd) | (Err _, nd) => (None, nd) end
      | (Err _, nd) => (None, nd)
      end in
    let n := set_node nd n in
    match manifest with
    | Some m =>
        match node_snapshot_chunks (sm_height m) nd with
        | Ok chunks => emit_all env (snapshot_messages requester m (drop start_chunk chunks)) n
        | Err _ => n
        end
    | None => n
    end.

(** All chunks of the session are there: they are put in order and applied. *)
Definition apply_assembled (env : Env) (manifest : SnapshotManifest) (ordered : list StateChunk)
    (n : NetNode D) : NetNode D :=
  let buffer n := pre_manifest_chunk_buffer (nn_sync n) in
  let chunks n := pending_snapshot_chunks (nn_sync n) in
  match apply_snapshot manifest ordered (nn_node n) with
  | (Ok _, nd) =>
      let n := set_node nd n in
      let n := if sm_height manifest <? sm_tip_height manifest
               then start_sync env (request_blocks (saturating_add (sm_height manifest) 1) n) n
               else set_sync sync_done n in
      set_sync (set_session None (chunks n) (buffer n)) n
  | (Err _, nd) => set_sync (set_session None ∅ (buffer n)) (set_node nd n)
  end.

Definition try_assemble (env : Env) (manifest : SnapshotManifest) (n : NetNode D) : NetNode D :=
  let s := nn_sync n in
  let chunks := pending_snapshot_chunks s in
  if bool_decide (size chunks = sm_chunk_count manifest) then
    match assemble (sm_chunk_count manifest) 0 chunks [] with
    | (Some ordered, chunks) =>
        apply_assembled env manifest ordered
          (set_sync (set_session (pending_snapshot_manifest s) chunks (pre_manifest_chunk_buffer s)) n)
    | (None, chunks) =>
        set_sync (set_session (pending_snapshot_manifest s) chunks (pre_manifest_chunk_buffer s)) n
    end
  else n.

(** The checks on a manifest before it opens a session. *)
Definition manifest_ok (c : Blockchain) (manifest : SnapshotManifest) : bool :=
  let t := finality_tracker c in
  negb (sm_height manifest <=? chain_height c) &&
  bool_decide (sm_chain_id manifest = gc_chain_id (genesis_config (bc_params c))) &&
  bool_decide (sm_genesis_hash manifest = genesis_hash c) &&
  negb (bool_decide (sm_chunk_root manifest = [])) &&
  negb (bool_decide (sm_chunk_count manifest = 0%nat)) &&
  bool_decide (length (sm_chunk_hashes manifest) = sm_chunk_count manifest) &&
  negb ((sm_tip_height manifest <? sm_height manifest) && negb (sm_tip_height manifest =? 0)) &&
  negb (negb (bool_decide (finalized_hash t = [])) &&
        (finalized_height t =? sm_finalized_height manifest) &&
        negb (bool_decide (finalized_hash t = sm_finalized_hash manifest))).

(** The session of a manifest: that of the same snapshot, or a new one, with the
    chunks that came before it; what waits for lower heights goes. *)
Definition open_session (manifest : SnapshotManifest) (s : SyncState) : SyncState :=
  let same := match pending_snapshot_manifest s with
              | Some current => (sm_height current =? sm_height manifest) &&
                  bool_decide (sm_chunk_root current = sm_chunk_root manifest)
              | None => false
              end in
  let chunks := if same then pending_snapshot_chunks s else ∅ in
  let buffer := pre_manifest_chunk_buffer s in
  let drained := filter (λ kv : (Z * nat) * StateChunk, kv.1.1 = sm_height manifest) (map_to_list buffer) in
  set_session (Some manifest) (foldl (λ m kv, <[ch_index kv.2 := kv.2]> m) chunks drained)
    (filter (λ kv : (Z * nat) * StateChunk, sm_height manifest < kv.1.1) buffer) s.

Definition handle_snapshot_manifest (env : Env) (target : PeerId) (data : bytes) (n : NetNode D) : NetNode D :=
  if negb (bool_decide (target = nn_id n)) then n
  else
    match bounded_deserialize data with
    | Some manifest =>
        if manifest_ok (nn_chain n) manifest
        then try_assemble env manifest (set_sync (open_session manifest) n) else n
    | None => n
    end.

Definition buffered_bytes (buffer : gmap (Z * nat) StateChunk) : Z :=
  foldr Z.add 0 ((λ kv, Z.of_nat (length (ch_data kv.2))) <$> map_to_list buffer).

Definition buffer_chunk (h : Z) (ch : StateChunk) (buffer : gmap (Z * nat) StateChunk)
    : gmap (Z * nat) StateChunk :=
  if bool_decide (size buffer < MAX_BUFFERED_PRE_MANIFEST_CHUNKS)%nat &&
     (buffered_bytes buffer + Z.of_nat (length (ch_data ch)) <=? MAX_BUFFERED_PRE_MANIFEST_BYTES)
  then <[(h, ch_index ch) := ch]> buffer else buffer.

Definition handle_snapshot_chunk (env : Env) (target : PeerId) (h : Z) (data : bytes) (n : NetNode D)
    : NetNode D :=
  if negb (bool_decide (target = nn_id n)) then n
  else
    match bounded_deserialize data with
    | None => n
    | Some ch =>
        let s := nn_sync n in
        match pending_snapshot_manifest s with
        | Some manifest =>
            if sm_height manifest =? h then
              try_assemble env manifest
                (set_sync (set_session (Some manifest) (<[ch_index ch := ch]> (pending_snapshot_chunks s))
                             (pre_manifest_chunk_buffer s)) n)
            else
              set_sync (set_session (Some manifest) (pending_snapshot_chunks s)
                          (buffer_chunk h ch (pre_manifest_chunk_buffer s))) n
        | None =>
            set_sync (set_session None (pending_snapshot_chunks s)
                        (buffer_chunk h ch (pre_manifest_chunk_buffer s))) n
        end
    end.

(** ** Block production *)

(** The first rank at which the node leads the slot. *)
Fixpoint my_rank_loop (fuel : nat) (rank : Z) (c : Blockchain) (next_height : Z)
    (latest_hash my_address : bytes) : option Z :=
  match fuel with
  | O => None
  | S fuel =>
      match slot_leader_address c next_height latest_hash rank with
      | Some addr =>
          if bool_decide (addr = my_address) then Some rank
          else my_rank_loop fuel (rank + 1) c next_height latest_hash my_address
      | None => None
      end
  end.

(** A block of the node's own: accepted, sent, voted for. The seen set gets the
    block's hash, not that of its encoding. *)
Definition produce_block (env : Env) (kp : KeyPair) (n : NetNode D) : option (NetNode D) :=
  match create_block (env_unix env) (env_unix env) (nn_chain n) kp with
  | Err Panic => None
  | Err _ => Some n
  | Ok b =>
      match node_add_block (env_unix env) b (nn_node n) with
      | (Err _, nd) => Some (set_node nd n)
      | (Ok _, nd) =>
          let n := emit env (NewBlock (bincode_serialize b)) (set_node nd n) in
          n ← cast_vote env (block_hash b) (height (header b)) kp n;
          Some (set_seen ({[block_hash b]} ∪ nn_seen n) n)
      end
  end.

(** The slot of the node, if it has one now: a backup needs a peer. *)
Definition produce_if_leader (env : Env) (kp : KeyPair) (n : NetNode D) : option (NetNode D) :=
  let c := nn_chain n in
  let parent := latest_block c in
  let next_height := add64 (height (header parent)) 1 in
  let snapshot_size := from_option (λ s, Z.of_nat (length (es_validators s))) 0
                         (epoch_snapshots c !! epoch_for_height (bc_params c) next_height) in
  let allowed_rank := allowed_rank_for_slot next_height (timestamp (header parent)) (env_unix env)
                        snapshot_size in
  match my_rank_loop (Z.to_nat allowed_rank + 1) 0 c next_height (block_hash parent)
          (address_bytes_from_public_key (public_key kp)) with
  | Some rank =>
      if (0 <? rank) && bool_decide (env_connected env = 0%nat) then Some n else produce_block env kp n
  | None => Some n
  end.

(** What stays of the tick when a tip needs a sync first. *)
Definition sync_before_production (env : Env) (h : Z) (divergent : bool) (n : NetNode D) : NetNode D :=
  set_sync (set_gate (Some h) 0) (start_sync env (sync_request h divergent n) n).

(** The sync gate: [inl] ends the tick, [inr] goes on to produce. *)
Definition sync_gate (env : Env) (n : NetNode D) : NetNode D + NetNode D :=
  let current := chain_height (nn_chain n) in
  let s := nn_sync n in
  let tips := verified_peer_tips (nn_peers n) in
  match sync_target_height s with
  | None => inr n
  | Some target =>
      if current <? target then inl (start_sync env (sync_request target false n) n)
      else
        let highest := from_option (λ hs : list Z, foldr Z.max 0 hs) current
                         (match pt_height <$> tip_order tips with [] => None | hs => Some hs end) in
        if current <? highest then inl (set_sync (set_gate (Some highest) 0) n)
        else
          let ticks := Z.min (sync_stable_ticks s + 1) 255 in
          if ticks <? SYNC_STABLE_TICKS_BEFORE_PRODUCTION
          then inl (set_sync (set_gate (Some target) ticks) n)
          else inr (set_sync (set_gate None 0) n)
  end.

Definition needed_sync (n : NetNode D) : option (Z * bytes * bool) :=
  let c := nn_chain n in
  sync_needed_from_verified_tips (tip_order (verified_peer_tips (nn_peers n))) (chain_height c)
    (block_hash (latest_block c)).

(** A tip above the target raises it. *)
Definition raise_target (n : NetNode D) : NetNode D :=
  match needed_sync n with
  | Some (peer_height, _, _) =>
      if from_option (λ target, target <? peer_height) true (sync_target_height (nn_sync n))
      then set_sync (set_gate (Some peer_height) 0) n else n
  | None => n
  end.

Definition block_tick (env : Env) (n : NetNode D) : option (NetNode D) :=
  match nn_key n with
  | None => Some n
  | Some kp =>
      if sync_requested (nn_sync n) then Some n
      else if Z.max 0 (env_instant env - last_peer_change_at (nn_peers n)) <? secs PEER_MESH_SETTLE_SECS
      then Some n
      else if should_delay_initial_production (nn_started n) (env_connected env) (env_instant env)
      then Some n
      else
        let n := set_peers (λ p, set_tips (prune_verified_peer_tips (env_instant env)
                                             (verified_peer_tips p)) p) n in
        match sync_gate env (raise_target n) with
        | inl n => Some n
        | inr n =>
            match needed_sync n with
            | Some (peer_height, _, divergent) =>
                Some (sync_before_production env peer_height divergent n)
            | None => produce_if_leader env kp n
            end
        end
  end.

(** ** The other timers and events *)

Definition announce_tick (addrs : list string) (env : Env) (n : NetNode D) : option (NetNode D) :=
  let c := nn_chain n in
  let h := chain_height c in
  let latest := block_hash (latest_block c) in
  let announce key sig :=
    emit env (HeightAnnounce h latest (genesis_hash c) (nn_id n) addrs key sig
                (protocol_version_at_height (bc_params c) h)) n in
  match nn_key n with
  | Some kp =>
      sig ← keypair_sign kp (height_bytes h latest (genesis_hash c));
      Some (announce (Some (public_key kp)) (Some sig))
  | None => Some (announce None None)
  end.

Definition cleanup_tick (order : PeerRateLimiter → list PeerId) (env : Env) (n : NetNode D) : NetNode D :=
  set_peers (λ p, set_scorer (scorer_cleanup (env_instant env) (decay_scores (pb_scorer p)))
                    (set_limiter (limiter_cleanup order (env_instant env) (pb_limiter p)) p)) n.

(** [Discovered] and the opening of a connection; [Expired]; the closing of one. *)
Definition peers_found (env : Env) (n : NetNode D) : NetNode D :=
  flush env (set_peers (set_changed (env_instant env)) n).
Definition peers_expired (peers : list PeerId) (env : Env) (n : NetNode D) : NetNode D :=
  set_peers (λ p, set_changed (env_instant env)
                    (set_tips (foldr delete (verified_peer_tips p) peers) p)) n.
Definition peer_closed (peer : PeerId) (env : Env) (n : NetNode D) : NetNode D :=
  set_peers (λ p, set_changed (env_instant env)
                    (set_heights (delete peer (peer_heights p))
                       (set_tips (delete peer (verified_peer_tips p)) p))) n.

(** ** The loop *)

Definition score_peer (env : Env) (source : option PeerId) (good : bool) (points penalty : Z)
    (n : NetNode D) : NetNode D :=
  match source with
  | Some peer =>
      set_peers (λ p, set_scorer
        (if good then record_good (env_instant env) peer points (pb_scorer p)
         else record_bad (env_instant env) peer penalty (pb_scorer p)) p) n
  | None => n
  end.

(** The handler of a message. *)
Definition dispatch (env : Env) (source : option PeerId) (msg : NetworkMessage) (n : NetNode D)
    : option (NetNode D) :=
  match msg with
  | NewBlock data =>
      '(accepted, n) ← handle_new_block env data n;
      Some (score_peer env source accepted SCORE_VALID_BLOCK SCORE_INVALID_BLOCK n)
  | NewTransaction data =>
      let '(ok, n) := handle_new_transaction env data n in
      Some (score_peer env source ok SCORE_VALID_TX SCORE_INVALID_TX n)
  | RequestBlocks from_height requester prev genesis =>
      Some (handle_block_request env from_height requester prev genesis n)
  | BlockResponse from_height target _ genesis blocks =>
      Some (if bool_decide (target = nn_id n)
            then handle_block_response env from_height genesis blocks n else n)
  | HeightAnnounce h latest genesis peer _ key sig version =>
      Some (handle_height_announce env h latest genesis peer key sig version n)
  | SlashingEvidence data =>
      Some (match bounded_deserialize data with
            | Some evidence => set_node (node_process_equivocation evidence (nn_node n)).2 n
            | None => n
            end)
  | FinalityVoteMessage data =>
      Some (match bounded_deserialize data with
            | Some vote => set_node (node_add_finality_vote vote (nn_node n)).2 n
            | None => n
            end)
  | RequestSnapshot requester preferred start known_height known_hash =>
      Some (handle_snapshot_request env requester preferred start known_height known_hash n)
  | SnapshotManifestMessage target data => Some (handle_snapshot_manifest env target data n)
  | SnapshotChunkMessage target h data => Some (handle_snapshot_chunk env target h data n)
  end.

(** A gossip message: limited by its source, then handled if it decodes. *)
Definition on_message (env : Env) (source : option PeerId) (msg : option NetworkMessage) (n : NetNode D)
    : option (NetNode D) :=
  let '(pass, n) :=
    match source with
    | Some peer =>
        let '(ok, limiter) := limiter_check (env_instant env) peer (pb_limiter (nn_peers n)) in
        let n := set_peers (set_limiter limiter) n in
        if ok then (negb (should_ban peer (pb_scorer (nn_peers n))), n)
        else (false, score_peer env source false 0 SCORE_RATE_LIMITED n)
    | None => (true, n)
    end in
  if pass then match msg with Some msg => dispatch env source msg n | None => Some n end
  else Some n.

Inductive NetEvent :=
  | Outbound (msg : NetworkMessage)
  | BlockTick
  | AnnounceTick (addrs : list string)
  | RebroadcastTick
  | CleanupTick (order : PeerRateLimiter → list PeerId)
  | MessageReceived (source : option PeerId) (msg : option NetworkMessage)
  | PeersFound
  | PeersExpired (peers : list PeerId)
  | PeerClosed (peer : PeerId).

(** One turn of the loop: the sync's deadline, then an event. *)
Definition net_event (env : Env) (ev : NetEvent) (n : NetNode D) : option (NetNode D) :=
  match ev with
  | Outbound msg => Some (emit env msg n)
  | BlockTick => block_tick env n
  | AnnounceTick addrs => announce_tick addrs env n
  | RebroadcastTick => Some (flush env n)
  | CleanupTick order => Some (cleanup_tick order env n)
  | MessageReceived source msg => on_message env source msg n
  | PeersFound => Some (peers_found env n)
  | PeersExpired peers => Some (peers_expired peers env n)
  | PeerClosed peer => Some (peer_closed peer env n)
  end.
Definition net_step (env : Env) (ev : NetEvent) (n : NetNode D) : option (NetNode D) :=
  net_event env ev (check_sync_timeout env n).

Fixpoint net_run (steps : list (Env * NetEvent)) (n : NetNode D) : option (NetNode D) :=
  match steps with
  | [] => Some n
  | (env, ev) :: steps => n ← net_step env ev n; net_run steps n
  end.
End network.
