(* ===== verification/NetworkSafety.v ===== *)
(** * What the network loop does with a chain

    What a turn of the loop of [Network] leaves of the chain and of a node that
    waits for blocks: one announcement of a height nobody has stops all block
    production. The nodes and the environment the runs of the loop start from. *)
From S2P Require Import Prelude Hash Crypto Vm Transaction Token Governance Block Account.
From S2P Require Import Validators Slashing Finality Settlement BlockStore BlockTree Trie StateRoot.
From S2P Require Import Chain Storage Apply Ledger AddBlock ChainSafety Mempool MempoolSafety ForkChoice.
From S2P Require Import ForkChoiceSafety Persistence PersistenceSafety StateSync StateSyncSafety Peers Network.

Section lemmas.
Context `{Sha3} `{MlDsa} `{EvmEngine} `{WasmEngine} `{HashOrder} `{HexDecode} `{SetOrder}
  `{!Bincode SignableTransaction}
  `{!Bincode BlockHeader} `{!Bincode ProposalKind} `{!BincodeAccountLeaf} `{!BincodeStorageLeaf}
  `{!BincodeContractLeaf} `{!Json DeployTokenParams} `{!Json TokenTransferParams}
  `{!Json TokenApproveParams} `{!Json TokenTransferFromParams} `{!Json SubmitProposalParams}
  `{!Json GovernanceVoteParams} `{!RustSort}
  {D : Type} `{!Redb D} `{!StorageCodec} `{!LegacyCodec} `{!SnapshotCodec} `{!NetworkCodec} `{!TipOrder}.

(** ** What leaves the blocks alone *)

Lemma on_storage_chain m (nd : Node D) : nd_chain (on_storage m nd).2 = nd_chain nd.
Proof. unfold on_storage. destruct (nd_storage nd) as [d|]; [|done]. by destruct (m d). Qed.

Lemma on_storage_silent_chain m (nd : Node D) : nd_chain (on_storage_silent m nd).2 = nd_chain nd.
Proof. unfold on_storage_silent. simpl. apply on_storage_chain. Qed.

Lemma persist_full_state_chain (nd : Node D) : nd_chain (persist_full_state nd).2 = nd_chain nd.
Proof.
  unfold persist_full_state, st_get, mbind, stM_bind. destruct (nd_storage nd); [|done].
  destruct (nd_mode nd); [apply on_storage_chain|done].
Qed.

Lemma persist_pending_chain (nd : Node D) : nd_chain (persist_pending_transactions nd).2 = nd_chain nd.
Proof.
  unfold persist_pending_transactions, st_get, mbind, stM_bind.
  destruct (nd_mode nd); [apply on_storage_chain|done].
Qed.

Lemma persist_added_block_chain b (nd : Node D) : nd_chain (persist_added_block b nd).2 = nd_chain nd.
Proof.
  unfold persist_added_block, st_get, mbind, stM_bind. destruct (nd_mode nd); [apply on_storage_chain|done].
Qed.

Lemma persist_finalized_chain h (nd : Node D) : nd_chain (persist_finalized_height h nd).2 = nd_chain nd.
Proof.
  unfold persist_finalized_height, st_get, mbind, stM_bind.
  destruct (nd_mode nd); [apply on_storage_silent_chain|done].
Qed.

Lemma persist_equivocation_chain ev (nd : Node D) : nd_chain (persist_equivocation ev nd).2 = nd_chain nd.
Proof.
  unfold persist_equivocation, st_get, mbind, stM_bind. destruct (nd_mode nd); [|done].
  pose proof (on_storage_silent_chain (put_evidence ev) nd) as E.
  destruct (on_storage_silent (put_evidence ev) nd) as [[[]|] nd1]; [|done]. simpl in E.
  case_match; [|done]. by rewrite on_storage_silent_chain.
Qed.

Lemma maybe_prune_chain h (nd : Node D) : nd_chain (maybe_prune_finalized h nd).2 = nd_chain nd.
Proof.
  unfold maybe_prune_finalized, node_prune_below. destruct (prune_keep_blocks nd) as [keep|]; [|done].
  destruct (h <? keep); [done|]. destruct (h - keep =? 0); [done|]. simpl.
  destruct (_ <=? _); [done|]. destruct (nd_storage nd) as [d|]; [|done].
  by destruct (db_prune_blocks_below _ d) as [[|] ?].
Qed.

Lemma vote_keeps_blocks vote (nd : Node D) :
  bc_blocks (nd_chain (node_add_finality_vote vote nd).2) = bc_blocks (nd_chain nd).
Proof.
  unfold node_add_finality_vote, mbind, stM_bind.
  destruct (add_finality_vote vote (nd_chain nd)) as [r c'] eqn:Hv.
  assert (bc_blocks c' = bc_blocks (nd_chain nd)) as Eb.
  { pose proof (vote_cases _ _ _ _ Hv) as [[_ ->]|(?&?&?&_&_&_&_&_&_&->)]; [done|]. by destruct r. }
  destruct r as [f|]; [|done].
  pose proof (persist_finalized_chain (fb_height f) (set_chain c' nd)) as Ep.
  destruct (persist_finalized_height _ _) as [[[]|] nd1]; simpl in *; [|by rewrite Ep].
  by rewrite maybe_prune_chain, Ep.
Qed.

Lemma equivocation_keeps_blocks ev (nd : Node D) :
  bc_blocks (nd_chain (node_process_equivocation ev nd).2) = bc_blocks (nd_chain nd).
Proof.
  unfold node_process_equivocation, process_equivocation, mbind, result_bind.
  destruct (slash_with_evidence _ _ _ _) as [[[penalty pos] m]|]; [|done].
  simpl. by rewrite persist_equivocation_chain.
Qed.

Lemma transaction_keeps_blocks now tx (nd : Node D) :
  bc_blocks (nd_chain (node_add_transaction now tx nd).2) = bc_blocks (nd_chain nd).
Proof.
  unfold node_add_transaction, on_chain, mbind, stM_bind.
  destruct (add_transaction now tx (nd_chain nd)) as [r c'] eqn:Ha.
  assert (bc_blocks c' = bc_blocks (nd_chain nd)) as Eb.
  { pose proof (add_transaction_cases _ _ _ _ _ Ha) as [(?&_&_&->)|(r1&l1&_&_&Hr1)]; [done|].
    by destruct r1; destruct Hr1 as [_ ->]. }
  destruct r; [|done]. by rewrite persist_pending_chain.
Qed.

(** A snapshot is below the tip. *)
Lemma create_snapshot_chain now (nd : Node D) :
  nd_chain (create_snapshot now nd).2 = nd_chain nd ∧
  ∀ m nd', create_snapshot now nd = (Ok m, nd') → sm_height m ≤ chain_height (nd_chain nd).
Proof.
  unfold create_snapshot, st_get, st_lift, mbind, stM_bind.
  destruct (build_snapshot now (nd_chain nd)) as [[m chunks]|e] eqn:Hb; [|done].
  assert (sm_height m ≤ chain_height (nd_chain nd)) as Hh.
  { unfold build_snapshot, ok_or in Hb. destruct (block_at_height _ _) as [b|]; [|done].
    cbn [mbind result_bind] in Hb. destruct (replay_state_to_canonical_height _ _ _) as [s|]; [|done].
    cbn [mbind result_bind] in Hb. destruct (make_chunks _) as [hs cs]. injection Hb as <- _. simpl.
    unfold snapshot_height. case_match; lia. }
  pose proof (on_storage_chain (put_chunks (sm_height m) (length chunks) chunks) nd) as E1.
  destruct (on_storage _ nd) as [[[]|] nd1]; [|done]. simpl in E1.
  pose proof (on_storage_chain (put_snapshot_manifest (sm_height m) m) nd1) as E2.
  destruct (on_storage _ nd1) as [[[]|] nd2]; simpl in *; [|split; [congruence|done]].
  split; [congruence|]. by intros ? ? [= <- _].
Qed.

(** ** Nodes that wait for what nobody has *)

(** A message that gives a node with the blocks up to [h] nothing to accept. *)
Definition harmless (h : Z) (msg : NetworkMessage) : Prop :=
  match msg with
  | NewBlock _ | BlockResponse _ _ _ _ _ => False
  | RequestBlocks from_height _ _ _ => h < from_height
  | SnapshotManifestMessage _ data =>
      ∀ m : SnapshotManifest, bounded_deserialize data = Some m → sm_height m ≤ h
  | _ => True
  end.

Record stuck (blocks : list Block) (h : Z) (n : NetNode D) : Prop := {
  sk_blocks : bc_blocks (nn_chain n) = blocks;
  sk_requested : sync_requested (nn_sync n) = true;
  sk_session : pending_snapshot_manifest (nn_sync n) = None;
  sk_sent : Forall (harmless h) (nn_sent n);
  sk_pending : Forall (harmless h) (nn_pending n);
}.

Section stuck.
Context (blocks : list Block) (h : Z) (Hh : h = saturating_sub (Z.of_nat (length blocks)) 1)
  (Hu64 : h < u64_max)
  (Hmanifests : ∀ m m' : SnapshotManifest, bounded_deserialize (bincode_serialize m) = Some m' → m' = m).

Lemma stuck_height n : stuck blocks h n → chain_height (nn_chain n) = h.
Proof. intros [Eb _ _ _ _]. unfold chain_height, block_count. by rewrite Eb, Hh. Qed.

Lemma stuck_emit env msg n : stuck blocks h n → harmless h msg → stuck blocks h (emit env msg n).
Proof.
  intros [K1 K2 K3 K4 K5] Hm. split; simpl; try done.
  - case_match; [|done]. apply Forall_app. by split; [|apply Forall_singleton].
  - unfold broadcast_or_queue. case_match; [done|]. unfold enqueue_pending_broadcast.
    apply Forall_app. split; [|by apply Forall_singleton]. case_match; [|done]. by apply Forall_tail.
Qed.

Lemma stuck_emit_all env msgs n :
  stuck blocks h n → Forall (harmless h) msgs → stuck blocks h (emit_all env msgs n).
Proof.
  intros Hs Hm. revert n Hs. unfold emit_all. induction Hm as [|msg msgs Hx _ IH]; intros n Hs; [done|].
  by apply IH, stuck_emit.
Qed.

Lemma stuck_flush env n : stuck blocks h n → stuck blocks h (flush env n).
Proof.
  intros [K1 K2 K3 K4 K5]. split; simpl; try done.
  - apply Forall_app. split; [done|]. apply Forall_forall. intros msg [_ Hm]%list_elem_of_filter.
    by apply (proj1 (Forall_forall _ _) K5).
  - unfold flush_pending_broadcasts. apply Forall_forall. intros msg [_ Hm]%list_elem_of_filter.
    by apply (proj1 (Forall_forall _ _) K5).
Qed.

Lemma stuck_node nd n :
  stuck blocks h n → bc_blocks (nd_chain nd) = bc_blocks (nn_chain n) → stuck blocks h (set_node nd n).
Proof. intros [K1 K2 K3 K4 K5] E. split; simpl; try done. unfold nn_chain. simpl. congruence. Qed.

Lemma stuck_sync f n :
  stuck blocks h n → (sync_requested (nn_sync n) = true → sync_requested (f (nn_sync n)) = true) →
  pending_snapshot_manifest (f (nn_sync n)) = pending_snapshot_manifest (nn_sync n) →
  stuck blocks h (set_sync f n).
Proof. intros [K1 K2 K3 K4 K5] E1 E2. split; simpl; [done|by apply E1|congruence|done..]. Qed.

Lemma stuck_peers f n : stuck blocks h n → stuck blocks h (set_peers f n).
Proof. by intros [K1 K2 K3 K4 K5]. Qed.

Lemma stuck_above n : stuck blocks h n → h < add64 (chain_height (nn_chain n)) 1.
Proof.
  intros Hs. rewrite (stuck_height _ Hs). assert (0 ≤ h).
  { rewrite Hh. unfold saturating_sub. lia. }
  rewrite add64_exact by u64_lia. lia.
Qed.

Lemma stuck_request target divergent n : stuck blocks h n → harmless h (sync_request target divergent n).
Proof.
  intros Hs. unfold sync_request. case_match; [done|]. by apply stuck_above.
Qed.

Lemma stuck_timeout env n : stuck blocks h n → stuck blocks h (check_sync_timeout env n).
Proof.
  intros Hs. unfold check_sync_timeout. rewrite (sk_session _ _ _ Hs).
  case_match; [|done]. case_match.
  - apply stuck_sync; [by apply stuck_emit|done..].
  - apply stuck_sync; [|done..]. apply stuck_emit; [done|]. by apply stuck_above.
Qed.

Lemma stuck_start env msg n : stuck blocks h n → harmless h msg → stuck blocks h (start_sync env msg n).
Proof. intros Hs Hm. apply stuck_sync; [by apply stuck_emit|done..]. Qed.

Lemma snapshot_messages_harmless requester m chunks :
  sm_height m ≤ h → Forall (harmless h) (snapshot_messages requester m chunks).
Proof.
  intros Hm. constructor; [|by apply Forall_fmap, Forall_true].
  intros m' Hd. by apply Hmanifests in Hd as ->.
Qed.

Lemma stuck_block_request env from requester prev genesis n :
  stuck blocks h n → h < from → stuck blocks h (handle_block_request env from requester prev genesis n).
Proof.
  intros Hs Hf. unfold handle_block_request. case_match; [done|].
  rewrite (stuck_height _ Hs). by rewrite (proj2 (Z.ltb_lt _ _) Hf).
Qed.

Lemma stuck_announce env a latest genesis peer key sig version n :
  stuck blocks h n → stuck blocks h (handle_height_announce env a latest genesis peer key sig version n).
Proof.
  intros Hs. unfold handle_height_announce.
  match goal with |- context [set_peers ?f n] => pose proof (stuck_peers f _ Hs) as Hs1 end.
  case_match; [done|]. case_match; [done|].
  destruct (announce_verified _ _ _ _ _).
  - pose proof (stuck_peers (λ p, set_tips (<[peer := mkTip a latest (env_instant env)]>
                                              (verified_peer_tips p)) p) _ Hs1) as Hs2.
    case_match; [by apply stuck_start, stuck_request|].
    case_match; [by apply stuck_start, stuck_request|done].
  - by rewrite !andb_false_r.
Qed.

Lemma stuck_snapshot_request env requester preferred start known hash n :
  stuck blocks h n → stuck blocks h (handle_snapshot_request env requester preferred start known hash n).
Proof.
  intros Hs. unfold handle_snapshot_request. case_match; [done|]. case_match; [done|].
  destruct (create_snapshot_chain (env_unix env) (nn_node n)) as [E1 Hm1].
  destruct (create_snapshot _ (nn_node n)) as [[m|e] nd1]; simpl in E1.
  2: { apply stuck_node; [done|]. simpl. by rewrite E1. }
  pose proof (Hm1 m nd1 eq_refl) as Hle1. fold (nn_chain n) in E1, Hle1. rewrite (stuck_height _ Hs) in Hle1.
  assert (∀ m nd', nd_chain nd' = nn_chain n → sm_height m ≤ h →
    stuck blocks h (match node_snapshot_chunks (sm_height m) nd' with
                    | Ok chunks => emit_all env (snapshot_messages requester m (drop start chunks)) (set_node nd' n)
                    | Err _ => set_node nd' n
                    end)) as Hsend.
  { intros m' nd' En Hle. assert (stuck blocks h (set_node nd' n)) by (apply stuck_node; congruence).
    case_match; [|done]. by apply stuck_emit_all, snapshot_messages_harmless. }
  destruct (from_option _ true preferred); [by apply Hsend|].
  destruct (create_snapshot_chain (env_unix env) nd1) as [E2 Hm2].
  destruct (create_snapshot _ nd1) as [[m2|e] nd2]; simpl in E2; rewrite E1 in E2.
  - pose proof (Hm2 m2 nd2 eq_refl) as Hle2. rewrite E1, (stuck_height _ Hs) in Hle2. by apply Hsend.
  - apply stuck_node; [done|]. congruence.
Qed.

Lemma stuck_chunk env target a data n :
  stuck blocks h n → stuck blocks h (handle_snapshot_chunk env target a data n).
Proof.
  intros Hs. unfold handle_snapshot_chunk. case_match; [done|]. case_match; [|done].
  rewrite (sk_session _ _ _ Hs). by apply stuck_sync; [..|rewrite (sk_session _ _ _ Hs)].
Qed.

Lemma stuck_manifest env target data n :
  stuck blocks h n → harmless h (SnapshotManifestMessage target data) →
  stuck blocks h (handle_snapshot_manifest env target data n).
Proof.
  intros Hs Hm. unfold handle_snapshot_manifest. case_match; [done|].
  destruct (bounded_deserialize data) as [m|] eqn:Hd; [|done]. specialize (Hm m Hd).
  unfold manifest_ok. rewrite (stuck_height _ Hs), (proj2 (Z.leb_le _ _) Hm). done.
Qed.

Lemma stuck_dispatch env source msg n n' :
  stuck blocks h n → harmless h msg → dispatch env source msg n = Some n' → stuck blocks h n'.
Proof.
  intros Hs Hm. destruct msg; simpl in Hm; cbn [dispatch].
  - done.
  - unfold handle_new_transaction, score_peer. destruct (bounded_deserialize data) as [tx|].
    2: { intros [= <-]. case_match; [by apply stuck_peers|done]. }
    pose proof (transaction_keeps_blocks (env_unix env) tx (nn_node n)) as Eb.
    destruct (node_add_transaction _ _ _) as [r nd]; intros [= <-].
    case_match; [apply stuck_peers|]; by apply stuck_node.
  - intros [= <-]. by apply stuck_block_request.
  - done.
  - intros [= <-]. by apply stuck_announce.
  - intros [= <-]. case_match; [|done]. apply stuck_node; [done|]. apply equivocation_keeps_blocks.
  - intros [= <-]. case_match; [|done]. apply stuck_node; [done|]. apply vote_keeps_blocks.
  - intros [= <-]. by apply stuck_snapshot_request.
  - intros [= <-]. by apply stuck_manifest.
  - intros [= <-]. by apply stuck_chunk.
Qed.

(** No event changes the blocks, if the messages are harmless. *)
Lemma stuck_step env ev n n' :
  stuck blocks h n →
  match ev with Outbound msg | MessageReceived _ (Some msg) => harmless h msg | _ => True end →
  net_step env ev n = Some n' → stuck blocks h n'.
Proof.
  intros Hs Hev Hn. unfold net_step in Hn. apply (stuck_timeout env) in Hs.
  set (n1 := check_sync_timeout env n) in *. clearbody n1.
  destruct ev as [msg| |addrs| |order|source [msg|]| |peers|peer]; cbn [net_event] in Hn.
  - injection Hn as <-. by apply stuck_emit.
  - unfold block_tick in Hn. rewrite (sk_requested _ _ _ Hs) in Hn. case_match; by injection Hn as <-.
  - unfold announce_tick, mbind, option_bind in Hn. destruct (nn_key n1) as [kp|].
    + destruct (keypair_sign kp _); [|done]. injection Hn as <-. by apply stuck_emit.
    + injection Hn as <-. by apply stuck_emit.
  - injection Hn as <-. by apply stuck_flush.
  - injection Hn as <-. by apply stuck_peers.
  - unfold on_message in Hn. destruct source as [peer|]; [|by eapply stuck_dispatch].
    destruct (limiter_check _ _ _) as [ok limiter]. cbv zeta in Hn.
    destruct ok; [|injection Hn as <-; by apply stuck_peers, stuck_peers].
    destruct (negb _); [|injection Hn as <-; by apply stuck_peers].
    eapply stuck_dispatch; [by apply stuck_peers|exact Hev|exact Hn].
  - unfold on_message in Hn. destruct source as [peer|]; [|by injection Hn as <-].
    destruct (limiter_check _ _ _) as [ok limiter]. cbv zeta in Hn.
    destruct ok; [|injection Hn as <-; by apply stuck_peers, stuck_peers].
    destruct (negb _); injection Hn as <-; by apply stuck_peers.
  - injection Hn as <-. by apply stuck_flush, stuck_peers.
  - injection Hn as <-. by apply stuck_peers.
  - injection Hn as <-. by apply stuck_peers.
Qed.
End stuck.

(** A node with nothing under way. *)
Record idle (blocks : list Block) (n : NetNode D) : Prop := {
  id_blocks : bc_blocks (nn_chain n) = blocks;
  id_deadline : sync_deadline (nn_sync n) = None;
  id_session : pending_snapshot_manifest (nn_sync n) = None;
  id_sent : nn_sent n = [];
  id_pending : nn_pending n = [];
}.

(** An announcement signed by a key made up for it. *)
Definition bogus_announce (seed : bytes) (target : Z) (genesis : bytes) (name : PeerId) (version : Z)
    : NetworkMessage :=
  let kp := keypair_generate seed in
  HeightAnnounce target [] genesis name [] (Some (public_key kp))
    (keypair_sign kp (height_bytes target [] genesis)) version.

(** A message from a peer not heard of before. *)
Definition hears (msg : NetworkMessage) (n n' : NetNode D) : Prop :=
  ∃ env peer, pb_limiter (nn_peers n) !! peer = None ∧ pb_scorer (nn_peers n) !! peer = None ∧
    net_step env (MessageReceived (Some peer) (Some msg)) n = Some n'.

(** Nodes on a network of their own: what a node receives, some node has sent, in
    any order and as often as you like; the API hands over transactions. *)
Inductive gossip_step (ns : list (NetNode D)) : list (NetNode D) → Prop :=
  | gossip_turn i n env ev n' :
      ns !! i = Some n → net_step env ev n = Some n' →
      (∀ source msg, ev = MessageReceived source (Some msg) → ∃ m, m ∈ ns ∧ msg ∈ nn_sent m) →
      (∀ msg, ev = Outbound msg → ∃ data, msg = NewTransaction data) →
      gossip_step ns (<[i:=n']> ns).

Lemma rate_new_passes now : (rate_check now rate_new).1 = true.
Proof. done. Qed.

Lemma bogus_announce_sticks blocks h seed target name version n n' :
  h = saturating_sub (Z.of_nat (length blocks)) 1 → h < u64_max → h < target →
  length seed = ML_DSA_SEED_LEN → idle blocks n →
  protocol_version_at_height (bc_params (nn_chain n)) h = version →
  hears (bogus_announce seed target (from_option block_hash [] (head blocks)) name version) n n' →
  stuck blocks h n'.
Proof.
  intros Hh Hu Ht Hseed [I1 I2 I3 I4 I5] Hv (env&peer&Hl&Hsc&Hn).
  assert (chain_height (nn_chain n) = h) as Eh by (unfold chain_height, block_count; by rewrite I1, Hh).
  unfold net_step, check_sync_timeout in Hn. rewrite I2 in Hn. cbn [from_option net_event] in Hn.
  unfold on_message, limiter_check in Hn. rewrite Hl in Hn. cbn [default] in Hn.
  pose proof (rate_new_passes (env_instant env)) as Hr.
  destruct (rate_check _ _) as [ok s] in Hn, Hr. simpl in Hr. subst ok. cbv zeta in Hn.
  unfold should_ban in Hn. cbn [set_peers set_limiter pb_scorer nn_peers] in Hn. rewrite Hsc in Hn.
  cbn [from_option negb dispatch bogus_announce] in Hn. injection Hn as <-.
  set (n1 := set_peers _ n). destruct (dilithium_sign_verify seed (height_bytes target []
    (from_option block_hash [] (head blocks))) Hseed) as (sig&Hsig&Hver).
  assert (genesis_hash (nn_chain n1) = from_option block_hash [] (head blocks)) as Eg
    by (unfold genesis_hash; by rewrite <- I1).
  assert (nn_chain n1 = nn_chain n) as Ec by done.
  assert (nn_sync n1 = nn_sync n ∧ nn_sent n1 = [] ∧ nn_pending n1 = []) as (Es&Esent&Ep) by done.
  clearbody n1. unfold handle_height_announce. rewrite Hsig.
  match goal with |- context [announce_verified ?a ?b ?c ?k ?s] =>
    assert (announce_verified a b c k s = true) as -> by exact Hver end. cbv zeta.
  set (n2 := set_peers _ (set_peers _ n1)).
  change (nn_chain (set_peers _ n1)) with (nn_chain n1). rewrite Eg, bool_decide_eq_true_2 by done.
  rewrite Ec, Eh, Hv, Z.eqb_refl. cbn [negb]. rewrite (proj2 (Z.ltb_lt _ _) Ht).
  assert (bc_blocks (nn_chain n2) = blocks ∧ nn_sync n2 = nn_sync n ∧ nn_sent n2 = [] ∧ nn_pending n2 = [])
    as (E1&E2&E3&E4) by (change (nn_chain n2) with (nn_chain n1); by rewrite Ec).
  clearbody n2. cbn [andb]. rewrite E2. destruct (sync_requested (nn_sync n)) eqn:Hreq; cbn [andb negb].
  - rewrite !andb_false_r. cbn [andb]. split; [done|by rewrite E2..|by rewrite E3|by rewrite E4].
  - unfold start_sync. set (msg := sync_request target false n2).
    set (n3 := set_sync (λ s, set_in_flight true (sync_deadline s) (sync_retries s) s) n2).
    assert (stuck blocks h n3) as Hs3.
    { subst n3. split; cbn [set_sync nn_sent nn_pending]; [done..|by rewrite <- I3, <- E2|by rewrite E3|by rewrite E4]. }
    assert (harmless h msg) as Hm by exact (stuck_request blocks h Hh Hu target false n3 Hs3).
    pose proof (stuck_emit blocks h env msg n3 Hs3 Hm) as [K1 K2 K3 K4 K5].
    by split.
Qed.

(** C11: one message stops the network. Let any number of nodes have the same chain and
    nothing under way, and let each hear once of a height above their own, in an
    announcement signed by a key nobody knows, in the name of anyone. Whatever
    they do then - however long, whichever of their messages arrive, in whatever
    order - no node's chain ever gets another block: each waits for blocks that no
    node has, and a node that waits does not produce. *)
Theorem announce_halts_network (blocks : list Block) (h target version : Z) (seed : bytes) (name : PeerId)
    (ns ns1 ns2 : list (NetNode D)) :
  h = saturating_sub (Z.of_nat (length blocks)) 1 → h < target ≤ u64_max →
  length seed = ML_DSA_SEED_LEN →
  (∀ m m' : SnapshotManifest, bounded_deserialize (bincode_serialize m) = Some m' → m' = m) →
  Forall (λ n, idle blocks n ∧ protocol_version_at_height (bc_params (nn_chain n)) h = version) ns →
  Forall2 (hears (bogus_announce seed target (from_option block_hash [] (head blocks)) name version)) ns ns1 →
  rtc gossip_step ns1 ns2 →
  length ns2 = length ns ∧ Forall (λ n, bc_blocks (nn_chain n) = blocks) ns2.
Proof.
  intros Hh [Ht Hu] Hseed Hman Hidle Hhear Hrun. assert (h < u64_max) as Hlt by lia.
  assert (Forall (stuck blocks h) ns1) as Hstuck.
  { apply Forall_forall. intros n1 Hn1. apply list_elem_of_lookup in Hn1 as [i Hi].
    destruct (Forall2_lookup_r _ _ _ _ _ Hhear Hi) as (n&Hn&Hb).
    destruct (Forall_lookup_1 _ _ _ _ Hidle Hn) as [Hid Hv].
    exact (bogus_announce_sticks blocks h seed target name version n n1 Hh Hlt Ht Hseed Hid Hv Hb). }
  rewrite (Forall2_length _ _ _ Hhear). clear Hhear.
  assert (length ns2 = length ns1 ∧ Forall (stuck blocks h) ns2) as [El Hst].
  { induction Hrun as [ns1|ns1 nsm ns2 Hstep _ IH]; [done|].
    destruct Hstep as [i n env ev n' Hi Hstep Hrecv Hout].
    assert (Forall (stuck blocks h) (<[i:=n']> ns1)) as Hs.
    { apply Forall_insert; [done|]. eapply (stuck_step blocks h Hh Hlt Hman); [|..|exact Hstep].
      - by eapply Forall_lookup_1.
      - destruct ev as [msg| |addrs| |order|source [msg|]| |peers|peer]; try done.
        + by destruct (Hout msg eq_refl) as [data ->].
        + destruct (Hrecv source msg eq_refl) as (m&Hm&Hms).
          pose proof (sk_sent _ _ _ (proj1 (Forall_forall _ _) Hstuck m Hm)) as Hsent.
          exact (proj1 (Forall_forall _ _) Hsent msg Hms). }
    destruct (IH Hs) as [El Hf]. split; [|done]. by rewrite El, length_insert. }
  split; [done|]. eapply Forall_impl; [exact Hst|]. intros n Hs. apply Hs.
Qed.

(** A block of another branch counts against the peer it came from, even when the
    node accepts it, and even when it moves its chain to that branch. *)
Theorem fork_block_penalised (env : Env) (peer : PeerId) (data : bytes) (b : Block) (n : NetNode D)
    (nd1 nd2 : Node D) (reorged : bool) :
  sha3_hash data ∉ nn_seen n → bounded_deserialize data = Some b →
  node_add_block (env_unix env) b (nn_node n) = (Err InvalidPrevHash, nd1) →
  node_add_block_with_fork_choice (env_unix env) b nd1 = (Ok reorged, nd2) →
  ∃ n', dispatch env (Some peer) (NewBlock data) n = Some n' ∧ nn_node n' = nd2 ∧
    get_score peer (pb_scorer (nn_peers n')) =
      Z.max (get_score peer (pb_scorer (nn_peers n)) - 20) PEER_SCORE_MIN.
Proof.
  intros Hseen Hd Ha Hf. cbn [dispatch]. unfold handle_new_block.
  rewrite bool_decide_eq_false_2 by done. rewrite Hd. cbn [nn_node set_seen]. rewrite Ha, Hf.
  cbn [mbind option_bind score_peer]. eexists. split; [done|]. split; [done|].
  unfold get_score. cbn [set_peers set_node nn_peers set_seen set_scorer pb_scorer].
  unfold record_bad. rewrite lookup_insert_eq. cbn [from_option score].
  by destruct (pb_scorer (nn_peers n) !! peer).
Qed.
End lemmas.

(** ** Witnesses *)

Section witnesses.
Import Demo.
#[local] Existing Instances demo_sort demo_codec demo_legacy demo_set_order demo_snapshot_codec.

Program Definition demo_tip_order : TipOrder := {| tip_order m := (map_to_list m).*2 |}.
Next Obligation. done. Qed.
Definition demo_net_codec : NetworkCodec := {| codec_vote := no_ser _; codec_vote_de := no_de _ |}.
#[local] Existing Instances demo_tip_order demo_net_codec.

(** Two validators at genesis, on a network where everything is sent. *)
Definition demo_net (c : Blockchain) (k : Z) (name : PeerId) : NetNode DemoDb :=
  mkNet (mkNode c None Sync None 0) name (Some (demo_keypair k)) 0 [] [] ∅ sync_new
    (mkBook ∅ ∅ ∅ ∅ 0).
Definition demo_env (instant : Z) : Env := mkEnv (secs instant) (t0 + instant) (λ _, true) 1.
Definition demo_pair : list (NetNode DemoDb) := [demo_net demo_root 1 "one"; demo_net demo_root 2 "two"].
Definition demo_hash0 : bytes := from_option block_hash [] (head (bc_blocks demo_root)).
Definition demo_h0 : Z := saturating_sub (Z.of_nat (length (bc_blocks demo_root))) 1.
Definition demo_version : Z := protocol_version_at_height (bc_params demo_root) demo_h0.
Definition demo_bogus : NetworkMessage :=
  bogus_announce (replicate 32 x2a) 1000 demo_hash0 "anyone" demo_version.
Definition demo_do (instant : Z) (ev : NetEvent) (n : NetNode DemoDb) : NetNode DemoDb :=
  default n (net_step (demo_env instant) ev n).
Definition demo_hear (n : NetNode DemoDb) : NetNode DemoDb :=
  demo_do 100 (MessageReceived (Some "mallory") (Some demo_bogus)) n.

(** Without the announcement one of the two would have produced the first block. *)
Lemma demo_attack_ok :
  (demo_h0 <? 1000) && forallb (λ n, is_some (net_step (demo_env 100)
      (MessageReceived (Some "mallory") (Some demo_bogus)) n)) demo_pair &&
  forallb (λ n, is_some (net_step (demo_env 200) BlockTick (demo_hear n))) demo_pair &&
  existsb (λ n, bool_decide (length (bc_blocks (nn_chain (demo_do 200 BlockTick n))) = 2%nat)) demo_pair &&
  true && true && true && true = true.
Proof. vm_compute. exact eq_refl. Qed.

Lemma demo_net_idle c k name h :
  idle (bc_blocks c) (demo_net c k name) ∧
  protocol_version_at_height (bc_params (nn_chain (demo_net c k name))) h =
    protocol_version_at_height (bc_params c) h.
Proof. by split. Qed.

Lemma announce_halts_network_witness :
  ∃ ns2, ns2 = demo_do 200 BlockTick <$> (demo_hear <$> demo_pair) ∧
    Forall (λ n, bc_blocks (nn_chain n) = bc_blocks demo_root) ns2 ∧
    ∃ n, n ∈ demo_pair ∧ length (bc_blocks (nn_chain (demo_do 200 BlockTick n))) = 2%nat.
Proof.
  destruct (andb8 _ _ _ _ _ _ _ _ demo_attack_ok) as (Hlt&Hhear&Htick&Hrise&_).
  eexists. split; [reflexivity|]. split.
  2: { apply existsb_exists in Hrise as (n&Hn&Hb). exists n.
       exact (conj (proj2 (list_elem_of_In demo_pair n) Hn) (proj1 (bool_decide_eq_true _) Hb)). }
  refine (proj2 (announce_halts_network (bc_blocks demo_root) demo_h0 1000 demo_version (replicate 32 x2a)
    "anyone" demo_pair (demo_hear <$> demo_pair) _ eq_refl (conj (proj1 (Z.ltb_lt _ _) Hlt) _) eq_refl _ _ _ _)).
  - u64_lia.
  - intros m m'. unfold bounded_deserialize. simpl. discriminate.
  - exact (Forall_cons_2 _ _ _ (demo_net_idle demo_root 1 "one" demo_h0)
      (Forall_cons_2 _ _ _ (demo_net_idle demo_root 2 "two" demo_h0) (Forall_nil_2 _))).
  - assert (∀ n, n ∈ demo_pair → hears demo_bogus n (demo_hear n)) as Hh.
    { intros n Hn. exists (demo_env 100), "mallory". apply list_elem_of_In in Hn.
      pose proof (proj1 (forallb_forall _ _) Hhear n Hn) as Hok.
      split; [|split; [|exact (is_some_default _ n Hok)]]; destruct Hn as [<-|[<-|[]]]; exact eq_refl. }
    exact (Forall2_cons_2 _ _ _ _ _ _ _ (Hh _ (list_elem_of_here _ _))
      (Forall2_cons_2 _ _ _ _ _ _ _ (Hh _ (list_elem_of_further _ _ _ (list_elem_of_here _ _))) (Forall2_nil_2 _ _ _))).
  - assert (∀ n, n ∈ demo_pair → net_step (demo_env 200) BlockTick (demo_hear n) =
      Some (demo_do 200 BlockTick (demo_hear n))) as Ht.
    { intros n Hn. apply list_elem_of_In in Hn.
      exact (is_some_default _ (demo_hear n) (proj1 (forallb_forall _ _) Htick n Hn)). }
    set (one := demo_hear (demo_net demo_root 1 "one")) in *.
    set (two := demo_hear (demo_net demo_root 2 "two")) in *.
    refine (rtc_l _ [one; two] [demo_do 200 BlockTick one; two] _
      (gossip_turn [one; two] 0 one (demo_env 200) BlockTick _ eq_refl
         (Ht _ (list_elem_of_here _ _)) _ _) _); [discriminate..|].
    refine (rtc_once [demo_do 200 BlockTick one; two] [demo_do 200 BlockTick one; demo_do 200 BlockTick two]
      (gossip_turn [demo_do 200 BlockTick one; two] 1 two (demo_env 200) BlockTick _ eq_refl
         (Ht _ (list_elem_of_further _ _ _ (list_elem_of_here _ _))) _ _)); discriminate.
Defined.
End witnesses.
