(* ===== verification/BlockSync.v ===== *)
(** * Block synchronisation

    The exchange of [RequestBlocks] and [BlockResponse] between two nodes of
    [Network], round by round: the node that is behind ends with the blocks and the
    ledger of the other. *)
From S2P Require Import Prelude Hash Crypto Vm Transaction Token Governance Block Account.
From S2P Require Import Validators Slashing Finality Settlement BlockStore BlockTree Trie StateRoot.
From S2P Require Import Chain Storage Apply Ledger AddBlock ChainSafety Mempool MempoolSafety ForkChoice.
From S2P Require Import ForkChoiceSafety Persistence PersistenceSafety WorkerSafety StateSync StateSyncSafety.
From S2P Require Import Peers Network NetworkSafety.

Section chains.
Context `{Sha3} `{MlDsa} `{EvmEngine} `{WasmEngine} `{HashOrder} `{HexDecode}
  `{!Bincode SignableTransaction}
  `{!Bincode BlockHeader} `{!Bincode ProposalKind} `{!BincodeAccountLeaf} `{!BincodeStorageLeaf}
  `{!BincodeContractLeaf} `{!Json DeployTokenParams} `{!Json TokenTransferParams}
  `{!Json TokenApproveParams} `{!Json TokenTransferFromParams} `{!Json SubmitProposalParams}
  `{!Json GovernanceVoteParams}.

(** ** Lemmas: chains grown from one genesis *)

Lemma grown_mono g limit limit' c : limit ≤ limit' → grown g limit c → grown g limit' c.
Proof.
  intros Hle. induction 1 as [c Hc|c now b c' _ IH Hn Hlim Ha|c c' _ IH Hl Eb].
  - by apply grown_genesis.
  - apply (grown_block _ _ c now b c' IH); [lia|done..].
  - by eapply grown_other.
Qed.

(** The blocks determine the ledger. *)
Lemma grown_same_ledger g l1 l2 c1 c2 :
  grown g l1 c1 → grown g l2 c2 → bc_blocks c1 = bc_blocks c2 → same_ledger c1 c2.
Proof.
  intros G1 G2 Eb. apply (grown_mono _ _ (Z.max l1 l2) _ (Z.le_max_l _ _)) in G1.
  apply (grown_mono _ _ (Z.max l1 l2) _ (Z.le_max_r _ _)) in G2.
  destruct (grown_params _ _ _ G1) as [P1 S1]. destruct (grown_params _ _ _ G2) as [P2 S2].
  destruct (grown_rebuilds _ _ _ c1 G1 eq_refl eq_refl S1) as (d1&R1&L1&_).
  destruct (grown_rebuilds _ _ _ c1 G2 ltac:(congruence) Eb S1) as (d2&R2&L2&_).
  assert (d1 = d2) as -> by congruence. eapply same_ledger_trans; [exact L1|by apply same_ledger_sym].
Qed.

Lemma add_blocks_grown g limit l c r :
  grown g limit c → block_count c + Z.of_nat (length l) ≤ u64_max →
  add_blocks limit l c = (Ok (), r) → grown g limit r ∧ bc_blocks r = bc_blocks c ++ l.
Proof.
  revert c. induction l as [|b l IH]; intros c Hg Hlim Ha; cbn [add_blocks] in Ha.
  { injection Ha as <-. by rewrite app_nil_r. }
  apply st_bind_Ok in Ha as ([]&c1&Hb&Ha). simpl in Hlim.
  destruct (add_block_appends _ _ _ _ _ (grown_linked _ _ _ Hg) ltac:(lia) Hb) as (Eb&_).
  assert (grown g limit c1) as Hg1 by (apply (grown_block _ _ c limit b c1 Hg); [lia|lia|exact Hb]).
  destruct (IH c1 Hg1) as [Hr Er]; [|done|].
  - unfold block_count in *. rewrite Eb, length_app. simpl. lia.
  - split; [done|]. by rewrite Er, Eb, <- app_assoc.
Qed.

Lemma add_blocks_app now l1 l2 c u r :
  add_blocks now (l1 ++ l2) c = (Ok u, r) →
  ∃ r1, add_blocks now l1 c = (Ok (), r1) ∧ add_blocks now l2 r1 = (Ok u, r).
Proof.
  revert c. induction l1 as [|b l1 IH]; intros c Ha; [by exists c|]. cbn [add_blocks app] in *.
  apply st_bind_Ok in Ha as ([]&c1&Hb&Ha). destruct (IH c1 Ha) as (r1&Hr1&Hr). exists r1.
  split; [|done]. unfold mbind, stM_bind. by rewrite Hb.
Qed.

(** A chain that is a prefix of another accepts its next block. *)
Lemma grown_next g limit limit' now cb c b l :
  grown g limit cb → grown g limit' c → block_count cb ≤ u64_max → limit ≤ now ≤ limit' →
  bc_blocks cb = bc_blocks c ++ b :: l →
  ∃ c', add_block now b c = (Ok (), c') ∧ grown g limit' c' ∧ bc_blocks c' = bc_blocks c ++ [b] ∧
    height (header b) = block_count c.
Proof.
  intros Hb Hc Hlim Hnow E. destruct (grown_resyncs _ _ _ Hb) as (g0&Hg0&r&Hr&_&_).
  destruct (from_genesis_blocks g g0 Hg0) as (Eg0&_).
  destruct (grown_replays _ _ _ Hc) as [_ (b0&Hb0&Hl0)]. specialize (Hl0 _ Hg0). subst b0.
  destruct (bc_blocks c) as [|x lc] eqn:Ec; [done|]. injection Hb0 as ->.
  rewrite E in Hr. cbn [app tail] in Hr. apply add_blocks_app in Hr as (r1&Hr1&Hr).
  cbn [add_blocks] in Hr. apply st_bind_Ok in Hr as ([]&r2&Hr2&_).
  assert (block_count cb = Z.of_nat (length lc) + 2 + Z.of_nat (length l)) as Hcount
    by (unfold block_count; rewrite E; simpl; rewrite length_app; simpl; lia).
  destruct (add_blocks_grown g limit lc g0 r1 (grown_genesis _ _ _ Hg0)) as [Hgr1 Er1];
    [unfold block_count; rewrite Eg0; simpl; lia|exact Hr1|].
  rewrite Eg0 in Er1. simpl in Er1.
  assert (bc_blocks r1 = bc_blocks c) as Erc by congruence.
  assert (block_count r1 = Z.of_nat (length lc) + 1) as Hn by (unfold block_count; rewrite Er1; simpl; lia).
  destruct (add_block_agrees limit now b r1 r2 c) as (c'&Ha&_&_).
  - by eapply grown_linked.
  - lia.
  - lia.
  - exact Hr2.
  - by eapply grown_same_ledger.
  - by symmetry.
  - assert (block_count c < u64_max) as Hcl by (unfold block_count in *; rewrite <- Erc; lia).
    destruct (add_block_appends _ _ _ _ _ (grown_linked _ _ _ Hc) Hcl Ha) as (Eb&Eh&_).
    exists c'. rewrite <- Ec. split_and!; [exact Ha| |done|done].
    apply (grown_block _ _ c now b c' Hc); [lia|done|exact Ha].
Qed.
End chains.

Section exchange.
Context `{Sha3} `{MlDsa} `{EvmEngine} `{WasmEngine} `{HashOrder} `{HexDecode} `{SetOrder}
  `{!Bincode SignableTransaction}
  `{!Bincode BlockHeader} `{!Bincode ProposalKind} `{!BincodeAccountLeaf} `{!BincodeStorageLeaf}
  `{!BincodeContractLeaf} `{!Json DeployTokenParams} `{!Json TokenTransferParams}
  `{!Json TokenApproveParams} `{!Json TokenTransferFromParams} `{!Json SubmitProposalParams}
  `{!Json GovernanceVoteParams} `{!RustSort}
  {D : Type} `{!Redb D} `{!StorageCodec} `{!LegacyCodec} `{!SnapshotCodec} `{!NetworkCodec} `{!TipOrder}
  (Hstorage : never_fails (D:=D)).

(** ** One block *)

Lemma node_add_block_run now b (nd : Node D) c' :
  add_block now b (nd_chain nd) = (Ok (), c') →
  ∃ nd', node_add_block now b nd = (Ok (), nd') ∧ nd_chain nd' = c'.
Proof.
  intros Ha. unfold node_add_block, on_chain, mbind, stM_bind. rewrite Ha.
  assert (∃ nd1, persist_added_block b (set_chain c' nd) = (Ok (), nd1) ∧ nd_chain nd1 = c')
    as (nd1&->&E1).
  { unfold persist_added_block, st_get, mbind, stM_bind, on_storage, db_put_block. simpl.
    destruct (nd_mode nd); [|by eexists]. simpl. destruct (nd_storage nd) as [d|]; [|by eexists].
    destruct (write_transaction _ d) as [r d'] eqn:Hw.
    rewrite (never_fails_Ok _ _ _ _ Hstorage Hw). by eexists. }
  simpl. case_match; [|by exists nd1].
  pose proof (persist_full_state_chain nd1) as E2. destruct (persist_full_state nd1) as [r nd2] eqn:Hp.
  simpl in E2. exists nd2. split; [|congruence].
  unfold persist_full_state, st_get, mbind, stM_bind in Hp. destruct (nd_storage nd1) as [d|] eqn:Hs.
  - destruct (nd_mode nd1); [|by injection Hp as <- _]. unfold on_storage in Hp. rewrite Hs in Hp.
    rewrite (write_full_never_fails _ d Hstorage) in Hp. by injection Hp as <- _.
  - by injection Hp as <- _.
Qed.

(** ** One response *)

(** The blocks above a node's chain, handed to it in order. *)
Lemma response_loop_run g limit limit' now cb l rest nd acc sk :
  grown g limit cb → block_count cb ≤ u64_max → limit ≤ now ≤ limit' →
  Forall (λ b, bounded_deserialize (bincode_serialize b) = Some b) l →
  grown g limit' (nd_chain nd) → bc_blocks cb = bc_blocks (nd_chain nd) ++ l ++ rest →
  ∃ nd', response_loop now (bincode_serialize <$> l) acc sk nd = (acc + Z.of_nat (length l), sk, nd') ∧
    grown g limit' (nd_chain nd') ∧ bc_blocks (nd_chain nd') = bc_blocks (nd_chain nd) ++ l.
Proof.
  intros Hb Hlim Hnow Hl. revert nd acc. induction Hl as [|b l Hd _ IH]; intros nd acc Ha E.
  { exists nd. simpl. rewrite Z.add_0_r, app_nil_r. done. }
  destruct (grown_next g limit limit' now cb (nd_chain nd) b (l ++ rest) Hb Ha Hlim Hnow E)
    as (c'&Hadd&Hg'&Eb&Eh).
  destruct (node_add_block_run now b nd c' Hadd) as (nd1&Hrun&<-).
  destruct (IH nd1 (acc + 1) Hg') as (nd'&Hloop&Hgr&Er); [rewrite Eb, <- app_assoc; exact E|].
  assert (1 ≤ block_count (nd_chain nd)) as Hpos.
  { destruct (grown_linked _ _ _ Ha) as [Hne _]. unfold block_count.
    assert (length (bc_blocks (nd_chain nd)) ≠ 0%nat) by (by intros Hz%length_zero_iff_nil). lia. }
  assert (block_count (nd_chain nd) < block_count cb) as Hlt.
  { unfold block_count. rewrite E, !length_app. simpl. lia. }
  assert (chain_height (nd_chain nd) = block_count (nd_chain nd) - 1) as Ech
    by (unfold chain_height, saturating_sub; lia).
  exists nd'. split_and!; [|done|by rewrite Er, Eb, <- app_assoc].
  cbn [fmap list_fmap response_loop]. rewrite Hd, Eh, Ech. rewrite (proj2 (Z.leb_gt _ _)) by lia.
  rewrite add64_exact by lia. rewrite Z.sub_add, Z.eqb_refl. cbn [negb].
  rewrite Hrun, Hloop. simpl length. do 2 f_equal. lia.
Qed.

(** What the other node sends: the next fifty blocks. *)
Lemma batch_next (b : NetNode D) k :
  block_count (nn_chain b) ≤ u64_max → (0 < k)%nat → chain_base_height (nn_node b) ≤ Z.of_nat k →
  batch (Z.of_nat k) b = take 50 (drop k (bc_blocks (nn_chain b))).
Proof.
  intros Hlim Hk Hbase. unfold batch. set (l := bc_blocks (nn_chain b)) in *.
  assert (chain_height (nn_chain b) = Z.max 0 (Z.of_nat (length l) - 1)) as Hch
    by (unfold chain_height, block_count, saturating_sub; fold l; lia).
  assert (∀ m, omap (λ h, node_block_at h b) (seqZ (Z.of_nat k) (Z.of_nat m)) = take m (drop k l)) as Hseq.
  { intros m. unfold seqZ. rewrite Nat2Z.id. revert k Hk Hbase. induction m as [|m IH]; intros k Hk Hbase; [done|].
    cbn [seq fmap list_fmap omap list_omap]. rewrite <- fmap_S_seq, <- list_fmap_compose.
    assert (((λ i, Z.of_nat i + Z.of_nat k) ∘ S) <$> seq 0 m = (λ i, Z.of_nat i + Z.of_nat (S k)) <$> seq 0 m) as ->
      by (apply list_fmap_ext; intros; simpl; lia).
    change (omap ?f (?x :: ?y)) with (match f x with Some z => z :: omap f y | None => omap f y end).
    rewrite IH by lia.
    assert (node_block_at (Z.of_nat 0 + Z.of_nat k) b = l !! k) as ->.
    { unfold node_block_at, block_at_height. rewrite (proj2 (Z.ltb_ge _ (chain_base_height _))) by lia.
      rewrite andb_false_r, (proj2 (Z.ltb_ge _ 0)) by lia. by replace (Z.to_nat _) with k by lia. }
    destruct (l !! k) as [x|] eqn:Ex; [by rewrite (drop_S _ _ _ Ex)|].
    apply lookup_ge_None in Ex. by rewrite !drop_ge, !take_nil by lia. }
  unfold SYNC_BATCH_SIZE. rewrite Hch.
  destruct (decide (k < length l)%nat) as [Hlt|Hge].
  - replace (Z.min _ _ + 1 - _) with (Z.of_nat (Nat.min 50 (length l - k))) by lia.
    rewrite Hseq, <- (length_drop l k). destruct (decide (50 ≤ length (drop k l))%nat) as [|Hs].
    + by rewrite Nat.min_l.
    + by rewrite Nat.min_r, take_ge, take_ge by lia.
  - rewrite drop_ge by lia. unfold seqZ. by replace (Z.to_nat _) with 0%nat by lia.
Qed.

(** ** Rounds *)

(** The node that is behind asks for the blocks above its tip; what the other sends
    comes back to it. *)
Definition sync_round (envs : Env * Env) (ab : NetNode D * NetNode D) : option (NetNode D * NetNode D) :=
  let '(a, b) := ab in
  b' ← dispatch envs.2 None (request_blocks (add64 (chain_height (nn_chain a)) 1) a) b;
  a' ← foldl (λ a msg, a ← a; dispatch envs.1 None msg a) (Some a) (drop (length (nn_sent b)) (nn_sent b'));
  Some (a', b').

Fixpoint sync_rounds (envs : list (Env * Env)) (ab : NetNode D * NetNode D) : option (NetNode D * NetNode D) :=
  match envs with
  | [] => Some ab
  | e :: envs => ab ← sync_round e ab; sync_rounds envs ab
  end.

Section rounds.
Context (g : GenesisConfig) (limit limit' : Z) (b0 : NetNode D)
  (Hb : grown g limit (nn_chain b0)) (Hlim : block_count (nn_chain b0) ≤ u64_max)
  (Hbase : chain_base_height (nn_node b0) ≤ 1)
  (Hcodec : Forall (λ b, bounded_deserialize (bincode_serialize b) = Some b) (bc_blocks (nn_chain b0))).

(** A node behind [b0], on the same chain. *)
Definition behind (a : NetNode D) : Prop :=
  grown g limit' (nn_chain a) ∧ bc_blocks (nn_chain a) `prefix_of` bc_blocks (nn_chain b0).

Definition good_envs (envs : Env * Env) : Prop :=
  limit ≤ env_unix envs.1 ≤ limit' ∧ ∀ msg, env_publish envs.2 msg = true.

Lemma behind_facts a : behind a →
  ∃ k, length (bc_blocks (nn_chain a)) = S k ∧ chain_height (nn_chain a) = Z.of_nat k ∧
    (S k ≤ length (bc_blocks (nn_chain b0)))%nat ∧ genesis_hash (nn_chain a) = genesis_hash (nn_chain b0) ∧
    bc_blocks (nn_chain b0) !! k = Some (latest_block (nn_chain a)) ∧
    bc_blocks (nn_chain b0) = bc_blocks (nn_chain a) ++ drop (S k) (bc_blocks (nn_chain b0)).
Proof.
  intros [Ha Hp]. pose proof (grown_linked _ _ _ Ha) as Hl.
  destruct (chain_linked_latest _ Hl) as [_ Hlast]. destruct Hl as [Hne _].
  exists (pred (length (bc_blocks (nn_chain a)))).
  assert (length (bc_blocks (nn_chain a)) ≠ 0%nat) as Hz by (by intros Hz%length_zero_iff_nil).
  pose proof (prefix_length _ _ Hp). rewrite last_lookup in Hlast. split_and!; try lia.
  - unfold chain_height, block_count, saturating_sub. lia.
  - unfold genesis_hash. destruct Hp as [l ->]. by destruct (bc_blocks (nn_chain a)).
  - by eapply prefix_lookup_Some.
  - destruct Hp as [l E]. rewrite E at 2. rewrite Nat.succ_pred by done. by rewrite drop_app_length.
Qed.

Lemma sync_round_advances envs a b :
  behind a → nn_node b = nn_node b0 → good_envs envs →
  ∃ a' b', sync_round envs (a, b) = Some (a', b') ∧ behind a' ∧ nn_node b' = nn_node b0 ∧
    length (bc_blocks (nn_chain a')) =
      Nat.min (length (bc_blocks (nn_chain a)) + 50) (length (bc_blocks (nn_chain b0))).
Proof.
  intros Hbe Eb [Hnow Hpub]. destruct (behind_facts a Hbe) as (k&Elen&Ech&Hle&Eg&Ela&Eapp).
  destruct Hbe as [Ha Hp]. assert (nn_chain b = nn_chain b0) as Ebc by (unfold nn_chain; by rewrite Eb).
  unfold block_count in Hlim.
  unfold sync_round. cbn [dispatch request_blocks mbind option_bind]. unfold handle_block_request.
  rewrite Ebc, Eg, bool_decide_eq_true_2 by done. cbn [negb]. rewrite Ech, add64_exact by u64_lia.
  destruct (decide (S k = length (bc_blocks (nn_chain b0)))) as [Heq|Hne].
  { assert ((chain_height (nn_chain b0) <? Z.of_nat k + 1) = true) as ->.
    { apply Z.ltb_lt. unfold chain_height, block_count, saturating_sub. lia. }
    rewrite drop_ge by done. exists a, b. split_and!; [done|done|done|lia]. }
  assert ((chain_height (nn_chain b0) <? Z.of_nat k + 1) = false) as ->.
  { apply Z.ltb_ge. unfold chain_height, block_count, saturating_sub. lia. }
  assert ((0 <? Z.of_nat k + 1) && from_option (λ x, negb (bool_decide (block_hash x =
    block_hash (latest_block (nn_chain a))))) false (node_block_at (Z.of_nat k + 1 - 1) b) = false) as ->.
  { apply andb_false_iff. right. rewrite Z.add_simpl_r. unfold node_block_at, block_at_height. rewrite Ebc.
    case_match; [done|]. rewrite (proj2 (Z.ltb_ge _ 0)) by lia. rewrite Nat2Z.id, Ela. simpl.
    by rewrite bool_decide_eq_true_2. }
  replace (Z.of_nat k + 1) with (Z.of_nat (S k)) by lia. unfold chain_base_height in Hbase.
  rewrite (batch_next b (S k)) by (unfold block_count, chain_base_height; rewrite ?Ebc, ?Eb; lia). rewrite Ebc.
  set (rest := drop (S k) (bc_blocks (nn_chain b0))) in *.
  assert (rest ≠ []) as Hrest.
  { intros E. apply (f_equal length) in E. subst rest. rewrite length_drop in E. simpl in E. lia. }
  destruct (take 50 rest) as [|x l] eqn:Et; [by destruct rest|]. rewrite <- Et.
  unfold emit. rewrite Hpub. cbn [set_out nn_sent]. rewrite drop_app_length. cbn [foldl mbind option_bind dispatch].
  rewrite bool_decide_eq_true_2 by done. unfold handle_block_response.
  rewrite Eg, bool_decide_eq_true_2 by done. cbn [negb].
  assert ((saturating_add (chain_height (nn_chain a)) 1 <? Z.of_nat (S k)) = false) as ->.
  { apply Z.ltb_ge. rewrite Ech. unfold saturating_add. u64_lia. }
  destruct (response_loop_run g limit limit' (env_unix envs.1) (nn_chain b0) (take 50 rest) (drop 50 rest)
    (nn_node a) 0 0 Hb Hlim Hnow) as (nd'&Hloop&Hgr&Er).
  { apply Forall_take, Forall_drop, Hcodec. }
  { exact Ha. }
  { rewrite take_drop. exact Eapp. }
  rewrite Hloop. assert ((0 <? 0 + Z.of_nat (length (take 50 rest))) = true) as ->
    by (rewrite Et; apply Z.ltb_lt; simpl; lia).
  eexists _, _. split; [reflexivity|]. split_and!.
  - split; [exact Hgr|]. change (bc_blocks (nd_chain nd') `prefix_of` bc_blocks (nn_chain b0)). rewrite Er, Eapp.
    fold (nn_chain a). apply prefix_app. exists (drop 50 rest). by rewrite take_drop.
  - exact Eb.
  - change (length (bc_blocks (nd_chain nd')) = Nat.min (length (bc_blocks (nn_chain a)) + 50)
      (length (bc_blocks (nn_chain b0)))). rewrite Er. fold (nn_chain a).
    rewrite length_app, length_take. subst rest. rewrite length_drop. lia.
Qed.

Lemma sync_rounds_advance envs a b :
  behind a → nn_node b = nn_node b0 → Forall good_envs envs →
  ∃ a' b', sync_rounds envs (a, b) = Some (a', b') ∧ behind a' ∧ nn_node b' = nn_node b0 ∧
    length (bc_blocks (nn_chain a')) =
      Nat.min (length (bc_blocks (nn_chain a)) + 50 * length envs) (length (bc_blocks (nn_chain b0))).
Proof.
  intros Ha Hbb He. revert a b Ha Hbb. induction He as [|e envs He _ IH]; intros a b Ha Hbb.
  { exists a, b. split_and!; [done..|]. destruct Ha as [_ Hp%prefix_length]. simpl. lia. }
  destruct (sync_round_advances e a b Ha Hbb He) as (a1&b1&Hr&Ha1&Hb1&E1).
  destruct (IH a1 b1 Ha1 Hb1) as (a'&b'&Hrs&Ha'&Hb'&E').
  exists a', b'. split_and!; [|done..|]; [cbn [sync_rounds]; by rewrite Hr|]. simpl length. lia.
Qed.
End rounds.

(** C4: synchronisation converges. A node whose blocks are the first blocks of
    another's chain asks it for the blocks above its tip, again after every answer.
    After enough rounds - one per fifty blocks - it has all blocks of the other, and
    its accounts, contracts, receipts, tokens, proposals, validator snapshots and
    missed epochs, if databases take writes, the other does not prune, and blocks
    are decoded from their encodings within the limit for messages. *)
Theorem block_sync_converges (g : GenesisConfig) (limit limit' : Z) (a b : NetNode D) (envs : list (Env * Env)) :
  grown g limit (nn_chain b) → block_count (nn_chain b) ≤ u64_max → chain_base_height (nn_node b) ≤ 1 →
  Forall (λ x, bounded_deserialize (bincode_serialize x) = Some x) (bc_blocks (nn_chain b)) →
  grown g limit' (nn_chain a) → bc_blocks (nn_chain a) `prefix_of` bc_blocks (nn_chain b) →
  Forall (good_envs limit limit') envs →
  (length (bc_blocks (nn_chain b)) ≤ length (bc_blocks (nn_chain a)) + 50 * length envs)%nat →
  ∃ a' b', sync_rounds envs (a, b) = Some (a', b') ∧ nn_node b' = nn_node b ∧
    bc_blocks (nn_chain a') = bc_blocks (nn_chain b) ∧ same_ledger (nn_chain b) (nn_chain a').
Proof.
  intros Hb Hlim Hbase Hcodec Ha Hp He Hlen.
  destruct (sync_rounds_advance g limit limit' b Hb Hlim Hbase Hcodec envs a b (conj Ha Hp) eq_refl He)
    as (a'&b'&Hr&[Ha' [l El]]&Eb&E).
  assert (bc_blocks (nn_chain a') = bc_blocks (nn_chain b)) as Eab.
  { apply (f_equal length) in El as El'. rewrite length_app in El'.
    assert (l = []) as -> by (apply length_zero_iff_nil; lia). by rewrite app_nil_r in El. }
  exists a', b'. split_and!; [done..|]. by eapply grown_same_ledger.
Qed.
End exchange.

(** ** Witness *)

Section witness.
Import Demo.
#[local] Existing Instances demo_sort demo_codec demo_legacy demo_set_order demo_snapshot_codec
  demo_tip_order demo_net_codec.

Lemma demo_sync_ok :
  forallb (λ x, bool_decide (bounded_deserialize (bincode_serialize x) = Some x)) (bc_blocks demo_c1) &&
  bool_decide (bc_blocks demo_root `prefix_of` bc_blocks demo_c1) &&
  (block_count demo_c1 =? 2) && (block_count demo_root =? 1) && true && true && true && true = true.
Proof. vm_compute. exact eq_refl. Qed.

(** A node at genesis asks one with a block. *)
Lemma block_sync_converges_witness :
  ∃ a' b', sync_rounds [(demo_env 50, demo_env 50)]
      (demo_net demo_root 1 "one", demo_net demo_c1 2 "two") = Some (a', b') ∧
    bc_blocks (nn_chain a') = bc_blocks demo_c1 ∧ bc_state (nn_chain a') = bc_state demo_c1.
Proof.
  destruct (andb8 _ _ _ _ _ _ _ _ demo_sync_ok) as (Hc&Hp&Hn1&Hn0&_).
  apply Z.eqb_eq in Hn1, Hn0.
  destruct (block_sync_converges demo_redb_never_fails (demo_two 5000) (t0 + 10) (t0 + 100)
    (demo_net demo_root 1 "one") (demo_net demo_c1 2 "two") [(demo_env 50, demo_env 50)])
    as (a'&b'&Hr&_&Eb&(_&Es&_)).
  - exact demo_grown.
  - change (block_count demo_c1 ≤ u64_max). rewrite Hn1. u64_lia.
  - exact (Z.le_0_1).
  - change (Forall (λ x, bounded_deserialize (bincode_serialize x) = Some x) (bc_blocks demo_c1)).
    apply Forall_forall. intros x Hx%list_elem_of_In.
    exact (proj1 (bool_decide_eq_true _) (proj1 (forallb_forall _ _) Hc x Hx)).
  - exact (grown_genesis _ _ demo_root demo_root_run).
  - exact (proj1 (bool_decide_eq_true _) Hp).
  - apply Forall_singleton. split; [unfold demo_env, t0; simpl; lia|done].
  - unfold block_count in Hn1, Hn0.
    change (length (bc_blocks demo_c1) ≤ length (bc_blocks demo_root) + 50)%nat. lia.
  - exists a', b'. exact (conj Hr (conj Eb Es)).
Defined.
End witness.
