(* ===== verification/SnapshotSession.v ===== *)
(** * Snapshot sessions

    A manifest and its chunks arrive over gossip in any order; the receiver of
    [Network] puts the chunks back in order and applies the snapshot once. *)
From S2P Require Import Prelude Hash Crypto Vm Transaction Token Governance Block Account.
From S2P Require Import Validators Slashing Finality Settlement BlockStore BlockTree Trie StateRoot.
From S2P Require Import Chain Storage Apply Ledger AddBlock ChainSafety Mempool MempoolSafety ForkChoice.
From S2P Require Import ForkChoiceSafety Persistence PersistenceSafety StateSync StateSyncSafety.
From S2P Require Import Peers Network NetworkSafety.

(** ** Lemmas: chunks by index *)

Definition chunk_map (l : list StateChunk) : gmap nat StateChunk :=
  list_to_map ((λ ch, (ch_index ch, ch)) <$> l).
Definition buffer_map (h : Z) (l : list StateChunk) : gmap (Z * nat) StateChunk :=
  list_to_map ((λ ch, ((h, ch_index ch), ch)) <$> l).

Definition total_bytes (l : list StateChunk) : Z :=
  foldr Z.add 0 ((λ ch, Z.of_nat (length (ch_data ch))) <$> l).

Lemma keys_fmap {A} (f : StateChunk → A) l : ((λ ch, (f ch, ch)) <$> l).*1 = f <$> l.
Proof. rewrite <- list_fmap_compose. by apply list_fmap_ext. Qed.

Lemma chunk_map_lookup l ch : NoDup (ch_index <$> l) → ch ∈ l → chunk_map l !! ch_index ch = Some ch.
Proof.
  intros Hnd Hch. apply elem_of_list_to_map_1; [by rewrite keys_fmap|].
  apply list_elem_of_fmap. by exists ch.
Qed.

Lemma chunk_map_size l : NoDup (ch_index <$> l) → size (chunk_map l) = length l.
Proof.
  intros Hnd. unfold chunk_map. rewrite <- (length_map_to_list (list_to_map _)), map_to_list_to_map
    by by rewrite keys_fmap. by rewrite length_fmap.
Qed.

Lemma buffer_keys_NoDup (h : Z) l : NoDup (ch_index <$> l) → NoDup (((λ ch, ((h, ch_index ch), ch)) <$> l).*1).
Proof.
  intros Hnd. rewrite keys_fmap. change (λ ch, (h, ch_index ch)) with (@pair Z nat h ∘ ch_index).
  rewrite list_fmap_compose. by apply NoDup_fmap_2; [intros ??; by intros [=]|].
Qed.

Lemma buffer_map_list (h : Z) l : NoDup (ch_index <$> l) →
  map_to_list (buffer_map h l) ≡ₚ (λ ch, ((h, ch_index ch), ch)) <$> l.
Proof. intros Hnd. by apply map_to_list_to_map, buffer_keys_NoDup. Qed.

Lemma buffer_map_size (h : Z) l : NoDup (ch_index <$> l) → size (buffer_map h l) = length l.
Proof.
  intros Hnd. rewrite <- (length_map_to_list (buffer_map h l)), (buffer_map_list h l Hnd). by rewrite length_fmap.
Qed.

Lemma foldr_add_perm l l' : l ≡ₚ l' → foldr Z.add 0 l = foldr Z.add 0 l'.
Proof. induction 1; simpl; lia. Qed.

Lemma buffer_bytes h l : NoDup (ch_index <$> l) → buffered_bytes (buffer_map h l) = total_bytes l.
Proof.
  intros Hnd. unfold buffered_bytes, total_bytes. apply foldr_add_perm.
  by rewrite (buffer_map_list h l Hnd), <- list_fmap_compose.
Qed.

Lemma total_bytes_app l l' : total_bytes (l ++ l') = total_bytes l + total_bytes l'.
Proof. unfold total_bytes. induction l as [|c l IH]; cbn [fmap list_fmap app foldr] in *; lia. Qed.

Lemma total_bytes_nonneg l : 0 ≤ total_bytes l.
Proof. unfold total_bytes. induction l as [|c l IH]; cbn [fmap list_fmap app foldr] in *; lia. Qed.

Lemma total_bytes_perm l l' : l ≡ₚ l' → total_bytes l = total_bytes l'.
Proof. intros Hp. unfold total_bytes. apply foldr_add_perm. by rewrite Hp. Qed.

(** Chunks that are all there come out in order. *)
Lemma assemble_all l i chunks ordered :
  (∀ k ch, l !! k = Some ch → chunks !! (i + k)%nat = Some ch) →
  ∃ rest, assemble (length l) i chunks ordered = (Some (ordered ++ l), rest).
Proof.
  revert i chunks ordered. induction l as [|ch l IH]; intros i chunks ordered Hl.
  { exists chunks. by rewrite app_nil_r. }
  cbn [length assemble]. pose proof (Hl 0%nat ch eq_refl) as H0. rewrite Nat.add_0_r in H0. rewrite H0.
  destruct (IH (S i) (delete i chunks) (ordered ++ [ch])) as [rest ->].
  { intros k c Hk. rewrite lookup_delete_ne by lia. specialize (Hl (S k) c Hk). by rewrite Nat.add_succ_r in Hl. }
  exists rest. by rewrite <- app_assoc.
Qed.

(** A loop of insertions, and the one that moves the buffered chunks. *)
Lemma foldl_insert (L : list ((Z * nat) * StateChunk)) (m : gmap nat StateChunk) :
  foldl (λ m kv, <[ch_index kv.2 := kv.2]> m) m L =
  list_to_map (reverse ((λ ch, (ch_index ch, ch)) <$> L.*2)) ∪ m.
Proof.
  revert m. induction L as [|kv L IH]; intros m; [simpl; by rewrite (left_id_L ∅ (∪))|].
  cbn [foldl fmap list_fmap]. rewrite IH, reverse_cons, list_to_map_app, <- (assoc_L (∪)).
  simpl. by rewrite <- insert_union_l, (left_id_L ∅ (∪)).
Qed.

Lemma drained_chunks (h : Z) l : NoDup (ch_index <$> l) →
  foldl (λ (m : gmap nat StateChunk) kv, <[ch_index kv.2 := kv.2]> m) ∅
    (filter (λ kv : (Z * nat) * StateChunk, kv.1.1 = h) (map_to_list (buffer_map h l))) = chunk_map l.
Proof.
  intros Hnd. rewrite foldl_insert, (right_id_L ∅ (∪)). unfold chunk_map. symmetry. apply list_to_map_proper.
  - by rewrite keys_fmap.
  - rewrite reverse_Permutation. apply fmap_Permutation.
    assert (filter (λ kv : (Z * nat) * StateChunk, kv.1.1 = h) (map_to_list (buffer_map h l)) ≡ₚ
      (λ ch, ((h, ch_index ch), ch)) <$> l) as ->.
    { rewrite (buffer_map_list h l Hnd). clear Hnd. induction l as [|ch l IH]; [done|].
      cbn [fmap list_fmap]. rewrite filter_cons_True by done. by constructor. }
    rewrite <- list_fmap_compose. by rewrite list_fmap_id.
Qed.

(** What is taken out is what was asked for. *)
Lemma assemble_rest n i chunks ordered r rest k :
  assemble n i chunks ordered = (r, rest) → (i + n ≤ k)%nat →
  rest !! k = chunks !! k ∧ (is_Some r → size chunks = n + size rest)%nat.
Proof.
  revert i chunks ordered. induction n as [|n IH]; intros i chunks ordered Ha Hk; cbn [assemble] in Ha.
  { by injection Ha as <- <-. }
  destruct (chunks !! i) as [ch|] eqn:Ei; [|injection Ha as <- <-; split; [done|by intros []]].
  destruct (IH _ _ _ Ha) as [El Hs]; [lia|]. rewrite lookup_delete_ne in El by lia. split; [done|].
  intros Hr. specialize (Hs Hr). rewrite map_size_delete_Some in Hs by done.
  assert (size chunks ≠ 0)%nat; [|lia]. intros Hz%map_size_empty_iff. by rewrite Hz, lookup_empty in Ei.
Qed.

Section session.
Context `{Sha3} `{MlDsa} `{EvmEngine} `{WasmEngine} `{HashOrder} `{HexDecode} `{SetOrder}
  `{!Bincode SignableTransaction}
  `{!Bincode BlockHeader} `{!Bincode ProposalKind} `{!BincodeAccountLeaf} `{!BincodeStorageLeaf}
  `{!BincodeContractLeaf} `{!Json DeployTokenParams} `{!Json TokenTransferParams}
  `{!Json TokenApproveParams} `{!Json TokenTransferFromParams} `{!Json SubmitProposalParams}
  `{!Json GovernanceVoteParams} `{!RustSort}
  {D : Type} `{!Redb D} `{!StorageCodec} `{!LegacyCodec} `{!SnapshotCodec} `{!NetworkCodec} `{!TipOrder}.

(** Messages from the network, with what the world shows at each. *)
Definition deliver (l : list (Env * NetworkMessage)) : list (Env * NetEvent) :=
  (λ em : Env * NetworkMessage, (em.1, MessageReceived None (Some em.2))) <$> l.

(** ** One session *)

Section run.
Context (manifest : SnapshotManifest) (chunks : list StateChunk) (nd : Node D) (me : PeerId)
  (Hindex : ch_index <$> chunks = seq 0 (length chunks))
  (Hcount : sm_chunk_count manifest = length chunks)
  (Hcap : (length chunks ≤ MAX_BUFFERED_PRE_MANIFEST_CHUNKS)%nat)
  (Hbytes : total_bytes chunks ≤ MAX_BUFFERED_PRE_MANIFEST_BYTES)
  (Hmanifest : bounded_deserialize (bincode_serialize manifest) = Some manifest)
  (Hchunks : Forall (λ ch, bounded_deserialize (bincode_serialize ch) = Some ch) chunks)
  (Hok : manifest_ok (nd_chain nd) manifest = true).

Definition chunk_message (ch : StateChunk) : NetworkMessage :=
  SnapshotChunkMessage me (sm_height manifest) (bincode_serialize ch).

(** The chunks [l] came, before the manifest or after it. *)
Definition waiting (l : list StateChunk) (n : NetNode D) : Prop :=
  nn_node n = nd ∧ nn_id n = me ∧ pending_snapshot_manifest (nn_sync n) = None ∧
  pre_manifest_chunk_buffer (nn_sync n) = buffer_map (sm_height manifest) l.
Definition collecting (l : list StateChunk) (n : NetNode D) : Prop :=
  nn_node n = nd ∧ nn_id n = me ∧ pending_snapshot_manifest (nn_sync n) = Some manifest ∧
  pending_snapshot_chunks (nn_sync n) = chunk_map l.
Definition applied (n : NetNode D) : Prop :=
  nn_node n = (apply_snapshot manifest chunks nd).2 ∧ pending_snapshot_manifest (nn_sync n) = None.

Lemma index_NoDup : NoDup (ch_index <$> chunks).
Proof. rewrite Hindex. apply NoDup_seq. Qed.

Lemma part_NoDup l rest : l ++ rest ≡ₚ chunks → NoDup (ch_index <$> l).
Proof.
  intros Hp. pose proof index_NoDup as Hnd. rewrite <- Hp, fmap_app in Hnd.
  by apply NoDup_app in Hnd as (?&_&_).
Qed.

(** The chunks are complete exactly at the end. *)
Lemma try_assemble_last env l n :
  l ≡ₚ chunks → collecting l n → applied (try_assemble env manifest n).
Proof.
  intros Hp (En&_&Em&Ec). unfold try_assemble. rewrite Ec.
  assert (NoDup (ch_index <$> l)) as Hnd by (apply (part_NoDup l []); by rewrite app_nil_r).
  rewrite (chunk_map_size l Hnd), Hcount, bool_decide_eq_true_2 by (by rewrite Hp).
  destruct (assemble_all chunks 0 (chunk_map l) []) as [rest ->].
  { intros k ch Hk. pose proof (f_equal (.!! k) Hindex) as Hi. rewrite list_lookup_fmap, Hk in Hi.
    pose proof (lookup_lt_Some _ _ _ Hk). rewrite lookup_seq_lt in Hi by done. injection Hi as Hi. simpl in Hi.
    simpl. rewrite <- Hi. apply chunk_map_lookup; [done|]. rewrite Hp. by eapply list_elem_of_lookup_2. }
  cbn [app]. unfold apply_assembled. cbn [set_sync nn_node]. rewrite En. unfold applied.
  destruct (apply_snapshot manifest chunks nd) as [[u|e] nd']; [|by split].
  by destruct (_ <? sm_tip_height manifest).
Qed.

Lemma try_assemble_early env l rest n :
  l ++ rest ≡ₚ chunks → rest ≠ [] → collecting l n → try_assemble env manifest n = n.
Proof.
  intros Hp Hr (_&_&_&Ec). unfold try_assemble.
  rewrite Ec, (chunk_map_size _ (part_NoDup l rest Hp)), Hcount, bool_decide_eq_false_2; [done|].
  rewrite <- Hp, length_app. destruct rest; [done|]. simpl. lia.
Qed.

Lemma timeout_keeps env (n : NetNode D) :
  let n' := check_sync_timeout env n in
  nn_node n' = nn_node n ∧ nn_id n' = nn_id n ∧
  pending_snapshot_manifest (nn_sync n') = pending_snapshot_manifest (nn_sync n) ∧
  pending_snapshot_chunks (nn_sync n') = pending_snapshot_chunks (nn_sync n) ∧
  pre_manifest_chunk_buffer (nn_sync n') = pre_manifest_chunk_buffer (nn_sync n).
Proof. unfold check_sync_timeout. by repeat case_match. Qed.

Lemma chunk_decodes ch l rest : l ++ ch :: rest ≡ₚ chunks → bounded_deserialize (bincode_serialize ch) = Some ch.
Proof.
  intros Hp. apply (proj1 (Forall_forall _ _) Hchunks). rewrite <- Hp. apply elem_of_app. right. by left.
Qed.

Lemma cons_perm (ch : StateChunk) l rest : l ++ ch :: rest ≡ₚ chunks → (ch :: l) ++ rest ≡ₚ chunks.
Proof. intros <-. simpl. by rewrite Permutation_middle. Qed.

(** A chunk before the manifest, and after it. *)
Lemma chunk_waits env ch l rest n :
  l ++ ch :: rest ≡ₚ chunks → waiting l n →
  ∃ n', net_step env (MessageReceived None (Some (chunk_message ch))) n = Some n' ∧ waiting (ch :: l) n'.
Proof.
  intros Hp (En&Ei&Em&Eb). unfold net_step. destruct (timeout_keeps env n) as (Tn&Ti&Tm&_&Tb).
  set (n1 := check_sync_timeout env n) in *. clearbody n1.
  eexists. split; [reflexivity|]. unfold handle_snapshot_chunk.
  rewrite Ti, Ei, bool_decide_eq_true_2 by done. cbn [negb]. rewrite (chunk_decodes _ _ _ Hp), Tm, Em, Tb, Eb.
  split_and!; [by rewrite <- Tn in En|cbn; congruence|done|]. cbn [set_sync set_session nn_sync pre_manifest_chunk_buffer].
  pose proof (part_NoDup _ _ Hp) as Hnd. unfold buffer_chunk.
  rewrite (buffer_bytes _ _ Hnd), (buffer_map_size _ _ Hnd).
  pose proof (Permutation_length Hp) as Hlen. rewrite length_app in Hlen. simpl in Hlen.
  rewrite bool_decide_eq_true_2 by lia.
  pose proof (total_bytes_perm _ _ Hp) as Ht. rewrite total_bytes_app in Ht.
  change (total_bytes (ch :: rest)) with (Z.of_nat (length (ch_data ch)) + total_bytes rest) in Ht.
  pose proof (total_bytes_nonneg rest). by rewrite (proj2 (Z.leb_le _ _)) by lia.
Qed.

(** What follows once the session holds the chunks [l]. *)
Lemma session_advances env l rest n :
  l ++ rest ≡ₚ chunks → collecting l n →
  if decide (rest = []) then applied (try_assemble env manifest n) else collecting l (try_assemble env manifest n).
Proof.
  intros Hp Hc. case_decide as Hr.
  - subst rest. rewrite app_nil_r in Hp. by eapply try_assemble_last.
  - by rewrite (try_assemble_early env l rest n Hp Hr Hc).
Qed.

Lemma chunk_joins env ch l rest n :
  l ++ ch :: rest ≡ₚ chunks → collecting l n →
  ∃ n', net_step env (MessageReceived None (Some (chunk_message ch))) n = Some n' ∧
    if decide (rest = []) then applied n' else collecting (ch :: l) n'.
Proof.
  intros Hp (En&Ei&Em&Ec). unfold net_step. destruct (timeout_keeps env n) as (Tn&Ti&Tm&Tc&_).
  set (n1 := check_sync_timeout env n) in *. clearbody n1.
  eexists. split; [reflexivity|]. unfold handle_snapshot_chunk.
  rewrite Ti, Ei, bool_decide_eq_true_2 by done. cbn [negb].
  rewrite (chunk_decodes _ _ _ Hp), Tm, Em, Tc, Ec, Z.eqb_refl.
  apply session_advances; [by apply cons_perm|]. split_and!; [cbn; congruence|cbn; congruence|done|done].
Qed.

Lemma manifest_opens env l rest n :
  l ++ rest ≡ₚ chunks → waiting l n →
  ∃ n', net_step env (MessageReceived None (Some (SnapshotManifestMessage me (bincode_serialize manifest)))) n
      = Some n' ∧
    if decide (rest = []) then applied n' else collecting l n'.
Proof.
  intros Hp (En&Ei&Em&Eb). unfold net_step. destruct (timeout_keeps env n) as (Tn&Ti&Tm&_&Tb).
  set (n1 := check_sync_timeout env n) in *. clearbody n1.
  eexists. split; [reflexivity|]. unfold handle_snapshot_manifest.
  rewrite Ti, Ei, bool_decide_eq_true_2 by done. cbn [negb]. rewrite Hmanifest.
  unfold nn_chain. rewrite Tn, En, Hok. apply session_advances; [done|].
  split_and!; [cbn; congruence|cbn; congruence|done|]. cbn [set_sync nn_sync]. unfold open_session.
  rewrite Tm, Em, Tb, Eb. cbn [set_session pending_snapshot_chunks]. apply drained_chunks.
  by eapply part_NoDup.
Qed.

(** The rest of the messages, in any order. *)
Lemma collecting_run msgs l rest n :
  l ++ rest ≡ₚ chunks → rest ≠ [] → collecting l n → msgs.*2 ≡ₚ chunk_message <$> rest →
  ∃ n', net_run (deliver msgs) n = Some n' ∧ applied n'.
Proof.
  revert l rest n. induction msgs as [|[env msg] msgs IH]; intros l rest n Hp Hr Hc Hm.
  { cbn in Hm. apply Permutation_nil_l in Hm. by destruct rest. }
  cbn [fmap list_fmap fst snd] in Hm.
  assert (msg ∈ chunk_message <$> rest) as Hin by (rewrite <- Hm; by left).
  apply list_elem_of_fmap in Hin as (ch&->&Hch). apply elem_of_Permutation in Hch as [rest' Hch].
  rewrite Hch in Hp, Hm. cbn [fmap list_fmap] in Hm. apply Permutation_cons_inv in Hm.
  destruct (chunk_joins env ch l rest' n Hp Hc) as (n1&Hs&Hn1).
  cbn [deliver fmap list_fmap net_run fst snd]. rewrite Hs. cbn [mbind option_bind].
  case_decide as Hr'.
  - subst rest'. cbn in Hm. apply Permutation_nil_r in Hm. destruct msgs; [|done]. by exists n1.
  - by apply (IH (ch :: l) rest' n1 (cons_perm _ _ _ Hp) Hr' Hn1).
Qed.

Lemma waiting_run msgs l rest n :
  l ++ rest ≡ₚ chunks → waiting l n →
  msgs.*2 ≡ₚ SnapshotManifestMessage me (bincode_serialize manifest) :: (chunk_message <$> rest) →
  ∃ n', net_run (deliver msgs) n = Some n' ∧ applied n'.
Proof.
  revert l rest n. induction msgs as [|[env msg] msgs IH]; intros l rest n Hp Hw Hm.
  { cbn in Hm. by apply Permutation_nil_l in Hm. }
  cbn [fmap list_fmap fst snd] in Hm. cbn [deliver fmap list_fmap net_run fst snd].
  assert (msg ∈ SnapshotManifestMessage me (bincode_serialize manifest) :: (chunk_message <$> rest)) as Hin
    by (rewrite <- Hm; by left).
  apply elem_of_cons in Hin as [->|Hin].
  - apply Permutation_cons_inv in Hm. destruct (manifest_opens env l rest n Hp Hw) as (n1&Hs&Hn1).
    rewrite Hs. cbn [mbind option_bind]. case_decide as Hr.
    + subst rest. cbn in Hm. apply Permutation_nil_r in Hm. destruct msgs; [|done]. by exists n1.
    + by apply (collecting_run msgs l rest n1).
  - apply list_elem_of_fmap in Hin as (ch&->&Hch). apply elem_of_Permutation in Hch as [rest' Hch].
    rewrite Hch in Hp, Hm. cbn [fmap list_fmap] in Hm. rewrite perm_swap in Hm.
    apply Permutation_cons_inv in Hm. destruct (chunk_waits env ch l rest' n Hp Hw) as (n1&Hs&Hn1).
    rewrite Hs. cbn [mbind option_bind]. by apply (IH (ch :: l) rest' n1 (cons_perm _ _ _ Hp) Hn1).
Qed.
End run.

(** The chunks of a snapshot are numbered. *)
Lemma make_chunks_index payload hashes chunks :
  make_chunks payload = (hashes, chunks) → ch_index <$> chunks = seq 0 (length chunks).
Proof.
  unfold make_chunks. cbv zeta. destruct (chunks_of _ _) as [|d data]; intros [= _ <-]; [done|].
  cbn [fmap list_fmap ch_index length seq]. f_equal.
  apply list_eq. intros i. rewrite list_lookup_fmap, list_lookup_imap, length_imap. unfold compose.
  destruct (data !! i) as [x|] eqn:Ex; simpl.
  - rewrite lookup_seq_lt by (by eapply lookup_lt_Some). done.
  - symmetry. apply lookup_seq_ge. by apply lookup_ge_None.
Qed.

Lemma build_snapshot_chunks now c manifest chunks :
  build_snapshot now c = Ok (manifest, chunks) →
  ch_index <$> chunks = seq 0 (length chunks) ∧ sm_chunk_count manifest = length chunks.
Proof.
  unfold build_snapshot. intros Hb. destruct (ok_or _ _) as [b|]; [|done]. cbn [mbind result_bind] in Hb.
  destruct (replay_state_to_canonical_height _ _ _) as [s|]; [|done]. cbn [mbind result_bind] in Hb.
  destruct (make_chunks _) as [hashes cs] eqn:Hm. injection Hb as <- <-.
  split; [by eapply make_chunks_index|done].
Qed.

(** C10: a snapshot may arrive in any order. Let a node send a snapshot's manifest and its
    chunks, each once. Whatever the order in which another node receives them -
    chunks before the manifest too, within the limits of its buffer - and whatever
    happens to its timers meanwhile, it applies the snapshot when the last one is
    there, with the chunks in their order, and its session is over. *)
Theorem snapshot_any_order (now : Z) (c : Blockchain) (manifest : SnapshotManifest)
    (chunks : list StateChunk) (n : NetNode D) (msgs : list (Env * NetworkMessage)) :
  build_snapshot now c = Ok (manifest, chunks) →
  (length chunks ≤ MAX_BUFFERED_PRE_MANIFEST_CHUNKS)%nat →
  total_bytes chunks ≤ MAX_BUFFERED_PRE_MANIFEST_BYTES →
  bounded_deserialize (bincode_serialize manifest) = Some manifest →
  Forall (λ ch, bounded_deserialize (bincode_serialize ch) = Some ch) chunks →
  manifest_ok (nn_chain n) manifest = true →
  pending_snapshot_manifest (nn_sync n) = None → pre_manifest_chunk_buffer (nn_sync n) = ∅ →
  msgs.*2 ≡ₚ snapshot_messages (nn_id n) manifest chunks →
  ∃ n', net_run (deliver msgs) n = Some n' ∧
    nn_node n' = (apply_snapshot manifest chunks (nn_node n)).2 ∧
    pending_snapshot_manifest (nn_sync n') = None ∧
    ∀ ss, check_snapshot (nn_chain n) manifest chunks = Ok ss →
      nn_chain n' = install_snapshot manifest ss (nn_chain n).
Proof.
  intros Hb Hcap Hbytes Hm Hc Hok Hs Hbuf Hmsgs. destruct (build_snapshot_chunks _ _ _ _ Hb) as [Hi Hn].
  destruct (waiting_run manifest chunks (nn_node n) (nn_id n) Hi Hn Hcap Hbytes Hm Hc Hok msgs [] chunks n)
    as (n'&Hr&En&Em); [done|by split_and!|exact Hmsgs|].
  exists n'. split_and!; [done..|]. intros ss Hck. unfold nn_chain at 1. rewrite En.
  unfold apply_snapshot, st_get, st_lift, st_modify, mbind, stM_bind. fold (nn_chain n).
  rewrite Hck. by rewrite persist_full_state_chain.
Qed.

(** ** A chunk that is none *)

(** The session holds a chunk beyond the last. *)
Definition spoiled (manifest : SnapshotManifest) (n : NetNode D) : Prop :=
  pending_snapshot_manifest (nn_sync n) = Some manifest ∧
  ∃ i ch, (sm_chunk_count manifest ≤ i)%nat ∧ pending_snapshot_chunks (nn_sync n) !! i = Some ch.

Lemma spoiled_assemble env manifest n :
  spoiled manifest n → spoiled manifest (try_assemble env manifest n) ∧
  nn_node (try_assemble env manifest n) = nn_node n.
Proof.
  intros (Em&i&ch&Hi&Hch). unfold try_assemble. case_bool_decide as Hs; [|by split; [split; eauto|]].
  destruct (assemble _ 0 _ []) as [r rest] eqn:Ha.
  destruct (assemble_rest _ _ _ _ _ _ i Ha) as [El Hsz]; [lia|]. destruct r as [ordered|].
  - assert (size rest = 0)%nat as Hz by (specialize (Hsz (ltac:(done))); lia).
    apply map_size_empty_iff in Hz as ->. rewrite lookup_empty in El. congruence.
  - split; [|done]. split; [done|]. exists i, ch. split; [done|]. cbn. congruence.
Qed.

Lemma spoiled_step manifest env msg n n' :
  spoiled manifest n →
  match msg with
  | SnapshotChunkMessage _ _ _ => True
  | SnapshotManifestMessage _ data => bounded_deserialize data = Some manifest
  | _ => False
  end →
  net_step env (MessageReceived None (Some msg)) n = Some n' → spoiled manifest n' ∧ nn_node n' = nn_node n.
Proof.
  intros (Em&i&ch&Hi&Hch) Hmsg. unfold net_step. destruct (timeout_keeps env n) as (Tn&_&Tm&Tc&_).
  set (n1 := check_sync_timeout env n) in *. clearbody n1. rewrite <- Tn.
  assert (spoiled manifest n1) as Hs1 by (split; [congruence|exists i, ch; by rewrite Tc]).
  clear Tn Tm Tc. destruct Hs1 as (Em1&j&c1&Hj&Hc1). assert (spoiled manifest n1) as Hs1 by (split; eauto).
  cbn [net_event on_message]. destruct msg as [| | | | | | | |target data|target h data]; try done.
  - intros [= <-]. unfold handle_snapshot_manifest. case_match; [done|]. rewrite Hmsg. case_match; [|done].
    apply (spoiled_assemble env manifest (set_sync (open_session manifest) n1)).
    split; [done|]. cbn [set_sync nn_sync]. unfold open_session. rewrite Em1, Z.eqb_refl, bool_decide_eq_true_2 by done.
    cbn [set_session pending_snapshot_chunks andb]. set (drained := filter _ _). clearbody drained.
    clear Hmsg Em1 Hs1. revert Hc1. generalize (pending_snapshot_chunks (nn_sync n1)). intros m Hc1.
    revert m c1 Hc1. induction drained as [|kv l IH]; intros m c1 Hc1; [by exists j, c1|].
    cbn [foldl]. destruct (decide (ch_index kv.2 = j)) as [<-|Hne].
    + eapply IH. apply lookup_insert_eq.
    + eapply IH. by rewrite lookup_insert_ne.
  - intros [= <-]. unfold handle_snapshot_chunk. case_match; [done|].
    destruct (bounded_deserialize data) as [c|]; [|done]. rewrite Em1. case_match.
    + match goal with |- spoiled _ (try_assemble _ _ ?x) ∧ _ => apply (spoiled_assemble env manifest x) end.
      split; [done|]. cbn. destruct (decide (ch_index c = j)) as [<-|Hne].
      * eexists _, _. split; [exact Hj|]. apply lookup_insert_eq.
      * exists j, c1. by rewrite lookup_insert_ne.
    + split; [|done]. split; [done|]. by exists j, c1.
Qed.

(** One false chunk stops a snapshot for good. Chunks are not checked when they
    arrive, although the manifest has their hashes, and anyone can send one. Once a
    session holds a chunk with an index beyond the last, no chunks and no repeats of
    the manifest, however many and in whatever order, make the node apply the
    snapshot: the count of its chunks and the set of their indices never agree. *)
Theorem stray_chunk_stops_session (manifest : SnapshotManifest) (n n' : NetNode D)
    (msgs : list (Env * NetworkMessage)) :
  spoiled manifest n →
  Forall (λ msg, match msg with
                 | SnapshotChunkMessage _ _ _ => True
                 | SnapshotManifestMessage _ data => bounded_deserialize data = Some manifest
                 | _ => False
                 end) msgs.*2 →
  net_run (deliver msgs) n = Some n' →
  nn_node n' = nn_node n ∧ pending_snapshot_manifest (nn_sync n') = Some manifest.
Proof.
  intros Hs Hm. revert n Hs. induction msgs as [|[env msg] msgs IH]; intros n Hs Hr.
  { injection Hr as <-. split; [done|apply Hs]. }
  cbn [fmap list_fmap] in Hm. apply Forall_cons in Hm as [Hmsg Hm].
  cbn [deliver fmap list_fmap net_run fst snd] in Hr.
  destruct (net_step env _ n) as [n1|] eqn:Hst; [|done]. cbn [mbind option_bind] in Hr.
  destruct (spoiled_step manifest env msg n n1 Hs Hmsg Hst) as [Hs1 <-]. by apply (IH Hm n1).
Qed.
End session.

(** ** Witness: the snapshot's chunk comes before its manifest *)

Section witness.
Import Demo.
#[local] Existing Instances demo_sort demo_legacy demo_set_order demo_snapshot_codec demo_tip_order demo_net_codec.

Definition demo_session_codec : StorageCodec := {|
  codec_block := no_ser _; codec_block_de := no_de _;
  codec_account := no_ser _; codec_account_de := no_de _;
  codec_contract := no_ser _; codec_contract_de := no_de _;
  codec_receipt := no_ser _; codec_receipt_de := no_de _;
  codec_tx := no_ser _; codec_tx_de := no_de _;
  codec_epoch := no_ser _; codec_epoch_de := no_de _;
  codec_evidence := no_ser _; codec_evidence_de := no_de _;
  codec_genesis := no_ser _; codec_genesis_de := no_de _;
  codec_registry := no_ser _; codec_registry_de := no_de _;
  codec_governance := no_ser _; codec_governance_de := no_de _;
  codec_manifest _ := [x01]; codec_manifest_de _ := Some demo_packed.1;
  codec_chunk := λ ch, [x02]; codec_chunk_de := λ _, head demo_packed.2;
  codec_u64 := u64_key; codec_u64_de := u64_of_key;
|}.
#[local] Existing Instance demo_session_codec.

Definition demo_arrivals : list (Env * NetworkMessage) :=
  (λ m, (demo_env 100, m)) <$> reverse (snapshot_messages "one" demo_packed.1 demo_packed.2).

Lemma demo_session_ok :
  bool_decide (length demo_packed.2 = 1%nat) && bool_decide (ch_data <$> demo_packed.2 = [[x01]]) &&
  manifest_ok demo_root demo_packed.1 && is_ok (check_snapshot demo_root demo_packed.1 demo_packed.2) &&
  true && true && true && true = true.
Proof. vm_compute. exact eq_refl. Qed.

Lemma only_chunk (l : list StateChunk) : length l = 1%nat → Forall (λ ch, head l = Some ch) l.
Proof. destruct l as [|c [|]]; try done. intros _. by constructor. Qed.

Lemma snapshot_any_order_witness :
  ∃ n', net_run (deliver demo_arrivals) (demo_net demo_root 1 "one") = Some n' ∧
    nn_chain n' = install_snapshot demo_packed.1
      (unwrap_or demo_ss (check_snapshot demo_root demo_packed.1 demo_packed.2)) demo_root.
Proof.
  destruct (andb8 _ _ _ _ _ _ _ _ demo_session_ok) as (Hl&Hd&Hm&Hc&_).
  apply bool_decide_eq_true in Hl, Hd.
  destruct (snapshot_any_order (t0 + 10) demo_final demo_packed.1 demo_packed.2 (demo_net demo_root 1 "one")
    demo_arrivals demo_packed_run) as (n'&Hr&_&_&Hi).
  - rewrite Hl. unfold MAX_BUFFERED_PRE_MANIFEST_CHUNKS. lia.
  - assert (total_bytes demo_packed.2 = foldr Z.add 0 ((λ d : bytes, Z.of_nat (length d)) <$> (ch_data <$> demo_packed.2)))
      as -> by (unfold total_bytes; by rewrite <- list_fmap_compose).
    rewrite Hd. unfold MAX_BUFFERED_PRE_MANIFEST_BYTES. simpl. lia.
  - exact eq_refl.
  - exact (only_chunk _ Hl).
  - exact Hm.
  - exact eq_refl.
  - exact eq_refl.
  - unfold demo_arrivals. rewrite <- list_fmap_compose, list_fmap_id. apply reverse_Permutation.
  - exists n'. split; [exact Hr|]. exact (Hi _ (is_ok_unwrap _ demo_ss Hc)).
Defined.

(** The session after a chunk 7 of one. *)
Definition demo_spoiled : NetNode DemoDb :=
  set_sync (set_session (Some demo_packed.1) {[7%nat := mkChunk 7 [] [] []]} ∅) (demo_net demo_root 1 "one").
Definition demo_after_repeats : option (NetNode DemoDb) :=
  net_run (deliver (demo_arrivals ++ demo_arrivals)) demo_spoiled.

Lemma demo_repeats_ok : is_some demo_after_repeats = true.
Proof. vm_compute. exact eq_refl. Qed.

Lemma stray_chunk_stops_session_witness :
  ∃ n', demo_after_repeats = Some n' ∧ nn_node n' = nn_node (demo_net demo_root 1 "one").
Proof.
  pose proof (is_some_default demo_after_repeats demo_spoiled demo_repeats_ok) as Hr.
  revert Hr. generalize (default demo_spoiled demo_after_repeats). intros n' Hr.
  exists n'. split; [exact Hr|]. unfold demo_after_repeats in Hr.
  destruct (stray_chunk_stops_session demo_packed.1 demo_spoiled n' (demo_arrivals ++ demo_arrivals))
    as [E _]; [| |exact Hr|exact E].
  - split; [exact eq_refl|]. exists 7%nat, (mkChunk 7 [] [] []). split; [|exact eq_refl].
    destruct (andb8 _ _ _ _ _ _ _ _ demo_session_ok) as (Hl&_). apply bool_decide_eq_true in Hl.
    destruct (build_snapshot_chunks _ _ _ _ demo_packed_run) as [_ ->]. rewrite Hl. lia.
  - assert (Forall (λ msg, match msg with
      | SnapshotChunkMessage _ _ _ => True
      | SnapshotManifestMessage _ data => bounded_deserialize data = Some demo_packed.1
      | _ => False
      end) demo_arrivals.*2) as Ha.
    { unfold demo_arrivals. rewrite <- list_fmap_compose, list_fmap_id. apply Forall_reverse.
      constructor; [exact eq_refl|]. by apply Forall_fmap, Forall_true. }
    rewrite fmap_app. exact (Forall_app_2 _ _ _ Ha Ha).
Defined.
End witness.
