(* ===== verification/Queries.v ===== *)
(** * Receipt and log indexes, queries ([src/core/receipt.rs],
    [src/core/chain/mod.rs])

    The chain keeps the location of each receipt and the list of all logs, both
    recomputed from the blocks and the receipts after every change of the chain:
    here they are that function of the chain. Then the queries the API asks. *)
From S2P Require Import Prelude Hash Crypto Vm Transaction Token Governance Block Account.
From S2P Require Import Validators Finality Settlement BlockTree Trie StateRoot Chain Apply.
From S2P Require Import Ledger AddBlock ChainSafety.

(** ** Data *)

Record ReceiptLocation := mkLocation { rl_block_height : Z; rl_tx_index : nat }.

Record IndexedReceipt := mkIndexedReceipt {
  ir_tx_hash : bytes;
  ir_block_height : Z;
  ir_tx_index : nat;
  ir_receipt : Receipt;
}.

Record IndexedLogEntry := mkIndexedLog {
  il_block_height : Z;
  il_tx_index : nat;
  il_log_index : nat;
  il_tx_hash : bytes;
  il_contract : bytes;
  il_topics : list bytes;
  il_data : bytes;
}.

Record LogFilter := mkLogFilter {
  lf_contract : option bytes;
  lf_topic : option bytes;
  lf_topics : option (list (option bytes));
  lf_from_block : option Z;
  lf_to_block : option Z;
  lf_limit : option Z;
}.

(** [LogFilter::default]. *)
Definition log_filter_default : LogFilter := mkLogFilter None None None None None None.

(** The two indexes of [Blockchain]. *)
Record ReceiptIndexes := mkIndexes {
  receipt_locations : gmap bytes ReceiptLocation;
  log_index : list IndexedLogEntry;
}.

(** ** The comparator of the log index, and [slice::sort_by]

    [sort_by] is a stable sort. *)
Definition log_compare (a b : IndexedLogEntry) : comparison :=
  match il_block_height a ?= il_block_height b with
  | Eq =>
      match (il_tx_index a ?= il_tx_index b)%nat with
      | Eq => (il_log_index a ?= il_log_index b)%nat
      | c => c
      end
  | c => c
  end.

Fixpoint insert_log (x : IndexedLogEntry) (l : list IndexedLogEntry) : list IndexedLogEntry :=
  match l with
  | [] => [x]
  | y :: l => match log_compare x y with Gt => y :: insert_log x l | _ => x :: y :: l end
  end.

Definition sort_logs (l : list IndexedLogEntry) : list IndexedLogEntry := foldr insert_log [] l.

(** ** The filter *)

Definition topics_match (positional : list (option bytes)) (topics : list bytes) : bool :=
  forallb (λ ie : nat * option bytes,
             match ie.2 with
             | None => true
             | Some wanted => bool_decide (topics !! ie.1 = Some wanted)
             end) (imap pair positional).

Definition log_matches (filter : LogFilter) (entry : IndexedLogEntry) : bool :=
  match lf_contract filter with
  | None => true
  | Some contract => bool_decide (il_contract entry = contract)
  end &&
  match lf_topic filter with
  | None => true
  | Some topic => existsb (λ candidate, bool_decide (candidate = topic)) (il_topics entry)
  end &&
  match lf_topics filter with
  | None => true
  | Some positional => topics_match positional (il_topics entry)
  end &&
  match lf_from_block filter with None => true | Some h => h <=? il_block_height entry end &&
  match lf_to_block filter with None => true | Some h => il_block_height entry <=? h end.

Definition query_limit (filter : LogFilter) : nat :=
  Z.to_nat (Z.min (default 100 (lf_limit filter)) 1000).

Section queries.
Context `{Sha3} `{!Bincode SignableTransaction}.

(** ** [rebuild_receipt_indexes] *)

Definition index_log (h : Z) (tx_index : nat) (hash : bytes) (i : nat) (l : LogEntry)
    : IndexedLogEntry :=
  mkIndexedLog h tx_index i hash (log_contract l) (log_topics l) (log_data l).

(** One iteration of the loop over the transactions of a block. *)
Definition index_receipt (rs : gmap bytes Receipt) (h : Z) (itx : nat * Transaction)
    (ix : ReceiptIndexes) : ReceiptIndexes :=
  let '(tx_index, tx) := itx in
  if is_coinbase tx then ix
  else
    match rs !! tx_hash tx with
    | None => ix
    | Some receipt =>
        mkIndexes (<[tx_hash tx := mkLocation h tx_index]> (receipt_locations ix))
          (log_index ix ++ imap (index_log h tx_index (tx_hash tx)) (rc_logs receipt))
    end.

Definition index_receipts_of (rs : gmap bytes Receipt) (b : Block) (ix : ReceiptIndexes)
    : ReceiptIndexes :=
  foldl (λ ix itx, index_receipt rs (height (header b)) itx ix) ix (imap pair (transactions b)).

(** [block_at] and [count] are those of the cursor: a pruned block reads as [None]. *)
Definition rebuild_receipt_indexes (count : Z) (block_at : Z → option Block)
    (rs : gmap bytes Receipt) : ReceiptIndexes :=
  let ix := foldl (λ ix h,
      match block_at h with Some b => index_receipts_of rs b ix | None => ix end)
    (mkIndexes ∅ []) (seqZ 0 count) in
  mkIndexes (receipt_locations ix) (sort_logs (log_index ix)).

Definition indexes (c : Blockchain) : ReceiptIndexes :=
  rebuild_receipt_indexes (block_count c) (block_at_height c) (receipts (bc_state c)).

(** ** Queries *)

Definition get_receipt (c : Blockchain) (hash : bytes) : option IndexedReceipt :=
  receipt ← receipts (bc_state c) !! hash;
  location ← receipt_locations (indexes c) !! hash;
  mret (mkIndexedReceipt hash (rl_block_height location) (rl_tx_index location) receipt).

Definition query_logs (c : Blockchain) (filter : LogFilter) : list IndexedLogEntry :=
  take (query_limit filter)
    (base.filter (λ e, log_matches filter e = true) (log_index (indexes c))).

(** The body of [transactions_for_address] for one block: the results so far and
    whether the limit was reached. *)
Fixpoint collect_transactions (address : bytes) (limit : nat) (h : Z)
    (txs : list (nat * Transaction)) (out : list (Z * nat * Transaction))
    : bool * list (Z * nat * Transaction) :=
  match txs with
  | [] => (false, out)
  | (idx, tx) :: txs =>
      if bool_decide (tx_from tx = address) || bool_decide (tx_to tx = address) then
        let out := out ++ [(h, idx, tx)] in
        if (limit <=? length out)%nat then (true, out)
        else collect_transactions address limit h txs out
      else collect_transactions address limit h txs out
  end.

Fixpoint walk_transactions (address : bytes) (from_block to_block : option Z) (limit : nat)
    (blocks : list Block) (out : list (Z * nat * Transaction)) : list (Z * nat * Transaction) :=
  match blocks with
  | [] => out
  | b :: blocks =>
      let h := height (header b) in
      if from_option (λ t, t <? h) false to_block
      then walk_transactions address from_block to_block limit blocks out
      else if from_option (λ f, h <? f) false from_block then out
      else
        match collect_transactions address limit h (imap pair (transactions b)) out with
        | (true, out) => out
        | (false, out) => walk_transactions address from_block to_block limit blocks out
        end
  end.

Definition transactions_for_address (c : Blockchain) (address : bytes)
    (from_block to_block : option Z) (limit : Z) : list (Z * nat * Transaction) :=
  walk_transactions address from_block to_block (Z.to_nat (Z.min limit 1000))
    (reverse (bc_blocks c)) [].

End queries.

(** Counters for the metrics. *)
Definition slashed_validator_count (c : Blockchain) : nat := size (bc_slashed_validators c).
Definition jailed_validator_count (c : Blockchain) : nat :=
  length (filter (λ ka : bytes * AccountState, chain_height c < jailed_until_height ka.2)
            (map_to_list (accounts (bc_state c)))).
Definition active_validator_count (c : Blockchain) : nat :=
  length (active_validators
    (mkPoS (minimum_stake (bc_params c)) (bc_slashed_validators c) (add64 (chain_height c) 1))
    (accounts (bc_state c))).

(** ** What the queries promise *)

(** The filter in words: the contract, one topic anywhere, the positional topics
    with [None] as a wildcard, the range of blocks. *)
Definition selects (filter : LogFilter) (e : IndexedLogEntry) : Prop :=
  (∀ contract, lf_contract filter = Some contract → il_contract e = contract) ∧
  (∀ topic, lf_topic filter = Some topic → topic ∈ il_topics e) ∧
  (∀ positional i wanted, lf_topics filter = Some positional →
     positional !! i = Some (Some wanted) → il_topics e !! i = Some wanted) ∧
  (∀ h, lf_from_block filter = Some h → h ≤ il_block_height e) ∧
  (∀ h, lf_to_block filter = Some h → il_block_height e ≤ h).

Lemma topics_match_spec positional topics :
  topics_match positional topics = true ↔
  ∀ i wanted, positional !! i = Some (Some wanted) → topics !! i = Some wanted.
Proof.
  unfold topics_match. rewrite forallb_forall. split.
  - intros Hm i wanted Hi.
    assert (In (i, Some wanted) (imap pair positional)) as Hin.
    { apply list_elem_of_In, list_elem_of_lookup. exists i. by rewrite list_lookup_imap, Hi. }
    apply Hm in Hin. simpl in Hin. by apply bool_decide_eq_true in Hin.
  - intros Hm [i [wanted|]] Hin; [|done]. apply list_elem_of_In, list_elem_of_lookup in Hin as [j Hj].
    rewrite list_lookup_imap in Hj. destruct (positional !! j) as [o|] eqn:E; [|done].
    injection Hj as -> ->. simpl. apply bool_decide_eq_true. by apply Hm.
Qed.

Lemma option_test {A} (o : option A) (f : A → bool) (P : A → Prop) :
  (∀ a, f a = true ↔ P a) →
  match o with None => true | Some a => f a end = true ↔ ∀ a, o = Some a → P a.
Proof. intros Hf. destruct o as [a|]; rewrite ?Hf; naive_solver. Qed.

Lemma log_matches_spec filter e : log_matches filter e = true ↔ selects filter e.
Proof.
  unfold log_matches, selects. rewrite !andb_true_iff.
  rewrite (option_test (lf_contract filter) _ (λ contract, il_contract e = contract))
    by (intros; apply bool_decide_eq_true).
  rewrite (option_test (lf_topic filter) _ (λ topic, topic ∈ il_topics e)).
  2:{ intros topic. rewrite existsb_exists. setoid_rewrite <- list_elem_of_In.
      setoid_rewrite bool_decide_eq_true. naive_solver. }
  rewrite (option_test (lf_topics filter) _ (λ positional, ∀ i wanted,
    positional !! i = Some (Some wanted) → il_topics e !! i = Some wanted))
    by (intros; apply topics_match_spec).
  rewrite (option_test (lf_from_block filter) _ (λ h, h ≤ il_block_height e))
    by (intros; apply Z.leb_le).
  rewrite (option_test (lf_to_block filter) _ (λ h, il_block_height e ≤ h))
    by (intros; apply Z.leb_le).
  naive_solver.
Qed.

(** The order of the chain. *)
Definition log_before (a b : IndexedLogEntry) : Prop := log_compare a b = Lt.

Lemma sort_logs_sorted l : StronglySorted log_before l → sort_logs l = l.
Proof.
  induction 1 as [|x l Hl IH Hx]; [done|]. simpl. fold (sort_logs l). rewrite IH.
  destruct l as [|y l]; [done|]. apply Forall_cons in Hx as [Hx _]. simpl. by rewrite Hx.
Qed.

(** A list of lists in order, each in order. *)
Lemma StronglySorted_bind {A B} (Q : relation A) (R : relation B) (f : A → list B) (l : list A) :
  StronglySorted Q l → (∀ a, a ∈ l → StronglySorted R (f a)) →
  (∀ a b x y, a ∈ l → b ∈ l → Q a b → x ∈ f a → y ∈ f b → R x y) → StronglySorted R (l ≫= f).
Proof.
  induction 1 as [|a l Hl IH Ha]; intros Hf HR; [constructor|].
  apply StronglySorted_app_2.
  - intros x y Hx Hy. apply list_elem_of_bind in Hy as (b&Hy&Hb).
    rewrite Forall_forall in Ha. apply (HR a b); [left|right| | |]; auto.
  - apply Hf. left.
  - apply IH; [intros; apply Hf; by right|]. intros b c x y Hb Hc. apply HR; by right.
Qed.

Lemma StronglySorted_filter {A} (R : relation A) (P : A → Prop) `{∀ x, Decision (P x)} l :
  StronglySorted R l → StronglySorted R (filter P l).
Proof.
  induction 1 as [|x l Hl IH Hx]; [constructor|]. rewrite filter_cons. case_decide; [|done].
  constructor; [done|]. apply Forall_forall. intros y [_ Hy]%list_elem_of_filter.
  rewrite Forall_forall in Hx. by apply Hx.
Qed.

Lemma StronglySorted_reverse {A} (R : relation A) l :
  StronglySorted R l → StronglySorted (flip R) (reverse l).
Proof.
  induction 1 as [|x l Hl IH Hx]; [constructor|].
  rewrite reverse_cons. apply StronglySorted_app_2; [|done|repeat constructor].
  intros y z Hy Hz. apply list_elem_of_singleton in Hz as ->. rewrite elem_of_reverse in Hy.
  rewrite Forall_forall in Hx. by apply Hx.
Qed.

Lemma imap_pair_sorted {A} (l : list A) :
  StronglySorted (λ p q : nat * A, (p.1 < q.1)%nat) (imap pair l).
Proof.
  induction l as [|x l IH] using rev_ind; [constructor|].
  rewrite imap_app. apply StronglySorted_app_2; [|done|repeat constructor].
  intros p q Hp Hq. apply list_elem_of_singleton in Hq as ->.
  apply list_elem_of_lookup in Hp as [i Hi]. rewrite list_lookup_imap in Hi.
  destruct (l !! i) eqn:E; [|done]. injection Hi as <-. simpl. apply lookup_lt_Some in E. lia.
Qed.
Section index_lemmas.
Context `{Sha3} `{!Bincode SignableTransaction}.

(** The logs of a transaction, a block and the chain, in the order of the chain. *)
Definition transaction_logs (rs : gmap bytes Receipt) (h : Z) (itx : nat * Transaction)
    : list IndexedLogEntry :=
  if is_coinbase itx.2 then []
  else from_option (λ r, imap (index_log h itx.1 (tx_hash itx.2)) (rc_logs r)) []
         (rs !! tx_hash itx.2).

Definition block_logs (rs : gmap bytes Receipt) (b : Block) : list IndexedLogEntry :=
  imap pair (transactions b) ≫= transaction_logs rs (height (header b)).

Definition chain_logs (c : Blockchain) : list IndexedLogEntry :=
  bc_blocks c ≫= block_logs (receipts (bc_state c)).

Lemma index_receipt_logs rs h itx ix :
  log_index (index_receipt rs h itx ix) = log_index ix ++ transaction_logs rs h itx.
Proof.
  destruct itx as [i tx]. unfold index_receipt, transaction_logs. simpl.
  destruct (is_coinbase tx); [by rewrite app_nil_r|].
  destruct (rs !! tx_hash tx); simpl; [done|by rewrite app_nil_r].
Qed.

Lemma foldl_logs {A} (f : A → ReceiptIndexes → ReceiptIndexes) (g : A → list IndexedLogEntry) l ix :
  (∀ a ix, log_index (f a ix) = log_index ix ++ g a) →
  log_index (foldl (λ ix a, f a ix) ix l) = log_index ix ++ (l ≫= g).
Proof.
  intros Hf. revert ix. induction l as [|a l IH]; intros ix; simpl; [by rewrite app_nil_r|].
  by rewrite IH, Hf, app_assoc.
Qed.

Lemma index_receipts_of_logs rs b ix :
  log_index (index_receipts_of rs b ix) = log_index ix ++ block_logs rs b.
Proof. apply (foldl_logs (index_receipt rs _)). intros. apply index_receipt_logs. Qed.

(** The loop over the heights visits the blocks of the chain in order. *)
Lemma foldl_fmap {A B C} (f : C → B → C) (g : A → B) (l : list A) c :
  foldl f c (g <$> l) = foldl (λ c a, f c (g a)) c l.
Proof. revert c. induction l; intros c; simpl; auto. Qed.

Lemma heights_blocks c : block_at_height c <$> seqZ 0 (block_count c) = Some <$> bc_blocks c.
Proof.
  apply list_eq. intros i. rewrite !list_lookup_fmap. unfold block_count.
  destruct (decide (i < length (bc_blocks c))%nat) as [Hi|Hi].
  - rewrite lookup_seqZ_lt by lia. simpl. unfold block_at_height.
    rewrite (proj2 (Z.ltb_ge _ _)) by lia. rewrite Z.add_0_l, Nat2Z.id.
    by destruct (lookup_lt_is_Some_2 (bc_blocks c) i Hi) as [b ->].
  - rewrite lookup_seqZ_ge by lia. by rewrite lookup_ge_None_2 by lia.
Qed.

Lemma indexes_unfold c :
  indexes c =
    let ix := foldl (λ ix b, index_receipts_of (receipts (bc_state c)) b ix) (mkIndexes ∅ [])
                (bc_blocks c) in
    mkIndexes (receipt_locations ix) (sort_logs (log_index ix)).
Proof.
  unfold indexes, rebuild_receipt_indexes. cbv zeta.
  rewrite <- (foldl_fmap (λ ix o, match o with
    | Some b => index_receipts_of (receipts (bc_state c)) b ix | None => ix end)).
  by rewrite heights_blocks, foldl_fmap.
Qed.

(** In a linked chain the logs are in order, so the sort changes nothing. *)
Lemma elem_of_transaction_logs rs h itx e :
  e ∈ transaction_logs rs h itx ↔
  is_coinbase itx.2 = false ∧ ∃ r l, rs !! tx_hash itx.2 = Some r ∧
    rc_logs r !! il_log_index e = Some l ∧ e = index_log h itx.1 (tx_hash itx.2) (il_log_index e) l.
Proof.
  unfold transaction_logs. destruct (is_coinbase itx.2); [set_solver|].
  destruct (rs !! tx_hash itx.2) as [r|]; simpl; [|set_solver].
  rewrite list_elem_of_lookup. setoid_rewrite list_lookup_imap. split.
  - intros [i Hi]. destruct (rc_logs r !! i) as [l|] eqn:E; [|done]. injection Hi as <-.
    split; [done|]. exists r, l. done.
  - intros (_&r'&l&[= <-]&Hl&He). exists (il_log_index e). rewrite Hl. simpl. by f_equal.
Qed.

Lemma transaction_logs_position rs h itx e :
  e ∈ transaction_logs rs h itx → il_block_height e = h ∧ il_tx_index e = itx.1.
Proof. intros (_&r&l&_&_&->)%elem_of_transaction_logs. done. Qed.

Lemma transaction_logs_sorted rs h itx : StronglySorted log_before (transaction_logs rs h itx).
Proof.
  unfold transaction_logs. destruct (is_coinbase itx.2); [constructor|].
  destruct (rs !! tx_hash itx.2) as [r|]; simpl; [|constructor].
  generalize (rc_logs r). intros l. induction l as [|x l IH] using rev_ind; [constructor|].
  rewrite imap_app. apply StronglySorted_app_2; [|done|repeat constructor].
  intros p q Hp Hq. apply list_elem_of_singleton in Hq as ->.
  apply list_elem_of_lookup in Hp as [i Hi]. rewrite list_lookup_imap in Hi.
  destruct (l !! i) eqn:E; [|done]. injection Hi as <-. apply lookup_lt_Some in E.
  unfold log_before, log_compare. simpl. rewrite Z.compare_refl, Nat.compare_refl.
  apply Nat.compare_lt_iff. lia.
Qed.

Lemma block_logs_height rs b e : e ∈ block_logs rs b → il_block_height e = height (header b).
Proof.
  intros He. apply list_elem_of_bind in He as (itx&He&_). by apply transaction_logs_position in He as [? _].
Qed.

Lemma block_logs_sorted rs b : StronglySorted log_before (block_logs rs b).
Proof.
  apply (StronglySorted_bind (λ p q, (p.1 < q.1)%nat));
    [apply imap_pair_sorted|intros; apply transaction_logs_sorted|].
  intros p q x y _ _ Hlt Hx Hy.
  apply transaction_logs_position in Hx as [Hxh Hxi], Hy as [Hyh Hyi].
  unfold log_before, log_compare. rewrite Hxh, Hyh, Hxi, Hyi, Z.compare_refl.
  by rewrite (proj2 (Nat.compare_lt_iff _ _) Hlt).
Qed.

Lemma linked_heights_sorted c :
  chain_linked c → StronglySorted (λ b d, height (header b) < height (header d)) (bc_blocks c).
Proof.
  intros [_ Hl].
  assert (∀ k, (∀ i b, k !! i = Some b → height (header b) = Z.of_nat i) →
    StronglySorted (λ b d, height (header b) < height (header d)) k) as Hk.
  { intros k. induction k as [|x k IH] using rev_ind; intros Hh; [constructor|].
    apply StronglySorted_app_2; [|apply IH; intros i b Hi; apply Hh; by apply lookup_app_l_Some
      |repeat constructor].
    intros b d Hb Hd. apply list_elem_of_singleton in Hd as ->.
    apply list_elem_of_lookup in Hb as [i Hi]. pose proof (lookup_lt_Some _ _ _ Hi).
    rewrite (Hh i b), (Hh (length k) x); [lia|by apply list_lookup_middle|by apply lookup_app_l_Some]. }
  apply Hk. intros i b Hi. by apply Hl.
Qed.

Lemma chain_logs_sorted c : chain_linked c → StronglySorted log_before (chain_logs c).
Proof.
  intros Hl. apply (StronglySorted_bind (λ b d, height (header b) < height (header d)));
    [by apply linked_heights_sorted|intros; apply block_logs_sorted|].
  intros b d x y _ _ Hlt Hx%block_logs_height Hy%block_logs_height.
  unfold log_before, log_compare. rewrite Hx, Hy.
  by rewrite (proj2 (Z.compare_lt_iff _ _) Hlt).
Qed.

Lemma log_index_chain_logs c : chain_linked c → log_index (indexes c) = chain_logs c.
Proof.
  intros Hl. rewrite indexes_unfold. cbv zeta. cbn [log_index].
  rewrite (foldl_logs (λ b ix, index_receipts_of (receipts (bc_state c)) b ix)
    (block_logs (receipts (bc_state c)))) by (intros; apply index_receipts_of_logs).
  by apply sort_logs_sorted, chain_logs_sorted.
Qed.

(** What is a log of the chain. *)
Definition canonical_log (c : Blockchain) (e : IndexedLogEntry) : Prop :=
  ∃ b tx r l, block_at_height c (il_block_height e) = Some b ∧
    transactions b !! il_tx_index e = Some tx ∧ is_coinbase tx = false ∧
    receipts (bc_state c) !! tx_hash tx = Some r ∧ rc_logs r !! il_log_index e = Some l ∧
    e = index_log (il_block_height e) (il_tx_index e) (tx_hash tx) (il_log_index e) l.

Lemma linked_block_at c b :
  chain_linked c → b ∈ bc_blocks c ↔ block_at_height c (height (header b)) = Some b.
Proof.
  intros [_ Hl]. unfold block_at_height. split.
  - intros [i Hi]%list_elem_of_lookup. destruct (Hl i b Hi) as [Eh _].
    rewrite (proj2 (Z.ltb_ge _ _)) by lia. by rewrite Eh, Nat2Z.id.
  - case_match; [done|]. apply list_elem_of_lookup_2.
Qed.

Lemma linked_block_height c h b :
  chain_linked c → block_at_height c h = Some b → height (header b) = h.
Proof.
  intros [_ Hl]. unfold block_at_height. destruct (h <? 0) eqn:E; [done|]. bool_to_prop.
  intros Hb. destruct (Hl _ _ Hb) as [-> _]. lia.
Qed.

Lemma elem_of_chain_logs c e : chain_linked c → e ∈ chain_logs c ↔ canonical_log c e.
Proof.
  intros Hl. unfold chain_logs, canonical_log. rewrite list_elem_of_bind. split.
  - intros (b&He&Hb). apply (linked_block_at c b Hl) in Hb.
    pose proof (block_logs_height _ _ _ He) as Eh.
    apply list_elem_of_bind in He as ([i tx]&He&Hi). apply elem_of_imap_pair in Hi.
    pose proof (transaction_logs_position _ _ _ _ He) as [_ Ei].
    apply elem_of_transaction_logs in He as (Hc&r&l&Hr&Hlg&He). simpl in *.
    exists b, tx, r, l. rewrite Eh, Ei. done.
  - intros (b&tx&r&l&Hb&Htx&Hc&Hr&Hlg&He). pose proof (linked_block_height _ _ _ Hl Hb) as Eh.
    exists b. split; [|apply linked_block_at; [done|by rewrite Eh]].
    apply list_elem_of_bind. exists (il_tx_index e, tx). split; [|by apply elem_of_imap_pair].
    apply elem_of_transaction_logs. simpl. rewrite Eh. split; [done|]. by exists r, l.
Qed.
End index_lemmas.

(** ** Queries on a linked chain *)

Section query_theorems.
Context `{Sha3} `{!Bincode SignableTransaction}.

(** C27: a query for logs answers with the logs of the chain that its filter selects,
    in the order of the chain, up to the limit. Every entry is the log it claims to
    be: of that receipt, of that transaction, of that canonical block. None is
    missing unless the limit, 100 by default and 1000 at most, was reached, and
    then the missing ones come after all those returned. *)
Theorem query_logs_exact (c : Blockchain) (filter : LogFilter) :
  chain_linked c →
  let found := query_logs c filter in
  StronglySorted log_before found ∧
  (length found ≤ query_limit filter)%nat ∧ (query_limit filter ≤ 1000)%nat ∧
  (∀ e, e ∈ found → canonical_log c e ∧ selects filter e) ∧
  (∀ e, canonical_log c e → selects filter e →
     e ∈ found ∨ length found = query_limit filter ∧ Forall (λ x, log_before x e) found).
Proof.
  intros Hl found. unfold found, query_logs. rewrite log_index_chain_logs by done.
  set (all := base.filter _ (chain_logs c)). set (n := query_limit filter).
  assert (StronglySorted log_before all) as Hs
    by (by apply StronglySorted_filter, chain_logs_sorted).
  assert (∀ e, e ∈ all ↔ canonical_log c e ∧ selects filter e) as Hall.
  { intros e. unfold all. rewrite list_elem_of_filter, elem_of_chain_logs by done.
    rewrite log_matches_spec. tauto. }
  assert (StronglySorted log_before (take n all ++ drop n all)) as Hs' by (by rewrite take_drop).
  split_and!.
  - by eapply StronglySorted_app_1_l.
  - rewrite length_take. lia.
  - unfold n, query_limit. lia.
  - intros e He. apply Hall. apply elem_of_take in He as (i&Hi&_). by eapply list_elem_of_lookup_2.
  - intros e Hc Hsel. assert (e ∈ all) as He by (by apply Hall).
    rewrite <- (take_drop n all), elem_of_app in He. destruct He as [He|He]; [by left|right].
    split.
    + rewrite length_take. apply list_elem_of_lookup in He as [i Hi]. rewrite lookup_drop in Hi.
      apply lookup_lt_Some in Hi. lia.
    + apply Forall_forall. intros x Hx. by eapply StronglySorted_app_1_elem_of.
Qed.
End query_theorems.

(** ** Receipts *)

(** The kinds whose execution leaves a receipt. *)
Definition leaves_receipt (tx : Transaction) : bool :=
  match tx_kind tx with
  | DeployContract | CallContract | DeployEvmContract | CallEvmContract => true
  | _ => false
  end.

Section receipt_lemmas.
Context `{Sha3} `{MlDsa} `{EvmEngine} `{WasmEngine} `{HashOrder} `{!Bincode SignableTransaction}
  `{!Bincode BlockHeader} `{!Bincode ProposalKind} `{!BincodeAccountLeaf} `{!BincodeStorageLeaf}
  `{!BincodeContractLeaf} `{!Json DeployTokenParams} `{!Json TokenTransferParams}
  `{!Json TokenApproveParams} `{!Json TokenTransferFromParams} `{!Json SubmitProposalParams}
  `{!Json GovernanceVoteParams}.

Lemma run_evm_receipts view call s o s' :
  run_evm view call s = (Ok o, s') → receipts s' = receipts s.
Proof. unfold run_evm. intros Hr. by repeat st_step. Qed.

Lemma execute_evm_receipts tx h base s g r s' :
  execute_evm tx h base s = (Ok (g, r), s') →
  receipts s' = receipts s ∧ ∃ rc, r = Some rc ∧ rc_tx_hash rc = tx_hash tx.
Proof.
  unfold execute_evm. intros Hx. apply st_bind_Ok in Hx as (o&s1&Ho&Hx). st_step.
  split; [|by eexists].
  case_bool_decide.
  - unfold apply_evm_deploy in Ho. apply st_bind_Ok in Ho as (s2&s3&Hg&Ho). injection Hg as <- <-.
    cbv zeta in Ho. case_bool_decide; [done|]. by eapply run_evm_receipts.
  - unfold apply_evm_call in Ho. apply st_bind_Ok in Ho as (s2&s3&Hg&Ho). injection Hg as <- <-.
    by eapply run_evm_receipts.
Qed.

Lemma execute_kind_receipts tx h e ms base s g r s' :
  execute_kind tx h e ms base s = (Ok (g, r), s') →
  receipts s' = receipts s ∧
  if leaves_receipt tx then ∃ rc, r = Some rc ∧ rc_tx_hash rc = tx_hash tx else r = None.
Proof.
  unfold execute_kind, leaves_receipt. intros Hx.
  destruct (tx_kind tx) eqn:Hk; try by eapply execute_evm_receipts.
  all: try (by repeat st_step).
  all: try (unfold execute_registry in Hx; by repeat st_step).
  - unfold execute_deploy in Hx. repeat st_step. split; [|by eexists].
    case_match; by repeat st_step.
  - unfold execute_call in Hx. repeat st_step. split; [|by eexists].
    case_match; by repeat st_step.
Qed.

Lemma settle_fees_receipts tx g r base s g' s' :
  settle_fees tx g r base s = (Ok g', s') →
  receipts s' = match r with
    | None => receipts s
    | Some rc => <[tx_hash tx := default rc (receipts s' !! tx_hash tx)]> (receipts s)
    end ∧
  (∀ rc, r = Some rc → ∃ rc', receipts s' !! tx_hash tx = Some rc' ∧
     rc_tx_hash rc' = rc_tx_hash rc ∧ rc_logs rc' = rc_logs rc).
Proof.
  unfold settle_fees. intros Hx. repeat st_step. destruct r as [rc|]; repeat st_step; [|done].
  simpl. rewrite lookup_insert_eq. split; [done|]. intros ? [= <-]. by eexists.
Qed.

(** A contract transaction writes its receipt, the others none. *)
Lemma apply_user_receipts tx h d e ms base s g s' :
  apply_user_transaction tx h d e ms base s = (Ok g, s') →
  (∀ k, k ≠ tx_hash tx → receipts s' !! k = receipts s !! k) ∧
  if leaves_receipt tx then ∃ r, receipts s' !! tx_hash tx = Some r ∧ rc_tx_hash r = tx_hash tx
  else receipts s' = receipts s.
Proof.
  unfold apply_user_transaction. intros Hx.
  apply st_bind_Ok in Hx as (?&s0&Ha&Hx). apply pair_equal_spec in Ha as [_ <-].
  apply st_bind_Ok in Hx as (?&s1&Hc&Hx). apply st_bind_Ok in Hx as ([g1 r]&s2&Hk&Hx).
  assert (receipts s1 = receipts s) as E1.
  { unfold on_account in Hc. destruct (charge_sender _ _ _ _ _ _) as [o a]. by injection Hc as _ <-. }
  apply execute_kind_receipts in Hk as [E2 Hk]. apply settle_fees_receipts in Hx as [E3 Hr].
  destruct (leaves_receipt tx).
  - destruct Hk as (rc&->&Eh). destruct (Hr rc eq_refl) as (r'&Hr'&Eh'&_). split.
    + intros k Hne. rewrite E3, lookup_insert_ne by done. by rewrite E2, E1.
    + exists r'. split; [done|congruence].
  - subst r. rewrite E3, E2, E1. done.
Qed.

(** The receipts of the loop over a block's transactions. *)
Lemma apply_block_receipts c hd i txs t s t' s' :
  apply_block_transactions c hd i txs t s = (Ok t', s') →
  (∀ k, k ∉ tx_hash <$> txs → receipts s' !! k = receipts s !! k) ∧
  ∀ tx, tx ∈ txs → is_coinbase tx = false →
    if leaves_receipt tx then ∃ r, receipts s' !! tx_hash tx = Some r ∧ rc_tx_hash r = tx_hash tx
    else receipts s' !! tx_hash tx = receipts s !! tx_hash tx.
Proof.
  revert i t s. induction txs as [|tx txs IH]; intros i t s Ha; simpl in Ha.
  { st_step. split; [done|]. by intros tx ?%elem_of_nil. }
  apply st_bind_Ok in Ha as (t1&s1&Ht&Ha).
  pose proof (apply_block_transactions_Ok _ _ _ _ _ _ _ _ Ha) as (_&Hfresh&_).
  apply apply_block_transaction_Ok in Ht as (_&Eh&Ht).
  assert (tx_hash tx ∉ tx_hash <$> txs) as Hni by (intros Hin; apply (Hfresh _ Hin); set_solver).
  apply IH in Ha as [Hk Htx].
  assert ((∀ k, k ≠ tx_hash tx → receipts s1 !! k = receipts s !! k) ∧
    (is_coinbase tx = false →
     if leaves_receipt tx then ∃ r, receipts s1 !! tx_hash tx = Some r ∧ rc_tx_hash r = tx_hash tx
     else receipts s1 = receipts s)) as [Hne Hr].
  { destruct (is_coinbase tx); [destruct Ht as (_&->&_); by split|].
    destruct Ht as (g&Hu&_). apply apply_user_receipts in Hu as [? ?]. done. }
  split.
  - intros k Hkn. rewrite fmap_cons in Hkn. apply not_elem_of_cons in Hkn as [Hk1 Hk2].
    rewrite Hk by done. by apply Hne.
  - intros tx' [->|Hin]%elem_of_cons Hcb.
    + rewrite Hk by done. specialize (Hr Hcb). destruct (leaves_receipt tx); [done|by rewrite Hr].
    + specialize (Htx tx' Hin Hcb). destruct (leaves_receipt tx'); [done|].
      rewrite Htx. apply Hne. intros Eq. apply Hni. rewrite <- Eq. by apply list_elem_of_fmap_2.
Qed.

(** The location of a transaction of the last block indexed. *)
Lemma index_receipt_other rs h itx ix k :
  k ≠ tx_hash itx.2 →
  receipt_locations (index_receipt rs h itx ix) !! k = receipt_locations ix !! k.
Proof.
  destruct itx as [i tx]. unfold index_receipt. simpl. intros Hne.
  destruct (is_coinbase tx); [done|]. destruct (rs !! tx_hash tx); [|done].
  simpl. by rewrite lookup_insert_ne.
Qed.

Lemma index_receipts_location rs b ix i tx r :
  NoDup (tx_hash <$> transactions b) → transactions b !! i = Some tx → is_coinbase tx = false →
  rs !! tx_hash tx = Some r →
  receipt_locations (index_receipts_of rs b ix) !! tx_hash tx =
    Some (mkLocation (height (header b)) i).
Proof.
  intros Hnd Hi Hcb Hr. unfold index_receipts_of.
  pose proof (lookup_lt_Some _ _ _ Hi) as Hlt.
  rewrite <- (take_drop_middle _ _ _ Hi) in Hnd |- *.
  rewrite imap_app, foldl_app. cbn [imap foldl].
  rewrite length_take_le by lia. rewrite Nat.add_0_r.
  set (ix1 := foldl _ ix _).
  rewrite fmap_app, fmap_cons in Hnd. apply NoDup_app in Hnd as (_&_&Hnd).
  apply NoDup_cons in Hnd as [Hni _].
  assert (∀ l ix2, (∀ p, p ∈ l → tx_hash p.2 ≠ tx_hash tx) →
    receipt_locations (foldl (λ ix itx, index_receipt rs (height (header b)) itx ix) ix2 l) !!
      tx_hash tx = receipt_locations ix2 !! tx_hash tx) as Hrest.
  { intros l. induction l as [|p l IH]; intros ix2 Hl; simpl; [done|].
    rewrite IH by (intros q Hq; apply Hl; by right).
    apply index_receipt_other. intros Eq. apply (Hl p); [left|done]. }
  rewrite Hrest.
  - unfold index_receipt. rewrite Hcb, Hr. simpl. apply lookup_insert_eq.
  - intros p Hp Eq. apply Hni. rewrite <- Eq. apply list_elem_of_fmap_2.
    apply list_elem_of_lookup in Hp as [j Hj]. rewrite list_lookup_imap in Hj.
    destruct (drop (S i) (transactions b) !! j) eqn:E; [|done]. injection Hj as <-.
    by eapply list_elem_of_lookup_2.
Qed.
End receipt_lemmas.

Section receipt_theorems.
Context `{Sha3} `{MlDsa} `{EvmEngine} `{WasmEngine} `{HashOrder} `{!Bincode SignableTransaction}
  `{!Bincode BlockHeader} `{!Bincode ProposalKind} `{!BincodeAccountLeaf} `{!BincodeStorageLeaf}
  `{!BincodeContractLeaf} `{!Json DeployTokenParams} `{!Json TokenTransferParams}
  `{!Json TokenApproveParams} `{!Json TokenTransferFromParams} `{!Json SubmitProposalParams}
  `{!Json GovernanceVoteParams}.

Lemma finish_block_receipts c b t s u s' :
  finish_block c b t s = (Ok u, s') → receipts s' = receipts s.
Proof. unfold finish_block. intros Hf. by repeat st_step. Qed.

Lemma commit_block_receipts b s c :
  receipts (bc_state (commit_block b s c)) = receipts s ∪ receipts (bc_state c).
Proof.
  unfold commit_block, remove_block_transactions_from_mempool, index_block, push_block_internal,
    block_count.
  destruct (foldl _ _ _) as [i j].
  destruct (insert_block _ _ _) as [[f t]|e]; simpl; by case_match.
Qed.

(** The receipts of an accepted block's transactions in the chain it leads to. *)
Lemma add_block_receipts now b c c' tx :
  add_block now b c = (Ok (), c') → tx ∈ transactions b → is_coinbase tx = false →
  NoDup (tx_hash <$> transactions b) ∧
  if leaves_receipt tx
  then ∃ r, receipts (bc_state c') !! tx_hash tx = Some r ∧ rc_tx_hash r = tx_hash tx
  else receipts (bc_state c') !! tx_hash tx = receipts (bc_state c) !! tx_hash tx.
Proof.
  intros Ha Htx Hcb. apply add_block_Ok in Ha as (s&Hv&->). rewrite commit_block_receipts.
  apply validate_Ok in Hv as (t&s1&_&_&Hl&Hf&_). apply finish_block_receipts in Hf.
  pose proof (apply_block_transactions_Ok _ _ _ _ _ _ _ _ Hl) as [Hnd _]. split; [done|].
  apply apply_block_receipts in Hl as [_ Hl]. specialize (Hl tx Htx Hcb). simpl in Hl.
  rewrite <- Hf in Hl. destruct (leaves_receipt tx).
  - destruct Hl as (r&Hr&Eh). exists r. by rewrite (lookup_union_Some_l _ _ _ _ Hr).
  - rewrite lookup_empty in Hl. rewrite lookup_union_r by done.
    unfold prepared, settle_epoch, open_epoch. by repeat case_match.
Qed.

(** A receipt can be found. When a block is accepted, each of its contract
    deployments and calls has a receipt of its own hash, and the query for that hash
    answers with it, at the block's height and the transaction's position. The
    other kinds, transfers, staking, tokens and governance, leave no receipt: the
    query answers that there is none. *)
Theorem accepted_receipts_found (now : Z) (b : Block) (c c' : Blockchain) (i : nat)
    (tx : Transaction) :
  chain_linked c → block_count c < u64_max → add_block now b c = (Ok (), c') →
  transactions b !! i = Some tx → is_coinbase tx = false →
  if leaves_receipt tx
  then ∃ r, rc_tx_hash r = tx_hash tx ∧
    get_receipt c' (tx_hash tx) = Some (mkIndexedReceipt (tx_hash tx) (height (header b)) i r)
  else receipts (bc_state c) !! tx_hash tx = None → get_receipt c' (tx_hash tx) = None.
Proof.
  intros Hl Hlim Ha Hi Hcb.
  destruct (add_block_receipts _ _ _ _ tx Ha (list_elem_of_lookup_2 _ _ _ Hi) Hcb) as [Hnd Hr].
  destruct (add_block_appends _ _ _ _ _ Hl Hlim Ha) as (Eb&_&_).
  unfold get_receipt. destruct (leaves_receipt tx).
  - destruct Hr as (r&Hr&Eh). exists r. split; [done|]. rewrite Hr, indexes_unfold, Eb. cbv zeta.
    rewrite foldl_app. simpl foldl. cbn [receipt_locations].
    rewrite (index_receipts_location _ _ _ i tx r) by done. done.
  - intros Hn. by rewrite Hr, Hn.
Qed.

(** A transaction found where the location says. *)
Definition located (c : Blockchain) (hash : bytes) (l : ReceiptLocation) : Prop :=
  ∃ b tx, b ∈ bc_blocks c ∧ height (header b) = rl_block_height l ∧
    transactions b !! rl_tx_index l = Some tx ∧ is_coinbase tx = false ∧ tx_hash tx = hash.

Lemma indexes_located c hash l :
  receipt_locations (indexes c) !! hash = Some l → located c hash l.
Proof.
  rewrite indexes_unfold. cbv zeta. cbn [receipt_locations].
  assert (∀ bs ix, (∀ b, b ∈ bs → b ∈ bc_blocks c) →
    (∀ k l, receipt_locations ix !! k = Some l → located c k l) →
    ∀ k l, receipt_locations (foldl (λ ix b, index_receipts_of (receipts (bc_state c)) b ix) ix bs)
             !! k = Some l → located c k l) as Hbs.
  { intros bs. induction bs as [|b bs IH]; intros ix Hin Hix; [done|]. simpl.
    apply IH; [intros; apply Hin; by right|]. unfold index_receipts_of.
    assert (b ∈ bc_blocks c) as Hb by (apply Hin; left).
    assert (∀ p, p ∈ imap pair (transactions b) → transactions b !! p.1 = Some p.2) as Hps.
    { intros [i tx] Hp. by apply elem_of_imap_pair. }
    revert ix Hix Hps. generalize (imap pair (transactions b)).
    intros ps. induction ps as [|[i tx] ps IHp]; intros ix Hix Hps; [done|]. simpl.
    apply IHp; [|intros; apply Hps; by right]. intros k l0. unfold index_receipt.
    destruct (is_coinbase tx) eqn:Ec; [apply Hix|]. destruct (_ !! tx_hash tx); [|apply Hix].
    simpl. intros [[<- <-]|[_ Hk]]%lookup_insert_Some; [|by apply Hix].
    exists b, tx. split_and!; try done. by apply (Hps (i, tx)); left. }
  apply Hbs; [done|]. intros k l0. simpl. by rewrite lookup_empty.
Qed.

(** A receipt that is found is the right one. On a linked chain the answer for a
    hash is the receipt stored under it, and the position it names holds, in the
    canonical block of that height, the transaction with that hash. *)
Theorem receipt_location_right (c : Blockchain) (hash : bytes) (r : IndexedReceipt) :
  chain_linked c → get_receipt c hash = Some r →
  ir_tx_hash r = hash ∧ receipts (bc_state c) !! hash = Some (ir_receipt r) ∧
  ∃ b tx, block_at_height c (ir_block_height r) = Some b ∧
    transactions b !! ir_tx_index r = Some tx ∧ is_coinbase tx = false ∧ tx_hash tx = hash.
Proof.
  intros Hl Hg. unfold get_receipt in Hg.
  destruct (receipts _ !! hash) as [rc|]; [|done]. simpl in Hg.
  destruct (_ !! hash) as [l|] eqn:El; [|done]. injection Hg as <-. simpl.
  split_and!; [done..|]. apply indexes_located in El as (b&tx&Hb&Eh&Hi&Hc&Ehash).
  exists b, tx. rewrite <- Eh. split; [|done]. by apply linked_block_at.
Qed.
End receipt_theorems.

(** ** Transactions of an address *)

Section address_theorems.
Context `{Sha3} `{!Bincode SignableTransaction}.

(** The transactions of a block that name the address. *)
Definition involving (address : bytes) (b : Block) : list (Z * nat * Transaction) :=
  omap (λ itx : nat * Transaction,
      if bool_decide (tx_from itx.2 = address) || bool_decide (tx_to itx.2 = address)
      then Some (height (header b), itx.1, itx.2) else None)
    (imap pair (transactions b)).

Definition in_range (from_block to_block : option Z) (b : Block) : Prop :=
  from_option (λ f, f ≤ height (header b)) True from_block ∧
  from_option (λ t, height (header b) ≤ t) True to_block.

#[global] Instance in_range_dec f t b : Decision (in_range f t b).
Proof. unfold in_range. destruct f, t; simpl; apply _. Defined.

Lemma collect_transactions_spec address limit h txs out :
  (length out < limit)%nat →
  let all := out ++ omap (λ itx : nat * Transaction,
      if bool_decide (tx_from itx.2 = address) || bool_decide (tx_to itx.2 = address)
      then Some (h, itx.1, itx.2) else None) txs in
  collect_transactions address limit h txs out =
    ((limit <=? length all)%nat, take limit all).
Proof.
  revert out. induction txs as [|[i tx] txs IH]; intros out Hlt; simpl.
  { rewrite app_nil_r, take_ge by lia. by rewrite (proj2 (Nat.leb_gt _ _) Hlt). }
  destruct (_ || _); [|by apply IH]. simpl.
  destruct (limit <=? length (out ++ [(h, i, tx)]))%nat eqn:E.
  - apply Nat.leb_le in E. rewrite length_app in E. simpl in E.
    match goal with |- context [take limit (out ++ ?x :: ?l)] =>
      replace (out ++ x :: l) with ((out ++ [x]) ++ l) by (by rewrite <- app_assoc) end.
    rewrite (proj2 (Nat.leb_le _ _)) by (rewrite !length_app; simpl; lia).
    f_equal. symmetry. apply take_app_length'. rewrite length_app. simpl. lia.
  - apply Nat.leb_gt in E. rewrite IH by done. by rewrite <- app_assoc.
Qed.

Lemma walk_transactions_spec address from_block to_block limit bs out :
  (length out < limit)%nat →
  StronglySorted (λ b d, height (header d) < height (header b)) bs →
  walk_transactions address from_block to_block limit bs out =
    take limit (out ++ (base.filter (in_range from_block to_block) bs ≫= involving address)).
Proof.
  intros Hlt Hs. revert out Hlt. induction Hs as [|b bs Hs IH Hb]; intros out Hlt; simpl.
  { by rewrite app_nil_r, take_ge by lia. }
  rewrite filter_cons. unfold in_range at 1.
  destruct (from_option (λ t, t <? height (header b)) false to_block) eqn:Et.
  { rewrite decide_False; [by apply IH|]. intros [_ Hto].
    destruct to_block; simpl in *; [bool_to_prop; lia|done]. }
  destruct (from_option (λ f, height (header b) <? f) false from_block) eqn:Ef.
  { destruct from_block as [f|]; [|done]. simpl in Ef. bool_to_prop.
    rewrite decide_False by (intros [Hf _]; simpl in Hf; lia).
    assert (base.filter (in_range (Some f) to_block) bs = []) as ->.
    { apply elem_of_nil_inv. intros d [[Hfd _] Hd]%list_elem_of_filter. simpl in Hfd.
      rewrite Forall_forall in Hb. apply Hb in Hd. lia. }
    simpl. by rewrite app_nil_r, take_ge by lia. }
  rewrite decide_True.
  2:{ destruct from_block, to_block; simpl in *; bool_to_prop; split; try done; lia. }
  rewrite collect_transactions_spec by done. cbv zeta. fold (involving address b). simpl.
  rewrite app_assoc. set (all := out ++ involving address b).
  destruct (limit <=? length all)%nat eqn:E.
  - apply Nat.leb_le in E. symmetry. by apply take_app_le.
  - apply Nat.leb_gt in E. rewrite take_ge by lia. by apply IH.
Qed.

(** The history of an address. On a linked chain the answer lists the transactions
    of the canonical chain, within the range of blocks, that the address sent or
    received, newest block first, cut at the limit, which is at most 1000; a limit
    of zero counts as one. *)
Theorem address_history_exact (c : Blockchain) (address : bytes) (from_block to_block : option Z)
    (limit : Z) :
  chain_linked c →
  let all := base.filter (in_range from_block to_block) (reverse (bc_blocks c)) ≫= involving address in
  (1 ≤ limit → transactions_for_address c address from_block to_block limit =
     take (Z.to_nat (Z.min limit 1000)) all) ∧
  transactions_for_address c address None None 0 = take 1 (reverse (bc_blocks c) ≫= involving address).
Proof.
  intros Hl all.
  assert (StronglySorted (λ b d, height (header d) < height (header b)) (reverse (bc_blocks c))) as Hs.
  { by apply (StronglySorted_reverse (λ b d, height (header b) < height (header d))),
      linked_heights_sorted. }
  split.
  - intros Hlim. unfold transactions_for_address.
    by rewrite walk_transactions_spec by (simpl; done || lia).
  - unfold transactions_for_address. change (Z.to_nat (Z.min 0 1000)) with 0%nat.
    clear all Hl Hs. generalize (reverse (bc_blocks c)). intros bs.
    assert (∀ h txs, collect_transactions address 0 h txs [] =
      let l := omap (λ itx : nat * Transaction,
        if bool_decide (tx_from itx.2 = address) || bool_decide (tx_to itx.2 = address)
        then Some (h, itx.1, itx.2) else None) txs in
      (match l with [] => false | _ => true end, take 1 l)) as Hc.
    { intros h txs. induction txs as [|[i tx] txs IH]; simpl; [done|]. by destruct (_ || _). }
    induction bs as [|b bs IH]; [done|]. simpl. rewrite Hc. cbv zeta.
    fold (involving address b). destruct (involving address b) as [|x l]; [exact IH|done].
Qed.
End address_theorems.

(** ** A chain with a contract that logs *)

Definition demo_log_wasm : WasmEngine.
Proof.
  refine {|
    compile_module code := Ok (code, false);
    wasm_call contract addr data caller value gas_limit :=
      if gas_limit <? 30000 then Err (OutOfGas gas_limit 30000)
      else Ok (storage contract,
               mkReceipt [] true 30000 0 0 0 0
                 [mkLogEntry addr [bstr "paid"] caller; mkLogEntry addr [bstr "done"; data] []]
                 [] None) |}.
  intros contract addr data caller value gas_limit st r. case_match eqn:E; [done|].
  intros [= _ <-]. simpl. apply Z.ltb_ge in E. lia.
Defined.

Module LogDemo.
#[export] Existing Instances demo_sha3 demo_mldsa demo_evm demo_log_wasm demo_bincode_tx
  demo_bincode_header demo_bincode_proposal demo_bincode_account_leaf
  demo_bincode_storage_leaf demo_bincode_contract_leaf demo_order demo_hex no_json.
End LogDemo.

Section demo.
Import LogDemo.

Definition demo_contract : bytes :=
  take 20 (sha3_hash_domain (bstr "curs3d-contract-addr-v2")
    [demo_address 7; to_le_bytes 8 0; to_le_bytes 8 1]).
Definition demo_deployment : Transaction :=
  demo_sign 7 (transaction_deploy_contract "c" (demo_public_key 7) (bstr "code") 60000 2 0 0).
Definition demo_invocation : Transaction :=
  demo_sign 7 (transaction_call_contract "c" (demo_public_key 7) demo_contract (bstr "go") 0 40000 2 1 0).

Definition log_chain : Blockchain :=
  demo_chain 200000 [demo_deployment; demo_invocation; demo_payment 2].
Definition log_block : Block :=
  unwrap_or demo_genesis (create_block demo_now demo_now log_chain (demo_keypair 1)).
Definition log_after : result ChainError () * Blockchain := add_block demo_now log_block log_chain.

Definition demo_filter : LogFilter :=
  mkLogFilter (Some demo_contract) None (Some [None; Some (bstr "go")]) (Some 0) None None.

(** The run, and what the queries answer on it. *)
Lemma log_demo_ok :
  is_ok log_after.1 &&
  (length (transactions log_block) =? 4)%nat &&
  bool_decide (transactions log_block !! 2%nat = Some demo_invocation) &&
  bool_decide (transactions log_block !! 3%nat = Some (demo_payment 2)) &&
  (length (query_logs log_after.2 demo_filter) =? 1)%nat &&
  (length (query_logs log_after.2 log_filter_default) =? 2)%nat &&
  is_some (get_receipt log_after.2 (tx_hash demo_invocation)) &&
  (length (transactions_for_address log_after.2 (demo_address 7) None None 2) =? 2)%nat = true.
Proof. vm_compute. exact eq_refl. Qed.

Lemma log_after_run : add_block demo_now log_block log_chain = (Ok (), log_after.2).
Proof. destruct (andb8 _ _ _ _ _ _ _ _ log_demo_ok) as (Hd&_). by apply run_ok. Qed.

Lemma log_invocation_in : transactions log_block !! 2%nat = Some demo_invocation.
Proof.
  destruct (andb8 _ _ _ _ _ _ _ _ log_demo_ok) as (_&_&Hd&_).
  apply bool_decide_eq_true_1 in Hd. exact Hd.
Qed.

Lemma log_chain_linked : chain_linked log_chain.
Proof.
  split; [discriminate|]. intros [|[|i]] b; simpl; try discriminate.
  intros [= <-]. split; [exact eq_refl|]. intros p Hp. inversion Hp.
Qed.

Lemma log_after_linked : chain_linked log_after.2.
Proof. exact (add_block_linked demo_now log_block log_chain log_chain_linked eq_refl). Qed.

Lemma query_logs_exact_witness :
  length (query_logs log_after.2 demo_filter) = 1%nat ∧
  (∀ e, e ∈ query_logs log_after.2 demo_filter →
     canonical_log log_after.2 e ∧ selects demo_filter e).
Proof.
  destruct (andb8 _ _ _ _ _ _ _ _ log_demo_ok) as (_&_&_&_&Hd&_).
  apply Nat.eqb_eq in Hd. split; [exact Hd|].
  exact (proj1 (proj2 (proj2 (proj2 (query_logs_exact log_after.2 demo_filter log_after_linked))))).
Defined.

Lemma accepted_receipts_found_witness :
  ∃ r, rc_tx_hash r = tx_hash demo_invocation ∧
    get_receipt log_after.2 (tx_hash demo_invocation) =
      Some (mkIndexedReceipt (tx_hash demo_invocation) (height (header log_block)) 2 r).
Proof.
  exact (accepted_receipts_found demo_now log_block log_chain log_after.2 2 demo_invocation
    log_chain_linked eq_refl log_after_run log_invocation_in eq_refl).
Defined.

Lemma log_receipt_found :
  is_Some (get_receipt log_after.2 (tx_hash demo_invocation)).
Proof.
  destruct (andb8 _ _ _ _ _ _ _ _ log_demo_ok) as (_&_&_&_&_&_&Hd&_). revert Hd.
  generalize (get_receipt log_after.2 (tx_hash demo_invocation)). intros [r|]; [by eexists|discriminate].
Qed.

Lemma receipt_location_right_witness :
  ∃ r, get_receipt log_after.2 (tx_hash demo_invocation) = Some r ∧
    receipts (bc_state log_after.2) !! tx_hash demo_invocation = Some (ir_receipt r).
Proof.
  destruct log_receipt_found as [r Hr]. exists r. split; [exact Hr|].
  exact (proj1 (proj2 (receipt_location_right log_after.2 (tx_hash demo_invocation) r
    log_after_linked Hr))).
Defined.

Lemma address_history_exact_witness :
  transactions_for_address log_after.2 (demo_address 7) None None 2 =
    take 2 (base.filter (in_range None None) (reverse (bc_blocks log_after.2)) ≫=
              involving (demo_address 7)).
Proof.
  exact (proj1 (address_history_exact log_after.2 (demo_address 7) None None 2 log_after_linked)
    ltac:(done)).
Defined.
End demo.
