(* ===== verification/Text.v ===== *)
(** * Text: strings, hexadecimal, JSON values

    A [String] or [&str] is a string of the UTF-8 bytes. The functions of the
    standard library that the API parses its parameters with, the crate [hex] as an
    interface with its laws, and the values of the crate [serde_json]. *)
From stdpp Require Import pretty.
From S2P Require Import Prelude.

(** ** Strings *)

(** [str::strip_prefix]. *)
Fixpoint strip_prefix (p s : string) : option string :=
  match p, s with
  | EmptyString, _ => Some s
  | String a p, String b s => if Ascii.eqb a b then strip_prefix p s else None
  | String _ _, EmptyString => None
  end.

(** [str::trim] removes what Unicode calls white space, here in UTF-8. *)
Definition white_space : list bytes :=
  [[x09]; [x0a]; [x0b]; [x0c]; [x0d]; [x20]; [xc2; x85]; [xc2; xa0]; [xe1; x9a; x80];
   [xe2; x80; x80]; [xe2; x80; x81]; [xe2; x80; x82]; [xe2; x80; x83]; [xe2; x80; x84];
   [xe2; x80; x85]; [xe2; x80; x86]; [xe2; x80; x87]; [xe2; x80; x88]; [xe2; x80; x89];
   [xe2; x80; x8a]; [xe2; x80; xa8]; [xe2; x80; xa9]; [xe2; x80; xaf]; [xe2; x81; x9f];
   [xe3; x80; x80]].

Definition starts_with (w l : bytes) : bool := bool_decide (take (length w) l = w).

(** One step per byte is enough: each removes at least one. *)
Fixpoint trim_loop (fuel : nat) (ws : list bytes) (l : bytes) : bytes :=
  match fuel with
  | O => l
  | S fuel =>
      match find (λ w, starts_with w l) ws with
      | Some w => trim_loop fuel ws (drop (length w) l)
      | None => l
      end
  end.
Definition trim_bytes (ws : list bytes) (l : bytes) : bytes := trim_loop (length l) ws l.
Definition trim (s : string) : string :=
  String.string_of_list_byte
    (reverse (trim_bytes (reverse <$> white_space)
       (reverse (trim_bytes white_space (bstr s))))).

(** [format!("{:x}", n)] of a [u64]: at most sixteen digits. *)
Definition hex_char (d : Z) : Ascii.ascii :=
  Ascii.ascii_of_N (Z.to_N (if d <? 10 then 48 + d else 87 + d)).
Fixpoint hex_digits (fuel : nat) (n : Z) (acc : string) : string :=
  match fuel with
  | O => acc
  | S fuel =>
      let acc := String (hex_char (n mod 16)) acc in
      if n / 16 =? 0 then acc else hex_digits fuel (n / 16) acc
  end.
Definition lower_hex (n : Z) : string := hex_digits 16 n "".

(** [u64::from_str_radix(s, 16)], which takes either case and a leading [+]. *)
Definition hex_digit_value (a : Ascii.ascii) : option Z :=
  let n := Z.of_N (Ascii.N_of_ascii a) in
  if (48 <=? n) && (n <=? 57) then Some (n - 48)
  else if (97 <=? n) && (n <=? 102) then Some (n - 87)
  else if (65 <=? n) && (n <=? 70) then Some (n - 55)
  else None.
Fixpoint radix16_loop (acc : Z) (s : string) : option Z :=
  match s with
  | EmptyString => Some acc
  | String a s =>
      d ← hex_digit_value a;
      if u64_max <? acc * 16 + d then None else radix16_loop (acc * 16 + d) s
  end.
Definition plus_sign : Ascii.ascii := Ascii.ascii_of_N 43.
Definition u64_from_str_radix_16 (s : string) : option Z :=
  match s with
  | EmptyString => None
  | String a t =>
      if Ascii.eqb a plus_sign
      then match t with EmptyString => None | _ => radix16_loop 0 t end
      else radix16_loop 0 s
  end.

(** [str::parse::<u64>], and [usize], which has the same width. *)
Definition decimal_digit_value (a : Ascii.ascii) : option Z :=
  let n := Z.of_N (Ascii.N_of_ascii a) in
  if (48 <=? n) && (n <=? 57) then Some (n - 48) else None.
Fixpoint radix10_loop (acc : Z) (s : string) : option Z :=
  match s with
  | EmptyString => Some acc
  | String a s =>
      d ← decimal_digit_value a;
      if u64_max <? acc * 10 + d then None else radix10_loop (acc * 10 + d) s
  end.
Definition u64_parse (s : string) : option Z :=
  match s with
  | EmptyString => None
  | String a t =>
      if Ascii.eqb a plus_sign
      then match t with EmptyString => None | _ => radix10_loop 0 t end
      else radix10_loop 0 s
  end.

(** [str::split] at a character: the pieces, empty ones included. *)
Fixpoint split_char (sep : Ascii.ascii) (s : string) : list string :=
  match s with
  | EmptyString => [EmptyString]
  | String a s =>
      if Ascii.eqb a sep then EmptyString :: split_char sep s
      else match split_char sep s with
           | piece :: pieces => String a piece :: pieces
           | [] => [String a EmptyString]
           end
  end.

(** [str::split_once]. *)
Fixpoint split_once (sep : Ascii.ascii) (s : string) : option (string * string) :=
  match s with
  | EmptyString => None
  | String a s =>
      if Ascii.eqb a sep then Some (EmptyString, s)
      else prod_map (String a) id <$> split_once sep s
  end.

(** ** The crate [hex]

    [encode] writes two lower-case digits per byte; [decode] reads them back in
    either case and refuses an odd number of digits and anything else. *)
Class Hex := {
  hex_encode_bytes : bytes → string;
  hex_decode_text : string → option bytes;
  hex_decode_encode b : hex_decode_text (hex_encode_bytes b) = Some b;
  hex_encode_nil : hex_encode_bytes [] = EmptyString;
  hex_encode_digits b x : x ∈ bstr (hex_encode_bytes b) → is_Some (hex_digit_value (Ascii.ascii_of_byte x));
  hex_encode_length b : String.length (hex_encode_bytes b) = (2 * length b)%nat;
  hex_decode_length s b : hex_decode_text s = Some b → String.length s = (2 * length b)%nat;
}.

(** ** JSON

    [serde_json::Value]. A key occurs once in an object; the order of the keys is
    that of the literal. A [Float] is mantissa times a power of two. *)
Inductive Number :=
  | PosInt (n : Z)
  | NegInt (n : Z)
  | Float (mantissa exponent : Z).

Inductive Value :=
  | VNull
  | VBool (b : bool)
  | VNumber (n : Number)
  | VString (s : string)
  | VArray (l : list Value)
  | VObject (m : list (string * Value)).

Fixpoint map_get (m : list (string * Value)) (key : string) : option Value :=
  match m with
  | [] => None
  | (k, v) :: m => if bool_decide (k = key) then Some v else map_get m key
  end.
Definition json_get (v : Value) (key : string) : option Value :=
  match v with VObject m => map_get m key | _ => None end.
Definition as_str (v : Value) : option string := match v with VString s => Some s | _ => None end.
Definition as_bool (v : Value) : option bool := match v with VBool b => Some b | _ => None end.
Definition as_u64 (v : Value) : option Z :=
  match v with VNumber (PosInt n) => Some n | _ => None end.
Definition as_array (v : Value) : option (list Value) :=
  match v with VArray l => Some l | _ => None end.
Definition as_object (v : Value) : option (list (string * Value)) :=
  match v with VObject m => Some m | _ => None end.

(** ** Lemmas *)

Lemma hex_char_value d : 0 ≤ d < 16 → hex_digit_value (hex_char d) = Some d.
Proof.
  intros Hd. assert (∃ n : nat, d = Z.of_nat n ∧ (n < 16)%nat) as (n&->&Hn)
    by (exists (Z.to_nat d); lia).
  do 16 (destruct n as [|n]; [reflexivity|]). lia.
Qed.

Lemma hex_digits_cons fuel n acc :
  0 ≤ n → ∃ d s, 0 ≤ d < 16 ∧ hex_digits (S fuel) n acc = String (hex_char d) s.
Proof.
  revert n acc. induction fuel as [|fuel IH]; intros n acc Hn; cbn [hex_digits].
  - assert (0 ≤ n mod 16 < 16) by (apply Z.mod_pos_bound; lia). case_match; eauto.
  - assert (0 ≤ n mod 16 < 16) by (apply Z.mod_pos_bound; lia). case_match; [by eauto|].
    apply (IH (n / 16)). apply Z.div_pos; lia.
Qed.

Lemma radix16_hex_digits fuel n acc :
  0 ≤ n < 16 ^ Z.of_nat fuel → n ≤ u64_max → (0 < fuel)%nat →
  radix16_loop 0 (hex_digits fuel n acc) = radix16_loop n acc.
Proof.
  revert n acc. induction fuel as [|fuel IH]; intros n acc Hn Hm Hf; [lia|].
  cbn [hex_digits]. pose proof (Z.div_mod n 16 ltac:(lia)) as Hdm.
  assert (0 ≤ n mod 16 < 16) as Hmod by (apply Z.mod_pos_bound; lia).
  destruct (n / 16 =? 0) eqn:E; bool_to_prop.
  - cbn [radix16_loop]. rewrite hex_char_value by done. simpl mbind.
    replace (0 * 16 + n mod 16) with n by lia. by rewrite (proj2 (Z.ltb_ge _ _)).
  - rewrite Nat2Z.inj_succ, Z.pow_succ_r in Hn by lia.
    assert (0 ≤ n / 16) by (apply Z.div_pos; lia).
    rewrite IH; [|split; [done|apply Z.div_lt_upper_bound; lia]|lia|].
    2:{ destruct fuel; [|lia]. simpl in Hn. assert (n / 16 = 0) by (apply Z.div_small; lia). lia. }
    cbn [radix16_loop]. rewrite hex_char_value by done. simpl mbind.
    replace (n / 16 * 16 + n mod 16) with n by lia. by rewrite (proj2 (Z.ltb_ge _ _)).
Qed.

Lemma lower_hex_cons n : 0 ≤ n → ∃ d s, 0 ≤ d < 16 ∧ lower_hex n = String (hex_char d) s.
Proof. apply (hex_digits_cons 15). Qed.

Lemma hex_char_not d a : 0 ≤ d < 16 → hex_digit_value a = None → Ascii.eqb (hex_char d) a = false.
Proof.
  intros Hd Ha. apply Ascii.eqb_neq. intros <-. by rewrite hex_char_value in Ha.
Qed.

(** What is printed is read back. *)
Lemma from_str_radix_lower_hex n : is_u64 n → u64_from_str_radix_16 (lower_hex n) = Some n.
Proof.
  intros [Hn Hm]. destruct (lower_hex_cons n Hn) as (d&s&Hd&E).
  transitivity (radix16_loop 0 (lower_hex n)).
  - rewrite E. unfold u64_from_str_radix_16. by rewrite (hex_char_not d plus_sign Hd).
  - unfold lower_hex. rewrite radix16_hex_digits; [done| |done|lia].
    split; [done|]. unfold u64_max in Hm. change (16 ^ Z.of_nat 16) with 18446744073709551616. lia.
Qed.

(** ** Trimming

    Text whose first and last bytes are printable ASCII is left as it is. *)

Definition printable (x : byte) : bool := (33 <=? byte_Z x) && (byte_Z x <=? 126).

Lemma white_space_starts :
  forallb (λ w, match w with [] => false | x :: _ => negb (printable x) end)
    (white_space ++ (reverse <$> white_space)) = true.
Proof. vm_compute. exact eq_refl. Qed.

Lemma trim_bytes_printable ws x l :
  (∀ w, w ∈ ws → w ∈ white_space ++ (reverse <$> white_space)) → printable x = true →
  trim_bytes ws (x :: l) = x :: l.
Proof.
  intros Hws Hx. unfold trim_bytes. cbn [length trim_loop].
  destruct (find _ ws) as [w|] eqn:E; [|done].
  apply find_some in E as [Hin Hs]. apply list_elem_of_In, Hws in Hin.
  pose proof white_space_starts as Hall. rewrite forallb_forall in Hall.
  apply list_elem_of_In, Hall in Hin. destruct w as [|y w]; [done|].
  unfold starts_with in Hs. apply bool_decide_eq_true in Hs. cbn [length take] in Hs.
  injection Hs as -> _. by rewrite Hx in Hin.
Qed.

Lemma trim_printable x l y :
  printable x = true → printable y = true →
  trim (String.string_of_list_byte (x :: l ++ [y])) = String.string_of_list_byte (x :: l ++ [y]) ∧
  (l = [] → trim (String.string_of_list_byte [x]) = String.string_of_list_byte [x]).
Proof.
  intros Hx Hy. unfold trim, bstr. rewrite !String.list_byte_of_string_of_list_byte.
  assert (∀ w, w ∈ white_space → w ∈ white_space ++ (reverse <$> white_space)) as H1
    by (intros; apply elem_of_app; by left).
  assert (∀ w, w ∈ reverse <$> white_space → w ∈ white_space ++ (reverse <$> white_space)) as H2
    by (intros; apply elem_of_app; by right).
  split.
  - rewrite trim_bytes_printable by done.
    rewrite reverse_cons, reverse_snoc. cbn [app]. rewrite trim_bytes_printable by done.
    by rewrite reverse_cons, reverse_app, reverse_involutive.
  - intros _. rewrite trim_bytes_printable by done. rewrite reverse_singleton.
    by rewrite trim_bytes_printable by done.
Qed.

Lemma trim_id s : (∀ x, x ∈ bstr s → printable x = true) → trim s = s.
Proof.
  intros Hs. rewrite <- (String.string_of_list_byte_of_string s). change (String.list_byte_of_string s)
    with (bstr s). destruct (bstr s) as [|x l] eqn:E; [reflexivity|].
  destruct l as [|y l _] using rev_ind.
  - assert (printable x = true) as Hx by (apply Hs; by left).
    exact (proj2 (trim_printable x [] x Hx Hx) eq_refl).
  - assert (printable x = true) as Hx by (apply Hs; by left).
    assert (printable y = true) as Hy.
    { apply Hs. right. apply elem_of_app. right. by left. }
    exact (proj1 (trim_printable x l y Hx Hy)).
Qed.

Lemma bstr_app s t : bstr (s +:+ t) = bstr s ++ bstr t.
Proof.
  unfold bstr, String.list_byte_of_string. induction s as [|a s IH]; [done|].
  simpl. by rewrite IH.
Qed.

Lemma hex_digit_printable x : is_Some (hex_digit_value (Ascii.ascii_of_byte x)) → printable x = true.
Proof.
  unfold hex_digit_value, printable, byte_Z. rewrite Ascii.ascii_of_byte_via_N.
  rewrite Ascii.N_ascii_embedding by (pose proof (Byte.to_N_bounded x); lia).
  intros [v Hv]. generalize dependent (Z.of_N (Byte.to_N x)). intros n Hv.
  repeat case_match; bool_to_prop; try done; lia.
Qed.

Lemma hex_text_trim `{Hex} b : trim ("0x" +:+ hex_encode_bytes b) = "0x" +:+ hex_encode_bytes b.
Proof.
  apply trim_id. intros x. rewrite bstr_app, elem_of_app. intros [Hx|Hx].
  - change (x ∈ [x30; x78]) in Hx. apply elem_of_cons in Hx as [->|Hx]; [done|].
    by apply list_elem_of_singleton in Hx as ->.
  - by eapply hex_digit_printable, hex_encode_digits.
Qed.

Lemma hex_decode_nil `{Hex} : hex_decode_text "" = Some [].
Proof. rewrite <- hex_encode_nil. apply hex_decode_encode. Qed.

(** ** A concrete codec *)

Fixpoint encode_pairs (b : bytes) : string :=
  match b with
  | [] => EmptyString
  | x :: b =>
      String (hex_char (byte_Z x / 16)) (String (hex_char (byte_Z x mod 16)) (encode_pairs b))
  end.

Fixpoint decode_pairs (s : string) : option bytes :=
  match s with
  | EmptyString => Some []
  | String a (String c s) =>
      h ← hex_digit_value a; l ← hex_digit_value c; b ← decode_pairs s;
      Some (byte_of_Z (16 * h + l) :: b)
  | String _ EmptyString => None
  end.

Lemma nibbles x : 0 ≤ byte_Z x / 16 < 16 ∧ 0 ≤ byte_Z x mod 16 < 16.
Proof.
  pose proof (byte_Z_range x). split; [|by apply Z.mod_pos_bound].
  split; [apply Z.div_pos; lia|apply Z.div_lt_upper_bound; lia].
Qed.

Lemma decode_encode_pairs b : decode_pairs (encode_pairs b) = Some b.
Proof.
  induction b as [|x b IH]; [done|]. cbn [encode_pairs decode_pairs].
  destruct (nibbles x) as [Hh Hl]. rewrite !hex_char_value by done. simpl mbind.
  rewrite IH. simpl mbind. do 2 f_equal. rewrite <- Z.div_mod by lia. apply byte_of_byte_Z.
Qed.

Lemma decode_pairs_length n s b :
  (String.length s ≤ n)%nat → decode_pairs s = Some b → String.length s = (2 * length b)%nat.
Proof.
  revert s b. induction n as [|n IH]; intros [|a [|c s]] b Hn Hd; simpl in *; try lia; try done;
    try (by injection Hd as <-).
  destruct (hex_digit_value a); [|done]. destruct (hex_digit_value c); [|done]. simpl in Hd.
  destruct (decode_pairs s) as [d|] eqn:E; [|done]. injection Hd as <-.
  apply IH in E; [|lia]. simpl. lia.
Qed.

Definition hex_codec : Hex.
Proof.
  refine {| hex_encode_bytes := encode_pairs; hex_decode_text := decode_pairs |}.
  - apply decode_encode_pairs.
  - done.
  - assert (∀ d, 0 ≤ d < 16 → is_Some (hex_digit_value (Ascii.ascii_of_byte
      (Ascii.byte_of_ascii (hex_char d))))) as Hd.
    { intros d Hd. rewrite Ascii.ascii_of_byte_of_ascii, hex_char_value by done. by eexists. }
    intros b x. induction b as [|y b IH]; [by intros ?%elem_of_nil|].
    destruct (nibbles y) as [Hh Hl]. unfold bstr, String.list_byte_of_string.
    cbn [encode_pairs String.list_ascii_of_string map].
    intros Hx. apply elem_of_cons in Hx as [->|Hx]; [by apply Hd|].
    apply elem_of_cons in Hx as [->|Hx]; [by apply Hd|by apply IH].
  - intros b. induction b as [|x b IH]; simpl; [done|]. rewrite IH. lia.
  - intros s b. by apply (decode_pairs_length (String.length s)).
Defined.
