(* ===== verification/EthRpc.v ===== *)
(** * The Ethereum JSON-RPC API ([src/api/eth_rpc.rs])

    A request and its answer are JSON values. A handler per method answers with a
    value or with a code and a message; the lock on the chain makes each an atomic
    step on it. The wall clock is an argument. The texts of the errors of the chain
    and of the EVM are a parameter. *)
From stdpp Require Import pretty.
From S2P Require Import Prelude Hash Crypto Vm Transaction Token Governance Block Account.
From S2P Require Import Validators Finality Settlement BlockTree Trie StateRoot Chain Apply.
From S2P Require Import Ledger AddBlock Mempool Queries Text.

Definition CLIENT_VERSION : string := "curs3d/v0.3.5/rust".
Definition MAX_LOG_RANGE : Z := 10000.
Definition MAX_JSONRPC_BATCH_SIZE : nat := 1024.

(** [Display] of the errors. *)
Class ErrorText := {
  chain_error_text : ChainError → string;
  evm_error_text : EvmError → string;
}.

(** [serde_json::from_slice]. *)
Class JsonText := parse_json : bytes → option Value.

Definition zeros (n : nat) : string := String.string_of_list_byte (replicate n x30).

(** ** Parameters and quantities *)

Definition hex_u64 (value : Z) : string := "0x" +:+ lower_hex value.

Definition parse_hex_quantity (value : string) : option Z :=
  let stripped := default value (strip_prefix "0x" value) in
  if bool_decide (stripped = "") then Some 0 else u64_from_str_radix_16 stripped.

Section parameters.
Context `{Sha3} `{Hex}.

(** [numeric_chain_id]. *)
Definition numeric_chain_id (chain_id : string) : Z :=
  let digest := sha3_hash (bstr chain_id) in
  Z.land (from_le_bytes (reverse (take 4 digest))) 2147483647.

Definition hex_bytes (b : bytes) : string :=
  if bool_decide (b = []) then "0x" else "0x" +:+ hex_encode_bytes b.

Definition hex_storage_word (b : bytes) : string :=
  let word := if (32 <=? length b)%nat then drop (length b - 32) b
              else replicate (32 - length b) x00 ++ b in
  "0x" +:+ hex_encode_bytes word.

Definition parse_hex_address (value : string) : option bytes :=
  let value := trim value in
  let stripped :=
    match strip_prefix "0x" value with
    | Some s => s
    | None => default value (strip_prefix "CUR" value)
    end in
  b ← hex_decode_text stripped;
  if bool_decide (length b = ADDRESS_LEN) then Some b else None.

Definition parse_hex_hash (value : string) : option bytes :=
  let value := trim value in
  hex_decode_text (default value (strip_prefix "0x" value)).

Definition parse_storage_slot (value : string) : option bytes :=
  let stripped := default (trim value) (strip_prefix "0x" (trim value)) in
  if bool_decide (stripped = "") then Some (replicate 32 x00)
  else
    let padded := if Nat.odd (String.length stripped) then "0" +:+ stripped else stripped in
    b ← hex_decode_text padded;
    if (32 <? length b)%nat then None else Some (replicate (32 - length b) x00 ++ b).

End parameters.

(** [resolve_block_tag]. *)
Definition resolve_block_tag (c : Blockchain) (tag : Value) : option Z :=
  match tag with
  | VString s =>
      if bool_decide (s = "latest") || bool_decide (s = "pending") then Some (chain_height c)
      else if bool_decide (s = "earliest") then Some 0
      else if bool_decide (s = "finalized") || bool_decide (s = "safe")
      then Some (finalized_height (finality_tracker c))
      else parse_hex_quantity s
  | VNull => Some (chain_height c)
  | _ => None
  end.

(** ** Answers *)

Definition rpc_error (id : Value) (code : Z) (message : string) : Value :=
  VObject [("jsonrpc", VString "2.0"); ("id", id);
           ("error", VObject [("code", VNumber (NegInt code)); ("message", VString message)])].

Definition rpc_success (id result : Value) : Value :=
  VObject [("jsonrpc", VString "2.0"); ("id", id); ("result", result)].

(** A handler's answer: a result, or the arguments of [rpc_error]. *)
Definition answer := result (Z * string) Value.
Definition reply (id : Value) (a : answer) : Value :=
  match a with Ok v => rpc_success id v | Err (code, message) => rpc_error id code message end.
Definition invalid {A} (message : string) : result (Z * string) A := Err (-32602, message).

(** [params_arr.first().and_then(|v| v.as_str())] and the like. *)
Definition param_str (params : list Value) (i : nat) : option string :=
  v ← params !! i; as_str v.

(** [x.map(Value::String).unwrap_or(Value::Null)]. *)
Definition or_null (o : option string) : Value := from_option VString VNull o.

(** [estimate_eth_gas]. *)
Definition call_data (call_obj : list (string * Value)) : option string :=
  v ← (match map_get call_obj "data" with Some v => Some v | None => map_get call_obj "input" end);
  as_str v.

Definition estimate_eth_gas `{Hex} (params : list Value) : Z :=
  match (v ← head params; as_object v) with
  | None => 21000
  | Some call_obj =>
      let is_deploy :=
        bool_decide ((v ← map_get call_obj "to"; s ← as_str v; parse_hex_address s) = None) in
      let data_len := from_option (λ b, Z.of_nat (length b)) 0
        (s ← call_data call_obj; parse_hex_hash s) in
      let intrinsic := saturating_add 21000 (saturating_mul data_len 16) in
      let estimated :=
        if is_deploy then Z.max (saturating_add intrinsic 5000000) 8000000
        else if data_len =? 0 then intrinsic
        else Z.max (saturating_add intrinsic 500000) 750000 in
      Z.min estimated DEFAULT_BLOCK_GAS_LIMIT
  end.

Section rpc.
Context `{Sha3} `{MlDsa} `{EvmEngine} `{WasmEngine} `{RustSort} `{!Bincode SignableTransaction}
  `{!Bincode ProposalKind} `{!Json DeployTokenParams} `{!Json TokenTransferParams}
  `{!Json TokenApproveParams} `{!Json TokenTransferFromParams} `{!Json SubmitProposalParams}
  `{!Json GovernanceVoteParams} `{Hex} `{ErrorText} `{JsonText}.

(** ** Views of blocks, transactions, receipts and logs *)

Definition eth_wire_hash (tx : Transaction) : string :=
  let internal := "0x" +:+ hex_encode_bytes (tx_hash tx) in
  if is_evm tx then
    match decode_raw_eth_tx (tx_evm_raw_tx tx) with
    | Ok decoded => "0x" +:+ hex_encode_bytes (raw_tx_hash decoded)
    | Err _ => internal
    end
  else internal.

Definition resolve_eth_tx_lookup (c : Blockchain) (hash : bytes) : option (Z * nat) :=
  match evm_tx_hash_index c !! hash with
  | Some loc => Some loc
  | None => tx_hash_index c !! hash
  end.

Definition eth_recipient (tx : Transaction) : Value :=
  if bool_decide (tx_kind tx = DeployEvmContract) then VNull else VString (hex_bytes (tx_to tx)).

Definition tx_to_eth (c : Blockchain) (tx : Transaction) (location : option (Z * nat)) : Value :=
  let '(block_number, hash_value, tx_index) :=
    match location with
    | Some (h, i) =>
        (VString (hex_u64 h),
         from_option (λ b, VString (hex_bytes (block_hash b))) VNull (block_at_height c h),
         VString (hex_u64 (Z.of_nat i)))
    | None => (VNull, VNull, VNull)
    end in
  VObject [
    ("hash", VString (eth_wire_hash tx));
    ("from", VString (hex_bytes (tx_from tx)));
    ("to", eth_recipient tx);
    ("value", VString (hex_u64 (tx_amount tx)));
    ("nonce", VString (hex_u64 (tx_nonce tx)));
    ("gas", VString (hex_u64 (tx_gas_limit tx)));
    ("gasPrice", VString (hex_u64 (Z.max (tx_max_fee_per_gas tx) (tx_fee tx))));
    ("maxFeePerGas", VString (hex_u64 (tx_max_fee_per_gas tx)));
    ("maxPriorityFeePerGas", VString (hex_u64 (tx_max_priority_fee_per_gas tx)));
    ("input", VString (hex_bytes (tx_data tx)));
    ("blockNumber", block_number);
    ("blockHash", hash_value);
    ("transactionIndex", tx_index);
    ("type", VString "0x2");
    ("chainId", VString (hex_u64 (numeric_chain_id (tx_chain_id tx))))].

Definition block_to_eth (c : Blockchain) (b : Block) (full_tx : bool) : Value :=
  let hd := header b in
  let txs := VArray
    (if full_tx
     then imap (λ idx tx, tx_to_eth c tx (Some (height hd, idx))) (transactions b)
     else (λ tx, VString (eth_wire_hash tx)) <$> transactions b) in
  VObject [
    ("number", VString (hex_u64 (height hd)));
    ("hash", VString (hex_bytes (block_hash b)));
    ("parentHash", VString (hex_bytes (prev_hash hd)));
    ("sha3Uncles",
       VString "0x1dcc4de8dec75d7aab85b567b6ccd41ad312451b948a7413f0a142fd40d49347");
    ("mixHash", VString ("0x" +:+ zeros 64));
    ("timestamp", VString (hex_u64 (Z.max (timestamp hd) 0)));
    ("miner", VString (hex_bytes (address_bytes_from_public_key (validator_public_key hd))));
    ("validator", VString (hex_bytes (validator_public_key hd)));
    ("stateRoot", VString (hex_bytes (state_root hd)));
    ("transactionsRoot", VString (hex_bytes (hd_merkle_root hd)));
    ("receiptsRoot", VString (hex_bytes (hd_merkle_root hd)));
    ("logsBloom", VString ("0x" +:+ zeros 512));
    ("difficulty", VString "0x0");
    ("totalDifficulty", VString "0x0");
    ("size", VString (hex_u64 (Z.of_nat (length (transactions b)))));
    ("gasLimit", VString (hex_u64 (gc_block_gas_limit (genesis_config (bc_params c)))));
    ("gasUsed", VString "0x0");
    ("extraData", VString "0x");
    ("nonce", VString "0x0000000000000000");
    ("uncles", VArray []);
    ("baseFeePerGas", VString (hex_u64 (next_base_fee_per_gas (bc_params c) b)));
    ("transactions", txs)].

(** The fields common to a log of a receipt and a log of a query. *)
Definition log_fields (contract : bytes) (topics : list bytes) (data : bytes) (h : Z)
    (hash_text wire : string) (tx_index i : nat) : Value :=
  VObject [
    ("address", VString (hex_bytes contract));
    ("topics", VArray ((λ t, VString (hex_bytes t)) <$> topics));
    ("data", VString (hex_bytes data));
    ("blockNumber", VString (hex_u64 h));
    ("blockHash", VString hash_text);
    ("transactionHash", VString wire);
    ("transactionIndex", VString (hex_u64 (Z.of_nat tx_index)));
    ("logIndex", VString (hex_u64 (Z.of_nat i)));
    ("removed", VBool false)].

Definition block_hash_text (b : option Block) : string :=
  from_option (λ b, hex_bytes (block_hash b)) "0x" b.

Definition receipt_to_eth (c : Blockchain) (indexed : IndexedReceipt) : Value :=
  let b := block_at_height c (ir_block_height indexed) in
  let hash_text := block_hash_text b in
  let tx := b ← b; transactions b !! ir_tx_index indexed in
  let wire := from_option eth_wire_hash ("0x" +:+ hex_encode_bytes (ir_tx_hash indexed)) tx in
  let r := ir_receipt indexed in
  let logs := imap (λ i log, log_fields (log_contract log) (log_topics log) (log_data log)
    (ir_block_height indexed) hash_text wire (ir_tx_index indexed) i) (rc_logs r) in
  VObject [
    ("transactionHash", VString wire);
    ("transactionIndex", VString (hex_u64 (Z.of_nat (ir_tx_index indexed))));
    ("blockHash", VString hash_text);
    ("blockNumber", VString (hex_u64 (ir_block_height indexed)));
    ("from", or_null ((λ tx, hex_bytes (tx_from tx)) <$> tx));
    ("to", from_option eth_recipient VNull tx);
    ("cumulativeGasUsed", VString (hex_u64 (rc_gas_used r)));
    ("gasUsed", VString (hex_u64 (rc_gas_used r)));
    ("effectiveGasPrice", VString (hex_u64 (rc_effective_gas_price r)));
    ("contractAddress", or_null (hex_bytes <$> rc_contract_address r));
    ("logs", VArray logs);
    ("logsBloom", VString ("0x" +:+ zeros 512));
    ("status", VString (if rc_success r then "0x1" else "0x0"));
    ("type", VString "0x2")].

Definition log_to_eth (c : Blockchain) (log : IndexedLogEntry) : Value :=
  let b := block_at_height c (il_block_height log) in
  let wire := from_option eth_wire_hash (hex_bytes (il_tx_hash log))
    (b ← b; transactions b !! il_tx_index log) in
  log_fields (il_contract log) (il_topics log) (il_data log) (il_block_height log)
    (block_hash_text b) wire (il_tx_index log) (il_log_index log).

(** ** Filters of logs *)

Definition filter_addresses (v : option Value) : option (list bytes) :=
  match v with
  | Some (VString addr) => (λ a, [a]) <$> parse_hex_address addr
  | Some (VArray arr) =>
      match omap (λ item, s ← as_str item; parse_hex_address s) arr with
      | [] => None
      | out => Some out
      end
  | _ => None
  end.

Definition filter_topic (item : Value) : option bytes :=
  match item with
  | VString hex_str => parse_hex_hash hex_str
  | VArray (VString s :: _) => parse_hex_hash s
  | _ => None
  end.

Definition filter_topics (v : option Value) : option (list (option bytes)) :=
  match v with
  | Some (VArray arr) =>
      match filter_topic <$> arr with [] => None | positional => Some positional end
  | _ => None
  end.

(** [parse_eth_log_filter] never fails. [v.pop()] takes the last address. *)
Definition parse_eth_log_filter (c : Blockchain) (v : Value) : LogFilter :=
  match as_object v with
  | None => log_filter_default
  | Some m =>
      mkLogFilter (l ← filter_addresses (map_get m "address"); last l) None
        (filter_topics (map_get m "topics"))
        (t ← map_get m "fromBlock"; resolve_block_tag c t)
        (t ← map_get m "toBlock"; resolve_block_tag c t)
        (v ← map_get m "limit"; as_u64 v)
  end.

(** ** Handlers that read the chain *)

Definition balance_answer (f : AccountState → Z) (c : Blockchain) (params : list Value) : answer :=
  addr ← ok_or (-32602, "invalid address") (s ← param_str params 0; parse_hex_address s);
  Ok (VString (hex_u64 (f (get_account (accounts (bc_state c)) addr)))).

Definition web3_sha3 (params : list Value) : answer :=
  input ← ok_or (-32602, "expected hex string parameter") (param_str params 0);
  b ← ok_or (-32602, "invalid hex input") (parse_hex_hash input);
  Ok (VString (hex_bytes (sha3_hash b))).

Definition eth_fee_history (c : Blockchain) (params : list Value) : answer :=
  let blocks_count := Z.min (default 1 (s ← param_str params 0; parse_hex_quantity s)) 256 in
  newest ← (match params !! 1%nat with
            | Some t => ok_or (-32602, "invalid newestBlock") (resolve_block_tag c t)
            | None => Ok (chain_height c)
            end);
  let oldest := saturating_sub newest (saturating_sub blocks_count 1) in
  let blocks := omap (block_at_height c) (seqZ oldest (newest - oldest + 1)) in
  let base_fee b := VString (hex_u64 (next_base_fee_per_gas (bc_params c) b)) in
  Ok (VObject [
    ("oldestBlock", VString (hex_u64 oldest));
    ("baseFeePerGas",
       VArray ((base_fee <$> blocks) ++ from_option (λ b, [base_fee b]) [] (last (bc_blocks c))));
    ("gasUsedRatio", VArray ((λ _, VNumber (Float 1 (-1))) <$> blocks))]).

Definition eth_get_code (c : Blockchain) (params : list Value) : answer :=
  addr ← ok_or (-32602, "invalid address") (s ← param_str params 0; parse_hex_address s);
  Ok (VString (from_option (λ k, hex_bytes (code k)) "0x" (contracts (bc_state c) !! addr))).

Definition eth_get_storage_at (c : Blockchain) (params : list Value) : answer :=
  addr ← ok_or (-32602, "invalid address") (s ← param_str params 0; parse_hex_address s);
  slot_str ← ok_or (-32602, "invalid storage slot") (param_str params 1);
  slot ← ok_or (-32602, "invalid storage slot (expected 32-byte hex)") (parse_storage_slot slot_str);
  Ok (VString (hex_storage_word
    (default [] (k ← contracts (bc_state c) !! addr; storage k !! slot)))).

Definition full_transactions (params : list Value) : bool :=
  default false (v ← params !! 1%nat; as_bool v).

Definition eth_get_block_by_number (c : Blockchain) (params : list Value) : answer :=
  tag ← ok_or (-32602, "missing block tag") (head params);
  h ← ok_or (-32602, "invalid block tag") (resolve_block_tag c tag);
  Ok (from_option (λ b, block_to_eth c b (full_transactions params)) VNull (block_at_height c h)).

Definition eth_get_block_by_hash (c : Blockchain) (params : list Value) : answer :=
  hash_hex ← ok_or (-32602, "missing hash") (param_str params 0);
  target ← ok_or (-32602, "invalid block hash") (parse_hex_hash hash_hex);
  Ok (from_option (λ b, block_to_eth c b (full_transactions params)) VNull
    (h ← block_hash_to_height c !! target; block_at_height c h)).

Definition target_hash (params : list Value) : result (Z * string) bytes :=
  hash_hex ← ok_or (-32602, "missing tx hash") (param_str params 0);
  ok_or (-32602, "invalid tx hash") (parse_hex_hash hash_hex).

Definition eth_get_transaction_by_hash (c : Blockchain) (params : list Value) : answer :=
  target ← target_hash params;
  Ok (default VNull
    (loc ← resolve_eth_tx_lookup c target;
     b ← block_at_height c loc.1;
     tx ← transactions b !! loc.2;
     Some (tx_to_eth c tx (Some loc)))).

Definition eth_get_transaction_receipt (c : Blockchain) (params : list Value) : answer :=
  target ← target_hash params;
  let internal_hash :=
    match resolve_eth_tx_lookup c target with
    | Some (h, idx) =>
        from_option tx_hash target (b ← block_at_height c h; transactions b !! idx)
    | None => target
    end in
  Ok (from_option (receipt_to_eth c) VNull (get_receipt c internal_hash)).

Definition eth_get_block_transaction_count (c : Blockchain) (params : list Value) : answer :=
  tag ← ok_or (-32602, "missing block tag") (head params);
  h ← ok_or (-32602, "invalid block tag") (resolve_block_tag c tag);
  Ok (from_option (λ b, VString (hex_u64 (Z.of_nat (length (transactions b))))) VNull
    (block_at_height c h)).

Definition eth_get_logs (c : Blockchain) (params : list Value) : answer :=
  let parsed := parse_eth_log_filter c (default VNull (head params)) in
  let from := default 0 (lf_from_block parsed) in
  let to := default (chain_height c) (lf_to_block parsed) in
  if (from <=? to) && (MAX_LOG_RANGE <? saturating_sub to from)
  then invalid ("log range too wide: " +:+ pretty (saturating_add (saturating_sub to from) 1) +:+
                " blocks (max " +:+ pretty MAX_LOG_RANGE +:+ ")")
  else Ok (VArray (log_to_eth c <$> query_logs c parsed)).

(** [dispatch_eth_call]: a run of the EVM on a view of the chain, thrown away. *)
Definition eth_call_arguments (params : list Value)
    : result string (bytes * bytes * Z * Z * Z * bytes) :=
  call_obj ← ok_or "missing call object" (v ← head params; as_object v);
  let field key := v ← map_get call_obj key; as_str v in
  let from := default (replicate 20 x00) (s ← field "from"; parse_hex_address s) in
  to ← ok_or "missing 'to'" (s ← field "to"; parse_hex_address s);
  let value := default 0 (s ← field "value"; parse_hex_quantity s) in
  let gas_limit := default 30000000 (s ← field "gas"; parse_hex_quantity s) in
  let gas_price := default 0 (s ← field "gasPrice"; parse_hex_quantity s) in
  let data := default [] (parse_hex_hash (default "0x" (call_data call_obj))) in
  Ok (from, to, value, gas_limit, gas_price, data).

Definition dispatch_eth_call (c : Blockchain) (params : list Value) : result string bytes :=
  '(from, to, value, gas_limit, gas_price, data) ← eth_call_arguments params;
  let base_fee := next_base_fee_per_gas (bc_params c) (latest_block c) in
  outcome ← map_err (λ e, "evm error: " +:+ evm_error_text e)
    (evm_run (evm_state_view (accounts (bc_state c)) (contracts (bc_state c)))
       (mkEvmCall (array20 from) (Some (array20 to)) data value gas_limit
          (Z.max gas_price base_fee) (chain_height c) base_fee DEFAULT_BLOCK_GAS_LIMIT));
  if negb (eo_success outcome)
  then Err ("eth_call reverted: " +:+ hex_encode_bytes (eo_return_data outcome))
  else Ok (eo_return_data outcome).

Definition eth_call (c : Blockchain) (params : list Value) : answer :=
  match dispatch_eth_call c params with
  | Ok result_bytes => Ok (VString (hex_bytes result_bytes))
  | Err message => Err (-32603, message)
  end.

(** The methods that do not change the chain; [None] for the others. *)
Definition read_method (c : Blockchain) (method : string) (params : list Value) : option answer :=
  let named m := bool_decide (method = m) in
  if named "web3_clientVersion" then Some (Ok (VString CLIENT_VERSION))
  else if named "web3_sha3" then Some (web3_sha3 params)
  else if named "net_version" then
    Some (Ok (VString (pretty (numeric_chain_id (gc_chain_id (genesis_config (bc_params c)))))))
  else if named "net_listening" then Some (Ok (VBool true))
  else if named "net_peerCount" then Some (Ok (VString "0x0"))
  else if named "eth_chainId" then
    Some (Ok (VString (hex_u64 (numeric_chain_id (gc_chain_id (genesis_config (bc_params c)))))))
  else if named "eth_protocolVersion" then Some (Ok (VString "0x41"))
  else if named "eth_syncing" then Some (Ok (VBool false))
  else if named "eth_mining" then Some (Ok (VBool false))
  else if named "eth_hashrate" then Some (Ok (VString "0x0"))
  else if named "eth_accounts" then Some (Ok (VArray []))
  else if named "eth_blockNumber" then Some (Ok (VString (hex_u64 (chain_height c))))
  else if named "eth_gasPrice" then
    Some (Ok (VString (hex_u64 (next_base_fee_per_gas (bc_params c) (latest_block c)))))
  else if named "eth_maxPriorityFeePerGas" then Some (Ok (VString "0x3b9aca00"))
  else if named "eth_feeHistory" then Some (eth_fee_history c params)
  else if named "eth_getBalance" then Some (balance_answer balance c params)
  else if named "eth_getTransactionCount" then Some (balance_answer nonce c params)
  else if named "eth_getCode" then Some (eth_get_code c params)
  else if named "eth_getStorageAt" then Some (eth_get_storage_at c params)
  else if named "eth_getBlockByNumber" then Some (eth_get_block_by_number c params)
  else if named "eth_getBlockByHash" then Some (eth_get_block_by_hash c params)
  else if named "eth_getTransactionByHash" then Some (eth_get_transaction_by_hash c params)
  else if named "eth_getTransactionReceipt" then Some (eth_get_transaction_receipt c params)
  else if named "eth_getBlockTransactionCountByNumber" then
    Some (eth_get_block_transaction_count c params)
  else if named "eth_getLogs" then Some (eth_get_logs c params)
  else if named "eth_estimateGas" then Some (Ok (VString (hex_u64 (estimate_eth_gas params))))
  else if named "eth_call" then Some (eth_call c params)
  else if named "eth_sendTransaction" then
    Some (Err (-32004, "eth_sendTransaction requires a node-side wallet — use eth_sendRawTransaction with a MetaMask-signed payload, or POST /api/tx/submit for native Dilithium-signed txs."))
  else None.

(** ** [eth_sendRawTransaction] *)

Definition transaction_of_raw (c : Blockchain) (raw : bytes) (decoded : DecodedRawTx) (now : Z)
    : Transaction :=
  from_evm_raw (gc_chain_id (genesis_config (bc_params c)))
    (match raw_to decoded with Some _ => CallEvmContract | None => DeployEvmContract end)
    (raw_from decoded) (default [] (raw_to decoded)) (raw_value decoded) (raw_nonce decoded)
    (raw_gas_limit decoded) (raw_max_fee_per_gas decoded) (raw_max_priority_fee_per_gas decoded)
    (raw_data decoded) raw now.

Definition raw_param (params : list Value) : result (Z * string) (bytes * DecodedRawTx) :=
  raw_hex ← ok_or (-32602, "expected hex-encoded raw tx") (param_str params 0);
  raw ← ok_or (-32602, "invalid hex")
    (hex_decode_text (default raw_hex (strip_prefix "0x" raw_hex)));
  decoded ← map_err (λ e, (-32602, "rlp decode: " +:+ evm_error_text e)) (decode_raw_eth_tx raw);
  Ok (raw, decoded).

(** [now] stamps the transaction, [later] is the clock of the admission. *)
Definition eth_send_raw_transaction (now later : Z) (params : list Value) (c : Blockchain)
    : answer * Blockchain :=
  match raw_param params with
  | Err e => (Err e, c)
  | Ok (raw, decoded) =>
      match add_transaction later (transaction_of_raw c raw decoded now) c with
      | (Ok _, c') => (Ok (VString ("0x" +:+ hex_encode_bytes (raw_tx_hash decoded))), c')
      | (Err e, c') => (Err (-32003, "tx rejected: " +:+ chain_error_text e), c')
      end
  end.

(** ** Requests and batches *)

Definition request_id (request : Value) : Value := default VNull (json_get request "id").
Definition request_method (request : Value) : option string :=
  m ← json_get request "method"; as_str m.
Definition request_params (request : Value) : list Value :=
  default [] (as_array (default (VArray []) (json_get request "params"))).

Definition dispatch_rpc (now later : Z) (request : Value) (c : Blockchain) : Value * Blockchain :=
  let id := request_id request in
  let params := request_params request in
  match request_method request with
  | None => (rpc_error id (-32600) "Invalid Request: missing method", c)
  | Some method =>
      match read_method c method params with
      | Some a => (reply id a, c)
      | None =>
          if bool_decide (method = "eth_sendRawTransaction") then
            let '(a, c) := eth_send_raw_transaction now later params c in (reply id a, c)
          else (rpc_error id (-32601) ("method " +:+ method +:+ " not supported"), c)
      end
  end.

(** The requests of a batch are served one after the other, at the clocks given. *)
Fixpoint dispatch_batch (batch : list (Z * Z * Value)) (c : Blockchain) : list Value * Blockchain :=
  match batch with
  | [] => ([], c)
  | (now, later, request) :: batch =>
      let '(v, c) := dispatch_rpc now later request c in
      let '(vs, c) := dispatch_batch batch c in
      (v :: vs, c)
  end.

(** [handle]; [clock] gives the two readings for the request at an index. *)
Definition handle_rpc (clock : nat → Z * Z) (body : bytes) (c : Blockchain) : Value * Blockchain :=
  match parse_json body with
  | None => (rpc_error VNull (-32700) "Parse error", c)
  | Some (VArray batch) =>
      if (MAX_JSONRPC_BATCH_SIZE <? length batch)%nat
      then (rpc_error VNull (-32600)
              ("batch too large: " +:+ pretty (length batch) +:+ " entries (max " +:+
               pretty MAX_JSONRPC_BATCH_SIZE +:+ ")"), c)
      else
        let '(vs, c) := dispatch_batch (imap (λ i r, (clock i, r)) batch) c in (VArray vs, c)
  | Some request => dispatch_rpc (clock 0%nat).1 (clock 0%nat).2 request c
  end.
End rpc.
