(* ===== verification/EthRpcSafety.v ===== *)
(** * What the Ethereum API promises

    Theorems about [EthRpc]: what is printed is read back; a request changes nothing
    but the mempool; transactions and blocks of the canonical chain are found by
    their hashes, and what is found is right. *)
From stdpp Require Import pretty.
From S2P Require Import Prelude Hash Crypto Vm Transaction Token Governance Block Account.
From S2P Require Import Validators Finality Settlement BlockTree Trie StateRoot Chain Apply.
From S2P Require Import Ledger AddBlock ChainSafety Mempool MempoolSafety ForkChoice Queries.
From S2P Require Import Text EthRpc.

(** ** Round trips *)

Section round_trips.
Context `{Hex}.

Lemma parse_hex_hash_bytes b : parse_hex_hash (hex_bytes b) = Some b.
Proof.
  unfold parse_hex_hash, hex_bytes. case_bool_decide as Hb.
  - subst b. change (default _ (strip_prefix "0x" (trim "0x"))) with "". apply hex_decode_nil.
  - rewrite hex_text_trim. change (strip_prefix "0x" ("0x" +:+ ?s)) with (Some s).
    simpl. apply hex_decode_encode.
Qed.

Lemma parse_hex_address_bytes b :
  length b = ADDRESS_LEN → parse_hex_address (hex_bytes b) = Some b.
Proof.
  intros Hl. unfold parse_hex_address, hex_bytes. rewrite bool_decide_eq_false_2 by (by intros ->).
  rewrite hex_text_trim. change (strip_prefix "0x" ("0x" +:+ ?s)) with (Some s). simpl.
  rewrite hex_decode_encode. simpl. by rewrite bool_decide_eq_true_2.
Qed.

Lemma string_app_length (s t : string) : String.length (s +:+ t) = (String.length s + String.length t)%nat.
Proof. induction s as [|a s IH]; simpl; [done|]. by rewrite IH. Qed.

(** What the API prints it reads back: every 64-bit quantity, every byte string,
    every address and every word of storage. A storage slot, however it is written,
    is 32 bytes or refused. *)
Theorem rpc_text_round_trip (n : Z) (b : bytes) (s : string) :
  (is_u64 n → parse_hex_quantity (hex_u64 n) = Some n) ∧
  parse_hex_hash (hex_bytes b) = Some b ∧
  (length b = ADDRESS_LEN → parse_hex_address (hex_bytes b) = Some b) ∧
  (length b = 32%nat → parse_storage_slot (hex_storage_word b) = Some b) ∧
  (∀ slot, parse_storage_slot s = Some slot → length slot = 32%nat).
Proof.
  split_and!.
  - intros Hn. unfold parse_hex_quantity, hex_u64.
    change (strip_prefix "0x" ("0x" +:+ ?s)) with (Some s). simpl.
    destruct (lower_hex_cons n (proj1 Hn)) as (d&t&_&E).
    rewrite bool_decide_eq_false_2 by (by rewrite E). by apply from_str_radix_lower_hex.
  - apply parse_hex_hash_bytes.
  - apply parse_hex_address_bytes.
  - intros Hl. unfold parse_storage_slot, hex_storage_word.
    rewrite (proj2 (Nat.leb_le _ _)) by lia. rewrite Hl, Nat.sub_diag, drop_0.
    rewrite hex_text_trim. change (strip_prefix "0x" ("0x" +:+ ?s)) with (Some s).
    cbn [default from_option id]. pose proof (hex_encode_length b) as El. rewrite Hl in El.
    rewrite bool_decide_eq_false_2 by (intros E; by rewrite E in El).
    rewrite El. change (Nat.odd (2 * 32)) with false. cbn iota. rewrite hex_decode_encode.
    cbn [mbind option_bind]. by rewrite Hl.
  - intros slot. unfold parse_storage_slot. case_bool_decide; [by intros [= <-]|].
    destruct (hex_decode_text _) as [d|]; [|done]. cbn [mbind option_bind].
    destruct (32 <? length d)%nat eqn:E; [done|]. intros [= <-]. apply Nat.ltb_ge in E.
    rewrite length_app, length_replicate. lia.
Qed.
End round_trips.

(** ** The indexes of hashes *)

Section indexes.
Context `{Sha3} `{EvmEngine} `{!Bincode SignableTransaction}.

(** The hashes a transaction is known under: its own, and that of the signed
    Ethereum transaction it carries. *)
Definition wire_hash (tx : Transaction) (k : bytes) : Prop :=
  is_evm tx = true ∧ ∃ d, decode_raw_eth_tx (tx_evm_raw_tx tx) = Ok d ∧ raw_tx_hash d = k.
Definition known_as (tx : Transaction) (k : bytes) : Prop := tx_hash tx = k ∨ wire_hash tx k.

Definition located_at (at_ : Z → option Block) (k : bytes) (loc : Z * nat) : Prop :=
  ∃ b tx, at_ loc.1 = Some b ∧ transactions b !! loc.2 = Some tx ∧ known_as tx k.

(** Indexes that say nothing wrong about the blocks of [at_] and know everything in
    the blocks [covered]. *)
Record index_ok (at_ : Z → option Block) (covered : list Block) (heights : gmap bytes Z)
    (txs evm : gmap bytes (Z * nat)) : Prop := {
  index_right k loc : txs !! k = Some loc ∨ evm !! k = Some loc → located_at at_ k loc;
  index_complete b tx k :
    b ∈ covered → tx ∈ transactions b → known_as tx k → is_Some (evm !! k) ∨ is_Some (txs !! k);
  index_block_right k h : heights !! k = Some h → ∃ b, at_ h = Some b ∧ block_hash b = k;
  index_block_complete b : b ∈ covered → is_Some (heights !! block_hash b);
}.

(** The indexes of a chain: complete from the block after genesis on. *)
Definition indexed (c : Blockchain) : Prop :=
  index_ok (block_at_height c) (tail (bc_blocks c)) (block_hash_to_height c) (tx_hash_index c)
    (evm_tx_hash_index c).

(** The loop over the transactions of a block. *)
Definition index_loop (h : Z) (l : list (nat * Transaction))
    (ij : gmap bytes (Z * nat) * gmap bytes (Z * nat)) :=
  foldl (λ ij itx, index_transaction h itx.1 itx.2 ij) ij l.

Lemma index_transaction_right h n tx ij k loc :
  (index_transaction h n tx ij).1 !! k = Some loc ∨ (index_transaction h n tx ij).2 !! k = Some loc →
  (ij.1 !! k = Some loc ∨ ij.2 !! k = Some loc) ∨ (loc = (h, n) ∧ known_as tx k).
Proof.
  unfold index_transaction, known_as, wire_hash. intros [Hk|Hk]; simpl in Hk.
  - apply lookup_insert_Some in Hk as [[<- <-]|[_ Hk]]; auto.
  - destruct (is_evm tx) eqn:E; [|by auto].
    destruct (decode_raw_eth_tx _) as [d|e]; [|by auto].
    apply lookup_insert_Some in Hk as [[<- <-]|[_ Hk]]; [|by auto]. right. split; [done|].
    right. split; [done|]. by eexists.
Qed.

Lemma index_loop_right h l ij k loc :
  (index_loop h l ij).1 !! k = Some loc ∨ (index_loop h l ij).2 !! k = Some loc →
  (ij.1 !! k = Some loc ∨ ij.2 !! k = Some loc) ∨
  ∃ n tx, (n, tx) ∈ l ∧ loc = (h, n) ∧ known_as tx k.
Proof.
  revert ij. induction l as [|[n tx] l IH]; intros ij Hk; [by left|]. cbn [index_loop foldl] in Hk.
  apply IH in Hk as [Hk|(m&t&Hin&?)]; [|right; exists m, t; split; [by right|done]].
  apply index_transaction_right in Hk as [Hk|[? ?]]; [by left|].
  right. exists n, tx. split; [by left|done].
Qed.

Lemma is_Some_insert `{Countable K} {V} (m : gmap K V) i j v :
  is_Some (m !! j) → is_Some (<[i := v]> m !! j).
Proof. intros Hj. destruct (decide (i = j)) as [->|]; [by rewrite lookup_insert_eq|by rewrite lookup_insert_ne]. Qed.

Lemma index_transaction_grows h n tx ij k :
  is_Some (ij.2 !! k) ∨ is_Some (ij.1 !! k) ∨ known_as tx k →
  is_Some ((index_transaction h n tx ij).2 !! k) ∨ is_Some ((index_transaction h n tx ij).1 !! k).
Proof.
  unfold index_transaction, known_as, wire_hash. simpl. intros [Hk|[Hk|[<-|(E&d&Hd&<-)]]].
  - left. destruct (is_evm tx); [|done]. case_match; [by apply is_Some_insert|done].
  - right. by apply is_Some_insert.
  - right. by rewrite lookup_insert_eq.
  - left. rewrite E, Hd. by rewrite lookup_insert_eq.
Qed.

Lemma index_loop_complete h l ij k :
  is_Some (ij.2 !! k) ∨ is_Some (ij.1 !! k) ∨ (∃ n tx, (n, tx) ∈ l ∧ known_as tx k) →
  is_Some ((index_loop h l ij).2 !! k) ∨ is_Some ((index_loop h l ij).1 !! k).
Proof.
  revert ij. induction l as [|[n tx] l IH]; intros ij Hk; cbn [index_loop foldl].
  { destruct Hk as [?|[?|(n&tx&Hin&_)]]; [by left|by right|]. by apply elem_of_nil in Hin. }
  apply IH. destruct Hk as [Hk|[Hk|(m&t&Hin&Hk)]].
  - destruct (index_transaction_grows h n tx ij k); auto.
  - destruct (index_transaction_grows h n tx ij k); auto.
  - apply elem_of_cons in Hin as [[= -> ->]|Hin]; [|by eauto 10].
    destruct (index_transaction_grows h n tx ij k); auto.
Qed.

Lemma index_block_indexes b c :
  evm_tx_hash_index (index_block b c) =
    (index_loop (height (header b)) (imap pair (transactions b))
       (tx_hash_index c, evm_tx_hash_index c)).2 ∧
  tx_hash_index (index_block b c) =
    (index_loop (height (header b)) (imap pair (transactions b))
       (tx_hash_index c, evm_tx_hash_index c)).1 ∧
  block_hash_to_height (index_block b c) =
    <[block_hash b := height (header b)]> (block_hash_to_height c).
Proof.
  unfold index_block, index_loop. by destruct (foldl _ _ _) as [i j].
Qed.

Lemma index_ok_empty at_ : index_ok at_ [] ∅ ∅ ∅.
Proof.
  split; try (intros *; rewrite ?lookup_empty; naive_solver);
    intros *; by rewrite elem_of_nil.
Qed.

Lemma index_ok_weaken at_ at' covered covered' m i j :
  index_ok at_ covered m i j → (∀ h b, at_ h = Some b → at' h = Some b) →
  (∀ b, b ∈ covered' → b ∈ covered) → index_ok at' covered' m i j.
Proof.
  intros [Hr Hc Hbr Hbc] Hat Hin. split.
  - intros k loc Hk. destruct (Hr k loc Hk) as (b&tx&?&?). exists b, tx. auto.
  - intros b tx k Hb. by apply Hc, Hin.
  - intros k h Hk. destruct (Hbr k h Hk) as (b&?&?). exists b. auto.
  - intros b Hb. by apply Hbc, Hin.
Qed.

(** Indexing a block that is where its height says. *)
Lemma index_ok_step at_ covered m i j b :
  let ij := index_loop (height (header b)) (imap pair (transactions b)) (i, j) in
  index_ok at_ covered m i j → at_ (height (header b)) = Some b →
  index_ok at_ (covered ++ [b]) (<[block_hash b := height (header b)]> m) ij.1 ij.2.
Proof.
  intros ij [Hr Hc Hbr Hbc] Hb. split.
  - intros k loc Hk. apply index_loop_right in Hk as [Hk|(n&tx&Hin&->&Hk)]; [by apply Hr|].
    exists b, tx. apply elem_of_imap_pair in Hin. done.
  - intros d tx k Hd Htx Hk. apply (index_loop_complete _ _ (i, j)). simpl.
    apply elem_of_app in Hd as [Hd|Hd]; [destruct (Hc d tx k); auto|].
    apply list_elem_of_singleton in Hd as ->. right. right.
    apply list_elem_of_lookup in Htx as [n Hn]. exists n, tx. by rewrite elem_of_imap_pair.
  - intros k h. rewrite lookup_insert_Some. intros [[<- <-]|[_ Hk]]; [by exists b|by apply Hbr].
  - intros d Hd. apply elem_of_app in Hd as [Hd|Hd]; [by apply is_Some_insert, Hbc|].
    apply list_elem_of_singleton in Hd as ->. by rewrite lookup_insert_eq.
Qed.

Lemma index_blocks_ok at_ l c covered :
  index_ok at_ covered (block_hash_to_height c) (tx_hash_index c) (evm_tx_hash_index c) →
  (∀ b, b ∈ l → at_ (height (header b)) = Some b) →
  let d := foldl (λ c b, index_block b c) c l in
  index_ok at_ (covered ++ l) (block_hash_to_height d) (tx_hash_index d) (evm_tx_hash_index d).
Proof.
  revert c covered. induction l as [|b l IH]; intros c covered Hok Hl; [by rewrite app_nil_r|].
  cbn [foldl]. rewrite cons_middle, app_assoc. apply IH; [|intros; apply Hl; by right].
  destruct (index_block_indexes b c) as (->&->&->). apply index_ok_step; [done|].
  apply Hl. by left.
Qed.
End indexes.

Section chain_indexes.
Context `{Sha3} `{MlDsa} `{EvmEngine} `{WasmEngine} `{HashOrder} `{!Bincode SignableTransaction}
  `{!Bincode BlockHeader} `{!Bincode ProposalKind} `{!BincodeAccountLeaf} `{!BincodeStorageLeaf}
  `{!BincodeContractLeaf} `{!Json DeployTokenParams} `{!Json TokenTransferParams}
  `{!Json TokenApproveParams} `{!Json TokenTransferFromParams} `{!Json SubmitProposalParams}
  `{!Json GovernanceVoteParams}.

Lemma prepared_indexes c h :
  block_hash_to_height (prepared c h) = block_hash_to_height c ∧
  tx_hash_index (prepared c h) = tx_hash_index c ∧
  evm_tx_hash_index (prepared c h) = evm_tx_hash_index c.
Proof. unfold prepared, settle_epoch, open_epoch. by repeat case_match. Qed.

Lemma commit_block_indexes b s c :
  let ij := index_loop (height (header b)) (imap pair (transactions b))
              (tx_hash_index c, evm_tx_hash_index c) in
  block_hash_to_height (commit_block b s c) =
    <[block_hash b := height (header b)]> (block_hash_to_height c) ∧
  tx_hash_index (commit_block b s c) = ij.1 ∧ evm_tx_hash_index (commit_block b s c) = ij.2.
Proof.
  unfold commit_block, remove_block_transactions_from_mempool. cbv zeta.
  match goal with |- context [index_block b ?d] =>
    destruct (index_block_indexes b d) as (Ev&Et&Eh);
    assert (tx_hash_index d = tx_hash_index c ∧ evm_tx_hash_index d = evm_tx_hash_index c ∧
            block_hash_to_height d = block_hash_to_height c) as (E1&E2&E3)
  end.
  { unfold push_block_internal. destruct (insert_block _ _ _) as [[f t]|e]; case_match; done. }
  rewrite E1, E2 in Ev, Et. rewrite E3 in Eh. rewrite <- Eh, <- Et, <- Ev. done.
Qed.

Lemma add_block_indexed now b c :
  chain_linked c → block_count c < u64_max → indexed c → indexed (add_block now b c).2.
Proof.
  intros Hl Hlim Hi. destruct (add_block now b c) as [[u|e] c'] eqn:Ha; simpl.
  - destruct (add_block_appends _ _ _ _ _ Hl Hlim Ha) as (Eb&Eh&_).
    pose proof (add_block_linked now b c Hl Hlim) as Hl'. rewrite Ha in Hl'. simpl in Hl'.
    assert (b ∈ bc_blocks c') as Hb
      by (rewrite Eb; apply elem_of_app; right; by apply list_elem_of_singleton).
    apply (linked_block_at c' b Hl') in Hb.
    apply add_block_Ok in Ha as (s&_&->). unfold indexed.
    set (c1 := prepared c (height (header b))) in *.
    destruct (commit_block_indexes b s c1) as (->&->&->).
    pose proof (prepared_indexes c (height (header b))) as Hp. fold c1 in Hp.
    destruct Hp as (->&->&->).
    apply (index_ok_weaken (block_at_height (commit_block b s c1)) _ (tail (bc_blocks c) ++ [b]));
      [|done|].
    + apply index_ok_step; [|done].
      apply (index_ok_weaken _ _ _ (tail (bc_blocks c)) _ _ _ Hi); [|done].
      intros h d. unfold block_at_height. rewrite Eb. case_match; [done|]. apply lookup_app_l_Some.
    + intros d. rewrite Eb. destruct Hl as [Hne _]. by destruct (bc_blocks c).
  - apply add_block_Err in Ha as ->. unfold indexed.
    destruct (prepared_indexes c (height (header b))) as (->&->&->).
    destruct (prepared_same c (height (header b))) as (_&Eb&_).
    unfold block_at_height. by rewrite Eb.
Qed.

Lemma rebuild_indexed `{HexDecode} c : chain_linked c → indexed (rebuild_indexes c).
Proof.
  intros Hl. unfold indexed. destruct (rebuild_indexes_same c) as (_&Eb&_).
  apply (index_ok_weaken (block_at_height c) _ ([] ++ bc_blocks c)).
  - unfold rebuild_indexes. apply index_blocks_ok; [apply index_ok_empty|].
    intros d Hd. by apply linked_block_at.
  - intros h d. unfold block_at_height. by rewrite Eb.
  - intros d. rewrite Eb. destruct (bc_blocks c); [done|]. intros. by right.
Qed.

(** C25: the hash indexes follow the chain: on a new chain, after every attempt to add a
    block, accepted or not, and after they were rebuilt, an entry points to a
    transaction or a block with that hash in the canonical chain, and every block and
    transaction after genesis has an entry. *)
Theorem indexes_follow_chain `{HexDecode} (g : GenesisConfig) (now : Z) (b : Block) :
  (∀ c, from_genesis g = Ok c → indexed c) ∧
  (∀ c, chain_linked c → block_count c < u64_max → indexed c → indexed (add_block now b c).2) ∧
  (∀ c, chain_linked c → indexed (rebuild_indexes c)).
Proof.
  split_and!; [|intros; by apply add_block_indexed|intros; by apply rebuild_indexed].
  intros c Hg. unfold from_genesis in Hg. repeat st_step. apply index_ok_empty.
Qed.
End chain_indexes.

(** ** What the API answers, and what it changes *)

Section answers.
Context `{Sha3} `{MlDsa} `{EvmEngine} `{WasmEngine} `{RustSort} `{!Bincode SignableTransaction}
  `{!Bincode ProposalKind} `{!Json DeployTokenParams} `{!Json TokenTransferParams}
  `{!Json TokenApproveParams} `{!Json TokenTransferFromParams} `{!Json SubmitProposalParams}
  `{!Json GovernanceVoteParams} `{Hex} `{ErrorText} `{JsonText}.

(** C26: a lookup by hash is right and complete. On a chain whose indexes follow it,
    [eth_getTransactionByHash] answers with a transaction of the canonical chain known
    under the hash, at its height and position; it answers null only if no canonical
    transaction after genesis is. [eth_getBlockByHash] likewise. *)
Theorem hash_lookups_exact (c : Blockchain) (text : string) (target : bytes) :
  indexed c → parse_hex_hash text = Some target →
  let params := [VString text] in
  ((∃ h i b tx, block_at_height c h = Some b ∧ transactions b !! i = Some tx ∧
      known_as tx target ∧
      eth_get_transaction_by_hash c params = Ok (tx_to_eth c tx (Some (h, i)))) ∨
   (eth_get_transaction_by_hash c params = Ok VNull ∧
    ∀ b tx, b ∈ tail (bc_blocks c) → tx ∈ transactions b → ¬ known_as tx target)) ∧
  ((∃ h b, block_at_height c h = Some b ∧ block_hash b = target ∧
      eth_get_block_by_hash c params = Ok (block_to_eth c b false)) ∨
   (eth_get_block_by_hash c params = Ok VNull ∧
    ∀ b, b ∈ tail (bc_blocks c) → block_hash b ≠ target)).
Proof.
  intros [Hr Hc Hbr Hbc] Ht params. split.
  - unfold eth_get_transaction_by_hash, target_hash, param_str. simpl. rewrite Ht. simpl.
    unfold resolve_eth_tx_lookup.
    assert (∀ loc, evm_tx_hash_index c !! target = Some loc ∨ tx_hash_index c !! target = Some loc →
      ∃ h i b tx, block_at_height c h = Some b ∧ transactions b !! i = Some tx ∧
        known_as tx target ∧ Ok (default VNull (b ← block_at_height c loc.1;
          tx ← transactions b !! loc.2; Some (tx_to_eth c tx (Some loc)))) =@{answer}
        Ok (tx_to_eth c tx (Some (h, i)))) as Hfound.
    { intros [h i] Hloc. destruct (Hr target (h, i)) as (b&tx&Hb&Hi&Hk); [tauto|]. simpl in *.
      exists h, i, b, tx. split_and!; [done..|]. rewrite Hb. simpl. by rewrite Hi. }
    destruct (evm_tx_hash_index c !! target) as [loc|] eqn:E1; [left; by apply Hfound; left|].
    destruct (tx_hash_index c !! target) as [loc|] eqn:E2; [left; by apply Hfound; right|].
    right. split; [done|]. intros b tx Hb Htx Hk. destruct (Hc b tx target Hb Htx Hk) as [[??]|[??]];
      congruence.
  - unfold eth_get_block_by_hash, param_str. simpl. rewrite Ht. simpl.
    destruct (block_hash_to_height c !! target) as [h|] eqn:E.
    + left. destruct (Hbr target h E) as (b&Hb&Eb). exists h, b. simpl. by rewrite Hb.
    + right. split; [done|]. intros b Hb Eq. destruct (Hbc b Hb). congruence.
Qed.

Definition pool_step (c c' : Blockchain) : Prop :=
  c' = set_pool (pending_transactions c') c ∧
  (0 ≤ block_gas_limit (bc_params c) → slots_unique (pending_transactions c) →
   slots_unique (pending_transactions c')).

Lemma pool_step_refl c : pool_step c c.
Proof. split; [by destruct c|done]. Qed.

Lemma pool_step_trans c1 c2 c3 : pool_step c1 c2 → pool_step c2 c3 → pool_step c1 c3.
Proof.
  intros [E1 H12] [E2 H23]. split; [rewrite E2 at 1; by rewrite E1|].
  intros Hp Hs. apply H23; [by rewrite E1|auto].
Qed.

Lemma add_transaction_step now tx c : pool_step c (add_transaction now tx c).2.
Proof.
  destruct (add_transaction now tx c) as [r c'] eqn:Ha. split.
  - apply add_transaction_cases in Ha as [(e&_&_&->)|(r1&l1&_&_&Hr)]; [done|].
    destruct r1; by destruct Hr as [_ ->].
  - intros Hp Hs. by apply (add_transaction_pool now tx c c' r Ha Hp Hs).
Qed.

Lemma dispatch_step now later request c : pool_step c (dispatch_rpc now later request c).2.
Proof.
  unfold dispatch_rpc. destruct (request_method request) as [m|]; [|apply pool_step_refl].
  destruct (read_method c m _); [apply pool_step_refl|]. case_bool_decide; [|apply pool_step_refl].
  unfold eth_send_raw_transaction. destruct (raw_param _) as [[raw d]|e]; [|apply pool_step_refl].
  pose proof (add_transaction_step later (transaction_of_raw c raw d now) c) as Hs.
  by destruct (add_transaction _ _ c) as [[u|e] c'].
Qed.

Lemma dispatch_batch_step batch c : pool_step c (dispatch_batch batch c).2.
Proof.
  revert c. induction batch as [|[[now later] request] batch IH]; intros c; [apply pool_step_refl|].
  simpl. pose proof (dispatch_step now later request c) as Hd.
  destruct (dispatch_rpc now later request c) as [v c1]. specialize (IH c1).
  destruct (dispatch_batch batch c1) as [vs c2]. by eapply pool_step_trans.
Qed.

Lemma handle_step clock body c : pool_step c (handle_rpc clock body c).2.
Proof.
  unfold handle_rpc.
  destruct (parse_json body) as [[]|]; try apply dispatch_step; [|apply pool_step_refl].
  destruct (_ <? _)%nat; [apply pool_step_refl|].
  pose proof (dispatch_batch_step (imap (λ i r, (clock i, r)) l) c) as Hb.
  by destruct (dispatch_batch _ c) as [vs c'].
Qed.

(** The API is read-only but for the mempool. Whatever the body of a request,
    malformed, single or a batch, the chain afterwards is the chain before with
    another pool: blocks, state, tree, finality and indexes are untouched. A pool
    with one transaction per sender and nonce stays such a pool. *)
Theorem rpc_changes_only_pool (clock : nat → Z * Z) (body : bytes) (c : Blockchain) :
  let c' := (handle_rpc clock body c).2 in
  c' = set_pool (pending_transactions c') c ∧
  (0 ≤ block_gas_limit (bc_params c) → slots_unique (pending_transactions c) →
   slots_unique (pending_transactions c')).
Proof. apply handle_step. Qed.

(** A response: to the request with that id, a result or an error. *)
Definition response_to (request v : Value) : Prop :=
  json_get v "id" = Some (request_id request) ∧
  (is_Some (json_get v "result") ↔ json_get v "error" = None).

Lemma reply_response request a : response_to request (reply (request_id request) a).
Proof. destruct a as [v|[code message]]; (split; [done|]); simpl; split; naive_solver. Qed.

Lemma dispatch_response now later request c :
  response_to request (dispatch_rpc now later request c).1.
Proof.
  unfold dispatch_rpc. destruct (request_method request) as [m|];
    [|apply (reply_response request (Err (-32600, "Invalid Request: missing method")))].
  destruct (read_method c m _); [apply reply_response|].
  case_bool_decide; [|apply (reply_response request (Err (-32601, _)))].
  destruct (eth_send_raw_transaction _ _ _ c) as [a c']. apply reply_response.
Qed.

(** A batch is answered in order. A batch of at most 1024 requests gets one answer
    per request, at the same position, with the id of the request and either a result
    or an error; a longer batch gets one error and changes nothing. *)
Theorem batch_answered_in_order (clock : nat → Z * Z) (body : bytes) (c : Blockchain)
    (batch : list Value) :
  parse_json body = Some (VArray batch) →
  let '(v, c') := handle_rpc clock body c in
  if (MAX_JSONRPC_BATCH_SIZE <? length batch)%nat
  then c' = c ∧ is_Some (json_get v "error")
  else ∃ vs, v = VArray vs ∧ Forall2 response_to batch vs.
Proof.
  intros Hp. unfold handle_rpc. rewrite Hp.
  destruct (MAX_JSONRPC_BATCH_SIZE <? length batch)%nat; [done|]. clear Hp.
  assert (∀ f c, Forall2 response_to batch
    (dispatch_batch (imap (λ i r, (clock (f i), r)) batch) c).1) as Hb.
  { induction batch as [|request batch IH]; intros f c1; [constructor|]. cbn [imap dispatch_batch].
    pose proof (dispatch_response (clock (f 0%nat)).1 (clock (f 0%nat)).2 request c1) as Hd.
    destruct (clock (f 0%nat)) as [now later]. simpl in Hd.
    destruct (dispatch_rpc now later request c1) as [v c2]. simpl in Hd.
    specialize (IH (f ∘ S) c2).
    change (imap ((λ i r, (clock (f i), r)) ∘ S) batch) with (imap (λ i r, (clock ((f ∘ S) i), r)) batch).
    destruct (dispatch_batch _ c2) as [vs c3]. by constructor. }
  specialize (Hb id c). simpl in Hb.
  change (imap (λ i r, (clock (id i), r)) batch) with (imap (λ i r, (clock i, r)) batch) in Hb.
  destruct (dispatch_batch _ c) as [vs c']. by exists vs.
Qed.
End answers.

(** ** A node that serves requests *)

(** Raw transactions of 41 bytes: signer, recipient, nonce; signed for chain 1. *)
Definition demo_rpc_evm : EvmEngine.
Proof.
  refine {|
    decode_raw_eth_tx raw :=
      if (length raw =? 41)%nat
      then Ok (mkDecodedRawTx (take 20 raw) (Some (take 20 (drop 20 raw))) 5 [] 50000 100 100 1
                 (byte_Z (default x00 (last raw))) (Some 1) (@sha3_hash demo_sha3 raw))
      else Err (EvmRlpDecode "length");
    evm_run view c :=
      if ec_gas_limit c <? 21000 then Err EvmOutOfGas
      else Ok (mkEvmOutcome 21000 ∅ ∅ ∅ None [] [] true) |}.
  intros view c outcome. case_match eqn:E; [done|]. intros [= <-]. simpl.
  apply Z.ltb_ge in E. lia.
Defined.

Definition no_texts : ErrorText := {| chain_error_text _ := ""; evm_error_text _ := "" |}.

Module RpcDemo.
#[export] Existing Instances demo_sha3 demo_mldsa demo_rpc_evm demo_wasm demo_bincode_tx
  demo_bincode_header demo_bincode_proposal demo_bincode_account_leaf
  demo_bincode_storage_leaf demo_bincode_contract_leaf demo_order demo_hex no_json demo_sort
  hex_codec no_texts.
End RpcDemo.

Section demo.
Import RpcDemo.

Definition demo_raw : bytes := demo_address 7 ++ replicate 20 x01 ++ [x00].
Definition demo_raw_hash : bytes := sha3_hash demo_raw.
Definition demo_send : Value :=
  VObject [("id", VNumber (PosInt 7)); ("method", VString "eth_sendRawTransaction");
           ("params", VArray [VString (hex_bytes demo_raw)])].
Definition demo_height : Value :=
  VObject [("id", VString "h"); ("method", VString "eth_blockNumber")].
Definition demo_json : JsonText := λ _, Some (VArray [demo_send; demo_height; VNull]).
#[local] Existing Instance demo_json.

Definition rpc_chain : Blockchain := demo_chain 200000 [].
Definition demo_clock (_ : nat) : Z * Z := (demo_now, demo_now).
Definition demo_handled : Value * Blockchain := handle_rpc demo_clock [] rpc_chain.
Definition rpc_block : Block :=
  unwrap_or demo_genesis (create_block demo_now demo_now demo_handled.2 (demo_keypair 1)).
Definition rpc_after : result ChainError () * Blockchain :=
  add_block demo_now rpc_block demo_handled.2.

(** The transaction, signed for chain 1, is accepted by a chain with another
    number, included in a block, and found under its Ethereum hash. *)
Lemma rpc_demo_ok :
  (length (pending_transactions demo_handled.2) =? 1)%nat &&
  negb (numeric_chain_id "c" =? 1) &&
  is_ok rpc_after.1 &&
  bool_decide (evm_tx_hash_index rpc_after.2 !! demo_raw_hash = Some (1, 1%nat)) &&
  bool_decide (tx_amount <$> transactions rpc_block !! 1%nat = Some 5) &&
  bool_decide (parse_hex_hash (hex_bytes demo_raw_hash) = Some demo_raw_hash) &&
  bool_decide (chain_height rpc_after.2 = 1) &&
  bool_decide (length (pending_transactions rpc_after.2) = 0%nat) = true.
Proof. vm_compute. exact eq_refl. Qed.

Lemma rpc_chain_linked : chain_linked rpc_chain.
Proof.
  split; [discriminate|]. intros [|[|i]] b; simpl; try discriminate.
  intros [= <-]. split; [exact eq_refl|]. intros p Hp. inversion Hp.
Qed.

Lemma demo_handled_chain : demo_handled.2 = set_pool (pending_transactions demo_handled.2) rpc_chain.
Proof. exact (proj1 (handle_step demo_clock [] rpc_chain)). Qed.

Lemma demo_handled_linked : chain_linked demo_handled.2.
Proof. rewrite demo_handled_chain. exact rpc_chain_linked. Qed.

Lemma demo_handled_count : block_count demo_handled.2 < u64_max.
Proof. rewrite demo_handled_chain. exact eq_refl. Qed.

Lemma demo_handled_indexed : indexed demo_handled.2.
Proof. rewrite demo_handled_chain. apply index_ok_empty. Qed.

Lemma rpc_after_indexed : indexed rpc_after.2.
Proof.
  exact (add_block_indexed demo_now rpc_block demo_handled.2 demo_handled_linked
    demo_handled_count demo_handled_indexed).
Qed.

Lemma rpc_text_round_trip_witness :
  parse_hex_quantity (hex_u64 255) = Some 255 ∧
  parse_hex_address (hex_bytes (replicate 20 x2a)) = Some (replicate 20 x2a).
Proof.
  destruct (rpc_text_round_trip 255 (replicate 20 x2a) "") as (Hq&_&Ha&_).
  split; [apply Hq; split; [discriminate|vm_compute; discriminate]|exact (Ha eq_refl)].
Defined.

Lemma indexes_follow_chain_witness : indexed rpc_after.2.
Proof.
  exact (proj1 (proj2 (indexes_follow_chain genesis_config_default demo_now rpc_block))
    demo_handled.2 demo_handled_linked demo_handled_count demo_handled_indexed).
Defined.

Lemma demo_raw_hash_text : parse_hex_hash (hex_bytes demo_raw_hash) = Some demo_raw_hash.
Proof. apply parse_hex_hash_bytes. Qed.

Lemma demo_raw_hash_indexed : evm_tx_hash_index rpc_after.2 !! demo_raw_hash = Some (1, 1%nat).
Proof.
  destruct (andb8 _ _ _ _ _ _ _ _ rpc_demo_ok) as (_&_&_&Hd&_).
  apply bool_decide_eq_true_1 in Hd. exact Hd.
Qed.

Lemma lookup_tail {A} (l : list A) i x : l !! S i = Some x → x ∈ tail l.
Proof. destruct l as [|a l]; [done|]. exact (list_elem_of_lookup_2 l i x). Qed.

Lemma hash_lookups_exact_witness :
  ∃ h i b tx, block_at_height rpc_after.2 h = Some b ∧ transactions b !! i = Some tx ∧
    known_as tx demo_raw_hash ∧
    eth_get_transaction_by_hash rpc_after.2 [VString (hex_bytes demo_raw_hash)] =
      Ok (tx_to_eth rpc_after.2 tx (Some (h, i))).
Proof.
  destruct (hash_lookups_exact rpc_after.2 (hex_bytes demo_raw_hash) demo_raw_hash
    rpc_after_indexed demo_raw_hash_text) as [[Hfound|[_ Hn]] _]; [exact Hfound|exfalso].
  destruct (index_right _ _ _ _ _ rpc_after_indexed demo_raw_hash (1, 1%nat)
    (or_intror demo_raw_hash_indexed)) as (b&tx&Hb&Hi&Hk).
  exact (Hn b tx (lookup_tail _ 0 b Hb) (list_elem_of_lookup_2 _ _ _ Hi) Hk).
Defined.

Lemma rpc_changes_only_pool_witness : slots_unique (pending_transactions demo_handled.2).
Proof.
  refine (proj2 (rpc_changes_only_pool demo_clock [] rpc_chain) _ _);
    [discriminate|apply NoDup_nil_2].
Defined.

Lemma batch_answered_in_order_witness :
  ∃ vs, demo_handled.1 = VArray vs ∧ Forall2 response_to [demo_send; demo_height; VNull] vs.
Proof.
  pose proof (batch_answered_in_order demo_clock [] rpc_chain [demo_send; demo_height; VNull]
    eq_refl) as Hb.
  unfold demo_handled. destruct (handle_rpc demo_clock [] rpc_chain) as [v c']. exact Hb.
Defined.
End demo.
