(* ===== verification/Rest.v ===== *)
(** * The REST API: what it answers ([src/api/mod.rs])

    Queries of the chain over HTTP: the path and the query string of a [GET], the JSON
    views of the data, one definition per end point. The requests that change
    something, the limits and the faucet are in [Http]. *)
From stdpp Require Import pretty.
From S2P Require Import Prelude Hash Crypto Vm Transaction Token Governance Block Account.
From S2P Require Import Validators Finality Settlement BlockTree Trie StateRoot Chain Apply.
From S2P Require Import Ledger AddBlock Mempool ForkChoice Light Queries Text.

Definition MAX_HEALTHY_BLOCK_AGE_SECS : Z := 120.
Definition MAX_FINALITY_LAG_BLOCKS : Z := 50.

(** ** Responses

    A status and a body; headers are left out. Of the metrics, a text, the samples. *)
Inductive ResponseBody :=
  | JsonBody (v : Value)
  | TextBody (s : string)
  | MetricsBody (samples : list (string * Z))
  | NoBody.
Record Response := mkResponse { rs_status : Z; rs_body : ResponseBody }.

Definition int_value (z : Z) : Value := VNumber (if z <? 0 then NegInt z else PosInt z).
Definition nat_value (n : nat) : Value := int_value (Z.of_nat n).
Definition option_value {A} (f : A → Value) (o : option A) : Value := from_option f VNull o.

(** [ApiResponse], [json_ok], [json_response] and [json_err]. *)
Definition api_response (ok : bool) (data error : Value) : ResponseBody :=
  JsonBody (VObject [("ok", VBool ok); ("data", data); ("error", error)]).
Definition json_response (status : Z) (data : Value) : Response :=
  mkResponse status (api_response ((200 <=? status) && (status <? 300)) data VNull).
Definition json_ok (data : Value) : Response := mkResponse 200 (api_response true data VNull).
Definition json_err (status : Z) (msg : string) : Response :=
  mkResponse status (api_response false VNull (VString msg)).

(** ** Queries *)

Definition slash : Ascii.ascii := Ascii.ascii_of_N 47.
Definition ampersand : Ascii.ascii := Ascii.ascii_of_N 38.
Definition equals_sign : Ascii.ascii := Ascii.ascii_of_N 61.

Definition path_segments (path : string) : list string :=
  filter (λ s, s ≠ EmptyString) (split_char slash path).
Definition query_params (query : string) : list (string * string) :=
  omap (split_once equals_sign) (split_char ampersand query).
Definition query_param (query key : string) : option string :=
  (λ found, found.2.2) <$> list_find (λ kv : string * string, kv.1 = key) (query_params query).
Definition query_u64 (query key : string) : option Z := v ← query_param query key; u64_parse v.

(** [i64::saturating_sub]. *)
Definition i64_saturating_sub (a b : Z) : Z := Z.max (- 2 ^ 63) (Z.min (a - b) (2 ^ 63 - 1)).

(** ** The runtime state of the node ([src/runtime.rs]) *)
Inductive NodeRole := RoleRelay | RoleValidator.
Record RuntimeSnapshot := mkRuntime {
  rt_role : NodeRole;
  rt_validator_address : option string;
  rt_network_online : bool;
  rt_peer_count : Z;
  rt_bootnode_count : Z;
  rt_rpc_addr : string;
  rt_http_addr : string;
}.
Definition role_text (r : NodeRole) : string :=
  match r with RoleRelay => "relay" | RoleValidator => "validator" end.

(** The derived [Debug] text of a proposal's kind. *)
Class DebugText := proposal_kind_text : ProposalKind → string.

Definition status_text (s : ProposalStatus) : string :=
  match s with
  | Active => "Active" | Passed => "Passed" | Rejected => "Rejected"
  | Executed => "Executed" | Expired => "Expired"
  end.

Section views.
Context `{Sha3} `{MlDsa} `{!Bincode SignableTransaction} `{Hex} `{DebugText}.

Definition hex_value (b : bytes) : Value := VString (hex_encode_bytes b).
Definition cur_value (b : bytes) : Value := VString ("CUR" +:+ hex_encode_bytes b).

(** ** Views *)

Definition kind_text (k : TransactionKind) : string :=
  match k with
  | Transfer => "transfer"
  | Stake => "stake"
  | Unstake => "unstake"
  | Coinbase => "coinbase"
  | DeployContract => "deploy_contract"
  | CallContract => "call_contract"
  | DeployToken => "deploy_token"
  | TokenTransfer => "token_transfer"
  | TokenApprove => "token_approve"
  | TokenTransferFrom => "token_transfer_from"
  | SubmitProposal => "submit_proposal"
  | GovernanceVote => "governance_vote"
  | DeployEvmContract => "deploy_evm_contract"
  | CallEvmContract => "call_evm_contract"
  end.

Definition transaction_fields (tx : Transaction) : list (string * Value) :=
  [("hash", hex_value (tx_hash tx)); ("kind", VString (kind_text (tx_kind tx)));
   ("from", hex_value (tx_from tx)); ("to", hex_value (tx_to tx));
   ("amount", int_value (tx_amount tx)); ("fee", int_value (tx_fee tx));
   ("max_fee_per_gas", int_value (max_fee_per_gas tx));
   ("max_priority_fee_per_gas", int_value (max_priority_fee_per_gas tx));
   ("gas_limit", int_value (tx_gas_limit tx)); ("nonce", int_value (tx_nonce tx));
   ("timestamp", int_value (tx_timestamp tx))].
Definition tx_to_api (tx : Transaction) : Value := VObject (transaction_fields tx).

Definition block_to_api (b : Block) : Value :=
  let hd := header b in
  VObject [("height", int_value (height hd)); ("hash", hex_value (block_hash b));
           ("prev_hash", hex_value (prev_hash hd)); ("timestamp", int_value (timestamp hd));
           ("validator", hex_value (validator_public_key hd));
           ("tx_count", nat_value (length (transactions b)));
           ("state_root", hex_value (state_root hd)); ("merkle_root", hex_value (hd_merkle_root hd));
           ("transactions", VArray (tx_to_api <$> transactions b))].
Definition block_to_summary (b : Block) : Value :=
  let hd := header b in
  VObject [("height", int_value (height hd)); ("hash", hex_value (block_hash b));
           ("prev_hash", hex_value (prev_hash hd)); ("timestamp", int_value (timestamp hd));
           ("validator", hex_value (validator_public_key hd));
           ("tx_count", nat_value (length (transactions b)))].

Definition account_proof_to_api (proof : AccountProof) : Value :=
  let st := ap_state proof in
  VObject [("address", hex_value (ap_address proof)); ("leaf_index", nat_value (ap_leaf_index proof));
           ("leaf_hash", hex_value (ap_leaf_hash proof));
           ("proof", VArray (hex_value <$> ap_proof proof));
           ("state_root", hex_value (ap_state_root proof)); ("balance", int_value (balance st));
           ("nonce", int_value (nonce st)); ("staked_balance", int_value (staked_balance st));
           ("validator_active_from_height", int_value (validator_active_from_height st));
           ("jailed_until_height", int_value (jailed_until_height st))].
Definition storage_proof_to_api (proof : StorageProof) : Value :=
  VObject [("contract_address", hex_value (sp_contract_address proof));
           ("contract_code_hash", hex_value (sp_contract_code_hash proof));
           ("contract_owner", hex_value (sp_contract_owner proof));
           ("key", hex_value (sp_key proof)); ("value", hex_value (sp_value proof));
           ("storage_leaf_index", nat_value (sp_storage_leaf_index proof));
           ("storage_leaf_hash", hex_value (sp_storage_leaf_hash proof));
           ("storage_proof", VArray (hex_value <$> sp_storage_proof proof));
           ("storage_root", hex_value (sp_storage_root proof));
           ("contract_leaf_index", nat_value (sp_contract_leaf_index proof));
           ("contract_leaf_hash", hex_value (sp_contract_leaf_hash proof));
           ("contract_proof", VArray (hex_value <$> sp_contract_proof proof));
           ("state_root", hex_value (sp_state_root proof))].

Definition log_view (h : Z) (tx_index log_index : nat) (hash contract : bytes)
    (topics : list bytes) (data : bytes) : Value :=
  VObject [("block_height", int_value h); ("tx_index", nat_value tx_index);
           ("log_index", nat_value log_index); ("tx_hash", hex_value hash);
           ("contract", hex_value contract); ("topics", VArray (hex_value <$> topics));
           ("data", hex_value data)].
Definition indexed_log_to_api (e : IndexedLogEntry) : Value :=
  log_view (il_block_height e) (il_tx_index e) (il_log_index e) (il_tx_hash e) (il_contract e)
    (il_topics e) (il_data e).
Definition indexed_receipt_to_api (r : IndexedReceipt) : Value :=
  let rc := ir_receipt r in
  VObject [("tx_hash", hex_value (ir_tx_hash r)); ("block_height", int_value (ir_block_height r));
           ("tx_index", nat_value (ir_tx_index r)); ("success", VBool (rc_success rc));
           ("gas_used", int_value (rc_gas_used rc));
           ("effective_gas_price", int_value (rc_effective_gas_price rc));
           ("priority_fee_paid", int_value (rc_priority_fee_paid rc));
           ("base_fee_burned", int_value (rc_base_fee_burned rc));
           ("gas_refunded", int_value (rc_gas_refunded rc));
           ("contract_address", option_value hex_value (rc_contract_address rc));
           ("return_data", hex_value (rc_return_data rc));
           ("logs", VArray (imap (λ i l, log_view (ir_block_height r) (ir_tx_index r) i (ir_tx_hash r)
              (log_contract l) (log_topics l) (log_data l)) (rc_logs rc)))].

(** A [Vec<u8>] as the derived [Serialize] writes it, and the headers. *)
Definition byte_array (b : bytes) : Value := VArray ((λ x, int_value (byte_Z x)) <$> b).
Definition header_value (hd : BlockHeader) : Value :=
  VObject [("version", int_value (version hd)); ("height", int_value (height hd));
           ("timestamp", int_value (timestamp hd)); ("prev_hash", byte_array (prev_hash hd));
           ("merkle_root", byte_array (hd_merkle_root hd)); ("state_root", byte_array (state_root hd));
           ("gas_used", int_value (gas_used hd));
           ("base_fee_per_gas", int_value (base_fee_per_gas hd));
           ("validator_public_key", byte_array (validator_public_key hd));
           ("nonce", int_value (hd_nonce hd))].
Definition signed_header_value (sh : SignedHeader) : Value :=
  VObject [("chain_id", VString (sh_chain_id sh)); ("header", header_value (sh_header sh));
           ("block_hash", byte_array (sh_block_hash sh));
           ("signature", option_value (λ sig, byte_array (signature_bytes sig)) (sh_signature sh))].

Definition token_value (t : CUR20Token) : Value :=
  VObject [("address", cur_value (contract_address t)); ("name", VString (name t));
           ("symbol", VString (symbol t)); ("decimals", int_value (decimals t));
           ("total_supply", int_value (Token.total_supply t)); ("creator", cur_value (creator t));
           ("created_at_height", int_value (created_at_height t))].
Definition proposal_value (p : Proposal) : Value :=
  VObject [("id", hex_value (pr_id p)); ("proposer", cur_value (pr_proposer p));
           ("kind", VString (proposal_kind_text (pr_kind p)));
           ("status", VString (status_text (pr_status p)));
           ("created_at_height", int_value (pr_created_at_height p));
           ("voting_deadline_height", int_value (pr_voting_deadline_height p));
           ("execution_height", option_value int_value (pr_execution_height p));
           ("votes_for", int_value (pr_votes_for p));
           ("votes_against", int_value (pr_votes_against p));
           ("voter_count", nat_value (size (pr_voters p)))].
Definition estimate_value (e : TransactionEstimate) : Value :=
  VObject [("next_block_height", int_value (te_next_block_height e));
           ("base_fee_per_gas", int_value (te_base_fee_per_gas e));
           ("gas_used", int_value (te_gas_used e));
           ("effective_gas_price", int_value (te_effective_gas_price e));
           ("priority_fee_paid", int_value (te_priority_fee_paid e));
           ("base_fee_burned", int_value (te_base_fee_burned e));
           ("total_fee_charged", int_value (te_total_fee_charged e));
           ("gas_refunded", int_value (te_gas_refunded e));
           ("max_total_fee", int_value (te_max_total_fee e));
           ("would_replace_pending", VBool (te_would_replace_pending e))].
End views.

(** ** End points *)
(** The hint for browsers that open [/eth]. *)
Definition ETH_HINT : string := "CURS3D Ethereum-compatible JSON-RPC endpoint. POST a JSON-RPC 2.0 request here.
Supported methods: eth_chainId, eth_blockNumber, eth_gasPrice,
eth_getBalance, eth_getTransactionCount, eth_getCode, eth_getStorageAt,
eth_getBlockByNumber, eth_getBlockByHash, eth_getTransactionByHash,
eth_getTransactionReceipt, eth_getLogs, eth_feeHistory, eth_estimateGas,
eth_call, eth_sendRawTransaction, net_version, web3_clientVersion, web3_sha3.
EVM transactions use standard secp256k1-signed RLP via eth_sendRawTransaction;
native CURS3D ML-DSA transactions use POST /api/tx/submit.
".

Section endpoints.
Context `{Sha3} `{MlDsa} `{!Bincode SignableTransaction} `{Hex} `{DebugText}
  `{!BincodeAccountLeaf} `{!BincodeStorageLeaf} `{!BincodeContractLeaf}.

(** An optional [CUR] before the hexadecimal digits of an address. *)
Definition parse_address (text : string) : option bytes :=
  a ← hex_decode_text (default text (strip_prefix "CUR" text));
  if (length a =? ADDRESS_LEN)%nat then Some a else None.
Definition parse_contract (text : string) : option bytes :=
  a ← hex_decode_text text; if (length a =? ADDRESS_LEN)%nat then Some a else None.

Definition bad_request : string → Response := json_err 400.
Definition not_found : string → Response := json_err 404.

(** [Some x] is handed to [f]; [None] is answered with an error. *)
Definition answer_or {A} (o : option A) (error : Response) (f : A → Response) : Response :=
  match o with Some a => f a | None => error end.

Definition health (now : Z) (rt : RuntimeSnapshot) (c : Blockchain) : Response :=
  let latest_ts := timestamp (header (latest_block c)) in
  let age := i64_saturating_sub now latest_ts in
  let finality_lag := saturating_sub (chain_height c) (finalized_height (finality_tracker c)) in
  let healthy := rt_network_online rt && (age <=? MAX_HEALTHY_BLOCK_AGE_SECS) &&
                 (finality_lag <=? MAX_FINALITY_LAG_BLOCKS) in
  json_response (if healthy then 200 else 503)
    (VObject [("ok", VBool healthy);
              ("chain_id", VString (gc_chain_id (genesis_config (bc_params c))));
              ("height", int_value (chain_height c));
              ("finalized_height", int_value (finalized_height (finality_tracker c)));
              ("latest_block_timestamp", int_value latest_ts);
              ("latest_block_age_secs", int_value age);
              ("pending_transactions", nat_value (length (pending_transactions c)));
              ("node_role", VString (role_text (rt_role rt)));
              ("validator_address", option_value VString (rt_validator_address rt));
              ("network_online", VBool (rt_network_online rt));
              ("peer_count", int_value (rt_peer_count rt));
              ("bootnode_count", int_value (rt_bootnode_count rt));
              ("rpc_addr", VString (rt_rpc_addr rt)); ("http_addr", VString (rt_http_addr rt))]).

Definition api_status (now : Z) (rt : RuntimeSnapshot) (c : Blockchain) : Response :=
  json_ok (VObject
    [("chain_id", VString (gc_chain_id (genesis_config (bc_params c))));
     ("chain_name", VString (gc_chain_name (genesis_config (bc_params c))));
     ("epoch", int_value (current_epoch c));
     ("epoch_start_height", int_value (mul64 (current_epoch c) (Z.max (epoch_length (bc_params c)) 1)));
     ("height", int_value (chain_height c)); ("finalized_height", int_value (finalized_height (finality_tracker c)));
     ("latest_hash", hex_value (block_hash (latest_block c)));
     ("genesis_hash", hex_value (genesis_hash c));
     ("latest_block_age_secs",
       int_value (i64_saturating_sub now (timestamp (header (latest_block c)))));
     ("pending_transactions", nat_value (length (pending_transactions c)));
     ("active_validators", nat_value (active_validator_count c));
     ("peer_count", int_value (rt_peer_count rt));
     ("protocol_version", int_value (protocol_version_at_height (bc_params c) (chain_height c)))]).

Definition api_block (c : Blockchain) (height_str : string) : Response :=
  answer_or (u64_parse height_str) (bad_request "invalid height") (λ h,
  answer_or (block_at_height c h) (not_found "block not found") (λ b, json_ok (block_to_api b))).

Definition api_genesis (c : Blockchain) : Response :=
  let g := default default_block (head (bc_blocks c)) in
  json_ok (VObject
    [("chain_id", VString (gc_chain_id (genesis_config (bc_params c))));
     ("chain_name", VString (gc_chain_name (genesis_config (bc_params c))));
     ("genesis_hash", hex_value (block_hash g));
     ("genesis_timestamp", int_value (timestamp (header g)));
     ("genesis_state_root", hex_value (state_root (header g)));
     ("block_gas_limit", int_value (gc_block_gas_limit (genesis_config (bc_params c))));
     ("minimum_stake", int_value (minimum_stake (bc_params c)));
     ("epoch_length", int_value (gc_epoch_length (genesis_config (bc_params c))));
     ("protocol_version", int_value (version (header g)))]).

(** The bounds and the headers of [/api/headers]. *)
Definition header_bounds (c : Blockchain) (query : string) : Z * Z :=
  let from := default 0 (query_u64 query "from") in
  let limit := Z.min (default 64 (query_u64 query "limit")) 256 in
  let to := default (add64 from limit) (query_u64 query "to") in
  (from, Z.min (Z.min to (chain_height c)) (add64 from limit)).
Definition header_at (c : Blockchain) (h : Z) : option SignedHeader :=
  signed_header (gc_chain_id (genesis_config (bc_params c))) <$> block_at_height c h.
Definition served_headers (c : Blockchain) (query : string) : list SignedHeader :=
  let '(from, upper) := header_bounds c query in
  omap (header_at c) (seqZ from (upper - from + 1)).
Definition api_headers (c : Blockchain) (query : string) : Response :=
  let '(from, upper) := header_bounds c query in
  let headers := served_headers c query in
  json_ok (VObject [("from", int_value from); ("to", int_value upper);
                    ("count", nat_value (length headers));
                    ("headers", VArray (signed_header_value <$> headers))]).

Definition api_header (c : Blockchain) (height_str : string) : Response :=
  answer_or (u64_parse height_str) (bad_request "invalid height") (λ h,
  answer_or (header_at c h) (not_found "header not found") (λ sh, json_ok (signed_header_value sh))).

Definition api_finality (c : Blockchain) : Response :=
  json_ok (VObject
    [("finalized_height", int_value (finalized_height (finality_tracker c)));
     ("finalized_hash", hex_value (finalized_hash (finality_tracker c)));
     ("current_height", int_value (chain_height c))]).

Definition api_block_by_hash (c : Blockchain) (hash_str : string) : Response :=
  answer_or (hex_decode_text hash_str) (bad_request "invalid hash") (λ hash,
  answer_or (h ← block_hash_to_height c !! hash; block_at_height c h)
    (not_found "block not found") (λ b, json_ok (block_to_api b))).

(** The blocks of [/api/blocks]. *)
Definition listed_blocks (c : Blockchain) (query : string) : list Block :=
  let from := default 0 (query_u64 query "from") in
  let limit := Z.min (default 20 (query_u64 query "limit")) 100 in
  let tip := chain_height c in
  let start := if (from =? 0) && (limit <=? tip) then tip - limit + 1 else from in
  omap (block_at_height c) (take (Z.to_nat limit) (reverse (seqZ start (tip - start + 1)))).
Definition api_blocks (c : Blockchain) (query : string) : Response :=
  json_ok (VArray (block_to_summary <$> listed_blocks c query)).

Definition api_account (c : Blockchain) (addr : string) : Response :=
  answer_or (parse_address addr) (bad_request "invalid address") (λ address,
  let st := get_account (accounts (bc_state c)) address in
  json_ok (VObject [("address", hex_value address); ("balance", int_value (balance st));
                    ("nonce", int_value (nonce st));
                    ("staked_balance", int_value (staked_balance st))])).

Definition api_account_transactions (c : Blockchain) (addr query : string) : Response :=
  answer_or (parse_address addr) (bad_request "invalid address") (λ address,
  let limit := Z.min (default 50 (query_u64 query "limit")) 500 in
  json_ok (VArray ((λ hit : Z * nat * Transaction,
      VObject (("block_height", int_value hit.1.1) :: ("tx_index", nat_value hit.1.2) ::
               transaction_fields hit.2)) <$>
    transactions_for_address c address (query_u64 query "from_block") (query_u64 query "to_block")
      limit))).

(** [get_account_proof] and [get_storage_proof]. *)
Definition get_account_proof (c : Blockchain) (address : bytes) : option AccountProof :=
  generate_account_proof address (accounts (bc_state c)) (contracts (bc_state c)).
Definition get_storage_proof (c : Blockchain) (contract key : bytes) : option StorageProof :=
  generate_storage_proof contract key (accounts (bc_state c)) (contracts (bc_state c)).

Definition api_account_proof (c : Blockchain) (addr : string) : Response :=
  answer_or (parse_address addr) (bad_request "invalid address") (λ address,
  answer_or (get_account_proof c address) (not_found "account proof not found") (λ proof,
  json_ok (account_proof_to_api proof))).

Definition api_contract_code (c : Blockchain) (addr : string) : Response :=
  answer_or (parse_contract addr) (bad_request "invalid contract address") (λ address,
  answer_or (contracts (bc_state c) !! address) (not_found "contract not found") (λ st,
  json_ok (VObject [("address", hex_value address); ("code", hex_value (code st));
                    ("code_length", nat_value (length (code st)));
                    ("code_hash", hex_value (sha3_hash (code st)));
                    ("owner", hex_value (owner st))]))).

Definition api_storage_proof (c : Blockchain) (addr key_hex : string) : Response :=
  answer_or (parse_contract addr) (bad_request "invalid contract address") (λ address,
  answer_or (hex_decode_text key_hex) (bad_request "invalid storage key") (λ key,
  answer_or (get_storage_proof c address key) (not_found "storage proof not found") (λ proof,
  json_ok (storage_proof_to_api proof)))).

Definition api_tx (c : Blockchain) (hash_str : string) : Response :=
  answer_or (hex_decode_text hash_str) (bad_request "invalid tx hash") (λ target,
  answer_or ('(h, i) ← tx_hash_index c !! target; b ← block_at_height c h; transactions b !! i)
    (not_found "transaction not found") (λ tx, json_ok (tx_to_api tx))).

Definition api_receipt (c : Blockchain) (hash_str : string) : Response :=
  answer_or (hex_decode_text hash_str) (bad_request "invalid tx hash") (λ target,
  answer_or (get_receipt c target) (not_found "receipt not found") (λ r,
  json_ok (indexed_receipt_to_api r))).

Definition query_hex (query key : string) : option bytes :=
  v ← query_param query key; hex_decode_text v.
Definition log_filter_of_query (query : string) : LogFilter :=
  let positional := (λ i : nat, query_hex query ("topic" +:+ pretty i)) <$> seq 0 4 in
  mkLogFilter (query_hex query "contract") (query_hex query "topic")
    (if existsb is_some positional then Some positional else None)
    (query_u64 query "from_block") (query_u64 query "to_block")
    (query_u64 query "limit").
Definition api_logs (c : Blockchain) (query : string) : Response :=
  json_ok (VArray (indexed_log_to_api <$> query_logs c (log_filter_of_query query))).

Definition api_pending (c : Blockchain) : Response :=
  json_ok (VArray (tx_to_api <$> pending_transactions c)).

Definition api_validators (c : Blockchain) : Response :=
  json_ok (VArray ((λ v, VObject [("address", hex_value (vd_address v));
                                  ("public_key", hex_value (vd_public_key v));
                                  ("stake", int_value (vd_stake v))]) <$>
    active_validators (mkPoS (minimum_stake (bc_params c)) (bc_slashed_validators c)
      (add64 (chain_height c) 1)) (accounts (bc_state c)))).

(** [list_tokens] and [list_proposals]; [order] is the iteration order of the map. *)
Definition api_tokens (order : gmap bytes CUR20Token → list CUR20Token) (c : Blockchain) : Response :=
  json_ok (VArray (token_value <$> order (tokens (token_registry (bc_state c))))).
Definition api_token (c : Blockchain) (addr : string) : Response :=
  answer_or (parse_address addr) (bad_request "invalid token address") (λ address,
  answer_or (tokens (token_registry (bc_state c)) !! address) (not_found "token not found") (λ t,
  json_ok (token_value t))).
Definition api_token_balance (c : Blockchain) (token_addr owner_addr : string) : Response :=
  answer_or (parse_address token_addr) (bad_request "invalid token address") (λ token,
  answer_or (parse_address owner_addr) (bad_request "invalid owner address") (λ owner,
  json_ok (VObject [("balance", int_value (balance_of (token_registry (bc_state c)) token owner))]))).
Definition api_proposals (order : gmap bytes Proposal → list Proposal) (c : Blockchain) : Response :=
  json_ok (VArray (proposal_value <$> order (proposals (governance (bc_state c))))).
Definition api_proposal (c : Blockchain) (id_hex : string) : Response :=
  answer_or (hex_decode_text id_hex) (bad_request "invalid proposal id hex") (λ id,
  answer_or (proposals (governance (bc_state c)) !! id) (not_found "proposal not found") (λ p,
  json_ok (proposal_value p))).

(** [/api/metrics]; the model of the chain keeps all blocks, its base height is 0. *)
Definition metrics_values (now uptime : Z) (rt : RuntimeSnapshot) (c : Blockchain)
    : list (string * Z) :=
  let head := chain_height c in
  let fin := finalized_height (finality_tracker c) in
  let '(mempool_sys, mempool_user) := count_pending_by_class (pending_transactions c) in
  [("curs3d_uptime_seconds", uptime); ("curs3d_chain_height", head);
   ("curs3d_finalized_height", fin); ("curs3d_finality_lag", saturating_sub head fin);
   ("curs3d_latest_block_age_seconds",
     Z.max (i64_saturating_sub now (timestamp (header (latest_block c)))) 0);
   ("curs3d_protocol_version", protocol_version_at_height (bc_params c) head);
   ("curs3d_pending_transactions", Z.of_nat (length (pending_transactions c)));
   ("curs3d_pending_transactions_system", mempool_sys);
   ("curs3d_pending_transactions_user", mempool_user);
   ("curs3d_mempool_gas_usage", pending_gas_usage (pending_transactions c));
   ("curs3d_mempool_gas_budget", pending_gas_budget (bc_params c));
   ("curs3d_active_validators", Z.of_nat (active_validator_count c));
   ("curs3d_slashed_validators_total", Z.of_nat (slashed_validator_count c));
   ("curs3d_jailed_validators", Z.of_nat (jailed_validator_count c));
   ("curs3d_peer_count", rt_peer_count rt);
   ("curs3d_accounts_total", Z.of_nat (size (accounts (bc_state c))));
   ("curs3d_contracts_total", Z.of_nat (size (contracts (bc_state c))));
   ("curs3d_receipts_total", Z.of_nat (size (receipts (bc_state c))));
   ("curs3d_logs_total", Z.of_nat (length (log_index (indexes c))));
   ("curs3d_base_fee_per_gas", base_fee_per_gas (header (latest_block c)));
   ("curs3d_chain_base_height", 0)].

(** The [GET] requests of the router, by the segments of the path. *)
Definition get_route (now uptime : Z) (rt : RuntimeSnapshot)
    (token_order : gmap bytes CUR20Token → list CUR20Token)
    (proposal_order : gmap bytes Proposal → list Proposal)
    (c : Blockchain) (segments : list string) (query : string) : option Response :=
  let same (a b : string) := bool_decide (a = b) in
  match segments with
  | [e] => if same e "eth" then Some (mkResponse 200 (TextBody ETH_HINT)) else None
  | [a; e] =>
      if negb (same a "api") then None
      else if same e "healthz" then Some (health now rt c)
      else if same e "metrics" then Some (mkResponse 200 (MetricsBody (metrics_values now uptime rt c)))
      else if same e "status" then Some (api_status now rt c)
      else if same e "genesis" then Some (api_genesis c)
      else if same e "headers" then Some (api_headers c query)
      else if same e "finality" then Some (api_finality c)
      else if same e "blocks" then Some (api_blocks c query)
      else if same e "logs" then Some (api_logs c query)
      else if same e "pending" then Some (api_pending c)
      else if same e "validators" then Some (api_validators c)
      else if same e "tokens" then Some (api_tokens token_order c)
      else None
  | [a; e; x] =>
      if negb (same a "api") then None
      else if same e "block" then Some (api_block c x)
      else if same e "header" then Some (api_header c x)
      else if same e "block-by-hash" then Some (api_block_by_hash c x)
      else if same e "account" then Some (api_account c x)
      else if same e "tx" then Some (api_tx c x)
      else if same e "receipt" then Some (api_receipt c x)
      else if same e "token" then Some (api_token c x)
      else if same e "governance" && same x "proposals" then Some (api_proposals proposal_order c)
      else None
  | [a; e; x; y] =>
      if negb (same a "api") then None
      else if same e "account" && same y "transactions" then Some (api_account_transactions c x query)
      else if same e "account" && same y "proof" then Some (api_account_proof c x)
      else if same e "contract" && same y "code" then Some (api_contract_code c x)
      else if same e "governance" && same x "proposal" then Some (api_proposal c y)
      else None
  | [a; e; x; y; z] =>
      if same a "api" && same e "token" && same y "balance" then Some (api_token_balance c x z) else None
  | [a; e; x; y; z; w] =>
      if same a "api" && same e "contract" && same y "storage" && same w "proof"
      then Some (api_storage_proof c x z) else None
  | _ => None
  end.
End endpoints.
