(* ===== verification/Http.v ===== *)
(** * The REST API: requests, limits and the faucet ([src/api/mod.rs])

    What a request does to the node: the rate limiter, the routing of a request, the
    submission of a transaction and the faucet with its two cooldowns. A request runs
    between the points where it takes a lock; [handle_request] is its run without
    interruption, and the sections of a faucet request are definitions of their own,
    so that runs of several requests can be interleaved. An [Instant] is a number of
    nanoseconds, a cooldown is kept in seconds of the wall clock. *)
From stdpp Require Import pretty.
From S2P Require Import Prelude Hash Crypto Vm Transaction Token Governance Block Account.
From S2P Require Import Validators Finality Settlement BlockTree Trie StateRoot Chain Apply.
From S2P Require Import Ledger AddBlock Mempool ForkChoice Light Queries Text EthRpc Rest.

Definition MAX_API_BODY_BYTES : Z := 1024 * 1024.
Definition RATE_LIMIT_GET : nat := 60.
Definition RATE_LIMIT_POST : nat := 10.
Definition RATE_LIMIT_ETH : nat := 600.
Definition RATE_LIMIT_WINDOW_SECS : Z := 60.
Definition RATE_LIMIT_CLEANUP_SECS : Z := 120.
Definition RATE_LIMIT_CLEANUP_INTERVAL : Z := 100.
Definition FAUCET_AMOUNT : Z := 100000000.
Definition FAUCET_COOLDOWN_SECS : Z := 3600.

Inductive HttpMethod := GET | POST | OPTIONS | OTHER.

#[global] Instance HttpMethod_eq_dec : EqDecision HttpMethod.
Proof. solve_decision. Defined.

(** A request; an address is its 4 or 16 octets, a header is [None] when it is
    missing or not text, the body when it cannot be read. *)
Record HttpRequest := mkRequest {
  rq_peer_ip : bytes;
  rq_method : HttpMethod;
  rq_path : string;
  rq_query : string;
  rq_header : string → option string;
  rq_body : option bytes;
}.

(** A wallet file that could be opened. *)
Record FaucetWallet := mkWallet { fw_keypair : KeyPair; fw_address : string }.

(** The environment of one request: the monotonic clock, the wall clock at the
    reservation, at the stamp of a transaction and at its admission, the readings for
    the requests of a JSON-RPC body, the runtime state and the variables. The
    faucet's variables are [None] when unset, the wallet when it does not open. *)
Record HttpEnv := mkHttpEnv {
  he_instant : Z;
  he_unix : Z;
  he_stamp : Z;
  he_admission : Z;
  he_rpc_clock : nat → Z * Z;
  he_uptime : Z;
  he_runtime : RuntimeSnapshot;
  he_allow_origin : option string;
  he_api_token : option string;
  he_require_captcha : bool;
  he_captcha_secret : option string;
  he_ip_cooldown_secs : Z;
  he_faucet : option (option FaucetWallet * Z);
  he_token_order : gmap bytes CUR20Token → list CUR20Token;
  he_proposal_order : gmap bytes Proposal → list Proposal;
}.

(** What the requests share: the chain, the limiter, the cooldowns and the files they
    are saved to, the transactions handed to the network and the event stream. *)
Record HttpState := mkHttpState {
  hs_chain : Blockchain;
  hs_limiter : gmap bytes (list Z);
  hs_request_counter : Z;
  hs_addr_cooldowns : gmap string Z;
  hs_ip_cooldowns : gmap string Z;
  hs_addr_file : gmap string Z;
  hs_ip_file : gmap string Z;
  hs_outbound : list Transaction;
  hs_events : list string;
}.

Definition set_chain (c : Blockchain) (s : HttpState) : HttpState :=
  mkHttpState c (hs_limiter s) (hs_request_counter s) (hs_addr_cooldowns s) (hs_ip_cooldowns s)
    (hs_addr_file s) (hs_ip_file s) (hs_outbound s) (hs_events s).
Definition set_limiter (l : gmap bytes (list Z)) (count : Z) (s : HttpState) : HttpState :=
  mkHttpState (hs_chain s) l count (hs_addr_cooldowns s) (hs_ip_cooldowns s)
    (hs_addr_file s) (hs_ip_file s) (hs_outbound s) (hs_events s).
Definition set_cooldowns (a i : gmap string Z) (s : HttpState) : HttpState :=
  mkHttpState (hs_chain s) (hs_limiter s) (hs_request_counter s) a i
    (hs_addr_file s) (hs_ip_file s) (hs_outbound s) (hs_events s).
Definition save_cooldowns (s : HttpState) : HttpState :=
  mkHttpState (hs_chain s) (hs_limiter s) (hs_request_counter s) (hs_addr_cooldowns s)
    (hs_ip_cooldowns s) (hs_addr_cooldowns s) (hs_ip_cooldowns s) (hs_outbound s) (hs_events s).
Definition send_outbound (tx : Transaction) (s : HttpState) : HttpState :=
  mkHttpState (hs_chain s) (hs_limiter s) (hs_request_counter s) (hs_addr_cooldowns s)
    (hs_ip_cooldowns s) (hs_addr_file s) (hs_ip_file s) (hs_outbound s ++ [tx]) (hs_events s).
Definition send_event (event : string) (s : HttpState) : HttpState :=
  mkHttpState (hs_chain s) (hs_limiter s) (hs_request_counter s) (hs_addr_cooldowns s)
    (hs_ip_cooldowns s) (hs_addr_file s) (hs_ip_file s) (hs_outbound s) (hs_events s ++ [event]).

(** ** Rate limiting *)

(** [now.duration_since(ts).as_secs()]. *)
Definition secs_since (now ts : Z) : Z := Z.max 0 (now - ts) / 1000000000.
Definition recent (secs now : Z) (timestamps : list Z) : list Z :=
  filter (λ ts, secs_since now ts < secs) timestamps.

Definition is_eth_path (path : string) : bool :=
  bool_decide (path = "/eth") || bool_decide (path = "/rpc/eth").
Definition max_requests (method : HttpMethod) (path : string) : nat :=
  if is_eth_path path then RATE_LIMIT_ETH
  else if bool_decide (method = POST) then RATE_LIMIT_POST
  else RATE_LIMIT_GET.

(** The periodic cleanup, then the check of one address. *)
Definition limiter_retain (now : Z) (m : gmap bytes (list Z)) : gmap bytes (list Z) :=
  omap (λ timestamps, match recent RATE_LIMIT_CLEANUP_SECS now timestamps with
                      | [] => None
                      | l => Some l
                      end) m.
Definition limiter_entry (limit : nat) (now : Z) (timestamps : list Z) : bool * list Z :=
  let timestamps := recent RATE_LIMIT_WINDOW_SECS now timestamps in
  if (limit <=? length timestamps)%nat then (false, timestamps) else (true, timestamps ++ [now]).

(** [check_rate_limit]. *)
Definition check_rate_limit (now : Z) (peer_ip : bytes) (method : HttpMethod) (path : string)
    (s : HttpState) : option Response * HttpState :=
  let limit := max_requests method path in
  let count := add64 (hs_request_counter s) 1 in
  let m := if count mod RATE_LIMIT_CLEANUP_INTERVAL =? 0
           then limiter_retain now (hs_limiter s) else hs_limiter s in
  let '(ok, timestamps) := limiter_entry limit now (default [] (m !! peer_ip)) in
  (if ok : bool then None
   else Some (json_err 429 ("rate limit exceeded: max " +:+ pretty limit +:+ " requests per minute")),
   set_limiter (<[peer_ip := timestamps]> m) count s).

(** ** The client's address *)

(** [str::parse::<IpAddr>] and the text of an address. *)
Class IpText := {
  parse_ip : string → option bytes;
  ip_to_string : bytes → string;
}.

Definition is_loopback (ip : bytes) : bool :=
  if (length ip =? 4)%nat then bool_decide (head ip = Some x7f)
  else bool_decide (ip = replicate 15 x00 ++ [x01]).

Definition comma : Ascii.ascii := Ascii.ascii_of_N 44.

Definition client_ip `{IpText} (rq : HttpRequest) : bytes :=
  if is_loopback (rq_peer_ip rq) then
    let from_real_ip := h ← rq_header rq "x-real-ip"; parse_ip (trim h) in
    let from_xff :=
      h ← rq_header rq "x-forwarded-for"; first ← head (split_char comma h); parse_ip (trim first) in
    match from_real_ip with
    | Some ip => ip
    | None => default (rq_peer_ip rq) from_xff
    end
  else rq_peer_ip rq.

(** ** Authorisation *)

Fixpoint xor_diff (diff : Z) (a b : bytes) : Z :=
  match a, b with
  | x :: a, y :: b => xor_diff (Z.lor diff (Z.lxor (byte_Z x) (byte_Z y))) a b
  | _, _ => diff
  end.
Definition constant_time_eq (a b : bytes) : bool :=
  if negb (length a =? length b)%nat then false else xor_diff 0 a b =? 0.

Definition captcha_verified (env : HttpEnv) (rq : HttpRequest) : bool :=
  if negb (bool_decide (default ""%string (rq_header rq "x-captcha-verified") = "1"%string)) then false
  else
    match he_captcha_secret env, rq_header rq "x-captcha-secret" with
    | Some expected, Some provided => constant_time_eq (bstr expected) (bstr provided)
    | _, _ => false
    end.

Definition enforce_api_auth (env : HttpEnv) (rq : HttpRequest) : option Response :=
  token ← he_api_token env;
  if bool_decide (rq_header rq "authorization" = Some ("Bearer " +:+ token)) then None
  else Some (json_err 401 "missing or invalid API bearer token").

(** ** Bodies *)

Definition too_large : Response := json_err 413 "request body too large".

Definition read_body (rq : HttpRequest) : result Response bytes :=
  body ← ok_or (json_err 400 "failed to read body") (rq_body rq);
  if MAX_API_BODY_BYTES <? Z.of_nat (length body) then Err too_large else Ok body.

(** The announced length first, then the body. *)
Definition bounded_body (rq : HttpRequest) : result Response bytes :=
  match (h ← rq_header rq "content-length"; u64_parse h) with
  | Some n => if MAX_API_BODY_BYTES <? n then Err too_large else read_body rq
  | None => read_body rq
  end.

(** [serde_json::from_slice] at [Transaction]. *)
Class TransactionJson := parse_transaction : bytes → result string Transaction.

Definition transaction_body `{TransactionJson} (rq : HttpRequest) : result Response Transaction :=
  body ← bounded_body rq;
  map_err (λ e, json_err 400 ("invalid transaction JSON: " +:+ e)) (parse_transaction body).

Section http.
Context `{Sha3} `{MlDsa} `{EvmEngine} `{WasmEngine} `{RustSort} `{!Bincode SignableTransaction}
  `{!Bincode ProposalKind} `{!Json DeployTokenParams} `{!Json TokenTransferParams}
  `{!Json TokenApproveParams} `{!Json TokenTransferFromParams} `{!Json SubmitProposalParams}
  `{!Json GovernanceVoteParams} `{Hex} `{ErrorText} `{JsonText} `{DebugText} `{IpText}
  `{TransactionJson} `{!BincodeAccountLeaf} `{!BincodeStorageLeaf} `{!BincodeContractLeaf}.

(** ** The faucet *)

(** Up to the first lock: the address asked for, the faucet's wallet and the fee. *)
Definition faucet_parse (env : HttpEnv) (rq : HttpRequest)
    : result Response (bytes * FaucetWallet * Z) :=
  if he_require_captcha env && negb (captcha_verified env rq)
  then Err (json_err 403 "captcha verification required")
  else
    body ← bounded_body rq;
    payload ← ok_or (json_err 400 "invalid faucet request JSON") (parse_json body);
    address_str ← ok_or (json_err 400 "missing faucet request address")
      (v ← json_get payload "address"; as_str v);
    address ← ok_or (json_err 400 "invalid address") (parse_address address_str);
    '(wallet, fee) ← ok_or (json_err 503
      "faucet disabled: configure CURS3D_FAUCET_WALLET and password") (he_faucet env);
    wallet ← ok_or (json_err 503 "faucet unavailable: failed to load configured faucet wallet") wallet;
    Ok (address, wallet, fee).

(** The remaining seconds of a cooldown that has not passed. *)
Definition cooldown_left (cooldown now : Z) (last_request : option Z) : option Z :=
  last ← last_request;
  let elapsed := saturating_sub now last in
  if elapsed <? cooldown then Some (cooldown - elapsed) else None.

(** What a reservation has to put back. *)
Record Reservation := mkReservation {
  rv_address_key : string;
  rv_ip_key : string;
  rv_prev_addr : option Z;
  rv_prev_ip : option Z;
}.

(** The check of both cooldowns and their update, under both locks. *)
Definition faucet_reserve (now ip_cooldown : Z) (address_key ip_key : string) (s : HttpState)
    : result Response Reservation * HttpState :=
  let a := hs_addr_cooldowns s in
  let i := hs_ip_cooldowns s in
  match cooldown_left FAUCET_COOLDOWN_SECS now (a !! address_key) with
  | Some remaining =>
      (Err (json_err 429 ("faucet cooldown: try again in " +:+ pretty remaining +:+ " seconds")), s)
  | None =>
      match cooldown_left ip_cooldown now (i !! ip_key) with
      | Some remaining =>
          (Err (json_err 429 ("ip cooldown: try again in " +:+ pretty remaining +:+ " seconds")), s)
      | None =>
          (Ok (mkReservation address_key ip_key (a !! address_key) (i !! ip_key)),
           set_cooldowns (<[address_key := now]> a) (<[ip_key := now]> i) s)
      end
  end.

(** [rollback_cooldowns]. *)
Definition put_back (key : string) (prev : option Z) (m : gmap string Z) : gmap string Z :=
  match prev with Some ts => <[key := ts]> m | None => delete key m end.
Definition faucet_rollback (r : Reservation) (s : HttpState) : HttpState :=
  set_cooldowns (put_back (rv_address_key r) (rv_prev_addr r) (hs_addr_cooldowns s))
    (put_back (rv_ip_key r) (rv_prev_ip r) (hs_ip_cooldowns s)) s.

(** The transfer, under the lock of the chain; [None] is the panic of a signature
    with a key that is none. *)
Definition faucet_transfer (env : HttpEnv) (address : bytes) (wallet : FaucetWallet) (fee : Z)
    (s : HttpState) : option (result (Z * string) Transaction) * HttpState :=
  let c := hs_chain s in
  let pk := public_key (fw_keypair wallet) in
  let faucet_account := get_account (accounts (bc_state c)) (address_bytes_from_public_key pk) in
  if balance faucet_account <? saturating_add FAUCET_AMOUNT fee
  then (Some (Err (503, "faucet depleted: refill the configured faucet wallet"%string)), s)
  else
    match transaction_sign
            (transaction_new (gc_chain_id (genesis_config (bc_params c))) pk address FAUCET_AMOUNT fee
               (nonce faucet_account) (he_stamp env)) (fw_keypair wallet) with
    | None => (None, s)
    | Some tx =>
        match add_transaction (he_admission env) tx c with
        | (Ok _, c) => (Some (Ok tx), set_chain c s)
        | (Err e, c) => (Some (Err (400, "faucet transfer rejected: " +:+ chain_error_text e)),
                         set_chain c s)
        end
    end.

Definition faucet_finish (tx : Transaction) (address : bytes) (wallet : FaucetWallet) (fee : Z)
    (s : HttpState) : Response * HttpState :=
  (json_ok (VObject [("address", hex_value address); ("amount", int_value FAUCET_AMOUNT);
                     ("tx_hash", hex_value (tx_hash tx)); ("from", VString (fw_address wallet));
                     ("fee", int_value fee);
                     ("next_available_secs", int_value FAUCET_COOLDOWN_SECS)]),
   save_cooldowns (send_outbound tx s)).

(** [POST /api/faucet/request]. *)
Definition faucet_request (env : HttpEnv) (rq : HttpRequest) (s : HttpState)
    : option Response * HttpState :=
  match faucet_parse env rq with
  | Err response => (Some response, s)
  | Ok (address, wallet, fee) =>
      match faucet_reserve (he_unix env) (he_ip_cooldown_secs env) (hex_encode_bytes address)
              (ip_to_string (client_ip rq)) s with
      | (Err response, s) => (Some response, s)
      | (Ok r, s) =>
          match faucet_transfer env address wallet fee s with
          | (None, s) => (None, s)
          | (Some (Err (status, msg)), s) => (Some (json_err status msg), faucet_rollback r s)
          | (Some (Ok tx), s) =>
              let '(response, s) := faucet_finish tx address wallet fee s in (Some response, s)
          end
      end
  end.

(** ** Transactions *)

(** [POST /api/tx/submit]. *)
Definition submit_transaction (env : HttpEnv) (rq : HttpRequest) (s : HttpState)
    : Response * HttpState :=
  match enforce_api_auth env rq with
  | Some response => (response, s)
  | None =>
      match transaction_body rq with
      | Err response => (response, s)
      | Ok tx =>
          let hash := hex_encode_bytes (tx_hash tx) in
          match add_transaction (he_admission env) tx (hs_chain s) with
          | (Ok _, c) =>
              let s := set_chain c s in
              let s := match last (pending_transactions c) with
                       | Some pending => send_outbound pending s
                       | None => s
                       end in
              (json_ok (VObject [("tx_hash", VString hash)]), send_event hash s)
          | (Err e, c) => (json_err 400 (chain_error_text e), set_chain c s)
          end
      end
  end.

(** [POST /api/tx/estimate]. *)
Definition api_estimate (rq : HttpRequest) (c : Blockchain) : Response :=
  match transaction_body rq with
  | Err response => response
  | Ok tx =>
      match estimate_transaction c tx with
      | Ok estimate => json_ok (estimate_value estimate)
      | Err e => json_err 400 (chain_error_text e)
      end
  end.

(** [POST /eth]. *)
Definition eth_request (env : HttpEnv) (rq : HttpRequest) (s : HttpState) : Response * HttpState :=
  match read_body rq with
  | Err response => (response, s)
  | Ok body =>
      let '(v, c) := handle_rpc (he_rpc_clock env) body (hs_chain s) in
      (mkResponse 200 (JsonBody v), set_chain c s)
  end.

(** ** The router ([handle_request])

    [None] is a request that ended in a panic. *)
Definition route (env : HttpEnv) (rq : HttpRequest) (s : HttpState) : option Response * HttpState :=
  let segments := path_segments (rq_path rq) in
  let endpoint_not_found := json_err 404 "endpoint not found" in
  match rq_method rq with
  | GET =>
      (Some (default endpoint_not_found
         (get_route (he_unix env) (he_uptime env) (he_runtime env) (he_token_order env)
            (he_proposal_order env) (hs_chain s) segments (rq_query rq))), s)
  | POST =>
      if bool_decide (segments = ["api"; "faucet"; "request"]) then faucet_request env rq s
      else if bool_decide (segments = ["api"; "tx"; "submit"]) then
        let '(response, s) := submit_transaction env rq s in (Some response, s)
      else if bool_decide (segments = ["api"; "tx"; "estimate"]) then
        (Some (api_estimate rq (hs_chain s)), s)
      else if bool_decide (segments = ["eth"]) || bool_decide (segments = ["rpc"; "eth"]) then
        let '(response, s) := eth_request env rq s in (Some response, s)
      else (Some endpoint_not_found, s)
  | OPTIONS | OTHER => (Some endpoint_not_found, s)
  end.

Definition handle_request (env : HttpEnv) (rq : HttpRequest) (s : HttpState)
    : option Response * HttpState :=
  if bool_decide (rq_method rq = OPTIONS) then
    (Some (mkResponse
       (if negb (is_eth_path (rq_path rq)) && bool_decide (he_allow_origin env = None)
        then 403 else 204) NoBody), s)
  else
    match check_rate_limit (he_instant env) (rq_peer_ip rq) (rq_method rq) (rq_path rq) s with
    | (Some response, s) => (Some response, s)
    | (None, s) => route env rq s
    end.
End http.
