(* ===== verification/HttpSafety.v ===== *)
(** * What the REST API guarantees

    Theorems about [Rest] and [Http]: what a request can change, exactly which requests
    the limiter lets through, how far apart the faucet's grants are however requests
    interleave, what is broadcast of a submitted transaction, and what a light client
    gets from the header end point. *)
From stdpp Require Import pretty.
From S2P Require Import Prelude Hash Crypto Vm Transaction Token Governance Block Account.
From S2P Require Import Validators Finality Settlement BlockTree Trie StateRoot Chain Apply.
From S2P Require Import Ledger AddBlock ChainSafety Mempool MempoolSafety ForkChoice ForkChoiceSafety.
From S2P Require Import Light Queries Text EthRpc EthRpcSafety Rest Http.

(** ** The limiter *)

Lemma secs_since_mono now now' ts : now ≤ now' → secs_since now ts ≤ secs_since now' ts.
Proof. intros Hn. unfold secs_since. apply Z.div_le_mono; lia. Qed.

Lemma recent_recent w w' now now' l :
  now ≤ now' → w ≤ w' → recent w now' (recent w' now l) = recent w now' l.
Proof.
  intros Hn Hw. unfold recent. rewrite list_filter_filter. apply list_filter_iff.
  intros ts. pose proof (secs_since_mono now now' ts Hn). split; [by intros [? ?]|]. intros Hs. split; lia.
Qed.

(** The times at which requests of an address were let through. *)
Definition accepted_times (ip : bytes) (hist : list (bytes * Z)) : list Z :=
  (filter (λ e : bytes * Z, e.1 = ip) hist).*2.

Record LimitedRequest := mkLimited {
  lr_now : Z;
  lr_ip : bytes;
  lr_method : HttpMethod;
  lr_path : string;
}.

(** A run of the limiter, with what it let through. *)
Definition limited_step (st : HttpState * list (bytes * Z)) (rq : LimitedRequest)
    : HttpState * list (bytes * Z) :=
  let '(r, s) := check_rate_limit (lr_now rq) (lr_ip rq) (lr_method rq) (lr_path rq) st.1 in
  (s, match r with None => st.2 ++ [(lr_ip rq, lr_now rq)] | Some _ => st.2 end).
Definition limited_run (rqs : list LimitedRequest) (s : HttpState) : HttpState * list (bytes * Z) :=
  foldl limited_step (s, []) rqs.

(** From the time [now] on, the limiter answers by the history. *)
Definition limiter_follows (now : Z) (m : gmap bytes (list Z)) (hist : list (bytes * Z)) : Prop :=
  ∀ ip now', now ≤ now' →
    recent RATE_LIMIT_WINDOW_SECS now' (default [] (m !! ip)) =
    recent RATE_LIMIT_WINDOW_SECS now' (accepted_times ip hist).

Lemma limiter_follows_later now now' m hist :
  now ≤ now' → limiter_follows now m hist → limiter_follows now' m hist.
Proof. intros Hn Hf ip n Hle. apply Hf. lia. Qed.

Lemma limiter_retain_follows now m hist :
  limiter_follows now m hist → limiter_follows now (limiter_retain now m) hist.
Proof.
  intros Hf ip now' Hn. rewrite <- (Hf ip now' Hn). unfold limiter_retain. rewrite lookup_omap.
  destruct (m !! ip) as [l|] eqn:E; simpl; [|done].
  rewrite <- (recent_recent RATE_LIMIT_WINDOW_SECS RATE_LIMIT_CLEANUP_SECS now now' l) by done.
  by destruct (recent RATE_LIMIT_CLEANUP_SECS now l).
Qed.

Lemma accepted_times_snoc ip hist ip' now :
  accepted_times ip (hist ++ [(ip', now)]) =
  accepted_times ip hist ++ (if decide (ip' = ip) then [now] else []).
Proof.
  unfold accepted_times. rewrite filter_app, fmap_app. f_equal.
  rewrite filter_cons. simpl. case_decide; done.
Qed.

Lemma recent_app w now l l' : recent w now (l ++ l') = recent w now l ++ recent w now l'.
Proof. unfold recent. apply filter_app. Qed.

(** What one request does to the limiter. *)
Lemma check_rate_limit_spec now ip method path s r s' hist :
  limiter_follows now (hs_limiter s) hist →
  check_rate_limit now ip method path s = (r, s') →
  (r = None ↔
    (length (recent RATE_LIMIT_WINDOW_SECS now (accepted_times ip hist)) < max_requests method path)%nat) ∧
  limiter_follows now (hs_limiter s')
    (match r with None => hist ++ [(ip, now)] | Some _ => hist end).
Proof.
  unfold check_rate_limit. cbv zeta. set (m := if _ =? 0 then _ else _). intros Hf Hc.
  assert (limiter_follows now m hist) as Hm.
  { subst m. destruct (_ =? 0); [by apply limiter_retain_follows|done]. }
  unfold limiter_entry in Hc. rewrite (Hm ip now) in Hc by lia.
  set (l := recent _ now (accepted_times ip hist)) in *.
  assert (∀ ip' now' x, now ≤ now' → ip' ≠ ip →
    recent RATE_LIMIT_WINDOW_SECS now' (default [] (<[ip:=x]> m !! ip')) =
    recent RATE_LIMIT_WINDOW_SECS now' (accepted_times ip' hist)) as Hother.
  { intros ip' now' x Hn Hne. rewrite lookup_insert_ne by done. by apply Hm. }
  destruct (max_requests method path <=? length l)%nat eqn:E; injection Hc as <- <-.
  - apply Nat.leb_le in E. split; [split; [done|lia]|]. intros ip' now' Hn. simpl.
    destruct (decide (ip' = ip)) as [->|Hne]; [|by apply Hother].
    rewrite lookup_insert_eq. simpl. subst l. by apply recent_recent.
  - apply Nat.leb_gt in E. split; [done|]. intros ip' now' Hn. simpl. rewrite accepted_times_snoc.
    destruct (decide (ip' = ip)) as [->|Hne].
    + rewrite lookup_insert_eq, decide_True by done. simpl. rewrite !recent_app. f_equal.
      subst l. by apply recent_recent.
    + rewrite decide_False, app_nil_r by done. by apply Hother.
Qed.

Lemma limited_run_follows rqs s now :
  hs_limiter s = ∅ → StronglySorted Z.le ((lr_now <$> rqs) ++ [now]) →
  limiter_follows now (hs_limiter (limited_run rqs s).1) (limited_run rqs s).2.
Proof.
  intros Hs. revert now. induction rqs as [|rq rqs IH] using rev_ind; intros now Hsort.
  - intros ip now' _. simpl. by rewrite Hs, lookup_empty.
  - unfold limited_run. rewrite foldl_app. simpl. fold (limited_run rqs s).
    rewrite fmap_app, <- app_assoc in Hsort. simpl in Hsort.
    assert (StronglySorted Z.le ((lr_now <$> rqs) ++ [lr_now rq])) as Hsort1.
    { apply (StronglySorted_app_1_l Z.le ((lr_now <$> rqs) ++ [lr_now rq]) [now]).
      by rewrite <- app_assoc. }
    assert (lr_now rq ≤ now) as Hle.
    { eapply (StronglySorted_app_1_elem_of Z.le ((lr_now <$> rqs) ++ [lr_now rq]) [now]);
        [by rewrite <- app_assoc| |]; set_solver. }
    unfold limited_step. destruct (check_rate_limit _ _ _ _ _) as [r s'] eqn:Hc. simpl.
    apply check_rate_limit_spec with (hist := (limited_run rqs s).2) in Hc as [_ Hf]; [|by apply IH].
    by eapply limiter_follows_later.
Qed.

(** C29: a request is let through exactly when fewer requests of its address than its
    limit were let through in the last sixty seconds. The limit depends on the
    request, but the count takes all requests of the address together, whatever their
    kind; the periodic cleanup makes no difference. *)
Theorem http_rate_limit_exact (rqs : list LimitedRequest) (s : HttpState) (rq : LimitedRequest) :
  hs_limiter s = ∅ → StronglySorted Z.le ((lr_now <$> rqs) ++ [lr_now rq]) →
  let '(s', hist) := limited_run rqs s in
  (check_rate_limit (lr_now rq) (lr_ip rq) (lr_method rq) (lr_path rq) s').1 = None ↔
  (length (recent RATE_LIMIT_WINDOW_SECS (lr_now rq) (accepted_times (lr_ip rq) hist))
    < max_requests (lr_method rq) (lr_path rq))%nat.
Proof.
  intros Hs Hsort. pose proof (limited_run_follows rqs s (lr_now rq) Hs Hsort) as Hf.
  destruct (limited_run rqs s) as [s' hist].
  destruct (check_rate_limit (lr_now rq) (lr_ip rq) (lr_method rq) (lr_path rq) s') as [r s2] eqn:Hc.
  by apply check_rate_limit_spec with (hist := hist) in Hc as [Hiff _].
Qed.

(** ** One table of cooldowns

    A reservation writes its time under its key and remembers what was there. It is
    either granted, and stays, or fails, and puts back what was there. *)
Section cooldowns.
Context (cd : Z) (key : Reservation → string) (prev : Reservation → option Z) (Hcd : 0 < cd).

Definition keeps_apart (grants : list (Reservation * Z)) : Prop :=
  ∀ i j g g', i ≠ j → grants !! i = Some g → grants !! j = Some g' → key g.1 = key g'.1 →
  cd ≤ Z.abs (g.2 - g'.2).

(** A request under way whose cooldown has not passed. *)
Definition under_way (clock : Z) (x : Reservation * Z) : Prop := clock < x.2 + cd.

Record table_inv (clock : Z) (m : gmap string Z) (inflight grants : list (Reservation * Z)) : Prop := {
  ti_apart : keeps_apart grants;
  ti_granted : ∀ g, g ∈ grants → ∃ t, m !! key g.1 = Some t ∧ g.2 ≤ t;
  ti_inflight : ∀ l1 x l2, inflight = l1 ++ x :: l2 → under_way clock x →
    m !! key x.1 = Some x.2 ∧
    (∀ g, g ∈ grants → key g.1 = key x.1 → ∃ p, prev x.1 = Some p ∧ g.2 ≤ p ∧ p + cd ≤ x.2) ∧
    (∀ y, y ∈ l1 ++ l2 → under_way clock y → key y.1 ≠ key x.1);
}.

Lemma table_inv_start clock m : table_inv clock m [] [].
Proof.
  split; [by intros ? ? ? ? _ [=]|by intros g ?%not_elem_of_nil|].
  intros l1 x l2 E. by destruct l1.
Qed.

Lemma table_inv_later clock clock' m inflight grants :
  clock ≤ clock' → table_inv clock m inflight grants → table_inv clock' m inflight grants.
Proof.
  intros Hc [Ha Hg Hi]. split; [done..|]. intros l1 x l2 E Hu. unfold under_way in *.
  destruct (Hi l1 x l2 E) as (Hm&Hgr&Ho); [lia|]. split_and!; [done..|].
  intros y Hy Hy'. apply Ho; [done|lia].
Qed.

(** A check that passes: the entry is old enough. *)
Lemma cooldown_passed now last :
  cooldown_left cd now last = None → ∀ t, last = Some t → t + cd ≤ now.
Proof.
  intros Hl t ->. unfold cooldown_left in Hl. simpl in Hl.
  destruct (_ <? _) eqn:E; [done|]. apply Z.ltb_ge in E. unfold saturating_sub in E. lia.
Qed.

Lemma table_inv_reserve clock now m inflight grants r :
  clock ≤ now → table_inv clock m inflight grants → prev r = m !! key r →
  cooldown_left cd now (m !! key r) = None →
  table_inv now (<[key r := now]> m) ((r, now) :: inflight) grants.
Proof.
  intros Hc Hinv Hp Hl. apply (table_inv_later _ now) in Hinv; [|done].
  destruct Hinv as [Ha Hg Hi]. pose proof (cooldown_passed now _ Hl) as Hold.
  assert (∀ l1 y l2, inflight = l1 ++ y :: l2 → under_way now y → key y.1 ≠ key r) as Hne.
  { intros l1 y l2 E Hu Hk. destruct (Hi l1 y l2 E Hu) as (Hm&_). rewrite Hk in Hm.
    apply Hold in Hm. unfold under_way in Hu. lia. }
  split; [done| |].
  - intros g Hin. destruct (Hg g Hin) as (t&Ht&Hle). destruct (decide (key g.1 = key r)) as [Ek|Ek].
    + rewrite Ek, lookup_insert_eq. exists now. split; [done|]. rewrite Ek in Ht. apply Hold in Ht. lia.
    + rewrite lookup_insert_ne by done. by exists t.
  - intros l1 x l2 E Hu. destruct l1 as [|y l1]; injection E as E1 E2; subst.
    + simpl. rewrite lookup_insert_eq. split; [done|]. split.
      * intros g Hin Ek. destruct (Hg g Hin) as (t&Ht&Hle). exists t. rewrite Ek in Ht.
        split; [by rewrite Hp|]. split; [done|]. by apply Hold.
      * intros y (l1&l3&E)%list_elem_of_split Hy. by eapply Hne.
    + pose proof (Hne l1 x l2 eq_refl Hu) as Hk. destruct (Hi l1 x l2 eq_refl Hu) as (Hm&Hgr&Ho).
      rewrite lookup_insert_ne by done. split; [done|]. split; [done|].
      intros z [->|Hz]%elem_of_cons Huz; [simpl; congruence|by apply Ho].
Qed.

(** The end of a request in time, granted or failed. *)
Lemma inflight_rest clock now m l1 x l2 grants m' grants' :
  clock ≤ now → table_inv clock m (l1 ++ x :: l2) grants → under_way now x →
  (∀ k, k ≠ key x.1 → m' !! k = m !! k) →
  (∀ g, g ∈ grants' → g ∈ grants ∨ g = x) →
  keeps_apart grants' →
  (∀ g, g ∈ grants' → key g.1 = key x.1 → ∃ t, m' !! key x.1 = Some t ∧ g.2 ≤ t) →
  table_inv now m' (l1 ++ l2) grants'.
Proof.
  intros Hc Hinv Hu Hm' Hsub Hap Hk. apply (table_inv_later _ now) in Hinv; [|done].
  destruct Hinv as [Ha Hg Hi]. destruct (Hi l1 x l2 eq_refl Hu) as (_&_&Hox).
  split; [done| |].
  - intros g Hin. destruct (decide (key g.1 = key x.1)) as [Ek|Ek]; [rewrite Ek; by apply Hk|].
    rewrite Hm' by done. destruct (Hsub g Hin) as [Hin'| ->]; [by apply Hg|done].
  - intros a y b E Huy.
    assert (y ∈ l1 ++ l2) as Hy by (rewrite E; apply elem_of_app; right; left).
    pose proof (Hox y Hy Huy) as Hkxy.
    assert (∃ a' b', l1 ++ x :: l2 = a' ++ y :: b' ∧ ∀ z, z ∈ a ++ b → z ∈ a' ++ b') as (a'&b'&E'&Hsubz).
    { apply app_eq_app in E as (l&[[-> E]|[-> E]]).
      - destruct l as [|z l]; simpl in E.
        + subst l2. exists (a ++ [x]), b. rewrite app_nil_r, <- app_assoc. simpl. split; [done|].
          set_solver.
        + injection E as <- ->. exists a, (l ++ x :: l2). rewrite <- app_assoc. simpl. split; [done|].
          set_solver.
      - exists (l1 ++ x :: l), b. rewrite E, <- app_assoc. simpl. split; [done|]. set_solver. }
    destruct (Hi a' y b' E' Huy) as (Hmy&Hgy&Hoy). split_and!.
    + by rewrite Hm'.
    + intros g Hin Ek. destruct (Hsub g Hin) as [Hin'| ->]; [by apply Hgy|congruence].
    + intros z Hz. apply Hoy. auto.
Qed.

Lemma table_inv_grant clock now m l1 x l2 grants :
  clock ≤ now → table_inv clock m (l1 ++ x :: l2) grants → under_way now x →
  table_inv now m (l1 ++ l2) (x :: grants).
Proof.
  intros Hc Hinv Hu.
  assert (under_way clock x) as Hu' by (unfold under_way in *; lia).
  pose proof (ti_inflight _ _ _ _ Hinv l1 x l2 eq_refl Hu') as (Hm&Hgr&_).
  pose proof (ti_apart _ _ _ _ Hinv) as Ha.
  eapply (inflight_rest clock now m l1 x l2 grants); try done.
  - intros g [->|Hin]%elem_of_cons; auto.
  - assert (∀ g, g ∈ grants → key x.1 = key g.1 → cd ≤ Z.abs (x.2 - g.2)) as Hx.
    { intros g Hin Ek. destruct (Hgr g Hin (eq_sym Ek)) as (p&_&?&?). lia. }
    intros [|i] [|j] g g' Hij Hgi Hgj Ek; simpl in Hgi, Hgj; try done.
    + injection Hgi as <-. apply Hx; [by eapply list_elem_of_lookup_2|done].
    + injection Hgj as <-. rewrite <- Z.abs_opp. replace (- (g.2 - x.2)) with (x.2 - g.2) by lia.
      apply Hx; [by eapply list_elem_of_lookup_2|done].
    + apply (Ha i j); auto.
  - intros g [->|Hin]%elem_of_cons Ek; [by exists x.2|].
    destruct (Hgr g Hin Ek) as (p&_&?&?). exists x.2. split; [done|]. lia.
Qed.

Lemma lookup_put_back k p (m : gmap string Z) : put_back k p m !! k = p.
Proof. destruct p; simpl; [by rewrite lookup_insert_eq|by rewrite lookup_delete_eq]. Qed.
Lemma lookup_put_back_ne k k' p (m : gmap string Z) : k' ≠ k → put_back k p m !! k' = m !! k'.
Proof. intros Hk. destruct p; simpl; [by rewrite lookup_insert_ne|by rewrite lookup_delete_ne]. Qed.

Lemma table_inv_fail clock now m l1 x l2 grants :
  clock ≤ now → table_inv clock m (l1 ++ x :: l2) grants → under_way now x →
  table_inv now (put_back (key x.1) (prev x.1) m) (l1 ++ l2) grants.
Proof.
  intros Hc Hinv Hu.
  assert (under_way clock x) as Hu' by (unfold under_way in *; lia).
  pose proof (ti_inflight _ _ _ _ Hinv l1 x l2 eq_refl Hu') as (_&Hgr&_).
  eapply (inflight_rest clock now m l1 x l2 grants); try done.
  - intros k Hk. by apply lookup_put_back_ne.
  - auto.
  - apply (ti_apart _ _ _ _ Hinv).
  - intros g Hin Ek. destruct (Hgr g Hin Ek) as (p&Hp&?&_). exists p. by rewrite lookup_put_back.
Qed.
End cooldowns.

(** ** Faucet requests that interleave

    A request reserves, transfers, and finishes or rolls back, each under a lock;
    between these points other requests run, and the chain goes on. *)
Record FaucetWorld := mkFaucet {
  fz_clock : Z;
  fz_state : HttpState;
  fz_inflight : list (Reservation * Z);
  fz_grants : list (Reservation * Z);
}.

(** A request ends before the cooldowns it set have passed. *)
Definition in_time (ip_cooldown now : Z) (x : Reservation * Z) : Prop :=
  now < x.2 + FAUCET_COOLDOWN_SECS ∧ (0 < ip_cooldown → now < x.2 + ip_cooldown).

Section faucet.
Context `{Sha3} `{!Bincode SignableTransaction} `{Hex} (ip_cooldown : Z).

Inductive faucet_step : FaucetWorld → FaucetWorld → Prop :=
  | faucet_reserves w now address_key ip_key r s :
      fz_clock w ≤ now →
      faucet_reserve now ip_cooldown address_key ip_key (fz_state w) = (Ok r, s) →
      faucet_step w (mkFaucet now s ((r, now) :: fz_inflight w) (fz_grants w))
  | faucet_grants w now l1 x l2 tx address wallet fee :
      fz_clock w ≤ now → fz_inflight w = l1 ++ x :: l2 → in_time ip_cooldown now x →
      faucet_step w (mkFaucet now (faucet_finish tx address wallet fee (fz_state w)).2 (l1 ++ l2)
                       (x :: fz_grants w))
  | faucet_fails w now l1 x l2 :
      fz_clock w ≤ now → fz_inflight w = l1 ++ x :: l2 → in_time ip_cooldown now x →
      faucet_step w (mkFaucet now (faucet_rollback x.1 (fz_state w)) (l1 ++ l2) (fz_grants w))
  | faucet_waits w now s :
      fz_clock w ≤ now → hs_addr_cooldowns s = hs_addr_cooldowns (fz_state w) →
      hs_ip_cooldowns s = hs_ip_cooldowns (fz_state w) →
      faucet_step w (mkFaucet now s (fz_inflight w) (fz_grants w)).

Definition faucet_inv (w : FaucetWorld) : Prop :=
  table_inv FAUCET_COOLDOWN_SECS rv_address_key rv_prev_addr (fz_clock w)
    (hs_addr_cooldowns (fz_state w)) (fz_inflight w) (fz_grants w) ∧
  (0 < ip_cooldown →
   table_inv ip_cooldown rv_ip_key rv_prev_ip (fz_clock w)
     (hs_ip_cooldowns (fz_state w)) (fz_inflight w) (fz_grants w)).

Lemma faucet_step_inv w w' : faucet_step w w' → faucet_inv w → faucet_inv w'.
Proof.
  assert (0 < FAUCET_COOLDOWN_SECS) as Hcd by done.
  intros Hstep [Ha Hi]. destruct Hstep as
    [w now a i r s Hc Hr|w now l1 x l2 tx ad wal fee Hc E [Hta Hti]|w now l1 x l2 Hc E [Hta Hti]
    |w now s Hc Ea Ei].
  - unfold faucet_reserve in Hr.
    set (r0 := mkReservation a i (hs_addr_cooldowns (fz_state w) !! a) (hs_ip_cooldowns (fz_state w) !! i)) in *.
    destruct (cooldown_left FAUCET_COOLDOWN_SECS now _) eqn:E1; [done|].
    destruct (cooldown_left ip_cooldown now _) eqn:E2; [done|]. injection Hr as <- <-.
    split; simpl.
    + exact (table_inv_reserve _ rv_address_key rv_prev_addr Hcd _ _ _ _ _ r0 Hc Ha eq_refl E1).
    + intros Hp. exact (table_inv_reserve _ rv_ip_key rv_prev_ip Hp _ _ _ _ _ r0 Hc (Hi Hp) eq_refl E2).
  - rewrite E in Ha, Hi. split; simpl; [by eapply table_inv_grant|].
    intros Hp. eapply table_inv_grant; [exact Hp|exact Hc|by apply Hi|by apply Hti].
  - rewrite E in Ha, Hi. split; simpl; [by eapply table_inv_fail|].
    intros Hp. eapply table_inv_fail; [exact Hp|exact Hc|by apply Hi|by apply Hti].
  - unfold faucet_inv. simpl. rewrite Ea, Ei. split; [by eapply table_inv_later|].
    intros Hp. eapply table_inv_later; [done|by apply Hi].
Qed.

Lemma faucet_run_inv w w' : rtc faucet_step w w' → faucet_inv w → faucet_inv w'.
Proof. induction 1; eauto using faucet_step_inv. Qed.

(** C22: however requests to the faucet interleave, whichever fail and whatever was
    recorded before, two grants to one address are an hour apart, and two grants to
    one client the configured time, as long as no request takes longer than the
    cooldowns to end. *)
Theorem faucet_grants_apart (clock : Z) (s : HttpState) (w : FaucetWorld) :
  rtc faucet_step (mkFaucet clock s [] []) w →
  ∀ i j r t r' t', i ≠ j → fz_grants w !! i = Some (r, t) → fz_grants w !! j = Some (r', t') →
    (rv_address_key r = rv_address_key r' → FAUCET_COOLDOWN_SECS ≤ Z.abs (t - t')) ∧
    (rv_ip_key r = rv_ip_key r' → ip_cooldown ≤ Z.abs (t - t')).
Proof.
  intros Hrun. assert (faucet_inv w) as [Ha Hi].
  { apply (faucet_run_inv _ _ Hrun). split; [apply table_inv_start|intros _; apply table_inv_start]. }
  intros i j r t r' t' Hij Hg Hg'. split; intros Ek.
  - apply (ti_apart _ _ _ _ _ _ _ Ha i j (r, t) (r', t')); done.
  - destruct (decide (0 < ip_cooldown)) as [Hp|Hp]; [|lia].
    apply (ti_apart _ _ _ _ _ _ _ (Hi Hp) i j (r, t) (r', t')); done.
Qed.
End faucet.

(** ** What a request changes *)
Section changes.
Context `{Sha3} `{MlDsa} `{EvmEngine} `{WasmEngine} `{RustSort} `{!Bincode SignableTransaction}
  `{!Bincode ProposalKind} `{!Json DeployTokenParams} `{!Json TokenTransferParams}
  `{!Json TokenApproveParams} `{!Json TokenTransferFromParams} `{!Json SubmitProposalParams}
  `{!Json GovernanceVoteParams} `{Hex} `{ErrorText} `{JsonText} `{DebugText} `{IpText}
  `{TransactionJson} `{!BincodeAccountLeaf} `{!BincodeStorageLeaf} `{!BincodeContractLeaf}.

(** The effect of a request that did not succeed: the limiter's table and the pool
    may have changed. *)
Definition no_effect (s s' : HttpState) : Prop :=
  hs_addr_cooldowns s' = hs_addr_cooldowns s ∧ hs_ip_cooldowns s' = hs_ip_cooldowns s ∧
  hs_addr_file s' = hs_addr_file s ∧ hs_ip_file s' = hs_ip_file s ∧
  hs_outbound s' = hs_outbound s ∧ hs_events s' = hs_events s.

Definition request_effect (s : HttpState) (run : option Response * HttpState) : Prop :=
  pool_step (hs_chain s) (hs_chain run.2) ∧
  (∀ response, run.1 = Some response → rs_status response ≠ 200 → no_effect s run.2).

Lemma no_effect_refl s : no_effect s s.
Proof. by split_and!. Qed.

Lemma request_effect_same s r : request_effect s (r, s).
Proof. split; [apply pool_step_refl|]. intros ? _ _. apply no_effect_refl. Qed.

Lemma put_back_insert key now (m : gmap string Z) : put_back key (m !! key) (<[key:=now]> m) = m.
Proof.
  destruct (m !! key) as [t|] eqn:E; simpl.
  - by rewrite insert_insert_eq, insert_id.
  - by rewrite delete_insert_id.
Qed.

Lemma faucet_transfer_cases env address wallet fee s r s' :
  faucet_transfer env address wallet fee s = (r, s') →
  ∃ c, s' = set_chain c s ∧ pool_step (hs_chain s) c.
Proof.
  unfold faucet_transfer. cbv zeta. destruct (_ <? _).
  - intros [= _ <-]. exists (hs_chain s). split; [by destruct s|apply pool_step_refl].
  - destruct (transaction_sign _ _) as [tx|].
    + pose proof (add_transaction_step (he_admission env) tx (hs_chain s)) as Hs.
      destruct (add_transaction _ _ _) as [[u|e] c]; intros [= _ <-]; by exists c.
    + intros [= _ <-]. exists (hs_chain s). split; [by destruct s|apply pool_step_refl].
Qed.

Lemma faucet_request_effect env rq s : request_effect s (faucet_request env rq s).
Proof.
  unfold faucet_request. destruct (faucet_parse env rq) as [[[address wallet] fee]|e];
    [|apply request_effect_same].
  unfold faucet_reserve. destruct (cooldown_left FAUCET_COOLDOWN_SECS _ _); [apply request_effect_same|].
  destruct (cooldown_left (he_ip_cooldown_secs env) _ _); [apply request_effect_same|].
  destruct (faucet_transfer env address wallet fee _) as [r s2] eqn:Ht.
  apply faucet_transfer_cases in Ht as (c&->&Hp).
  destruct r as [[tx|[status msg]]|]; split; simpl; try done.
  - by intros response [= <-].
  - intros response [= <-] _. unfold no_effect. simpl. by rewrite !put_back_insert.
Qed.

Lemma submit_effect env rq s :
  request_effect s (prod_map Some id (submit_transaction env rq s)).
Proof.
  unfold submit_transaction. destruct (enforce_api_auth env rq); [apply request_effect_same|].
  destruct (transaction_body rq) as [tx|e]; [|apply request_effect_same].
  pose proof (add_transaction_step (he_admission env) tx (hs_chain s)) as Hs.
  destruct (add_transaction _ _ _) as [[u|e] c]; simpl in *.
  - split; simpl; [by destruct (last _)|by intros response [= <-]].
  - by split.
Qed.

Lemma eth_effect env rq s : request_effect s (prod_map Some id (eth_request env rq s)).
Proof.
  unfold eth_request. destruct (read_body rq) as [body|e]; [|apply request_effect_same].
  pose proof (handle_step (he_rpc_clock env) body (hs_chain s)) as Hs.
  destruct (handle_rpc _ _ _) as [v c]. by split.
Qed.

Lemma route_effect env rq s : request_effect s (route env rq s).
Proof.
  unfold route. destruct (rq_method rq); try apply request_effect_same. cbv zeta.
  case_bool_decide; [apply faucet_request_effect|].
  case_bool_decide; [pose proof (submit_effect env rq s) as Hs; by destruct (submit_transaction _ _ _)|].
  case_bool_decide; [apply request_effect_same|].
  destruct (_ || _); [|apply request_effect_same].
  pose proof (eth_effect env rq s) as Hs. by destruct (eth_request _ _ _).
Qed.

Lemma check_rate_limit_state now ip method path s r s' :
  check_rate_limit now ip method path s = (r, s') →
  s' = set_limiter (hs_limiter s') (hs_request_counter s') s.
Proof. unfold check_rate_limit. cbv zeta. destruct (limiter_entry _ _ _). by intros [= _ <-]. Qed.

(** C28: whatever a request is, the chain afterwards is the chain before with another
    pool. A request that is not a [POST] changes nothing at all but the limiter's
    table. One that is answered with an error leaves the cooldowns as they were, a
    failed faucet request too, and sends nothing to the network or to the event
    stream. *)
Theorem http_request_effect (env : HttpEnv) (rq : HttpRequest) (s : HttpState) :
  let s' := (handle_request env rq s).2 in
  hs_chain s' = set_pool (pending_transactions (hs_chain s')) (hs_chain s) ∧
  (rq_method rq ≠ POST → s' = set_limiter (hs_limiter s') (hs_request_counter s') s) ∧
  (∀ response, (handle_request env rq s).1 = Some response → rs_status response ≠ 200 → no_effect s s').
Proof.
  unfold handle_request. case_bool_decide as Ho.
  { simpl. split; [by destruct (hs_chain s)|]. split; [by destruct s|]. intros ? _ _. apply no_effect_refl. }
  destruct (check_rate_limit _ _ _ _ s) as [r s1] eqn:Hc.
  apply check_rate_limit_state in Hc.
  assert (no_effect s s1) as He by (rewrite Hc; by split_and!).
  assert (hs_chain s1 = hs_chain s) as Ec by (by rewrite Hc).
  destruct r as [resp|]; simpl.
  { split; [rewrite Ec; by destruct (hs_chain s)|]. by split. }
  destruct (route_effect env rq s1) as [[Hp _] Hn]. rewrite Ec in Hp. split; [done|]. split.
  - intros Hm. unfold route. destruct (rq_method rq); done.
  - intros response Hr Hs. destruct (Hn response Hr Hs) as (?&?&?&?&?&?).
    destruct He as (?&?&?&?&?&?). unfold no_effect. split_and!; congruence.
Qed.
End changes.

(** ** Decimal numbers in a query *)

Fixpoint lacks (sep : Ascii.ascii) (s : string) : bool :=
  match s with EmptyString => true | String a s => negb (Ascii.eqb a sep) && lacks sep s end.

Lemma lacks_app sep s s' : lacks sep (s +:+ s') = lacks sep s && lacks sep s'.
Proof. induction s as [|a s IH]; simpl; [done|]. by rewrite IH, andb_assoc. Qed.

Lemma split_char_lacks sep s : lacks sep s = true → split_char sep s = [s].
Proof.
  induction s as [|a s IH]; simpl; [done|]. intros [Ha Hs]%andb_prop.
  apply negb_true_iff in Ha. by rewrite Ha, IH.
Qed.

Lemma split_char_app sep s s' :
  lacks sep s = true → split_char sep (s +:+ String sep s') = s :: split_char sep s'.
Proof.
  induction s as [|a s IH]; simpl; [intros _; by rewrite Ascii.eqb_refl|].
  intros [Ha Hs]%andb_prop. apply negb_true_iff in Ha. by rewrite Ha, IH.
Qed.

Lemma split_once_app sep s s' : lacks sep s = true → split_once sep (s +:+ String sep s') = Some (s, s').
Proof.
  induction s as [|a s IH]; simpl; [intros _; by rewrite Ascii.eqb_refl|].
  intros [Ha Hs]%andb_prop. apply negb_true_iff in Ha. by rewrite Ha, IH.
Qed.

Lemma pretty_digit (d : N) :
  (d < 10)%N → decimal_digit_value (pretty_N_char d) = Some (Z.of_N d).
Proof.
  intros Hd. assert (d ∈ [0; 1; 2; 3; 4; 5; 6; 7; 8; 9]%N) as Hin.
  { rewrite !elem_of_cons. lia. }
  repeat (apply elem_of_cons in Hin as [->|Hin]; [by vm_compute|]). by apply not_elem_of_nil in Hin.
Qed.

Lemma pretty_go_digits x s :
  (Z.of_N x ≤ u64_max) → radix10_loop 0 (pretty_N_go x s) = radix10_loop (Z.of_N x) s.
Proof.
  revert s. induction (N.lt_wf_0 x) as [x _ IH]; intros s Hx.
  destruct (decide (0 < x)%N) as [Hp|Hp]; [|by replace x with 0%N by lia].
  rewrite pretty_N_go_step by done.
  pose proof (N.div_mod' x 10) as E. pose proof (N.mod_lt x 10 ltac:(done)) as Hm.
  assert (x `div` 10 < x)%N as Hlt by (apply N.div_lt; lia).
  rewrite IH by lia. cbn [radix10_loop].
  rewrite pretty_digit by done. cbn [mbind option_bind].
  replace (Z.of_N (x `div` 10) * 10 + Z.of_N (x `mod` 10)) with (Z.of_N x) by lia.
  by rewrite (proj2 (Z.ltb_ge _ _)) by done.
Qed.

Lemma radix10_parse s z : s ≠ EmptyString → radix10_loop 0 s = Some z → u64_parse s = Some z.
Proof.
  destruct s as [|a s]; [done|]. intros _ Hr. unfold u64_parse.
  destruct (Ascii.eqb a plus_sign) eqn:E; [|done]. apply Ascii.eqb_eq in E as ->. by vm_compute in Hr.
Qed.

Lemma pretty_go_nonempty x s : s ≠ EmptyString → pretty_N_go x s ≠ EmptyString.
Proof.
  revert s. induction (N.lt_wf_0 x) as [x _ IH]; intros s Hs.
  destruct (decide (0 < x)%N) as [Hp|Hp]; [|by replace x with 0%N by lia].
  rewrite pretty_N_go_step by done. apply IH; [apply N.div_lt; lia|done].
Qed.

(** [u64::from_str] reads what [Display] printed. *)
Lemma u64_parse_pretty (n : N) : Z.of_N n ≤ u64_max → u64_parse (pretty n) = Some (Z.of_N n).
Proof.
  intros Hn. unfold pretty, pretty_N. case_decide as E; [by subst|].
  apply radix10_parse; [|by rewrite pretty_go_digits].
  rewrite pretty_N_go_step by lia. by apply pretty_go_nonempty.
Qed.

(** A separator is not a digit. *)
Lemma pretty_lacks sep (n : N) :
  decimal_digit_value sep = None → lacks sep (pretty n) = true.
Proof.
  intros Hsep.
  assert (∀ d, (d < 10)%N → Ascii.eqb (pretty_N_char d) sep = false) as Hd.
  { intros d Hd. apply Ascii.eqb_neq. intros E. apply pretty_digit in Hd. congruence. }
  assert (∀ x s, lacks sep s = true → lacks sep (pretty_N_go x s) = true) as Hgo.
  { intros x. induction (N.lt_wf_0 x) as [x _ IH]; intros s Hs.
    destruct (decide (0 < x)%N) as [Hp|Hp]; [|by replace x with 0%N by lia].
    rewrite pretty_N_go_step by done. apply IH; [apply N.div_lt; lia|].
    simpl. rewrite Hd by (by apply N.mod_lt). by rewrite Hs. }
  unfold pretty, pretty_N. case_decide; [|by apply Hgo].
  change ("0"%string) with (String (pretty_N_char 0) EmptyString). cbn [lacks]. by rewrite Hd.
Qed.

(** ** A light client that polls the header end point *)

Lemma string_app_assoc s1 s2 s3 : s1 +:+ (s2 +:+ s3) = (s1 +:+ s2) +:+ s3.
Proof. induction s1 as [|a s1 IH]; [done|]. exact (f_equal (String a) IH). Qed.

Definition headers_query (from limit : N) : string :=
  "from=" +:+ pretty from +:+ "&limit=" +:+ pretty limit.

Lemma headers_query_params from limit :
  query_params (headers_query from limit) = [("from"%string, pretty from); ("limit"%string, pretty limit)].
Proof.
  unfold query_params, headers_query.
  change ("from=" +:+ pretty from +:+ "&limit=" +:+ pretty limit) with
    ("from=" +:+ (pretty from +:+ String ampersand ("limit=" +:+ pretty limit))).
  rewrite string_app_assoc, split_char_app.
  2:{ rewrite lacks_app, pretty_lacks; done. }
  rewrite split_char_lacks by (rewrite lacks_app, pretty_lacks; done).
  cbn [omap list_omap].
  change ("from=" +:+ pretty from) with ("from" +:+ String equals_sign (pretty from)).
  change ("limit=" +:+ pretty limit) with ("limit" +:+ String equals_sign (pretty limit)).
  by rewrite !split_once_app.
Qed.

Lemma headers_query_values (from limit : N) :
  Z.of_N from ≤ u64_max → Z.of_N limit ≤ u64_max →
  query_u64 (headers_query from limit) "from" = Some (Z.of_N from) ∧
  query_u64 (headers_query from limit) "limit" = Some (Z.of_N limit) ∧
  query_u64 (headers_query from limit) "to" = None.
Proof.
  intros Hf Hl. unfold query_u64, query_param. rewrite headers_query_params. simpl.
  by rewrite !u64_parse_pretty.
Qed.

Lemma omap_fmap_out {A B C} (g : A → option B) (f : B → C) (l : list A) :
  omap (λ x, f <$> g x) l = f <$> omap g l.
Proof. induction l as [|x l IH]; [done|]. cbn. destruct (g x); cbn; by rewrite <- IH. Qed.

Lemma omap_blocks c n k :
  omap (block_at_height c) (seqZ (Z.of_nat n) (Z.of_nat k)) = take k (drop n (bc_blocks c)).
Proof.
  revert n. induction k as [|k IH]; intros n; [by rewrite take_0|].
  rewrite seqZ_cons by lia. cbn [omap list_omap].
  replace (Z.pred (Z.of_nat (S k))) with (Z.of_nat k) by lia.
  replace (Z.succ (Z.of_nat n)) with (Z.of_nat (S n)) by lia.
  rewrite IH. unfold block_at_height. rewrite (proj2 (Z.ltb_ge _ _)), Nat2Z.id by lia.
  destruct (bc_blocks c !! n) as [b|] eqn:Eb; simpl.
  - by rewrite (drop_S _ _ _ Eb).
  - apply lookup_ge_None in Eb. by rewrite !drop_ge, !take_nil by lia.
Qed.

Section light.
Context `{Sha3} `{MlDsa} `{EvmEngine} `{WasmEngine} `{HashOrder} `{HexDecode}
  `{!Bincode SignableTransaction}
  `{!Bincode BlockHeader} `{!Bincode ProposalKind} `{!BincodeAccountLeaf} `{!BincodeStorageLeaf}
  `{!BincodeContractLeaf} `{!Json DeployTokenParams} `{!Json TokenTransferParams}
  `{!Json TokenApproveParams} `{!Json TokenTransferFromParams} `{!Json SubmitProposalParams}
  `{!Json GovernanceVoteParams}.

Definition chain_id_of (c : Blockchain) : string := gc_chain_id (genesis_config (bc_params c)).

(** The answer to a client that has the headers of the first [n] blocks. *)
Lemma served_headers_next c (n : nat) (limit : N) :
  chain_linked c → (n ≤ length (bc_blocks c))%nat →
  block_count c + 256 ≤ u64_max → Z.of_N limit ≤ u64_max →
  served_headers c (headers_query (N.of_nat n) limit) =
  signed_header (chain_id_of c) <$>
    take (S (N.to_nat (N.min limit 256))) (drop n (bc_blocks c)).
Proof.
  intros Hl Hn Hc Hlim. unfold block_count in Hc.
  assert (chain_height c = Z.of_nat (length (bc_blocks c)) - 1) as Eh.
  { unfold chain_height, block_count, saturating_sub. destruct Hl as [Hne _].
    destruct (bc_blocks c); [done|]. simpl. lia. }
  unfold served_headers, header_bounds.
  destruct (headers_query_values (N.of_nat n) limit) as (->&->&->); [u64_lia|done|].
  cbn [from_option default id].
  set (k := N.to_nat (N.min limit 256)).
  replace (Z.min (Z.of_N limit) 256) with (Z.of_nat k) by lia.
  replace (Z.of_N (N.of_nat n)) with (Z.of_nat n) by lia.
  assert (add64 (Z.of_nat n) (Z.of_nat k) = Z.of_nat n + Z.of_nat k) as ->
    by (apply add64_exact; lia).
  unfold header_at. fold (chain_id_of c).
  rewrite omap_fmap_out.
  f_equal. rewrite Eh.
  set (len := length (bc_blocks c)) in *.
  destruct (decide (n + S k ≤ len)%nat) as [Hle|Hle].
  - replace (Z.min _ _ - Z.of_nat n + 1) with (Z.of_nat (S k)) by lia. apply omap_blocks.
  - replace (Z.min _ _ - Z.of_nat n + 1) with (Z.of_nat (len - n)) by lia.
    rewrite omap_blocks, !take_ge by (rewrite length_drop; lia). done.
Qed.

(** One round: the client asks for the headers that follow its own. *)
Definition light_poll (limit : N) (c : Blockchain) (lc : LightClient) : LightClient :=
  (sync_headers (served_headers c (headers_query (N.of_nat (length (lc_headers lc))) limit)) lc).2.

(** C23: a light client that starts from the genesis hash and polls the header end
    point of an honest node with the height it has reached gets, round after round,
    the next [limit + 1] headers (257 at most) and accepts them all, until it has the
    headers of the whole chain. *)
Theorem light_client_catches_up (g : GenesisConfig) (bound : Z) (c : Blockchain) (limit : N) (k : nat) :
  grown g bound c → block_count c + 256 ≤ u64_max → Z.of_N limit ≤ u64_max →
  lc_headers (Nat.iter k (light_poll limit c) (light_new (chain_id_of c) (genesis_hash c))) =
  signed_header (chain_id_of c) <$> take (k * S (N.to_nat (N.min limit 256))) (bc_blocks c).
Proof.
  intros Hgr Hc Hlim. set (w := S (N.to_nat (N.min limit 256))).
  set (lc0 := light_new (chain_id_of c) (genesis_hash c)).
  pose proof (grown_linked _ _ _ Hgr) as Hlk.
  assert (∀ n, ∃ lc, sync_loop (signed_header (chain_id_of c) <$> take n (bc_blocks c)) lc0 = (Ok (), lc) ∧
    lc_headers lc = signed_header (chain_id_of c) <$> take n (bc_blocks c)) as Hpre.
  { intros n. destruct (decide (n ≤ length (bc_blocks c))%nat) as [Hn|Hn].
    - destruct (light_follows_prefix g bound c (chain_id_of c) n Hgr Hn) as (lc&Hl&Eh&_). by exists lc.
    - destruct (light_follows_prefix g bound c (chain_id_of c) (length (bc_blocks c)) Hgr ltac:(lia))
        as (lc&Hl&Eh&_). exists lc. by rewrite take_ge in Hl, Eh |- * by lia. }
  cut (sync_loop (signed_header (chain_id_of c) <$> take (k * w) (bc_blocks c)) lc0 =
       (Ok (), Nat.iter k (light_poll limit c) lc0)).
  { intros Hk. destruct (Hpre (k * w)%nat) as (lc&Hl&Eh). rewrite Hk in Hl. by injection Hl as ->. }
  induction k as [|k IH]; [done|].
  simpl Nat.iter. set (lc := Nat.iter k (light_poll limit c) lc0) in *.
  destruct (Hpre (k * w)%nat) as (lc'&Hl'&Eh'). rewrite IH in Hl'. injection Hl' as <-.
  unfold light_poll. rewrite Eh', length_fmap, length_take.
  rewrite served_headers_next by (done || lia). fold w.
  set (n := Nat.min (k * w) (length (bc_blocks c))).
  assert (take (S k * w) (bc_blocks c) = take (k * w) (bc_blocks c) ++ take w (drop n (bc_blocks c))) as E.
  { replace (S k * w)%nat with (k * w + w)%nat by lia. rewrite <- take_take_drop. f_equal.
    subst n. destruct (decide (k * w ≤ length (bc_blocks c))%nat); [by rewrite Nat.min_l by lia|].
    by rewrite !drop_ge by lia. }
  destruct (Hpre (S k * w)%nat) as (lc2&Hl2&_). rewrite E, fmap_app in Hl2 |- *.
  rewrite Hl2. rewrite (sync_loop_app _ _ _ _ IH) in Hl2. f_equal.
  set (hs := signed_header _ <$> _) in *.
  unfold sync_headers, st_guard, mbind, stM_bind. case_bool_decide as Hne; simpl.
  - rewrite Hne in Hl2. by injection Hl2 as ->.
  - by rewrite Hl2.
Qed.
End light.

(** ** A node with a faucet *)

Definition demo_ip : bytes := [x0a; x00; x00; x01].
Definition demo_ip_text : IpText := {| parse_ip _ := None; ip_to_string _ := "10.0.0.1"%string |}.
Definition demo_debug : DebugText := λ _, ""%string.
Definition demo_no_json : JsonText := λ _, None.
Definition demo_submitted : Transaction := pool_payment 12 0 60.
Definition demo_transaction_json : TransactionJson := λ _, Ok demo_submitted.

Definition demo_env : HttpEnv :=
  mkHttpEnv 0 demo_now demo_now demo_now (λ _, (demo_now, demo_now)) 0
    (mkRuntime RoleRelay None true 0 0 "" "") None None false None 60 None (λ _, []) (λ _, []).
Definition demo_request (method : HttpMethod) (path : string) : HttpRequest :=
  mkRequest demo_ip method path "" (λ _, None) (Some []).
Definition demo_http (l : list Transaction) : HttpState :=
  mkHttpState (pool_chain l) ∅ 0 ∅ ∅ ∅ ∅ [] [].

Section demo.
Import RpcDemo.
#[local] Existing Instances demo_ip_text demo_debug demo_no_json demo_transaction_json.

Definition demo_waiting : Transaction := pool_payment 11 0 40.
Definition demo_submit_run : option Response * HttpState :=
  handle_request demo_env (demo_request POST "/api/tx/submit") (demo_http [demo_waiting]).

(** A transaction that is submitted is not broadcast when another one is last in
    the pool: the node accepts it with status 200 and sends the other one to the
    network. *)
Theorem submitted_transaction_not_broadcast :
  ∃ env rq s tx other,
    transaction_body rq = Ok tx ∧
    rs_status <$> (handle_request env rq s).1 = Some 200 ∧
    tx ∈ pending_transactions (hs_chain (handle_request env rq s).2) ∧
    hs_outbound s = [] ∧ hs_outbound (handle_request env rq s).2 = [other] ∧ other ≠ tx.
Proof.
  exists demo_env, (demo_request POST "/api/tx/submit"), (demo_http [demo_waiting]), demo_submitted,
    demo_waiting.
  fold demo_submit_run.
  split; [exact eq_refl|]. split; [vm_compute; exact eq_refl|]. split; [vm_decide|].
  split; [exact eq_refl|]. split; [vm_decide|]. vm_decide.
Qed.

Definition demo_posts : list LimitedRequest := replicate 10 (mkLimited 0 demo_ip POST "/api/tx/submit").
Definition demo_late : LimitedRequest := mkLimited 59000000000 demo_ip POST "/api/tx/submit".

Lemma demo_posts_sorted : StronglySorted Z.le ((lr_now <$> demo_posts) ++ [lr_now demo_late]).
Proof. repeat (constructor; [|by vm_decide]). constructor. Qed.

Lemma demo_posts_accepted : (limited_run demo_posts (demo_http [])).2 = replicate 10 (demo_ip, 0).
Proof. vm_compute. exact eq_refl. Qed.

(** The eleventh submission within a minute is refused. *)
Lemma http_rate_limit_exact_witness :
  (check_rate_limit 59000000000 demo_ip POST "/api/tx/submit"
    (limited_run demo_posts (demo_http [])).1).1 ≠ None.
Proof.
  pose proof (http_rate_limit_exact demo_posts (demo_http []) demo_late eq_refl demo_posts_sorted) as Hl.
  pose proof demo_posts_accepted as Ha. destruct (limited_run demo_posts (demo_http [])) as [s' hist].
  simpl fst. simpl snd in Ha. rewrite Ha in Hl. intros Hn. apply (proj1 Hl) in Hn.
  vm_compute in Hn. lia.
Defined.

(** Two grants to one address. *)
Definition faucet_run_1 : result Response Reservation * HttpState :=
  faucet_reserve 0 60 "a" "10.0.0.1" (demo_http []).
Definition demo_reservation : Reservation := mkReservation "a" "10.0.0.1" None None.
Definition demo_wallet : FaucetWallet := mkWallet (demo_keypair 7) "w".
Definition faucet_state_1 : HttpState := (faucet_finish demo_waiting [] demo_wallet 1 faucet_run_1.2).2.
Definition faucet_run_2 : result Response Reservation * HttpState :=
  faucet_reserve 3600 60 "a" "10.0.0.1" faucet_state_1.
Definition demo_reservation_2 : Reservation := mkReservation "a" "10.0.0.1" (Some 0) (Some 0).
Definition faucet_state_2 : HttpState := (faucet_finish demo_waiting [] demo_wallet 1 faucet_run_2.2).2.

Lemma demo_faucet_run :
  rtc (faucet_step 60) (mkFaucet 0 (demo_http []) [] [])
    (mkFaucet 3601 faucet_state_2 [] [(demo_reservation_2, 3600); (demo_reservation, 0)]).
Proof.
  apply rtc_l with (mkFaucet 0 faucet_run_1.2 [(demo_reservation, 0)] []).
  { eapply faucet_reserves; [simpl; lia|]. apply (run_value faucet_run_1). vm_compute. exact eq_refl. }
  apply rtc_l with (mkFaucet 1 faucet_state_1 [] [(demo_reservation, 0)]).
  { eapply (faucet_grants _ (mkFaucet _ _ _ _) 1 [] _ []); [simpl; lia|done|split; vm_compute; done]. }
  apply rtc_l with (mkFaucet 3600 faucet_run_2.2 [(demo_reservation_2, 3600)] [(demo_reservation, 0)]).
  { eapply faucet_reserves; [simpl; lia|]. apply (run_value faucet_run_2). vm_compute. exact eq_refl. }
  apply rtc_once.
  eapply (faucet_grants _ (mkFaucet _ _ _ _) 3601 [] _ []); [simpl; lia|done|split; vm_compute; done].
Qed.

Lemma faucet_grants_apart_witness : FAUCET_COOLDOWN_SECS ≤ Z.abs (3600 - 0).
Proof.
  exact (proj1 (faucet_grants_apart 60 0 (demo_http []) _ demo_faucet_run 0%nat 1%nat
    demo_reservation_2 3600 demo_reservation 0 ltac:(discriminate) eq_refl eq_refl) eq_refl).
Defined.

(** A query leaves the node as it was, but for the limiter. *)
Definition demo_query_run : option Response * HttpState :=
  handle_request demo_env (demo_request GET "/api/finality") (demo_http []).

Lemma http_request_effect_witness :
  demo_query_run.2 = set_limiter (hs_limiter demo_query_run.2) (hs_request_counter demo_query_run.2)
                       (demo_http []).
Proof.
  exact (proj1 (proj2 (http_request_effect demo_env (demo_request GET "/api/finality") (demo_http [])))
    ltac:(discriminate)).
Defined.
End demo.

Section light_demo.
Import Demo.

Lemma demo_c1_length : (length (bc_blocks demo_c1) =? 2)%nat = true.
Proof. vm_compute. exact eq_refl. Qed.

(** Two rounds with a limit of 0 give the two headers of the chain. *)
Lemma light_client_catches_up_witness :
  lc_headers (Nat.iter 2 (light_poll 0 demo_c1) (light_new (chain_id_of demo_c1) (genesis_hash demo_c1))) =
  signed_header (chain_id_of demo_c1) <$> take 2 (bc_blocks demo_c1).
Proof.
  assert (block_count demo_c1 + 256 ≤ u64_max) as Hc.
  { unfold block_count. rewrite (proj1 (Nat.eqb_eq _ _) demo_c1_length). discriminate. }
  exact (light_client_catches_up (demo_two 5000) (t0 + 10) demo_c1 0 2 demo_grown Hc ltac:(discriminate)).
Defined.
End light_demo.
