(* ===== verification/RpcServer.v ===== *)
(** * The RPC server ([src/rpc/mod.rs])

    One JSON line per connection, with an optional token. The decoder of the line is a
    parameter; the sockets are left out. *)
From S2P Require Import Prelude Hash Crypto Vm Transaction Token Governance Block Account.
From S2P Require Import Validators Finality Settlement BlockTree Trie StateRoot Chain Apply.
From S2P Require Import Ledger AddBlock Mempool ForkChoice Light Queries Text EthRpc EthRpcSafety Rest.

(** ** Messages *)

Inductive RpcRequest :=
  | ReqSubmitTransaction (transaction : Transaction)
  | ReqEstimateTransaction (transaction : Transaction)
  | ReqGetAccount (address : bytes)
  | ReqGetReceipt (tx_hash : bytes)
  | ReqQueryLogs (filter : LogFilter)
  | ReqGetAccountProof (address : bytes)
  | ReqGetStorageProof (contract_address key : bytes)
  | ReqGetStatus.

Record RpcEnvelope := mkEnvelopeRpc { re_token : option string; re_request : RpcRequest }.

Record NodeStatus := mkNodeStatus {
  ns_chain_id : string;
  ns_chain_name : string;
  ns_epoch : Z;
  ns_epoch_start_height : Z;
  ns_height : Z;
  ns_finalized_height : Z;
  ns_latest_hash : string;
  ns_genesis_hash : string;
  ns_pending_transactions : nat;
  ns_active_validators : nat;
  ns_protocol_version : Z;
}.

Inductive RpcResponse :=
  | RespSubmitted (tx_hash : string)
  | RespEstimated (estimate : TransactionEstimate)
  | RespAccount (state : AccountState)
  | RespReceipt (receipt : IndexedReceipt)
  | RespLogs (entries : list IndexedLogEntry)
  | RespAccountProof (proof : AccountProof)
  | RespStorageProof (proof : StorageProof)
  | RespStatus (status : NodeStatus)
  | RespError (message : string).

Inductive RpcError := RpcJson (message : string) | RpcRemote (message : string).

(** [serde_json::from_str] at the envelope and at the bare request. *)
Class RpcText := {
  parse_envelope : string → option RpcEnvelope;
  parse_bare_request : string → result string RpcRequest;
}.

(** [parse_request]; [token] is the variable [CURS3D_RPC_TOKEN]. *)
Definition parse_rpc_request `{RpcText} (token : option string) (payload : string)
    : result RpcError RpcRequest :=
  match parse_envelope payload with
  | Some envelope =>
      if is_some token && negb (bool_decide (re_token envelope = token))
      then Err (RpcRemote "missing or invalid RPC token")
      else Ok (re_request envelope)
  | None =>
      if is_some token then Err (RpcRemote "missing or invalid RPC token")
      else map_err RpcJson (parse_bare_request payload)
  end.

(** [trim_end] of a line: the white space at its end goes. *)
Definition trim_end (s : string) : string :=
  String.string_of_list_byte
    (reverse (trim_bytes (reverse <$> white_space) (reverse (bstr s)))).

Section rpc_server.
Context `{Sha3} `{MlDsa} `{EvmEngine} `{WasmEngine} `{RustSort} `{!Bincode SignableTransaction}
  `{!Bincode ProposalKind} `{!Json DeployTokenParams} `{!Json TokenTransferParams}
  `{!Json TokenApproveParams} `{!Json TokenTransferFromParams} `{!Json SubmitProposalParams}
  `{!Json GovernanceVoteParams} `{Hex} `{ErrorText} `{RpcText}
  `{!BincodeAccountLeaf} `{!BincodeStorageLeaf} `{!BincodeContractLeaf}.

Definition node_status (c : Blockchain) : NodeStatus :=
  mkNodeStatus (gc_chain_id (genesis_config (bc_params c))) (gc_chain_name (genesis_config (bc_params c)))
    (current_epoch c) (mul64 (current_epoch c) (Z.max (epoch_length (bc_params c)) 1)) (chain_height c)
    (finalized_height (finality_tracker c)) (hex_encode_bytes (block_hash (latest_block c)))
    (hex_encode_bytes (genesis_hash c)) (length (pending_transactions c)) (active_validator_count c)
    (protocol_version_at_height (bc_params c) (chain_height c)).

(** [handle_request]: the answer, the chain, and the transaction handed to the
    network. *)
Definition handle_rpc_request (now : Z) (request : RpcRequest) (c : Blockchain)
    : RpcResponse * Blockchain * option Transaction :=
  match request with
  | ReqSubmitTransaction transaction =>
      match add_transaction now transaction c with
      | (Ok _, c) => (RespSubmitted (hex_encode_bytes (tx_hash transaction)), c,
                      last (pending_transactions c))
      | (Err e, c) => (RespError (chain_error_text e), c, None)
      end
  | ReqEstimateTransaction transaction =>
      (match estimate_transaction c transaction with
       | Ok estimate => RespEstimated estimate
       | Err e => RespError (chain_error_text e)
       end, c, None)
  | ReqGetAccount address => (RespAccount (get_account (accounts (bc_state c)) address), c, None)
  | ReqGetReceipt hash =>
      (from_option RespReceipt (RespError "receipt not found") (get_receipt c hash), c, None)
  | ReqQueryLogs filter => (RespLogs (query_logs c filter), c, None)
  | ReqGetAccountProof address =>
      (from_option RespAccountProof (RespError "account proof not found")
         (get_account_proof c address), c, None)
  | ReqGetStorageProof contract key =>
      (from_option RespStorageProof (RespError "storage proof not found")
         (get_storage_proof c contract key), c, None)
  | ReqGetStatus => (RespStatus (node_status c), c, None)
  end.

(** [handle_connection] for the line that was read; [None] when the connection ends
    without an answer. *)
Definition handle_rpc_line (token : option string) (now : Z) (line : string) (c : Blockchain)
    : option RpcResponse * Blockchain * option Transaction :=
  if bool_decide (line = EmptyString) then (None, c, None)
  else
    match parse_rpc_request token (trim_end line) with
    | Err _ => (None, c, None)
    | Ok request =>
        let '(response, c, sent) := handle_rpc_request now request c in (Some response, c, sent)
    end.

(** A line without the configured token gets no answer and has no effect; with it, or
    without a token configured, the chain afterwards is the one before with another
    pool, and only a submission that was accepted is followed by a broadcast. *)
Theorem rpc_line_effect (token : option string) (now : Z) (line : string) (c : Blockchain) :
  let '(response, c', sent) := handle_rpc_line token now line c in
  c' = set_pool (pending_transactions c') c ∧
  (is_Some sent → ∃ hash, response = Some (RespSubmitted hash)) ∧
  (∀ t, token = Some t → is_Some response →
     ∃ envelope, parse_envelope (trim_end line) = Some envelope ∧ re_token envelope = Some t).
Proof.
  unfold handle_rpc_line. case_bool_decide as Hl.
  { split; [by destruct c|]. split; [by intros [? ?]|]. by intros ? _ [? ?]. }
  destruct (parse_rpc_request token (trim_end line)) as [request|e] eqn:Hp.
  2:{ split; [by destruct c|]. split; [by intros [? ?]|]. by intros ? _ [? ?]. }
  destruct (handle_rpc_request now request c) as [[response c'] sent] eqn:Hh.
  split_and!.
  - destruct request; try (injection Hh as _ <- _; by destruct c).
    pose proof (add_transaction_step now transaction c) as [Hs _]. simpl in Hh.
    by destruct (add_transaction now transaction c) as [[u|e] c1]; injection Hh as _ <- _.
  - intros [tx ->]. destruct request; try by injection Hh.
    simpl in Hh. destruct (add_transaction now transaction c) as [[u|e] c1]; [|done].
    injection Hh as <- _ _. by eexists.
  - intros t -> _. unfold parse_rpc_request in Hp. destruct (parse_envelope _) as [envelope|]; [|done].
    simpl in Hp. case_bool_decide as Ht; [|done]. by exists envelope.
Qed.
End rpc_server.
