(* ===== verification/Wallet.v ===== *)
(** * Addresses in text and wallet files ([src/crypto/hash.rs], [src/wallet/mod.rs])

    The checksummed text of an address, and wallets that are stored encrypted. The
    key derivation Argon2, the cipher AES-GCM, the JSON encoders and the file system
    are parameters; the random salt and nonce are arguments. The wiping of memory is
    left out. *)
From S2P Require Import Prelude Hash Crypto Transaction Text.

(** ** Checksummed addresses *)

(** [char::to_ascii_lowercase] and [to_ascii_uppercase]. *)
Definition ascii_lower (a : Ascii.ascii) : Ascii.ascii :=
  let n := Ascii.N_of_ascii a in
  if ((65 <=? n) && (n <=? 90))%N then Ascii.ascii_of_N (n + 32) else a.
Definition ascii_upper (a : Ascii.ascii) : Ascii.ascii :=
  let n := Ascii.N_of_ascii a in
  if ((97 <=? n) && (n <=? 122))%N then Ascii.ascii_of_N (n - 32) else a.
Definition is_alphabetic (a : Ascii.ascii) : bool :=
  let n := Ascii.N_of_ascii (ascii_lower a) in ((97 <=? n) && (n <=? 122))%N.
Fixpoint to_lower (s : string) : string :=
  match s with EmptyString => EmptyString | String a s => String (ascii_lower a) (to_lower s) end.

Section addresses.
Context `{Sha3} `{Hex}.

(** The nibble of the hash for the character at [i]; an address has 20 bytes, a hash
    32, so the index is in range. *)
Definition hash_nibble (hash : bytes) (i : nat) : Z :=
  let b := byte_Z (default x00 (hash !! Nat.div2 i)) in
  if Nat.even i then b / 16 else b mod 16.

Fixpoint checksum_chars (hash : bytes) (i : nat) (s : string) : string :=
  match s with
  | EmptyString => EmptyString
  | String c s =>
      String (if (8 <=? hash_nibble hash i) && is_alphabetic c then ascii_upper c else c)
        (checksum_chars hash (S i) s)
  end.
Definition checksum_address (addr_bytes : bytes) : string :=
  let hex_lower := hex_encode_bytes addr_bytes in
  "CUR" +:+ checksum_chars (sha3_hash (bstr hex_lower)) 0 hex_lower.
Definition address_string_from_public_key (public_key : bytes) : string :=
  checksum_address (address_bytes_from_public_key public_key).

Definition verify_checksum_address (address : string) : bool :=
  let hex_part := default address (strip_prefix "CUR" address) in
  if negb (String.length hex_part =? ADDRESS_LEN * 2)%nat then false
  else if bool_decide (hex_part = to_lower hex_part) then true
  else
    match hex_decode_text (to_lower hex_part) with
    | Some b =>
        if (length b =? ADDRESS_LEN)%nat then
          let expected := checksum_address b in
          bool_decide (hex_part = default expected (strip_prefix "CUR" expected))
        else false
    | None => false
    end.

(** The encoder writes lower-case digits. *)
Class HexLower := hex_encode_lower (b : bytes) : to_lower (hex_encode_bytes b) = hex_encode_bytes b.

Lemma ascii_lower_upper c : ascii_lower (ascii_upper c) = ascii_lower c.
Proof. destruct c as [[] [] [] [] [] [] [] []]; vm_compute; exact eq_refl. Qed.

Lemma to_lower_length s : String.length (to_lower s) = String.length s.
Proof. induction s as [|a s IH]; simpl; [done|]. by rewrite IH. Qed.

Lemma to_lower_checksum hash i s : to_lower (checksum_chars hash i s) = to_lower s.
Proof.
  revert i. induction s as [|c s IH]; intros i; simpl; [done|]. rewrite IH. f_equal.
  destruct (_ && _); [apply ascii_lower_upper|done].
Qed.

Lemma checksum_length hash i s : String.length (checksum_chars hash i s) = String.length s.
Proof. revert i. induction s as [|c s IH]; intros i; simpl; [done|]. by rewrite IH. Qed.

Lemma strip_checksum b :
  strip_prefix "CUR" (checksum_address b) =
    Some (checksum_chars (sha3_hash (bstr (hex_encode_bytes b))) 0 (hex_encode_bytes b)).
Proof. done. Qed.

(** The text of an address is accepted; a text with a capital letter is accepted only
    if it is the one checksummed text of the address it denotes, so that changing the
    case of a letter, or a digit in a way that moves the capitals, is noticed. *)
Theorem checksum_exact `{!HexLower} :
  (∀ b, length b = ADDRESS_LEN → verify_checksum_address (checksum_address b) = true) ∧
  (∀ text, verify_checksum_address text = true →
     let hex_part := default text (strip_prefix "CUR" text) in
     hex_part = to_lower hex_part ∨
     ∃ b, length b = ADDRESS_LEN ∧ hex_decode_text (to_lower hex_part) = Some b ∧
       checksum_address b = "CUR" +:+ hex_part).
Proof.
  split.
  - intros b Hb. unfold verify_checksum_address. rewrite strip_checksum. cbn [default from_option id].
    rewrite checksum_length, hex_encode_length, Hb. rewrite Nat.mul_comm, Nat.eqb_refl. cbn [negb].
    case_bool_decide; [done|]. rewrite to_lower_checksum, hex_encode_lower, hex_decode_encode, Hb.
    simpl (_ =? _)%nat. cbv iota. by apply bool_decide_eq_true_2.
  - intros text. unfold verify_checksum_address. set (hex_part := default text _). cbv zeta.
    destruct (_ =? _)%nat; [|done]. cbn [negb]. case_bool_decide as Hl; [by left|].
    destruct (hex_decode_text (to_lower hex_part)) as [b|] eqn:Ed; [|done].
    destruct (length b =? ADDRESS_LEN)%nat eqn:El; [|done]. apply Nat.eqb_eq in El.
    rewrite strip_checksum. cbn [default from_option id]. intros He%bool_decide_eq_true_1.
    right. exists b. split_and!; [done|done|]. by rewrite He.
Qed.
End addresses.

(** ** Wallet files *)

Record Wallet := mkWallet { wl_keypair : KeyPair; wl_address : string }.

Record EncryptedWallet := mkEncryptedWallet {
  ew_salt : string;
  ew_nonce : string;
  ew_ciphertext : string;
  ew_version : Z;
}.

(** [WalletPanic] is not an error of the code: it stands for a panic of the thread. *)
Inductive WalletError :=
  | WalletIo (message : string)
  | WalletSerialize (message : string)
  | WalletEncryption (message : string)
  | WrongPassword
  | WalletPanic.

(** Argon2id with the parameters of [hardened_argon2], and AES-256-GCM for a key of 32
    and a nonce of 12 bytes. *)
Class WalletCrypto := {
  hash_password_into : string → bytes → result string bytes;
  aes_encrypt : bytes → bytes → bytes → result string bytes;
  aes_decrypt : bytes → bytes → bytes → option bytes;
}.

(** The JSON forms of the two structs, and the text of an error of [hex::decode]. *)
Class WalletText := {
  wallet_to_vec : Wallet → result string bytes;
  wallet_to_string_pretty : Wallet → string;
  wallet_from_slice : bytes → result string Wallet;
  encrypted_to_string_pretty : EncryptedWallet → result string string;
  encrypted_from_str : string → result string EncryptedWallet;
  hex_error_text : string → string;
}.

(** [fs::read_to_string] and [fs::write]; a write that fails may leave the file
    changed. *)
Class FileSystem (S : Type) := {
  read_to_string : string → S → result string string;
  write_file : string → string → stM S string ();
}.

(** [stM] with another error. *)
Definition st_map_err {S E E' A} (f : E → E') (m : stM S E A) : stM S E' A :=
  λ s, prod_map (map_err f) id (m s).
Definition st_gets {S E A} (f : S → result E A) : stM S E A := λ s, (f s, s).

Section wallet_files.
Context `{Sha3} `{MlDsa} `{Hex} `{WalletCrypto} `{WalletText} {S : Type} `{FileSystem S}.

Definition derive_address (pk : bytes) : string := address_string_from_public_key pk.
(** [Wallet::new], given the bytes drawn for the key pair. *)
Definition wallet_new (seed : bytes) : Wallet :=
  let kp := keypair_generate seed in mkWallet kp (derive_address (public_key kp)).

(** The key that [hash_password_into] fills has 32 bytes, so [new_from_slice] takes it.
    [salt] and [nonce_bytes] are drawn at random, 16 and 12 bytes. *)
Definition save_encrypted (salt nonce_bytes : bytes) (path password : string) (w : Wallet)
    : stM S WalletError () :=
  plaintext ← st_lift (map_err WalletSerialize (wallet_to_vec w));
  key ← st_lift (map_err WalletEncryption (hash_password_into password salt));
  ciphertext ← st_lift (map_err WalletEncryption (aes_encrypt key nonce_bytes plaintext));
  json ← st_lift (map_err WalletSerialize (encrypted_to_string_pretty
    (mkEncryptedWallet (hex_encode_bytes salt) (hex_encode_bytes nonce_bytes)
       (hex_encode_bytes ciphertext) 1)));
  st_map_err WalletIo (write_file path json).

Definition decode_field (field : string) : result WalletError bytes :=
  ok_or (WalletSerialize (hex_error_text field)) (hex_decode_text field).

(** What [load_encrypted] does with the text of the file. [Nonce::from_slice] panics
    unless it gets twelve bytes. *)
Definition open_wallet (password data : string) : result WalletError Wallet :=
  encrypted ← map_err WalletSerialize (encrypted_from_str data);
  salt ← decode_field (ew_salt encrypted);
  nonce_bytes ← decode_field (ew_nonce encrypted);
  ciphertext ← decode_field (ew_ciphertext encrypted);
  key ← map_err WalletEncryption (hash_password_into password salt);
  if negb (length nonce_bytes =? 12)%nat then Err WalletPanic
  else
    plaintext ← ok_or WrongPassword (aes_decrypt key nonce_bytes ciphertext);
    map_err WalletSerialize (wallet_from_slice plaintext).
Definition load_encrypted (path password : string) (s : S) : result WalletError Wallet :=
  data ← map_err WalletIo (read_to_string path s);
  open_wallet password data.

Definition save (path : string) (w : Wallet) : stM S string () :=
  write_file path (wallet_to_string_pretty w).
Definition load (path : string) (s : S) : result string Wallet :=
  data ← read_to_string path s;
  wallet_from_slice (bstr data).

Definition load_auto (salt nonce_bytes : bytes) (path password : string) : stM S WalletError Wallet :=
  λ s,
    match load_encrypted path password s with
    | Ok w => (Ok w, s)
    | Err WrongPassword => (Err WrongPassword, s)
    | Err WalletPanic => (Err WalletPanic, s)
    | Err _ =>
        match load path s with
        | Ok w =>
            match save_encrypted salt nonce_bytes path password w s with
            | (Ok _, s) => (Ok w, s)
            | (Err e, s) => (Err e, s)
            end
        | Err e => (Err (WalletIo e), s)
        end
    end.

(** What the crates document: a ciphertext is decrypted exactly if it is what
    encrypting gives; JSON that was written is read back; a legacy wallet has none of
    the fields of an encrypted one; a file that was written holds what was written. *)
Class WalletLaws := {
  aes_decrypt_spec k n c p : aes_decrypt k n c = Some p ↔ aes_encrypt k n p = Ok c;
  wallet_from_to w p : wallet_to_vec w = Ok p → wallet_from_slice p = Ok w;
  wallet_from_pretty w : wallet_from_slice (bstr (wallet_to_string_pretty w)) = Ok w;
  encrypted_from_pretty e t : encrypted_to_string_pretty e = Ok t → encrypted_from_str t = Ok e;
  legacy_not_encrypted w : ∃ e, encrypted_from_str (wallet_to_string_pretty w) = Err e;
  read_written path t s s' : write_file path t s = (Ok tt, s') → read_to_string path s' = Ok t;
}.
Context `{!WalletLaws}.

Lemma decode_field_encode b : decode_field (hex_encode_bytes b) = Ok b.
Proof. unfold decode_field. by rewrite hex_decode_encode. Qed.

(** A wallet that was saved is loaded with the same password. *)
Theorem save_load_wallet salt nonce_bytes path password w s s' :
  length nonce_bytes = 12%nat →
  save_encrypted salt nonce_bytes path password w s = (Ok tt, s') →
  load_encrypted path password s' = Ok w.
Proof.
  intros Hn Hs. unfold save_encrypted in Hs.
  apply st_bind_Ok in Hs as (p&s1&Hp&Hs). apply st_bind_Ok in Hs as (k&s2&Hk&Hs).
  apply st_bind_Ok in Hs as (c&s3&Hc&Hs). apply st_bind_Ok in Hs as (t&s4&Ht&Hs).
  injection Hp as Hp%map_err_Ok <-. injection Hk as Hk%map_err_Ok <-.
  injection Hc as Hc%map_err_Ok <-. injection Ht as Ht%map_err_Ok <-.
  unfold st_map_err in Hs. destruct (write_file path t s) as [[[]|e] s1] eqn:Hw; [|done].
  injection Hs as <-. unfold load_encrypted. rewrite (read_written _ _ _ _ Hw).
  cbn [map_err mbind result_bind]. unfold open_wallet. rewrite (encrypted_from_pretty _ _ Ht).
  cbn [map_err mbind result_bind ew_salt ew_nonce ew_ciphertext].
  rewrite !decode_field_encode. cbn [mbind result_bind]. rewrite Hk. cbn [map_err].
  rewrite Hn, Nat.eqb_refl. cbn [negb mbind result_bind]. apply aes_decrypt_spec in Hc. rewrite Hc.
  cbn [ok_or mbind result_bind]. by rewrite (wallet_from_to _ _ Hp).
Qed.

(** What is loaded was encrypted under the key of the password and the file's salt:
    neither another password nor an altered file gives a wallet, unless the cipher
    maps something else to the same ciphertext. *)
Theorem loaded_wallet_authentic path password s w :
  load_encrypted path password s = Ok w →
  ∃ data e salt nonce_bytes c k p,
    read_to_string path s = Ok data ∧ encrypted_from_str data = Ok e ∧
    hex_decode_text (ew_salt e) = Some salt ∧ hex_decode_text (ew_nonce e) = Some nonce_bytes ∧
    hex_decode_text (ew_ciphertext e) = Some c ∧ hash_password_into password salt = Ok k ∧
    length nonce_bytes = 12%nat ∧ aes_encrypt k nonce_bytes p = Ok c ∧ wallet_from_slice p = Ok w.
Proof.
  intros Hl. unfold load_encrypted in Hl.
  apply result_bind_Ok in Hl as (data&Hd%map_err_Ok&Hl). unfold open_wallet in Hl.
  apply result_bind_Ok in Hl as (e&He%map_err_Ok&Hl).
  apply result_bind_Ok in Hl as (salt&Hs%ok_or_Ok&Hl).
  apply result_bind_Ok in Hl as (n&Hn%ok_or_Ok&Hl).
  apply result_bind_Ok in Hl as (c&Hc%ok_or_Ok&Hl).
  apply result_bind_Ok in Hl as (k&Hk%map_err_Ok&Hl).
  destruct (length n =? 12)%nat eqn:El; [|done]. apply Nat.eqb_eq in El. cbn [negb] in Hl.
  apply result_bind_Ok in Hl as (p&Hp%ok_or_Ok&Hl%map_err_Ok).
  exists data, e, salt, n, c, k, p. split_and!; try done. by apply aes_decrypt_spec.
Qed.

(** A legacy file is opened with any password and, when that succeeds, is afterwards an
    encrypted file of that password and the same wallet. *)
Theorem load_auto_migrates salt nonce_bytes path password w w' s s' :
  length nonce_bytes = 12%nat →
  read_to_string path s = Ok (wallet_to_string_pretty w) →
  load_auto salt nonce_bytes path password s = (Ok w', s') →
  w' = w ∧ load_encrypted path password s' = Ok w.
Proof.
  intros Hn Hr. destruct (legacy_not_encrypted w) as [e He]. unfold load_auto.
  assert (load_encrypted path password s = Err (WalletSerialize e)) as ->
    by (unfold load_encrypted, open_wallet; rewrite Hr; simpl; by rewrite He).
  unfold load. rewrite Hr. cbn [mbind result_bind]. rewrite wallet_from_pretty.
  destruct (save_encrypted salt nonce_bytes path password w s) as [[[]|e'] s1] eqn:Hs; [|done].
  intros [= <- <-]. split; [done|]. by eapply save_load_wallet.
Qed.

(** A file whose nonce has another length than twelve bytes stops the thread, before
    the password is checked. *)
Theorem load_short_nonce_panics path password s data e salt n c k :
  read_to_string path s = Ok data → encrypted_from_str data = Ok e →
  hex_decode_text (ew_salt e) = Some salt → hex_decode_text (ew_nonce e) = Some n →
  hex_decode_text (ew_ciphertext e) = Some c → hash_password_into password salt = Ok k →
  length n ≠ 12%nat →
  load_encrypted path password s = Err WalletPanic.
Proof.
  intros Hr He Hs Hn Hc Hk Hl%Nat.eqb_neq. unfold load_encrypted, open_wallet, decode_field.
  by rewrite Hr; cbn; rewrite He; cbn; rewrite Hs, Hn, Hc; cbn; rewrite Hk; cbn; rewrite Hl.
Qed.
End wallet_files.

(** ** A concrete instance

    Texts are the binary digits of an encoding; the cipher writes its key and its nonce
    in front of the plaintext. *)
Fixpoint pos_digits (p : positive) : bytes :=
  match p with xH => [] | xO p => x30 :: pos_digits p | xI p => x31 :: pos_digits p end.
Fixpoint digits_pos (l : bytes) : positive :=
  match l with [] => xH | x30 :: l => xO (digits_pos l) | _ :: l => xI (digits_pos l) end.

Lemma digits_pos_digits p : digits_pos (pos_digits p) = p.
Proof. induction p as [p IH|p IH|]; simpl; by rewrite ?IH. Qed.

Definition code_of `{Countable A} (tag : byte) (a : A) : bytes := tag :: pos_digits (encode a).
Definition of_code `{Countable A} (tag : byte) (l : bytes) : option A :=
  match l with
  | t :: l => if bool_decide (t = tag) then decode (digits_pos l) else None
  | [] => None
  end.

Lemma of_code_of `{Countable A} tag (a : A) : of_code tag (code_of tag a) = Some a.
Proof.
  unfold of_code, code_of. rewrite bool_decide_eq_true_2 by done.
  by rewrite digits_pos_digits, decode_encode.
Qed.

#[local] Instance KeyPair_eq_dec : EqDecision KeyPair.
Proof. solve_decision. Defined.
#[local] Instance Wallet_eq_dec : EqDecision Wallet.
Proof. solve_decision. Defined.
#[local] Instance EncryptedWallet_eq_dec : EqDecision EncryptedWallet.
Proof. solve_decision. Defined.
#[local] Program Instance Wallet_countable : Countable Wallet :=
  inj_countable' (λ w, (public_key (wl_keypair w), secret_key (wl_keypair w), wl_address w))
    (λ '(pk, sk, a), mkWallet (mkKeyPair pk sk) a) _.
Next Obligation. by intros [[]]. Qed.
#[local] Program Instance EncryptedWallet_countable : Countable EncryptedWallet :=
  inj_countable' (λ e, (ew_salt e, ew_nonce e, ew_ciphertext e, ew_version e))
    (λ '(salt, n, c, v), mkEncryptedWallet salt n c v) _.
Next Obligation. by intros []. Qed.

Definition demo_wallet_crypto : WalletCrypto := {|
  hash_password_into password salt :=
    if (length salt <? 8)%nat then Err "salt too short" else Ok (bstr password ++ [x00] ++ salt);
  aes_encrypt k n p := Ok (code_of x00 (k, n, p));
  aes_decrypt k n c :=
    t ← of_code (A := bytes * bytes * bytes) x00 c;
    let p := t.2 in
    if bool_decide (c = code_of x00 (k, n, p)) then Some p else None;
|}.

Definition demo_wallet_text : WalletText := {|
  wallet_to_vec w := Ok (code_of x57 w);
  wallet_to_string_pretty w := String.string_of_list_byte (code_of x57 w);
  wallet_from_slice l := ok_or "not a wallet" (of_code x57 l);
  encrypted_to_string_pretty e := Ok (String.string_of_list_byte (code_of x45 e));
  encrypted_from_str t := ok_or "not an encrypted wallet" (of_code x45 (bstr t));
  hex_error_text _ := "not hexadecimal";
|}.

Definition demo_files : FileSystem (gmap string string) := {|
  read_to_string path s := ok_or "no such file" (s !! path);
  write_file path t := λ s, (Ok tt, <[path:=t]> s);
|}.

Lemma bstr_string l : bstr (String.string_of_list_byte l) = l.
Proof. apply String.list_byte_of_string_of_list_byte. Qed.

Lemma demo_wallet_laws :
  @WalletLaws demo_wallet_crypto demo_wallet_text (gmap string string) demo_files.
Proof.
  constructor; cbn -[code_of of_code bstr String.string_of_list_byte].
  - intros k n c p. split.
    + intros ([[k' n'] p']&_&Hp)%bind_Some. simpl in Hp. case_bool_decide as Hc; [|done].
      injection Hp as <-. by rewrite Hc.
    + intros [= <-]. rewrite of_code_of. simpl. by rewrite bool_decide_eq_true_2.
  - intros w p [= <-]. by rewrite of_code_of.
  - intros w. by rewrite bstr_string, of_code_of.
  - intros e t [= <-]. by rewrite bstr_string, of_code_of.
  - intros w. rewrite bstr_string. by eexists.
  - intros path t s s' [= <-]. by rewrite lookup_insert_eq.
Qed.

(** A legacy file is opened, migrated, and opened again; another password fails. *)
Example demo_migration :
  let _ := demo_wallet_crypto in let _ := demo_wallet_text in let _ := demo_files in
  let _ := hex_codec in
  let w := mkWallet (mkKeyPair [x01] [x02]) "CUR" in
  let s : gmap string string := {["w.json" := wallet_to_string_pretty w]} in
  let salt := replicate 16 x05 in let n := replicate 12 x06 in
  let '(loaded, s') := load_auto salt n "w.json" "pass" s in
  loaded = Ok w ∧ load_encrypted "w.json" "pass" s' = Ok w ∧
  load_encrypted "w.json" "guess" s' = Err WrongPassword ∧
  (load_auto salt n "w.json" "guess" s').1 = Err WrongPassword.
Proof. vm_compute. done. Qed.
