(* ===== verification/Browser.v ===== *)
(** * The browser wallet ([sdk/wasm/src/lib.rs])

    The keys, wallet files and transfers that a web page makes, and their agreement with
    the node: the addresses, the files, and the transaction that is signed. The crates
    are those of the node; the random bytes and the clock are arguments; an error is its
    message. *)
From stdpp Require Import pretty.
From S2P Require Import Prelude Hash Crypto Vm Transaction Text Wallet.

(** ** Shapes of JSON *)

(** [SignableTransaction] and [TransactionJson] of the bundle: the fields in the order
    they are encoded. *)
Record BrowserSignable := mkBrowserSignable {
  bs_chain_id : string;
  bs_kind : TransactionKind;
  bs_from : bytes;
  bs_sender_public_key : bytes;
  bs_to : bytes;
  bs_amount : Z;
  bs_fee : Z;
  bs_max_fee_per_gas : Z;
  bs_max_priority_fee_per_gas : Z;
  bs_nonce : Z;
  bs_timestamp : Z;
  bs_gas_limit : Z;
  bs_data : bytes;
}.

Record BrowserTransaction := mkBrowserTransaction {
  tj_chain_id : string;
  tj_kind : TransactionKind;
  tj_from : bytes;
  tj_sender_public_key : bytes;
  tj_to : bytes;
  tj_amount : Z;
  tj_fee : Z;
  tj_max_fee_per_gas : Z;
  tj_max_priority_fee_per_gas : Z;
  tj_nonce : Z;
  tj_timestamp : Z;
  tj_signature : option bytes;
  tj_gas_limit : Z;
  tj_data : bytes;
}.

(** The same fields as the node's structs have; the field [evm_raw_tx], which the JSON
    lacks, has a default. *)
Definition node_signable (s : BrowserSignable) : SignableTransaction :=
  mkSignable (bs_chain_id s) (bs_kind s) (bs_from s) (bs_sender_public_key s) (bs_to s)
    (bs_amount s) (bs_fee s) (bs_max_fee_per_gas s) (bs_max_priority_fee_per_gas s) (bs_nonce s)
    (bs_timestamp s) (bs_gas_limit s) (bs_data s).
Definition node_transaction (t : BrowserTransaction) : Transaction :=
  mkTransaction (tj_chain_id t) (tj_kind t) (tj_from t) (tj_sender_public_key t) (tj_to t)
    (tj_amount t) (tj_fee t) (tj_max_fee_per_gas t) (tj_max_priority_fee_per_gas t) (tj_nonce t)
    (tj_timestamp t) (mkSignature <$> tj_signature t) (tj_gas_limit t) (tj_data t) [].

(** bincode encodes equal sequences of fields equally: one encoder for both structs. *)
Definition browser_signable_bytes `{!Bincode SignableTransaction} (s : BrowserSignable) : bytes :=
  bincode_serialize (node_signable s).

(** The secret key is decoded by the length of its seed: [MlDsa87::from_seed], and
    [VerifyingKey::decode]. *)
Section browser.
Context `{Sha3} `{MlDsa} `{Hex} `{WalletCrypto} `{WalletText} `{!Bincode SignableTransaction}.

Definition browser_address_bytes (pk : bytes) : bytes :=
  take ADDRESS_LEN (sha3_hash_domain (bstr "curs3d-address") [pk]).
Definition browser_address (kp : KeyPair) : string :=
  checksum_address (browser_address_bytes (public_key kp)).

(** [or_else] of several [strip_prefix]. *)
Fixpoint strip_first (prefixes : list string) (s : string) : string :=
  match prefixes with
  | [] => s
  | p :: prefixes =>
      match strip_prefix p s with Some rest => rest | None => strip_first prefixes s end
  end.
Definition browser_parse_address (s : string) : result string bytes :=
  let core := strip_first ["CUR"; "cur"; "0x"; "0X"] s in
  if negb (String.length core =? ADDRESS_LEN * 2)%nat
  then Err ("address must be CUR + 40 hex chars (got " +:+ pretty (String.length core) +:+ " chars)")
  else map_err (λ e, "invalid address hex: " +:+ e) (ok_or (hex_error_text core) (hex_decode_text core)).

(** [KeyPair::generate], given the random seed. *)
Definition browser_generate (seed : bytes) : KeyPair := mkKeyPair (mldsa_verifying_key seed) seed.

(** [signing_key]: the seed, if it has the length of one. *)
Definition signing_key (kp : KeyPair) : result string bytes :=
  if negb (length (secret_key kp) =? 32)%nat
  then Err ("secret key must be 32 bytes (was " +:+ pretty (length (secret_key kp)) +:+ ")")
  else Ok (secret_key kp).
Definition verifying_key (kp : KeyPair) : result string bytes :=
  if (length (public_key kp) =? ML_DSA_PK_LEN)%nat then Ok (public_key kp)
  else Err "invalid public key length".
Definition sign_raw (kp : KeyPair) (message : bytes) : result string bytes :=
  sk ← signing_key kp; Ok (mldsa_sign sk message).

Definition from_bytes (pk sk : bytes) : result string KeyPair :=
  let kp := mkKeyPair pk sk in
  seed ← signing_key kp;
  _ ← verifying_key kp;
  if negb (bool_decide (mldsa_verifying_key seed = public_key kp))
  then Err "public key does not match secret key seed"
  else Ok kp.

(** [verifySignature]. *)
Definition browser_verify (public_key_hex : string) (message : bytes) (signature_hex : string) : bool :=
  match hex_decode_text public_key_hex, hex_decode_text signature_hex with
  | Some pk, Some sig =>
      if negb (length pk =? ML_DSA_PK_LEN)%nat then false
      else if negb (length sig =? ML_DSA_SIG_LEN)%nat then false
      else match mldsa_decode_signature sig with
           | Some s => mldsa_verify pk message s
           | None => false
           end
  | _, _ => false
  end.

(** ** Wallet files *)

Definition derive_key (password : string) (salt : bytes) : result string bytes :=
  map_err (λ e, "argon2: " +:+ e) (hash_password_into password salt).

(** [encrypt_wallet]; the plaintext has the shape of the node's [Wallet]. *)
Definition encrypt_wallet (salt nonce_bytes : bytes) (kp : KeyPair) (password : string)
    : result string string :=
  let plaintext := mkWallet kp (browser_address kp) in
  plaintext_bytes ← map_err (λ e, "serialize: " +:+ e) (wallet_to_vec plaintext);
  key ← derive_key password salt;
  ciphertext ← map_err (λ e, "aes-gcm encrypt: " +:+ e) (aes_encrypt key nonce_bytes plaintext_bytes);
  map_err (λ e, "serialize-out: " +:+ e) (encrypted_to_string_pretty
    (mkEncryptedWallet (hex_encode_bytes salt) (hex_encode_bytes nonce_bytes)
       (hex_encode_bytes ciphertext) 1)).

Definition browser_field (name field : string) : result string bytes :=
  map_err (λ e, name +:+ " hex: " +:+ e) (ok_or (hex_error_text field) (hex_decode_text field)).

(** [decrypt_wallet]. The bundle also takes a file without a version, which the node
    never writes; the decoder of the class is the node's. *)
Definition decrypt_wallet (json password : string) : result string KeyPair :=
  blob ← map_err (λ e, "parse json: " +:+ e) (encrypted_from_str json);
  salt ← browser_field "salt" (ew_salt blob);
  nonce_bytes ← browser_field "nonce" (ew_nonce blob);
  ciphertext ← browser_field "ciphertext" (ew_ciphertext blob);
  if negb (length nonce_bytes =? 12)%nat
  then Err ("nonce must be 12 bytes (was " +:+ pretty (length nonce_bytes) +:+ ")")
  else
    key ← derive_key password salt;
    plaintext ← ok_or "wrong password" (aes_decrypt key nonce_bytes ciphertext);
    parsed ← map_err (λ e, "decode wallet: " +:+ e) (wallet_from_slice plaintext);
    from_bytes (public_key (wl_keypair parsed)) (secret_key (wl_keypair parsed)).

(** ** Transfers *)

(** [build_transfer_tx_inner], up to the encoding of the JSON. *)
Definition build_transfer_tx_inner (kp : KeyPair) (to : bytes) (amount fee nonce timestamp : Z)
    (chain_id : string) : result string BrowserTransaction :=
  let from := browser_address_bytes (public_key kp) in
  let signable := mkBrowserSignable chain_id Transfer from (public_key kp) to amount fee fee fee
                    nonce timestamp 0 [] in
  sig ← sign_raw kp (bstr "curs3d-tx-v1:" ++ browser_signable_bytes signable);
  Ok (mkBrowserTransaction chain_id Transfer from (public_key kp) to amount fee fee fee nonce timestamp
        (Some sig) 0 []).

Definition build_transfer_tx_advanced (kp : KeyPair) (to_address : string)
    (amount fee nonce timestamp : Z) (chain_id : string) : result string BrowserTransaction :=
  to ← browser_parse_address to_address;
  build_transfer_tx_inner kp to amount fee nonce timestamp chain_id.
Definition build_transfer_tx (kp : KeyPair) (to_address : string) (amount fee nonce now : Z)
    : result string BrowserTransaction :=
  to ← browser_parse_address to_address;
  build_transfer_tx_inner kp to amount fee nonce now "curs3d-public-testnet".
End browser.

(** ** Agreement with the node *)

Section agreement.
Context `{Sha3} `{MlDsa} `{EvmEngine} `{Hex} `{WalletCrypto} `{WalletText}
  `{!Bincode SignableTransaction}.

Lemma from_bytes_inv pk sk kp :
  from_bytes pk sk = Ok kp →
  kp = mkKeyPair pk sk ∧ length sk = 32%nat ∧ pk = mldsa_verifying_key sk.
Proof.
  unfold from_bytes, signing_key, verifying_key. cbn [secret_key public_key]. intros Hf.
  destruct (length sk =? 32)%nat eqn:El; [|done]. cbn [negb mbind result_bind] in Hf.
  destruct (length pk =? _)%nat; [|done]. cbn [mbind result_bind] in Hf.
  case_bool_decide as Ek; [|done]. injection Hf as <-. apply Nat.eqb_eq in El. done.
Qed.

(** Keys that were generated are accepted. *)
Lemma from_bytes_generated seed :
  length seed = 32%nat → from_bytes (mldsa_verifying_key seed) seed = Ok (browser_generate seed).
Proof.
  intros Hs. unfold from_bytes, signing_key, verifying_key. cbn [secret_key public_key].
  rewrite Hs, Nat.eqb_refl. cbn [negb mbind result_bind].
  rewrite mldsa_verifying_key_length, Nat.eqb_refl. cbn [mbind result_bind].
  by rewrite bool_decide_eq_true_2.
Qed.

(** The payload the page signs is the one the node rebuilds. *)
Lemma browser_payload kp to amount fee nonce timestamp chain_id :
  node_signable (mkBrowserSignable chain_id Transfer (browser_address_bytes (public_key kp))
    (public_key kp) to amount fee fee fee nonce timestamp 0 []) =
  signable_payload (transaction_new chain_id (public_key kp) to amount fee nonce timestamp).
Proof.
  unfold node_signable, signable_payload, transaction_new, max_priority_fee_per_gas, max_fee_per_gas.
  cbn. rewrite Z.max_id, Z.min_id. by destruct (fee =? 0).
Qed.


(** A file that the node opens, the page opens with the same password, if the keys
    belong together; and one that the page opens, the node opens. *)
Theorem wallet_files_interchange (data password : string) :
  (∀ w, open_wallet password data = Ok w →
     decrypt_wallet data password = from_bytes (public_key (wl_keypair w)) (secret_key (wl_keypair w))) ∧
  (∀ kp, decrypt_wallet data password = Ok kp →
     ∃ address, open_wallet password data = Ok (mkWallet kp address)).
Proof.
  unfold open_wallet, decrypt_wallet, derive_key.
  destruct (encrypted_from_str data) as [e|]; [|done]. cbn [map_err mbind result_bind].
  assert (∀ name field, browser_field name field =
    map_err (λ e, match e with WalletSerialize m => name +:+ " hex: " +:+ m | _ => "" end)
      (decode_field field)) as Hb.
  { intros name field. unfold browser_field, decode_field. by destruct (hex_decode_text field). }
  rewrite !Hb.
  destruct (decode_field (ew_salt e)) as [salt|]; [|done]. cbn [map_err mbind result_bind].
  destruct (decode_field (ew_nonce e)) as [n|]; [|done]. cbn [map_err mbind result_bind].
  destruct (decode_field (ew_ciphertext e)) as [c|]; [|done]. cbn [map_err mbind result_bind].
  destruct (hash_password_into password salt) as [k|]; [|by destruct (length n =? 12)%nat].
  cbn [map_err mbind result_bind]. destruct (length n =? 12)%nat; [|done]. cbn [negb].
  destruct (aes_decrypt k n c) as [p|]; [|done]. cbn [ok_or map_err mbind result_bind].
  destruct (wallet_from_slice p) as [w|]; [|done]. cbn [map_err mbind result_bind].
  split; [by intros w' [= ->]|]. intros kp Hf. apply from_bytes_inv in Hf as (->&_&_).
  exists (wl_address w). by destruct w as [[pk sk] a].
Qed.

(** A file that the page wrote, the node opens: it has the keys and the address the node
    derives for them. *)
Theorem browser_wallet_opens {S : Type} `{FileSystem S} `{!WalletLaws} (salt nonce_bytes : bytes)
    (kp : KeyPair) (password json : string) :
  length nonce_bytes = 12%nat → encrypt_wallet salt nonce_bytes kp password = Ok json →
  open_wallet password json = Ok (mkWallet kp (derive_address (public_key kp))).
Proof.
  intros Hn He. unfold encrypt_wallet, derive_key in He.
  apply result_bind_Ok in He as (p&Hp%map_err_Ok&He). apply result_bind_Ok in He as (k&Hk%map_err_Ok&He).
  apply result_bind_Ok in He as (c&Hc%map_err_Ok&He). apply map_err_Ok in He.
  unfold open_wallet. rewrite (encrypted_from_pretty _ _ He).
  cbn [map_err mbind result_bind ew_salt ew_nonce ew_ciphertext]. rewrite !decode_field_encode.
  cbn [mbind result_bind]. rewrite Hk. cbn [map_err mbind result_bind]. rewrite Hn, Nat.eqb_refl.
  cbn [negb]. apply aes_decrypt_spec in Hc. rewrite Hc. cbn [ok_or mbind result_bind].
  by rewrite (wallet_from_to _ _ Hp).
Qed.

(** [hex::decode] takes either case. *)
Class HexCase := hex_decode_lower s : hex_decode_text (to_lower s) = hex_decode_text s.

(** A page reads the text of an address that the node or it writes, in any case of its
    letters: the checksum is not looked at. *)
Theorem browser_address_text `{!HexLower} `{!HexCase} (b : bytes) (text : string) :
  length b = ADDRESS_LEN → to_lower text = hex_encode_bytes b →
  browser_parse_address ("CUR" +:+ text) = Ok b ∧
  browser_parse_address (checksum_address b) = Ok b.
Proof.
  intros Hb Ht.
  assert (∀ text, to_lower text = hex_encode_bytes b → browser_parse_address ("CUR" +:+ text) = Ok b) as Hp.
  { clear text Ht. intros text Ht. unfold browser_parse_address. change (strip_first _ ("CUR" +:+ text)) with text.
    assert (String.length text = (ADDRESS_LEN * 2)%nat) as ->.
    { rewrite <- (to_lower_length text), Ht, hex_encode_length, Hb. done. }
    cbn [negb Nat.eqb ADDRESS_LEN Nat.mul Nat.add]. rewrite <- hex_decode_lower, Ht, hex_decode_encode. done. }
  split; [by apply Hp|]. apply Hp. rewrite to_lower_checksum. apply hex_encode_lower.
Qed.
End agreement.

(** ** A concrete instance *)

Lemma hex_digit_lower a : hex_digit_value (ascii_lower a) = hex_digit_value a.
Proof. destruct a as [[] [] [] [] [] [] [] []]; vm_compute; exact eq_refl. Qed.

Lemma lower_hex_char d : 0 ≤ d < 16 → ascii_lower (hex_char d) = hex_char d.
Proof.
  intros Hd. assert (∃ n, (n < 16)%nat ∧ d = Z.of_nat n) as (n&Hn&->) by (exists (Z.to_nat d); lia).
  do 16 (destruct n as [|n]; [reflexivity|]). lia.
Qed.

Lemma hex_codec_lower : @HexLower hex_codec.
Proof.
  intros b. simpl. induction b as [|x b IH]; [done|]. cbn [encode_pairs to_lower].
  destruct (nibbles x). by rewrite !lower_hex_char, IH.
Qed.

Lemma decode_pairs_lower n s : (String.length s ≤ n)%nat → decode_pairs (to_lower s) = decode_pairs s.
Proof.
  revert s. induction n as [|n IH]; intros [|a [|c s]] Hs; simpl in *; try done; try lia.
  rewrite !hex_digit_lower, IH by lia. done.
Qed.

Lemma hex_codec_case : @HexCase hex_codec.
Proof. intros s. by apply (decode_pairs_lower (String.length s)). Qed.

Section demo.
#[local] Existing Instances demo_sha3 demo_mldsa demo_bincode_tx hex_codec demo_wallet_crypto demo_wallet_text.

End demo.
