(* ===== verification/Evm.v ===== *)
(** * The EVM ([src/vm/evm.rs])

    The adapter that shows the chain's state to the crate [revm], the translation of
    a run's result into an outcome, and the decoding of raw Ethereum transactions on
    top of the crate [alloy]. The two crates are interfaces; with them this file
    implements the interface [EvmEngine] that the chain is modelled against. *)
From S2P Require Import Prelude Hash Crypto Vm Transaction Token Governance Block Account.
From S2P Require Import Validators Finality Settlement BlockTree Trie StateRoot Chain Apply.

Definition WEI_PER_MICROTOKEN : Z := 1.
Definition u256_mod : Z := 2 ^ 256.

(** ** What revm reads and returns *)

(** [AccountInfo]; the code is the raw bytecode. *)
Record AccountInfo := mkAccountInfo {
  ai_balance : Z;
  ai_nonce : Z;
  ai_code_hash : bytes;
  ai_code : option bytes;
}.

(** The trait [Database]: an address is 20 bytes, a slot and its value a [U256]. *)
Record Database := mkDatabase {
  db_basic : bytes → option AccountInfo;
  db_code_by_hash : bytes → bytes;
  db_storage : bytes → Z → Z;
  db_block_hash : Z → bytes;
}.

(** [CfgEnv] and [BlockEnv], the fields [build_evm] sets. *)
Record CfgEnv := mkCfgEnv {
  cfg_disable_balance_check : bool;
  cfg_disable_base_fee : bool;
  cfg_disable_nonce_check : bool;
  cfg_disable_block_gas_limit : bool;
  cfg_disable_eip3607 : bool;
  cfg_tx_chain_id_check : bool;
}.
Record BlockEnv := mkBlockEnv {
  be_number : Z;
  be_timestamp : Z;
  be_gas_limit : Z;
  be_basefee : Z;
}.

(** [TxEnv]; [te_kind] is [None] for [TxKind::Create]. The other fields are zero
    or empty. *)
Record TxEnv := mkTxEnv {
  te_tx_type : Z;
  te_caller : bytes;
  te_gas_limit : Z;
  te_gas_price : Z;
  te_kind : option bytes;
  te_value : Z;
  te_data : bytes;
  te_nonce : Z;
  te_chain_id : option Z;
  te_gas_priority_fee : option Z;
}.

Inductive Output := OutputCall (data : bytes) | OutputCreate (data : bytes) (addr : option bytes).
Record EvmLog := mkEvmLog { el_address : bytes; el_topics : list bytes; el_data : bytes }.
Inductive ExecutionResult :=
  | Success (output : Output) (logs : list EvmLog) (gas : Z)
  | Revert (output : bytes) (gas : Z)
  | Halt (reason : string) (gas : Z).

(** A touched account: its new information and the slots that were loaded, with
    their present values. *)
Record EvmAccount := mkEvmAccount { ea_info : AccountInfo; ea_storage : gmap Z Z }.
Abbreviation EvmState := (gmap bytes EvmAccount).

Definition tx_gas_used (r : ExecutionResult) : Z :=
  match r with Success _ _ gas | Revert _ gas | Halt _ gas => gas end.

(** The crate: a run of one transaction; a run never uses more than its limit. *)
Class Revm := {
  revm_transact : Database → CfgEnv → BlockEnv → TxEnv → result string (ExecutionResult * EvmState);
  keccak_code : bytes → bytes;
  revm_gas db cfg blk tx r st :
    revm_transact db cfg blk tx = Ok (r, st) → 0 ≤ tx_gas_used r ≤ te_gas_limit tx;
}.

(** The crate [alloy]: a decoded envelope, with what it answers about itself. *)
Record TxEnvelope := mkEnvelope {
  en_signer : option bytes;
  en_to : option bytes;
  en_value : Z;
  en_input : bytes;
  en_gas_limit : Z;
  en_max_fee_per_gas : Z;
  en_max_priority_fee_per_gas : option Z;
  en_nonce : Z;
  en_chain_id : option Z;
  en_tx_hash : bytes;
}.
Class Alloy := decode_2718 : bytes → result string TxEnvelope.

(** ** The adapter *)

Definition slot_key_bytes (slot : Z) : bytes := to_be_bytes 32 slot.
Definition value_bytes (v : Z) : bytes := to_be_bytes 32 v.

(** Shorter values are padded on the left, longer ones cut on the right. *)
Definition bytes_to_u256 (b : bytes) : Z :=
  let start := (32 - length b)%nat in
  let n := Nat.min (length b) 32 in
  from_le_bytes (reverse (replicate start x00 ++ take n b)).

Section evm.
Context `{Sha3} `{Revm} `{Alloy}.

(** [impl Database for EvmDb]. *)
Definition basic (st : EvmStateView) (address : bytes) : option AccountInfo :=
  let '(bal, nonce) := default (0, 0) (ev_accounts st !! address) in
  let code := code <$> ev_contracts st !! address in
  Some (mkAccountInfo bal nonce (keccak_code (default [] code)) code).

Definition db_slot (st : EvmStateView) (address : bytes) (index : Z) : Z :=
  from_option bytes_to_u256 0
    (c ← ev_contracts st !! address; storage c !! slot_key_bytes index).

Definition evm_db (st : EvmStateView) : Database :=
  mkDatabase (basic st) (λ _, []) (db_slot st) (λ _, replicate 32 x00).

(** ** The outcome of a run *)

Definition convert_logs (contract_addr : bytes) (logs : list EvmLog) : list LogEntry :=
  (λ log, mkLogEntry (if bool_decide (el_address log = replicate 20 x00) then contract_addr
                      else el_address log) (el_topics log) (el_data log)) <$> logs.

(** The slots of a touched account as byte strings. *)
Definition slot_updates (account : EvmAccount) : gmap bytes bytes :=
  list_to_map ((λ sv, (slot_key_bytes sv.1, value_bytes sv.2)) <$> map_to_list (ea_storage account)).

(** The storage entry of an account: its slots over the stored ones. *)
Definition storage_entry (seed : EvmStateView) (address : bytes) (account : EvmAccount)
    : option (gmap bytes bytes) :=
  if bool_decide (ea_storage account = ∅) then None
  else Some (slot_updates account ∪
             from_option storage ∅ (ev_contracts seed !! address)).

Definition created_contract (seed : EvmStateView) (creator contract_address : option bytes)
    (address : bytes) (account : EvmAccount) : option ContractState :=
  code ← ai_code (ea_info account);
  creator ← creator;
  if bool_decide (code = []) || negb (bool_decide (contract_address = Some address)) then None
  else Some (mkContractState (sha3_hash code) code
               (default ∅ (storage_entry seed address account)) creator).

Definition finish_execution (res : ExecutionResult) (st : EvmState) (seed : EvmStateView)
    (expected_creator : option bytes) : result EvmError EvmOutcome :=
  '(return_data, contract_address) ←
    (match res with
     | Success (OutputCall data) _ _ => Ok (data, None)
     | Success (OutputCreate data addr) _ _ => Ok (data, addr)
     | Revert output _ => Ok (output, None)
     | Halt reason _ => Err (EvmHalted reason)
     end);
  let logs :=
    match res with
    | Success _ logs _ => convert_logs (default (replicate 20 x00) contract_address) logs
    | _ => []
    end in
  Ok (mkEvmOutcome (tx_gas_used res)
        ((λ a, (Z.min (ai_balance (ea_info a)) u64_max, ai_nonce (ea_info a))) <$> st)
        (map_imap (storage_entry seed) st)
        (map_imap (created_contract seed expected_creator contract_address) st)
        contract_address logs return_data
        (match res with Success _ _ _ => true | _ => false end)).

(** [build_evm]: the switches and the block a transaction runs in. *)
Definition curs3d_cfg : CfgEnv := mkCfgEnv true true true true true false.

Definition run_tx (view : EvmStateView) (c : EvmCall) : result EvmError EvmOutcome :=
  let nonce := from_option snd 0 (ev_accounts view !! ec_caller c) in
  '(res, st) ← map_err EvmInternal
    (revm_transact (evm_db view) curs3d_cfg
       (mkBlockEnv (ec_block_height c) 0 (ec_block_gas_limit c) (ec_base_fee c))
       (mkTxEnv 2 (ec_caller c) (ec_gas_limit c) (ec_gas_price c) (ec_to c) (ec_value c) (ec_data c)
          nonce None (Some 0)));
  finish_execution res st view (match ec_to c with None => Some (ec_caller c) | Some _ => None end).

(** [deploy] and [call]. *)
Definition evm_deploy (view : EvmStateView) (c : EvmCall) : result EvmError EvmOutcome :=
  if bool_decide (ec_data c = []) then Err EvmEmptyBytecode else run_tx view c.
Definition evm_call (view : EvmStateView) (c : EvmCall) : result EvmError EvmOutcome :=
  run_tx view c.

(** ** Raw transactions *)

Definition u64_from_u256_saturating (v : Z) : Z := if v / u64_mod =? 0 then v mod u64_mod else u64_max.

Definition decode_raw (raw : bytes) : result EvmError DecodedRawTx :=
  envelope ← map_err EvmRlpDecode (decode_2718 raw);
  from ← ok_or EvmSignatureRecovery (en_signer envelope);
  let max_fee := en_max_fee_per_gas envelope in
  let max_priority := default max_fee (en_max_priority_fee_per_gas envelope) in
  Ok (mkDecodedRawTx from (en_to envelope) (u64_from_u256_saturating (en_value envelope))
        (en_input envelope) (en_gas_limit envelope) (wrap64 max_fee) (wrap64 max_fee)
        (wrap64 max_priority) (en_nonce envelope) (en_chain_id envelope) (en_tx_hash envelope)).

(** ** The engine of the chain *)

Lemma finish_execution_gas res st seed creator o :
  finish_execution res st seed creator = Ok o → eo_gas_used o = tx_gas_used res.
Proof.
  unfold finish_execution. intros Hf. apply result_bind_Ok in Hf as ([d a]&_&Hf).
  by injection Hf as <-.
Qed.

Lemma run_tx_gas view c o : run_tx view c = Ok o → 0 ≤ eo_gas_used o ≤ ec_gas_limit c.
Proof.
  unfold run_tx. intros Hr. apply result_bind_Ok in Hr as ([res st]&Ht&Hf).
  apply map_err_Ok in Ht. apply revm_gas in Ht. apply finish_execution_gas in Hf as ->. exact Ht.
Qed.

Definition evm_dispatch (view : EvmStateView) (c : EvmCall) : result EvmError EvmOutcome :=
  match ec_to c with None => evm_deploy view c | Some _ => evm_call view c end.

Lemma evm_dispatch_gas view c o : evm_dispatch view c = Ok o → 0 ≤ eo_gas_used o ≤ ec_gas_limit c.
Proof.
  unfold evm_dispatch, evm_deploy, evm_call. destruct (ec_to c); [by apply run_tx_gas|].
  case_bool_decide; [done|]. by apply run_tx_gas.
Qed.

#[export] Instance curs3d_evm : EvmEngine := {|
  decode_raw_eth_tx := decode_raw;
  evm_run := evm_dispatch;
  evm_run_gas_used := evm_dispatch_gas;
|}.
End evm.

(** ** Lemmas *)

Lemma map_fold_insert_lookup `{Countable K} {V W} (f : K → V → W) (acc : gmap K W) (m : gmap K V) k :
  map_fold (λ i x, insert i (f i x)) acc m !! k =
    match m !! k with Some x => Some (f k x) | None => acc !! k end.
Proof.
  apply (map_fold_weak_ind (λ r m, r !! k = match m !! k with Some x => Some (f k x) | None => acc !! k end)).
  - by rewrite lookup_empty.
  - intros i x m' r Hi IH. rewrite !lookup_insert. case_decide; [by subst|done].
Qed.

(** An update of existing entries only, outside the keys that [p] excludes. *)
Lemma map_fold_alter_lookup `{Countable K} {V W} (p : K → bool) (g : V → W → W) (acc : gmap K W)
    (m : gmap K V) k :
  map_fold (λ i x acc, if p i then acc else alter (g x) i acc) acc m !! k =
    if p k then acc !! k
    else match m !! k with Some x => g x <$> acc !! k | None => acc !! k end.
Proof.
  apply (map_fold_weak_ind (λ r m, r !! k = if p k then acc !! k
    else match m !! k with Some x => g x <$> acc !! k | None => acc !! k end)).
  - rewrite lookup_empty. by destruct (p k).
  - intros i x m' r Hi IH. rewrite lookup_insert. case_decide as Hk.
    + subst i. rewrite Hi in IH. destruct (p k); [done|]. by rewrite lookup_alter_eq, IH.
    + destruct (p i); [done|]. by rewrite lookup_alter_ne.
Qed.

Definition u256 (v : Z) : Prop := 0 ≤ v < u256_mod.

Lemma u256_bytes v : u256 v → bytes_to_u256 (value_bytes v) = v.
Proof.
  intros Hv. unfold bytes_to_u256, value_bytes, to_be_bytes.
  rewrite length_reverse, length_to_le_bytes, Nat.sub_diag, Nat.min_id.
  rewrite take_ge by (by rewrite length_reverse, length_to_le_bytes).
  cbn [replicate app]. rewrite reverse_involutive, from_to_le_bytes. by apply Z.mod_small.
Qed.

Lemma slot_key_inj x y : u256 x → u256 y → slot_key_bytes x = slot_key_bytes y → x = y.
Proof.
  intros Hx Hy E. apply (f_equal reverse) in E. unfold slot_key_bytes, to_be_bytes in E.
  rewrite !reverse_involutive in E. by apply (to_le_bytes_inj 32) in E.
Qed.

(** A touched account whose slots and values are 256-bit numbers. *)
Definition account_u256 (a : EvmAccount) : Prop :=
  map_Forall (λ slot v, u256 slot ∧ u256 v) (ea_storage a).

Lemma slot_updates_lookup a slot :
  account_u256 a → u256 slot →
  slot_updates a !! slot_key_bytes slot = value_bytes <$> ea_storage a !! slot.
Proof.
  intros Ha Hs. unfold slot_updates.
  set (l := (λ sv : Z * Z, (slot_key_bytes sv.1, value_bytes sv.2)) <$> map_to_list (ea_storage a)).
  assert (NoDup l.*1) as Hnd.
  { unfold l. rewrite <- list_fmap_compose. apply NoDup_fmap_2_strong; [|apply NoDup_map_to_list].
    intros [x v] [y w] Hx Hy E. apply elem_of_map_to_list in Hx, Hy. simpl in E.
    destruct (Ha x v Hx), (Ha y w Hy). apply slot_key_inj in E; [|done..]. subst y. congruence. }
  destruct (ea_storage a !! slot) as [v|] eqn:E; simpl.
  - apply elem_of_list_to_map_1; [done|]. apply list_elem_of_fmap. exists (slot, v).
    split; [done|]. by apply elem_of_map_to_list.
  - apply not_elem_of_list_to_map_1. intros Hin. unfold l in Hin.
    rewrite <- list_fmap_compose in Hin. apply list_elem_of_fmap in Hin as ([y w]&Ey&Hy).
    apply elem_of_map_to_list in Hy. simpl in Ey. apply slot_key_inj in Ey; [|done|by destruct (Ha y w Hy)].
    subst y. congruence.
Qed.

Section evm_lemmas.
Context `{Sha3} `{Revm} `{Alloy}.

(** What the merge of an outcome makes of the contract at an address. *)
Lemma merge_contracts_lookup o s a :
  contracts (merge_evm_outcome o s) !! a =
    match eo_contracts_created o !! a with
    | Some k => Some (mkContractState (code_hash k) (code k)
                        (default (storage k) (eo_storage_updates o !! a)) (owner k))
    | None =>
        match eo_storage_updates o !! a with
        | Some u => (λ k, mkContractState (code_hash k) (code k) (u ∪ storage k) (owner k)) <$>
                      contracts s !! a
        | None => contracts s !! a
        end
    end.
Proof.
  unfold merge_evm_outcome. simpl. unfold merge_storage.
  rewrite (map_fold_alter_lookup (λ i, bool_decide (is_Some (eo_contracts_created o !! i)))
    (λ u k, mkContractState (code_hash k) (code k) (u ∪ storage k) (owner k))).
  unfold merge_created. rewrite map_fold_insert_lookup.
  destruct (eo_contracts_created o !! a) as [k|] eqn:E.
  - by rewrite bool_decide_eq_true_2.
  - by rewrite bool_decide_eq_false_2 by (by intros [? ?]).
Qed.

Lemma merge_accounts_lookup o s a :
  accounts (merge_evm_outcome o s) !! a =
    match eo_account_updates o !! a with
    | Some (bal, n) => Some (set_nonce n (set_balance bal (get_account (accounts s) a)))
    | None => accounts s !! a
    end.
Proof.
  unfold merge_evm_outcome. simpl. unfold merge_accounts.
  apply (map_fold_weak_ind (λ (r : accounts_map) (m : gmap bytes (Z * Z)), r !! a = match m !! a with
    | Some (bal, n) => Some (set_nonce n (set_balance bal (get_account (accounts s) a)))
    | None => accounts s !! a end)).
  - by rewrite lookup_empty.
  - intros i [bal n] m r Hi IH. rewrite lookup_update_account, lookup_insert. case_decide; [|done].
    subst i. rewrite Hi in IH. unfold get_account. by rewrite IH.
Qed.

(** An outcome, opened. *)
Lemma finish_execution_Ok res st seed creator o :
  finish_execution res st seed creator = Ok o →
  ∃ contract_address,
    eo_account_updates o =
      (λ a, (Z.min (ai_balance (ea_info a)) u64_max, ai_nonce (ea_info a))) <$> st ∧
    eo_storage_updates o = map_imap (storage_entry seed) st ∧
    eo_contracts_created o = map_imap (created_contract seed creator contract_address) st ∧
    eo_contract_address o = contract_address.
Proof.
  unfold finish_execution. intros Hf. apply result_bind_Ok in Hf as ([d a]&_&Hf).
  injection Hf as <-. by exists a.
Qed.

(** The entry of an account, read at a slot. *)
Lemma storage_entry_slot seed a acct slot u :
  account_u256 acct → u256 slot → storage_entry seed a acct = Some u →
  u !! slot_key_bytes slot =
    match ea_storage acct !! slot with
    | Some v => Some (value_bytes v)
    | None => from_option storage ∅ (ev_contracts seed !! a) !! slot_key_bytes slot
    end.
Proof.
  intros Ha Hs. unfold storage_entry. case_bool_decide; [done|]. intros [= <-].
  rewrite lookup_union, slot_updates_lookup by done.
  destruct (ea_storage acct !! slot); simpl; by destruct (_ !! slot_key_bytes slot).
Qed.

Lemma created_contract_Some seed creator ca a acct k :
  created_contract seed creator ca a acct = Some k →
  ca = Some a ∧ storage k = default ∅ (storage_entry seed a acct).
Proof.
  unfold created_contract. intros Ek. destruct (ai_code _); [|done]. simpl in Ek.
  destruct creator; [|done]. simpl in Ek. destruct (bool_decide (_ = [])); [done|].
  case_bool_decide; [|done]. by injection Ek as <-.
Qed.

Lemma storage_entry_None seed a acct slot :
  storage_entry seed a acct = None → ea_storage acct !! slot = None.
Proof. unfold storage_entry. case_bool_decide as E; [|done]. by rewrite E, lookup_empty. Qed.

(** The view of a ledger, at an address of 20 bytes. *)
Lemma view_contract m k a :
  length a = 20%nat → ev_contracts (evm_state_view m k) !! a = k !! a.
Proof.
  intros Hl. simpl. destruct (k !! a) as [c|] eqn:E.
  - by apply map_lookup_filter_Some.
  - apply map_lookup_filter_None. by left.
Qed.

Lemma view_account m k a :
  length a = 20%nat →
  ev_accounts (evm_state_view m k) !! a = (λ a, (balance a, nonce a)) <$> m !! a.
Proof.
  intros Hl. simpl. rewrite lookup_fmap. f_equal. destruct (m !! a) as [c|] eqn:E.
  - by apply map_lookup_filter_Some.
  - apply map_lookup_filter_None. by left.
Qed.
End evm_lemmas.

(** ** What a run leaves, and what the next run reads *)

Section evm_theorems.
Context `{Sha3} `{Revm} `{Alloy}.

(** The ledger after a run's outcome was merged, as the next run sees it. *)
Definition next_view (o : EvmOutcome) (s : BlockExecution) : EvmStateView :=
  let s' := merge_evm_outcome o s in evm_state_view (accounts s') (contracts s').

Lemma next_view_contract res st s creator o a :
  finish_execution res st (evm_state_view (accounts s) (contracts s)) creator = Ok o →
  length a = 20%nat →
  ev_contracts (next_view o s) !! a =
    match (acct ← st !! a; created_contract (evm_state_view (accounts s) (contracts s)) creator
             (eo_contract_address o) a acct) with
    | Some k => Some k
    | None =>
        match (acct ← st !! a; storage_entry (evm_state_view (accounts s) (contracts s)) a acct) with
        | Some u => (λ k, mkContractState (code_hash k) (code k) (u ∪ storage k) (owner k)) <$>
                      contracts s !! a
        | None => contracts s !! a
        end
    end.
Proof.
  intros Hf Hl. apply finish_execution_Ok in Hf as (ca&_&Es&Ec&->). unfold next_view.
  rewrite view_contract by done. rewrite merge_contracts_lookup, Es, Ec, !map_lookup_imap.
  destruct (st !! a) as [acct|]; simpl; [|done].
  destruct (created_contract _ creator ca a acct) as [[ch co sg ow]|] eqn:Ek; [|done].
  apply created_contract_Some in Ek as [_ Esg]. simpl in *. subst sg.
  by destruct (storage_entry _ a acct).
Qed.

(** C24: the state carries over from one EVM run to the next. For every account the run
    touched, the next run reads the balance, as long as it fits 64 bits, and the nonce
    the run left; for every contract the chain knows afterwards, it reads in every slot
    the value the run left, or the value from before when the run did not load the slot.
    Accounts the run did not touch read as before. *)
Theorem evm_state_carries_over (res : ExecutionResult) (st : EvmState) (s : BlockExecution)
    (creator : option bytes) (o : EvmOutcome) (a : bytes) :
  let view := evm_state_view (accounts s) (contracts s) in
  finish_execution res st view creator = Ok o → length a = 20%nat →
  match st !! a with
  | None => basic (next_view o s) a = basic view a ∧
      ∀ slot, db_slot (next_view o s) a slot = db_slot view a slot
  | Some acct =>
      (ai_balance (ea_info acct) ≤ u64_max →
       ∃ hash code, basic (next_view o s) a =
         Some (mkAccountInfo (ai_balance (ea_info acct)) (ai_nonce (ea_info acct)) hash code)) ∧
      (account_u256 acct → is_Some (ev_contracts (next_view o s) !! a) →
       contracts s !! a = None ∨ eo_contract_address o ≠ Some a →
       ∀ slot, u256 slot →
         db_slot (next_view o s) a slot = default (db_slot view a slot) (ea_storage acct !! slot))
  end.
Proof.
  intros view Hf Hl. pose proof (next_view_contract _ _ _ _ _ a Hf Hl) as Hc. fold view in Hc.
  pose proof (finish_execution_Ok _ _ _ _ _ Hf) as (ca&Ea&_&_&Eca).
  assert (ev_accounts (next_view o s) !! a = match st !! a with
    | Some acct => Some (Z.min (ai_balance (ea_info acct)) u64_max, ai_nonce (ea_info acct))
    | None => ev_accounts view !! a end) as Hacc.
  { unfold next_view, view. rewrite !view_account by done.
    rewrite merge_accounts_lookup, Ea, lookup_fmap. by destruct (st !! a). }
  assert (ev_contracts view !! a = contracts s !! a) as Hv by (by apply view_contract).
  clearbody view.
  destruct (st !! a) as [acct|] eqn:Est; cbn [mbind option_bind] in Hc.
  - split.
    + intros Hb. unfold basic. rewrite Hacc. simpl. rewrite Z.min_l by done. by do 2 eexists.
    + intros Hu Hk Hor slot Hs. unfold db_slot. rewrite Hc in *. rewrite Hv. clear Hc.
      destruct (created_contract view creator (eo_contract_address o) a acct) as [k|] eqn:Ek.
      * apply created_contract_Some in Ek as [Eo Esk].
        destruct Hor as [Hn|Hn]; [|done]. rewrite Hn. simpl. rewrite Esk.
        destruct (storage_entry view a acct) as [u|] eqn:Ee; simpl.
        -- rewrite (storage_entry_slot _ _ _ _ _ Hu Hs Ee), Hv, Hn. simpl. rewrite lookup_empty.
           destruct (ea_storage acct !! slot) as [v|] eqn:Ev; simpl; [|done].
           apply u256_bytes. by destruct (Hu slot v Ev).
        -- rewrite lookup_empty. by rewrite (storage_entry_None _ _ _ slot Ee).
      * destruct (storage_entry view a acct) as [u|] eqn:Ee; simpl.
        -- destruct (contracts s !! a) as [k|] eqn:Ek2; [|by destruct Hk]. simpl.
           rewrite lookup_union, (storage_entry_slot _ _ _ _ _ Hu Hs Ee), Hv. simpl.
           destruct (ea_storage acct !! slot) as [v|] eqn:Ev; simpl.
           ++ rewrite union_Some_l. simpl. apply u256_bytes. by destruct (Hu slot v Ev).
           ++ by destruct (storage k !! slot_key_bytes slot).
        -- by rewrite (storage_entry_None _ _ _ slot Ee).
  - unfold basic, db_slot. rewrite Hacc, Hc, Hv. done.
Qed.

(** Contracts made by contracts are lost. When a run creates a contract that is
    not the one a deployment names, as a factory does, the chain keeps its balance and
    nonce and drops its code and storage: the next run finds no code at its address and
    zero in every slot. *)
Theorem factory_contract_lost (res : ExecutionResult) (st : EvmState) (s : BlockExecution)
    (creator : option bytes) (o : EvmOutcome) (a : bytes) (acct : EvmAccount) (code : bytes) :
  finish_execution res st (evm_state_view (accounts s) (contracts s)) creator = Ok o →
  length a = 20%nat → st !! a = Some acct → ai_code (ea_info acct) = Some code → code ≠ [] →
  contracts s !! a = None → eo_contract_address o ≠ Some a →
  contracts (merge_evm_outcome o s) !! a = None ∧
  (ai_code <$> basic (next_view o s) a) = Some None ∧
  ∀ slot, db_slot (next_view o s) a slot = 0.
Proof.
  intros Hf Hl Hst Hcode _ Hn Hca. pose proof (next_view_contract _ _ _ _ _ a Hf Hl) as Hc.
  rewrite Hst, Hn in Hc. cbn [mbind option_bind] in Hc.
  assert (ev_contracts (next_view o s) !! a = None) as Hv.
  { rewrite Hc. unfold created_contract. rewrite Hcode. simpl.
    rewrite (bool_decide_eq_false_2 (eo_contract_address o = Some a)) by done.
    destruct creator; simpl; rewrite ?orb_true_r; by destruct (storage_entry _ a acct). }
  split_and!.
  - unfold next_view in Hv. by rewrite view_contract in Hv.
  - unfold basic. rewrite Hv. by destruct (default _ _).
  - intros slot. unfold db_slot. by rewrite Hv.
Qed.

(** A fee of 64 bits or more is cut. The signed maximum fee and priority fee are
    taken modulo [2^64], so the fee charged may be any smaller amount, while a value
    that does not fit becomes the largest one. *)
Theorem raw_fees_truncated (raw : bytes) (en : TxEnvelope) (signer : bytes) :
  decode_2718 raw = Ok en → en_signer en = Some signer →
  ∃ d, decode_raw raw = Ok d ∧ raw_from d = signer ∧
    raw_max_fee_per_gas d = en_max_fee_per_gas en mod 2 ^ 64 ∧
    (0 ≤ en_value en → raw_value d = Z.min (en_value en) u64_max) ∧
    raw_chain_id d = en_chain_id en ∧ raw_tx_hash d = en_tx_hash en.
Proof.
  intros Hd Hs. unfold decode_raw. rewrite Hd. simpl. rewrite Hs. simpl. eexists.
  split; [done|]. simpl. split_and!; try done.
  intros Hv. unfold u64_from_u256_saturating.
  pose proof (Z.div_mod (en_value en) u64_mod ltac:(done)) as E.
  pose proof (Z.mod_pos_bound (en_value en) u64_mod ltac:(done)) as Hb.
  unfold u64_mod, u64_max in *. case_match; bool_to_prop; lia.
Qed.
End evm_theorems.

(** ** A run that calls a factory *)

Definition demo_revm : Revm.
Proof.
  refine {| revm_transact _ _ _ _ := Err "no code"%string; keccak_code c := c |}. done.
Defined.
Definition demo_alloy : Alloy := λ raw,
  Ok (mkEnvelope (Some (take 20 raw)) None (2 ^ 70) [] 21000 (2 ^ 64 + 5) None 0 (Some 1) []).

Section demo.
#[local] Existing Instances demo_sha3 demo_revm demo_alloy.

Definition demo_factory : bytes := replicate 20 x0f.
Definition demo_child : bytes := replicate 20 x0c.
Definition demo_ledger_before : BlockExecution :=
  mkExec {[ demo_factory := account_default ]}
    {[ demo_factory := mkContractState [] [x60]
         {[ slot_key_bytes 2 := value_bytes 40; slot_key_bytes 3 := value_bytes 41 ]} [] ]}
    ∅ registry_new governance_new.
Definition demo_factory_account : EvmAccount :=
  mkEvmAccount (mkAccountInfo 9 2 [] (Some [x60])) {[ 1 := 7; 2 := 8 ]}.
Definition demo_child_account : EvmAccount :=
  mkEvmAccount (mkAccountInfo 5 1 [] (Some [x61])) {[ 0 := 3 ]}.
Definition demo_touched : EvmState :=
  {[ demo_factory := demo_factory_account; demo_child := demo_child_account ]}.
Definition demo_res : ExecutionResult := Success (OutputCall []) [] 30000.
Definition demo_outcome : EvmOutcome :=
  unwrap_or (mkEvmOutcome 0 ∅ ∅ ∅ None [] [] false)
    (finish_execution demo_res demo_touched
       (evm_state_view (accounts demo_ledger_before) (contracts demo_ledger_before)) None).

Lemma demo_outcome_ok :
  finish_execution demo_res demo_touched
    (evm_state_view (accounts demo_ledger_before) (contracts demo_ledger_before)) None =
  Ok demo_outcome.
Proof. apply is_ok_unwrap. vm_compute. exact eq_refl. Qed.

Lemma demo_factory_touched : demo_touched !! demo_factory = Some demo_factory_account.
Proof. vm_compute. exact eq_refl. Qed.

Lemma demo_child_touched : demo_touched !! demo_child = Some demo_child_account.
Proof. vm_compute. exact eq_refl. Qed.

Lemma demo_outcome_call a : eo_contract_address demo_outcome ≠ Some a.
Proof.
  assert (eo_contract_address demo_outcome = None) as -> by (vm_compute; exact eq_refl). done.
Qed.

Lemma demo_child_new : contracts demo_ledger_before !! demo_child = None.
Proof. vm_compute. exact eq_refl. Qed.

Lemma demo_factory_u256 : account_u256 demo_factory_account.
Proof. vm_decide. Qed.

Lemma demo_factory_known : is_Some (ev_contracts (next_view demo_outcome demo_ledger_before) !! demo_factory).
Proof. vm_decide. Qed.

Lemma demo_before :
  db_slot (evm_state_view (accounts demo_ledger_before) (contracts demo_ledger_before))
    demo_factory 3 = 41.
Proof. vm_compute. exact eq_refl. Qed.

(** The loaded slots have their new values, another slot its old one. *)
Lemma evm_state_carries_over_witness :
  db_slot (next_view demo_outcome demo_ledger_before) demo_factory 2 = 8 ∧
  db_slot (next_view demo_outcome demo_ledger_before) demo_factory 3 = 41.
Proof.
  pose proof (evm_state_carries_over demo_res demo_touched demo_ledger_before None demo_outcome
    demo_factory demo_outcome_ok eq_refl) as Hs.
  rewrite demo_factory_touched in Hs.
  pose proof (proj2 Hs demo_factory_u256 demo_factory_known
    (or_intror (demo_outcome_call demo_factory))) as Hslot.
  split; [rewrite (Hslot 2 ltac:(split; [discriminate|exact eq_refl])); exact eq_refl|].
  rewrite (Hslot 3 ltac:(split; [discriminate|exact eq_refl])). exact demo_before.
Defined.

Lemma factory_contract_lost_witness :
  contracts (merge_evm_outcome demo_outcome demo_ledger_before) !! demo_child = None.
Proof.
  exact (proj1 (factory_contract_lost demo_res demo_touched demo_ledger_before None demo_outcome
    demo_child demo_child_account [x61] demo_outcome_ok eq_refl demo_child_touched eq_refl
    ltac:(discriminate) demo_child_new (demo_outcome_call demo_child))).
Defined.

Lemma raw_fees_truncated_witness :
  ∃ d, decode_raw (replicate 30 x01) = Ok d ∧ raw_max_fee_per_gas d = 5 ∧ raw_value d = u64_max.
Proof.
  destruct (raw_fees_truncated (replicate 30 x01)
    (mkEnvelope (Some (replicate 20 x01)) None (2 ^ 70) [] 21000 (2 ^ 64 + 5) None 0 (Some 1) [])
    (replicate 20 x01) eq_refl eq_refl) as (d&Hd&_&Hf&Hv&_).
  exact (ex_intro _ d (conj Hd (conj Hf (Hv ltac:(discriminate))))).
Defined.
End demo.
