(* ===== verification/Wasm.v ===== *)
(** * The WASM machine ([src/vm/mod.rs])

    The analysis and instrumentation of contract code, the functions a contract can
    call, and the run of an entry point, on top of the crates [wasmer] and
    [wasmparser], which are an interface. With it this file implements the interface
    [WasmEngine] that the chain is modelled against. *)
From stdpp Require Import pretty.
From S2P Require Import Prelude Hash Crypto Vm Text.

Definition GAS_STORAGE_READ : Z := 200.
Definition GAS_STORAGE_WRITE : Z := 5000.
Definition GAS_LOG : Z := 375.
Definition GAS_MEMORY_READ_BYTE : Z := 3.
Definition GAS_MEMORY_WRITE_BYTE : Z := 6.
Definition GAS_HOST_CALL_OVERHEAD : Z := 40.
Definition GAS_WASM_DEFAULT_OP : Z := 2.
Definition GAS_WASM_MEMORY_OP : Z := 8.
Definition GAS_WASM_CONTROL_OP : Z := 4.
Definition GAS_WASM_CALL_OP : Z := 12.
Definition GAS_WASM_NUMERIC_OP : Z := 3.
Definition GAS_WASM_LOOP_TICK : Z := 50.

(** ** Operators

    The operators of [wasmparser] that the code names, and one for the others. An
    immediate the code does not look at is opaque. *)
Inductive Operator :=
  | OpBlock (imm : bytes) | OpLoop (imm : bytes) | OpIf (imm : bytes) | OpElse | OpEnd
  | OpBr (imm : bytes) | OpBrIf (imm : bytes) | OpBrTable (imm : bytes) | OpReturn | OpSelect
  | OpTypedSelect (imm : bytes) | OpCall (function_index : Z) | OpCallIndirect (imm : bytes)
  | OpReturnCall (imm : bytes) | OpReturnCallIndirect (imm : bytes) | OpI32Load (imm : bytes)
  | OpI64Load (imm : bytes) | OpF32Load (imm : bytes) | OpF64Load (imm : bytes)
  | OpI32Load8S (imm : bytes) | OpI32Load8U (imm : bytes) | OpI32Load16S (imm : bytes)
  | OpI32Load16U (imm : bytes) | OpI64Load8S (imm : bytes) | OpI64Load8U (imm : bytes)
  | OpI64Load16S (imm : bytes) | OpI64Load16U (imm : bytes) | OpI64Load32S (imm : bytes)
  | OpI64Load32U (imm : bytes) | OpI32Store (imm : bytes) | OpI64Store (imm : bytes)
  | OpF32Store (imm : bytes) | OpF64Store (imm : bytes) | OpI32Store8 (imm : bytes)
  | OpI32Store16 (imm : bytes) | OpI64Store8 (imm : bytes) | OpI64Store16 (imm : bytes)
  | OpI64Store32 (imm : bytes) | OpMemorySize (imm : bytes) | OpMemoryGrow (imm : bytes)
  | OpMemoryCopy (imm : bytes) | OpMemoryFill (imm : bytes) | OpMemoryInit (imm : bytes)
  | OpDataDrop (imm : bytes) | OpI32Const (imm : bytes) | OpI64Const (value : Z)
  | OpF32Const (imm : bytes) | OpF64Const (imm : bytes) | OpI32Eqz | OpI32Eq | OpI32Ne | OpI32LtS
  | OpI32LtU | OpI32GtS | OpI32GtU | OpI32LeS | OpI32LeU | OpI32GeS | OpI32GeU | OpI64Eqz
  | OpI64Eq | OpI64Ne | OpI64LtS | OpI64LtU | OpI64GtS | OpI64GtU | OpI64LeS | OpI64LeU | OpI64GeS
  | OpI64GeU | OpI32Add | OpI32Sub | OpI32Mul | OpI32DivS | OpI32DivU | OpI32RemS | OpI32RemU
  | OpI32And | OpI32Or | OpI32Xor | OpI32Shl | OpI32ShrS | OpI32ShrU | OpI64Add | OpI64Sub
  | OpI64Mul | OpI64DivS | OpI64DivU | OpI64RemS | OpI64RemU | OpI64And | OpI64Or | OpI64Xor
  | OpI64Shl | OpI64ShrS | OpI64ShrU | OpOtherOperator (imm : bytes).

Definition operator_gas_cost (operator : Operator) : Z :=
  match operator with
  | OpBlock _ | OpLoop _ | OpIf _ | OpElse | OpEnd | OpBr _ | OpBrIf _ | OpBrTable _
  | OpReturn | OpSelect | OpTypedSelect _ => GAS_WASM_CONTROL_OP
  | OpCall _ | OpCallIndirect _ | OpReturnCall _ | OpReturnCallIndirect _ => GAS_WASM_CALL_OP
  | OpI32Load _ | OpI64Load _ | OpF32Load _ | OpF64Load _ | OpI32Load8S _ | OpI32Load8U _
  | OpI32Load16S _ | OpI32Load16U _ | OpI64Load8S _ | OpI64Load8U _ | OpI64Load16S _
  | OpI64Load16U _ | OpI64Load32S _ | OpI64Load32U _ | OpI32Store _ | OpI64Store _
  | OpF32Store _ | OpF64Store _ | OpI32Store8 _ | OpI32Store16 _ | OpI64Store8 _
  | OpI64Store16 _ | OpI64Store32 _ | OpMemorySize _ | OpMemoryGrow _ | OpMemoryCopy _
  | OpMemoryFill _ | OpMemoryInit _ | OpDataDrop _ => GAS_WASM_MEMORY_OP
  | OpI32Const _ | OpI64Const _ | OpF32Const _ | OpF64Const _ | OpI32Eqz | OpI32Eq | OpI32Ne
  | OpI32LtS | OpI32LtU | OpI32GtS | OpI32GtU | OpI32LeS | OpI32LeU | OpI32GeS | OpI32GeU
  | OpI64Eqz | OpI64Eq | OpI64Ne | OpI64LtS | OpI64LtU | OpI64GtS | OpI64GtU | OpI64LeS
  | OpI64LeU | OpI64GeS | OpI64GeU | OpI32Add | OpI32Sub | OpI32Mul | OpI32DivS | OpI32DivU
  | OpI32RemS | OpI32RemU | OpI32And | OpI32Or | OpI32Xor | OpI32Shl | OpI32ShrS | OpI32ShrU
  | OpI64Add | OpI64Sub | OpI64Mul | OpI64DivS | OpI64DivU | OpI64RemS | OpI64RemU | OpI64And
  | OpI64Or | OpI64Xor | OpI64Shl | OpI64ShrS | OpI64ShrU => GAS_WASM_NUMERIC_OP
  | OpOtherOperator _ => GAS_WASM_DEFAULT_OP
  end.

Definition is_loop (operator : Operator) : bool :=
  match operator with OpLoop _ => true | _ => false end.

(** [FuelMeteringFunction::feed]: the operators pushed for one that is read. *)
Definition feed (hook_function_index : option Z) (operator : Operator)
    : result string (list Operator) :=
  let metering_cost := operator_gas_cost operator in
  if is_loop operator then
    match hook_function_index with
    | None => Err "contracts with loops must import `consume_gas` or `loop_tick`"
    | Some function_index =>
        Ok [operator; OpI64Const (saturating_add metering_cost GAS_WASM_LOOP_TICK);
            OpCall function_index]
    end
  else
    match hook_function_index with
    | Some function_index =>
        if 0 <? metering_cost
        then Ok [OpI64Const metering_cost; OpCall function_index; operator]
        else Ok [operator]
    | None => Ok [operator]
    end.

(** ** The crates

    Parsing yields payloads one by one, [None] for an error; the operators of a body
    and the imports of a section likewise. *)
Record Import := mkImport { im_module : string; im_name : string; im_is_func : bool }.
Inductive Payload :=
  | ImportSection (imports : list (option Import))
  | CodeSectionEntry (operators : option (list (option Operator)))
  | OtherPayload.

Inductive WasmValue :=
  | I32 (v : Z) | I64 (v : Z) | F32 (bits : Z) | F64 (bits : Z) | V128 (v : Z) | WasmRef.
Inductive WasmType := TyI32 | TyI64 | TyOther.

(** A call of a contract to a function of the host. *)
Inductive HostCall :=
  | StorageGet (key : Z)
  | StorageSet (key value : Z)
  | EmitLog (topic data : Z)
  | InputWord
  | ConsumeGas (amount : Z)
  | LoopTick (amount : Z)
  | StorageReadBytes (key_ptr key_len dst_ptr dst_capacity : Z)
  | StorageWriteBytes (key_ptr key_len value_ptr value_len : Z)
  | EmitLogBytes (topic_ptr topic_len data_ptr data_len : Z)
  | InputLen
  | InputRead (offset dst_ptr len : Z).

(** What a contract does from the point of view of the host: it ends, traps, or calls
    the host with the memory it has at that moment and goes on from the answer and
    the memory the host leaves. *)
Inductive Guest :=
  | GReturn (results : list WasmValue)
  | GTrap (message : string)
  | GCall (call : HostCall) (mem : bytes) (k : Z → bytes → Guest).

(** A compiled module: its exports, the run of its start function, and of an export
    with the arguments given. *)
Record Artifact := mkArtifact {
  ar_has_memory : bool;
  ar_start : result string Guest;
  ar_exports : string → option (list WasmType);
  ar_run : string → list WasmValue → Guest;
}.

Class Wasmer := {
  wat2wasm : bytes → option bytes;
  parse_all : bytes → list (option Payload);
  wasmer_module : option (Operator → result string (list Operator)) → bytes → result string Artifact;
  memory_error_text : string;
}.

Definition METERING_MESSAGE : string := "contracts with loops must import".

(** [str::contains]. *)
Fixpoint contains (pat s : string) : bool :=
  is_some (strip_prefix pat s) ||
  match s with EmptyString => false | String _ s => contains pat s end.

(** ** Bytes and integers *)

Definition i64_to_bytes (value : Z) : bytes := to_le_bytes 8 value.
Definition as_i64 (v : Z) : Z := (v + 2 ^ 63) mod 2 ^ 64 - 2 ^ 63.
Definition as_i32 (v : Z) : Z := (v + 2 ^ 31) mod 2 ^ 32 - 2 ^ 31.
Definition bytes_to_i64 (b : bytes) : option Z :=
  if (length b =? 8)%nat then Some (as_i64 (from_le_bytes b)) else None.

(** ** The execution context *)

(** [VmExecutionContext]; [memory] is [None] until the instance is there, or when
    the contract exports none. *)
Record VmExecutionContext := mkContext {
  cx_contract_id : bytes;
  cx_storage : gmap bytes bytes;
  cx_logs : list LogEntry;
  cx_caller : bytes;
  cx_input : Z;
  cx_input_data : bytes;
  gas_remaining : Z;
  cx_memory : option bytes;
}.

Definition set_gas (g : Z) (c : VmExecutionContext) : VmExecutionContext :=
  mkContext (cx_contract_id c) (cx_storage c) (cx_logs c) (cx_caller c) (cx_input c)
    (cx_input_data c) g (cx_memory c).
Definition set_memory (m : option bytes) (c : VmExecutionContext) : VmExecutionContext :=
  mkContext (cx_contract_id c) (cx_storage c) (cx_logs c) (cx_caller c) (cx_input c)
    (cx_input_data c) (gas_remaining c) m.
Definition put_storage (key value : bytes) (c : VmExecutionContext) : VmExecutionContext :=
  mkContext (cx_contract_id c) (<[key := value]> (cx_storage c)) (cx_logs c) (cx_caller c)
    (cx_input c) (cx_input_data c) (gas_remaining c) (cx_memory c).
Definition push_log (topic data : bytes) (c : VmExecutionContext) : VmExecutionContext :=
  mkContext (cx_contract_id c) (cx_storage c)
    (cx_logs c ++ [mkLogEntry (cx_contract_id c) [topic] data]) (cx_caller c)
    (cx_input c) (cx_input_data c) (gas_remaining c) (cx_memory c).

Abbreviation host := (stM VmExecutionContext string).

Definition consume_gas (ctx : VmExecutionContext) (amount : Z) : result VmError VmExecutionContext :=
  if gas_remaining ctx <? amount then Err (OutOfGas (gas_remaining ctx) amount)
  else Ok (set_gas (gas_remaining ctx - amount) ctx).

Definition charge_host_gas (amount : Z) : host () := λ ctx,
  match consume_gas ctx amount with
  | Ok ctx => (Ok (), ctx)
  | Err _ => (Err ("gas limit exceeded: limit=" +:+ pretty (gas_remaining ctx) +:+ ", needed=" +:+
                   pretty amount), ctx)
  end.

(** ** Functions of the host *)

Section vm.
Context `{Sha3} `{Wasmer}.

Definition memory_from_env : host bytes :=
  ctx ← st_get; st_lift (ok_or "contract memory export `memory` is required" (cx_memory ctx)).

Definition read_memory_bytes (ptr len : Z) : host bytes :=
  _ ← charge_host_gas (saturating_add GAS_HOST_CALL_OVERHEAD (saturating_mul len GAS_MEMORY_READ_BYTE));
  mem ← memory_from_env;
  if ptr + len <=? Z.of_nat (length mem) then mret (take (Z.to_nat len) (drop (Z.to_nat ptr) mem))
  else st_throw ("memory access failed: " +:+ memory_error_text).

Definition write_memory_bytes (ptr : Z) (data : bytes) : host () :=
  let len := Z.of_nat (length data) in
  _ ← charge_host_gas (saturating_add GAS_HOST_CALL_OVERHEAD (saturating_mul len GAS_MEMORY_WRITE_BYTE));
  mem ← memory_from_env;
  if ptr + len <=? Z.of_nat (length mem)
  then st_modify (set_memory (Some (take (Z.to_nat ptr) mem ++ data ++
                                    drop (Z.to_nat ptr + length data) mem)))
  else st_throw ("memory access failed: " +:+ memory_error_text).

Definition charge_call (cost : Z) : host () :=
  charge_host_gas (saturating_add GAS_HOST_CALL_OVERHEAD cost).

(** The closures of [build_imports]. *)
Definition host_call (call : HostCall) : host Z :=
  match call with
  | StorageGet key =>
      _ ← charge_call GAS_STORAGE_READ;
      ctx ← st_get;
      mret (default 0 (value ← cx_storage ctx !! i64_to_bytes key; bytes_to_i64 value))
  | StorageSet key value =>
      _ ← charge_call GAS_STORAGE_WRITE;
      _ ← st_modify (put_storage (i64_to_bytes key) (i64_to_bytes value));
      mret 0
  | EmitLog topic data =>
      _ ← charge_call GAS_LOG;
      _ ← st_modify (push_log (i64_to_bytes topic) (i64_to_bytes data));
      mret 0
  | InputWord =>
      _ ← charge_call GAS_PER_BYTE;
      ctx ← st_get;
      mret (cx_input ctx)
  | ConsumeGas amount | LoopTick amount =>
      _ ← charge_host_gas (Z.max amount 0);
      mret 0
  | StorageReadBytes key_ptr key_len dst_ptr dst_capacity =>
      key ← read_memory_bytes (Z.max key_ptr 0) (Z.max key_len 0);
      ctx ← st_get;
      let value := default [] (cx_storage ctx !! key) in
      let copy_len := Nat.min (length value) (Z.to_nat (Z.max dst_capacity 0)) in
      _ ← charge_host_gas (saturating_add GAS_STORAGE_READ
            (saturating_mul (Z.of_nat (length value)) GAS_MEMORY_WRITE_BYTE));
      _ ← write_memory_bytes (Z.max dst_ptr 0) (take copy_len value);
      mret (as_i32 (Z.of_nat copy_len))
  | StorageWriteBytes key_ptr key_len value_ptr value_len =>
      key ← read_memory_bytes (Z.max key_ptr 0) (Z.max key_len 0);
      value ← read_memory_bytes (Z.max value_ptr 0) (Z.max value_len 0);
      _ ← charge_host_gas (saturating_add GAS_STORAGE_WRITE
            (saturating_mul (Z.of_nat (length value)) GAS_PER_BYTE));
      _ ← st_modify (put_storage key value);
      mret 1
  | EmitLogBytes topic_ptr topic_len data_ptr data_len =>
      topic ← read_memory_bytes (Z.max topic_ptr 0) (Z.max topic_len 0);
      data ← read_memory_bytes (Z.max data_ptr 0) (Z.max data_len 0);
      _ ← charge_host_gas (saturating_add GAS_LOG
            (saturating_mul (Z.of_nat (length topic + length data)) GAS_PER_BYTE));
      _ ← st_modify (push_log topic data);
      mret 1
  | InputLen =>
      _ ← charge_call GAS_PER_BYTE;
      ctx ← st_get;
      mret (as_i32 (Z.of_nat (length (cx_input_data ctx))))
  | InputRead offset dst_ptr len =>
      ctx ← st_get;
      let offset := Z.to_nat (Z.max offset 0) in
      let data := cx_input_data ctx in
      if (length data <=? offset)%nat then mret 0
      else
        let fin := Nat.min (offset + Z.to_nat (Z.max len 0)) (length data) in
        let slice := take (fin - offset) (drop offset data) in
        _ ← write_memory_bytes (Z.max dst_ptr 0) slice;
        mret (as_i32 (Z.of_nat (length slice)))
  end.

(** A run of the guest; [exported] tells whether the host sees its memory. *)
Fixpoint run_guest (exported : bool) (g : Guest) : host (list WasmValue) :=
  match g with
  | GReturn results => mret results
  | GTrap message => st_throw message
  | GCall call mem k =>
      _ ← st_modify (set_memory (if exported then Some mem else None));
      reply ← host_call call;
      ctx ← st_get;
      run_guest exported (k reply (default mem (cx_memory ctx)))
  end.

(** ** Analysis and compilation *)

(** [estimate_wasm_gas]. *)
Fixpoint sum_operators (ops : list (option Operator)) (total : Z) : result VmError Z :=
  match ops with
  | [] => Ok total
  | None :: _ => Err InvalidWasm
  | Some op :: ops => sum_operators ops (saturating_add total (operator_gas_cost op))
  end.
Fixpoint estimate_payloads (l : list (option Payload)) (total : Z) : result VmError Z :=
  match l with
  | [] => Ok total
  | None :: _ => Err InvalidWasm
  | Some (CodeSectionEntry body) :: l =>
      ops ← ok_or InvalidWasm body;
      total ← sum_operators ops total;
      estimate_payloads l total
  | Some _ :: l => estimate_payloads l total
  end.
Definition is_text (code : bytes) : bool := starts_with (bstr "(module") code.
Definition estimate_wasm_gas (code : bytes) : result VmError Z :=
  if is_text code then Ok (saturating_mul (Z.of_nat (length code)) GAS_WASM_DEFAULT_OP)
  else estimate_payloads (parse_all code) 0.

Definition normalize_module_bytes (code : bytes) : result VmError bytes :=
  if is_text code then ok_or InvalidWasm (wat2wasm code) else Ok code.

(** [fuel_hook_function_index]: the loop over the imports ends early at [loop_tick],
    [inl]; otherwise it goes on with the next index and the fallback, [inr]. *)
Fixpoint hook_imports (l : list (option Import)) (index : Z) (fallback : option Z)
    : result VmError (Z + Z * option Z) :=
  match l with
  | [] => Ok (inr (index, fallback))
  | None :: _ => Err InvalidWasm
  | Some import :: l =>
      if im_is_func import then
        let curs3d name := bool_decide (im_module import = "curs3d" ∧ im_name import = name) in
        if curs3d "loop_tick" then Ok (inl index)
        else hook_imports l (Z.min (index + 1) 4294967295)
               (if curs3d "consume_gas" then Some index else fallback)
      else hook_imports l index fallback
  end.
Fixpoint hook_payloads (l : list (option Payload)) (index : Z) (fallback : option Z)
    : result VmError (option Z) :=
  match l with
  | [] => Ok fallback
  | None :: _ => Err InvalidWasm
  | Some (ImportSection imports) :: l =>
      found ← hook_imports imports index fallback;
      match found with
      | inl index => Ok (Some index)
      | inr (index, fallback) => hook_payloads l index fallback
      end
  | Some _ :: l => hook_payloads l index fallback
  end.
Definition fuel_hook_function_index (code : bytes) : result VmError (option Z) :=
  hook_payloads (parse_all code) 0 None.

Fixpoint loops_in_operators (ops : list (option Operator)) : result VmError bool :=
  match ops with
  | [] => Ok false
  | None :: _ => Err InvalidWasm
  | Some op :: ops => if is_loop op then Ok true else loops_in_operators ops
  end.
Fixpoint loops_in_payloads (l : list (option Payload)) : result VmError bool :=
  match l with
  | [] => Ok false
  | None :: _ => Err InvalidWasm
  | Some (CodeSectionEntry body) :: l =>
      ops ← ok_or InvalidWasm body;
      found ← loops_in_operators ops;
      if found : bool then Ok true else loops_in_payloads l
  | Some _ :: l => loops_in_payloads l
  end.
Definition module_contains_loops (code : bytes) : result VmError bool :=
  loops_in_payloads (parse_all code).

(** [compile_module]: the module, its bytes, and whether it is metered as it runs. *)
Definition compile (code : bytes) : result VmError (Artifact * bytes * bool) :=
  wasm_bytes ← normalize_module_bytes code;
  hook ← fuel_hook_function_index wasm_bytes;
  unmetered ← (match hook with None => module_contains_loops wasm_bytes | Some _ => Ok false end);
  if unmetered : bool then Err UnmeteredLoop
  else
    artifact ← map_err (λ message, if contains METERING_MESSAGE message then UnmeteredLoop
                                   else InvalidWasm)
      (wasmer_module (match hook with Some _ => Some (feed hook) | None => None end) wasm_bytes);
    Ok (artifact, wasm_bytes, is_some hook).

(** ** [Vm::call] *)

Definition value_bytes_of (v : WasmValue) : bytes :=
  match v with
  | I32 v | F32 v => to_le_bytes 4 v
  | I64 v | F64 v => to_le_bytes 8 v
  | V128 v => to_le_bytes 16 v
  | WasmRef => []
  end.

(** The entry point and its arguments. *)
Definition entrypoint (artifact : Artifact) (input : Z) : result VmError Guest :=
  '(name, params) ← ok_or MissingEntrypoint
    (match ar_exports artifact "curs3d_call" with
     | Some params => Some ("curs3d_call"%string, params)
     | None => (λ params, ("call"%string, params)) <$> ar_exports artifact "call"
     end);
  match params with
  | [] => Ok (ar_run artifact name [])
  | [TyI32] => Ok (ar_run artifact name [I32 (as_i32 input)])
  | [TyI64] => Ok (ar_run artifact name [I64 input])
  | _ => Err UnsupportedEntrypoint
  end.

(** The run: the start function, which sees no memory, then the entry point. *)
Definition run_contract (artifact : Artifact) (ctx : VmExecutionContext)
    : result VmError (list WasmValue * VmExecutionContext) :=
  start ← map_err Execution (ar_start artifact);
  let '(r, ctx) := run_guest false start ctx in
  _ ← map_err Execution r;
  guest ← entrypoint artifact (cx_input ctx);
  let '(r, ctx) := run_guest (ar_has_memory artifact) guest ctx in
  results ← map_err Execution r;
  Ok (results, ctx).

Definition intrinsic_call_gas (function_data : bytes) : result VmError Z :=
  payload_gas ← ok_or VmGasOverflow (checked_mul (Z.of_nat (length function_data)) GAS_PER_BYTE);
  ok_or VmGasOverflow (g ← checked_add GAS_BASE_TX GAS_CALL; checked_add g payload_gas).

Definition start_context (contract : ContractState) (contract_address function_data caller : bytes)
    (gas : Z) : VmExecutionContext :=
  mkContext contract_address (storage contract) [] caller
    (default 0 (if (length function_data <? 8)%nat then None else bytes_to_i64 (take 8 function_data)))
    function_data gas None.

Definition vm_call (contract : ContractState) (contract_address function_data caller : bytes)
    (value gas_limit : Z) : result VmError (gmap bytes bytes * Receipt) :=
  static_execution_gas ← estimate_wasm_gas (code contract);
  '(artifact, _, runtime_metered) ← compile (code contract);
  intrinsic_gas ← intrinsic_call_gas function_data;
  gas_needed ← (if runtime_metered : bool then Ok intrinsic_gas
                else ok_or VmGasOverflow (checked_add intrinsic_gas static_execution_gas));
  if gas_limit <? gas_needed then Err (OutOfGas gas_limit gas_needed)
  else
    '(results, ctx) ← run_contract artifact (start_context contract contract_address function_data caller
                        (saturating_sub gas_limit gas_needed));
    let logs :=
      match cx_logs ctx with
      | [] => [mkLogEntry (cx_contract_id ctx) [sha3_hash (bstr "curs3d_call")]
                 (cx_caller ctx ++ function_data)]
      | logs => logs
      end in
    Ok (cx_storage ctx,
        mkReceipt [] true (saturating_sub gas_limit (gas_remaining ctx)) 0 0 0 0 logs
          (results ≫= value_bytes_of) None).
End vm.
