(* ===== verification/WasmSafety.v ===== *)
(** * What the WASM machine guarantees

    Theorems about [Wasm]: a contract pays for the state it leaves and never uses more
    than its gas limit; code that is not metered has no loops; the words a contract
    stores are read back. And the engine of the chain, built on the machine. *)
From S2P Require Import Prelude Hash Crypto Vm Text Wasm.

(** ** Host functions with pre- and postconditions

    [E] holds where the function stops with an error. *)
Definition hoare {A} (P : VmExecutionContext → Prop) (m : host A)
    (Q : A → VmExecutionContext → Prop) (E : VmExecutionContext → Prop) : Prop :=
  ∀ ctx, P ctx → match m ctx with (Ok a, c) => Q a c | (Err _, c) => E c end.

Lemma hoare_bind {A B} P (m : host A) (f : A → host B) R Q E :
  hoare P m R E → (∀ a, hoare (R a) (f a) Q E) → hoare P (m ≫= f) Q E.
Proof.
  intros Hm Hf ctx HP. specialize (Hm ctx HP). unfold mbind, stM_bind.
  destruct (m ctx) as [[a|e] c]; [by apply Hf|done].
Qed.

Lemma hoare_weaken {A} (P P' : VmExecutionContext → Prop) (m : host A) (Q : A → _ → Prop)
    (Q' : A → VmExecutionContext → Prop) E :
  hoare P m Q E → (∀ c, P' c → P c) → (∀ a c, Q a c → Q' a c) → hoare P' m Q' E.
Proof.
  intros Hm HP HQ ctx Hc. specialize (Hm ctx (HP ctx Hc)). destruct (m ctx) as [[a|e] c]; auto.
Qed.

Lemma hoare_ret {A} (a : A) (P E : VmExecutionContext → Prop) : hoare P (mret a) (λ _, P) E.
Proof. by intros ctx HP. Qed.

Lemma hoare_get P E : hoare P st_get (λ x c, x = c ∧ P c) E.
Proof. by intros ctx HP. Qed.

Section spending.
Context `{Sha3} `{Wasmer} (c0 : VmExecutionContext).

(** At least [n] units of gas were spent since [c0], and nothing was stored. *)
Definition spent (n : Z) (c : VmExecutionContext) : Prop :=
  cx_storage c = cx_storage c0 ∧ cx_logs c = cx_logs c0 ∧
  0 ≤ gas_remaining c ∧ gas_remaining c + n ≤ gas_remaining c0.

(** What was stored and logged since [c0] is paid for. *)
Definition paid (c : VmExecutionContext) : Prop :=
  0 ≤ gas_remaining c ≤ gas_remaining c0 ∧
  GAS_STORAGE_WRITE * (Z.of_nat (size (cx_storage c)) - Z.of_nat (size (cx_storage c0))) +
  GAS_LOG * (Z.of_nat (length (cx_logs c)) - Z.of_nat (length (cx_logs c0))) ≤
  gas_remaining c0 - gas_remaining c.

Lemma spent_paid n c : 0 ≤ n → spent n c → paid c.
Proof. intros Hn (Es&El&Hg&Hs). unfold paid. rewrite Es, El. lia. Qed.

Lemma hoare_charge n a : 0 ≤ n → 0 ≤ a → hoare (spent n) (charge_host_gas a) (λ _, spent (n + a)) paid.
Proof.
  intros Hn Ha ctx Hc. unfold charge_host_gas, consume_gas.
  destruct (gas_remaining ctx <? a) eqn:E; [exact (spent_paid n ctx Hn Hc)|].
  apply Z.ltb_ge in E. destruct Hc as (Es&El&Hg&Hs). unfold spent. simpl. split_and!; try done; lia.
Qed.

Lemma saturating_nonneg x : 0 ≤ x → 0 ≤ saturating_add GAS_HOST_CALL_OVERHEAD x.
Proof. unfold saturating_add, GAS_HOST_CALL_OVERHEAD, u64_max. lia. Qed.

Lemma saturating_mul_nonneg x y : 0 ≤ x → 0 ≤ y → 0 ≤ saturating_mul x y.
Proof. unfold saturating_mul, u64_max. nia. Qed.

Lemma hoare_memory n : 0 ≤ n → hoare (spent n) memory_from_env (λ _, spent n) paid.
Proof.
  intros Hn ctx Hc. unfold memory_from_env, st_get, st_lift, mbind, stM_bind.
  destruct (cx_memory ctx); simpl; [done|by eapply spent_paid].
Qed.

Lemma hoare_throw {A} n e (Q : A → _ → Prop) : 0 ≤ n → hoare (spent n) (st_throw e) Q paid.
Proof. intros Hn ctx Hc. exact (spent_paid n ctx Hn Hc). Qed.

Lemma spent_le n m c : m ≤ n → spent n c → spent m c.
Proof. intros Hm (?&?&?&?). unfold spent. split_and!; try done. lia. Qed.

Lemma hoare_spent_le {A} n m (p : host A) Q : m ≤ n → hoare (spent m) p Q paid → hoare (spent n) p Q paid.
Proof. intros Hm Hp. eapply hoare_weaken; [exact Hp|by intros c; apply spent_le|done]. Qed.

Lemma hoare_read n ptr len :
  0 ≤ n → 0 ≤ len → hoare (spent n) (read_memory_bytes ptr len) (λ _, spent n) paid.
Proof.
  intros Hn Hl. unfold read_memory_bytes.
  set (a := saturating_add _ _).
  assert (0 ≤ a) as Ha by (apply saturating_nonneg, saturating_mul_nonneg; [done|by vm_compute]).
  eapply hoare_bind; [by apply hoare_charge|]. intros [].
  eapply hoare_bind; [apply hoare_memory; lia|]. intros mem.
  apply (hoare_spent_le _ n); [lia|]. case_match; [by intros ctx Hc|by apply hoare_throw].
Qed.

Lemma hoare_write n ptr data :
  0 ≤ n → hoare (spent n) (write_memory_bytes ptr data) (λ _, spent n) paid.
Proof.
  intros Hn. unfold write_memory_bytes. cbv zeta. set (a := saturating_add _ _).
  assert (0 ≤ a) as Ha by (apply saturating_nonneg, saturating_mul_nonneg; [lia|by vm_compute]).
  eapply hoare_bind; [by apply hoare_charge|]. intros [].
  eapply hoare_bind; [apply hoare_memory; lia|]. intros mem.
  apply (hoare_spent_le _ n); [lia|]. case_match; [|by apply hoare_throw].
  intros ctx (?&?&?&?). unfold spent. done.
Qed.

(** The two effects that must be paid for. *)
Lemma hoare_store n key value :
  GAS_STORAGE_WRITE ≤ n → hoare (spent n) (st_modify (put_storage key value)) (λ _, paid) paid.
Proof.
  intros Hn ctx (Es&El&Hg&Hs). simpl. unfold paid. simpl. rewrite Es, El.
  assert (size (<[key:=value]> (cx_storage c0)) ≤ S (size (cx_storage c0)))%nat.
  { rewrite map_size_insert. destruct (cx_storage c0 !! key); unfold id; lia. }
  unfold GAS_STORAGE_WRITE, GAS_LOG in *. lia.
Qed.

Lemma hoare_log n topic data :
  GAS_LOG ≤ n → hoare (spent n) (st_modify (push_log topic data)) (λ _, paid) paid.
Proof.
  intros Hn ctx (Es&El&Hg&Hs). simpl. unfold paid. simpl. rewrite Es, El, length_app. simpl.
  unfold GAS_STORAGE_WRITE, GAS_LOG in *. lia.
Qed.

(** The charge of a function with a fixed cost. *)
Lemma hoare_charge_call n a :
  0 ≤ n → 0 ≤ a ≤ 1000000 → hoare (spent n) (charge_call a) (λ _, spent (n + a)) paid.
Proof.
  intros Hn Ha. assert (a ≤ saturating_add GAS_HOST_CALL_OVERHEAD a) as Hle.
  { unfold saturating_add, GAS_HOST_CALL_OVERHEAD, u64_max. lia. }
  eapply hoare_weaken; [apply hoare_charge; [exact Hn|lia]|by intros c|].
  intros [] c. apply spent_le. lia.
Qed.

Lemma priced_nonneg a x y : 0 ≤ a → 0 ≤ x → 0 ≤ y → 0 ≤ saturating_add a (saturating_mul x y).
Proof.
  intros Ha Hx Hy. apply (saturating_mul_nonneg _ _ Hx) in Hy.
  unfold saturating_add, u64_max. lia.
Qed.

Lemma hoare_final n (a : Z) : 0 ≤ n → hoare (spent n) (mret a) (λ _, paid) paid.
Proof. intros Hn ctx Hc. by eapply spent_paid. Qed.

(** A charge of at least [GAS_STORAGE_WRITE] or [GAS_LOG] with a part per byte. *)
Lemma hoare_charge_bytes n fixed x :
  0 ≤ n → 0 ≤ fixed ≤ 1000000 → 0 ≤ x →
  hoare (spent n) (charge_host_gas (saturating_add fixed (saturating_mul x GAS_PER_BYTE)))
    (λ _, spent (n + fixed)) paid.
Proof.
  intros Hn Hf Hx.
  assert (0 ≤ saturating_mul x GAS_PER_BYTE) by (apply saturating_mul_nonneg; [done|by vm_compute]).
  assert (fixed ≤ saturating_add fixed (saturating_mul x GAS_PER_BYTE))
    by (unfold saturating_add, u64_max; lia).
  eapply hoare_weaken; [apply hoare_charge; [exact Hn|lia]|by intros c|].
  intros [] c. apply spent_le. lia.
Qed.

(** Arithmetic on the constants of the gas schedule. *)
Ltac num := solve [lia | repeat split; by vm_compute].

Lemma host_call_pays call : 0 ≤ gas_remaining c0 → hoare (λ c, c = c0) (host_call call) (λ _, paid) paid.
Proof.
  intros Hg. assert (∀ c, c = c0 → spent 0 c) as Hstart by (intros ? ->; unfold spent; split_and!; try done; lia).
  eapply hoare_weaken; [|exact Hstart|intros a c Hc; exact Hc]. destruct call; cbn [host_call].
  - eapply hoare_bind; [apply hoare_charge_call; num|]. intros [].
    eapply hoare_bind; [apply hoare_get|]. intros x ctx [_ Hc]. eapply spent_paid, Hc. num.
  - eapply hoare_bind; [apply hoare_charge_call; num|]. intros [].
    eapply hoare_bind; [apply hoare_store; num|]. intros []. by intros ctx Hc.
  - eapply hoare_bind; [apply hoare_charge_call; num|]. intros [].
    eapply hoare_bind; [apply hoare_log; num|]. intros []. by intros ctx Hc.
  - eapply hoare_bind; [apply hoare_charge_call; num|]. intros [].
    eapply hoare_bind; [apply hoare_get|]. intros x ctx [_ Hc]. eapply spent_paid, Hc. num.
  - eapply hoare_bind; [apply hoare_charge; num|]. intros []. apply hoare_final. lia.
  - eapply hoare_bind; [apply hoare_charge; num|]. intros []. apply hoare_final. lia.
  - eapply hoare_bind; [apply hoare_read; lia|]. intros key.
    eapply hoare_bind; [apply hoare_get|]. intros x ctx [_ Hc]. revert ctx Hc.
    eapply hoare_bind; [apply hoare_charge; [lia|apply priced_nonneg; num]|].
    intros []. eapply hoare_bind; [apply hoare_write|].
    2: { intros []. apply hoare_final. apply Z.add_nonneg_nonneg; [lia|apply priced_nonneg; num]. }
    apply Z.add_nonneg_nonneg; [lia|apply priced_nonneg; num].
  - eapply hoare_bind; [apply hoare_read; lia|]. intros key.
    eapply hoare_bind; [apply hoare_read; lia|]. intros value.
    eapply hoare_bind; [apply hoare_charge_bytes; num|]. intros [].
    eapply hoare_bind; [apply hoare_store; num|]. intros []. by intros ctx Hc.
  - eapply hoare_bind; [apply hoare_read; lia|]. intros topic.
    eapply hoare_bind; [apply hoare_read; lia|]. intros data.
    eapply hoare_bind; [apply hoare_charge_bytes; num|]. intros [].
    eapply hoare_bind; [apply hoare_log; num|]. intros []. by intros ctx Hc.
  - eapply hoare_bind; [apply hoare_charge_call; num|]. intros [].
    eapply hoare_bind; [apply hoare_get|]. intros x ctx [_ Hc]. eapply spent_paid, Hc. num.
  - eapply hoare_bind; [apply hoare_get|]. intros x ctx [_ Hc]. revert ctx Hc. cbv zeta.
    case_match; [by apply hoare_final|].
    eapply hoare_bind; [by apply hoare_write|]. intros []. by apply hoare_final.
Qed.
End spending.

(** ** Whole runs *)
Section runs.
Context `{Sha3} `{Wasmer}.

Lemma paid_refl c : 0 ≤ gas_remaining c → paid c c.
Proof. intros Hg. unfold paid. lia. Qed.

Lemma paid_trans c0 c1 c2 : paid c0 c1 → paid c1 c2 → paid c0 c2.
Proof. intros [? ?] [? ?]. unfold paid. lia. Qed.

Lemma paid_set_memory c m : 0 ≤ gas_remaining c → paid c (set_memory m c).
Proof. intros Hg. unfold paid. simpl. lia. Qed.

Lemma hoare_after {A} c0 (m : host A) :
  (∀ c, 0 ≤ gas_remaining c → hoare (λ x, x = c) m (λ _, paid c) (paid c)) →
  hoare (paid c0) m (λ _, paid c0) (paid c0).
Proof.
  intros Hm c Hc. specialize (Hm c (proj1 (proj1 Hc)) c eq_refl).
  destruct (m c) as [[a|e] c']; eapply paid_trans; eauto.
Qed.

Lemma run_guest_pays exported g c0 :
  hoare (paid c0) (run_guest exported g) (λ _, paid c0) (paid c0).
Proof.
  revert c0. induction g as [results|message|call mem k IH]; intros c0; cbn [run_guest].
  - by intros c Hc.
  - by intros c Hc.
  - eapply hoare_bind; [|intros []].
    { apply hoare_after. intros c Hg x ->. by apply paid_set_memory. }
    eapply hoare_bind; [apply hoare_after; intros c; apply host_call_pays|]. intros reply.
    eapply hoare_bind; [apply hoare_get|]. intros x c [_ Hc]. by apply IH.
Qed.

Lemma run_guest_paid exported g c r c' :
  run_guest exported g c = (r, c') → 0 ≤ gas_remaining c → paid c c'.
Proof.
  intros Hr Hg. pose proof (run_guest_pays exported g c c (paid_refl c Hg)) as Hp.
  rewrite Hr in Hp. by destruct r.
Qed.

Lemma run_contract_paid artifact c results c' :
  run_contract artifact c = Ok (results, c') → 0 ≤ gas_remaining c → paid c c'.
Proof.
  unfold run_contract. intros He Hg.
  apply result_bind_Ok in He as (start&_&He).
  destruct (run_guest false start c) as [r c1] eqn:E1.
  apply result_bind_Ok in He as (?&_&He). apply result_bind_Ok in He as (guest&_&He).
  destruct (run_guest _ guest c1) as [r2 c2] eqn:E2.
  apply result_bind_Ok in He as (?&_&He). injection He as _ <-.
  pose proof (run_guest_paid _ _ _ _ _ E1 Hg) as P1.
  eapply paid_trans; [exact P1|]. eapply run_guest_paid; [exact E2|exact (proj1 (proj1 P1))].
Qed.

Lemma operator_gas_cost_pos op : 0 < operator_gas_cost op.
Proof. by destruct op. Qed.

Lemma sum_operators_mono ops total g : 0 ≤ total → sum_operators ops total = Ok g → 0 ≤ g.
Proof.
  revert total. induction ops as [|[op|] ops IH]; intros total Ht; simpl; [by intros [= <-]| |done].
  apply IH. pose proof (operator_gas_cost_pos op). unfold saturating_add, u64_max. lia.
Qed.

Lemma estimate_payloads_mono l total g : 0 ≤ total → estimate_payloads l total = Ok g → 0 ≤ g.
Proof.
  revert total. induction l as [|[p|] l IH]; intros total Ht; simpl; [by intros [= <-]| |done].
  destruct p; try by apply IH. intros Hg.
  apply result_bind_Ok in Hg as (ops&_&Hg). apply result_bind_Ok in Hg as (t&Ht'&Hg).
  eapply IH; [|exact Hg]. by eapply sum_operators_mono.
Qed.

Lemma estimate_wasm_gas_nonneg code g : estimate_wasm_gas code = Ok g → 0 ≤ g.
Proof.
  unfold estimate_wasm_gas. destruct (is_text code); [intros [= <-]|by apply estimate_payloads_mono].
  apply saturating_mul_nonneg; [lia|by vm_compute].
Qed.

Lemma intrinsic_call_gas_value data g :
  intrinsic_call_gas data = Ok g → g = GAS_BASE_TX + GAS_CALL + GAS_PER_BYTE * Z.of_nat (length data).
Proof.
  unfold intrinsic_call_gas, checked_mul, checked_add. simpl.
  intros Hg. apply result_bind_Ok in Hg as (p&Hp&Hg). revert Hp Hg.
  repeat (case_match; simpl; try done). intros [= <-] [= <-]. unfold GAS_PER_BYTE. lia.
Qed.

(** The gas a call needs before it starts. *)
Definition call_gas_needed (metered : bool) (static : Z) (data : bytes) : Z :=
  GAS_BASE_TX + GAS_CALL + GAS_PER_BYTE * Z.of_nat (length data) + (if metered then 0 else static).

Lemma vm_call_inv contract addr data caller value gas_limit storage' receipt :
  vm_call contract addr data caller value gas_limit = Ok (storage', receipt) →
  ∃ static artifact bytes metered results ctx,
    estimate_wasm_gas (code contract) = Ok static ∧
    compile (code contract) = Ok (artifact, bytes, metered) ∧
    call_gas_needed metered static data ≤ gas_limit ∧
    run_contract artifact (start_context contract addr data caller
      (gas_limit - call_gas_needed metered static data)) = Ok (results, ctx) ∧
    storage' = cx_storage ctx ∧ rc_success receipt = true ∧
    rc_gas_used receipt = saturating_sub gas_limit (gas_remaining ctx) ∧
    (length (rc_logs receipt) ≤ Nat.max 1 (length (cx_logs ctx)))%nat.
Proof.
  unfold vm_call. intros Hv.
  apply result_bind_Ok in Hv as (static&Hs&Hv). apply result_bind_Ok in Hv as ([[artifact bytes] metered]&Hc&Hv).
  apply result_bind_Ok in Hv as (intrinsic&Hi&Hv). apply result_bind_Ok in Hv as (needed&Hn&Hv).
  apply intrinsic_call_gas_value in Hi as ->.
  assert (needed = call_gas_needed metered static data) as ->.
  { unfold call_gas_needed. revert Hn. unfold checked_add.
    destruct metered; [|destruct (_ <=? _); [|done]]; intros [=]; lia. }
  destruct (gas_limit <? _) eqn:Hlt; [done|]. apply Z.ltb_ge in Hlt.
  apply result_bind_Ok in Hv as ([results ctx]&He&Hv). injection Hv as <- <-.
  exists static, artifact, bytes, metered, results, ctx. split_and!; try done.
  - rewrite <- He. unfold saturating_sub. by rewrite Z.max_l by lia.
  - simpl. destruct (cx_logs ctx); simpl; lia.
Qed.

(** What compiled code is like. *)
Lemma compile_inv code artifact bs metered :
  compile code = Ok (artifact, bs, metered) →
  ∃ hook, normalize_module_bytes code = Ok bs ∧ fuel_hook_function_index bs = Ok hook ∧
    metered = is_some hook ∧
    (hook = None → module_contains_loops bs = Ok false) ∧
    wasmer_module (match hook with Some _ => Some (feed hook) | None => None end) bs = Ok artifact.
Proof.
  unfold compile. intros Hc.
  apply result_bind_Ok in Hc as (b&Hb&Hc). apply result_bind_Ok in Hc as (hook&Hh&Hc).
  apply result_bind_Ok in Hc as (unmetered&Hu&Hc). destruct unmetered; [done|].
  apply result_bind_Ok in Hc as (a&Ha&Hc). injection Hc as -> -> <-.
  apply map_err_Ok in Ha. exists hook. split_and!; try done. by intros ->.
Qed.

(** C20: a call of a contract that succeeds used no more gas than its limit, and at
    least the fixed price of a call, its data, the entries it added to its storage
    and the logs it emitted, whatever the contract does: state grows only at
    [GAS_STORAGE_WRITE] an entry. A contract without the fuel import pays the cost of
    its code besides. *)
Theorem contract_pays_for_state (contract : ContractState) (addr data caller : bytes)
    (value gas_limit : Z) (storage' : gmap bytes bytes) (receipt : Receipt) :
  vm_call contract addr data caller value gas_limit = Ok (storage', receipt) →
  rc_success receipt = true ∧
  0 ≤ rc_gas_used receipt ≤ gas_limit ∧
  ∃ bs hook static,
    normalize_module_bytes (code contract) = Ok bs ∧
    fuel_hook_function_index bs = Ok hook ∧
    estimate_wasm_gas (code contract) = Ok static ∧
    GAS_BASE_TX + GAS_CALL + GAS_PER_BYTE * Z.of_nat (length data) +
      match hook with Some _ => 0 | None => static end +
      GAS_STORAGE_WRITE * (Z.of_nat (size storage') - Z.of_nat (size (storage contract))) +
      GAS_LOG * (Z.of_nat (length (rc_logs receipt)) - 1) ≤ rc_gas_used receipt.
Proof.
  intros Hv. apply vm_call_inv in Hv
    as (static&artifact&bs&metered&results&ctx&Hs&Hc&Hl&He&->&Hok&Hg&Hlogs).
  apply compile_inv in Hc as (hook&Hb&Hh&->&_).
  pose proof (estimate_wasm_gas_nonneg _ _ Hs) as Hs0.
  assert (0 ≤ call_gas_needed (is_some hook) static data) as Hn.
  { unfold call_gas_needed, GAS_BASE_TX, GAS_CALL, GAS_PER_BYTE. destruct hook; simpl; lia. }
  apply run_contract_paid in He as [[Hr0 Hr] Hp]; [|simpl; lia]. simpl in Hr, Hp.
  rewrite Hg. unfold saturating_sub. rewrite Z.max_l by lia.
  split; [done|]. split; [lia|]. exists bs, hook, static. do 3 (split; [done|]).
  unfold call_gas_needed, GAS_LOG in *. destruct hook; simpl in *; lia.
Qed.

(** ** Metering *)

Lemma loops_in_operators_false ops op :
  loops_in_operators ops = Ok false → Some op ∈ ops → is_loop op = false.
Proof.
  induction ops as [|[o|] ops IH]; simpl; [by intros _ ?%not_elem_of_nil| |done].
  destruct (is_loop o) eqn:E; [done|]. intros Hf [[= ->]|Hin]%elem_of_cons; auto.
Qed.

Lemma loops_in_payloads_false l ops op :
  loops_in_payloads l = Ok false → Some (CodeSectionEntry (Some ops)) ∈ l → Some op ∈ ops →
  is_loop op = false.
Proof.
  induction l as [|[p|] l IH]; simpl; [by intros _ ?%not_elem_of_nil| |done].
  intros Hf [[= <-]|Hin]%elem_of_cons Hop.
  - apply result_bind_Ok in Hf as (?&[= <-]&Hf). apply result_bind_Ok in Hf as ([]&Hl&Hf); [done|].
    by eapply loops_in_operators_false.
  - destruct p as [|body|]; [by apply IH| |by apply IH].
    apply result_bind_Ok in Hf as (?&_&Hf). apply result_bind_Ok in Hf as ([]&_&Hf); [done|].
    by apply IH.
Qed.

(** The imported functions of a module, in the order of their indices. *)
Definition payload_functions (p : option Payload) : list Import :=
  match p with
  | Some (ImportSection imports) => filter im_is_func (omap id imports)
  | _ => []
  end.
Definition function_imports (l : list (option Payload)) : list Import := l ≫= payload_functions.

Lemma function_imports_cons p l :
  function_imports (p :: l) = payload_functions p ++ function_imports l.
Proof. done. Qed.

Definition fuel_import (import : Import) : Prop :=
  im_module import = "curs3d"%string ∧
  (im_name import = "loop_tick"%string ∨ im_name import = "consume_gas"%string).

(** An index of the functions [l] that is one of the fuel functions. *)
Definition fuel_index (l : list Import) (i : Z) : Prop :=
  0 ≤ i ∧ ∃ import, l !! Z.to_nat i = Some import ∧ fuel_import import.

Lemma fuel_index_app l l' i : fuel_index l i → fuel_index (l ++ l') i.
Proof. intros (Hi&import&Hl&Hf). split; [done|]. exists import. split; [|done]. by apply lookup_app_l_Some. Qed.

Lemma fuel_index_here l import l' :
  fuel_import import → fuel_index (l ++ import :: l') (Z.of_nat (length l)).
Proof.
  intros Hf. split; [lia|]. exists import. split; [|done]. rewrite Nat2Z.id. by apply list_lookup_middle.
Qed.

Lemma hook_imports_fuel imports seen fallback r :
  let all := seen ++ filter im_is_func (omap id imports) in
  Z.of_nat (length all) < 2 ^ 32 →
  (∀ i, fallback = Some i → fuel_index seen i) →
  hook_imports imports (Z.of_nat (length seen)) fallback = Ok r →
  match r with
  | inl i => fuel_index all i
  | inr (index, fallback') =>
      index = Z.of_nat (length all) ∧ ∀ i, fallback' = Some i → fuel_index all i
  end.
Proof.
  intros all. subst all. revert seen fallback.
  induction imports as [|[import|] imports IH]; intros seen fallback Hlen Hfb; cbn [hook_imports];
    [intros [= <-]; by rewrite app_nil_r| |done].
  cbn [omap list_omap id] in Hlen |- *. rewrite filter_cons in Hlen |- *. revert Hlen.
  destruct (im_is_func import) eqn:Ef; intros Hlen; [|rewrite decide_False in Hlen |- * by (by intros []); by apply IH].
  rewrite decide_True in Hlen |- * by exact I. cbv zeta.
  case_bool_decide as Hlt.
  { intros [= <-]. apply fuel_index_here. destruct Hlt as [? ?]. unfold fuel_import. auto. }
  rewrite (cons_middle import), app_assoc in Hlen |- *. intros Hr.
  assert (Z.min (Z.of_nat (length seen) + 1) 4294967295 = Z.of_nat (length (seen ++ [import]))) as Ei.
  { rewrite !length_app in *. simpl in *. lia. }
  rewrite Ei in Hr. eapply IH in Hr; [exact Hr|done|].
  intros i. case_bool_decide as Hcg; [|intros Hi; by apply fuel_index_app, Hfb].
  intros [= <-]. apply fuel_index_here. destruct Hcg. unfold fuel_import. auto.
Qed.

Lemma hook_payloads_fuel l seen fallback hook :
  Z.of_nat (length (seen ++ function_imports l)) < 2 ^ 32 →
  (∀ i, fallback = Some i → fuel_index seen i) →
  hook_payloads l (Z.of_nat (length seen)) fallback = Ok hook →
  ∀ i, hook = Some i → fuel_index (seen ++ function_imports l) i.
Proof.
  revert seen fallback. induction l as [|[p|] l IH]; intros seen fallback Hlen Hfb; cbn [hook_payloads];
    [intros [= <-] i Hi; by apply fuel_index_app, Hfb| |done].
  rewrite function_imports_cons in Hlen |- *.
  destruct p as [imports|body|]; [|by apply IH..].
  rewrite app_assoc in Hlen |- *. intros Hr i ->.
  assert (Z.of_nat (length (seen ++ payload_functions (Some (ImportSection imports)))) < 2 ^ 32) as Hl.
  { rewrite (length_app (seen ++ _)) in Hlen. lia. }
  apply result_bind_Ok in Hr as (r&Hi&Hr). eapply hook_imports_fuel in Hi; [|exact Hl|done].
  destruct r as [j|[index fallback']].
  - injection Hr as ->. by apply fuel_index_app.
  - destruct Hi as [-> Hfb']. by eapply IH.
Qed.

(** C21: no loop of a contract runs without paying. Code that compiles either has no
    loop at all, or it imports one of the host's fuel functions and is built with the
    middleware that, for each of its operators, puts a call to that very import, with
    at least the operator's cost, before it, and in a loop, with the price of an
    iteration besides, at the head of its body. *)
Theorem no_unmetered_loop (code : bytes) (artifact : Artifact) (bs : bytes) (metered : bool) :
  compile code = Ok (artifact, bs, metered) →
  Z.of_nat (length (function_imports (parse_all bs))) < 2 ^ 32 →
  if metered then
    ∃ i, fuel_index (function_imports (parse_all bs)) i ∧
      wasmer_module (Some (feed (Some i))) bs = Ok artifact ∧
      ∀ op, ∃ cost, operator_gas_cost op + (if is_loop op then GAS_WASM_LOOP_TICK else 0) ≤ cost ∧
        feed (Some i) op = Ok (if is_loop op then [op; OpI64Const cost; OpCall i]
                               else [OpI64Const cost; OpCall i; op])
  else
    ∀ ops op, Some (CodeSectionEntry (Some ops)) ∈ parse_all bs → Some op ∈ ops → is_loop op = false.
Proof.
  intros Hc Hlen. apply compile_inv in Hc as (hook&_&Hh&->&Hloops&Hm).
  destruct hook as [i|]; simpl; [|intros ops op; by apply loops_in_payloads_false, Hloops].
  exists i. split; [|split; [done|]].
  - by apply (hook_payloads_fuel (parse_all bs) [] None (Some i)).
  - intros op. unfold feed. destruct (is_loop op) eqn:E.
    + eexists. split; [|done]. by destruct op.
    + exists (operator_gas_cost op). pose proof (operator_gas_cost_pos op) as Hp.
      apply Z.ltb_lt in Hp as ->. split; [lia|done].
Qed.

(** ** Storage *)

Definition is_i64 (v : Z) : Prop := - 2 ^ 63 ≤ v < 2 ^ 63.

Lemma i64_round_trip v : is_i64 v → bytes_to_i64 (i64_to_bytes v) = Some v.
Proof.
  unfold is_i64, bytes_to_i64, i64_to_bytes, as_i64. intros Hv.
  rewrite length_to_le_bytes. simpl (_ =? _)%nat. cbv iota. rewrite from_to_le_bytes.
  change (256 ^ Z.of_nat 8) with (2 ^ 64). rewrite Zplus_mod_idemp_l, Z.mod_small by lia.
  f_equal. lia.
Qed.

Lemma i64_to_bytes_inj v v' : is_i64 v → is_i64 v' → i64_to_bytes v = i64_to_bytes v' → v = v'.
Proof.
  intros Hv Hv' E. pose proof (i64_round_trip v Hv) as R. rewrite E, (i64_round_trip v' Hv') in R.
  by injection R.
Qed.

(** A charge either fails or only takes the gas. *)
Lemma charge_host_gas_Ok a ctx u ctx' :
  charge_host_gas a ctx = (Ok u, ctx') →
  ctx' = set_gas (gas_remaining ctx - a) ctx ∧ a ≤ gas_remaining ctx.
Proof.
  unfold charge_host_gas, consume_gas. destruct (_ <? _) eqn:E; [done|]. apply Z.ltb_ge in E.
  by intros [= _ <-].
Qed.

Definition storage_word (ctx : VmExecutionContext) (key : Z) : Z :=
  default 0 (value ← cx_storage ctx !! i64_to_bytes key; bytes_to_i64 value).

Lemma storage_get_Ok key ctx v ctx' :
  host_call (StorageGet key) ctx = (Ok v, ctx') → v = storage_word ctx key.
Proof.
  cbn [host_call]. intros Hg. apply st_bind_Ok in Hg as ([]&c&Hc&Hg).
  apply charge_host_gas_Ok in Hc as [-> _]. by injection Hg as <- _.
Qed.

Lemma read_memory_Ok ptr len ctx data ctx' :
  read_memory_bytes ptr len ctx = (Ok data, ctx') →
  ∃ mem, cx_memory ctx = Some mem ∧ ptr + len ≤ Z.of_nat (length mem) ∧
    data = take (Z.to_nat len) (drop (Z.to_nat ptr) mem) ∧
    cx_storage ctx' = cx_storage ctx ∧ cx_memory ctx' = cx_memory ctx.
Proof.
  unfold read_memory_bytes. intros Hr. apply st_bind_Ok in Hr as ([]&c&Hc&Hr).
  apply charge_host_gas_Ok in Hc as [-> _]. apply st_bind_Ok in Hr as (mem&c&Hm&Hr).
  unfold memory_from_env, st_get, st_lift, mbind, stM_bind in Hm. simpl in Hm.
  destruct (cx_memory ctx) as [m|] eqn:Em; [|done]. injection Hm as <- <-.
  destruct (_ <=? _) eqn:El; [|done]. apply Z.leb_le in El. injection Hr as <- <-. by exists m.
Qed.

Lemma write_memory_Ok ptr data ctx u ctx' :
  write_memory_bytes ptr data ctx = (Ok u, ctx') →
  ∃ mem, cx_memory ctx = Some mem ∧ ptr + Z.of_nat (length data) ≤ Z.of_nat (length mem) ∧
    cx_memory ctx' = Some (take (Z.to_nat ptr) mem ++ data ++ drop (Z.to_nat ptr + length data) mem) ∧
    cx_storage ctx' = cx_storage ctx.
Proof.
  unfold write_memory_bytes. cbv zeta. intros Hr. apply st_bind_Ok in Hr as ([]&c&Hc&Hr).
  apply charge_host_gas_Ok in Hc as [-> _]. apply st_bind_Ok in Hr as (mem&c&Hm&Hr).
  unfold memory_from_env, st_get, st_lift, mbind, stM_bind in Hm. simpl in Hm.
  destruct (cx_memory ctx) as [m|] eqn:Em; [|done]. injection Hm as <- <-.
  destruct (_ <=? _) eqn:El; [|done]. apply Z.leb_le in El. injection Hr as _ <-. by exists m.
Qed.

(** What a contract stores it reads back: a word stored under a key is the word
    found there and changes no other, and the bytes of its memory stored under a key
    are copied, whole when the buffer is large enough, to where it asks for them. *)
Theorem host_storage_round_trip :
  (∀ ctx key value r ctx1, is_i64 key → is_i64 value →
     host_call (StorageSet key value) ctx = (Ok r, ctx1) →
     ∀ key' v ctx2, is_i64 key' → host_call (StorageGet key') ctx1 = (Ok v, ctx2) →
     v = if decide (key' = key) then value else storage_word ctx key') ∧
  (∀ ctx kp kl vp vl r ctx1, 0 ≤ kp → 0 ≤ kl → 0 ≤ vp → 0 ≤ vl < 2 ^ 31 →
     host_call (StorageWriteBytes kp kl vp vl) ctx = (Ok r, ctx1) →
     ∀ dp capacity n ctx2, 0 ≤ dp → vl ≤ capacity →
     host_call (StorageReadBytes kp kl dp capacity) ctx1 = (Ok n, ctx2) →
     ∃ mem mem', cx_memory ctx = Some mem ∧ cx_memory ctx2 = Some mem' ∧ n = vl ∧
       take (Z.to_nat vl) (drop (Z.to_nat dp) mem') = take (Z.to_nat vl) (drop (Z.to_nat vp) mem)).
Proof.
  split.
  - intros ctx key value r ctx1 Hk Hv Hs key' v ctx2 Hk' Hg. apply storage_get_Ok in Hg as ->.
    cbn [host_call] in Hs. apply st_bind_Ok in Hs as ([]&c&Hc&Hs).
    apply charge_host_gas_Ok in Hc as [-> _]. injection Hs as _ <-. unfold storage_word. cbn [cx_storage put_storage].
    case_decide as E; [subst key'; by rewrite lookup_insert_eq; cbn [mbind option_bind]; rewrite i64_round_trip|].
    rewrite lookup_insert_ne; [done|]. intros E'. by apply i64_to_bytes_inj in E'.
  - intros ctx kp kl vp vl r ctx1 Hkp Hkl Hvp Hvl Hw dp capacity n ctx2 Hdp Hcap Hr.
    cbn [host_call] in Hw, Hr. rewrite !Z.max_l in Hw by lia. rewrite !Z.max_l in Hr by lia.
    apply st_bind_Ok in Hw as (key&c1&Hkey&Hw). apply st_bind_Ok in Hw as (val&c2&Hval&Hw).
    apply st_bind_Ok in Hw as ([]&c3&Hc3&Hw). apply charge_host_gas_Ok in Hc3 as [-> _].
    injection Hw as _ <-.
    apply read_memory_Ok in Hkey as (mem&Em&Hkb&->&_&Em1).
    apply read_memory_Ok in Hval as (mem1&Em2&Hvb&->&_&Em3).
    rewrite Em1, Em in Em2. injection Em2 as <-.
    apply st_bind_Ok in Hr as (key'&c4&Hkey'&Hr).
    apply read_memory_Ok in Hkey' as (mem2&Em4&_&->&Es4&Em5). simpl in Em4, Es4, Em5.
    rewrite Em3, Em1, Em in Em4. injection Em4 as <-.
    apply st_bind_Ok in Hr as (x&c5&[= -> ->]&Hr). rewrite Es4, lookup_insert_eq in Hr. simpl in Hr.
    set (val := take (Z.to_nat vl) (drop (Z.to_nat vp) mem)) in *.
    assert (length val = Z.to_nat vl) as Hlv.
    { subst val. rewrite length_take, length_drop. lia. }
    apply st_bind_Ok in Hr as ([]&c6&Hc6&Hr). apply charge_host_gas_Ok in Hc6 as [-> _].
    apply st_bind_Ok in Hr as ([]&c7&Hw7&Hr). injection Hr as <- <-.
    rewrite Hlv, Nat.min_l in Hw7 by lia. rewrite take_ge in Hw7 by lia.
    apply write_memory_Ok in Hw7 as (mem7&Em7&Hb7&Em8&_). simpl in Em7.
    exists mem, (take (Z.to_nat dp) mem7 ++ val ++ drop (Z.to_nat dp + length val) mem7).
    split_and!; [done|done| |].
    + rewrite Hlv, Nat.min_l by lia. unfold as_i32. rewrite Z2Nat.id by lia.
      rewrite Z.mod_small by lia. lia.
    + rewrite drop_app_length' by (rewrite length_take; lia). by rewrite take_app_length'.
Qed.

(** The engine of the chain. *)
Lemma vm_call_gas_used contract addr data caller value gas_limit storage' receipt :
  vm_call contract addr data caller value gas_limit = Ok (storage', receipt) →
  0 ≤ rc_gas_used receipt ≤ gas_limit.
Proof.
  intros Hv. apply vm_call_inv in Hv
    as (static&artifact&bs&metered&results&ctx&Hs&_&Hl&He&_&_&Hg&_).
  pose proof (estimate_wasm_gas_nonneg _ _ Hs) as Hs0.
  assert (0 ≤ call_gas_needed metered static data) as Hn.
  { unfold call_gas_needed, GAS_BASE_TX, GAS_CALL, GAS_PER_BYTE. destruct metered; lia. }
  apply run_contract_paid in He as [[Hr0 Hr] _]; [|simpl; lia]. simpl in Hr.
  rewrite Hg. unfold saturating_sub. lia.
Qed.
End runs.

(** The WASM engine of the chain. *)
Definition curs3d_wasm `{Sha3} `{Wasmer} : WasmEngine := {|
  compile_module code := '(_, wasm_bytes, metered) ← compile code; Ok (wasm_bytes, metered);
  wasm_call := vm_call;
  wasm_call_gas_used := vm_call_gas_used;
|}.

(** ** A contract that counts *)
Definition demo_payloads : list (option Payload) :=
  [Some OtherPayload;
   Some (ImportSection [Some (mkImport "curs3d" "memory" false);
     Some (mkImport "curs3d" "storage_set" true); Some (mkImport "curs3d" "loop_tick" true)]);
   Some (CodeSectionEntry (Some [Some (OpLoop [x40]); Some OpEnd]))].
Definition demo_guest : Guest :=
  GCall (LoopTick 54) (replicate 16 x07) (λ _ mem,
  GCall (StorageSet 7 (-9)) mem (λ _ mem,
  GCall (StorageWriteBytes 0 4 4 8) mem (λ _ mem,
  GCall (EmitLog 1 2) mem (λ _ mem,
  GCall (StorageGet 7) mem (λ value _, GReturn [I64 value]))))).
Definition demo_artifact : Artifact :=
  mkArtifact true (Ok (GReturn [])) (λ name, if String.eqb name "call" then Some [TyI64] else None)
    (λ _ _, demo_guest).
Definition demo_wasmer : Wasmer :=
  {| wat2wasm := λ _, None; parse_all := λ _, demo_payloads;
     wasmer_module := λ _ _, Ok demo_artifact; memory_error_text := "out of bounds" |}.

Section demo.
#[local] Existing Instances demo_sha3 demo_wasmer.

Definition demo_counter : ContractState := mkContractState [] [x00; x61] ∅ [].
Definition demo_call_result : gmap bytes bytes * Receipt :=
  unwrap_or (∅, mkReceipt [] false 0 0 0 0 0 [] [] None)
    (vm_call demo_counter [x01] (replicate 8 x00) [x02] 0 100000).

Lemma demo_call_ok :
  vm_call demo_counter [x01] (replicate 8 x00) [x02] 0 100000 =
  Ok (demo_call_result.1, demo_call_result.2).
Proof. rewrite <- surjective_pairing. apply is_ok_unwrap. vm_compute. exact eq_refl. Qed.

Lemma demo_call_size : (size demo_call_result.1, rc_gas_used demo_call_result.2) = (2%nat, 34721).
Proof. vm_compute. exact eq_refl. Qed.

(** Two entries and one log. *)
Lemma contract_pays_for_state_witness :
  rc_success demo_call_result.2 = true ∧ size demo_call_result.1 = 2%nat ∧
  0 ≤ rc_gas_used demo_call_result.2 ≤ 100000.
Proof.
  destruct (contract_pays_for_state demo_counter [x01] (replicate 8 x00) [x02] 0 100000
    demo_call_result.1 demo_call_result.2 demo_call_ok) as (Hs&Hg&_).
  exact (conj Hs (conj (f_equal fst demo_call_size) Hg)).
Defined.

Lemma no_unmetered_loop_witness :
  ∃ i cost, fuel_index (function_imports demo_payloads) i ∧ 54 ≤ cost ∧
    feed (Some i) (OpLoop []) = Ok [OpLoop []; OpI64Const cost; OpCall i].
Proof.
  assert (compile [x61] = Ok (demo_artifact, [x61], true)) as Hc by (vm_compute; exact eq_refl).
  destruct (no_unmetered_loop [x61] demo_artifact [x61] true Hc eq_refl) as (i&Hi&_&Hf).
  destruct (Hf (OpLoop [])) as (cost&Hcost&Hfeed).
  exists i, cost. exact (conj Hi (conj Hcost Hfeed)).
Defined.

Definition demo_vm_context : VmExecutionContext :=
  mkContext [] ∅ [] [] 0 [] 50000 (Some (replicate 8 x05)).
Definition demo_stored : VmExecutionContext := (host_call (StorageSet (-5) (-77)) demo_vm_context).2.
Definition demo_copied : VmExecutionContext := (host_call (StorageWriteBytes 0 2 4 3) demo_vm_context).2.

(** A negative word is read back as it was stored, and so are three bytes. *)
Lemma host_storage_round_trip_witness :
  (∀ v ctx2, host_call (StorageGet (-5)) demo_stored = (Ok v, ctx2) → v = -77) ∧
  (∀ n ctx2, host_call (StorageReadBytes 0 2 1 6) demo_copied = (Ok n, ctx2) → n = 3).
Proof.
  destruct host_storage_round_trip as [Hw Hb]. split.
  - intros v ctx2 Hg.
    exact (Hw demo_vm_context (-5) (-77) 0 demo_stored ltac:(by vm_compute) ltac:(by vm_compute)
      ltac:(vm_compute; exact eq_refl) (-5) v ctx2 ltac:(by vm_compute) Hg).
  - intros n ctx2 Hr.
    destruct (Hb demo_vm_context 0 2 4 3 1 demo_copied ltac:(lia) ltac:(lia) ltac:(lia) ltac:(lia)
      ltac:(vm_compute; exact eq_refl) 1 6 n ctx2 ltac:(lia) ltac:(lia) Hr) as (_&_&_&_&Hn&_).
    exact Hn.
Defined.
End demo.
