(* ===== verification/Sdk.v ===== *)
(** * The contract SDK ([sdk/rust/src/lib.rs])

    What a contract that is written with the SDK does, as a program over the SDK's
    functions, and its meaning on the storage and the logs. The functions are
    translated to the calls of the host that [Wasm] serves; the theorem of this file
    says that the run of a contract on the machine, which shuffles bytes through the
    memory of the guest and spends gas, has the meaning of the program. *)
From S2P Require Import Prelude Hash Crypto Vm Text Wasm WasmSafety.

(** ** Programs

    [storage::get], [storage::set], [log::emit], [input::len], the reading of the
    input into a buffer in [input::raw], [gas::consume] and [gas::loop_tick]. *)
Inductive Prog (A : Type) :=
  | PRet (a : A)
  | PGet (key : bytes) (k : bytes → Prog A)
  | PSet (key value : bytes) (k : Prog A)
  | PEmit (topic data : bytes) (k : Prog A)
  | PInputLen (k : Z → Prog A)
  | PInputRead (len : Z) (k : bytes → Prog A)
  | PConsume (amount : Z) (k : Prog A)
  | PLoopTick (amount : Z) (k : Prog A).
Arguments PRet {A}. Arguments PGet {A}. Arguments PSet {A}. Arguments PEmit {A}.
Arguments PInputLen {A}. Arguments PInputRead {A}. Arguments PConsume {A}. Arguments PLoopTick {A}.

Fixpoint prog_bind {A B} (p : Prog A) (f : A → Prog B) : Prog B :=
  match p with
  | PRet a => f a
  | PGet key k => PGet key (λ v, prog_bind (k v) f)
  | PSet key value k => PSet key value (prog_bind k f)
  | PEmit topic data k => PEmit topic data (prog_bind k f)
  | PInputLen k => PInputLen (λ v, prog_bind (k v) f)
  | PInputRead len k => PInputRead len (λ v, prog_bind (k v) f)
  | PConsume amount k => PConsume amount (prog_bind k f)
  | PLoopTick amount k => PLoopTick amount (prog_bind k f)
  end.
#[global] Instance Prog_ret : MRet Prog := λ A a, PRet a.
#[global] Instance Prog_bind : MBind Prog := λ A B f p, prog_bind p f.

(** The buffer of [storage::get]. *)
Definition GET_BUFFER : nat := 1024.

Definition storage_get (key : bytes) : Prog bytes := PGet key mret.
Definition storage_set (key value : bytes) : Prog () := PSet key value (mret ()).
Definition log_emit (topic data : bytes) : Prog () := PEmit topic data (mret ()).
Definition input_len : Prog Z := PInputLen mret.
Definition input_raw : Prog bytes :=
  total ← input_len;
  if total =? 0 then mret [] else PInputRead total mret.
Definition gas_consume (amount : Z) : Prog () := PConsume amount (mret ()).
Definition gas_loop_tick (amount : Z) : Prog () := PLoopTick amount (mret ()).

(** What [get_u64] makes of the bytes it reads. *)
Definition read_value_u64 (b : bytes) : Z :=
  if (length b <? 8)%nat then 0 else from_le_bytes (take 8 b).
Definition storage_get_u64 (key : bytes) : Prog Z :=
  b ← storage_get key; mret (read_value_u64 b).
Definition storage_set_u64 (key : bytes) (value : Z) : Prog () :=
  storage_set key (to_le_bytes 8 value).
Definition storage_increment (key : bytes) (delta : Z) : Prog Z :=
  n ← storage_get_u64 key;
  let next := saturating_add n delta in
  _ ← storage_set_u64 key next;
  mret next.

Definition input_selector : Prog (option byte) := raw ← input_raw; mret (head raw).
Definition input_args : Prog bytes := raw ← input_raw; mret (drop 1 raw).

(** ** Meaning

    The state of a contract: its storage and the logs it emitted, newest last, with
    the input of the call. No function of the SDK shows it the caller. *)
Record ContractView := mkView {
  cv_contract : bytes;
  cv_caller : bytes;
  cv_storage : gmap bytes bytes;
  cv_logs : list LogEntry;
  cv_input : bytes;
}.

(** The value of a key as the contract sees it. *)
Definition view_get (s : gmap bytes bytes) (key : bytes) : bytes :=
  take GET_BUFFER (default [] (s !! key)).
Definition view_u64 (s : gmap bytes bytes) (key : bytes) : Z := read_value_u64 (view_get s key).

Definition view_put (key value : bytes) (v : ContractView) : ContractView :=
  mkView (cv_contract v) (cv_caller v) (<[key := value]> (cv_storage v)) (cv_logs v) (cv_input v).
Definition view_log (topic data : bytes) (v : ContractView) : ContractView :=
  mkView (cv_contract v) (cv_caller v) (cv_storage v) (cv_logs v ++ [mkLogEntry (cv_contract v) [topic] data])
    (cv_input v).

Fixpoint exec {A} (p : Prog A) (v : ContractView) : A * ContractView :=
  match p with
  | PRet a => (a, v)
  | PGet key k => exec (k (view_get (cv_storage v) key)) v
  | PSet key value k => exec k (view_put key value v)
  | PEmit topic data k => exec k (view_log topic data v)
  | PInputLen k => exec (k (Z.max (as_i32 (Z.of_nat (length (cv_input v)))) 0)) v
  | PInputRead len k => exec (k (take (Z.to_nat (as_i32 len)) (cv_input v))) v
  | PConsume _ k | PLoopTick _ k => exec k v
  end.

Lemma exec_bind {A B} (p : Prog A) (f : A → Prog B) v :
  exec (p ≫= f) v = exec (f (exec p v).1) (exec p v).2.
Proof.
  unfold mbind, Prog_bind. revert v.
  induction p as [a|key k IH|key value k IH|topic data k IH|k IH|len k IH|amount k IH|amount k IH];
    intros v; cbn [prog_bind exec]; auto.
Qed.

Lemma exec_frame {A} (p : Prog A) v :
  cv_contract (exec p v).2 = cv_contract v ∧ cv_caller (exec p v).2 = cv_caller v ∧
  cv_input (exec p v).2 = cv_input v.
Proof.
  revert v.
  induction p as [a|key k IH|key value k IH|topic data k IH|k IH|len k IH|amount k IH|amount k IH];
    intros v; cbn [exec]; auto; [apply (IH (view_put key value v))|apply (IH (view_log topic data v))].
Qed.

(** ** Translation to the machine

    [slice mem ptr len] are the bytes at a pointer. Where the compiler puts keys,
    values and buffers is left open, as is everything the guest does between two
    calls: [compiled p g] holds when [g] makes the calls of [p] with its data in
    memory and goes on with what the SDK reads from the answer. The instrumentation
    may call for gas anywhere. *)
Definition slice (mem : bytes) (ptr len : Z) : bytes :=
  take (Z.to_nat len) (drop (Z.to_nat ptr) mem).
Definition in_memory (mem : bytes) (ptr : Z) (data : bytes) : Prop :=
  0 ≤ ptr ∧ slice mem ptr (Z.of_nat (length data)) = data.

(** [Vec::truncate] of the buffer at [ptr], unless the answer is negative. *)
Definition buffer (reply : Z) (mem : bytes) (ptr len : Z) : bytes :=
  if reply <? 0 then [] else take (Z.to_nat reply) (slice mem ptr len).

(** A number of gas units as the [i64] it is passed as. *)
Definition gas_i64 (amount : Z) : Z := as_i64 amount.

Inductive compiled : Prog () → Guest → Prop :=
  | compiled_ret results : compiled (PRet ()) (GReturn results)
  | compiled_get key k mem kp dp g :
      in_memory mem kp key → 0 ≤ dp →
      (∀ reply mem', compiled (k (buffer reply mem' dp (Z.of_nat GET_BUFFER))) (g reply mem')) →
      compiled (PGet key k)
        (GCall (StorageReadBytes kp (Z.of_nat (length key)) dp (Z.of_nat GET_BUFFER)) mem g)
  | compiled_set key value k mem kp vp g :
      in_memory mem kp key → in_memory mem vp value →
      (∀ reply mem', compiled k (g reply mem')) →
      compiled (PSet key value k)
        (GCall (StorageWriteBytes kp (Z.of_nat (length key)) vp (Z.of_nat (length value))) mem g)
  | compiled_emit topic data k mem tp dp g :
      in_memory mem tp topic → in_memory mem dp data →
      (∀ reply mem', compiled k (g reply mem')) →
      compiled (PEmit topic data k)
        (GCall (EmitLogBytes tp (Z.of_nat (length topic)) dp (Z.of_nat (length data))) mem g)
  | compiled_input_len k mem g :
      (∀ reply mem', compiled (k (Z.max reply 0)) (g reply mem')) →
      compiled (PInputLen k) (GCall InputLen mem g)
  | compiled_input_read len k mem dp g :
      0 ≤ dp →
      (∀ reply mem', compiled (k (buffer reply mem' dp (as_i32 len))) (g reply mem')) →
      compiled (PInputRead len k) (GCall (InputRead 0 dp (as_i32 len)) mem g)
  | compiled_consume amount k mem g :
      (∀ reply mem', compiled k (g reply mem')) →
      compiled (PConsume amount k) (GCall (ConsumeGas (gas_i64 amount)) mem g)
  | compiled_loop_tick amount k mem g :
      (∀ reply mem', compiled k (g reply mem')) →
      compiled (PLoopTick amount k) (GCall (LoopTick (gas_i64 amount)) mem g)
  | compiled_metering p call mem g :
      (∃ amount, call = ConsumeGas amount ∨ call = LoopTick amount) →
      (∀ reply mem', compiled p (g reply mem')) →
      compiled p (GCall call mem g).

Section translation.
Context `{Sha3} `{Wasmer}.

(** What the contract sees of the context of its run. *)
Definition view (c : VmExecutionContext) : ContractView :=
  mkView (cx_contract_id c) (cx_caller c) (cx_storage c) (cx_logs c) (cx_input_data c).

Lemma charge_Ok a ctx u ctx' : charge_host_gas a ctx = (Ok u, ctx') →
  view ctx' = view ctx ∧ cx_memory ctx' = cx_memory ctx.
Proof. intros Hc. by apply charge_host_gas_Ok in Hc as [-> _]. Qed.

Lemma read_memory_view ptr len ctx data ctx' :
  read_memory_bytes ptr len ctx = (Ok data, ctx') →
  ∃ mem, cx_memory ctx = Some mem ∧ data = slice mem ptr len ∧
    view ctx' = view ctx ∧ cx_memory ctx' = cx_memory ctx.
Proof.
  unfold read_memory_bytes. intros Hr. apply st_bind_Ok in Hr as ([]&c&Hc&Hr).
  apply charge_Ok in Hc as [Hv Hm]. apply st_bind_Ok in Hr as (mem&c'&Hmem&Hr).
  unfold memory_from_env, st_get, st_lift, mbind, stM_bind in Hmem. simpl in Hmem.
  rewrite Hm in Hmem. destruct (cx_memory ctx) as [m|]; [|done]. injection Hmem as <- <-.
  destruct (_ <=? _); [|done]. injection Hr as <- <-. exists m. by rewrite Hm.
Qed.

Lemma write_memory_view ptr data ctx u ctx' :
  write_memory_bytes ptr data ctx = (Ok u, ctx') → 0 ≤ ptr →
  ∃ mem', cx_memory ctx' = Some mem' ∧ view ctx' = view ctx ∧
    ∀ len, Z.of_nat (length data) ≤ len → take (length data) (slice mem' ptr len) = data.
Proof.
  unfold write_memory_bytes. cbv zeta. intros Hr Hp. apply st_bind_Ok in Hr as ([]&c&Hc&Hr).
  apply charge_Ok in Hc as [Hv Hm]. apply st_bind_Ok in Hr as (mem&c'&Hmem&Hr).
  unfold memory_from_env, st_get, st_lift, mbind, stM_bind in Hmem. simpl in Hmem.
  destruct (cx_memory c) as [m|]; [|done]. injection Hmem as <- <-.
  destruct (_ <=? _) eqn:El; [|done]. apply Z.leb_le in El. injection Hr as _ <-.
  eexists. split; [done|]. split; [done|]. intros len Hl. unfold slice.
  rewrite drop_app_length' by (rewrite length_take; lia).
  rewrite take_take, Nat.min_l by lia. by apply take_app_length.
Qed.

Lemma buffer_written mem ptr data len :
  take (length data) (slice mem ptr len) = data →
  buffer (Z.of_nat (length data)) mem ptr len = data.
Proof. intros Hd. unfold buffer. rewrite (proj2 (Z.ltb_ge _ _)) by lia. by rewrite Nat2Z.id. Qed.

Lemma as_i32_lt z : as_i32 z < 2 ^ 31.
Proof. unfold as_i32. pose proof (Z.mod_pos_bound (z + 2 ^ 31) (2 ^ 32)). lia. Qed.

(** The calls that the SDK makes, on the view. *)
Lemma host_read_view key mem kp dp ctx r ctx' :
  in_memory mem kp key → 0 ≤ dp → cx_memory ctx = Some mem →
  host_call (StorageReadBytes kp (Z.of_nat (length key)) dp (Z.of_nat GET_BUFFER)) ctx = (Ok r, ctx') →
  view ctx' = view ctx ∧ ∃ mem', cx_memory ctx' = Some mem' ∧
    buffer r mem' dp (Z.of_nat GET_BUFFER) = view_get (cx_storage ctx) key.
Proof.
  intros [Hkp Hk] Hdp Hm Hh. cbn [host_call] in Hh. rewrite !Z.max_l in Hh by lia.
  apply st_bind_Ok in Hh as (key'&c1&Hr&Hh).
  apply read_memory_view in Hr as (m&Hm1&->&Hv1&Hm2). rewrite Hm in Hm1. injection Hm1 as <-.
  rewrite Hk in Hh. apply st_bind_Ok in Hh as (x&c2&[= -> ->]&Hh).
  apply st_bind_Ok in Hh as ([]&c3&Hc&Hh). apply charge_Ok in Hc as [Hv3 Hm3].
  apply st_bind_Ok in Hh as ([]&c4&Hw&Hh). injection Hh as <- <-.
  assert (cx_storage c2 = cx_storage ctx) as Hs by (by injection Hv1). rewrite Hs, Nat2Z.id in *.
  set (value := default [] (cx_storage ctx !! key)) in *.
  apply write_memory_view in Hw as (mem'&Hm'&Hv4&Hb); [|done].
  split; [by rewrite Hv4, Hv3|]. exists mem'. split; [done|].
  assert (length (take (Nat.min (length value) GET_BUFFER) value) = Nat.min (length value) GET_BUFFER) as Hl
    by (rewrite length_take; lia).
  assert (as_i32 (Z.of_nat (Nat.min (length value) GET_BUFFER)) =
          Z.of_nat (Nat.min (length value) GET_BUFFER)) as ->.
  { unfold as_i32. rewrite Z.mod_small by (unfold GET_BUFFER; lia). lia. }
  rewrite <- Hl. rewrite (buffer_written mem' dp _ _ (Hb (Z.of_nat GET_BUFFER) ltac:(rewrite Hl; lia))).
  unfold view_get. fold value. destruct (decide (length value ≤ GET_BUFFER)%nat).
  - rewrite Nat.min_l, !take_ge by lia. done.
  - by rewrite Nat.min_r by lia.
Qed.

Lemma host_write_view key value mem kp vp ctx r ctx' :
  in_memory mem kp key → in_memory mem vp value → cx_memory ctx = Some mem →
  host_call (StorageWriteBytes kp (Z.of_nat (length key)) vp (Z.of_nat (length value))) ctx = (Ok r, ctx') →
  view ctx' = view_put key value (view ctx).
Proof.
  intros [Hkp Hk] [Hvp Hv] Hm Hh. cbn [host_call] in Hh. rewrite !Z.max_l in Hh by lia.
  apply st_bind_Ok in Hh as (key'&c1&Hr&Hh).
  apply read_memory_view in Hr as (m&Hm1&->&Hv1&Hm2). rewrite Hm in Hm1. injection Hm1 as <-.
  apply st_bind_Ok in Hh as (value'&c2&Hr&Hh).
  apply read_memory_view in Hr as (m&Hm1&->&Hv2&Hm3). rewrite Hm2, Hm in Hm1. injection Hm1 as <-.
  rewrite Hk, Hv in Hh. apply st_bind_Ok in Hh as ([]&c3&Hc&Hh). apply charge_Ok in Hc as [Hv3 _].
  injection Hh as _ <-. rewrite <- Hv1, <- Hv2, <- Hv3. done.
Qed.

Lemma host_emit_view topic data mem tp dp ctx r ctx' :
  in_memory mem tp topic → in_memory mem dp data → cx_memory ctx = Some mem →
  host_call (EmitLogBytes tp (Z.of_nat (length topic)) dp (Z.of_nat (length data))) ctx = (Ok r, ctx') →
  view ctx' = view_log topic data (view ctx).
Proof.
  intros [Htp Ht] [Hdp Hd] Hm Hh. cbn [host_call] in Hh. rewrite !Z.max_l in Hh by lia.
  apply st_bind_Ok in Hh as (key'&c1&Hr&Hh).
  apply read_memory_view in Hr as (m&Hm1&->&Hv1&Hm2). rewrite Hm in Hm1. injection Hm1 as <-.
  apply st_bind_Ok in Hh as (value'&c2&Hr&Hh).
  apply read_memory_view in Hr as (m&Hm1&->&Hv2&Hm3). rewrite Hm2, Hm in Hm1. injection Hm1 as <-.
  rewrite Ht, Hd in Hh. apply st_bind_Ok in Hh as ([]&c3&Hc&Hh). apply charge_Ok in Hc as [Hv3 _].
  injection Hh as _ <-. rewrite <- Hv1, <- Hv2, <- Hv3. done.
Qed.

Lemma host_input_read_view len mem dp ctx r ctx' :
  len < 2 ^ 31 → 0 ≤ dp → cx_memory ctx = Some mem →
  host_call (InputRead 0 dp len) ctx = (Ok r, ctx') →
  view ctx' = view ctx ∧ ∃ mem', cx_memory ctx' = Some mem' ∧
    buffer r mem' dp len = take (Z.to_nat len) (cx_input_data ctx).
Proof.
  intros Hlen Hdp Hm Hh. cbn [host_call] in Hh. rewrite (Z.max_l 0 0), (Z.max_l dp 0) in Hh by lia.
  replace (Z.to_nat (Z.max len 0)) with (Z.to_nat len) in Hh by lia.
  apply st_bind_Ok in Hh as (x&c2&[= -> ->]&Hh). cbv zeta in Hh.
  change (Z.to_nat 0) with 0%nat in Hh. rewrite drop_0, Nat.sub_0_r, Nat.add_0_l in Hh.
  destruct (length _ <=? 0)%nat eqn:E.
  - apply Nat.leb_le in E. injection Hh as <- <-. split; [done|]. exists mem. split; [done|].
    destruct (cx_input_data c2); [|simpl in E; lia]. by rewrite take_nil.
  - apply st_bind_Ok in Hh as ([]&c4&Hw&Hh). injection Hh as <- <-.
    set (data := take _ _) in *.
    assert (data = take (Z.to_nat len) (cx_input_data c2)) as Hd.
    { unfold data. destruct (decide (Z.to_nat len ≤ length (cx_input_data c2))%nat).
      - by rewrite Nat.min_l by lia.
      - by rewrite Nat.min_r, !take_ge by lia. }
    assert (length data ≤ Z.to_nat len)%nat as Hl by (rewrite Hd, length_take; lia).
    apply write_memory_view in Hw as (mem'&Hm'&Hv&Hb); [|done].
    split; [done|]. exists mem'. split; [done|].
    assert (as_i32 (Z.of_nat (length data)) = Z.of_nat (length data)) as ->.
    { unfold as_i32. rewrite Z.mod_small by lia. lia. }
    rewrite <- Hd. destruct (decide (0 ≤ len)); [apply buffer_written, Hb; lia|].
    destruct data; [done|simpl in Hl; lia].
Qed.

Lemma host_gas_view call ctx r ctx' :
  (∃ amount, call = ConsumeGas amount ∨ call = LoopTick amount) →
  host_call call ctx = (Ok r, ctx') → view ctx' = view ctx.
Proof.
  intros [amount [->| ->]] Hh; cbn [host_call] in Hh;
    apply st_bind_Ok in Hh as ([]&c1&Hc&Hh); apply charge_Ok in Hc as [Hv _]; by injection Hh as _ <-.
Qed.

Lemma host_input_len_view ctx r ctx' :
  host_call InputLen ctx = (Ok r, ctx') →
  view ctx' = view ctx ∧ r = as_i32 (Z.of_nat (length (cx_input_data ctx))).
Proof.
  cbn [host_call]. intros Hh. apply st_bind_Ok in Hh as ([]&c1&Hc&Hh). apply charge_Ok in Hc as [Hv _].
  apply st_bind_Ok in Hh as (x&c2&[= -> ->]&Hh). injection Hh as <- <-.
  split; [done|]. by injection Hv as _ _ _ _ ->.
Qed.

Lemma run_call call mem k ctx results ctx' :
  run_guest true (GCall call mem k) ctx = (Ok results, ctx') →
  ∃ r c1, host_call call (set_memory (Some mem) ctx) = (Ok r, c1) ∧
    run_guest true (k r (default mem (cx_memory c1))) c1 = (Ok results, ctx').
Proof.
  cbn [run_guest]. intros Hr. apply st_bind_Ok in Hr as ([]&c0&[= <-]&Hr).
  apply st_bind_Ok in Hr as (r&c1&Hh&Hr). apply st_bind_Ok in Hr as (x&c2&[= -> ->]&Hr). eauto.
Qed.

(** The run of a compiled program on the machine has the program's meaning. *)
Lemma compiled_run p g ctx results ctx' :
  compiled p g → run_guest true g ctx = (Ok results, ctx') →
  view ctx' = (exec p (view ctx)).2.
Proof.
  intros Hp. revert ctx. induction Hp as
    [results'|key k mem kp dp g Hk Hdp Hg IH|key value k mem kp vp g Hk Hv Hg IH
    |topic data k mem tp dp g Ht Hd Hg IH|k mem g Hg IH|len k mem dp g Hdp Hg IH
    |amount k mem g Hg IH|amount k mem g Hg IH|p call mem g Hc Hg IH]; intros ctx Hr.
  - by injection Hr as _ <-.
  - apply run_call in Hr as (r&c1&Hh&Hr). apply IH in Hr. rewrite Hr. cbn [exec].
    eapply host_read_view in Hh as (Hv&mem'&Hm&Hb); [|done..|done].
    rewrite Hv, Hm. cbn [default from_option id]. by rewrite Hb.
  - apply run_call in Hr as (r&c1&Hh&Hr). apply IH in Hr. rewrite Hr. cbn [exec].
    by eapply host_write_view in Hh as ->.
  - apply run_call in Hr as (r&c1&Hh&Hr). apply IH in Hr. rewrite Hr. cbn [exec].
    by eapply host_emit_view in Hh as ->.
  - apply run_call in Hr as (r&c1&Hh&Hr). apply IH in Hr. rewrite Hr. cbn [exec].
    apply host_input_len_view in Hh as [-> ->]. done.
  - apply run_call in Hr as (r&c1&Hh&Hr). apply IH in Hr. rewrite Hr. cbn [exec].
    eapply host_input_read_view in Hh as (Hv&mem'&Hm&Hb); [|apply as_i32_lt|done|done].
    rewrite Hv, Hm. cbn [default from_option id]. by rewrite Hb.
  - apply run_call in Hr as (r&c1&Hh&Hr). apply IH in Hr. rewrite Hr. cbn [exec].
    apply host_gas_view in Hh as ->; [done|by eexists; left].
  - apply run_call in Hr as (r&c1&Hh&Hr). apply IH in Hr. rewrite Hr. cbn [exec].
    apply host_gas_view in Hh as ->; [done|by eexists; right].
  - apply run_call in Hr as (r&c1&Hh&Hr). apply IH in Hr. rewrite Hr.
    by apply host_gas_view in Hh as ->.
Qed.

Definition with_storage (s : gmap bytes bytes) (contract : ContractState) : ContractState :=
  mkContractState (code_hash contract) (code contract) s (owner contract).

(** An artifact that was built from the program: the entry point of the macro
    [entrypoint!], no start function. *)
Record built_from (p : Prog ()) (artifact : Artifact) : Prop := {
  built_memory : ar_has_memory artifact = true;
  built_start : ∃ results, ar_start artifact = Ok (GReturn results);
  built_export : ar_exports artifact "curs3d_call" = Some [];
  built_code : compiled p (ar_run artifact "curs3d_call" []);
}.

(** The view at the start of a call. *)
Definition call_view (contract : ContractState) (addr data caller : bytes) : ContractView :=
  mkView addr caller (storage contract) [] data.

Lemma run_contract_built p artifact ctx results ctx' :
  built_from p artifact → run_contract artifact ctx = Ok (results, ctx') →
  view ctx' = (exec p (view ctx)).2.
Proof.
  intros [Hm [r0 Hs] He Hc]. unfold run_contract, entrypoint. rewrite Hs, He, Hm. intros Hr.
  apply result_bind_Ok in Hr as (start&[= <-]&Hr). cbn [run_guest] in Hr.
  apply result_bind_Ok in Hr as (r1&_&Hr). apply result_bind_Ok in Hr as (guest&[= <-]&Hr).
  destruct (run_guest true _ ctx) as [r2 c2] eqn:E2.
  apply result_bind_Ok in Hr as (r3&H3&Hr). injection Hr as -> ->.
  apply map_err_Ok in H3 as ->. by eapply compiled_run.
Qed.

(** C30: a call of a contract that was written with the SDK and succeeds leaves the storage
    and emits the logs that the program means, whatever addresses the compiler chose and
    wherever the instrumentation charges gas; if it emits none, the machine emits one for
    the call. *)
Theorem sdk_call_refines (p : Prog ()) (contract : ContractState) (artifact : Artifact)
    (bs : bytes) (metered : bool) (addr data caller : bytes) (value gas_limit : Z)
    (storage' : gmap bytes bytes) (receipt : Receipt) :
  compile (code contract) = Ok (artifact, bs, metered) →
  built_from p artifact →
  vm_call contract addr data caller value gas_limit = Ok (storage', receipt) →
  let v := (exec p (call_view contract addr data caller)).2 in
  storage' = cv_storage v ∧
  rc_logs receipt = match cv_logs v with
                    | [] => [mkLogEntry addr [sha3_hash (bstr "curs3d_call")] (caller ++ data)]
                    | logs => logs
                    end.
Proof.
  intros Hc Hb Hv. unfold vm_call in Hv.
  apply result_bind_Ok in Hv as (static&_&Hv). rewrite Hc in Hv.
  apply result_bind_Ok in Hv as (x&[= <-]&Hv). apply result_bind_Ok in Hv as (intrinsic&_&Hv).
  apply result_bind_Ok in Hv as (needed&_&Hv). destruct (gas_limit <? needed); [done|].
  apply result_bind_Ok in Hv as ([results ctx]&Hr&Hv). injection Hv as <- <-.
  apply (run_contract_built p) in Hr; [|done].
  change (view (start_context contract addr data caller _)) with (call_view contract addr data caller) in Hr.
  pose proof (exec_frame p (call_view contract addr data caller)) as (Ei&Ec&_).
  cbv zeta. rewrite <- Hr in *. cbn [view cv_storage cv_logs rc_logs cv_contract cv_caller] in *.
  split; [done|]. rewrite Ei, Ec. by destruct (cx_logs ctx).
Qed.

(** The storages a contract reaches by calls that succeed, from the one it is deployed
    with, which is empty. *)
Inductive reached (contract : ContractState) (addr : bytes) : gmap bytes bytes → Prop :=
  | reached_deployed : reached contract addr ∅
  | reached_call s data caller value gas_limit s' receipt :
      reached contract addr s →
      vm_call (with_storage s contract) addr data caller value gas_limit = Ok (s', receipt) →
      reached contract addr s'.

(** What a program keeps, whatever its input, holds of every storage that is reached. *)
Lemma reached_keeps (p : Prog ()) (I : gmap bytes bytes → Prop) contract artifact bs metered addr s :
  compile (code contract) = Ok (artifact, bs, metered) → built_from p artifact →
  I ∅ → (∀ v, I (cv_storage v) → I (cv_storage (exec p v).2)) →
  reached contract addr s → I s.
Proof.
  intros Hc Hb Hd Hp Hr. induction Hr as [|s data caller value gas_limit s' receipt _ IH Hv]; [done|].
  pose proof (sdk_call_refines p (with_storage s contract) artifact bs metered _ _ _ _ _ _ _ Hc Hb Hv)
    as [-> _]. by apply Hp.
Qed.
End translation.

(** ** A compiler

    The key, then the value or the buffer, at the start of the memory. *)
Fixpoint guest_of (p : Prog ()) : Guest :=
  match p with
  | PRet _ => GReturn []
  | PGet key k =>
      GCall (StorageReadBytes 0 (Z.of_nat (length key)) (Z.of_nat (length key)) (Z.of_nat GET_BUFFER))
        (key ++ replicate GET_BUFFER x00)
        (λ reply mem, guest_of (k (buffer reply mem (Z.of_nat (length key)) (Z.of_nat GET_BUFFER))))
  | PSet key value k =>
      GCall (StorageWriteBytes 0 (Z.of_nat (length key)) (Z.of_nat (length key)) (Z.of_nat (length value)))
        (key ++ value) (λ _ _, guest_of k)
  | PEmit topic data k =>
      GCall (EmitLogBytes 0 (Z.of_nat (length topic)) (Z.of_nat (length topic)) (Z.of_nat (length data)))
        (topic ++ data) (λ _ _, guest_of k)
  | PInputLen k => GCall InputLen [] (λ reply _, guest_of (k (Z.max reply 0)))
  | PInputRead len k =>
      GCall (InputRead 0 0 (as_i32 len)) (replicate (Z.to_nat (as_i32 len)) x00)
        (λ reply mem, guest_of (k (buffer reply mem 0 (as_i32 len))))
  | PConsume amount k => GCall (ConsumeGas (gas_i64 amount)) [] (λ _ _, guest_of k)
  | PLoopTick amount k => GCall (LoopTick (gas_i64 amount)) [] (λ _ _, guest_of k)
  end.

Lemma in_memory_first a b : in_memory (a ++ b) 0 a.
Proof. split; [done|]. unfold slice. by rewrite Nat2Z.id, drop_0, take_app_length. Qed.
Lemma in_memory_second a b : in_memory (a ++ b) (Z.of_nat (length a)) b.
Proof. split; [lia|]. unfold slice. by rewrite !Nat2Z.id, drop_app_length, take_ge. Qed.
#[export] Hint Resolve in_memory_first in_memory_second : curs3d.

Lemma compiled_guest_of p : compiled p (guest_of p).
Proof.
  induction p as [[]|key k IH|key value k IH|topic data k IH|k IH|len k IH|amount k IH|amount k IH];
    cbn [guest_of]; constructor; auto with curs3d lia.
Qed.

Definition artifact_of (p : Prog ()) : Artifact :=
  mkArtifact true (Ok (GReturn []))
    (λ name, if String.eqb name "curs3d_call" then Some [] else None) (λ _ _, guest_of p).

Lemma built_from_artifact_of p : built_from p (artifact_of p).
Proof. constructor; [done|by eexists|done|apply compiled_guest_of]. Qed.

(** The crates, for one contract whose code is a byte. *)
Definition sdk_wasmer (p : Prog ()) : Wasmer :=
  {| wat2wasm := λ _, None; parse_all := λ _, [Some OtherPayload];
     wasmer_module := λ _ _, Ok (artifact_of p); memory_error_text := "out of bounds" |}.

Definition sdk_contract : ContractState := mkContractState [] [x00; x61] ∅ [].

(** A call that succeeds, as a storage and a receipt. *)
Definition sdk_call (p : Prog ()) (s : gmap bytes bytes) (data : bytes) : gmap bytes bytes * Receipt :=
  unwrap_or (∅, mkReceipt [] false 0 0 0 0 0 [] [] None)
    (@vm_call demo_sha3 (sdk_wasmer p) (with_storage s sdk_contract) [x01] data [x02] 0 1000000).
Definition sdk_call_ok (p : Prog ()) (s : gmap bytes bytes) (data : bytes) : bool :=
  is_ok (@vm_call demo_sha3 (sdk_wasmer p) (with_storage s sdk_contract) [x01] data [x02] 0 1000000).

Lemma sdk_call_run p s data :
  sdk_call_ok p s data = true →
  @vm_call demo_sha3 (sdk_wasmer p) (with_storage s sdk_contract) [x01] data [x02] 0 1000000 =
    Ok ((sdk_call p s data).1, (sdk_call p s data).2).
Proof. intros Hok. rewrite <- surjective_pairing. by apply is_ok_unwrap. Qed.

Lemma sdk_compile p : @compile (sdk_wasmer p) (code sdk_contract) = Ok (artifact_of p, [x00; x61], false).
Proof. reflexivity. Qed.

(** The contract of the quickstart of the SDK. *)
Definition quickstart : Prog () :=
  _ ← gas_loop_tick 10;
  payload ← input_raw;
  _ ← storage_set (bstr "latest") payload;
  log_emit (bstr "updated") payload.

Lemma sdk_call_refines_witness :
  (sdk_call quickstart ∅ [x05; x06]).1 = {[bstr "latest" := [x05; x06]]} ∧
  rc_logs (sdk_call quickstart ∅ [x05; x06]).2 = [mkLogEntry [x01] [bstr "updated"] [x05; x06]].
Proof.
  exact (@sdk_call_refines demo_sha3 (sdk_wasmer quickstart) quickstart (with_storage ∅ sdk_contract)
    (artifact_of quickstart) [x00; x61] false [x01] [x05; x06] [x02] 0 1000000 _ _
    (sdk_compile quickstart) (built_from_artifact_of quickstart)
    (sdk_call_run quickstart ∅ [x05; x06] ltac:(vm_compute; exact eq_refl))).
Defined.
