(* ===== verification/Contracts.v ===== *)
(** * The contracts of the SDK ([sdk/rust/examples])

    A counter, an ERC-20 token, NFTs, a vesting schedule and a multisig wallet, written
    with the SDK, and what they guarantee about their storage over every sequence of
    calls. *)
From S2P Require Import Prelude Hash Crypto Vm Text Wasm WasmSafety Sdk.

(** ** Reading and writing the storage *)

Lemma read_value_u64_range b : is_u64 (read_value_u64 b).
Proof.
  unfold read_value_u64, is_u64, u64_max. destruct (length b <? 8)%nat eqn:E; [lia|].
  apply Nat.ltb_ge in E. pose proof (from_le_bytes_range (take 8 b)) as Hr.
  rewrite length_take, Nat.min_l in Hr by lia. lia.
Qed.

Lemma view_u64_range s key : is_u64 (view_u64 s key).
Proof. apply read_value_u64_range. Qed.

Lemma read_value_le n : is_u64 n → read_value_u64 (to_le_bytes 8 n) = n.
Proof.
  intros Hn. unfold read_value_u64. rewrite length_to_le_bytes, take_ge by (by rewrite length_to_le_bytes).
  cbn [Nat.ltb Nat.leb]. rewrite from_to_le_bytes. unfold is_u64, u64_max in Hn.
  apply Z.mod_small. lia.
Qed.

Lemma view_get_insert s key value key' :
  (length value ≤ GET_BUFFER)%nat →
  view_get (<[key := value]> s) key' = if decide (key = key') then value else view_get s key'.
Proof.
  intros Hl. unfold view_get. case_decide as E.
  - subst. rewrite lookup_insert_eq. simpl. by apply take_ge.
  - by rewrite lookup_insert_ne.
Qed.

Lemma view_u64_insert s key n key' :
  is_u64 n →
  view_u64 (<[key := to_le_bytes 8 n]> s) key' = if decide (key = key') then n else view_u64 s key'.
Proof.
  intros Hn. unfold view_u64. rewrite view_get_insert by (rewrite length_to_le_bytes; unfold GET_BUFFER; lia).
  case_decide; [by apply read_value_le|done].
Qed.

(** [buf.get(offset..offset + n)]. *)
Definition get_range (buf : bytes) (offset n : nat) : option bytes :=
  if (offset + n <=? length buf)%nat then Some (take n (drop offset buf)) else None.
Definition read_addr (buf : bytes) (offset : nat) : option bytes := get_range buf offset 20.
Definition read_u64 (buf : bytes) (offset : nat) : option Z := from_le_bytes <$> get_range buf offset 8.

Lemma get_range_length buf offset n b : get_range buf offset n = Some b → length b = n.
Proof.
  unfold get_range. destruct (_ <=? _)%nat eqn:E; [|done]. apply Nat.leb_le in E.
  intros [= <-]. rewrite length_take, length_drop. lia.
Qed.

Lemma read_u64_range buf offset n : read_u64 buf offset = Some n → is_u64 n.
Proof.
  unfold read_u64. destruct (get_range buf offset 8) as [b|] eqn:E; [|done]. intros [= <-].
  apply get_range_length in E. pose proof (from_le_bytes_range b). rewrite E in *.
  unfold is_u64, u64_max. lia.
Qed.

(** ** Calls

    The first byte of the input selects the function. *)
Definition run_entry (handler : byte → bytes → Prog ()) : Prog () :=
  payload ← input_raw;
  match payload with
  | [] => mret ()
  | selector :: body => handler selector body
  end.

(** One call on a storage: the program with the input of the call. *)
Definition call_prog (p : Prog ()) (input : bytes) (s : gmap bytes bytes) : ContractView :=
  (exec p (mkView [] [] s [] input)).2.
Definition call_storage (p : Prog ()) (input : bytes) (s : gmap bytes bytes) : gmap bytes bytes :=
  cv_storage (call_prog p input s).
Definition calls_storage (p : Prog ()) (inputs : list bytes) (s : gmap bytes bytes) : gmap bytes bytes :=
  foldl (λ s input, call_storage p input s) s inputs.

(** A property of the storage that a program keeps. *)
Definition keeps {A : Type} (I : gmap bytes bytes → Prop) (p : Prog A) : Prop :=
  ∀ v, I (cv_storage v) → I (cv_storage (exec p v).2).

Lemma keeps_bind {A B : Type} I (p : Prog A) (f : A → Prog B) :
  keeps I p → (∀ a, keeps I (f a)) → keeps I (p ≫= f).
Proof. intros Hp Hf v Hv. rewrite exec_bind. by apply Hf, Hp. Qed.

Lemma keeps_ret {A : Type} I (a : A) : keeps I (mret a).
Proof. by intros v Hv. Qed.

Lemma keeps_run_entry I handler :
  (∀ selector body, keeps I (handler selector body)) → keeps I (run_entry handler).
Proof.
  intros Hh. unfold run_entry. apply keeps_bind.
  - intros v Hv. unfold input_raw. cbn [exec mbind Prog_bind prog_bind input_len mret Prog_ret].
    by case_match.
  - intros [|selector body]; [apply keeps_ret|apply Hh].
Qed.

(** Computing a program on a view. *)
Ltac run_prog :=
  cbn [exec mbind Prog_bind prog_bind mret Prog_ret storage_get storage_set log_emit
       storage_get_u64 storage_set_u64 fst snd cv_storage cv_logs view_put view_log].

(** ** The counter ([examples/counter]) *)

Definition counter_run : Prog () :=
  next ← storage_increment (bstr "count") 1;
  log_emit (bstr "tick") (to_le_bytes 8 next).

(** After any number of calls the counter has their number, up to its maximum. *)
Theorem counter_counts (inputs : list bytes) :
  Z.of_nat (length inputs) ≤ u64_max →
  view_u64 (calls_storage counter_run inputs ∅) (bstr "count") = Z.of_nat (length inputs).
Proof.
  induction inputs as [|input inputs IH] using rev_ind; intros Hl; [done|].
  rewrite length_app in *. simpl in Hl. unfold calls_storage in *. rewrite foldl_snoc.
  set (s := foldl _ _ _) in *. unfold call_storage, call_prog, counter_run, storage_increment. run_prog.
  fold (view_u64 s (bstr "count")). rewrite IH by lia.
  rewrite view_u64_insert by (unfold saturating_add, is_u64, u64_max in *; lia).
  rewrite decide_True by done. unfold saturating_add. simpl. lia.
Qed.

(** ** The token ([examples/erc20-token]) *)

Definition KEY_INITIALIZED : bytes := bstr "init".
Definition KEY_TOTAL_SUPPLY : bytes := bstr "supply".
Definition balance_key (owner : bytes) : bytes := bstr "b/" ++ owner.
Definition allowance_key (owner spender : bytes) : bytes := bstr "a/" ++ owner ++ bstr "/" ++ spender.

(** The stub for the caller: the address of zeros. *)
Definition sender_proxy : bytes := replicate 20 x00.

Definition erc20_move_balance (from to : bytes) (amount : Z) : Prog () :=
  from_now ← storage_get_u64 (balance_key from);
  if from_now <? amount then mret ()
  else
    _ ← storage_set_u64 (balance_key from) (from_now - amount);
    to_now ← storage_get_u64 (balance_key to);
    _ ← storage_set_u64 (balance_key to) (saturating_add to_now amount);
    log_emit (bstr "transfer") (from ++ to ++ to_le_bytes 8 amount).

Definition erc20_init (body : bytes) : Prog () :=
  initialized ← storage_get KEY_INITIALIZED;
  match initialized with
  | _ :: _ => mret ()
  | [] =>
      match read_u64 body 0, read_addr body 8 with
      | Some total, Some owner =>
          _ ← storage_set KEY_INITIALIZED [x01];
          _ ← storage_set_u64 KEY_TOTAL_SUPPLY total;
          _ ← storage_set (balance_key owner) (to_le_bytes 8 total);
          log_emit (bstr "init") body
      | _, _ => mret ()
      end
  end.
Definition erc20_transfer (body : bytes) : Prog () :=
  match read_addr body 0, read_u64 body 20 with
  | Some to, Some amount => erc20_move_balance sender_proxy to amount
  | _, _ => mret ()
  end.
Definition erc20_approve (body : bytes) : Prog () :=
  match read_addr body 0, read_u64 body 20 with
  | Some spender, Some amount =>
      _ ← storage_set (allowance_key sender_proxy spender) (to_le_bytes 8 amount);
      log_emit (bstr "approve") (sender_proxy ++ spender ++ to_le_bytes 8 amount)
  | _, _ => mret ()
  end.
Definition erc20_transfer_from (body : bytes) : Prog () :=
  match read_addr body 0, read_addr body 20, read_u64 body 40 with
  | Some from, Some to, Some amount =>
      let allow_key := allowance_key from sender_proxy in
      allow_now ← storage_get_u64 allow_key;
      if allow_now <? amount then mret ()
      else
        _ ← storage_set_u64 allow_key (allow_now - amount);
        erc20_move_balance from to amount
  | _, _, _ => mret ()
  end.
Definition erc20_run : Prog () := run_entry (λ selector body,
  match selector with
  | x01 => erc20_init body
  | x02 => erc20_transfer body
  | x03 => erc20_approve body
  | x04 => erc20_transfer_from body
  | _ => mret ()
  end).

(** The sum of the balances. *)
Definition is_balance_key (key : bytes) : bool := starts_with (bstr "b/") key.
Definition entry_balance (key value : bytes) : Z :=
  if is_balance_key key then read_value_u64 (take GET_BUFFER value) else 0.
Definition token_total (s : gmap bytes bytes) : Z := map_sum entry_balance s.

(** The balances add up to the supply, which does not exceed a [u64]. *)
Definition erc20_inv (s : gmap bytes bytes) : Prop :=
  token_total s = view_u64 s KEY_TOTAL_SUPPLY ∧
  (view_get s KEY_INITIALIZED = [] → view_u64 s KEY_TOTAL_SUPPLY = 0).

Lemma entry_balance_nonneg key value : 0 ≤ entry_balance key value.
Proof.
  unfold entry_balance. destruct (is_balance_key key); [|done].
  pose proof (read_value_u64_range (take GET_BUFFER value)) as [? _]. done.
Qed.

Lemma entry_balance_lookup s owner :
  from_option (entry_balance (balance_key owner)) 0 (s !! balance_key owner) =
  view_u64 s (balance_key owner).
Proof.
  unfold entry_balance, view_u64, view_get. cbn [is_balance_key].
  replace (is_balance_key (balance_key owner)) with true by done.
  destruct (s !! balance_key owner); done.
Qed.

Lemma token_total_balance s owner n :
  is_u64 n →
  token_total (<[balance_key owner := to_le_bytes 8 n]> s) =
    token_total s - view_u64 s (balance_key owner) + n.
Proof.
  intros Hn. unfold token_total. rewrite map_sum_insert, entry_balance_lookup. f_equal.
  unfold entry_balance. replace (is_balance_key (balance_key owner)) with true by done.
  rewrite take_ge by (rewrite length_to_le_bytes; unfold GET_BUFFER; lia). by apply read_value_le.
Qed.

Lemma token_total_other s key value :
  is_balance_key key = false → token_total (<[key := value]> s) = token_total s.
Proof.
  intros Hk. unfold token_total. rewrite map_sum_insert. unfold entry_balance at 3. rewrite Hk.
  destruct (s !! key); simpl; [unfold entry_balance at 2; rewrite Hk|]; lia.
Qed.

Lemma balance_le_total s owner : view_u64 s (balance_key owner) ≤ token_total s.
Proof.
  rewrite <- entry_balance_lookup. unfold token_total. destruct (s !! balance_key owner) eqn:E; simpl.
  - apply (map_sum_lookup_le entry_balance s); [|done]. intros k v _. apply entry_balance_nonneg.
  - apply map_sum_nonneg. intros k v _. apply entry_balance_nonneg.
Qed.

Lemma view_total_u64 s : token_total s = view_u64 s KEY_TOTAL_SUPPLY → is_u64 (token_total s).
Proof. intros ->. apply view_u64_range. Qed.

(** The balances are the only entries a transfer changes. *)
Lemma keeps_move_balance from to amount : 0 ≤ amount → keeps erc20_inv (erc20_move_balance from to amount).
Proof.
  intros Ha v [Ht Hi]. unfold erc20_move_balance. run_prog.
  fold (view_u64 (cv_storage v) (balance_key from)).
  destruct (_ <? amount) eqn:E; [by split|]. apply Z.ltb_ge in E.
  set (s := cv_storage v) in *. pose proof (balance_le_total s from) as Hf.
  pose proof (view_total_u64 s Ht) as Hu. pose proof (view_u64_range s (balance_key from)) as Hr.
  unfold is_u64 in *. assert (is_u64 (view_u64 s (balance_key from) - amount)) as Hn by (unfold is_u64; lia).
  run_prog. fold s.
  set (s1 := <[balance_key from := to_le_bytes 8 _]> s).
  assert (token_total s1 = token_total s - amount) as Ht1 by (unfold s1; rewrite token_total_balance by done; lia).
  pose proof (balance_le_total s1 to) as Hto. pose proof (view_u64_range s1 (balance_key to)) as Hr1.
  fold (view_u64 s1 (balance_key to)).
  assert (saturating_add (view_u64 s1 (balance_key to)) amount = view_u64 s1 (balance_key to) + amount) as ->.
  { unfold saturating_add, is_u64 in *. lia. }
  assert (is_u64 (view_u64 s1 (balance_key to) + amount)) as Hn1 by (unfold is_u64 in *; lia).
  set (s2 := <[balance_key to := to_le_bytes 8 _]> s1).
  assert (view_u64 s2 KEY_TOTAL_SUPPLY = view_u64 s KEY_TOTAL_SUPPLY) as E1.
  { unfold s2, s1. by rewrite !view_u64_insert, !decide_False by done. }
  assert (view_get s2 KEY_INITIALIZED = view_get s KEY_INITIALIZED) as E2.
  { unfold s2, s1. rewrite !view_get_insert by (rewrite length_to_le_bytes; unfold GET_BUFFER; lia).
    by rewrite !decide_False by done. }
  unfold erc20_inv. rewrite E1, E2. split; [|done]. unfold s2. rewrite token_total_balance by done. lia.
Qed.

Lemma erc20_inv_other s key n :
  is_balance_key key = false → key ≠ KEY_TOTAL_SUPPLY → key ≠ KEY_INITIALIZED →
  erc20_inv s → erc20_inv (<[key := to_le_bytes 8 n]> s).
Proof.
  intros Hb Hs Hk [Ht Hi]. unfold erc20_inv. rewrite token_total_other by done.
  unfold view_u64. rewrite !view_get_insert by (rewrite length_to_le_bytes; unfold GET_BUFFER; lia).
  by rewrite !decide_False by done.
Qed.

Lemma keeps_erc20_init body : keeps erc20_inv (erc20_init body).
Proof.
  intros v Hinv. pose proof Hinv as [Ht Hi]. unfold erc20_init. run_prog. set (s := cv_storage v) in *.
  destruct (view_get s KEY_INITIALIZED) eqn:E; [|exact Hinv].
  destruct (read_u64 body 0) as [total|] eqn:Er; [|exact Hinv].
  destruct (read_addr body 8) as [owner|]; [|exact Hinv]. apply read_u64_range in Er.
  run_prog. fold s. unfold erc20_inv. set (s1 := <[KEY_INITIALIZED := _]> s).
  set (s2 := <[KEY_TOTAL_SUPPLY := _]> s1).
  assert (token_total s2 = 0) as Ht2.
  { unfold s2, s1. rewrite !token_total_other by done. rewrite Ht. by apply Hi. }
  assert (∀ owner, 0 ≤ view_u64 s2 (balance_key owner)) as Hn by (intros o; apply view_u64_range).
  split.
  - rewrite token_total_balance by done. rewrite view_u64_insert, decide_False by done.
    unfold s2 at 3. rewrite (view_u64_insert s1 _ total), decide_True by done.
    pose proof (balance_le_total s2 owner). specialize (Hn owner). lia.
  - rewrite view_get_insert by (rewrite length_to_le_bytes; unfold GET_BUFFER; lia).
    rewrite decide_False by done. unfold s2.
    rewrite view_get_insert by (rewrite length_to_le_bytes; unfold GET_BUFFER; lia).
    rewrite decide_False by done. unfold s1. rewrite view_get_insert by (vm_compute; lia).
    by rewrite decide_True.
Qed.

Lemma keeps_erc20_run : keeps erc20_inv erc20_run.
Proof.
  apply keeps_run_entry. intros selector body.
  destruct (decide (selector = x01)) as [->|]; [apply keeps_erc20_init|].
  destruct (decide (selector = x02)) as [->|].
  { unfold erc20_transfer. destruct (read_addr body 0), (read_u64 body 20) eqn:E; try apply keeps_ret.
    apply keeps_move_balance. by apply read_u64_range in E as [? _]. }
  destruct (decide (selector = x03)) as [->|].
  { unfold erc20_approve. destruct (read_addr body 0), (read_u64 body 20) eqn:E; try apply keeps_ret.
    intros v Hv. by apply erc20_inv_other. }
  destruct (decide (selector = x04)) as [->|].
  2:{ destruct selector; first [apply keeps_ret | done]. }
  unfold erc20_transfer_from.
  destruct (read_addr body 0) as [from|], (read_addr body 20) as [to|], (read_u64 body 40) as [amount|] eqn:E;
    try apply keeps_ret.
  intros v Hv. cbv zeta. unfold storage_get_u64. run_prog.
  destruct (_ <? amount); [done|]. run_prog.
  apply keeps_move_balance; [by apply read_u64_range in E as [? _]|].
  by apply erc20_inv_other.
Qed.

(** The owner of the stub is the only one that approves, and no address but it loses
    tokens. *)
Definition only_stub_approves (s : gmap bytes bytes) : Prop :=
  ∀ from spender, length from = 20%nat → from ≠ sender_proxy →
    view_u64 s (allowance_key from spender) = 0.

Lemma view_u64_other s key value key' : key ≠ key' → view_u64 (<[key := value]> s) key' = view_u64 s key'.
Proof. intros Hk. unfold view_u64, view_get. by rewrite lookup_insert_ne. Qed.

Lemma view_get_other s key value key' : key ≠ key' → view_get (<[key := value]> s) key' = view_get s key'.
Proof. intros Hk. unfold view_get. by rewrite lookup_insert_ne. Qed.

Lemma allowance_key_owner from from' spender spender' :
  length from = 20%nat → length from' = 20%nat →
  allowance_key from spender = allowance_key from' spender' → from = from'.
Proof.
  intros Hl Hl' E. unfold allowance_key in E. apply app_inj_1 in E as [_ E]; [|done].
  by apply app_inj_1 in E as [E _]; [|by rewrite Hl, Hl'].
Qed.

Lemma only_stub_approves_other s key value :
  (∀ from spender, length from = 20%nat → from ≠ sender_proxy → key ≠ allowance_key from spender) →
  only_stub_approves s → only_stub_approves (<[key := value]> s).
Proof. intros Hk Hs from spender Hl Hf. rewrite view_u64_other by auto. by apply Hs. Qed.

Lemma only_stub_approves_balance s owner value :
  only_stub_approves s → only_stub_approves (<[balance_key owner := value]> s).
Proof. by apply only_stub_approves_other. Qed.

Lemma keeps_stub_move from to amount : keeps only_stub_approves (erc20_move_balance from to amount).
Proof.
  intros v Hv. unfold erc20_move_balance. run_prog. case_match; [done|]. run_prog.
  by do 2 apply only_stub_approves_balance.
Qed.

Lemma keeps_stub_run : keeps only_stub_approves erc20_run.
Proof.
  apply keeps_run_entry. intros selector body.
  destruct (decide (selector = x01)) as [->|].
  { unfold erc20_init. intros v Hv. run_prog. case_match; [|done].
    destruct (read_u64 body 0), (read_addr body 8); try done. run_prog.
    apply only_stub_approves_balance. by do 2 (apply only_stub_approves_other; [done|]). }
  destruct (decide (selector = x02)) as [->|].
  { unfold erc20_transfer. destruct (read_addr body 0), (read_u64 body 20); try apply keeps_ret.
    apply keeps_stub_move. }
  destruct (decide (selector = x03)) as [->|].
  { unfold erc20_approve. destruct (read_addr body 0), (read_u64 body 20); try apply keeps_ret.
    intros v Hv. run_prog. apply only_stub_approves_other; [|done].
    intros from spender Hl Hf E. by apply allowance_key_owner in E. }
  destruct (decide (selector = x04)) as [->|].
  2:{ destruct selector; first [apply keeps_ret | done]. }
  unfold erc20_transfer_from.
  destruct (read_addr body 0) as [from|] eqn:Ef, (read_addr body 20) as [to|], (read_u64 body 40) as [amount|] eqn:Em;
    try apply keeps_ret. apply get_range_length in Ef.
  intros v Hv. cbv zeta. run_prog. fold (view_u64 (cv_storage v) (allowance_key from sender_proxy)).
  pose proof (Hv from sender_proxy Ef) as Hz. set (allowed := view_u64 _ _) in *.
  destruct (allowed <? amount) eqn:E; [done|]. apply Z.ltb_ge in E. run_prog.
  apply keeps_stub_move. run_prog. intros f sp Hl Hf.
  destruct (decide (allowance_key from sender_proxy = allowance_key f sp)) as [E'|].
  - rewrite <- E'. apply allowance_key_owner in E' as ->; [|done..].
    apply read_u64_range in Em as [Ha _]. rewrite (Hz Hf) in *.
    rewrite view_u64_insert, decide_True by (done || (unfold is_u64, u64_max; lia)). lia.
  - rewrite view_u64_other by done. by apply Hv.
Qed.

(** What a call cannot do to an initialized token: change the supply, or take tokens
    from an owner other than the stub. *)
Definition token_kept (owner : bytes) (supply balance : Z) (s : gmap bytes bytes) : Prop :=
  only_stub_approves s ∧ view_get s KEY_INITIALIZED ≠ [] ∧
  view_u64 s KEY_TOTAL_SUPPLY = supply ∧ balance ≤ view_u64 s (balance_key owner).

Lemma token_kept_other owner supply balance s key value :
  only_stub_approves (<[key := value]> s) →
  key ≠ KEY_INITIALIZED → key ≠ KEY_TOTAL_SUPPLY → key ≠ balance_key owner →
  token_kept owner supply balance s → token_kept owner supply balance (<[key := value]> s).
Proof.
  intros Hs H1 H2 H3 (_&Hi&Ht&Hb). unfold token_kept.
  rewrite view_get_other by done. by rewrite !view_u64_other by done.
Qed.

Lemma token_kept_balance owner supply balance s o n :
  is_u64 n → (o = owner → balance ≤ n) →
  token_kept owner supply balance s → token_kept owner supply balance (<[balance_key o := to_le_bytes 8 n]> s).
Proof.
  intros Hn Ho (Hs&Hi&Ht&Hb). unfold token_kept.
  split; [by apply only_stub_approves_balance|].
  rewrite view_get_other by done. rewrite (view_u64_other _ _ _ KEY_TOTAL_SUPPLY) by done.
  split_and!; [done|done|]. rewrite view_u64_insert by done. case_decide as E; [|done].
  unfold balance_key in E. apply app_inj_1 in E as [_ E]; [|done]. by apply Ho.
Qed.

Lemma keeps_kept_move owner supply balance from to amount :
  0 ≤ amount → from ≠ owner ∨ amount = 0 →
  keeps (token_kept owner supply balance) (erc20_move_balance from to amount).
Proof.
  intros Ha Hf v Hv. unfold erc20_move_balance. run_prog.
  fold (view_u64 (cv_storage v) (balance_key from)).
  destruct (_ <? amount) eqn:E; [done|]. apply Z.ltb_ge in E. run_prog.
  set (s1 := <[balance_key from := to_le_bytes 8 _]> _).
  pose proof (view_u64_range (cv_storage v) (balance_key from)) as Hr.
  assert (token_kept owner supply balance s1) as H1.
  { apply token_kept_balance; [unfold is_u64 in *; lia| |done].
    intros ->. destruct Hf as [?| ->]; [done|]. destruct Hv as (_&_&_&Hb). lia. }
  pose proof (view_u64_range s1 (balance_key to)) as Hr1.
  fold (view_u64 s1 (balance_key to)).
  apply token_kept_balance; [unfold saturating_add, is_u64 in *; lia| |done].
  intros ->. destruct H1 as (_&_&_&Hb). unfold saturating_add, is_u64 in *. lia.
Qed.

Lemma keeps_kept_run owner supply balance :
  owner ≠ sender_proxy → keeps (token_kept owner supply balance) erc20_run.
Proof.
  intros Ho. apply keeps_run_entry. intros selector body.
  destruct (decide (selector = x01)) as [->|].
  { unfold erc20_init. intros v Hv. run_prog. destruct (view_get _ _) eqn:E; [|done]. by destruct Hv as (_&Hi&_). }
  destruct (decide (selector = x02)) as [->|].
  { unfold erc20_transfer. destruct (read_addr body 0), (read_u64 body 20) eqn:E; try apply keeps_ret.
    apply keeps_kept_move; [by apply read_u64_range in E as [? _]|]. left. congruence. }
  destruct (decide (selector = x03)) as [->|].
  { unfold erc20_approve. destruct (read_addr body 0), (read_u64 body 20); try apply keeps_ret.
    intros v Hv. run_prog. apply token_kept_other; try done.
    apply only_stub_approves_other; [|by destruct Hv].
    intros f sp Hl Hf E. by apply allowance_key_owner in E. }
  destruct (decide (selector = x04)) as [->|].
  2:{ destruct selector; first [apply keeps_ret | done]. }
  unfold erc20_transfer_from.
  destruct (read_addr body 0) as [from|] eqn:Ef, (read_addr body 20) as [to|], (read_u64 body 40) as [amount|] eqn:Em;
    try apply keeps_ret. apply get_range_length in Ef. apply read_u64_range in Em as [Ha _].
  intros v Hv. cbv zeta. run_prog. fold (view_u64 (cv_storage v) (allowance_key from sender_proxy)).
  pose proof (proj1 Hv from sender_proxy Ef) as Hz. set (allowed := view_u64 _ _) in *.
  pose proof (view_u64_range (cv_storage v) (allowance_key from sender_proxy)) as Hn. fold allowed in Hn.
  destruct (allowed <? amount) eqn:E; [done|]. apply Z.ltb_ge in E. run_prog.
  destruct (decide (from = sender_proxy)) as [->|Hne].
  - apply keeps_kept_move; [done|left; congruence|]. run_prog. apply token_kept_other; try done.
    apply only_stub_approves_other; [|by destruct Hv].
    intros f sp Hl Hf E'. apply allowance_key_owner in E'; [congruence|done..].
  - rewrite (Hz Hne) in *. assert (amount = 0) as -> by lia.
    apply keeps_kept_move; [done|by right|]. run_prog. apply token_kept_other; try done.
    intros f sp Hl Hf. destruct (decide (allowance_key from sender_proxy = allowance_key f sp)) as [E'|].
    + rewrite <- E'. by rewrite view_u64_insert, decide_True by done.
    + rewrite view_u64_other by done. by apply (proj1 Hv).
Qed.

(** C39: the token contract on the chain: in every storage that is reached the balances add
    up to the supply; once it is initialized no call changes the supply, and no call
    takes tokens from an owner other than the address of zeros that the contract has
    for its caller, so the tokens of real owners never move. *)
Theorem token_contract_sound `{Sha3} `{Wasmer} (contract : ContractState) (artifact : Artifact)
    (bs : bytes) (metered : bool) (addr : bytes) (s : gmap bytes bytes) :
  compile (code contract) = Ok (artifact, bs, metered) → built_from erc20_run artifact →
  reached contract addr s →
  token_total s = view_u64 s KEY_TOTAL_SUPPLY ∧
  ∀ data caller value gas_limit s' receipt,
    vm_call (with_storage s contract) addr data caller value gas_limit = Ok (s', receipt) →
    view_get s KEY_INITIALIZED ≠ [] →
    view_u64 s' KEY_TOTAL_SUPPLY = view_u64 s KEY_TOTAL_SUPPLY ∧
    ∀ owner, owner ≠ sender_proxy →
      view_u64 s (balance_key owner) ≤ view_u64 s' (balance_key owner).
Proof.
  intros Hc Hb Hr. split.
  - by apply (reached_keeps erc20_run erc20_inv _ _ _ _ _ _ Hc Hb ltac:(done) keeps_erc20_run Hr).
  - intros data caller value gas_limit s' receipt Hv Hi.
    pose proof (reached_keeps erc20_run only_stub_approves _ _ _ _ _ _ Hc Hb ltac:(done)
      keeps_stub_run Hr) as Hs.
    destruct (sdk_call_refines erc20_run (with_storage s contract) artifact bs metered _ _ _ _ _ _ _ Hc Hb Hv)
      as [-> _].
    assert (∀ owner, owner ≠ sender_proxy → token_kept owner (view_u64 s KEY_TOTAL_SUPPLY)
              (view_u64 s (balance_key owner)) (cv_storage (exec erc20_run
              (call_view (with_storage s contract) addr data caller)).2)) as Hk.
    { intros owner Ho. by apply keeps_kept_run. }
    split; [exact (proj1 (proj2 (proj2 (Hk [] ltac:(done)))))|].
    intros owner Ho. by destruct (Hk owner Ho) as (_&_&_&?).
Qed.

(** An allowance is spent by a transfer that the balance does not cover. *)
Example erc20_allowance_lost :
  let amount := to_le_bytes 8 5 in
  let s := calls_storage erc20_run [x03 :: sender_proxy ++ amount] ∅ in
  let s' := call_storage erc20_run (x04 :: sender_proxy ++ replicate 20 x01 ++ amount) s in
  view_u64 s (allowance_key sender_proxy sender_proxy) = 5 ∧
  view_u64 s' (allowance_key sender_proxy sender_proxy) = 0 ∧
  token_total s' = 0.
Proof. vm_compute. done. Qed.

(** ** The NFTs ([examples/nft]) *)

Definition owner_key (token_id : bytes) : bytes := bstr "o/" ++ token_id.
Definition meta_key (token_id : bytes) : bytes := bstr "m/" ++ token_id.

Definition nft_mint (body : bytes) : Prog () :=
  if (length body <? 28)%nat then mret ()
  else
    let to := take 20 body in
    let token_id := take 8 (drop 20 body) in
    let metadata := if ((28 <? length body) && (length body <=? 28 + 256))%nat
                    then drop 28 body else [] in
    let ok := owner_key token_id in
    current ← storage_get ok;
    match current with
    | _ :: _ => mret ()
    | [] =>
        _ ← storage_set ok to;
        _ ← storage_set (meta_key token_id) metadata;
        log_emit (bstr "mint") body
    end.
Definition nft_transfer (body : bytes) : Prog () :=
  if (length body <? 48)%nat then mret ()
  else
    let from := take 20 body in
    let to := take 20 (drop 20 body) in
    let token_id := take 8 (drop 40 body) in
    let ok := owner_key token_id in
    current ← storage_get ok;
    if bool_decide (current = from) then
      _ ← storage_set ok to;
      log_emit (bstr "transfer") body
    else mret ().
Definition nft_burn (body : bytes) : Prog () :=
  if (length body <? 28)%nat then mret ()
  else
    let owner := take 20 body in
    let token_id := take 8 (drop 20 body) in
    let ok := owner_key token_id in
    current ← storage_get ok;
    if bool_decide (current = owner) then
      _ ← storage_set ok [];
      _ ← storage_set (meta_key token_id) [];
      log_emit (bstr "burn") body
    else mret ().
Definition nft_run : Prog () := run_entry (λ selector body,
  match selector with
  | x01 => nft_mint body
  | x02 => nft_transfer body
  | x03 => nft_burn body
  | _ => mret ()
  end).

Definition nft_owner (s : gmap bytes bytes) (token_id : bytes) : bytes := view_get s (owner_key token_id).

Lemma input_raw_view v :
  Z.of_nat (length (cv_input v)) < 2 ^ 31 → exec input_raw v = (cv_input v, v).
Proof.
  intros Hl. unfold input_raw, input_len. run_prog.
  assert (Z.max (as_i32 (Z.of_nat (length (cv_input v)))) 0 = Z.of_nat (length (cv_input v))) as ->.
  { unfold as_i32. rewrite Z.mod_small by lia. lia. }
  destruct (Z.of_nat _ =? 0) eqn:E.
  - apply Z.eqb_eq in E. destruct (cv_input v) eqn:Ei; [done|simpl in E; lia].
  - run_prog. unfold as_i32. rewrite Z.mod_small by lia.
    replace (Z.to_nat _) with (length (cv_input v)) by lia. by rewrite firstn_all.
Qed.

Lemma run_entry_view handler v selector body :
  Z.of_nat (length (cv_input v)) < 2 ^ 31 → cv_input v = selector :: body →
  exec (run_entry handler) v = exec (handler selector body) v.
Proof. intros Hl Hi. unfold run_entry. rewrite exec_bind, input_raw_view by done. by rewrite Hi. Qed.

Lemma view_get_at s key value :
  (length value ≤ GET_BUFFER)%nat → view_get (<[key := value]> s) key = value.
Proof. intros Hl. by rewrite view_get_insert, decide_True. Qed.

Lemma owner_key_inj a b : owner_key a = owner_key b → a = b.
Proof. apply app_inv_head. Qed.

(** The owner of a token after another entry was written. *)
Lemma nft_owner_put s token_id owner token_id' :
  (length owner ≤ GET_BUFFER)%nat →
  nft_owner (<[owner_key token_id := owner]> s) token_id' =
    if decide (token_id = token_id') then owner else nft_owner s token_id'.
Proof.
  intros Hl. unfold nft_owner. rewrite view_get_insert by done.
  destruct (decide (token_id = token_id')) as [->|Hne]; [by rewrite decide_True|].
  rewrite decide_False; [done|]. by intros ?%owner_key_inj.
Qed.
Lemma nft_owner_meta s token_id metadata token_id' :
  nft_owner (<[meta_key token_id := metadata]> s) token_id' = nft_owner s token_id'.
Proof. by apply view_get_other. Qed.

(** A call that changes the owner of a token either mints it, for a token without an
    owner, or names the owner it has. *)
Lemma nft_change v token_id :
  let s := cv_storage v in let s' := cv_storage (exec nft_run v).2 in
  nft_owner s' token_id = nft_owner s token_id ∨
  ∃ selector body, (exec input_raw v).1 = selector :: body ∧
    (selector = x01 ∧ nft_owner s token_id = [] ∧ nft_owner s' token_id = take 20 body ∧
       length (take 20 body) = 20%nat ∨
     selector = x02 ∧ nft_owner s token_id = take 20 body ∧ nft_owner s' token_id = take 20 (drop 20 body) ∧
       length (take 20 (drop 20 body)) = 20%nat ∨
     selector = x03 ∧ nft_owner s token_id = take 20 body ∧ nft_owner s' token_id = []).
Proof.
  cbv zeta. unfold nft_run, run_entry. rewrite exec_bind.
  assert ((exec input_raw v).2 = v) as ->.
  { unfold input_raw, input_len. run_prog. by case_match. }
  destruct (exec input_raw v).1 as [|selector body] eqn:Ei; [by left|].
  destruct (decide (selector = x01)) as [->|]; [|destruct (decide (selector = x02)) as [->|];
    [|destruct (decide (selector = x03)) as [->|]; [|left; by destruct selector]]].
  - unfold nft_mint. destruct (length body <? 28)%nat eqn:El; [by left|]. apply Nat.ltb_ge in El.
    cbv zeta. run_prog. destruct (view_get _ _) eqn:Eo; [|by left]. run_prog.
    rewrite nft_owner_meta, nft_owner_put by (rewrite length_take; unfold GET_BUFFER; lia).
    case_decide as E; [subst|by left]. right. exists x01, body. split; [done|]. left.
    rewrite length_take. split_and!; [done|done|done|lia].
  - unfold nft_transfer. destruct (length body <? 48)%nat eqn:El; [by left|]. apply Nat.ltb_ge in El.
    cbv zeta. run_prog. case_bool_decide as Eo; [|by left]. run_prog.
    rewrite nft_owner_put by (rewrite length_take; unfold GET_BUFFER; lia).
    case_decide as E; [subst|by left]. right. exists x02, body. split; [done|]. right; left.
    rewrite length_take, length_drop. split_and!; [done|done|done|lia].
  - unfold nft_burn. destruct (length body <? 28)%nat eqn:El; [by left|]. apply Nat.ltb_ge in El.
    cbv zeta. run_prog. case_bool_decide as Eo; [|by left]. run_prog.
    rewrite nft_owner_meta, nft_owner_put by (simpl; lia).
    case_decide as E; [subst|by left]. right. exists x03, body. split; [done|]. right; right. done.
Qed.

(** The NFT contract on the chain: in every storage that is reached a token has no
    owner or one of twenty bytes, and an owner loses it only by a call that names them;
    such a call, whoever makes it, moves the token. *)
Theorem nft_contract_sound `{Sha3} `{Wasmer} (contract : ContractState) (artifact : Artifact)
    (bs : bytes) (metered : bool) (addr : bytes) (s : gmap bytes bytes) (token_id : bytes) :
  compile (code contract) = Ok (artifact, bs, metered) → built_from nft_run artifact →
  reached contract addr s →
  (nft_owner s token_id = [] ∨ length (nft_owner s token_id) = 20%nat) ∧
  ∀ data caller value gas_limit s' receipt,
    vm_call (with_storage s contract) addr data caller value gas_limit = Ok (s', receipt) →
    Z.of_nat (length data) < 2 ^ 31 → nft_owner s token_id ≠ [] →
    (nft_owner s' token_id ≠ nft_owner s token_id →
     ∃ selector rest, data = selector :: nft_owner s token_id ++ rest ∧ selector ∈ [x02; x03]) ∧
    (∀ to rest, data = x02 :: nft_owner s token_id ++ to ++ token_id ++ rest →
     length to = 20%nat → length token_id = 8%nat → nft_owner s' token_id = to).
Proof.
  intros Hc Hb Hr.
  assert (nft_owner s token_id = [] ∨ length (nft_owner s token_id) = 20%nat) as Ho.
  { refine (reached_keeps nft_run (λ s, nft_owner s token_id = [] ∨ length (nft_owner s token_id) = 20%nat)
      _ _ _ _ _ _ Hc Hb ltac:(by left) _ Hr).
    intros v Hv. destruct (nft_change v token_id) as [->|(sel&body&_&[(_&_&->&?)|[(_&_&->&?)|(_&_&->)]])]; auto. }
  split; [done|]. intros data caller value gas_limit s' receipt Hv Hl Hne.
  destruct (sdk_call_refines nft_run (with_storage s contract) artifact bs metered _ _ _ _ _ _ _ Hc Hb Hv)
    as [-> _]. set (v := call_view _ _ _ _).
  assert (exec input_raw v = (data, v)) as Hi by (by apply (input_raw_view v)).
  split.
  - intros Hch. destruct (nft_change v token_id) as [?|(sel&body&Hd&Hcase)]; [done|].
    rewrite Hi in Hd. simpl in Hd.
    destruct Hcase as [(_&?&_)|[(Es&E&_)|(Es&E&_)]]; [done| |];
      exists sel, (drop 20 body); (split; [|rewrite Es; set_solver]); rewrite Hd; f_equal;
      change (nft_owner s token_id) with (nft_owner (cv_storage v) token_id); rewrite E; by rewrite take_drop.
  - intros to rest Hd Ht Hid. destruct Ho as [?|Ho]; [done|].
    unfold nft_run. rewrite (run_entry_view _ v x02 _ Hl Hd). unfold nft_transfer.
    set (body := nft_owner s token_id ++ _).
    assert (48 ≤ length body)%nat as Hlb by (unfold body; rewrite !length_app; lia).
    rewrite (proj2 (Nat.ltb_ge _ _)) by done. cbv zeta.
    assert (take 20 body = nft_owner s token_id) as -> by (by apply take_app_length').
    assert (drop 20 body = to ++ token_id ++ rest) as E1 by (by apply drop_app_length').
    assert (drop 40 body = token_id ++ rest) as ->.
    { change 40%nat with (20 + 20)%nat. rewrite <- drop_drop, E1. by apply drop_app_length'. }
    rewrite E1, !take_app_length' by done. run_prog.
    rewrite bool_decide_eq_true_2 by done. run_prog.
    rewrite nft_owner_put by (unfold GET_BUFFER; lia). by rewrite decide_True.
Qed.

(** ** Witnesses *)

Definition erc20_data : bytes := x01 :: to_le_bytes 8 1000 ++ replicate 20 x09.
Definition erc20_storage : gmap bytes bytes := (sdk_call erc20_run ∅ erc20_data).1.

Lemma reached_sdk_call (p : Prog ()) (data : bytes) :
  sdk_call_ok p ∅ data = true →
  @reached demo_sha3 (sdk_wasmer p) sdk_contract [x01] (sdk_call p ∅ data).1.
Proof.
  intros Hok. eapply (@reached_call demo_sha3 (sdk_wasmer p) _ _ ∅ data [x02] 0 1000000);
    [constructor|by apply sdk_call_run].
Qed.

(** A token of which an owner has the whole supply. *)
Lemma token_contract_sound_witness :
  token_total erc20_storage = view_u64 erc20_storage KEY_TOTAL_SUPPLY ∧
  view_u64 erc20_storage KEY_TOTAL_SUPPLY = 1000.
Proof.
  split; [|vm_compute; exact eq_refl].
  exact (proj1 (@token_contract_sound demo_sha3 (sdk_wasmer erc20_run) sdk_contract (artifact_of erc20_run)
    [x00; x61] false [x01] erc20_storage (sdk_compile erc20_run) (built_from_artifact_of erc20_run)
    (reached_sdk_call erc20_run erc20_data ltac:(vm_compute; exact eq_refl)))).
Defined.

Definition nft_data : bytes := x01 :: replicate 20 x09 ++ replicate 8 x05 ++ [x2a].
Definition nft_storage : gmap bytes bytes := (sdk_call nft_run ∅ nft_data).1.

(** The second call moves the token. *)
Lemma nft_contract_sound_witness :
  nft_owner (sdk_call nft_run nft_storage (x02 :: replicate 20 x09 ++ replicate 20 x0b ++ replicate 8 x05)).1
    (replicate 8 x05) = replicate 20 x0b.
Proof.
  destruct (@nft_contract_sound demo_sha3 (sdk_wasmer nft_run) sdk_contract (artifact_of nft_run)
    [x00; x61] false [x01] nft_storage (replicate 8 x05) (sdk_compile nft_run) (built_from_artifact_of nft_run)
    (reached_sdk_call nft_run nft_data ltac:(vm_compute; exact eq_refl))) as [_ Hs].
  destruct (Hs _ _ _ _ _ _ (sdk_call_run nft_run nft_storage
    (x02 :: replicate 20 x09 ++ replicate 20 x0b ++ replicate 8 x05) ltac:(vm_compute; exact eq_refl))
    ltac:(vm_compute; exact eq_refl) ltac:(vm_compute; discriminate)) as [_ Ht].
  exact (Ht (replicate 20 x0b) [] ltac:(vm_compute; exact eq_refl) eq_refl eq_refl).
Defined.
