(* ===== verification/Custody.v ===== *)
(** * Vesting and multisig contracts ([sdk/rust/examples/vesting], [multisig])

    Two contracts that hold something back until a condition is met: the time of a
    schedule, the votes of the owners. What they guarantee, and what they leave to the
    caller. *)
From S2P Require Import Prelude Hash Crypto Vm Text Wasm WasmSafety Sdk Contracts.

(** ** The vesting schedule *)

Definition vest_init (body : bytes) : Prog () :=
  initialized ← storage_get (bstr "init");
  match initialized with
  | _ :: _ => mret ()
  | [] =>
      if (length body <? 44)%nat then mret ()
      else
        let beneficiary := take 20 body in
        match read_u64 body 20, read_u64 body 28, read_u64 body 36 with
        | Some total, Some start, Some duration =>
            if duration =? 0 then mret ()
            else
              _ ← storage_set (bstr "init") [x01];
              _ ← storage_set (bstr "ben") beneficiary;
              _ ← storage_set_u64 (bstr "total") total;
              _ ← storage_set_u64 (bstr "start") start;
              _ ← storage_set_u64 (bstr "dur") duration;
              _ ← storage_set_u64 (bstr "released") 0;
              log_emit (bstr "init") body
        | _, _, _ => mret ()
        end
  end.

(** The amount that is unlocked at a block; the product is one of [u128]. *)
Definition unlocked_at (now total start dur : Z) : Z :=
  if now <=? start then 0
  else if saturating_add start dur <=? now then total
  else (total * (now - start) / dur) mod 2 ^ 64.

Definition vest_release (body : bytes) : Prog () :=
  if (length body <? 8)%nat then mret ()
  else
    initialized ← storage_get (bstr "init");
    match initialized, read_u64 body 0 with
    | _ :: _, Some now =>
        total ← storage_get_u64 (bstr "total");
        start ← storage_get_u64 (bstr "start");
        dur ← storage_get_u64 (bstr "dur");
        already ← storage_get_u64 (bstr "released");
        let unlocked := unlocked_at now total start dur in
        if unlocked <=? already then mret ()
        else
          let claimable := unlocked - already in
          _ ← storage_set_u64 (bstr "released") unlocked;
          ben ← storage_get (bstr "ben");
          log_emit (bstr "release") (ben ++ to_le_bytes 8 claimable ++ to_le_bytes 8 unlocked)
    | _, _ => mret ()
    end.
Definition vest_view_state : Prog () :=
  total ← storage_get_u64 (bstr "total");
  released ← storage_get_u64 (bstr "released");
  log_emit (bstr "state") (to_le_bytes 8 total ++ to_le_bytes 8 released).
Definition vest_run : Prog () := run_entry (λ selector body,
  match selector with
  | x01 => vest_init body
  | x02 => vest_release body
  | x03 => vest_view_state
  | _ => mret ()
  end).

Definition vest_total (s : gmap bytes bytes) : Z := view_u64 s (bstr "total").
Definition vest_start (s : gmap bytes bytes) : Z := view_u64 s (bstr "start").
Definition vest_dur (s : gmap bytes bytes) : Z := view_u64 s (bstr "dur").
Definition vest_released (s : gmap bytes bytes) : Z := view_u64 s (bstr "released").
Definition vest_ready (s : gmap bytes bytes) : Prop := view_get s (bstr "init") ≠ [].

(** What is released was part of the total, and a schedule has a duration. *)
Definition vest_inv (s : gmap bytes bytes) : Prop :=
  vest_released s ≤ vest_total s ∧ (vest_ready s → 0 < vest_dur s).

(** The schedule is linear between its start and its end and never exceeds the total. *)
Lemma unlocked_linear now total start dur :
  0 ≤ now → is_u64 total → is_u64 start → 0 < dur → start < now →
  now < saturating_add start dur →
  unlocked_at now total start dur = total * (now - start) / dur ∧
  0 ≤ total * (now - start) / dur ≤ total.
Proof.
  unfold is_u64, saturating_add. intros Hn Ht Hs Hd H1 H2.
  assert (0 ≤ total * (now - start) / dur ≤ total) as Hb.
  { split; [apply Z.div_pos; nia|]. apply Z.div_le_upper_bound; nia. }
  split; [|done]. unfold unlocked_at, saturating_add, u64_max in *.
  rewrite (proj2 (Z.leb_gt now start)) by lia. rewrite (proj2 (Z.leb_gt _ now)) by lia.
  apply Z.mod_small. lia.
Qed.

Lemma unlocked_bounds now total start dur :
  is_u64 now → is_u64 total → is_u64 start → 0 < dur →
  0 ≤ unlocked_at now total start dur ≤ total.
Proof.
  intros [Hn _] Ht Hs Hd. pose proof Ht as [Ht0 _].
  destruct (decide (now ≤ start)) as [H1|H1].
  { unfold unlocked_at. rewrite (proj2 (Z.leb_le now start)) by done. lia. }
  destruct (decide (saturating_add start dur ≤ now)) as [H2|H2].
  - unfold unlocked_at. rewrite (proj2 (Z.leb_gt now start)) by lia.
    rewrite (proj2 (Z.leb_le _ now)) by done. lia.
  - destruct (unlocked_linear now total start dur) as [-> ?]; try done; lia.
Qed.

(** What a call does to a schedule that is ready. *)
Definition release_effect (v v' : ContractView) (now : Z) : Prop :=
  let s := cv_storage v in
  let unlocked := unlocked_at now (vest_total s) (vest_start s) (vest_dur s) in
  vest_released s < unlocked ∧
  v' = view_log (bstr "release")
         (view_get s (bstr "ben") ++ to_le_bytes 8 (unlocked - vest_released s) ++ to_le_bytes 8 unlocked)
         (view_put (bstr "released") (to_le_bytes 8 unlocked) v).

Lemma vest_release_effect v body :
  (exec (vest_release body) v).2 = v ∨
  vest_ready (cv_storage v) ∧ ∃ now, read_u64 body 0 = Some now ∧
    release_effect v (exec (vest_release body) v).2 now.
Proof.
  unfold vest_release. destruct (length body <? 8)%nat; [by left|]. run_prog.
  destruct (view_get _ _) as [|x l] eqn:Ei; [by left|]. destruct (read_u64 body 0) as [now|]; [|by left].
  run_prog.
  fold (view_u64 (cv_storage v) (bstr "total")) (view_u64 (cv_storage v) (bstr "start"))
    (view_u64 (cv_storage v) (bstr "dur")) (view_u64 (cv_storage v) (bstr "released")).
  fold (vest_total (cv_storage v)) (vest_start (cv_storage v)) (vest_dur (cv_storage v))
    (vest_released (cv_storage v)).
  cbv zeta. destruct (_ <=? _) eqn:E; [by left|]. apply Z.leb_gt in E. right.
  split; [unfold vest_ready; by rewrite Ei|]. exists now. split; [done|]. split; [done|].
  run_prog. by rewrite (view_get_other _ _ _ (bstr "ben")).
Qed.

(** What a schedule is made of. *)
Definition schedule (s : gmap bytes bytes) : bytes * Z * Z * Z :=
  (view_get s (bstr "ben"), vest_total s, vest_start s, vest_dur s).

Lemma schedule_released s value : schedule (<[bstr "released" := value]> s) = schedule s.
Proof.
  unfold schedule, vest_total, vest_start, vest_dur.
  by rewrite view_get_other, !view_u64_other by done.
Qed.
Lemma vest_total_released s value : vest_total (<[bstr "released" := value]> s) = vest_total s.
Proof. by apply view_u64_other. Qed.
Lemma vest_dur_released s value : vest_dur (<[bstr "released" := value]> s) = vest_dur s.
Proof. by apply view_u64_other. Qed.
Lemma ready_released s value : vest_ready (<[bstr "released" := value]> s) ↔ vest_ready s.
Proof. unfold vest_ready. by rewrite view_get_other. Qed.

Lemma vest_released_put s n : is_u64 n → vest_released (<[bstr "released" := to_le_bytes 8 n]> s) = n.
Proof. intros Hn. unfold vest_released. by rewrite view_u64_insert, decide_True by done. Qed.

Lemma unlocked_u64 now s :
  is_u64 now → 0 < vest_dur s → is_u64 (unlocked_at now (vest_total s) (vest_start s) (vest_dur s)).
Proof.
  intros Hn Hd.
  destruct (unlocked_bounds now (vest_total s) (vest_start s) (vest_dur s)); try done;
    [apply view_u64_range..|].
  pose proof (view_u64_range s (bstr "total")) as [? ?]. fold (vest_total s) in *. unfold is_u64. lia.
Qed.

(** A schedule that is opened has released nothing. *)
Lemma vest_init_effect v body :
  (exec (vest_init body) v).2 = v ∨
  ¬ vest_ready (cv_storage v) ∧ vest_inv (cv_storage (exec (vest_init body) v).2).
Proof.
  unfold vest_init. run_prog. destruct (view_get _ _) eqn:Ei; [|by left].
  destruct (length body <? 44)%nat; [by left|]. cbv zeta.
  destruct (read_u64 body 20) as [total|] eqn:Et, (read_u64 body 28) as [start|] eqn:Es,
    (read_u64 body 36) as [dur|] eqn:Ed; try by left.
  destruct (dur =? 0) eqn:E0; [by left|]. apply Z.eqb_neq in E0. right.
  split; [intros Hc; by apply Hc|]. run_prog.
  apply read_u64_range in Et as Ht, Ed as Hd. pose proof Hd as [Hd0 _]. pose proof Ht as [Ht0 _].
  unfold vest_inv, vest_released, vest_total, vest_dur.
  rewrite view_u64_insert, decide_True by done.
  do 3 rewrite view_u64_other by done. rewrite view_u64_insert, decide_True by done.
  split; [done|]. intros _. rewrite view_u64_other by done.
  rewrite view_u64_insert, decide_True by done. lia.
Qed.

Lemma keeps_vest_run : keeps vest_inv vest_run.
Proof.
  apply keeps_run_entry. intros selector body.
  destruct (decide (selector = x01)) as [->|].
  { intros v Hv. by destruct (vest_init_effect v body) as [->|[_ ?]]. }
  destruct (decide (selector = x02)) as [->|].
  { intros v Hv. destruct (vest_release_effect v body) as [->|(Hr&now&Hn&Hlt&->)]; [done|].
    apply read_u64_range in Hn. destruct Hv as [Hle Hd]. specialize (Hd Hr). run_prog.
    unfold vest_inv. rewrite vest_released_put by (by apply unlocked_u64).
    rewrite vest_total_released, vest_dur_released.
    split; [|done]. apply unlocked_bounds; [done|apply view_u64_range..|done]. }
  destruct (decide (selector = x03)) as [->|]; [by intros v Hv|].
  destruct selector; first [apply keeps_ret | done].
Qed.

(** What a call with the data makes of the amount that is released. *)
Definition released_after (data : bytes) (s : gmap bytes bytes) : Z :=
  match data with
  | x02 :: body =>
      match read_u64 body 0 with
      | Some now => Z.max (vest_released s) (unlocked_at now (vest_total s) (vest_start s) (vest_dur s))
      | None => vest_released s
      end
  | _ => vest_released s
  end.

Lemma vest_release_after v body :
  vest_ready (cv_storage v) → 0 < vest_dur (cv_storage v) →
  vest_released (cv_storage (exec (vest_release body) v).2) = released_after (x02 :: body) (cv_storage v).
Proof.
  intros Hr Hd. unfold released_after, vest_release.
  destruct (length body <? 8)%nat eqn:El.
  { apply Nat.ltb_lt in El. unfold read_u64, get_range.
    by rewrite (proj2 (Nat.leb_gt _ _)) by lia. }
  apply Nat.ltb_ge in El. run_prog. unfold vest_ready in Hr.
  destruct (view_get (cv_storage v) (bstr "init")) as [|x l]; [done|].
  destruct (read_u64 body 0) as [now|] eqn:En; [|done]. apply read_u64_range in En. run_prog.
  fold (view_u64 (cv_storage v) (bstr "total")) (view_u64 (cv_storage v) (bstr "start"))
    (view_u64 (cv_storage v) (bstr "dur")) (view_u64 (cv_storage v) (bstr "released")).
  fold (vest_total (cv_storage v)) (vest_start (cv_storage v)) (vest_dur (cv_storage v))
    (vest_released (cv_storage v)).
  cbv zeta. destruct (_ <=? _) eqn:E; [apply Z.leb_le in E; run_prog; lia|]. apply Z.leb_gt in E. run_prog.
  rewrite vest_released_put by (by apply unlocked_u64). lia.
Qed.

(** C38: the vesting contract on the chain: what it released never exceeds the total; once
    it is initialized its schedule stays and a call releases exactly what the schedule
    has unlocked at the block that the call names, whoever makes it, and nothing is
    ever taken back. *)
Theorem vesting_contract_sound `{Sha3} `{Wasmer} (contract : ContractState) (artifact : Artifact)
    (bs : bytes) (metered : bool) (addr : bytes) (s : gmap bytes bytes) :
  compile (code contract) = Ok (artifact, bs, metered) → built_from vest_run artifact →
  reached contract addr s →
  vest_released s ≤ vest_total s ∧
  ∀ data caller value gas_limit s' receipt,
    vm_call (with_storage s contract) addr data caller value gas_limit = Ok (s', receipt) →
    Z.of_nat (length data) < 2 ^ 31 → vest_ready s →
    schedule s' = schedule s ∧ vest_released s' = released_after data s ∧
    (vest_released s' ≠ vest_released s →
     rc_logs receipt = [mkLogEntry addr [bstr "release"]
       (view_get s (bstr "ben") ++ to_le_bytes 8 (vest_released s' - vest_released s) ++
        to_le_bytes 8 (vest_released s'))]).
Proof.
  intros Hc Hb Hr.
  assert (vest_inv s) as [Hle Hd].
  { apply (reached_keeps vest_run vest_inv contract artifact bs metered addr s Hc Hb); [|apply keeps_vest_run|done].
    split; [done|]. unfold vest_ready. done. }
  split; [done|]. intros data caller value gas_limit s' receipt Hv Hl Hready. specialize (Hd Hready).
  destruct (sdk_call_refines vest_run (with_storage s contract) artifact bs metered _ _ _ _ _ _ _ Hc Hb Hv)
    as [-> Hlogs]. set (v := call_view _ _ _ _) in *.
  destruct data as [|selector body].
  { unfold vest_run, run_entry in *. rewrite exec_bind, (input_raw_view v Hl). done. }
  unfold vest_run in *. rewrite (run_entry_view _ v selector body Hl eq_refl) in *.
  destruct (decide (selector = x02)) as [->|Hne].
  - rewrite (vest_release_after v body Hready Hd).
    destruct (vest_release_effect v body) as [E|(_&now&Hn&Hlt&E)].
    + pose proof (vest_release_after v body Hready Hd) as Ha. rewrite E in *. by rewrite <- Ha.
    + rewrite E in *. split_and!; [apply schedule_released|done|]. intros _. rewrite Hlogs.
      unfold released_after. rewrite Hn. rewrite Z.max_r by (apply Z.lt_le_incl, Hlt). done.
  - assert (released_after (selector :: body) s = vest_released s) as -> by (by destruct selector).
    destruct (decide (selector = x01)) as [->|].
    { destruct (vest_init_effect v body) as [E|[Hn _]]; [by rewrite E|done]. }
    destruct (decide (selector = x03)) as [->|]; [done|]. by destruct selector.
Qed.

(** ** The multisig wallet *)

Definition ms_owner_key (addr : bytes) : bytes := bstr "o!/" ++ addr.
Definition ms_index_key (i : nat) : bytes := bstr "o/" ++ to_le_bytes 4 (Z.of_nat i).
Definition ms_proposal_key (aid : bytes) : bytes := bstr "p/" ++ aid.
Definition ms_count_key (aid : bytes) : bytes := bstr "c/" ++ aid.
Definition ms_executed_key (aid : bytes) : bytes := bstr "e/" ++ aid.
Definition ms_vote_key (aid owner : bytes) : bytes := bstr "v/" ++ aid ++ bstr "/" ++ owner.

Definition ms_is_owner (addr : bytes) : Prog bool :=
  known ← storage_get (ms_owner_key addr);
  mret (match known with [] => false | _ => true end).

(** The loop of [init] over the owners, from the index [i]. *)
Fixpoint ms_add_owners (i count : nat) (rest : bytes) : Prog () :=
  match count with
  | O => mret ()
  | S count =>
      let addr := take 20 rest in
      _ ← storage_set (ms_index_key i) addr;
      _ ← storage_set (ms_owner_key addr) [x01];
      ms_add_owners (S i) count (drop 20 rest)
  end.

Definition ms_init (body : bytes) : Prog () :=
  initialized ← storage_get (bstr "init");
  match initialized, body with
  | [], threshold :: count :: rest =>
      let threshold := byte_Z threshold in
      let n := Z.to_nat (byte_Z count) in
      if ((length rest <? n * 20) || (n =? 0))%nat || (threshold =? 0) || (Z.of_nat n <? threshold)
      then mret ()
      else
        _ ← storage_set_u64 (bstr "t") threshold;
        _ ← storage_set_u64 (bstr "n") (Z.of_nat n);
        _ ← ms_add_owners 0 n rest;
        _ ← storage_set (bstr "init") [x01];
        log_emit (bstr "init") body
  | _, _ => mret ()
  end.

Definition ms_record_vote (aid owner : bytes) : Prog () :=
  let vote_key := ms_vote_key aid owner in
  voted ← storage_get vote_key;
  match voted with
  | _ :: _ => mret ()
  | [] =>
      _ ← storage_set vote_key [x01];
      n ← storage_get_u64 (ms_count_key aid);
      let new_count := add64 n 1 in
      _ ← storage_set_u64 (ms_count_key aid) new_count;
      _ ← log_emit (bstr "approve") aid;
      threshold ← storage_get_u64 (bstr "t");
      if threshold <=? new_count then
        done ← storage_get (ms_executed_key aid);
        match done with
        | _ :: _ => mret ()
        | [] =>
            _ ← storage_set (ms_executed_key aid) [x01];
            log_emit (bstr "executed") aid
        end
      else mret ()
  end.

Definition ms_propose (body : bytes) : Prog () :=
  if (length body <? 28)%nat then mret ()
  else
    let owner := take 20 body in
    known ← ms_is_owner owner;
    if negb known then mret ()
    else
      let aid := take 8 (drop 20 body) in
      let action_payload := drop 28 body in
      proposed ← storage_get (ms_proposal_key aid);
      match proposed with
      | _ :: _ => mret ()
      | [] =>
          _ ← storage_set (ms_proposal_key aid) action_payload;
          _ ← ms_record_vote aid owner;
          log_emit (bstr "propose") body
      end.
Definition ms_approve (body : bytes) : Prog () :=
  if (length body <? 28)%nat then mret ()
  else
    let owner := take 20 body in
    let aid := take 8 (drop 20 body) in
    known ← ms_is_owner owner;
    if negb known then mret () else ms_record_vote aid owner.
Definition ms_run : Prog () := run_entry (λ selector body,
  match selector with
  | x01 => ms_init body
  | x02 => ms_propose body
  | x03 => ms_approve body
  | _ => mret ()
  end).

Definition ms_ready (s : gmap bytes bytes) : Prop := view_get s (bstr "init") ≠ [].
Definition ms_owner (s : gmap bytes bytes) (addr : bytes) : Prop := view_get s (ms_owner_key addr) ≠ [].
Definition ms_voted (s : gmap bytes bytes) (aid owner : bytes) : Prop :=
  view_get s (ms_vote_key aid owner) ≠ [].
Definition ms_executed (s : gmap bytes bytes) (aid : bytes) : Prop :=
  view_get s (ms_executed_key aid) ≠ [].
Definition ms_threshold (s : gmap bytes bytes) : Z := view_u64 s (bstr "t").
Definition ms_count (s : gmap bytes bytes) (aid : bytes) : Z := view_u64 s (ms_count_key aid).

(** Owners are at most as many as their number fits a byte; the count of an action is
    the number of different owners that voted for it; an executed action has reached
    the threshold. *)
Record ms_inv (s : gmap bytes bytes) : Prop := {
  ms_owners_few : ∃ l, (length l ≤ 255)%nat ∧ ∀ addr, ms_owner s addr → addr ∈ l;
  ms_counted aid : length aid = 8%nat →
    ∃ l, NoDup l ∧ Z.of_nat (length l) = ms_count s aid ∧
      ∀ owner, owner ∈ l ↔ ms_voted s aid owner ∧ length owner = 20%nat;
  ms_voters aid owner : length aid = 8%nat → length owner = 20%nat →
    ms_voted s aid owner → ms_owner s owner;
  ms_reached aid : length aid = 8%nat → ms_executed s aid → 1 ≤ ms_threshold s ≤ ms_count s aid;
  ms_started : ms_ready s → 1 ≤ ms_threshold s;
  ms_closed addr : ¬ ms_ready s → ¬ ms_owner s addr;
}.

Lemma ms_vote_key_inj aid owner aid' owner' :
  length aid = length aid' → ms_vote_key aid owner = ms_vote_key aid' owner' → aid = aid' ∧ owner = owner'.
Proof.
  intros Hl E. unfold ms_vote_key in E. apply app_inj_1 in E as [_ E]; [|done].
  apply app_inj_1 in E as [-> E]; [|done]. by apply app_inj_1 in E as [_ ->].
Qed.

Lemma ms_count_bound s aid :
  ms_inv s → length aid = 8%nat → 0 ≤ ms_count s aid ≤ 255.
Proof.
  intros Hi Ha. destruct (ms_owners_few s Hi) as (L&HL&Hin). destruct (ms_counted s Hi aid Ha) as (l&Hnd&Hc&Hl).
  assert (length l ≤ length L)%nat; [|lia]. apply submseteq_length, NoDup_submseteq; [done|].
  intros o Ho. apply Hl in Ho as [Ho Hlo]. apply Hin. by apply (ms_voters s Hi aid).
Qed.

(** A storage that differs from one with the invariant by one more vote. *)
Lemma ms_inv_vote s s' aid owner :
  ms_inv s → length aid = 8%nat → length owner = 20%nat → ms_owner s owner → ¬ ms_voted s aid owner →
  (∀ key, key ≠ ms_vote_key aid owner → key ≠ ms_count_key aid → key ≠ ms_executed_key aid →
     view_get s' key = view_get s key) →
  ms_voted s' aid owner → ms_count s' aid = ms_count s aid + 1 →
  (ms_executed s' aid → ms_executed s aid ∨ ms_threshold s ≤ ms_count s aid + 1) →
  ms_ready s →
  ms_inv s'.
Proof.
  intros Hi Ha Ho Hown Hnew Hf Hv Hc He Hready.
  assert (∀ x, ms_owner s' x ↔ ms_owner s x) as Eo by (intros x; unfold ms_owner; by rewrite Hf).
  assert (ms_threshold s' = ms_threshold s) as Et by (unfold ms_threshold, view_u64; by rewrite Hf).
  assert (ms_ready s' ↔ ms_ready s) as Er by (unfold ms_ready; by rewrite Hf).
  assert (∀ aid' o', length aid' = 8%nat →
    ms_voted s' aid' o' ↔ (aid' = aid ∧ o' = owner) ∨ ms_voted s aid' o') as Ev.
  { intros aid' o' Ha'. destruct (decide (aid' = aid ∧ o' = owner)) as [[-> ->]|Hne].
    - split; auto.
    - unfold ms_voted. rewrite Hf; [tauto| |done..].
      intros E. apply ms_vote_key_inj in E; [|congruence]. done. }
  assert (∀ aid', aid' ≠ aid → ms_count s' aid' = ms_count s aid' ∧ (ms_executed s' aid' ↔ ms_executed s aid')) as Ec.
  { intros aid' Hne. unfold ms_count, view_u64, ms_executed.
    assert (ms_count_key aid' ≠ ms_count_key aid) by (by intros ?%app_inv_head).
    assert (ms_executed_key aid' ≠ ms_executed_key aid) by (by intros ?%app_inv_head).
    by rewrite !Hf by done. }
  constructor.
  - destruct (ms_owners_few s Hi) as (L&HL&Hin). exists L. split; [done|]. intros x Hx. by apply Hin, Eo.
  - intros aid' Ha'. destruct (ms_counted s Hi aid' Ha') as (l&Hnd&Hl&Hin).
    destruct (decide (aid' = aid)) as [->|Hne].
    + exists (owner :: l). split_and!.
      * apply NoDup_cons. split; [|done]. by intros [? _]%Hin.
      * rewrite Hc. simpl. lia.
      * intros o. rewrite elem_of_cons, Hin, Ev by done. naive_solver.
    + exists l. rewrite (proj1 (Ec aid' Hne)). split_and!; [done|done|].
      intros o. rewrite Hin, Ev by done. naive_solver.
  - intros aid' o' Ha' Ho' Hv'. apply Eo. apply (Ev _ _ Ha') in Hv' as [[-> ->]|Hv']; [done|].
    by apply (ms_voters s Hi aid').
  - intros aid' Ha' He'. rewrite Et. destruct (decide (aid' = aid)) as [->|Hne].
    + rewrite Hc. pose proof (ms_started s Hi Hready).
      destruct (He He') as [He0|]; [pose proof (ms_reached s Hi aid Ha He0)|]; lia.
    + destruct (Ec aid' Hne) as [-> Hx]. by apply (ms_reached s Hi), Hx.
  - rewrite Er, Et. apply (ms_started s Hi).
  - intros x. rewrite Er, Eo. apply (ms_closed s Hi).
Qed.

Lemma keeps_record_vote aid owner v :
  length aid = 8%nat → length owner = 20%nat → ms_inv (cv_storage v) → ms_owner (cv_storage v) owner →
  ms_inv (cv_storage (exec (ms_record_vote aid owner) v).2).
Proof.
  intros Ha Ho Hi Hown. unfold ms_record_vote. cbv zeta. run_prog. set (s := cv_storage v) in *.
  destruct (view_get s _) eqn:Ev; [|done]. run_prog. fold s.
  assert (ms_ready s) as Hready.
  { unfold ms_ready. intros E. apply (ms_closed s Hi owner); [|done]. intros Hr. by apply Hr. }
  assert (¬ ms_voted s aid owner) as Hnew by (intros Hn; by apply Hn).
  fold (view_u64 (<[ms_vote_key aid owner:=[x01]]> s) (ms_count_key aid)).
  rewrite view_u64_other by done. fold (ms_count s aid).
  pose proof (ms_count_bound s aid Hi Ha) as Hb.
  assert (add64 (ms_count s aid) 1 = ms_count s aid + 1) as ->.
  { apply add64_exact; unfold u64_max; lia. }
  assert (is_u64 (ms_count s aid + 1)) as Hu by (unfold is_u64, u64_max; lia).
  set (s2 := <[ms_count_key aid := _]> _).
  assert (∀ key, key ≠ ms_vote_key aid owner → key ≠ ms_count_key aid → view_get s2 key = view_get s key) as Hf.
  { intros key H1 H2. unfold s2. by rewrite !view_get_other by congruence. }
  assert (ms_voted s2 aid owner) as Hv2.
  { unfold ms_voted, s2. rewrite view_get_other by done.
    by rewrite view_get_at by (vm_compute; lia). }
  assert (ms_count s2 aid = ms_count s aid + 1) as Hc2.
  { unfold ms_count at 1, s2. by rewrite view_u64_insert, decide_True by done. }
  fold (view_u64 s2 (bstr "t")). assert (view_u64 s2 (bstr "t") = ms_threshold s) as ->.
  { unfold ms_threshold, view_u64. by rewrite Hf. }
  destruct (_ <=? _) eqn:Et.
  - apply Z.leb_le in Et. run_prog. fold s s2. destruct (view_get s2 (ms_executed_key aid)) eqn:Ee.
    + run_prog. apply (ms_inv_vote s _ aid owner); try done.
      * intros key H1 H2 H3. rewrite (view_get_other s2 (ms_executed_key aid)) by done. by apply Hf.
      * unfold ms_voted. by rewrite view_get_other.
      * unfold ms_count at 1. by rewrite view_u64_other.
      * intros _. by right.
    + run_prog. apply (ms_inv_vote s _ aid owner); try done; [intros; by apply Hf|].
      intros _. by right.
  - run_prog. apply (ms_inv_vote s _ aid owner); try done; [intros; by apply Hf|].
    unfold ms_executed. rewrite Hf by done. by left.
Qed.

(** The loop over the owners writes the entries of owners only. *)
Lemma ms_add_owners_frame i count rest v :
  let s := cv_storage v in let s' := cv_storage (exec (ms_add_owners i count rest) v).2 in
  (∀ key, (∀ j, key ≠ ms_index_key j) → (∀ a, key ≠ ms_owner_key a) → view_get s' key = view_get s key) ∧
  ∃ l, length l = count ∧ ∀ a, ms_owner s' a → ms_owner s a ∨ a ∈ l.
Proof.
  cbv zeta. revert i rest v. induction count as [|count IH]; intros i rest v; cbn [ms_add_owners].
  { split; [done|]. exists []. split; [done|]. by left. }
  cbv zeta. run_prog. set (v' := view_put (ms_owner_key _) _ _).
  destruct (IH (S i) (drop 20 rest) v') as (Hf&l&Hl&Ho). split.
  - intros key H1 H2. rewrite Hf by done. unfold v'. run_prog. by rewrite !view_get_other by auto.
  - exists (take 20 rest :: l). split; [simpl; by rewrite Hl|]. intros a [Ha|Ha]%Ho; [|set_solver].
    destruct (decide (a = take 20 rest)) as [->|Hne]; [right; set_solver|]. left.
    unfold ms_owner, v' in *. revert Ha. run_prog.
    rewrite !view_get_other; [done|done|]. intros E. apply app_inv_head in E. congruence.
Qed.

Lemma view_u64_get s s' key : view_get s' key = view_get s key → view_u64 s' key = view_u64 s key.
Proof. unfold view_u64. by intros ->. Qed.

(** A wallet that is opened has no votes. *)
Lemma ms_init_effect v body :
  ms_inv (cv_storage v) →
  (exec (ms_init body) v).2 = v ∨ ¬ ms_ready (cv_storage v) ∧ ms_inv (cv_storage (exec (ms_init body) v).2).
Proof.
  intros Hi. unfold ms_init. run_prog. set (s := cv_storage v) in *.
  destruct (view_get s _) eqn:Ei; [|by left].
  destruct body as [|threshold [|count rest]]; try by left. cbv zeta.
  set (n := Z.to_nat (byte_Z count)). destruct (_ || _) eqn:Ec; [by left|]. right.
  apply orb_false_iff in Ec as [Ec Hlt]. apply orb_false_iff in Ec as [_ H0].
  apply Z.eqb_neq in H0. apply Z.ltb_ge in Hlt. clear Hlt.
  assert (¬ ms_ready s) as Hnr by (intros Hr; by apply Hr). split; [done|].
  pose proof (byte_Z_range threshold) as Ht. pose proof (byte_Z_range count) as Hn. run_prog.
  rewrite exec_bind. run_prog.
  destruct (ms_add_owners_frame 0 n rest (view_put (bstr "n") (to_le_bytes 8 (Z.of_nat n))
    (view_put (bstr "t") (to_le_bytes 8 (byte_Z threshold)) v))) as (Hf&l&Hl&Ho).
  set (v1 := (exec (ms_add_owners 0 n rest) _).2) in *. revert Hf Ho. run_prog. fold s. intros Hf Ho.
  set (s0 := <[bstr "n" := _]> _) in *. set (s1 := cv_storage v1) in *.
  assert (∀ key, key ≠ bstr "init" → view_get (<[bstr "init" := [x01]]> s1) key = view_get s1 key) as Hi1
    by (intros key Hk; by apply view_get_other, not_eq_sym).
  assert (∀ a, ¬ ms_owner s a) as Hno by (intros a; by apply (ms_closed s Hi)).
  assert (∀ aid, length aid = 8%nat → ms_count s aid = 0) as Hc0.
  { intros aid Ha. destruct (ms_counted s Hi aid Ha) as ([|o l']&_&<-&Hin); [done|].
    destruct (proj1 (Hin o) ltac:(set_solver)) as [Hv Hlo]. exfalso. by apply (Hno o), (ms_voters s Hi aid o). }
  assert (∀ key, (∀ j, key ≠ ms_index_key j) → (∀ a, key ≠ ms_owner_key a) →
    key ≠ bstr "init" → key ≠ bstr "t" → key ≠ bstr "n" →
    view_get (<[bstr "init" := [x01]]> s1) key = view_get s key) as Hs.
  { intros key H1 H2 H3 H4 H5. rewrite Hi1, Hf by done. unfold s0. by rewrite !view_get_other by congruence. }
  set (s' := <[bstr "init" := [x01]]> s1) in *.
  assert (ms_threshold s' = byte_Z threshold) as Et.
  { unfold ms_threshold. rewrite (view_u64_get s0 s'); [|unfold s'; rewrite Hi1 by done; by apply Hf].
    unfold s0. rewrite view_u64_other by done. rewrite view_u64_insert, decide_True by
      (done || (unfold is_u64, u64_max; lia)). done. }
  assert (∀ aid, ms_count s' aid = ms_count s aid) as Ecount.
  { intros aid. by apply view_u64_get, Hs. }
  assert (∀ aid o, ms_voted s' aid o ↔ ms_voted s aid o) as Ev by (intros; unfold ms_voted; by rewrite Hs).
  assert (∀ a, ms_owner s' a → a ∈ l) as Hin.
  { intros a Ha. unfold ms_owner in Ha. rewrite Hi1 in Ha by done. destruct (Ho a Ha) as [Ha'|]; [|done].
    destruct (Hno a). unfold ms_owner, s0 in *. by rewrite !view_get_other in Ha' by done. }
  constructor.
  - exists l. split; [lia|done].
  - intros aid Ha. exists []. rewrite Ecount, Hc0 by done. split_and!; [constructor|done|].
    intros o. split; [set_solver|]. intros [Hv Hlo]. apply Ev in Hv.
    exfalso. by apply (Hno o), (ms_voters s Hi aid o).
  - intros aid o Ha Hlo Hv. apply Ev in Hv. exfalso. by apply (Hno o), (ms_voters s Hi aid o).
  - intros aid Ha He. unfold ms_executed in He. rewrite Hs in He by done.
    pose proof (ms_reached s Hi aid Ha He). rewrite Hc0 in * by done. lia.
  - intros _. rewrite Et. lia.
  - intros a Hr. destruct Hr. unfold ms_ready, s'. rewrite view_get_at; [done|vm_compute; lia].
Qed.

Lemma ms_is_owner_view addr v :
  exec (ms_is_owner addr) v = (match view_get (cv_storage v) (ms_owner_key addr) with [] => false | _ => true end, v).
Proof. done. Qed.

(** What proposing and approving do. *)
Lemma ms_approve_effect v body :
  (exec (ms_approve body) v).2 = v ∨
  let owner := take 20 body in let aid := take 8 (drop 20 body) in
  length owner = 20%nat ∧ length aid = 8%nat ∧ ms_owner (cv_storage v) owner ∧
  (exec (ms_approve body) v).2 = (exec (ms_record_vote aid owner) v).2.
Proof.
  unfold ms_approve. destruct (length body <? 28)%nat eqn:El; [by left|]. apply Nat.ltb_ge in El.
  cbv zeta. rewrite exec_bind, ms_is_owner_view. cbn [fst snd].
  destruct (view_get _ _) eqn:Eo; [by left|]. right. rewrite !length_take, length_drop.
  split_and!; [lia|lia|unfold ms_owner; by rewrite Eo|done].
Qed.

Lemma ms_propose_effect v body :
  (exec (ms_propose body) v).2 = v ∨
  let owner := take 20 body in let aid := take 8 (drop 20 body) in
  length owner = 20%nat ∧ length aid = 8%nat ∧ ms_owner (cv_storage v) owner ∧
  cv_storage (exec (ms_propose body) v).2 =
    cv_storage (exec (ms_record_vote aid owner) (view_put (ms_proposal_key aid) (drop 28 body) v)).2.
Proof.
  unfold ms_propose. destruct (length body <? 28)%nat eqn:El; [by left|]. apply Nat.ltb_ge in El.
  cbv zeta. rewrite exec_bind, ms_is_owner_view. cbn [fst snd].
  destruct (view_get _ _) eqn:Eo; [by left|]. cbn [negb]. run_prog.
  destruct (view_get _ (ms_proposal_key _)) eqn:Ep; [|by left]. right. run_prog.
  rewrite exec_bind, !length_take, length_drop.
  split_and!; [lia|lia|unfold ms_owner; by rewrite Eo|done].
Qed.

(** Proposals are apart from the rest of the state. *)
Lemma ms_inv_proposal s aid payload : ms_inv s → ms_inv (<[ms_proposal_key aid := payload]> s).
Proof.
  intros Hi. set (s' := <[_ := _]> s).
  assert (∀ key, key ≠ ms_proposal_key aid → view_get s' key = view_get s key) as Hf
    by (intros key Hk; by apply view_get_other, not_eq_sym).
  constructor; unfold ms_owner, ms_voted, ms_executed, ms_ready, ms_threshold, ms_count, view_u64.
  - destruct (ms_owners_few s Hi) as (l&Hl&Hin). exists l. split; [done|].
    intros a. rewrite Hf by done. apply Hin.
  - intros a Ha. destruct (ms_counted s Hi a Ha) as (l&Hnd&Hl&Hin). exists l.
    rewrite Hf by done. split_and!; [done|done|]. intros o. rewrite Hf by done. apply Hin.
  - intros a o. rewrite !Hf by done. apply (ms_voters s Hi).
  - intros a. rewrite !Hf by done. apply (ms_reached s Hi).
  - rewrite !Hf by done. apply (ms_started s Hi).
  - intros a. rewrite !Hf by done. apply (ms_closed s Hi).
Qed.

Lemma keeps_ms_run : keeps ms_inv ms_run.
Proof.
  apply keeps_run_entry. intros selector body.
  destruct (decide (selector = x01)) as [->|].
  { intros v Hv. by destruct (ms_init_effect v body Hv) as [->|[_ ?]]. }
  destruct (decide (selector = x02)) as [->|].
  { intros v Hv. destruct (ms_propose_effect v body) as [->|(Hlo&Hla&Ho&->)]; [done|].
    apply keeps_record_vote; try done; [by apply ms_inv_proposal|].
    unfold ms_owner in *. run_prog. by rewrite view_get_other. }
  destruct (decide (selector = x03)) as [->|].
  { intros v Hv. destruct (ms_approve_effect v body) as [->|(Hlo&Hla&Ho&->)]; [done|].
    by apply keeps_record_vote. }
  destruct selector; first [apply keeps_ret | done].
Qed.

(** A vote is recorded for the owner that is named. *)
Lemma record_vote_frame aid owner v key :
  key ≠ ms_vote_key aid owner → key ≠ ms_count_key aid → key ≠ ms_executed_key aid →
  view_get (cv_storage (exec (ms_record_vote aid owner) v).2) key = view_get (cv_storage v) key.
Proof.
  intros H1%not_eq_sym H2%not_eq_sym H3%not_eq_sym. unfold ms_record_vote. cbv zeta. run_prog.
  destruct (view_get (cv_storage v) (ms_vote_key aid owner)); [|reflexivity]. run_prog.
  generalize (to_le_bytes 8 (add64 (read_value_u64 (view_get
    (<[ms_vote_key aid owner:=[x01]]> (cv_storage v)) (ms_count_key aid))) 1)). intros count.
  match goal with |- context [if ?b then _ else _] => destruct b end.
  - run_prog. match goal with |- context [match ?b with [] => _ | _ :: _ => _ end] => destruct b end; run_prog.
    + rewrite !view_get_other by assumption. reflexivity.
    + rewrite !view_get_other by assumption. reflexivity.
  - run_prog. rewrite !view_get_other by assumption. reflexivity.
Qed.

Lemma approve_vote v body aid owner :
  length aid = 8%nat →
  ms_voted (cv_storage (exec (ms_approve body) v).2) aid owner → ¬ ms_voted (cv_storage v) aid owner →
  owner = take 20 body ∧ aid = take 8 (drop 20 body).
Proof.
  intros Ha Hv Hn. destruct (ms_approve_effect v body) as [E|(Hlo&Hla&Ho&E)]; rewrite E in Hv; [done|].
  unfold ms_voted in *.
  destruct (decide (ms_vote_key aid owner = ms_vote_key (take 8 (drop 20 body)) (take 20 body))) as [Ek|Hne].
  - by apply ms_vote_key_inj in Ek as [-> ->]; [|congruence].
  - by rewrite record_vote_frame in Hv by done.
Qed.

Lemma propose_vote v body aid owner :
  length aid = 8%nat →
  ms_voted (cv_storage (exec (ms_propose body) v).2) aid owner → ¬ ms_voted (cv_storage v) aid owner →
  owner = take 20 body ∧ aid = take 8 (drop 20 body).
Proof.
  intros Ha Hv Hn. destruct (ms_propose_effect v body) as [E|(Hlo&Hla&Ho&E)]; [by rewrite E in Hv|].
  rewrite E in Hv. unfold ms_voted in *.
  destruct (decide (ms_vote_key aid owner = ms_vote_key (take 8 (drop 20 body)) (take 20 body))) as [Ek|Hne].
  - by apply ms_vote_key_inj in Ek as [-> ->]; [|congruence].
  - rewrite record_vote_frame in Hv by done. revert Hv. run_prog. by rewrite view_get_other.
Qed.

Lemma init_vote v body aid owner :
  ms_inv (cv_storage v) → length aid = 8%nat → length owner = 20%nat →
  ms_voted (cv_storage (exec (ms_init body) v).2) aid owner → ms_voted (cv_storage v) aid owner.
Proof.
  intros Hi Ha Ho Hv. unfold ms_init in Hv. revert Hv. run_prog.
  destruct (view_get _ _); [|done]. destruct body as [|threshold [|count rest]]; try done. cbv zeta.
  destruct (_ || _); [done|]. run_prog. rewrite exec_bind. run_prog. unfold ms_voted.
  rewrite view_get_other by done.
  match goal with |- context [exec (ms_add_owners ?i ?n ?r) ?w] =>
    destruct (ms_add_owners_frame i n r w) as [Hf _] end.
  rewrite Hf by done. run_prog. by rewrite !view_get_other by done.
Qed.

(** C32: the multisig wallet on the chain: an action that is executed has the votes of at
    least as many different owners as the threshold, in every storage that is reached;
    a vote of an owner appears only by a call that names the owner and the action. *)
Theorem multisig_contract_sound `{Sha3} `{Wasmer} (contract : ContractState) (artifact : Artifact)
    (bs : bytes) (metered : bool) (addr : bytes) (s : gmap bytes bytes) (aid : bytes) :
  compile (code contract) = Ok (artifact, bs, metered) → built_from ms_run artifact →
  reached contract addr s → length aid = 8%nat →
  (ms_executed s aid →
   ∃ owners, NoDup owners ∧ 1 ≤ ms_threshold s ≤ Z.of_nat (length owners) ∧
     ∀ owner, owner ∈ owners → length owner = 20%nat ∧ ms_owner s owner ∧ ms_voted s aid owner) ∧
  ∀ data caller value gas_limit s' receipt owner,
    vm_call (with_storage s contract) addr data caller value gas_limit = Ok (s', receipt) →
    Z.of_nat (length data) < 2 ^ 31 → length owner = 20%nat →
    ms_voted s' aid owner → ¬ ms_voted s aid owner →
    ∃ selector rest, data = selector :: owner ++ aid ++ rest ∧ selector ∈ [x02; x03].
Proof.
  intros Hc Hb Hr Ha.
  assert (ms_inv s) as Hi.
  { apply (reached_keeps ms_run ms_inv contract artifact bs metered addr s Hc Hb); [|apply keeps_ms_run|done].
    constructor.
    - exists []. split; [simpl; lia|]. intros a Ho. by destruct Ho.
    - intros a _. exists []. split_and!; [constructor|done|]. intros o. split; [set_solver|].
      intros [Hv _]. by destruct Hv.
    - intros a o _ _ Hv. by destruct Hv.
    - intros a _ He. by destruct He.
    - intros He. by destruct He.
    - intros a _ Ho. by destruct Ho. }
  split.
  - intros He. destruct (ms_counted s Hi aid Ha) as (l&Hnd&Hl&Hin). exists l. split; [done|].
    split; [rewrite Hl; by apply (ms_reached s Hi)|]. intros o [Hv Ho]%Hin.
    split_and!; [done|by apply (ms_voters s Hi aid)|done].
  - intros data caller value gas_limit s' receipt owner Hv Hl Ho Hv1 Hv0.
    destruct (sdk_call_refines ms_run (with_storage s contract) artifact bs metered _ _ _ _ _ _ _ Hc Hb Hv)
      as [-> _]. set (v := call_view _ _ _ _) in *.
    destruct data as [|selector body].
    { unfold ms_run, run_entry in Hv1. by rewrite exec_bind, (input_raw_view v Hl) in Hv1. }
    unfold ms_run in Hv1. rewrite (run_entry_view _ v selector body Hl eq_refl) in Hv1.
    assert (∀ owner', owner' = take 20 body ∧ aid = take 8 (drop 20 body) →
      body = owner' ++ aid ++ drop 28 body) as Hbody.
    { intros o [-> ->]. change 28%nat with (20 + 8)%nat. by rewrite <- drop_drop, !take_drop. }
    destruct (decide (selector = x01)) as [->|].
    { destruct Hv0. by apply (init_vote v body). }
    exists selector, (drop 28 body). destruct (decide (selector = x02)) as [->|].
    { split; [|set_solver]. f_equal. by apply Hbody, (propose_vote v). }
    destruct (decide (selector = x03)) as [->|].
    { split; [|set_solver]. f_equal. by apply Hbody, (approve_vote v). }
    exfalso. apply Hv0. by destruct selector.
Qed.

(** An owner's vote for an action that nobody proposed executes it. *)
Example ms_unproposed_executed :
  let owner := replicate 20 x07 in let aid := replicate 8 x01 in
  let s := calls_storage ms_run [x01 :: x01 :: x01 :: owner; x03 :: owner ++ aid] ∅ in
  view_get s (ms_proposal_key aid) = [] ∧ view_get s (ms_executed_key aid) = [x01].
Proof. vm_compute. done. Qed.

(** An owner that is listed twice counts once, so a threshold of two is out of reach. *)
Example ms_duplicate_owner :
  let owner := replicate 20 x07 in let aid := replicate 8 x01 in
  let s := calls_storage ms_run
    [x01 :: x02 :: x02 :: owner ++ owner; x02 :: owner ++ aid ++ [x01]; x03 :: owner ++ aid] ∅ in
  (ms_count s aid, ms_threshold s) = (1, 2) ∧ view_get s (ms_executed_key aid) = [].
Proof. vm_compute. done. Qed.

(** ** Witnesses *)

Definition vest_data : bytes :=
  x01 :: replicate 20 x09 ++ to_le_bytes 8 1000 ++ to_le_bytes 8 100 ++ to_le_bytes 8 50.
Definition vest_storage : gmap bytes bytes := (sdk_call vest_run ∅ vest_data).1.
Definition vest_claim : bytes := x02 :: to_le_bytes 8 125.

(** Half of the time, half of the tokens. *)
Lemma vesting_contract_sound_witness :
  vest_released (sdk_call vest_run vest_storage vest_claim).1 = 500 ∧
  released_after vest_claim vest_storage = 500.
Proof.
  destruct (@vesting_contract_sound demo_sha3 (sdk_wasmer vest_run) sdk_contract (artifact_of vest_run)
    [x00; x61] false [x01] vest_storage (sdk_compile vest_run) (built_from_artifact_of vest_run)
    (reached_sdk_call vest_run vest_data ltac:(vm_compute; exact eq_refl))) as [_ Hs].
  destruct (Hs _ _ _ _ _ _ (sdk_call_run vest_run vest_storage vest_claim ltac:(vm_compute; exact eq_refl))
    ltac:(vm_compute; exact eq_refl) ltac:(vm_compute; discriminate)) as (_&Hr&_).
  assert (released_after vest_claim vest_storage = 500) as Ha by (vm_compute; exact eq_refl).
  exact (conj (eq_trans Hr Ha) Ha).
Defined.

Definition ms_owners : bytes := replicate 20 x07 ++ replicate 20 x08.
Definition ms_action : bytes := replicate 8 x01.
Definition ms_opened : gmap bytes bytes := (sdk_call ms_run ∅ (x01 :: x02 :: x02 :: ms_owners)).1.
Definition ms_proposed : gmap bytes bytes :=
  (sdk_call ms_run ms_opened (x02 :: replicate 20 x07 ++ ms_action ++ [x2a])).1.
Definition ms_approved : gmap bytes bytes :=
  (sdk_call ms_run ms_proposed (x03 :: replicate 20 x08 ++ ms_action)).1.

Lemma ms_approved_reached : @reached demo_sha3 (sdk_wasmer ms_run) sdk_contract [x01] ms_approved.
Proof.
  eapply (@reached_call demo_sha3 (sdk_wasmer ms_run) _ _ ms_proposed);
    [|apply sdk_call_run; vm_compute; exact eq_refl].
  eapply (@reached_call demo_sha3 (sdk_wasmer ms_run) _ _ ms_opened);
    [|apply sdk_call_run; vm_compute; exact eq_refl].
  apply reached_sdk_call. vm_compute. exact eq_refl.
Qed.

(** Two owners of two have voted for the action that is executed. *)
Lemma multisig_contract_sound_witness :
  ∃ owners, NoDup owners ∧ 1 ≤ ms_threshold ms_approved ≤ Z.of_nat (length owners) ∧
    ∀ owner, owner ∈ owners →
      length owner = 20%nat ∧ ms_owner ms_approved owner ∧ ms_voted ms_approved ms_action owner.
Proof.
  exact (proj1 (@multisig_contract_sound demo_sha3 (sdk_wasmer ms_run) sdk_contract (artifact_of ms_run)
    [x00; x61] false [x01] ms_approved ms_action (sdk_compile ms_run) (built_from_artifact_of ms_run)
    ms_approved_reached eq_refl) ltac:(vm_compute; discriminate)).
Defined.
